(* ===== verification/_CoqProject ===== *)
-Q . S2P
Prelude.v
Subjects.v
Proto.v
ProtoLex.v
Decimal.v
ProtoFeed.v
ProtoStream.v
ProtoRoundtrip.v
External.v
Arena.v
Frames.v
Outbox.v
Waiting.v
Writer.v
Nuid.v
Hasher.v
Options.v
Registry.v
Interest.v
QueueGroups.v
Conn.v
Route.v
Client.v
RouteSteps.v
Races.v
LimitRace.v
LiveSteps.v
Lasting.v
Server.v
Order.v
ReadLoop.v
WriteLoop.v
ReadTask.v
Delivery.v
Info.v
Config.v
ConfigFile.v
Net.v
Alloc.v
TestClient.v
BenchScan.v
Bench.v
BenchMain.v
AsyncBench.v
Driver.v
Process.v
Harness.v
Scenarios.v
RaceRuns.v
