(* ===== verification/Prelude.v ===== *)
(** * A verified model of nats-server-rs

    The server (crates/server/src) speaks the NATS client protocol over TCP.  One
    reader task per connection parses the byte stream (proto.rs) and carries out
    each operation in order (client.rs, [handle]); publishing an operation looks up
    the subscriptions of all connections (routing.rs, subjects.rs), lays a frame out
    for each of them (arena.rs, routing.rs) and queues it on the subscriber's outbox
    (client.rs); one writer task per connection moves queued frames to the socket
    (client.rs).  lib.rs, info.rs and nuid.rs hold the server object, its greeting
    and its random numbers; config.rs reads the command line and the configuration
    file, net.rs accepts connections up to the configured limit, and main.rs is the
    process around it.  Beside the server the repository has a counting allocator
    (allocstats.rs), a test client (crates/core-it), a harness that starts the server
    (crates/harness) and benchmarks (crates/bench, crates/server/examples).

    The development follows those parts, bottom up.

    - [Prelude] (this file): bytes, machine integers, results, slices, tactics, the
      hint database [nats] and the lemmas every file uses.
    - [Subjects]: subjects.rs.  Validation and matching, proved to decide the
      declarative subject grammar and wildcard relation.
    - [Proto]: proto.rs.  The parser as written: [feed_into] is a loop over the read
      buffer, with fuel.  Every pass that goes round again takes a CRLF off the
      buffer, so one more pass than there are bytes is enough ([ProtoFeed]).
      [ProtoLex] characterises the argument splitter, [ProtoFeed] proves that
      feeding terminates and keeps the parser state well formed, [ProtoStream] that
      cutting the stream into reads does not matter (and what it does to a body in
      three or more reads), [ProtoRoundtrip] that the text of any legal command
      parses to that command.
    - [Decimal]: [push_u64] and the decimal text of sizes, inverse to [parse_size].
    - [External]: interfaces for the crates the server calls: [BytesMut], the tokio
      channel, serde_json.  Each has its documented laws and a concrete instance.
    - [Arena], [Frames]: arena.rs and the frames of routing.rs and client.rs, proved
      to be the protocol text of a delivery, within the space reserved for it.
    - [Outbox], [Writer]: the byte-counted queue and the writer task.  The kernel's
      answer to each write is a parameter; [Writer] proves first-in first-out
      delivery and exact byte accounting over the runs of an open connection in which
      the kernel takes a batch of one buffer whole ([whole_single]), and states the
      cases in which bytes are lost ([short_single_write_loses_bytes]).
    - [Waiting]: a publisher in [wait_for_space] against [push], [drained] and
      [finish], one atomic access at a time, with tokio's [Notify] as an interface.
      Without a refused control line no wake-up is lost and the publisher is let go
      ([waiter_released]); with one it can be ([refused_control_line_loses_wakeup]).
    - [Nuid]: splitmix64 never repeats within 2^64 draws; the shape of server ids.
    - [Hasher]: the hash of the subject map; two subjects of one length that differ in
      one block of eight bytes leave different hash states.
    - [Options]: CONNECT's flags, packed and unpacked, and the effect of a CONNECT.
    - [Registry], [Interest], [QueueGroups]: the registry refines a bag of
      subscriptions; the per-task caches are never stale; a queue group gets a
      message once.
    - [Conn], [Route], [Client]: the shared state of the server ([World]): the
      connections by address, the counters of subscriptions, the registry.  The
      operations of [Conn], [Registry::route] and [handle] are functions on it.
      [route_delivers] says what every subscriber is sent; [subscribe_correct],
      [unsubscribe_correct], [close_is_final] and [silent_close] say what each
      operation does on every branch.
    - [RouteSteps]: [route], SUB, UNSUB and [finish] again, one load, store, lock and push
      at a time; a task that is left alone does what the operation does as a whole
      (lemma [task_alone_atomic]).  [Races] lets all tasks interleave at those accesses: the
      registry behind its lock and its generation counter is still one bag of
      subscriptions ([registry_linearizable]).  [LimitRace] bounds what a delivery
      limit is exceeded by when publishers race ([limit_bounded]), by counting the
      tasks that may still deliver and those that hold the subscription as spent.
    - [LiveSteps]: the invariant of the server at every moment of those interleavings
      ([race_invariant]): what is registered is in its connection's table, or held by the
      SUB or UNSUB that is working on it, or belongs to a closed connection.
    - [Lasting]: two states of a subscription that no later step leaves: registered by a
      SUB on a closed connection, and spent but still in its table.
    - [Server]: spawning, events, keepalive ticks, parse errors, closes and writer
      steps as one transition system with whole operations as steps, and the invariant
      between them (at every single access it is [race_invariant] that holds).
    - [Order]: no step of the server reorders or drops a queued frame.
    - [ReadLoop]: one pass of [read_loop] on whatever wakes it: the batch parsed from
      a read, in order, parse errors, the size of the read buffer, the first
      keepalive; the connections a publish has to wait for are listed.
      [read_segment_in_order] composes it with [ProtoRoundtrip].
    - [WriteLoop]: [write_loop] with its selects, its deadline and every way it ends,
      and the end of [spawn]; with the readers' operations as single steps they refine
      [Server].  After a soft close the writer flushes what is left and ends.
    - [ReadTask]: [read_loop] with its awaits: the head of the loop, the [select!], each
      operation of a batch, and each wait for a stalled subscriber are steps.  With the
      writers and the ends of [spawn] these are all the tasks of the server; they
      refine [WriteLoop]'s system ([reader_tasks_refine_server]), and the ten-second
      backstop of [spawn] never does anything.
    - [Delivery]: all tasks together.  What a connection is sent is one stream that only
      grows at its end, and the bytes of a publish on one socket become the bytes of
      its deliveries on the others ([publish_reaches_socket]).  Both ask of the
      connection's kernel that it takes a batch of one buffer whole ([kernel_gentle]).
    - [Info]: info.rs.  A JSON reader gets back exactly what was put into the line.
    - [Config], [ConfigFile]: config.rs.  Options, flags and the configuration file,
      both proved to round-trip, the file for the options it can express
      ([config_ok]); durations as the code reads them, through an [f64].
      The scan of a duration has fuel: each pass takes a character, so one more than
      the text has is enough ([duration_loop_show]).
    - [Net]: net.rs.  The accept loop and the tasks that end, interleaved at their
      atomic operations: the limit is never exceeded.
    - [Process]: main.rs.  What the process does, in order, on every outcome.
    - [Alloc]: allocstats.rs.  The counters over a history of allocator calls.
    - [TestClient]: the test client, composed with [Frames] and [ProtoRoundtrip]: it
      reads what the server writes and its frames parse.
    - [BenchScan], [Bench]: the subscriber and the publisher of the flood benchmarks
      and parsebench: they count what the server delivers and send what they claim.
    - [BenchMain]: the benchmark programs around those loops: arguments, handshakes, a
      whole run of [floodpub] and of parsebench, and the latency percentiles.
    - [AsyncBench]: the benchmarks on the async-nats library, which is an interface with
      the laws of publishing and of a subscription's stream.
    - [Driver]: the driver of the publish/subscribe flood with its two threads, as steps
      on their shared flags: what it reports was delivered, and two ways it goes wrong.
    - [Harness]: starting a server and finding its address, composed with [Process].
    - [Scenarios]: concrete sessions, run by evaluation, from events and from bytes.
    - [RaceRuns]: concrete schedules of the tasks of [Races]: the bound of [LimitRace] is
      reached, an expiry takes out a subscription made anew under the same sid, and the
      theorems of [LiveSteps] and [Lasting] at work.

    ** Modelling choices

    - [Bytes] and buffers are their contents; reference counts and allocation are
      not modelled, except the capacity of the frame arena.
    - [u64] and [usize] are integers, with wrap-around written out ([wrap64]) where
      the code adds, subtracts or multiplies without a bound that rules it out.
    - An [Arc<Conn>] is an address ([cref]), which is all that [is_same] looks at; an
      [Arc<Sub>] is the immutable fields with the address of its two counters.
    - In [Server], [WriteLoop], [ReadTask] and [Delivery] an operation of a task (one
      event, one tick, one batch of the writer, one write) is one step; tasks interleave
      between steps.  [Waiting], [Net] and [RouteSteps] with [Races], [LimitRace],
      [LiveSteps] and [Lasting] go below that level, to the atomic accesses and
      critical sections of their code.  There memory is sequentially consistent: the code's relaxed accesses are to
      counters read under the registry's lock or to single counters.  In [Races] the
      sampling of queue groups and one push on an outbox are single steps, and
      whatever else happens to connections (writers, keepalives, options) may happen
      at any point, as long as it leaves their tables of subscriptions alone.
    - In [ReadTask] the wait for a stalled subscriber ends when [wait_for_space] comes
      back and the test behind it ([stall_over]) holds; [Waiting] has the wait itself,
      and when it is let go.
    - What the kernel answers to a write is free, up to the bytes it was offered.  The
      theorems on the order of a connection's bytes ask for more, and say so: a batch of
      one buffer is taken whole or not at all ([whole_single]), since the code loses
      bytes otherwise.
    - Time is an event: a deadline, a timeout or a tick may come at any point where
      the code waits for one.  Loops of tasks are steps, so they need no fuel; that
      they come to rest is proved with a rank ([sn_rank]).  The scanner of [BenchScan]
      has fuel: each pass takes a byte or stops, so one more than the buffer holds is
      enough.
    - Counters that count operations (the registry's generation, the addresses of
      subscriptions) are assumed not to wrap: the theorems ask for [headroom].

    - In config.rs a string is its characters; a duration is a number of nanoseconds,
      and an error of the configuration file is its kind with its arguments.

    Not modelled: the system calls behind binding, accepting, reading, writing and
    starting processes; the allocation of buffers; the loop of the
    dumper thread of allocstats.rs; the clocks of the benchmarks and the rates they
    print. *)

From Stdlib Require Export ZArith Lia.
From Stdlib Require Import String Strings.Byte NArith.
From stdpp Require Export base option list list_numbers gmap.
From stdpp Require Import relations.

#[global] Set Default Goal Selector "!".

(** ** Scopes, notations and hint databases of the development *)

Declare Scope nats_scope.
Delimit Scope nats_scope with nats.
Open Scope nats_scope.

Create HintDb nats.
Create Rewrite HintDb nats.

(** ** Bytes *)

Abbreviation byte := (Corelib.Init.Byte.byte).
Abbreviation bytes := (list byte).

#[global] Instance byte_eq_dec : EqDecision byte := Byte.byte_eq_dec.
#[global] Instance byte_countable : Countable byte :=
  inj_countable Byte.to_N Byte.of_N Byte.of_to_N.
#[global] Instance byte_inhabited : Inhabited byte := populate x00.

(** A Rust byte-string literal. *)
Definition bs (s : string) : bytes := String.list_byte_of_string s.
Arguments bs : simpl never.

(** The numeric value of a [u8]. *)
Definition u8 (b : byte) : Z := Z.of_N (Byte.to_N b).

(** [x as u8]: the byte of a number, modulo 256. *)
Definition as_u8 (z : Z) : byte :=
  match Byte.of_N (Z.to_N (z mod 256)) with
  | Some b => b
  | None => x00
  end.

(** [slice.len()] as a machine-sized number. *)
Definition blen {A} (l : list A) : Z := Z.of_nat (length l).

(** ** Machine integers *)

Definition u64_modulus : Z := 2 ^ 64.
Definition usize_max : Z := u64_modulus - 1.

(** Wrap-around to 64 bits: the release build's [usize]/[u64] arithmetic. *)
Definition wrap64 (z : Z) : Z := z mod u64_modulus.

Definition in_u64 (z : Z) : Prop := (0 <= z < u64_modulus)%Z.

(** ** Results

    [Result<A, E>]: fallible code returns a value of this sum. *)

Inductive result (A E : Type) : Type :=
| Ok (a : A)
| Err (e : E).
Arguments Ok {A E} a.
Arguments Err {A E} e.

#[global] Instance result_eq_dec `{EqDecision A, EqDecision E} :
  EqDecision (result A E).
Proof. solve_decision. Defined.

(** The [?] operator. *)
Definition rbind {A B E} (r : result A E) (k : A -> result B E) : result B E :=
  match r with
  | Ok a => k a
  | Err e => Err e
  end.

Notation "x <-? r ;; k" := (rbind r (fun x => k))
  (at level 60, r at next level, right associativity) : nats_scope.

(** ** Slices *)

(** [slice.split(p)]: the pieces between the elements that satisfy [p]; a slice
    with no such element is one piece, so the result is never empty. *)
Fixpoint split_on (p : byte -> bool) (l : bytes) : list bytes :=
  match l with
  | [] => [[]]
  | b :: l' =>
      if p b then [] :: split_on p l'
      else match split_on p l' with
           | [] => [[b]]
           | t :: ts => (b :: t) :: ts
           end
  end.

(** The inverse of [split_on]: the pieces with the separator between them. *)
Fixpoint join_with (sep : byte) (ts : list bytes) : bytes :=
  match ts with
  | [] => []
  | [t] => t
  | t :: ts' => t ++ sep :: join_with sep ts'
  end.

(** [iter().position(p)]. *)
Fixpoint position {A} (p : A -> bool) (l : list A) : option nat :=
  match l with
  | [] => None
  | a :: l' => if p a then Some 0 else S <$> position p l'
  end.

(** [&l[a..b]]. *)
Definition slice (a b : nat) (l : bytes) : bytes := take (b - a) (drop a l).

(** [slice.is_empty()]. *)
Definition is_empty {A} (l : list A) : bool :=
  match l with [] => true | _ => false end.

(** [u8::is_ascii_digit]. *)
Definition is_ascii_digit (b : byte) : bool := (48 <=? u8 b)%Z && (u8 b <=? 57)%Z.

(** [u8::to_ascii_lowercase]. *)
Definition to_ascii_lowercase (b : byte) : byte :=
  if (65 <=? u8 b)%Z && (u8 b <=? 90)%Z then as_u8 (u8 b + 32) else b.

(** [u8::eq_ignore_ascii_case]. *)
Definition eq_ignore_ascii_case (x y : byte) : bool :=
  bool_decide (to_ascii_lowercase x = to_ascii_lowercase y).

(** ** Tactics *)

(** Turn boolean tests in the context and the goal into propositions. *)
Ltac bool_to_prop :=
  repeat match goal with
  | H : _ && _ = true |- _ => apply andb_true_iff in H as [? ?]
  | H : _ || _ = false |- _ => apply orb_false_iff in H as [? ?]
  | H : negb _ = true |- _ => apply negb_true_iff in H
  | H : negb _ = false |- _ => apply negb_false_iff in H
  | H : (_ <=? _)%Z = true |- _ => apply Z.leb_le in H
  | H : (_ <=? _)%Z = false |- _ => apply Z.leb_gt in H
  | H : (_ <? _)%Z = true |- _ => apply Z.ltb_lt in H
  | H : (_ <? _)%Z = false |- _ => apply Z.ltb_ge in H
  | H : (_ >? _)%Z = true |- _ => rewrite Z.gtb_ltb in H; apply Z.ltb_lt in H
  | H : (_ >? _)%Z = false |- _ => rewrite Z.gtb_ltb in H; apply Z.ltb_ge in H
  | H : (_ =? _)%Z = true |- _ => apply Z.eqb_eq in H
  | H : (_ =? _)%Z = false |- _ => apply Z.eqb_neq in H
  | H : (_ <=? _)%nat = true |- _ => apply Nat.leb_le in H
  | H : (_ <=? _)%nat = false |- _ => apply Nat.leb_gt in H
  | H : (_ <? _)%nat = true |- _ => apply Nat.ltb_lt in H
  | H : (_ <? _)%nat = false |- _ => apply Nat.ltb_ge in H
  | H : (_ =? _)%nat = true |- _ => apply Nat.eqb_eq in H
  | H : (_ =? _)%nat = false |- _ => apply Nat.eqb_neq in H
  | H : bool_decide _ = true |- _ => apply bool_decide_eq_true in H
  | H : bool_decide _ = false |- _ => apply bool_decide_eq_false in H
  | H : is_empty ?l = true |- _ => destruct l; [clear H | discriminate H]
  end.

(** Case split on the scrutinee of the outermost test or match of the goal or a
    hypothesis, keeping the equation as a proposition. *)
Ltac split_test :=
  match goal with
  | |- context [if ?c then _ else _] => let E := fresh "E" in destruct c eqn:E
  | H : context [if ?c then _ else _] |- _ => let E := fresh "E" in destruct c eqn:E
  end; bool_to_prop; simplify_eq/=.

(** ** Lemmas on bytes, slices and integers *)

Lemma u8_range b : (0 <= u8 b < 256)%Z.
Proof. unfold u8. pose proof (Byte.to_N_bounded b). lia. Qed.

Lemma u8_inj b c : u8 b = u8 c -> b = c.
Proof.
  unfold u8. intros H%N2Z.inj.
  apply (f_equal Byte.of_N) in H. rewrite !Byte.of_to_N in H. congruence.
Qed.

Lemma u8_as_u8 z : (0 <= z < 256)%Z -> u8 (as_u8 z) = z.
Proof.
  intros Hz. unfold as_u8. rewrite Z.mod_small by lia.
  destruct (Byte.of_N (Z.to_N z)) eqn:E.
  - unfold u8. apply Byte.to_of_N in E. rewrite E. lia.
  - apply Byte.of_N_None_iff in E. lia.
Qed.

Lemma as_u8_u8 b : as_u8 (u8 b) = b.
Proof. apply u8_inj, u8_as_u8, u8_range. Qed.

Lemma blen_nonneg {A} (l : list A) : (0 <= blen l)%Z.
Proof. unfold blen. lia. Qed.

Lemma blen_app {A} (l k : list A) : blen (l ++ k) = (blen l + blen k)%Z.
Proof. unfold blen. rewrite length_app. lia. Qed.

Lemma blen_pos {A} (l : list A) : l <> [] -> (0 < blen l)%Z.
Proof. destruct l; [done |]. unfold blen. simpl. lia. Qed.

Lemma blen_cons {A} (a : A) l : blen (a :: l) = (1 + blen l)%Z.
Proof. unfold blen. simpl. lia. Qed.

Lemma blen_nil {A} : blen (@nil A) = 0%Z.
Proof. reflexivity. Qed.

#[export] Hint Rewrite @blen_app @blen_cons @blen_nil : nats.
#[export] Hint Resolve u8_range blen_nonneg : nats.

Lemma wrap64_range z : in_u64 (wrap64 z).
Proof. apply Z.mod_pos_bound. reflexivity. Qed.

Lemma wrap64_small z : in_u64 z -> wrap64 z = z.
Proof. apply Z.mod_small. Qed.

Lemma wrap64_idem z : wrap64 (wrap64 z) = wrap64 z.
Proof. unfold wrap64. by rewrite Z.mod_mod. Qed.

Lemma wrap64_add_l a b : wrap64 (wrap64 a + b) = wrap64 (a + b).
Proof. unfold wrap64. by rewrite Zplus_mod_idemp_l. Qed.

Lemma wrap64_sub_l a b : wrap64 (wrap64 a - b) = wrap64 (a - b).
Proof. unfold wrap64. by rewrite Zminus_mod_idemp_l. Qed.

Lemma wrap64_sub_r a b : wrap64 (a - wrap64 b) = wrap64 (a - b).
Proof. unfold wrap64. by rewrite Zminus_mod_idemp_r. Qed.

#[export] Hint Resolve wrap64_range wrap64_small : nats.

Lemma split_on_not_nil p l : split_on p l <> [].
Proof. destruct l; simpl; [done |]. repeat case_match; done. Qed.

Lemma split_on_pieces p l : Forall (Forall (fun b => p b = false)) (split_on p l).
Proof.
  induction l as [| b l IH]; simpl; [by repeat constructor |].
  destruct (p b) eqn:Hb; [by constructor |].
  destruct (split_on p l) as [| t ts]; [by repeat constructor |].
  inversion IH; subst. by repeat constructor.
Qed.

(** Splitting on one byte and joining with it is the identity, so a subject is
    determined by its tokens. *)
Lemma join_split_on sep l : join_with sep (split_on (fun b => bool_decide (b = sep)) l) = l.
Proof.
  induction l as [| b l IH]; [done |]. simpl.
  pose proof (split_on_not_nil (fun b => bool_decide (b = sep)) l) as Hne.
  case_bool_decide; subst.
  - destruct (split_on _ l) as [| t ts]; [done |]. simpl in *. by rewrite IH.
  - destruct (split_on _ l) as [| t ts]; [done |]. rewrite <- IH. by destruct ts.
Qed.

Lemma split_on_inj sep l k :
  split_on (fun b => bool_decide (b = sep)) l = split_on (fun b => bool_decide (b = sep)) k ->
  l = k.
Proof. intros H. by rewrite <- (join_split_on sep l), H, join_split_on. Qed.

Lemma split_join sep ts :
  ts <> [] -> Forall (Forall (fun b => b <> sep)) ts ->
  split_on (fun b => bool_decide (b = sep)) (join_with sep ts) = ts.
Proof.
  intros Hne Hts. induction Hts as [| t ts Ht Hts IH]; [done |]. clear Hne.
  induction Ht as [| b t Hb Ht IHt].
  - destruct ts as [| t' ts]; [done |]. simpl. rewrite bool_decide_true by done.
    f_equal. by apply IH.
  - destruct ts as [| t' ts]; simpl in *; rewrite bool_decide_false by done; by rewrite IHt.
Qed.

Lemma position_Some {A} (p : A -> bool) l i :
  position p l = Some i <->
  exists a, l !! i = Some a /\ p a = true /\
    forall j b, j < i -> l !! j = Some b -> p b = false.
Proof.
  revert i. induction l as [| a l IH]; intros i; simpl.
  { split; [done |]. intros (b & Hb & _). by rewrite lookup_nil in Hb. }
  destruct (p a) eqn:Ha.
  - split.
    + intros [= <-]. exists a. repeat split; [done | lia].
    + intros (b & Hb & Hpb & Hmin). destruct i as [| i]; [done |].
      specialize (Hmin 0 a ltac:(lia) eq_refl). congruence.
  - rewrite fmap_Some. split.
    + intros (j & Hj & ->). apply IH in Hj as (b & Hb & Hpb & Hmin).
      exists b. repeat split; [done.. |].
      intros [| k] c Hk Hc; [simpl in Hc; congruence |]. eapply Hmin, Hc. lia.
    + intros (b & Hb & Hpb & Hmin). destruct i as [| i]; [simpl in Hb; congruence |].
      exists i. split; [| done]. apply IH. exists b. repeat split; [done.. |].
      intros j c Hj Hc. apply (Hmin (S j) c); [lia | done].
Qed.

Lemma slice_app_middle x y z :
  slice (length x) (length x + length y) (x ++ y ++ z) = y.
Proof.
  unfold slice. rewrite drop_app_length.
  replace (length x + length y - length x) with (length y) by lia.
  apply take_app_length.
Qed.

(** ** Termination *)

(** A relation whose steps keep an invariant and lower a rank has no infinite run
    from a state of the invariant. *)
Lemma sn_rank {A} (R : A -> A -> Prop) (P : A -> Prop) (rank : A -> nat) :
  (forall x y, P x -> R x y -> P y /\ rank y < rank x) -> forall x, P x -> sn R x.
Proof.
  intros HR x. remember (rank x) as n eqn:En. revert x En.
  induction n as [n IH] using lt_wf_ind. intros x -> Hx. constructor. intros y Hxy.
  destruct (HR x y Hx Hxy) as [Hy Hlt]. by eapply IH.
Qed.
