(* ===== verification/Subjects.v ===== *)
(** * The subject grammar (crates/server/src/subjects.rs)

    Token splitting, subject validation and wildcard matching, with the
    declarative grammar they implement. *)

From Stdlib Require Import String Strings.Byte.
From S2P Require Import Prelude.

Section Grammar.

(** ** Definitions *)

(** [.] separates tokens. *)
Definition SEP : byte := "."%byte.
(** [*] is exactly one token. *)
Definition PWC : byte := "*"%byte.
(** [>] is one or more trailing tokens. *)
Definition FWC : byte := ">"%byte.

(** [\t \n \x0c \r] and space. *)
Definition ILLEGAL_IN_TOKEN : bytes := [x09; x0a; x0c; x0d; x20].

(** [s.split(|b| *b == SEP)]. *)
Definition toks (s : bytes) : list bytes := split_on (fun b => bool_decide (b = SEP)) s.

(** The loop of [is_valid], with its [after_fw] flag. *)
Fixpoint is_valid_loop (after_fw : bool) (ts : list bytes) : bool :=
  match ts with
  | [] => true
  | tok :: rest =>
      if is_empty tok || after_fw then false
      else if (1 <? length tok)%nat then
        if existsb (fun b => bool_decide (b ∈ ILLEGAL_IN_TOKEN)) tok then false
        else is_valid_loop after_fw rest
      else if bool_decide (head tok = Some FWC) then is_valid_loop true rest
      else is_valid_loop after_fw rest
  end.

Definition is_valid (s : bytes) : bool :=
  if is_empty s then false else is_valid_loop false (toks s).

Definition has_wildcard (s : bytes) : bool :=
  existsb (fun tok => (length tok =? 1)%nat &&
                      (bool_decide (head tok = Some PWC) || bool_decide (head tok = Some FWC)))
          (toks s).

Definition is_valid_publish (s : bytes) : bool := is_valid s && negb (has_wildcard s).

(** The loop of [matches] over the two token iterators. *)
Fixpoint matches_loop (f s : list bytes) : bool :=
  match f, s with
  | ftok :: f', stok :: s' =>
      if bool_decide (ftok = [FWC]) then true
      else if bool_decide (ftok <> stok) && bool_decide (ftok <> [PWC]) then false
      else matches_loop f' s'
  | _ :: _, [] => false
  | [], _ :: _ => false
  | [], [] => true
  end.

Definition matches (filter subject : bytes) : bool :=
  matches_loop (toks filter) (toks subject).

Definition tokens (s : bytes) : nat :=
  if is_empty s then 0 else length (filter (fun b => b = SEP) s) + 1.

(** ** The grammar, declaratively *)

(** A token a subject may hold: non-empty, and free of white space when it has
    more than one byte. *)
Definition legal_token (t : bytes) : Prop :=
  t <> [] /\ (1 < length t -> Forall (fun b => b ∉ ILLEGAL_IN_TOKEN) t).

(** A legal subject or filter, by its tokens: every token is legal, and [>] is
    not followed by another token. *)
Definition legal_subject (ts : list bytes) : Prop :=
  Forall legal_token ts /\ forall pre post, ts = pre ++ [FWC] :: post -> post = [].

(** One filter token against one subject token. *)
Definition token_matches (ft st : bytes) : Prop := ft = [PWC] \/ ft = st.

(** A filter against a subject: token by token, or token by token up to a final
    [>] that stands for one or more further tokens. *)
Definition filter_matches (f s : list bytes) : Prop :=
  Forall2 token_matches f s \/
  exists pre s1 s2, f = pre ++ [[FWC]] /\ s = s1 ++ s2 /\ s2 <> [] /\
    Forall2 token_matches pre s1.

(** ** Lemmas *)

Lemma toks_not_nil s : toks s <> [].
Proof. apply split_on_not_nil. Qed.

Lemma toks_inj s k : toks s = toks k -> s = k.
Proof. apply split_on_inj. Qed.

Lemma toks_nil : toks [] = [[]].
Proof. reflexivity. Qed.

Lemma is_valid_loop_after_fw ts : is_valid_loop true ts = true <-> ts = [].
Proof. destruct ts as [| t ts]; simpl; [done |]. rewrite orb_true_r. done. Qed.

Lemma no_illegal_existsb t :
  existsb (fun b => bool_decide (b ∈ ILLEGAL_IN_TOKEN)) t = false <->
  Forall (fun b => b ∉ ILLEGAL_IN_TOKEN) t.
Proof.
  rewrite <- not_true_iff_false, existsb_exists, Forall_forall. split.
  - intros H b Hb Hin. apply H. exists b. rewrite bool_decide_true by done.
    by rewrite <- list_elem_of_In.
  - intros H (b & Hb & Hin%bool_decide_eq_true). apply (H b); [| done].
    by rewrite list_elem_of_In.
Qed.

Lemma legal_subject_cons t ts :
  legal_subject (t :: ts) <-> legal_token t /\ (t = [FWC] -> ts = []) /\ legal_subject ts.
Proof.
  unfold legal_subject. rewrite Forall_cons. split.
  - intros [[Ht Hts] Hfw]. split_and!; [done | | done |].
    + intros ->. apply (Hfw [] ts). done.
    + intros pre post ->. apply (Hfw (t :: pre) post). done.
  - intros (Ht & Hfw & Hts & Hrest). split_and!; [done.. |].
    intros [| t' pre] post [= -> ->]; [by apply Hfw |]. by eapply Hrest.
Qed.

Lemma length_le_1_cases (t : bytes) : t <> [] -> ~ 1 < length t -> exists b, t = [b].
Proof. destruct t as [| b [| c t]]; simpl; [done | eauto | lia]. Qed.

Lemma is_valid_loop_spec ts : is_valid_loop false ts = true <-> legal_subject ts.
Proof.
  induction ts as [| t ts IH]; simpl.
  { split; [| done]. intros _. split; [done |]. by intros [| ? ?] ?. }
  rewrite legal_subject_cons, <- IH, orb_false_r.
  destruct t as [| b t]; simpl is_empty; cbn match.
  { split; [done |]. by intros [[? _] _]. }
  destruct (1 <? length (b :: t))%nat eqn:Hlen; bool_to_prop.
  - destruct (existsb _ (b :: t)) eqn:Hill.
    + split; [done |]. intros [[_ Hok] _].
      apply not_false_iff_true in Hill. by apply no_illegal_existsb in Hok.
    + apply no_illegal_existsb in Hill. split.
      * intros Hv. split_and!; [by split | | done]. intros [= -> ->]. simpl in Hlen. lia.
      * by intros (_ & _ & Hv).
  - destruct (length_le_1_cases (b :: t)) as [c [= -> ->]]; [done | lia |]. simpl.
    assert (Htok : legal_token [c]) by (split; [done | simpl; lia]).
    case_bool_decide; simplify_eq.
    + rewrite is_valid_loop_after_fw. split; [intros -> | by intros (_ & Hnil & _); apply Hnil].
      by split_and!.
    + split; [| by intros (_ & _ & Hv)]. intros Hv. split_and!; [done | congruence | done].
Qed.

Lemma is_valid_spec s : is_valid s = true <-> s <> [] /\ legal_subject (toks s).
Proof.
  unfold is_valid. destruct s as [| b s]; simpl is_empty; cbn match.
  - split; [done | by intros [? _]].
  - rewrite is_valid_loop_spec. split; [done | by intros [_ ?]].
Qed.

Lemma has_wildcard_false s :
  has_wildcard s = false <-> Forall (fun t => t <> [PWC] /\ t <> [FWC]) (toks s).
Proof.
  unfold has_wildcard. rewrite <- not_true_iff_false, existsb_exists, Forall_forall. split.
  - intros H t Ht. apply list_elem_of_In in Ht.
    split; intros ->; apply H; eexists; (split; [exact Ht | reflexivity]).
  - intros H (t & Ht & Hw). apply list_elem_of_In in Ht. destruct (H t Ht) as [H1 H2].
    bool_to_prop. destruct t as [| b [| c t]]; try done. simpl in *.
    apply orb_true_iff in H3 as [?%bool_decide_eq_true | ?%bool_decide_eq_true]; congruence.
Qed.

Lemma matches_loop_spec f s :
  legal_subject f -> matches_loop f s = true <-> filter_matches f s.
Proof.
  revert s. induction f as [| ft f IH]; intros s Hf; simpl.
  { destruct s as [| st s]; split; try done.
    - intros _. by left.
    - intros [H | (pre & _ & _ & H & _)]; [by inversion H | by destruct pre]. }
  apply legal_subject_cons in Hf as (_ & Hfw & Hf). destruct s as [| st s].
  { split; [done |]. intros [H | (pre & s1 & s2 & H1 & H2 & H3 & _)]; [by inversion H |].
    symmetry in H2. apply app_eq_nil in H2 as [_ ->]. done. }
  case_bool_decide as Hfwc.
  { split; [| done]. intros _. right. exists [], [], (st :: s).
    rewrite Hfwc, (Hfw Hfwc). by split_and!. }
  assert (Hcons : filter_matches (ft :: f) (st :: s) <->
                  token_matches ft st /\ filter_matches f s).
  { split.
    - intros [H | (pre & s1 & s2 & H1 & H2 & H3 & H4)].
      + inversion H; subst. by split; [| left].
      + destruct pre as [| t pre]; [by simplify_eq/= |].
        inversion H4 as [| ? t' ? s1' Ht Hrest]; subst. simplify_eq/=.
        split; [done |]. right. by exists pre, s1', s2.
    - intros [Ht [H | (pre & s1 & s2 & -> & -> & H3 & H4)]].
      + left. by constructor.
      + right. exists (ft :: pre), (st :: s1), s2. split_and!; [done.. |]. by constructor. }
  rewrite Hcons, <- IH by done. unfold token_matches.
  clear. do 2 case_bool_decide; simpl; naive_solver.
Qed.

Lemma matches_loop_refl f : matches_loop f f = true.
Proof.
  induction f as [| t f IH]; simpl; [done |].
  case_bool_decide; [done |]. by rewrite (bool_decide_false (t <> t)) by naive_solver.
Qed.

(** A filter with no wildcard token matches exactly itself. *)
Lemma matches_literal f s : has_wildcard f = false -> matches f s = bool_decide (f = s).
Proof.
  rewrite has_wildcard_false. unfold matches. intros Hf.
  assert (Hl : matches_loop (toks f) (toks s) = bool_decide (toks f = toks s)).
  { revert Hf. generalize (toks f), (toks s). clear f s.
    intros f. induction f as [| t f IH]; intros [| u s] Hf; simpl; try done.
    inversion Hf as [| ? ? [Hp Hw] Hrest]; subst.
    rewrite bool_decide_false by done. rewrite (bool_decide_true (t <> [PWC])) by done.
    rewrite IH, andb_true_r by done. repeat case_bool_decide; naive_solver. }
  rewrite Hl. apply bool_decide_ext. split; [apply toks_inj | congruence].
Qed.

Lemma matches_refl f : matches f f = true.
Proof. apply matches_loop_refl. Qed.

End Grammar.

#[export] Hint Resolve matches_refl matches_literal : nats.

(** ** Properties *)

(** [is_valid_publish] accepts exactly the subjects a message may be published
    on: non-empty, every [.]-separated token legal, and no token a wildcard. *)
Lemma is_valid_publish_correct s :
  is_valid_publish s = true <->
  s <> [] /\ Forall (fun t => legal_token t /\ t <> [PWC] /\ t <> [FWC]) (toks s).
Proof.
  unfold is_valid_publish.
  rewrite andb_true_iff, negb_true_iff, is_valid_spec, has_wildcard_false.
  setoid_rewrite Forall_and at 2.
  split; [intros [[? [? ?]] ?]; by split_and! |].
  intros (Hne & Hlegal & Hlit). split; [| done]. split; [done |]. split; [done |].
  intros pre post Heq. rewrite Heq, Forall_app, Forall_cons in Hlit.
  by destruct Hlit as [_ [[_ ?] _]].
Qed.

(** C18: for a filter that passed [is_valid], [matches] decides the declarative
    matching relation: tokens agree one by one ([*] agrees with any one token),
    or they agree up to a final [>] that stands for at least one more token. *)
Theorem matches_correct f s :
  is_valid f = true -> matches f s = true <-> filter_matches (toks f) (toks s).
Proof. intros [_ Hf]%is_valid_spec. by apply matches_loop_spec. Qed.

Lemma matches_correct_witness :
  is_valid (bs "foo.*.>") = true /\
  filter_matches (toks (bs "foo.*.>")) (toks (bs "foo.bar.baz.qux")).
Proof.
  split; [reflexivity |].
  apply (matches_correct (bs "foo.*.>") (bs "foo.bar.baz.qux")); reflexivity.
Defined.
