(* ===== verification/Proto.v ===== *)
(** * The control-line parser (crates/server/src/proto.rs)

    The parser of the client protocol as the code has it: the argument splitter,
    the verb dispatch, and the state machine that [feed_into] runs over the read
    buffer.  [Bytes] and the read buffer are modelled by their contents. *)

From Stdlib Require Import String Strings.Byte.
From S2P Require Import Prelude.

(** ** Error texts and classes *)

Definition UNKNOWN_OP : string := "Unknown Protocol Operation".
Definition MAX_PAYLOAD_TEXT : string := "Maximum Payload Violation".
Definition MAX_CONTROL_LINE_TEXT : string := "maximum control line exceeded".
Definition INVALID_SUBJECT : string := "Invalid Subject".
Definition INVALID_PUBLISH_SUBJECT : string := "Invalid Publish Subject".
Definition STALE_CONNECTION : string := "Stale Connection".

(** [ProtoError]: class A, class B and class C. *)
Inductive ProtoError :=
| Fatal (text : string)
| Soft (text : string)
| Silent.

#[global] Instance ProtoError_eq_dec : EqDecision ProtoError.
Proof. solve_decision. Defined.

Definition err_line (e : ProtoError) : option string :=
  match e with
  | Fatal t | Soft t => Some t
  | Silent => None
  end.

Definition closes (e : ProtoError) : bool :=
  match e with Soft _ => false | _ => true end.

(** ** Limits, events, parser state *)

Record Limits := mkLimits { max_control_line : Z; max_payload : Z }.

Inductive HpubOutcome :=
| Hpub_Ok
| Hpub_Args
| Hpub_Frame (text : string).

#[global] Instance HpubOutcome_eq_dec : EqDecision HpubOutcome.
Proof. solve_decision. Defined.

Inductive Event :=
| EvConnect (json : bytes)
| EvSubscribe (subject : bytes) (queue : option bytes) (sid : bytes)
| EvUnsubscribe (sid : bytes) (max : Z)
| EvPublish (subject : bytes) (reply : option bytes) (hdr total : Z) (body : bytes) (hpub : bool)
| EvPing
| EvPong
| EvInfo (arg : bytes)
| EvHpubAttempt (o : HpubOutcome)
| EvClientErr
| EvClientOk.

#[global] Instance Event_eq_dec : EqDecision Event.
Proof. solve_decision. Defined.

(** The pieces of a publish body seen so far. *)
Record Parts := mkParts {
  first : option bytes;
  rest : list bytes;
  got : Z;
  fresh : bool }.

Inductive State :=
| Line
| Body (subject : bytes) (reply : option bytes) (hdr need : Z) (hpub : bool) (parts : Parts).

Inductive Action :=
| Action_Event (ev : Event)
| Action_Body (subject : bytes) (reply : option bytes) (hdr need : Z) (hpub : bool).

(** ** [Parts] *)

Definition parts_new : Parts := mkParts None [] 0 false.

Definition parts_push (p : Parts) (b : bytes) : Parts :=
  match first p with
  | None => mkParts (Some b) (rest p) (got p + blen b) true
  | Some f => mkParts None ((rest p ++ [f]) ++ [b]) (got p + blen b) true
  end.

(** [own]: the same bytes, in an allocation of their own. *)
Definition own (b : bytes) : bytes := if is_empty b then b else id b.

(** [Parts::hoist]: the newest piece ([rest.last_mut()], or [first]) is replaced
    by its owned copy. *)
Definition parts_hoist (p : Parts) : Parts :=
  if fresh p then
    match last (rest p) with
    | Some l => mkParts (first p) (removelast (rest p) ++ [own l]) (got p) false
    | None => mkParts (own <$> first p) (rest p) (got p) false
    end
  else p.

(** [Parts::take_body]: the body it returns. *)
Definition take_body (p : Parts) : bytes :=
  match first p, rest p with
  | Some b, [] => b
  | None, [] => []
  | f, r => default [] f ++ concat r
  end.

(** The free function [hoist]. *)
Definition hoist (st : State) : State :=
  match st with
  | Body subject reply hdr need hpub parts =>
      Body (own subject) (own <$> reply) hdr need hpub (parts_hoist parts)
  | Line => Line
  end.

(** ** Arguments *)

Definition MAX_ARGS : nat := 5.

Record Args := mkArgs { range : list (nat * nat); args_count : Z; base : nat }.

Definition is_blank (b : byte) : bool := bool_decide (b = " "%byte) || bool_decide (b = x09).

Definition args_push (a : Args) (from to : nat) : Args :=
  mkArgs
    (if (args_count a <? Z.of_nat MAX_ARGS)%Z
     then <[Z.to_nat (args_count a) := (base a + from, base a + to)]> (range a)
     else range a)
    (Z.min (args_count a + 1) usize_max)
    (base a).

(** The scan of [Args::of]: [i] is the index of the first byte of [s]. *)
Fixpoint args_scan (i : nat) (start : option nat) (s : bytes) (a : Args) : Args * option nat :=
  match s with
  | [] => (a, start)
  | b :: s' =>
      if is_blank b then
        match start with
        | Some st => args_scan (S i) None s' (args_push a st i)
        | None => args_scan (S i) None s' a
        end
      else
        match start with
        | None => args_scan (S i) (Some i) s' a
        | Some _ => args_scan (S i) start s' a
        end
  end.

Definition args_of (s : bytes) (b : nat) : Args :=
  match args_scan 0 None s (mkArgs (replicate MAX_ARGS (0, 0)) 0 b) with
  | (a, Some st) => args_push a st (length s)
  | (a, None) => a
  end.

Definition args_len (a : Args) : Z := Z.min (args_count a) (Z.of_nat MAX_ARGS).

(** [Args::slice] and [Args::view]: the bytes of argument [i]. *)
Definition args_slice (a : Args) (line : bytes) (i : nat) : bytes :=
  let r := default (0, 0) (range a !! i) in slice r.1 r.2 line.

(** ** Lexical helpers *)

(** The loop of [parse_size]. *)
Fixpoint parse_size_loop (n : Z) (d : bytes) : Z :=
  match d with
  | [] => n
  | b :: d' =>
      if is_ascii_digit b then parse_size_loop (n * 10 + (u8 b - 48)) d' else -1
  end.

Definition parse_size (d : bytes) : Z :=
  if is_empty d || (9 <? length d)%nat then -1 else parse_size_loop 0 d.

(** [windows(2).position(|w| w == b"\r\n")]. *)
Fixpoint crlf_position (buf : bytes) : option nat :=
  match buf with
  | a :: ((b :: _) as rest) =>
      if bool_decide (a = x0d) && bool_decide (b = x0a) then Some 0
      else S <$> crlf_position rest
  | _ => None
  end.

Definition find_crlf (buf : bytes) : option nat :=
  if (length buf <? 2)%nat then None else crlf_position buf.

Definition eq_ignore (a b : bytes) : bool :=
  (length a =? length b)%nat &&
  forallb (fun p => eq_ignore_ascii_case p.1 p.2) (zip a b).

Definition starts (line prefix : bytes) : bool :=
  (length prefix <=? length line)%nat && eq_ignore (take (length prefix) line) prefix.

Definition arg_at (tail : bytes) : option nat := position (fun b => negb (is_blank b)) tail.

(** ** Control lines *)

Definition subscribe (subject : bytes) (queue : option bytes) (sid : bytes) : Event :=
  EvSubscribe subject queue sid.

(** The argument shapes of [pub_line]: indices of the subject, the reply and the
    two sizes, by verb and argument count. *)
Definition pub_shape (hpub : bool) (n : Z) : option (nat * option nat * (nat * nat)) :=
  match hpub, n with
  | false, 2%Z => Some (0, None, (1, 1))
  | false, 3%Z => Some (0, Some 1, (2, 2))
  | true, 3%Z => Some (0, None, (1, 2))
  | true, 4%Z => Some (0, Some 1, (2, 3))
  | _, _ => None
  end.

Definition pub_line (line rest : bytes) (has_args hpub : bool) (lim : Limits) :
    result Action ProtoError :=
  if negb has_args then Err (Fatal UNKNOWN_OP)
  else
    let args := args_of rest (length line - length rest) in
    match pub_shape hpub (args_len args) with
    | None =>
        if hpub then Ok (Action_Event (EvHpubAttempt Hpub_Args)) else Err Silent
    | Some (subject, reply, (size0, size1)) =>
        let hdr := if hpub then parse_size (args_slice args line size0) else 0%Z in
        let total := parse_size (args_slice args line size1) in
        if (hdr <? 0)%Z || (total <? 0)%Z || (hdr >? total)%Z then
          if hpub then Ok (Action_Event (EvHpubAttempt Hpub_Args)) else Err Silent
        else if (total >? max_payload lim)%Z then Err (Fatal MAX_PAYLOAD_TEXT)
        else Ok (Action_Body (args_slice args line subject)
                             (args_slice args line <$> reply) hdr total hpub)
    end.

(** The verbs that take the rest of the line as one argument: [CONNECT] and
    [INFO], whose [n] letters are a prefix of the line. *)
Definition prefix_verb (ev : bytes -> Event) (n : nat) (line : bytes) :
    result Action ProtoError :=
  match arg_at (drop n line) with
  | Some i => Ok (Action_Event (ev (drop (n + i) line)))
  | None => Err Silent
  end.

Definition sub_line (line rest : bytes) (verb_end : nat) : result Action ProtoError :=
  let args := args_of rest verb_end in
  match args_len args with
  | 2%Z => Ok (Action_Event (subscribe (args_slice args line 0) None (args_slice args line 1)))
  | 3%Z => Ok (Action_Event (subscribe (args_slice args line 0) (Some (args_slice args line 1))
                                       (args_slice args line 2)))
  | _ => Err Silent
  end.

Definition unsub_line (line rest : bytes) (verb_end : nat) : result Action ProtoError :=
  let args := args_of rest verb_end in
  match args_len args with
  | 1%Z => Ok (Action_Event (EvUnsubscribe (args_slice args line 0) (-1)))
  | 2%Z => Ok (Action_Event (EvUnsubscribe (args_slice args line 0)
                                           (parse_size (args_slice args line 1))))
  | _ => Err Silent
  end.

Definition parse_line (line : bytes) (lim : Limits) : result Action ProtoError :=
  match line with
  | [] => Err (Fatal UNKNOWN_OP)
  | b0 :: _ =>
      let verb_end := default (length line) (position is_blank line) in
      let rest := drop verb_end line in
      let has_args := negb (is_empty rest) in
      let is_verb n name := (verb_end =? n)%nat && eq_ignore (take n line) (bs name) in
      let unknown := Err (Fatal UNKNOWN_OP) in
      match to_ascii_lowercase b0 with
      | "p"%byte =>
          if starts line (bs "PING") then Ok (Action_Event EvPing)
          else if starts line (bs "PONG") then Ok (Action_Event EvPong)
          else if is_verb 3 "PUB"%string then pub_line line rest has_args false lim
          else unknown
      | "h"%byte =>
          if is_verb 4 "HPUB"%string then pub_line line rest has_args true lim else unknown
      | "c"%byte =>
          if (7 <=? length line)%nat && eq_ignore (take 7 line) (bs "CONNECT")
          then prefix_verb EvConnect 7 line else unknown
      | "i"%byte =>
          if (4 <=? length line)%nat && eq_ignore (take 4 line) (bs "INFO")
          then prefix_verb EvInfo 4 line else unknown
      | "+"%byte =>
          if is_verb 3 "+OK"%string then Ok (Action_Event EvClientOk) else unknown
      | "-"%byte =>
          if is_verb 4 "-ERR"%string then
            if negb has_args then unknown else Ok (Action_Event EvClientErr)
          else unknown
      | "s"%byte =>
          if is_verb 3 "SUB"%string then
            if negb has_args then unknown else sub_line line rest verb_end
          else unknown
      | "u"%byte =>
          if is_verb 5 "UNSUB"%string then
            if negb has_args then unknown else unsub_line line rest verb_end
          else unknown
      | _ => unknown
      end
  end.

(** ** The state machine *)

(** [hpub_frame_error]: what it returns, and [out] after it. *)
Definition hpub_frame_error (hpub : bool) (out : list Event) :
    result unit ProtoError * list Event :=
  if hpub then (Ok tt, out ++ [EvHpubAttempt (Hpub_Frame UNKNOWN_OP)])
  else (Err (Fatal UNKNOWN_OP), out).

(** One pass of the loop of [feed_into]: it goes round again, or it returns.
    Either way the parser state, the read buffer and the batch are what the code
    has at that point. *)
Inductive Flow :=
| Continue (st : State) (src : bytes) (out : list Event)
| Return (r : result unit ProtoError) (st : State) (src : bytes) (out : list Event).

Definition feed_line (src : bytes) (lim : Limits) (out : list Event) : Flow :=
  if bool_decide (head src = Some x0a) then Return (Err (Fatal UNKNOWN_OP)) Line src out
  else
    match find_crlf src with
    | None =>
        if (blen src >? wrap64 (max_control_line lim * 16))%Z
        then Return (Err (Fatal MAX_CONTROL_LINE_TEXT)) Line src out
        else Return (Ok tt) Line src out
    | Some at_ =>
        if (Z.of_nat at_ >? max_control_line lim)%Z
        then Return (Err (Fatal MAX_CONTROL_LINE_TEXT)) Line src out
        else
          let line := take at_ src in
          let src' := drop 2 (drop at_ src) in
          match parse_line line lim with
          | Err e => Return (Err e) Line src' out
          | Ok (Action_Event ev) =>
              if bool_decide (ev = EvHpubAttempt Hpub_Args)
              then Return (Ok tt) Line src' (out ++ [ev])
              else Continue Line src' (out ++ [ev])
          | Ok (Action_Body subject reply hdr need hpub) =>
              Continue (Body subject reply hdr need hpub parts_new) src'
                       (if hpub then out ++ [EvHpubAttempt Hpub_Ok] else out)
          end
    end.

(** The bytes of the body that this read holds, moved from the read buffer to
    [parts]. *)
Definition body_take (need : Z) (parts : Parts) (src : bytes) : Parts * bytes :=
  let take_ := Z.min (need - got parts) (blen src) in
  if (take_ >? 0)%Z
  then (parts_push parts (take (Z.to_nat take_) src), drop (Z.to_nat take_) src)
  else (parts, src).

(** The rest of the pass: wait for more of the body or for its terminator, report
    a body that does not end in CRLF, or hand the publish over. *)
Definition body_decide (subject : bytes) (reply : option bytes) (hdr need : Z) (hpub : bool)
    (parts : Parts) (src : bytes) (out : list Event) : Flow :=
  let st := Body subject reply hdr need hpub parts in
  let frame_error := let (r, out') := hpub_frame_error hpub out in Return r st src out' in
  if (got parts <? need)%Z then Return (Ok tt) (hoist st) src out
  else
    match src with
    | [] => Return (Ok tt) (hoist st) src out
    | c0 :: c1 :: _ =>
        if bool_decide (c0 = x0d) then
          if bool_decide (c1 = x0a) then
            let body := take_body parts in
            Continue Line (drop 2 src)
                     (out ++ [EvPublish subject reply hdr (blen body) body hpub])
          else frame_error
        else frame_error
    | [c0] =>
        if bool_decide (c0 = x0d) then Return (Ok tt) (hoist st) src out else frame_error
    end.

Definition feed_body (subject : bytes) (reply : option bytes) (hdr need : Z) (hpub : bool)
    (parts : Parts) (src : bytes) (out : list Event) : Flow :=
  let (parts', src') := body_take need parts src in
  body_decide subject reply hdr need hpub parts' src' out.

Definition feed_pass (st : State) (src : bytes) (lim : Limits) (out : list Event) : Flow :=
  match st with
  | Line => feed_line src lim out
  | Body subject reply hdr need hpub parts => feed_body subject reply hdr need hpub parts src out
  end.

Definition FeedResult : Type := result unit ProtoError * State * bytes * list Event.

(** The loop, with fuel: [None] only if the fuel runs out. *)
Fixpoint feed_loop (fuel : nat) (st : State) (src : bytes) (lim : Limits) (out : list Event) :
    option FeedResult :=
  match fuel with
  | O => None
  | S fuel =>
      match feed_pass st src lim out with
      | Return r st' src' out' => Some (r, st', src', out')
      | Continue st' src' out' => feed_loop fuel st' src' lim out'
      end
  end.

(** [Parser::feed_into].  Every pass that goes round again takes a CRLF off the
    read buffer, so one more pass than the buffer has bytes is enough fuel. *)
Definition feed_into (st : State) (src : bytes) (lim : Limits) (out : list Event) :
    option FeedResult :=
  feed_loop (S (length src)) st src lim out.

(** [Parser::feed]: a batch of its own, returned only if there was no error. *)
Definition feed (st : State) (src : bytes) (lim : Limits) :
    option (result (list Event) ProtoError * State * bytes) :=
  match feed_into st src lim [] with
  | Some (Ok _, st', src', out) => Some (Ok out, st', src')
  | Some (Err e, st', src', _) => Some (Err e, st', src')
  | None => None
  end.

(** ** The parser on the code's own test corpus *)

Definition default_limits : Limits := mkLimits 4096 (1024 * 1024).

Example parses_a_session_in_one_segment :
  feed Line (bs "CONNECT {}" ++ [x0d; x0a] ++ bs "SUB foo 1" ++ [x0d; x0a] ++
             bs "PUB foo 5" ++ [x0d; x0a] ++ bs "hello" ++ [x0d; x0a] ++
             bs "ping x" ++ [x0d; x0a] ++ bs "UNSUB 1 7" ++ [x0d; x0a]) default_limits =
  Some (Ok [EvConnect (bs "{}"); EvSubscribe (bs "foo") None (bs "1");
            EvPublish (bs "foo") None 0 5 (bs "hello") false; EvPing;
            EvUnsubscribe (bs "1") 7], Line, []).
Proof. vm_compute. reflexivity. Qed.

Example hpub_carries_both_sizes :
  feed Line (bs "HPUB hb r 4 6" ++ [x0d; x0a] ++ bs "hhhhab" ++ [x0d; x0a]) default_limits =
  Some (Ok [EvHpubAttempt Hpub_Ok; EvPublish (bs "hb") (Some (bs "r")) 4 6 (bs "hhhhab") true],
        Line, []).
Proof. vm_compute. reflexivity. Qed.

Example arity_errors :
  (parse_line (bs "SUB foo") default_limits = Err Silent) /\
  (parse_line (bs "SUB a b 1 9") default_limits = Err Silent) /\
  (parse_line (bs "PUB foo -1") default_limits = Err Silent) /\
  (parse_line (bs "PUB a b c d e f") default_limits = Err Silent) /\
  (parse_line (bs "PUB") default_limits = Err (Fatal UNKNOWN_OP)) /\
  (parse_line (bs "PUB x 1048577") default_limits = Err (Fatal MAX_PAYLOAD_TEXT)) /\
  (parse_line (bs "SUB.a 1") default_limits = Err (Fatal UNKNOWN_OP)) /\
  (parse_line (bs "-ERR") default_limits = Err (Fatal UNKNOWN_OP)) /\
  (parse_line (bs "HPUB hb 20 10") default_limits =
     Ok (Action_Event (EvHpubAttempt Hpub_Args))).
Proof. vm_compute. by split_and!. Qed.
