(* ===== verification/ProtoLex.v ===== *)
(** * The lexical layer of the parser

    What [find_crlf], [Args] and [parse_size] of proto.rs compute, against
    reference definitions: the first CRLF, the blank-separated words, and the
    decimal value. *)

From Stdlib Require Import String Strings.Byte.
From S2P Require Import Prelude Proto.

(** ** [find_crlf] *)

Lemma find_crlf_eq buf : find_crlf buf = crlf_position buf.
Proof. unfold find_crlf. destruct buf as [| a [| b buf]]; reflexivity. Qed.

Lemma crlf_position_cons a b l :
  crlf_position (a :: b :: l) =
  if bool_decide (a = x0d) && bool_decide (b = x0a) then Some 0
  else S <$> crlf_position (b :: l).
Proof. reflexivity. Qed.

Lemma crlf_position_Some buf i :
  crlf_position buf = Some i -> buf = take i buf ++ x0d :: x0a :: drop 2 (drop i buf).
Proof.
  revert i. induction buf as [| a buf IH]; intros i H; [done |].
  destruct buf as [| b buf]; [done |]. rewrite crlf_position_cons in H.
  destruct (bool_decide (a = x0d) && bool_decide (b = x0a)) eqn:E.
  - bool_to_prop. simplify_eq. reflexivity.
  - apply fmap_Some in H as (j & Hj & ->). apply IH in Hj.
    change (take (S j) (a :: b :: buf)) with (a :: take j (b :: buf)).
    change (drop (S j) (a :: b :: buf)) with (drop j (b :: buf)).
    rewrite <- app_comm_cons. f_equal. exact Hj.
Qed.

Lemma crlf_position_app a b i :
  crlf_position a = Some i -> crlf_position (a ++ b) = Some i.
Proof.
  revert i. induction a as [| x a IH]; intros i H; [done |].
  destruct a as [| y a]; [done |]. simpl app in *. rewrite crlf_position_cons in *.
  destruct (bool_decide (x = x0d) && bool_decide (y = x0a)); [done |].
  apply fmap_Some in H as (j & Hj & ->). by rewrite (IH j Hj).
Qed.

(** A CRLF that appears only when more bytes arrive ends in those bytes. *)
Lemma crlf_position_None_app a b i :
  crlf_position a = None -> crlf_position (a ++ b) = Some i -> length a <= S i.
Proof.
  revert i. induction a as [| x a IH]; intros i HN HS; simpl; [lia |].
  destruct a as [| y a]; [simpl; lia |]. simpl app in *. rewrite crlf_position_cons in *.
  destruct (bool_decide (x = x0d) && bool_decide (y = x0a)); [done |].
  apply fmap_None in HN. apply fmap_Some in HS as (j & Hj & ->).
  specialize (IH j HN Hj). simpl in *. lia.
Qed.

(** A line with no CR in it ends at the CRLF that follows it. *)
Lemma crlf_position_line line l :
  Forall (fun b => b <> x0d) line -> crlf_position (line ++ x0d :: x0a :: l) = Some (length line).
Proof.
  induction 1 as [| b line Hb Hline IH]; [reflexivity |].
  assert (Hc : exists c l', line ++ x0d :: x0a :: l = c :: l') by (destruct line; simpl; eauto).
  destruct Hc as (c & l' & Hc). simpl app. rewrite Hc in *. rewrite crlf_position_cons.
  rewrite bool_decide_false by done. simpl andb. cbn match. rewrite IH. reflexivity.
Qed.

(** ** [Args]: the blank-separated words *)

(** The reference: the non-empty pieces between blanks. *)
Definition words (s : bytes) : list bytes := filter (fun w => w <> []) (split_on is_blank s).

(** The same, read left to right with the word under way. *)
Fixpoint words_go (cur s : bytes) : list bytes :=
  match s with
  | [] => if is_empty cur then [] else [cur]
  | b :: s' =>
      if is_blank b then (if is_empty cur then [] else [cur]) ++ words_go [] s'
      else words_go (cur ++ [b]) s'
  end.

Lemma words_go_split cur s :
  words_go cur s =
  match split_on is_blank s with
  | t :: ts => filter (fun w => w <> []) ((cur ++ t) :: ts)
  | [] => []
  end.
Proof.
  revert cur. induction s as [| b s IH]; intros cur; simpl.
  { rewrite app_nil_r. destruct cur; reflexivity. }
  pose proof (split_on_not_nil is_blank s) as Hne. destruct (is_blank b).
  - rewrite IH. destruct (split_on is_blank s) as [| t ts]; [done |].
    rewrite app_nil_r. destruct cur; reflexivity.
  - rewrite IH. destruct (split_on is_blank s) as [| t ts]; [done |].
    by rewrite <- (assoc_L (++)).
Qed.

Lemma words_eq s : words s = words_go [] s.
Proof.
  rewrite words_go_split. unfold words.
  by destruct (split_on is_blank s) as [| t ts].
Qed.

Section ArgsSpec.

Context (line : bytes).

(** [a] holds the words [ws] of [line]: all are counted, the first five by range. *)
Definition args_hold (a : Args) (ws : list bytes) : Prop :=
  args_count a = Z.min (blen ws) usize_max /\
  length (range a) = MAX_ARGS /\
  forall k w, k < MAX_ARGS -> ws !! k = Some w ->
    exists r, range a !! k = Some r /\ slice r.1 r.2 line = w.

Lemma args_push_hold a ws from to :
  args_hold a ws ->
  args_hold (args_push a from to) (ws ++ [slice (base a + from) (base a + to) line]).
Proof.
  intros (Hc & Hl & Hr). unfold args_hold, args_push; simpl.
  assert (Hu : usize_max = (2 ^ 64 - 1)%Z) by reflexivity.
  split_and!.
  - rewrite Hc. autorewrite with nats. pose proof (blen_nonneg ws). lia.
  - case_match; [by rewrite length_insert | done].
  - intros k w Hk Hw. unfold MAX_ARGS in *.
    assert (Hcount : (blen ws < 5)%Z -> Z.to_nat (args_count a) = length ws).
    { intros H. rewrite Hc. unfold blen in *. lia. }
    apply lookup_app_Some in Hw as [Hw | [Hge Hw]].
    + destruct (Hr k w Hk Hw) as (r & Hrk & Hs). exists r. split; [| done].
      pose proof (lookup_lt_Some _ _ _ Hw).
      case_match; bool_to_prop; [| done].
      rewrite list_lookup_insert_ne; [done |]. unfold blen in *. lia.
    + destruct (k - length ws) as [| n] eqn:Hn; [| done]. simplify_eq/=.
      exists (base a + from, base a + to). split; [| done].
      case_match; bool_to_prop; [| unfold blen in *; lia].
      rewrite Hcount by (unfold blen; lia).
      replace k with (length ws) by lia. apply list_lookup_insert_eq. lia.
Qed.

(** The word under way that starts at [st], after [done_] has been read. *)
Definition current (start : option nat) (done_ : bytes) : bytes :=
  match start with Some st => drop st done_ | None => [] end.

Lemma slice_current pre done_ s st :
  line = pre ++ done_ ++ s -> st <= length done_ ->
  slice (length pre + st) (length pre + length done_) line = drop st done_.
Proof.
  intros -> Hst. unfold slice.
  rewrite drop_app_ge by lia.
  replace (length pre + st - length pre) with st by lia.
  rewrite drop_app_le by done.
  replace (length pre + length done_ - (length pre + st)) with (length (drop st done_))
    by (rewrite length_drop; lia).
  apply take_app_length.
Qed.

Lemma args_scan_hold pre s : forall done_ start a ws a' start',
  line = pre ++ done_ ++ s -> base a = length pre ->
  (forall st, start = Some st -> st < length done_) ->
  args_hold a ws ->
  args_scan (length done_) start s a = (a', start') ->
  exists ws', args_hold a' ws' /\ base a' = length pre /\
    (forall st, start' = Some st -> st < length (done_ ++ s)) /\
    ws ++ words_go (current start done_) s =
    ws' ++ (if is_empty (current start' (done_ ++ s)) then [] else [current start' (done_ ++ s)]).
Proof.
  induction s as [| b s IH]; intros done_ start a ws a' start' Hline Hbase Hst Ha Hscan.
  { simpl in Hscan. simplify_eq. exists ws. rewrite app_nil_r. by split_and!. }
  assert (Hnext : line = pre ++ (done_ ++ [b]) ++ s) by (rewrite <- (assoc_L (++)); done).
  assert (Hcur : forall st, start = Some st -> drop st (done_ ++ [b]) = drop st done_ ++ [b]).
  { intros st Hs. rewrite drop_app_le; [done |]. specialize (Hst st Hs). lia. }
  assert (Hlen : S (length done_) = length (done_ ++ [b])) by (rewrite length_app; simpl; lia).
  replace (done_ ++ b :: s) with ((done_ ++ [b]) ++ s) by (by rewrite <- (assoc_L (++))).
  simpl in Hscan |- *. rewrite Hlen in Hscan.
  destruct (is_blank b) eqn:Hb; destruct start as [st |]; simpl current in *.
  - specialize (Hst st eq_refl).
    eapply IH in Hscan; [| done | done | done | by apply args_push_hold].
    destruct Hscan as (ws' & ? & ? & ? & Hws). exists ws'. split_and!; [done.. |].
    rewrite Hbase, (slice_current pre done_ (b :: s)) in Hws by (done || lia).
    rewrite <- Hws, <- (assoc_L (++)). f_equal. simpl current. f_equal.
    destruct (drop st done_) eqn:Hd; [| done].
    apply (f_equal length) in Hd. rewrite length_drop in Hd. simpl in Hd. lia.
  - eapply IH in Hscan; [| done..]. destruct Hscan as (ws' & ? & ? & ? & Hws).
    exists ws'. by split_and!.
  - eapply IH in Hscan; [| done | done | | done].
    2: { intros st' [= <-]. specialize (Hst st eq_refl). lia. }
    destruct Hscan as (ws' & ? & ? & ? & Hws). exists ws'. split_and!; [done.. |].
    rewrite <- Hws. simpl current. by rewrite Hcur.
  - eapply IH in Hscan; [| done | done | | done].
    2: { intros st' [= <-]. lia. }
    destruct Hscan as (ws' & ? & ? & ? & Hws). exists ws'. split_and!; [done.. |].
    rewrite <- Hws. simpl current. by rewrite drop_app_length.
Qed.

Lemma args_of_hold pre s : line = pre ++ s -> args_hold (args_of s (length pre)) (words s).
Proof.
  intros Hline. unfold args_of.
  destruct (args_scan _ _ _ _) as [a start] eqn:Hscan.
  apply (args_scan_hold pre s [] None _ []) in Hscan as (ws' & Ha & Hbase & Hst & Hws);
    [| done | done | done |].
  2: { split_and!; [done | done |]. intros k w _ Hw. by rewrite lookup_nil in Hw. }
  simpl in *. rewrite words_eq, Hws. destruct start as [st |]; simpl in *.
  - specialize (Hst st eq_refl).
    assert (Hd : drop st s <> []).
    { intros Hd. apply (f_equal length) in Hd. rewrite length_drop in Hd. simpl in Hd. lia. }
    destruct (is_empty (drop st s)) eqn:He; [by destruct (drop st s) |].
    rewrite <- (slice_current pre s [] st) by (rewrite ?app_nil_r; (done || lia)).
    rewrite <- Hbase. by apply args_push_hold.
  - by rewrite app_nil_r.
Qed.

End ArgsSpec.

(** The argument list of a line: how many words follow the verb, counted up to
    five, and each of the first five of them. *)
Lemma args_of_words pre s :
  args_len (args_of s (length pre)) = Z.min (blen (words s)) 5 /\
  forall k w, k < 5 -> words s !! k = Some w ->
    args_slice (args_of s (length pre)) (pre ++ s) k = w.
Proof.
  destruct (args_of_hold (pre ++ s) pre s eq_refl) as (Hc & _ & Hr). split.
  - unfold args_len. rewrite Hc. change usize_max with (2 ^ 64 - 1)%Z.
    change (Z.of_nat MAX_ARGS) with 5%Z. lia.
  - intros k w Hk Hw. destruct (Hr k w Hk Hw) as (r & Hrk & Hs).
    unfold args_slice. by rewrite Hrk.
Qed.
