(* ===== verification/Decimal.v ===== *)
(** * Decimal numbers on the wire

    [push_u64] of routing.rs writes a size into a frame; [parse_size] of proto.rs
    reads one from a control line.  Each is related to the decimal value of its
    digits, and the two are inverse on the sizes the parser accepts. *)

From Stdlib Require Import String Strings.Byte.
From S2P Require Import Prelude Proto.

(** ** [push_u64] *)

(** The loop of [push_u64]: digits go into the buffer from its end, and [room] is
    the index of the first byte already written.  [None] would be that index
    passing below zero. *)
Fixpoint push_u64_loop (room : nat) (n : Z) (written : bytes) : option bytes :=
  match room with
  | O => None
  | S i =>
      let written' := as_u8 (48 + n mod 10) :: written in
      let n' := (n / 10)%Z in
      if (n' =? 0)%Z then Some written' else push_u64_loop i n' written'
  end.

(** What [push_u64] appends: the part of its 20-byte buffer it wrote. *)
Definition push_u64 (n : Z) : bytes := default [] (push_u64_loop 20 n []).

(** The standard library's [Display] for unsigned integers: the same digits,
    with no bound on how many there are. *)
Definition display_uint (n : Z) : bytes :=
  default [] (push_u64_loop (S (Z.to_nat (Z.log2 n))) n []).

Arguments push_u64 : simpl never.
Arguments display_uint : simpl never.

(** ** The decimal value of a digit string *)

Definition digits_value (d : bytes) : Z := foldl (fun n b => n * 10 + (u8 b - 48))%Z 0%Z d.

Definition all_digits (d : bytes) : bool := forallb is_ascii_digit d.

Lemma is_ascii_digit_range b : is_ascii_digit b = true <-> (48 <= u8 b <= 57)%Z.
Proof. unfold is_ascii_digit. lia. Qed.

Lemma digits_value_from k d :
  foldl (fun n b => n * 10 + (u8 b - 48))%Z k d = (k * 10 ^ blen d + digits_value d)%Z.
Proof.
  unfold digits_value. revert k. induction d as [| b d IH]; intros k; simpl.
  { autorewrite with nats. lia. }
  rewrite IH, (IH (0 * 10 + (u8 b - 48))%Z). autorewrite with nats.
  rewrite Z.pow_add_r by (pose proof (blen_nonneg d); lia). lia.
Qed.

Lemma digits_value_cons b d :
  digits_value (b :: d) = ((u8 b - 48) * 10 ^ blen d + digits_value d)%Z.
Proof. unfold digits_value at 1. simpl. by rewrite digits_value_from. Qed.

Lemma digits_value_bound d : all_digits d = true -> (0 <= digits_value d < 10 ^ blen d)%Z.
Proof.
  induction d as [| b d IH]; simpl; intros Hd; [vm_compute; done |].
  bool_to_prop. rewrite digits_value_cons. autorewrite with nats.
  rewrite Z.pow_add_r by (pose proof (blen_nonneg d); lia).
  apply is_ascii_digit_range in H. specialize (IH H0). nia.
Qed.

(** ** [parse_size] *)

Lemma parse_size_loop_digits n d :
  all_digits d = true -> parse_size_loop n d = (n * 10 ^ blen d + digits_value d)%Z.
Proof.
  revert n. induction d as [| b d IH]; intros n Hd; simpl in *.
  { autorewrite with nats. unfold digits_value. simpl. lia. }
  bool_to_prop. rewrite H, IH, digits_value_cons by done. autorewrite with nats.
  rewrite Z.pow_add_r by (pose proof (blen_nonneg d); lia). lia.
Qed.

Lemma parse_size_loop_bad n d : all_digits d = false -> parse_size_loop n d = (-1)%Z.
Proof.
  revert n. induction d as [| b d IH]; intros n Hd; simpl in *; [done |].
  destruct (is_ascii_digit b); [by apply IH | done].
Qed.

Lemma parse_size_spec d :
  parse_size d =
  if negb (is_empty d) && (length d <=? 9)%nat && all_digits d then digits_value d else (-1)%Z.
Proof.
  unfold parse_size. destruct d as [| b d]; [done |].
  rewrite Nat.ltb_antisym. change (is_empty (b :: d)) with false.
  destruct (length (b :: d) <=? 9)%nat; [| done]. rewrite !andb_true_l. cbn [orb negb].
  destruct (all_digits (b :: d)) eqn:Hd.
  - rewrite parse_size_loop_digits by done. lia.
  - by rewrite parse_size_loop_bad.
Qed.

Lemma parse_size_range d : (-1 <= parse_size d < 10 ^ 9)%Z.
Proof.
  rewrite parse_size_spec.
  destruct (negb (is_empty d) && (length d <=? 9)%nat && all_digits d) eqn:E; [| lia].
  bool_to_prop. apply digits_value_bound in H0.
  assert (10 ^ blen d <= 10 ^ 9)%Z by (apply Z.pow_le_mono_r; unfold blen; lia). lia.
Qed.

(** ** [push_u64] writes the decimal digits *)

Lemma digit_byte k : (0 <= k < 10)%Z -> u8 (as_u8 (48 + k)) = (48 + k)%Z.
Proof. intros. apply u8_as_u8. lia. Qed.

Lemma push_u64_loop_spec room n w :
  (0 <= n < 10 ^ Z.of_nat room)%Z -> (0 < room) ->
  exists d, push_u64_loop room n w = Some (d ++ w) /\
    all_digits d = true /\ digits_value d = n /\ d <> [] /\
    (forall b d', d = b :: d' -> d' <> [] -> b <> "0"%byte) /\
    (blen d <= Z.of_nat room)%Z.
Proof.
  revert n w. induction room as [| room IH]; intros n w Hn Hr; [lia |]. clear Hr. simpl.
  assert (Hd : (0 <= n mod 10 < 10)%Z) by (apply Z.mod_pos_bound; lia).
  assert (Hdm : n = (10 * (n / 10) + n mod 10)%Z) by (apply Z.div_mod; lia).
  destruct (n / 10 =? 0)%Z eqn:E; bool_to_prop.
  - exists [as_u8 (48 + n mod 10)]. split_and!; try done.
    + simpl. rewrite andb_true_r. apply is_ascii_digit_range. rewrite digit_byte; lia.
    + rewrite digits_value_cons, digit_byte by done. autorewrite with nats.
      unfold digits_value. simpl. lia.
    + intros b d' [= <- <-]. done.
    + autorewrite with nats. lia.
  - assert (Hn' : (0 <= n / 10 < 10 ^ Z.of_nat room)%Z).
    { rewrite Nat2Z.inj_succ, Z.pow_succ_r in Hn by lia. split; [apply Z.div_pos; lia |].
      apply Z.div_lt_upper_bound; lia. }
    assert (0 < room) by (destruct room; [change (10 ^ Z.of_nat 0)%Z with 1%Z in Hn'; lia | lia]).
    destruct (IH _ (as_u8 (48 + n mod 10) :: w) Hn') as (d & -> & Hdig & Hv & Hne & Hz & Hl); [done |].
    exists (d ++ [as_u8 (48 + n mod 10)]). split_and!.
    + by rewrite <- (assoc_L (++)).
    + unfold all_digits in *. rewrite forallb_app, Hdig. simpl. rewrite andb_true_r.
      apply is_ascii_digit_range. rewrite digit_byte; lia.
    + unfold digits_value in *. rewrite foldl_app, Hv. simpl. rewrite digit_byte by done. lia.
    + by destruct d.
    + intros b d' Hb Hd'. destruct d as [| c d]; [done |]. simpl in Hb. simplify_eq.
      destruct d as [| c' d]; [| by eapply Hz].
      intros ->. unfold digits_value in E. simpl in E. done.
    + rewrite blen_app. change (blen [_]) with 1%Z. lia.
Qed.

Lemma push_u64_loop_mono room room' n w d :
  push_u64_loop room n w = Some d -> room <= room' -> push_u64_loop room' n w = Some d.
Proof.
  revert room' n w. induction room as [| room IH]; intros room' n w H Hle; [done |].
  destruct room' as [| room']; [lia |]. simpl in *.
  destruct (n / 10 =? 0)%Z; [done |]. apply IH; [done | lia].
Qed.

Lemma push_u64_spec n :
  in_u64 n ->
  all_digits (push_u64 n) = true /\ digits_value (push_u64 n) = n /\ push_u64 n <> [] /\
  (forall b d, push_u64 n = b :: d -> d <> [] -> b <> "0"%byte) /\
  push_u64_loop 20 n [] = Some (push_u64 n) /\ (blen (push_u64 n) <= 20)%Z.
Proof.
  intros [Hn1 Hn2]. unfold push_u64.
  destruct (push_u64_loop_spec 20 n []) as (d & -> & H); [| lia |].
  { split; [done |]. eapply Z.lt_trans; [exact Hn2 |]. vm_compute. done. }
  rewrite app_nil_r in *. simpl default. naive_solver.
Qed.

Lemma display_uint_push_u64 n : in_u64 n -> display_uint n = push_u64 n.
Proof.
  intros Hn. unfold display_uint, push_u64.
  assert (Hd : exists d, push_u64_loop (S (Z.to_nat (Z.log2 n))) n [] = Some d).
  { destruct (push_u64_loop_spec (S (Z.to_nat (Z.log2 n))) n []) as (d & -> & _); [| lia | by eexists].
    destruct Hn as [Hn _]. split; [done |].
    rewrite Nat2Z.inj_succ, Z2Nat.id by apply Z.log2_nonneg.
    destruct (decide (n = 0%Z)) as [-> | Hn0]; [done |].
    destruct (Z.log2_spec n) as [_ Hlt]; [lia |].
    eapply Z.lt_le_trans; [exact Hlt |]. apply Z.pow_le_mono_l. lia. }
  destruct Hd as [d Hd]. rewrite Hd.
  destruct (push_u64_spec n Hn) as (_ & _ & _ & _ & H20 & _).
  set (room := S (Z.to_nat (Z.log2 n))) in *.
  apply (push_u64_loop_mono _ (room `max` 20)) in Hd; [| lia].
  apply (push_u64_loop_mono _ (room `max` 20)) in H20; [| lia].
  unfold push_u64 in H20. rewrite H20 in Hd. by simplify_eq.
Qed.

Lemma push_u64_length n k :
  in_u64 n -> (n < 10 ^ k)%Z -> (0 < k)%Z -> (blen (push_u64 n) <= k)%Z.
Proof.
  intros Hn Hk Hk0. unfold push_u64.
  destruct (push_u64_loop_spec (Z.to_nat k) n []) as (d & Hd & _ & _ & _ & _ & Hl);
    [rewrite Z2Nat.id by lia; destruct Hn; lia | lia |].
  destruct (push_u64_spec n Hn) as (_ & _ & _ & _ & H20 & _).
  apply (push_u64_loop_mono _ (Z.to_nat k `max` 20)) in Hd; [| lia].
  apply (push_u64_loop_mono _ (Z.to_nat k `max` 20)) in H20; [| lia].
  rewrite Hd in H20. unfold push_u64 in H20. simplify_eq. rewrite app_nil_r in *.
  rewrite <- H20. lia.
Qed.

(** What the parser reads from the digits a size is written with. *)
Lemma parse_size_push_u64 n : (0 <= n < 10 ^ 9)%Z -> parse_size (push_u64 n) = n.
Proof.
  intros Hn. assert (Hu : in_u64 n) by (unfold in_u64, u64_modulus; lia).
  destruct (push_u64_spec n Hu) as (Hd & Hv & Hne & _).
  rewrite parse_size_spec, Hd, andb_true_r.
  pose proof (push_u64_length n 9 Hu) as Hl. unfold blen in Hl.
  destruct (push_u64 n) as [| b d]; [done |]. change (is_empty (b :: d)) with false.
  rewrite andb_true_l. destruct (length (b :: d) <=? 9)%nat eqn:E; [done |]. bool_to_prop. lia.
Qed.

#[export] Hint Resolve parse_size_push_u64 parse_size_range : nats.
