(* ===== verification/ProtoFeed.v ===== *)
(** * The parser's state machine

    Termination of [feed_into], the invariant of the parser state and of the
    events it produces, and what [Parts] does to a body that arrives in pieces. *)

From Stdlib Require Import String Strings.Byte.
From S2P Require Import Prelude Proto ProtoLex Decimal.

(** ** Termination *)

Lemma feed_line_cases src lim out :
  (exists r st src' out', feed_line src lim out = Return r st src' out') \/
  (exists at_ st out', find_crlf src = Some at_ /\
     feed_line src lim out = Continue st (drop 2 (drop at_ src)) out').
Proof.
  unfold feed_line. repeat case_match; eauto 10.
Qed.

Lemma body_take_app need p src p' src' :
  body_take need p src = (p', src') ->
  exists b, src = b ++ src' /\
    ((p' = p /\ b = []) \/ (p' = parts_push p b /\ b <> [])) /\
    blen b = Z.max 0 (Z.min (need - got p) (blen src)).
Proof.
  unfold body_take. intros H. pose proof (blen_nonneg src).
  destruct (Z.min (need - got p) (blen src) >? 0)%Z eqn:E; simplify_eq; bool_to_prop.
  - set (k := Z.to_nat (Z.min (need - got p) (blen src))).
    exists (take k src). rewrite take_drop.
    assert (blen (take k src) = Z.of_nat k) as Hl.
    { unfold blen in *. rewrite length_take. lia. }
    split_and!; [done | right; split; [done |] | lia].
    intros Hn. rewrite Hn in Hl. change (blen []) with 0%Z in Hl. lia.
  - exists []. change (blen []) with 0%Z. split_and!; [done | by left | lia].
Qed.

Lemma body_decide_continue s r h n hp p src out st' src' out' :
  body_decide s r h n hp p src out = Continue st' src' out' ->
  st' = Line /\ src = x0d :: x0a :: src' /\
  out' = out ++ [EvPublish s r h (blen (take_body p)) (take_body p) hp] /\ (n <= got p)%Z.
Proof.
  unfold body_decide, hpub_frame_error. intros H.
  destruct (got p <? n)%Z eqn:E; [done |]. bool_to_prop.
  destruct src as [| c0 [| c1 src]]; [done | |]; case_bool_decide; try (destruct hp; done).
  case_bool_decide; [| destruct hp; done]. simplify_eq/=. by split_and!.
Qed.

(** A pass that goes round again has taken at least a CRLF off the buffer. *)
Lemma feed_pass_shrinks st src lim out st' src' out' :
  feed_pass st src lim out = Continue st' src' out' -> length src' + 2 <= length src.
Proof.
  destruct st as [| s r h n hp p]; simpl.
  - destruct (feed_line_cases src lim out) as [(? & ? & ? & ? & ->) | (i & ? & ? & Hi & ->)]; [done |].
    intros [= _ <- _]. rewrite find_crlf_eq in Hi. apply crlf_position_Some in Hi.
    apply (f_equal length) in Hi. rewrite length_app in Hi. simpl in Hi. lia.
  - unfold feed_body. destruct (body_take n p src) as [p' s'] eqn:Ht.
    apply body_take_app in Ht as (b & -> & _). intros H.
    apply body_decide_continue in H as (_ & -> & _). rewrite length_app. simpl. lia.
Qed.

Lemma feed_loop_mono fuel fuel' st src lim out x :
  feed_loop fuel st src lim out = Some x -> fuel <= fuel' ->
  feed_loop fuel' st src lim out = Some x.
Proof.
  revert fuel' st src out. induction fuel as [| fuel IH]; intros fuel' st src out H Hle; [done |].
  destruct fuel' as [| fuel']; [lia |]. simpl in *.
  destruct (feed_pass st src lim out); [| done]. apply IH; [done | lia].
Qed.

Lemma feed_loop_total fuel st src lim out :
  length src < fuel -> exists x, feed_loop fuel st src lim out = Some x.
Proof.
  revert st src out. induction fuel as [| fuel IH]; intros st src out Hf; [lia |]. simpl.
  destruct (feed_pass st src lim out) as [st' src' out' |] eqn:E; [| by eauto].
  apply IH. apply feed_pass_shrinks in E. lia.
Qed.

(** [feed_into], one pass at a time. *)
Lemma feed_into_unfold st src lim out :
  feed_into st src lim out =
  match feed_pass st src lim out with
  | Return r st' src' out' => Some (r, st', src', out')
  | Continue st' src' out' => feed_into st' src' lim out'
  end.
Proof.
  unfold feed_into at 1. cbn [feed_loop].
  destruct (feed_pass st src lim out) as [st' src' out' |] eqn:E; [| done].
  apply feed_pass_shrinks in E.
  destruct (feed_loop_total (S (length src')) st' src' lim out') as [x Hx]; [lia |].
  unfold feed_into. rewrite Hx. eapply feed_loop_mono; [exact Hx | lia].
Qed.

(** Induction along the passes of [feed_into]. *)
Lemma feed_into_ind (lim : Limits) (P : State -> bytes -> list Event -> Prop) :
  (forall st src out,
     (forall st' src' out', feed_pass st src lim out = Continue st' src' out' -> P st' src' out') ->
     P st src out) ->
  forall st src out, P st src out.
Proof.
  intros Hstep st src. remember (length src) as n eqn:Hn. revert st src Hn.
  induction (lt_wf n) as [n _ IH]. intros st src -> out. apply Hstep.
  intros st' src' out' E. apply feed_pass_shrinks in E. eapply IH; [| reflexivity]. lia.
Qed.

Lemma feed_into_some st src lim out : exists x, feed_into st src lim out = Some x.
Proof. apply feed_loop_total. lia. Qed.

(** ** The invariant *)

(** The body bytes seen so far, in the order they arrived. *)
Definition arrival (p : Parts) : bytes := concat (rest p) ++ default [] (first p).

Definition parts_wf (p : Parts) : Prop := got p = blen (arrival p).

Definition publish_wf (lim : Limits) (hdr total : Z) (hpub : bool) : Prop :=
  (0 <= hdr <= total)%Z /\ (total <= max_payload lim)%Z /\ (total < 10 ^ 9)%Z /\
  (hpub = false -> hdr = 0%Z).

Definition state_wf (lim : Limits) (st : State) : Prop :=
  match st with
  | Line => True
  | Body _ _ hdr need hpub p =>
      publish_wf lim hdr need hpub /\ parts_wf p /\ (got p <= need)%Z
  end.

Definition event_wf (lim : Limits) (ev : Event) : Prop :=
  match ev with
  | EvPublish _ _ hdr total body hpub => blen body = total /\ publish_wf lim hdr total hpub
  | EvUnsubscribe _ max => (-1 <= max < 10 ^ 9)%Z
  | _ => True
  end.

Lemma own_id b : own b = b.
Proof. unfold own. by destruct (is_empty b). Qed.

Lemma own_fmap (o : option bytes) : own <$> o = o.
Proof. destruct o; simpl; by rewrite ?own_id. Qed.

Lemma parts_hoist_eq p :
  parts_hoist p = if fresh p then mkParts (first p) (rest p) (got p) false else p.
Proof.
  unfold parts_hoist. destruct (fresh p); [| done]. rewrite own_fmap.
  destruct (last (rest p)) as [l |] eqn:Hl; [| done]. rewrite own_id.
  f_equal. apply last_Some in Hl as [l' Hl]. rewrite Hl. by rewrite removelast_last.
Qed.

Lemma hoist_eq s r h n hp p :
  hoist (Body s r h n hp p) = Body s r h n hp (parts_hoist p).
Proof. unfold hoist. by rewrite own_id, own_fmap. Qed.

Lemma arrival_hoist p : arrival (parts_hoist p) = arrival p.
Proof. rewrite parts_hoist_eq. by destruct (fresh p). Qed.

Lemma got_hoist p : got (parts_hoist p) = got p.
Proof. rewrite parts_hoist_eq. by destruct (fresh p). Qed.

Lemma rest_hoist p : rest (parts_hoist p) = rest p.
Proof. rewrite parts_hoist_eq. by destruct (fresh p). Qed.

Lemma arrival_push p b : arrival (parts_push p b) = arrival p ++ b \/ first p = None.
Proof.
  unfold arrival, parts_push. destruct (first p); [left | by right]. simpl.
  rewrite !concat_app. simpl. by rewrite !app_nil_r, <- !(assoc_L (++)).
Qed.

Lemma arrival_push_eq p b : arrival (parts_push p b) = arrival p ++ b.
Proof.
  destruct (arrival_push p b) as [? | H]; [done |].
  unfold arrival, parts_push. rewrite H. simpl. by rewrite !app_nil_r.
Qed.

Lemma got_push p b : got (parts_push p b) = (got p + blen b)%Z.
Proof. unfold parts_push. by destruct (first p). Qed.

Lemma take_body_perm p : take_body p = default [] (first p) ++ concat (rest p).
Proof. unfold take_body. destruct (first p), (rest p); simpl; by rewrite ?app_nil_r. Qed.

Lemma blen_take_body p : blen (take_body p) = blen (arrival p).
Proof. rewrite take_body_perm. unfold arrival. autorewrite with nats. lia. Qed.

Lemma parts_wf_new : parts_wf parts_new.
Proof. reflexivity. Qed.

Lemma parts_wf_push p b : parts_wf p -> parts_wf (parts_push p b).
Proof. unfold parts_wf. rewrite got_push, arrival_push_eq, blen_app. by intros ->. Qed.

Lemma parts_wf_hoist p : parts_wf p -> parts_wf (parts_hoist p).
Proof. unfold parts_wf. by rewrite got_hoist, arrival_hoist. Qed.

#[export] Hint Resolve parts_wf_new parts_wf_push parts_wf_hoist : nats.

Lemma pub_line_wf line rest ha hp lim a :
  pub_line line rest ha hp lim = Ok a ->
  match a with
  | Action_Event ev => ev = EvHpubAttempt Hpub_Args
  | Action_Body _ _ hdr need hp' => hp' = hp /\ publish_wf lim hdr need hp
  end.
Proof.
  unfold pub_line. intros H.
  destruct (negb ha); [done |].
  destruct (pub_shape _ _) as [[[s r] [z0 z1]] |]; [| by destruct hp; simplify_eq].
  set (args := args_of _ _) in *.
  pose proof (parse_size_range (args_slice args line z1)).
  set (total := parse_size (args_slice args line z1)) in *.
  set (hdr := if hp then _ else 0%Z) in *.
  destruct ((hdr <? 0)%Z || (total <? 0)%Z || (hdr >? total)%Z) eqn:E;
    [by destruct hp; simplify_eq |].
  destruct (total >? max_payload lim)%Z eqn:E2; [done |].
  simplify_eq. split; [done |]. bool_to_prop.
  split_and!; try lia. by intros ->.
Qed.

Lemma parse_line_wf line lim a :
  parse_line line lim = Ok a ->
  match a with
  | Action_Event ev => event_wf lim ev
  | Action_Body _ _ hdr need hp => publish_wf lim hdr need hp
  end.
Proof.
  unfold parse_line, prefix_verb, sub_line, unsub_line, subscribe. intros H.
  destruct line as [| b0 line']; [done |].
  assert (Hpub : forall hp rest ha, pub_line (b0 :: line') rest ha hp lim = Ok a ->
    match a with
    | Action_Event ev => event_wf lim ev
    | Action_Body _ _ hdr need hp => publish_wf lim hdr need hp
    end).
  { intros hp rest ha Hp%pub_line_wf. destruct a; [by subst | by destruct Hp as [-> ?]]. }
  repeat case_match; simplify_eq; eauto; simpl; try (apply parse_size_range || lia).
Qed.

(** What one pass leaves behind: the state stays well formed, the batch only
    grows, and by well-formed events. *)
Definition pass_ok (lim : Limits) (out : list Event) (st' : State) (out' : list Event) : Prop :=
  state_wf lim st' /\ exists evs, out' = out ++ evs /\ Forall (event_wf lim) evs.

Lemma pass_ok_same lim out st : state_wf lim st -> pass_ok lim out st out.
Proof. intros H. split; [done |]. exists []. by rewrite app_nil_r. Qed.

Lemma pass_ok_snoc lim out st ev :
  state_wf lim st -> event_wf lim ev -> pass_ok lim out st (out ++ [ev]).
Proof. intros H He. split; [done |]. exists [ev]. by repeat constructor. Qed.

#[export] Hint Resolve pass_ok_same pass_ok_snoc : nats.

Lemma feed_line_ok src lim out :
  match feed_line src lim out with
  | Return _ st' _ out' | Continue st' _ out' => pass_ok lim out st' out'
  end.
Proof.
  unfold feed_line.
  case_bool_decide; [by apply pass_ok_same |].
  destruct (find_crlf src) as [i |]; [| destruct (_ >? _)%Z; by apply pass_ok_same].
  destruct (Z.of_nat i >? max_control_line lim)%Z; [by apply pass_ok_same |].
  destruct (parse_line _ lim) as [[ev | s r h n hp] | e] eqn:E; [| | by apply pass_ok_same].
  - apply parse_line_wf in E. case_bool_decide; by apply pass_ok_snoc.
  - apply parse_line_wf in E.
    assert (state_wf lim (Body s r h n hp parts_new)).
    { split; [done |]. split; [apply parts_wf_new |]. simpl. by destruct E as [? _]; lia. }
    destruct hp; [by apply pass_ok_snoc | by apply pass_ok_same].
Qed.

Lemma body_take_wf n p src p' src' :
  body_take n p src = (p', src') -> parts_wf p -> (got p <= n)%Z -> parts_wf p' /\ (got p' <= n)%Z.
Proof.
  intros (b & -> & Hp & Hb)%body_take_app Hwf Hn.
  destruct Hp as [[-> ->] | [-> _]]; [done |].
  split; [by apply parts_wf_push |]. rewrite got_push. pose proof (blen_nonneg (b ++ src')). lia.
Qed.

Lemma feed_body_ok s r h n hp p src lim out :
  state_wf lim (Body s r h n hp p) ->
  match feed_body s r h n hp p src out with
  | Return _ st' _ out' | Continue st' _ out' => pass_ok lim out st' out'
  end.
Proof.
  intros (Hpub & Hp & Hle). unfold feed_body.
  destruct (body_take n p src) as [p' src'] eqn:Ht.
  apply body_take_wf in Ht as [Hp' Hle']; [| done..].
  assert (Hst : state_wf lim (Body s r h n hp p')) by done.
  assert (Hho : state_wf lim (hoist (Body s r h n hp p'))).
  { rewrite hoist_eq. split; [done |]. rewrite got_hoist. auto with nats. }
  unfold body_decide, hpub_frame_error.
  destruct (got p' <? n)%Z eqn:E; [by apply pass_ok_same |]. bool_to_prop.
  assert (He : event_wf lim (EvPublish s r h (blen (take_body p')) (take_body p') hp)).
  { split; [done |]. replace (blen (take_body p')) with n; [done |].
    rewrite blen_take_body. unfold parts_wf in Hp'. lia. }
  destruct src' as [| c0 [| c1 src']]; repeat case_bool_decide; destruct hp;
    first [by apply pass_ok_same | by apply pass_ok_snoc].
Qed.

Lemma feed_pass_ok st src lim out :
  state_wf lim st ->
  match feed_pass st src lim out with
  | Return _ st' _ out' | Continue st' _ out' => pass_ok lim out st' out'
  end.
Proof. destruct st; simpl; [intros _; apply feed_line_ok | apply feed_body_ok]. Qed.

Lemma feed_into_ok lim : forall st src out r st' src' out',
  state_wf lim st -> feed_into st src lim out = Some (r, st', src', out') ->
  pass_ok lim out st' out'.
Proof.
  intros st src out. pattern st, src, out. apply (feed_into_ind lim). clear st src out.
  intros st src out IH r st' src' out' Hwf. rewrite feed_into_unfold.
  pose proof (feed_pass_ok st src lim out Hwf) as Hok.
  destruct (feed_pass st src lim out) as [st1 src1 out1 | r1 st1 src1 out1]; [| by intros [= <- <- <- <-]].
  intros H. destruct Hok as (Hwf1 & evs & -> & Hevs).
  destruct (IH st1 src1 (out ++ evs) eq_refl _ _ _ _ Hwf1 H) as (Hwf' & evs' & -> & Hevs').
  split; [done |]. exists (evs ++ evs'). rewrite <- (assoc_L (++)). split; [done |].
  by apply Forall_app.
Qed.

(** ** Bodies in pieces *)

(** What [take_body] returns for a body taken in the pieces [ps]. *)
Definition pieces_body (ps : list bytes) : bytes :=
  if Nat.even (length ps) then concat ps
  else default [] (last ps) ++ concat (removelast ps).

(** [p] holds the pieces [ps]: [first] and [rest] as [Parts::push] leaves them. *)
Definition holds_pieces (p : Parts) (ps : list bytes) : Prop :=
  (if Nat.even (length ps) then first p = None /\ rest p = ps
   else first p = last ps /\ rest p = removelast ps) /\
  got p = blen (concat ps).

Lemma holds_pieces_new : holds_pieces parts_new [].
Proof. done. Qed.

Lemma holds_pieces_push p ps b : holds_pieces p ps -> holds_pieces (parts_push p b) (ps ++ [b]).
Proof.
  intros [IH Hg]. split.
  2: { rewrite got_push, Hg, concat_app. simpl. by rewrite app_nil_r, blen_app. }
  rewrite length_app, Nat.add_1_r, Nat.even_succ, <- Nat.negb_even.
  destruct (Nat.even (length ps)) eqn:Hev; simpl negb; cbn match.
  - destruct IH as [Hf Hr]. unfold parts_push. rewrite Hf. simpl.
    by rewrite last_snoc, removelast_last.
  - destruct IH as [Hf Hr]. destruct ps as [| q ps _] using rev_ind; [done |].
    rewrite last_snoc in Hf. unfold parts_push. rewrite Hf. simpl.
    by rewrite Hr, removelast_last.
Qed.

Lemma holds_pieces_hoist p ps : holds_pieces p ps -> holds_pieces (parts_hoist p) ps.
Proof. rewrite parts_hoist_eq. by destruct (fresh p). Qed.

#[export] Hint Resolve holds_pieces_new holds_pieces_push holds_pieces_hoist : nats.

Lemma take_body_pieces p ps : holds_pieces p ps -> take_body p = pieces_body ps.
Proof.
  intros [H _]. rewrite take_body_perm. unfold pieces_body.
  destruct (Nat.even (length ps)); destruct H as [-> ->]; [done |]. by destruct (last ps).
Qed.

(** ** Properties *)

(** C17: [feed_into] always returns: its loop ends for every parser state and every
    buffer.  The state it leaves is well formed if the one it found was, the batch
    it was given is only extended, and every event it adds is well formed: a
    publish carries exactly the declared number of bytes, which is within
    [max_payload] and holds the declared header block, and a plain [PUB] declares
    no headers; the limit of an [UNSUB] is -1 or a number below 10^9. *)
Theorem feed_into_total_wf st src lim out :
  state_wf lim st ->
  exists r st' src' evs,
    feed_into st src lim out = Some (r, st', src', out ++ evs) /\
    state_wf lim st' /\ Forall (event_wf lim) evs.
Proof.
  intros Hwf. destruct (feed_into_some st src lim out) as [[[[r st'] src'] out'] H].
  destruct (feed_into_ok _ _ _ _ _ _ _ _ Hwf H) as (Hwf' & evs & -> & Hevs). eauto 10.
Qed.

Lemma feed_into_total_wf_witness :
  state_wf default_limits Line /\
  exists r st' src' evs,
    feed_into Line (bs "PUB a 2" ++ [x0d; x0a] ++ bs "h") default_limits [] = Some (r, st', src', [] ++ evs) /\
    state_wf default_limits st' /\ Forall (event_wf default_limits) evs.
Proof. split; [exact I |]. apply (feed_into_total_wf Line). exact I. Defined.
