(* ===== verification/ProtoStream.v ===== *)
(** * The parser over a segmented stream

    TCP decides where a read ends.  This file relates what the parser makes of a
    stream in one read to what it makes of the same bytes in several. *)

From Stdlib Require Import String Strings.Byte.
From S2P Require Import Prelude Proto ProtoLex Decimal ProtoFeed.

(** ** Successive reads *)

(** The events [handle] answers by closing the connection, whatever the
    connection's options are: nothing after them is ever executed. *)
Definition halts (ev : Event) : bool :=
  match ev with
  | EvHpubAttempt Hpub_Args | EvHpubAttempt (Hpub_Frame _) => true
  | _ => false
  end.

(** The reader's use of the parser: each read is appended to what the last one
    left in the buffer, and the batches are executed one after the other. *)
Fixpoint feed_reads (st : State) (buf : bytes) (lim : Limits) (out : list Event)
    (reads : list bytes) : option FeedResult :=
  match reads with
  | [] => Some (Ok tt, st, buf, out)
  | r :: reads' =>
      match feed_into st (buf ++ r) lim out with
      | Some (Ok _, st', buf', out') =>
          if existsb halts out' then Some (Ok tt, st', buf', out')
          else feed_reads st' buf' lim out' reads'
      | x => x
      end
  end.

(** Two parser states that differ only in how the body seen so far is cut up. *)
Definition state_sim (st1 st2 : State) : Prop :=
  match st1, st2 with
  | Line, Line => True
  | Body s r h n hp p, Body s' r' h' n' hp' p' =>
      (s, r, h, n, hp) = (s', r', h', n', hp') /\ arrival p = arrival p'
  | _, _ => False
  end.

(** The same answer and the same events; and, if the connection goes on, the same
    unread bytes and the same parser state. *)
Definition same_outcome (x y : option FeedResult) : Prop :=
  match x, y with
  | Some (r1, st1, src1, out1), Some (r2, st2, src2, out2) =>
      r1 = r2 /\ out1 = out2 /\
      (r1 = Ok tt -> existsb halts out1 = false -> src1 = src2 /\ state_sim st1 st2)
  | _, _ => False
  end.

Definition flow_sim (f g : Flow) : Prop :=
  match f, g with
  | Continue st1 src1 out1, Continue st2 src2 out2 => st1 = st2 /\ src1 = src2 /\ out1 = out2
  | Return r1 st1 src1 out1, Return r2 st2 src2 out2 =>
      r1 = r2 /\ out1 = out2 /\
      (r1 = Ok tt -> existsb halts out1 = false -> src1 = src2 /\ state_sim st1 st2)
  | _, _ => False
  end.

Lemma state_sim_refl st : state_sim st st.
Proof. by destruct st. Qed.

Lemma same_outcome_refl x : is_Some x -> same_outcome x x.
Proof. intros [[[[r st] src] out] ->]. simpl. split_and!; auto using state_sim_refl. Qed.

Lemma flow_sim_refl f : flow_sim f f.
Proof. destruct f; simpl; auto using state_sim_refl. Qed.

#[export] Hint Resolve state_sim_refl same_outcome_refl flow_sim_refl : nats.

Lemma flow_sim_outcome st1 src1 st2 src2 lim out :
  flow_sim (feed_pass st1 src1 lim out) (feed_pass st2 src2 lim out) ->
  same_outcome (feed_into st1 src1 lim out) (feed_into st2 src2 lim out).
Proof.
  rewrite (feed_into_unfold st1), (feed_into_unfold st2).
  destruct (feed_pass st1 src1 lim out), (feed_pass st2 src2 lim out); simpl; try done.
  intros (-> & -> & ->). apply same_outcome_refl, feed_into_some.
Qed.

(** ** Cutting one read in two *)

(** The decision about a body depends on its bytes, not on the pieces. *)
Lemma body_decide_sim s r h n hp p q src out :
  got p = got q -> arrival p = arrival q -> take_body p = take_body q ->
  flow_sim (body_decide s r h n hp p src out) (body_decide s r h n hp q src out).
Proof.
  intros Hg Ha Hb. unfold body_decide, hpub_frame_error.
  rewrite Hg, Hb, !hoist_eq.
  assert (Hh : state_sim (Body s r h n hp (parts_hoist p)) (Body s r h n hp (parts_hoist q))).
  { simpl. by rewrite !arrival_hoist. }
  destruct (got q <? n)%Z; [by split_and!; auto |].
  destruct src as [| c0 [| c1 src]]; repeat case_bool_decide; destruct hp; simpl;
    by split_and!; auto.
Qed.

(** [p] holds at most one piece. *)
Definition one_piece (p : Parts) : Prop := rest p = [].

Lemma one_piece_push_body p b :
  one_piece p -> take_body (parts_push p b) = arrival p ++ b.
Proof.
  unfold one_piece. intros Hr. rewrite take_body_perm. unfold arrival, parts_push.
  destruct (first p); rewrite Hr; simpl; by rewrite ?app_nil_r.
Qed.

Lemma one_piece_body p : one_piece p -> take_body p = arrival p.
Proof.
  unfold one_piece. intros Hr. rewrite take_body_perm. unfold arrival. rewrite Hr.
  simpl. by rewrite app_nil_r.
Qed.

Lemma one_piece_take p n src p' src' :
  one_piece p -> body_take n p src = (p', src') -> take_body p' = arrival p'.
Proof.
  intros H1 (b & _ & [[-> _] | [-> _]] & _)%body_take_app.
  - by apply one_piece_body.
  - by rewrite one_piece_push_body, arrival_push_eq.
Qed.

(** Where a body taken from [src] stops does not depend on how much of it was
    already held, as long as what was held comes first. *)
Lemma body_take_arrival n p src p' src' :
  parts_wf p -> (got p <= n)%Z -> body_take n p src = (p', src') ->
  arrival p' = arrival p ++ take (Z.to_nat (n - got p)) src /\
  src' = drop (Z.to_nat (n - got p)) src /\ got p' = blen (arrival p').
Proof.
  intros Hwf Hle Ht. pose proof (body_take_wf _ _ _ _ _ Ht Hwf Hle) as [Hwf' _].
  apply body_take_app in Ht as (b & -> & Hp & Hb).
  assert (Hb' : length b = Z.to_nat (n - got p) \/
                (length b <= Z.to_nat (n - got p) /\ src' = [])).
  { assert (src' = [] \/ 0 < length src') as [-> | Hpos] by (destruct src'; simpl; auto with lia).
    - right. rewrite app_nil_r in Hb. unfold blen in Hb. split; [lia | done].
    - left. rewrite blen_app in Hb. unfold blen in Hb. lia. }
  assert (Htd : take (Z.to_nat (n - got p)) (b ++ src') = b /\
                drop (Z.to_nat (n - got p)) (b ++ src') = src').
  { destruct Hb' as [<- | [Hlen ->]]; [by rewrite take_app_length, drop_app_length |].
    rewrite app_nil_r. split; [by apply take_ge | by apply drop_ge]. }
  destruct Htd as [-> ->].
  destruct Hp as [[-> ->] | [-> _]]; rewrite ?app_nil_r, ?arrival_push_eq; split_and!; try done.
  rewrite <- arrival_push_eq. done.
Qed.

Lemma feed_body_resume s r h n hp p0 p a src out :
  one_piece p0 -> parts_wf p0 -> one_piece p -> parts_wf p ->
  arrival p = arrival p0 ++ a -> (got p <= n)%Z ->
  flow_sim (feed_body s r h n hp p0 (a ++ src) out) (feed_body s r h n hp p src out).
Proof.
  intros H0 Hw0 H1 Hw Ha Hle. unfold feed_body.
  destruct (body_take n p0 (a ++ src)) as [p1 src1] eqn:E1.
  destruct (body_take n p src) as [p2 src2] eqn:E2.
  pose proof (one_piece_take _ _ _ _ _ H0 E1) as Hb1.
  pose proof (one_piece_take _ _ _ _ _ H1 E2) as Hb2.
  assert (Hg : got p = (got p0 + blen a)%Z).
  { unfold parts_wf in *. rewrite Hw, Ha, blen_app, Hw0. done. }
  pose proof (blen_nonneg a).
  apply body_take_arrival in E1 as (Ha1 & -> & Hg1); [| done | lia].
  apply body_take_arrival in E2 as (Ha2 & -> & Hg2); [| done | lia].
  assert (Hk : Z.to_nat (n - got p0) = length a + Z.to_nat (n - got p)).
  { unfold blen in *. lia. }
  assert (Harr : arrival p1 = arrival p2).
  { rewrite Ha1, Ha2, Ha, Hk, <- (assoc_L (++)). f_equal.
    by rewrite take_app_add'. }
  rewrite Hk, drop_app_add'. 2: done.
  apply body_decide_sim; [congruence | done | congruence].
Qed.

Definition no_piece (p : Parts) : Prop := first p = None /\ rest p = [].

(** The states the parser has between two operations or right after a [PUB]
    line: nothing of a body is held. *)
Definition state_clean (st : State) : Prop :=
  match st with
  | Line => True
  | Body _ _ _ need _ p => no_piece p /\ parts_wf p /\ (got p <= need)%Z
  end.

Lemma no_piece_one_piece p : no_piece p -> one_piece p.
Proof. by intros [_ ?]. Qed.

Lemma one_piece_hoist p : one_piece p -> one_piece (parts_hoist p).
Proof. unfold one_piece. by rewrite rest_hoist. Qed.

Lemma no_piece_take n p src p' src' :
  no_piece p -> body_take n p src = (p', src') -> one_piece p'.
Proof.
  intros [Hf Hr] (b & _ & [[-> _] | [-> _]] & _)%body_take_app; [done |].
  unfold one_piece, parts_push. by rewrite Hf.
Qed.

#[export] Hint Resolve no_piece_one_piece one_piece_hoist no_piece_take : nats.

Lemma body_take_more n p a b p' a' :
  body_take n p a = (p', a') -> a' <> [] -> body_take n p (a ++ b) = (p', a' ++ b).
Proof.
  unfold body_take. rewrite blen_app. pose proof (blen_nonneg b).
  destruct (Z.min (n - got p) (blen a) >? 0)%Z eqn:E; intros H0 Hne; simplify_eq; bool_to_prop.
  - set (k := Z.min (n - got p) (blen a)) in *.
    assert (Hk : (k < blen a)%Z).
    { assert (Hl : length (drop (Z.to_nat k) a) <> 0) by (by destruct (drop _ a)).
      rewrite length_drop in Hl. unfold blen. lia. }
    replace (Z.min (n - got p) (blen a + blen b)) with k by lia.
    rewrite (proj2 (Z.gtb_lt _ _)) by lia. unfold blen in Hk.
    rewrite take_app_le, drop_app_le by lia. done.
  - pose proof (blen_pos a' Hne).
    replace (Z.min (n - got p') (blen a' + blen b) >? 0)%Z with false; [done |]. lia.
Qed.

(** How a pass over [a] extends to a pass over [a ++ b]. *)
Definition pass_extends (lim : Limits) (st : State) (a b : bytes) (out : list Event) (f : Flow) :
    Prop :=
  match f with
  | Continue st' a' out' =>
      feed_pass st (a ++ b) lim out = Continue st' (a' ++ b) out' /\
      state_clean st' /\ existsb halts out' = false
  | Return (Err e) _ _ out' =>
      exists st'' src'', feed_pass st (a ++ b) lim out = Return (Err e) st'' src'' out'
  | Return (Ok _) st' a' out' =>
      if existsb halts out'
      then exists st'' src'', feed_pass st (a ++ b) lim out = Return (Ok tt) st'' src'' out'
      else out' = out /\ flow_sim (feed_pass st (a ++ b) lim out) (feed_pass st' (a' ++ b) lim out)
  end.

(** The one event of a control line that ends the connection by itself. *)
Lemma parse_line_halts line lim ev :
  parse_line line lim = Ok (Action_Event ev) -> halts ev = true -> ev = EvHpubAttempt Hpub_Args.
Proof.
  unfold parse_line, prefix_verb, sub_line, unsub_line, subscribe. intros H Hh.
  destruct line as [| b0 line']; [done |].
  repeat case_match; simplify_eq; try done;
    match goal with Hp : pub_line _ _ _ _ _ = _ |- _ => by apply pub_line_wf in Hp end.
Qed.

Lemma existsb_snoc {A} (p : A -> bool) l a : existsb p (l ++ [a]) = existsb p l || p a.
Proof. rewrite existsb_app. simpl. by rewrite orb_false_r. Qed.

Lemma body_pass_extends lim s r h n hp p a b out :
  state_clean (Body s r h n hp p) -> existsb halts out = false ->
  pass_extends lim (Body s r h n hp p) a b out (feed_body s r h n hp p a out).
Proof.
  intros (Hnp & Hwf & Hle) Hout. unfold feed_body.
  destruct (body_take n p a) as [p' a'] eqn:Ht.
  pose proof (body_take_wf _ _ _ _ _ Ht Hwf Hle) as [Hwf' Hle'].
  pose proof (no_piece_take _ _ _ _ _ Hnp Ht) as Hone.
  assert (Hwait : pass_extends lim (Body s r h n hp p) a b out
                    (Return (Ok tt) (hoist (Body s r h n hp p')) a' out)).
  { unfold pass_extends. rewrite Hout. split; [done |].
    rewrite hoist_eq. apply body_take_app in Ht as (c & -> & Hc & _).
    rewrite <- (assoc_L (++)). simpl. apply feed_body_resume; auto with nats.
    - rewrite arrival_hoist. destruct Hc as [[-> ->] | [-> _]]; [by rewrite app_nil_r |].
      apply arrival_push_eq.
    - by rewrite got_hoist. }
  assert (Hmore : a' <> [] -> forall f,
    body_decide s r h n hp p' (a' ++ b) out = f -> feed_body s r h n hp p (a ++ b) out = f).
  { intros Hne f <-. unfold feed_body. by rewrite (body_take_more _ _ _ b _ _ Ht Hne). }
  unfold body_decide, hpub_frame_error in *.
  destruct (got p' <? n)%Z; [done |].
  destruct a' as [| c0 [| c1 a']]; [done | |]; specialize (Hmore ltac:(done)).
  - case_bool_decide; [done |]. simpl in Hmore.
    rewrite bool_decide_false in Hmore by done. destruct hp; simpl.
    + rewrite existsb_snoc, orb_true_r. destruct b; simpl in Hmore; do 2 eexists; by apply Hmore.
    + destruct b; simpl in Hmore; do 2 eexists; by apply Hmore.
  - simpl in Hmore. repeat case_bool_decide; simpl.
    + split_and!; [by apply Hmore | done | by rewrite existsb_snoc, Hout].
    + destruct hp; simpl; rewrite ?existsb_snoc, ?orb_true_r; do 2 eexists; by apply Hmore.
    + destruct hp; simpl; rewrite ?existsb_snoc, ?orb_true_r; do 2 eexists; by apply Hmore.
Qed.

(** The limits under which an unfinished line that is already too long is also
    too long once it is finished. *)
Definition line_limit_ok (lim : Limits) : Prop :=
  (0 < max_control_line lim)%Z /\ (max_control_line lim * 16 < u64_modulus)%Z.

Lemma line_pass_extends lim a b out :
  line_limit_ok lim -> existsb halts out = false ->
  pass_extends lim Line a b out (feed_line a lim out).
Proof.
  intros [Hm Hw] Hout. unfold feed_line at 1. rewrite wrap64_small by (unfold in_u64; lia).
  destruct (find_crlf a) as [i |] eqn:Hi; rewrite find_crlf_eq in Hi.
  - pose proof (crlf_position_app _ b _ Hi) as Hi'.
    assert (Hlen : i + 2 <= length a).
    { apply crlf_position_Some, (f_equal length) in Hi.
      rewrite length_app, length_take in Hi. simpl in Hi. lia. }
    assert (Hhead : head (a ++ b) = head a) by (destruct a; [simpl in Hlen; lia | done]).
    unfold pass_extends, feed_pass, feed_line.
    rewrite Hhead, find_crlf_eq, Hi', take_app_le, !drop_app_le by (rewrite ?length_drop; lia).
    case_bool_decide; [by eauto |].
    destruct (Z.of_nat i >? max_control_line lim)%Z; [by eauto |].
    destruct (parse_line (take i a) lim) as [[ev | s r h n hp] | e] eqn:Hpl; [| | by eauto].
    + case_bool_decide as Hev; [rewrite existsb_snoc, Hev, orb_true_r; by eauto |].
      split_and!; [done.. |]. rewrite existsb_snoc, Hout.
      destruct (halts ev) eqn:Hh; [| done]. by apply (parse_line_halts _ _ _ Hpl) in Hh.
    + apply parse_line_wf in Hpl as [? _]. split_and!; [done | | by destruct hp; rewrite ?existsb_snoc, ?Hout].
      split_and!; [done | done | simpl; lia].
  - unfold pass_extends, feed_pass.
    case_bool_decide as Hlf.
    { destruct a as [| c a]; [done |]. simplify_eq/=. unfold feed_line. simpl. by eauto. }
    destruct (blen a >? max_control_line lim * 16)%Z eqn:Hlong.
    2: { rewrite Hout. split; [done |]. apply flow_sim_refl. }
    bool_to_prop. unfold feed_line. rewrite wrap64_small, find_crlf_eq by (unfold in_u64; lia).
    rewrite bool_decide_false.
    2: { destruct a as [| c a]; [| done]. change (blen []) with 0%Z in Hlong. lia. }
    destruct (crlf_position (a ++ b)) as [j |] eqn:Hj.
    + pose proof (crlf_position_None_app _ _ _ Hi Hj). unfold blen in Hlong.
      rewrite (proj2 (Z.gtb_lt _ _)) by lia. by eauto.
    + rewrite blen_app. pose proof (blen_nonneg b).
      rewrite (proj2 (Z.gtb_lt _ _)) by lia. by eauto.
Qed.

Lemma pass_extends_all lim st a b out :
  line_limit_ok lim -> state_clean st -> existsb halts out = false ->
  pass_extends lim st a b out (feed_pass st a lim out).
Proof. intros. destruct st; [by apply line_pass_extends | by apply body_pass_extends]. Qed.

Lemma feed_into_extends lim b : line_limit_ok lim -> forall st a out,
  state_clean st -> existsb halts out = false ->
  same_outcome (feed_into st (a ++ b) lim out)
    match feed_into st a lim out with
    | Some (Ok _, st', a', out') =>
        if existsb halts out' then Some (Ok tt, st', a', out') else feed_into st' (a' ++ b) lim out'
    | x => x
    end.
Proof.
  intros Hlim st a out. pattern st, a, out. apply (feed_into_ind lim). clear st a out.
  intros st a out IH Hcl Hout. rewrite (feed_into_unfold st a).
  pose proof (pass_extends_all lim st a b out Hlim Hcl Hout) as Hext.
  pose proof (feed_into_some st (a ++ b) lim out) as Hsome.
  unfold pass_extends in Hext.
  destruct (feed_pass st a lim out) as [st' a' out' | [[] | e] st' a' out'] eqn:E.
  - destruct Hext as (Hp & Hcl' & Hh). rewrite feed_into_unfold, Hp. by apply IH.
  - destruct (existsb halts out') eqn:Hh.
    + destruct Hext as (st2 & src2 & Hp). rewrite feed_into_unfold, Hp. simpl.
      split_and!; [done.. |]. rewrite Hh. done.
    + destruct Hext as (-> & Hsim). by apply flow_sim_outcome.
  - destruct Hext as (st2 & src2 & Hp). rewrite feed_into_unfold, Hp. simpl. by split_and!.
Qed.

(** ** Bodies over many reads *)

Lemma feed_into_nil lim out : feed_into Line [] lim out = Some (Ok tt, Line, [], out).
Proof.
  rewrite feed_into_unfold. simpl. unfold feed_line. simpl.
  pose proof (wrap64_range (max_control_line lim * 16)) as [H _].
  change (blen []) with 0%Z. by rewrite Z.gtb_ltb, (proj2 (Z.ltb_ge _ _)).
Qed.

Lemma feed_body_piece s r h n hp p ps b lim out :
  holds_pieces p ps -> b <> [] -> (got p + blen b < n)%Z ->
  exists p', holds_pieces p' (ps ++ [b]) /\
    feed_into (Body s r h n hp p) b lim out = Some (Ok tt, Body s r h n hp p', [], out).
Proof.
  intros Hp Hb Hn. exists (parts_hoist (parts_push p b)). split; [auto with nats |].
  rewrite feed_into_unfold. simpl. unfold feed_body, body_take.
  pose proof (blen_pos b Hb).
  replace (Z.min (n - got p) (blen b)) with (blen b) by lia.
  rewrite (proj2 (Z.gtb_lt _ _)) by lia. unfold blen at 1 2. rewrite Nat2Z.id, firstn_all, drop_all.
  unfold body_decide. rewrite got_push, (proj2 (Z.ltb_lt _ _)) by done. by rewrite hoist_eq.
Qed.

Lemma feed_body_last s r h n hp p ps b lim out :
  holds_pieces p ps -> b <> [] -> (got p + blen b = n)%Z ->
  feed_into (Body s r h n hp p) (b ++ [x0d; x0a]) lim out =
  Some (Ok tt, Line, [], out ++ [EvPublish s r h n (pieces_body (ps ++ [b])) hp]).
Proof.
  intros Hp Hb Hn. apply (holds_pieces_push _ _ b) in Hp.
  rewrite feed_into_unfold. simpl. unfold feed_body, body_take.
  pose proof (blen_pos b Hb).
  replace (Z.min (n - got p) (blen (b ++ [x0d; x0a]))) with (blen b)
    by (rewrite blen_app; change (blen [x0d; x0a]) with 2%Z; lia).
  rewrite (proj2 (Z.gtb_lt _ _)) by lia. unfold blen at 1 2. rewrite Nat2Z.id.
  rewrite take_app_length, drop_app_length.
  unfold body_decide. rewrite got_push, (proj2 (Z.ltb_ge _ _)) by lia. simpl.
  rewrite (take_body_pieces _ _ Hp).
  replace (blen (pieces_body (ps ++ [b]))) with n.
  2: { rewrite <- (take_body_pieces _ _ Hp), blen_take_body.
       destruct Hp as [Hp Hg]. rewrite got_push in Hg. rewrite <- Hn, Hg.
       unfold arrival. destruct (Nat.even _); destruct Hp as [-> ->]; simpl; [by rewrite app_nil_r |].
       rewrite last_snoc, removelast_last, concat_app. simpl. by rewrite app_nil_r. }
  apply feed_into_nil.
Qed.

Lemma feed_reads_body s r h n hp p ps init b lim out :
  existsb halts out = false -> holds_pieces p ps -> Forall (fun q => q <> []) init -> b <> [] ->
  (got p + blen (concat init) + blen b = n)%Z ->
  feed_reads (Body s r h n hp p) [] lim out (init ++ [b ++ [x0d; x0a]]) =
  Some (Ok tt, Line, [], out ++ [EvPublish s r h n (pieces_body (ps ++ init ++ [b])) hp]).
Proof.
  intros Hout Hp Hinit. revert p ps Hp. induction Hinit as [| q init Hq Hinit IH]; intros p ps Hp Hb Hn.
  - simpl in *. rewrite blen_nil in Hn. rewrite (feed_body_last _ _ _ n _ p ps) by (done || lia).
    by rewrite existsb_snoc, Hout.
  - simpl in *. rewrite blen_app in Hn. pose proof (blen_nonneg (concat init)).
    pose proof (blen_pos b Hb).
    destruct (feed_body_piece s r h n hp p ps q lim out) as (p' & Hp' & ->); [done | done | lia |].
    rewrite Hout, (IH p' (ps ++ [q])); [by rewrite <- (assoc_L (++)) | done | done |].
    destruct Hp' as [_ ->]. destruct Hp as [_ Hg]. rewrite concat_app. simpl.
    rewrite app_nil_r, blen_app. lia.
Qed.

(** ** Properties *)



(** C29: a publish body that arrives over several reads.  The pieces, one or more
    and none of them empty, are followed by the terminator in the last read; the
    publish that results carries [pieces_body] of them: their concatenation when
    their number is even, and the last piece moved to the front when it is odd. *)
Theorem body_over_reads s r h hp lim init b :
  Forall (fun q => q <> []) init -> b <> [] ->
  let n := blen (concat (init ++ [b])) in
  feed_reads (Body s r h n hp parts_new) [] lim [] (init ++ [b ++ [x0d; x0a]]) =
  Some (Ok tt, Line, [], [EvPublish s r h n (pieces_body (init ++ [b])) hp]).
Proof.
  intros Hinit Hb n. apply (feed_reads_body s r h n hp parts_new [] init b); auto with nats.
  subst n. rewrite concat_app, blen_app. simpl. rewrite app_nil_r. lia.
Qed.

Lemma body_over_reads_witness :
  feed_reads (Body (bs "a") None 0 4 false parts_new) [] default_limits []
    [bs "w"; bs "x"; bs "y"; bs "z" ++ [x0d; x0a]] =
  Some (Ok tt, Line, [], [EvPublish (bs "a") None 0 4 (bs "wxyz") false]).
Proof.
  apply (body_over_reads (bs "a") None 0 false default_limits [bs "w"; bs "x"; bs "y"] (bs "z"));
    [by repeat constructor | done].
Defined.

(** A publish body that spans three reads is delivered with its bytes in the
    wrong order: [abc], sent as [a], [b], [c], reaches the router as [cab], while
    the same bytes in one read reach it as [abc]. *)
Lemma body_in_three_reads_is_reordered :
  feed_reads Line [] default_limits []
    [bs "PUB s 3" ++ [x0d; x0a] ++ bs "a"; bs "b"; bs "c" ++ [x0d; x0a]] =
    Some (Ok tt, Line, [], [EvPublish (bs "s") None 0 3 (bs "cab") false]) /\
  feed_reads Line [] default_limits []
    [bs "PUB s 3" ++ [x0d; x0a] ++ bs "abc" ++ [x0d; x0a]] =
    Some (Ok tt, Line, [], [EvPublish (bs "s") None 0 3 (bs "abc") false]).
Proof. vm_compute. done. Qed.
