(* ===== verification/ProtoRoundtrip.v ===== *)
(** * Encoding and parsing client commands

    The commands of the client protocol as a client writes them, and the proof
    that the parser reads every sequence of them back. *)

From Stdlib Require Import String Strings.Byte.
From S2P Require Import Prelude Proto ProtoLex Decimal ProtoFeed ProtoStream.

(** ** Commands on the wire *)

(** What a client can say, before it is put on the wire (contract, section 3). *)
Inductive Cmd :=
| CmdConnect (json : bytes)
| CmdSub (subject : bytes) (queue : option bytes) (sid : bytes)
| CmdUnsub (sid : bytes) (max : option Z)
| CmdPub (subject : bytes) (reply : option bytes) (body : bytes)
| CmdHpub (subject : bytes) (reply : option bytes) (headers payload : bytes)
| CmdPing
| CmdPong.

(** Arguments, each after one space. *)
Definition encode_args (ws : list bytes) : bytes := concat (map (fun w => x20 :: w) ws).

Definition crlf : bytes := [x0d; x0a].

Definition encode_line (verb : string) (ws : list bytes) : bytes := bs verb ++ encode_args ws.

(** The control line of a command, and the body that follows it. *)
Definition cmd_line (c : Cmd) : bytes :=
  match c with
  | CmdConnect json => encode_line "CONNECT" [json]
  | CmdSub s q sid => encode_line "SUB" (s :: option_list q ++ [sid])
  | CmdUnsub sid max => encode_line "UNSUB" (sid :: option_list (push_u64 <$> max))
  | CmdPub s r body => encode_line "PUB" (s :: option_list r ++ [push_u64 (blen body)])
  | CmdHpub s r h p =>
      encode_line "HPUB" (s :: option_list r ++ [push_u64 (blen h); push_u64 (blen (h ++ p))])
  | CmdPing => bs "PING"
  | CmdPong => bs "PONG"
  end.

Definition encode (c : Cmd) : bytes :=
  cmd_line c ++ crlf ++
  match c with
  | CmdPub _ _ body => body ++ crlf
  | CmdHpub _ _ h p => (h ++ p) ++ crlf
  | _ => []
  end.

(** What the parser is expected to make of a command. *)
Definition cmd_events (c : Cmd) : list Event :=
  match c with
  | CmdConnect json => [EvConnect json]
  | CmdSub s q sid => [EvSubscribe s q sid]
  | CmdUnsub sid max => [EvUnsubscribe sid (default (-1)%Z max)]
  | CmdPub s r body => [EvPublish s r 0 (blen body) body false]
  | CmdHpub s r h p =>
      [EvHpubAttempt Hpub_Ok; EvPublish s r (blen h) (blen (h ++ p)) (h ++ p) true]
  | CmdPing => [EvPing]
  | CmdPong => [EvPong]
  end.

(** An argument: at least one byte, no blank, no CR. *)
Definition word (w : bytes) : Prop := w <> [] /\ Forall (fun b => is_blank b = false /\ b <> x0d) w.

(** The options object of a CONNECT: it may hold blanks, but does not start with one. *)
Definition json_ok (j : bytes) : Prop :=
  (exists b j', j = b :: j' /\ is_blank b = false) /\ Forall (fun b => b <> x0d) j.

Definition size_ok (lim : Limits) (n : Z) : Prop := (n < 10 ^ 9)%Z /\ (n <= max_payload lim)%Z.

Definition cmd_ok (lim : Limits) (c : Cmd) : Prop :=
  (blen (cmd_line c) <= max_control_line lim)%Z /\
  match c with
  | CmdConnect json => json_ok json
  | CmdSub s q sid => word s /\ Forall word (option_list q) /\ word sid
  | CmdUnsub sid max => word sid /\ Forall (fun n => 0 <= n < 10 ^ 9)%Z (option_list max)
  | CmdPub s r body => word s /\ Forall word (option_list r) /\ size_ok lim (blen body)
  | CmdHpub s r h p => word s /\ Forall word (option_list r) /\ size_ok lim (blen (h ++ p))
  | CmdPing | CmdPong => True
  end.

(** ** Words of an encoded line *)

(** [word], as a test. *)
Lemma word_check w :
  negb (is_empty w) && forallb (fun b => negb (is_blank b) && bool_decide (b <> x0d)) w = true ->
  word w.
Proof.
  intros [Hne Hw]%andb_true_iff. split; [by destruct w |]. apply Forall_forall. intros b Hb.
  pose proof (proj1 (forallb_forall _ _) Hw b ltac:(by apply list_elem_of_In)). cbn beta in H. bool_to_prop. by split.
Qed.

Lemma words_nil : words [] = [].
Proof. reflexivity. Qed.

Lemma words_go_word cur w s :
  Forall (fun b => is_blank b = false) w -> words_go cur (w ++ s) = words_go (cur ++ w) s.
Proof.
  intros Hw. revert cur. induction Hw as [| b w Hb Hw IH]; intros cur; simpl.
  - by rewrite app_nil_r.
  - by rewrite Hb, IH, <- (assoc_L (++)).
Qed.

Lemma word_not_blank w : word w -> Forall (fun b => is_blank b = false) w.
Proof. intros [_ H]. eapply Forall_impl; [exact H |]. by intros b [? _]. Qed.

Lemma word_no_cr w : word w -> Forall (fun b => b <> x0d) w.
Proof. intros [_ H]. eapply Forall_impl; [exact H |]. by intros b [_ ?]. Qed.

Lemma words_encode_args ws : Forall word ws -> words (encode_args ws) = ws.
Proof.
  rewrite words_eq.
  assert (Hgen : forall cur, Forall word ws ->
    words_go cur (encode_args ws) = (if is_empty cur then [] else [cur]) ++ ws).
  { induction ws as [| w ws IH]; intros cur Hws; simpl; [by rewrite app_nil_r |].
    inversion Hws as [| ? ? Hw Hws']; subst.
    rewrite words_go_word by (by apply word_not_blank). simpl app.
    rewrite IH by done. destruct w as [| b w]; [by destruct Hw | done]. }
  intros H. by rewrite Hgen.
Qed.

Lemma encode_args_no_cr ws : Forall word ws -> Forall (fun b => b <> x0d) (encode_args ws).
Proof.
  induction 1 as [| w ws Hw _ IH]; [constructor |]. unfold encode_args in *. simpl.
  constructor; [done |]. apply Forall_app. split; [by apply word_no_cr | done].
Qed.

Lemma push_u64_word n : in_u64 n -> word (push_u64 n).
Proof.
  intros Hn. destruct (push_u64_spec n Hn) as (Hd & _ & Hne & _). split; [done |].
  apply Forall_forall. intros b Hb.
  assert (Hdig : is_ascii_digit b = true).
  { eapply forallb_forall; [exact Hd |]. by apply list_elem_of_In. }
  apply is_ascii_digit_range in Hdig. unfold is_blank.
  split; [apply orb_false_intro; apply bool_decide_eq_false |]; intros ->;
    unfold u8 in Hdig; simpl in Hdig; lia.
Qed.

#[export] Hint Resolve words_encode_args encode_args_no_cr push_u64_word : nats.

(** ** Each verb *)

Section Verbs.

Context (ws : list bytes) (Hws : Forall word ws) (Hne : ws <> []) (lim : Limits).

Lemma encode_args_cons : exists t, encode_args ws = x20 :: t.
Proof. destruct ws as [| w ws']; [done |]. eexists. reflexivity. Qed.

(** The arguments of a line [verb ++ encode_args ws]. *)
Lemma encoded_args_len (verb : bytes) :
  args_len (args_of (encode_args ws) (length verb)) = Z.min (blen ws) 5.
Proof.
  destruct (args_of_words verb (encode_args ws)) as [-> _]. by rewrite words_encode_args.
Qed.

Lemma encoded_args_slice (verb : bytes) k w :
  k < 5 -> ws !! k = Some w ->
  args_slice (args_of (encode_args ws) (length verb)) (verb ++ encode_args ws) k = w.
Proof.
  intros Hk Hw. destruct (args_of_words verb (encode_args ws)) as [_ H].
  apply H; [done |]. by rewrite words_encode_args.
Qed.

Lemma parse_sub_line :
  parse_line (encode_line "SUB" ws) lim = sub_line (encode_line "SUB" ws) (encode_args ws) 3.
Proof. unfold encode_line. destruct encode_args_cons as [t ->]. reflexivity. Qed.

Lemma parse_unsub_line :
  parse_line (encode_line "UNSUB" ws) lim = unsub_line (encode_line "UNSUB" ws) (encode_args ws) 5.
Proof. unfold encode_line. destruct encode_args_cons as [t ->]. reflexivity. Qed.

Lemma parse_pub_line :
  parse_line (encode_line "PUB" ws) lim =
  pub_line (encode_line "PUB" ws) (encode_args ws) true false lim.
Proof. unfold encode_line. destruct encode_args_cons as [t ->]. reflexivity. Qed.

Lemma parse_hpub_line :
  parse_line (encode_line "HPUB" ws) lim =
  pub_line (encode_line "HPUB" ws) (encode_args ws) true true lim.
Proof. unfold encode_line. destruct encode_args_cons as [t ->]. reflexivity. Qed.

End Verbs.

Lemma word_args s (o : option bytes) ns :
  word s -> Forall word (option_list o) -> Forall word ns -> Forall word (s :: option_list o ++ ns).
Proof. intros. by apply Forall_cons_2, Forall_app_2. Qed.

Lemma word_one w : word w -> Forall word [w].
Proof. intros. by apply Forall_cons_2; [| constructor]. Qed.

(** Replace every argument slice of an encoded line by the word it holds. *)
Ltac eval_slices Hws verb :=
  repeat match goal with
  | |- context [args_slice (args_of _ _) _ ?k] =>
      rewrite (encoded_args_slice _ Hws (bs verb) k _ ltac:(lia) eq_refl)
  end.

Lemma in_u64_small n : (0 <= n < 10 ^ 9)%Z -> in_u64 n.
Proof. unfold in_u64, u64_modulus. lia. Qed.

#[export] Hint Resolve in_u64_small : nats.

Lemma parse_cmd_sub s q sid lim :
  word s -> Forall word (option_list q) -> word sid ->
  parse_line (cmd_line (CmdSub s q sid)) lim = Ok (Action_Event (EvSubscribe s q sid)).
Proof.
  intros Hs Hq Hsid. simpl cmd_line.
  assert (Hws : Forall word (s :: option_list q ++ [sid])).
  { by apply word_args; [| | apply word_one]. }
  rewrite parse_sub_line by done. unfold sub_line, subscribe.
  change 3 with (length (bs "SUB")). rewrite encoded_args_len by done. unfold encode_line.
  destruct q as [q |]; cbn [option_list option_rect app] in *.
  - change (Z.min (blen [_; _; _]) 5) with 3%Z. eval_slices Hws "SUB"%string. done.
  - change (Z.min (blen [_; _]) 5) with 2%Z. eval_slices Hws "SUB"%string. done.
Qed.

Lemma parse_cmd_unsub sid max lim :
  word sid -> Forall (fun n => 0 <= n < 10 ^ 9)%Z (option_list max) ->
  parse_line (cmd_line (CmdUnsub sid max)) lim =
  Ok (Action_Event (EvUnsubscribe sid (default (-1)%Z max))).
Proof.
  intros Hsid Hmax. simpl cmd_line.
  assert (Hws : Forall word (sid :: option_list (push_u64 <$> max))).
  { constructor; [done |]. destruct max; simpl; [| constructor].
    inversion Hmax; subst. apply word_one. auto with nats. }
  rewrite parse_unsub_line by done. unfold unsub_line.
  change 5 with (length (bs "UNSUB")). rewrite encoded_args_len by done. unfold encode_line.
  destruct max as [n |]; cbn [option_list option_rect fmap option_fmap option_map] in *.
  - inversion Hmax; subst. change (Z.min (blen [_; _]) 5) with 2%Z.
    eval_slices Hws "UNSUB"%string.
    by rewrite parse_size_push_u64.
  - change (Z.min (blen [_]) 5) with 1%Z.
    eval_slices Hws "UNSUB"%string. done.
Qed.

(** The size checks of [pub_line] on sizes that are in order. *)
Lemma pub_sizes_pass {A} h n lim (bad big ok : A) :
  (0 <= h <= n)%Z -> size_ok lim n ->
  (if (h <? 0)%Z || (n <? 0)%Z || (h >? n)%Z then bad
   else if (n >? max_payload lim)%Z then big else ok) = ok.
Proof.
  intros Hh [_ Hn].
  replace ((h <? 0)%Z || (n <? 0)%Z || (h >? n)%Z) with false by lia.
  by replace (n >? max_payload lim)%Z with false by lia.
Qed.

(** Evaluate a publish line whose words are [Hws], after the argument count [k]. *)
Ltac eval_pub_line Hws verb :=
  cbn [pub_shape fmap option_fmap option_map]; eval_slices Hws verb;
  rewrite !parse_size_push_u64 by lia; apply pub_sizes_pass; [lia | done].

Lemma parse_cmd_pub s r n lim :
  word s -> Forall word (option_list r) -> (0 <= n)%Z -> size_ok lim n ->
  parse_line (encode_line "PUB" (s :: option_list r ++ [push_u64 n])) lim =
  Ok (Action_Body s r 0 n false).
Proof.
  intros Hs Hr Hn Hok. pose proof Hok as [Hn1 _].
  assert (Hws : Forall word (s :: option_list r ++ [push_u64 n])).
  { apply word_args; [done | done | apply word_one; auto with nats]. }
  rewrite parse_pub_line by done. unfold pub_line. simpl negb. cbn match.
  replace (length (encode_line "PUB" _) - length _) with (length (bs "PUB"))
    by (unfold encode_line; rewrite length_app; lia).
  rewrite encoded_args_len by done. unfold encode_line.
  destruct r as [r |]; cbn [option_list option_rect app] in *.
  - change (Z.min (blen [_; _; _]) 5) with 3%Z. eval_pub_line Hws "PUB"%string.
  - change (Z.min (blen [_; _]) 5) with 2%Z. eval_pub_line Hws "PUB"%string.
Qed.

Lemma parse_cmd_hpub s r h n lim :
  word s -> Forall word (option_list r) -> (0 <= h <= n)%Z -> size_ok lim n ->
  parse_line (encode_line "HPUB" (s :: option_list r ++ [push_u64 h; push_u64 n])) lim =
  Ok (Action_Body s r h n true).
Proof.
  intros Hs Hr Hn Hok. pose proof Hok as [Hn1 _].
  assert (Hws : Forall word (s :: option_list r ++ [push_u64 h; push_u64 n])).
  { apply word_args; [done | done |].
    apply Forall_cons_2; [| apply word_one]; apply push_u64_word, in_u64_small; lia. }
  rewrite parse_hpub_line by done. unfold pub_line. simpl negb. cbn match.
  replace (length (encode_line "HPUB" _) - length _) with (length (bs "HPUB"))
    by (unfold encode_line; rewrite length_app; lia).
  rewrite encoded_args_len by done. unfold encode_line.
  destruct r as [r |]; cbn [option_list option_rect app] in *.
  - change (Z.min (blen [_; _; _; _]) 5) with 4%Z. eval_pub_line Hws "HPUB"%string.
  - change (Z.min (blen [_; _; _]) 5) with 3%Z. eval_pub_line Hws "HPUB"%string.
Qed.

Lemma parse_cmd_connect json lim :
  json_ok json -> parse_line (cmd_line (CmdConnect json)) lim = Ok (Action_Event (EvConnect json)).
Proof.
  intros [(b & j & -> & Hb) _]. simpl cmd_line. unfold encode_line, encode_args.
  cbn [map concat]. rewrite app_nil_r.
  change (prefix_verb EvConnect 7 (bs "CONNECT" ++ x20 :: b :: j) = Ok (Action_Event (EvConnect (b :: j)))).
  unfold prefix_verb, arg_at. change (drop 7 (bs "CONNECT" ++ x20 :: b :: j)) with (x20 :: b :: j).
  simpl position. by rewrite Hb.
Qed.

(** ** The stream of encoded commands *)

(** What one control line of the stream does. *)
Lemma feed_into_line line src lim out :
  Forall (fun b => b <> x0d) line -> (blen line <= max_control_line lim)%Z ->
  head line <> Some x0a ->
  feed_into Line (line ++ crlf ++ src) lim out =
  match parse_line line lim with
  | Err e => Some (Err e, Line, src, out)
  | Ok (Action_Event ev) =>
      if bool_decide (ev = EvHpubAttempt Hpub_Args)
      then Some (Ok tt, Line, src, out ++ [ev])
      else feed_into Line src lim (out ++ [ev])
  | Ok (Action_Body s r h n hp) =>
      feed_into (Body s r h n hp parts_new) src lim
                (if hp then out ++ [EvHpubAttempt Hpub_Ok] else out)
  end.
Proof.
  intros Hcr Hlen Hhd. rewrite feed_into_unfold. cbn [feed_pass]. unfold feed_line.
  rewrite bool_decide_false by (destruct line; [done | exact Hhd]).
  change (crlf ++ src) with (x0d :: x0a :: src).
  rewrite find_crlf_eq, crlf_position_line by done. unfold blen in Hlen.
  rewrite Z.gtb_ltb, (proj2 (Z.ltb_ge _ _)) by done.
  rewrite take_app_length, drop_app_length. simpl drop.
  destruct (parse_line line lim) as [[ev | s r h n hp] | e]; [case_bool_decide | |]; done.
Qed.

Lemma feed_into_whole_body s r h n hp body src lim out :
  n = blen body ->
  feed_into (Body s r h n hp parts_new) (body ++ crlf ++ src) lim out =
  feed_into Line src lim (out ++ [EvPublish s r h n body hp]).
Proof.
  intros ->. rewrite feed_into_unfold. cbn [feed_pass]. unfold feed_body.
  destruct (body_take (blen body) parts_new (body ++ crlf ++ src)) as [p src'] eqn:Ht.
  assert (Hone : one_piece p) by (by eapply no_piece_take; [| exact Ht]).
  pose proof (blen_nonneg body).
  apply body_take_arrival in Ht as (Ha & -> & Hg); [| done | simpl; lia]. simpl in Ha, Hg |- *.
  rewrite Z.sub_0_r in *. replace (Z.to_nat (blen body)) with (length body) in * by (unfold blen; lia).
  rewrite take_app_length in Ha. rewrite drop_app_length.
  unfold body_decide. rewrite Hg, Ha, (proj2 (Z.ltb_ge _ _)) by (unfold blen; lia). simpl.
  rewrite (one_piece_body p Hone), Ha. done.
Qed.

Lemma cmd_line_no_cr lim c : cmd_ok lim c -> Forall (fun b => b <> x0d) (cmd_line c).
Proof.
  intros [_ Hok].
  assert (Hline : forall verb ws, Forall (fun b => b <> x0d) (bs verb) -> Forall word ws ->
    Forall (fun b => b <> x0d) (encode_line verb ws)).
  { intros verb ws Hv Hw. apply Forall_app. split; [done | by apply encode_args_no_cr]. }
  destruct c; simpl cmd_line; try (by apply (bool_decide_unpack _)).
  - destruct Hok as [_ Hcr]. apply Forall_app. split; [by apply (bool_decide_unpack _) |].
    unfold encode_args. cbn [map concat]. rewrite app_nil_r. by constructor.
  - destruct Hok as (? & ? & ?). apply Hline; [by apply (bool_decide_unpack _) |].
    by apply word_args; [| | apply word_one].
  - destruct Hok as (? & Hmax). apply Hline; [by apply (bool_decide_unpack _) |].
    apply Forall_cons_2; [done |]. destruct max as [n |]; [| constructor].
    inversion Hmax; subst. apply word_one. auto with nats.
  - destruct Hok as (? & ? & [? _]). apply Hline; [by apply (bool_decide_unpack _) |].
    apply word_args; [done.. | apply word_one]. pose proof (blen_nonneg body). auto with nats.
  - destruct Hok as (? & ? & [Hn _]). apply Hline; [by apply (bool_decide_unpack _) |].
    rewrite blen_app in Hn. pose proof (blen_nonneg headers). pose proof (blen_nonneg payload).
    apply word_args; [done.. | apply Forall_cons_2; [| apply word_one]];
      apply push_u64_word, in_u64_small; rewrite ?blen_app; lia.
Qed.

Lemma feed_into_cmd lim c src out :
  cmd_ok lim c -> feed_into Line (encode c ++ src) lim out = feed_into Line src lim (out ++ cmd_events c).
Proof.
  intros Hok. pose proof (cmd_line_no_cr lim c Hok) as Hcr. pose proof Hok as [Hlen Hc].
  unfold encode. rewrite <- !(assoc_L (++)).
  rewrite feed_into_line; [| done | done | by destruct c].
  destruct c; cbn [cmd_events].
  - by rewrite parse_cmd_connect.
  - destruct Hc as (? & ? & ?). by rewrite parse_cmd_sub.
  - destruct Hc as (? & ?). by rewrite parse_cmd_unsub.
  - destruct Hc as (? & ? & ?). cbn [cmd_line].
    rewrite parse_cmd_pub by (done || apply blen_nonneg).
    rewrite <- (assoc_L (++)). by apply feed_into_whole_body.
  - destruct Hc as (? & ? & ?). cbn [cmd_line].
    pose proof (blen_nonneg headers). pose proof (blen_nonneg payload).
    rewrite parse_cmd_hpub by (done || (rewrite blen_app; lia)).
    rewrite <- !(assoc_L (++)), (assoc_L (++) headers payload).
    rewrite feed_into_whole_body by done. by rewrite <- (assoc_L (++)).
  - reflexivity.
  - reflexivity.
Qed.

(** A segment of legal commands, appended to a batch. *)
Lemma feed_into_cmds lim cs out :
  Forall (cmd_ok lim) cs ->
  feed_into Line (concat (map encode cs)) lim out =
  Some (Ok tt, Line, [], out ++ concat (map cmd_events cs)).
Proof.
  intros Hcs. revert out. induction Hcs as [| c cs Hc Hcs IH]; intros out; simpl.
  - rewrite app_nil_r. apply feed_into_nil.
  - by rewrite feed_into_cmd, IH, <- (assoc_L (++)).
Qed.

(** ** Properties *)

(** C10: the parser reads back what clients write.  A stream of any number of
    well-formed commands (arguments without blanks or CR, control lines and bodies
    within the limits), arriving in one read, is parsed completely, into exactly
    the events of the commands in order; a publish body may hold any bytes. *)
Theorem parse_encode lim cs :
  Forall (cmd_ok lim) cs ->
  feed_into Line (concat (map encode cs)) lim [] =
  Some (Ok tt, Line, [], concat (map cmd_events cs)).
Proof.
  intros Hcs. by rewrite feed_into_cmds.
Qed.

Lemma parse_encode_witness :
  let cs := [CmdConnect (bs "{}"); CmdSub (bs "a.*") (Some (bs "q")) (bs "1");
             CmdHpub (bs "a.b") (Some (bs "r")) (bs "hh") crlf; CmdUnsub (bs "1") (Some 3%Z)] in
  feed_into Line (concat (map encode cs)) default_limits [] =
  Some (Ok tt, Line, [], concat (map cmd_events cs)).
Proof.
  intros cs. apply (parse_encode default_limits cs).
  repeat apply Forall_cons_2; try apply Forall_nil_2; (split; [apply Z.leb_le; reflexivity |]).
  - split; [by eexists _, _ | by apply (bool_decide_unpack _)].
  - split_and!; [| apply word_one |]; apply word_check; reflexivity.
  - split_and!; [| apply word_one |]; [apply word_check; reflexivity.. |].
    split; apply Z.leb_le || apply Z.ltb_lt; reflexivity.
  - split; [apply word_check; reflexivity |]. apply Forall_cons_2; [lia | constructor].
Defined.
