(* ===== verification/External.v ===== *)
(** * The libraries the server calls

    The crates [bytes], [tokio] and [serde_json] are not part of the repository.
    What the server relies on is stated here as interfaces: the operations it
    calls, and the documented laws of those operations.  The components that use
    them are parameterised by an instance; each interface has one concrete
    instance, so that every law can hold and every definition can be evaluated. *)

From S2P Require Import Prelude.

(** ** [bytes::BytesMut]

    A growable buffer with a capacity. *)

Class BytesMutLib := {
  bytesmut : Type;
  bm_new : bytesmut;
  bm_with_capacity : Z -> bytesmut;
  bm_contents : bytesmut -> bytes;
  bm_capacity : bytesmut -> Z;
  bm_put_slice : bytesmut -> bytes -> bytesmut;
  (** [split] then [freeze]: the buffer that is left, and the bytes handed over. *)
  bm_split : bytesmut -> bytesmut * bytes }.

Class BytesMutLaws (B : BytesMutLib) := {
  bm_new_contents : bm_contents bm_new = [];
  bm_with_capacity_contents n : bm_contents (bm_with_capacity n) = [];
  bm_with_capacity_room n : (n <= bm_capacity (bm_with_capacity n))%Z;
  bm_capacity_ge b : (blen (bm_contents b) <= bm_capacity b)%Z;
  bm_put_contents b s : bm_contents (bm_put_slice b s) = bm_contents b ++ s;
  bm_put_in_place b s :
    (blen (bm_contents b) + blen s <= bm_capacity b)%Z ->
    bm_capacity (bm_put_slice b s) = bm_capacity b;
  bm_split_bytes b : (bm_split b).2 = bm_contents b;
  bm_split_contents b : bm_contents (bm_split b).1 = [];
  bm_split_capacity b :
    bm_capacity (bm_split b).1 = (bm_capacity b - blen (bm_contents b))%Z }.

(** A buffer as its contents and its capacity, growing by exactly what is missing. *)
Definition simple_bytesmut : BytesMutLib := {|
  bytesmut := bytes * Z;
  bm_new := ([], 0%Z);
  bm_with_capacity n := ([], Z.max 0 n);
  bm_contents b := b.1;
  bm_capacity b := Z.max b.2 (blen b.1);
  bm_put_slice b s := (b.1 ++ s, Z.max b.2 (blen (b.1 ++ s)));
  bm_split b := (([], Z.max b.2 (blen b.1) - blen b.1)%Z, b.1) |}.

#[export] Instance simple_bytesmut_laws : BytesMutLaws simple_bytesmut.
Proof.
  split; simpl; try done; intros; rewrite ?blen_nil, ?blen_app in *;
    try pose proof (blen_nonneg b.1); try pose proof (blen_nonneg s); lia.
Qed.

(** ** [tokio::sync::mpsc::unbounded_channel]

    A channel of frames: the sender's half never blocks; the receiver takes
    frames in the order they were sent. *)

Class ChannelLib := {
  chan : Type;
  ch_new : chan;
  (** The frames sent and not yet received, oldest first. *)
  ch_queue : chan -> list bytes;
  (** Whether the receiver has been dropped. *)
  ch_rx_gone : chan -> bool;
  (** [send]: [None] is the error a send to a dropped receiver returns. *)
  ch_send : chan -> bytes -> option chan;
  (** [try_recv] (and [recv] when it does not wait): [None] when nothing is queued. *)
  ch_try_recv : chan -> option (bytes * chan);
  (** The receiver is dropped, and with it the frames nobody will receive. *)
  ch_drop_rx : chan -> chan }.

Class ChannelLaws (C : ChannelLib) := {
  ch_new_queue : ch_queue ch_new = [];
  ch_new_rx : ch_rx_gone ch_new = false;
  ch_send_err c f : ch_send c f = None <-> ch_rx_gone c = true;
  ch_send_queue c f c' : ch_send c f = Some c' -> ch_queue c' = ch_queue c ++ [f];
  ch_send_rx c f c' : ch_send c f = Some c' -> ch_rx_gone c' = ch_rx_gone c;
  ch_recv_none c : ch_try_recv c = None <-> ch_queue c = [];
  ch_recv_some c f c' : ch_try_recv c = Some (f, c') -> ch_queue c = f :: ch_queue c';
  ch_recv_rx c f c' : ch_try_recv c = Some (f, c') -> ch_rx_gone c' = ch_rx_gone c;
  ch_drop_rx_gone c : ch_rx_gone (ch_drop_rx c) = true;
  ch_drop_rx_queue c : ch_queue (ch_drop_rx c) = [] }.

(** A channel as the list of its frames and whether its receiver is gone. *)
Definition list_channel : ChannelLib := {|
  chan := list bytes * bool;
  ch_new := ([], false);
  ch_queue c := c.1;
  ch_rx_gone c := c.2;
  ch_send c f := if c.2 then None else Some (c.1 ++ [f], c.2);
  ch_try_recv c := match c.1 with [] => None | f :: q => Some (f, (q, c.2)) end;
  ch_drop_rx c := ([], true) |}.

#[export] Instance list_channel_laws : ChannelLaws list_channel.
Proof.
  split; simpl; try done; intros; repeat case_match; simplify_eq/=; try done;
    try congruence; by destruct c as [[] []].
Qed.

(** ** [serde_json]

    The two questions the server asks of a JSON text: is it an object, and what
    boolean does a key of it hold. *)

Class SerdeJsonLib := {
  json_value : Type;
  json_object : Type;
  (** [serde_json::from_slice]: [None] is its error. *)
  json_from_slice : bytes -> option json_value;
  (** [Value::as_object]. *)
  json_as_object : json_value -> option json_object;
  (** [Map::get]. *)
  json_get : json_object -> bytes -> option json_value;
  (** [Value::as_bool]. *)
  json_as_bool : json_value -> option bool }.
