(* ===== verification/Arena.v ===== *)
(** * Frame arenas (crates/server/src/arena.rs)

    Chunked bump allocation of frame bytes, over the [BytesMut] interface. *)

From S2P Require Import Prelude External.

Section Arena.

Context `{BML : BytesMutLaws}.

(** ** Definitions *)

Definition CHUNK : Z := 8 * 1024.

Record Arena := mkArena { chunk : bytesmut; chunk_size : Z }.

Definition arena_new : Arena := mkArena bm_new CHUNK.

(** [Arena::tail]: the arena whose chunk is the buffer that is handed out. *)
Definition arena_tail (a : Arena) (need : Z) : Arena :=
  if (bm_capacity (chunk a) - blen (bm_contents (chunk a)) <? need)%Z
  then mkArena (bm_with_capacity (Z.max need (chunk_size a))) (chunk_size a)
  else a.

(** Successive [put_slice]/[put_u8] calls on the buffer [tail] returned. *)
Definition arena_put (a : Arena) (pieces : list bytes) : Arena :=
  mkArena (foldl bm_put_slice (chunk a) pieces) (chunk_size a).

Definition arena_seal (a : Arena) : Arena * bytes :=
  let (rest, frame) := bm_split (chunk a) in (mkArena rest (chunk_size a), frame).

(** ** Lemmas *)

(** Between two frames nothing written is left unsealed. *)
Definition arena_sealed (a : Arena) : Prop := bm_contents (chunk a) = [] /\ chunk_size a = CHUNK.

Lemma arena_new_sealed : arena_sealed arena_new.
Proof. split; [apply bm_new_contents | done]. Qed.

Lemma foldl_put_contents (b : bytesmut) pieces :
  bm_contents (foldl bm_put_slice b pieces) = bm_contents b ++ concat pieces.
Proof.
  revert b. induction pieces as [| s pieces IH]; intros b; simpl; [by rewrite app_nil_r |].
  by rewrite IH, bm_put_contents, <- (assoc_L (++)).
Qed.

Lemma foldl_put_capacity (b : bytesmut) pieces :
  (blen (bm_contents b) + blen (concat pieces) <= bm_capacity b)%Z ->
  bm_capacity (foldl bm_put_slice b pieces) = bm_capacity b.
Proof.
  revert b. induction pieces as [| s pieces IH]; intros b H; simpl in *; [done |].
  rewrite blen_app in H. pose proof (blen_nonneg (concat pieces)). rewrite IH.
  - apply bm_put_in_place. lia.
  - rewrite bm_put_contents, blen_app, bm_put_in_place by lia. lia.
Qed.

Lemma arena_tail_sealed a need : arena_sealed a -> arena_sealed (arena_tail a need).
Proof.
  intros [Hc Hs]. unfold arena_tail. destruct (_ <? need)%Z; [| done].
  split; [apply bm_with_capacity_contents | done].
Qed.

Lemma arena_tail_room a need :
  arena_sealed a -> (need <= bm_capacity (chunk (arena_tail a need)))%Z.
Proof.
  intros [Hc _]. unfold arena_tail. destruct (_ <? need)%Z eqn:E; bool_to_prop.
  - simpl. etrans; [| apply bm_with_capacity_room]. lia.
  - rewrite Hc in E. change (blen []) with 0%Z in E. lia.
Qed.

(** One frame: reserve, write, seal. *)
Definition arena_frame (a : Arena) (need : Z) (pieces : list bytes) : Arena * bytes :=
  arena_seal (arena_put (arena_tail a need) pieces).

Lemma arena_frame_bytes a need pieces :
  arena_sealed a -> (arena_frame a need pieces).2 = concat pieces.
Proof.
  intros Ha. apply (arena_tail_sealed _ need) in Ha as [Hc _].
  unfold arena_frame, arena_seal, arena_put.
  pose proof (bm_split_bytes (foldl bm_put_slice (chunk (arena_tail a need)) pieces)) as H.
  simpl. destruct (bm_split _). simpl in *. by rewrite H, foldl_put_contents, Hc.
Qed.

Lemma arena_frame_sealed a need pieces :
  arena_sealed a -> arena_sealed (arena_frame a need pieces).1.
Proof.
  intros Ha. apply (arena_tail_sealed _ need) in Ha as [_ Hs].
  unfold arena_frame, arena_seal, arena_put.
  pose proof (bm_split_contents (foldl bm_put_slice (chunk (arena_tail a need)) pieces)) as H.
  simpl. destruct (bm_split _). by split.
Qed.

(** A frame within its reservation is written in place, and what it leaves of the
    chunk is exactly what it did not use. *)
Lemma arena_frame_capacity a need pieces :
  arena_sealed a -> (blen (concat pieces) <= need)%Z ->
  bm_capacity (chunk (arena_frame a need pieces).1) =
  (bm_capacity (chunk (arena_tail a need)) - blen (concat pieces))%Z.
Proof.
  intros Ha Hfit. pose proof (arena_tail_room a need Ha) as Hroom.
  apply (arena_tail_sealed _ need) in Ha as [Hc _].
  unfold arena_frame, arena_seal, arena_put. simpl.
  set (b := foldl bm_put_slice (chunk (arena_tail a need)) pieces).
  pose proof (bm_split_capacity b) as H.
  destruct (bm_split b). simpl in *. rewrite H. subst b.
  rewrite foldl_put_contents, Hc, foldl_put_capacity; [done |].
  rewrite Hc. change (blen []) with 0%Z. lia.
Qed.

End Arena.

#[export] Hint Resolve arena_new_sealed arena_tail_sealed arena_frame_sealed : nats.
