(* ===== verification/Frames.v ===== *)
(** * Frames

    What the server writes: the delivery frames of routing.rs ([build_frame],
    [no_responder_frame]) and the control lines of client.rs ([Frame]). *)

From Stdlib Require Import String Strings.Byte.
From S2P Require Import Prelude Subjects Decimal External Arena.

(** ** Connections, subscriptions, messages *)

(** An [Arc<Conn>]: the address of a connection.  [Conn::is_same] compares these. *)
Abbreviation cref := nat.

(** An [Arc<Sub>]: where its two counters live, and the fields that never change. *)
Record Sub := mkSub {
  sub_ref : nat;
  subject : bytes;
  queue : option bytes;
  sid : bytes;
  conn : cref;
  wildcard : bool;
  queued : bool }.

#[global] Instance Sub_eq_dec : EqDecision Sub.
Proof. solve_decision. Defined.

Definition sub_new (ref : nat) (subj : bytes) (q : option bytes) (s : bytes) (c : cref) : Sub :=
  mkSub ref subj q s c (has_wildcard subj) (bool_decide (is_Some q)).

Record Msg := mkMsg {
  msg_subject : bytes;
  msg_reply : option bytes;
  msg_hdr : Z;
  msg_body : bytes }.

(** ** Control lines *)

Definition CRLF : bytes := [x0d; x0a].

Definition frame_ok : bytes := bs "+OK" ++ CRLF.
Definition frame_err (text : string) : bytes := bs "-ERR '" ++ bs text ++ bs "'" ++ CRLF.
Definition frame_pong : bytes := bs "PONG" ++ CRLF.
Definition frame_ping : bytes := bs "PING" ++ CRLF.

(** ** Delivery frames *)

Section BuildFrame.

Context `{BML : BytesMutLaws}.

(** The body a subscriber is sent: without the header block if it did not declare
    header support. *)
Definition frame_headers (supports_headers : bool) (m : Msg) : bool :=
  (msg_hdr m >? 0)%Z && supports_headers.

Definition frame_body (supports_headers : bool) (m : Msg) : bytes :=
  if (msg_hdr m >? 0)%Z && negb (frame_headers supports_headers m)
  then drop (Z.to_nat (msg_hdr m)) (msg_body m)
  else msg_body m.

(** The pieces [build_frame] writes, in order. *)
Definition frame_pieces (supports_headers : bool) (sub : Sub) (m : Msg) : list bytes :=
  let headers := frame_headers supports_headers m in
  let body := frame_body supports_headers m in
  let reply := default [] (msg_reply m) in
  [if headers then bs "HMSG " else bs "MSG "; msg_subject m; bs " "; sid sub] ++
  (if negb (is_empty reply) then [bs " "; reply] else []) ++
  [bs " "] ++
  (if headers then [push_u64 (msg_hdr m); bs " "] else []) ++
  [push_u64 (blen body); CRLF; body; CRLF].

Definition frame_need (supports_headers : bool) (sub : Sub) (m : Msg) : Z :=
  48 + blen (msg_subject m) + blen (sid sub) + blen (default [] (msg_reply m)) +
  blen (frame_body supports_headers m) + 2 * blen CRLF.

Definition build_frame (a : Arena) (supports_headers : bool) (sub : Sub) (m : Msg) : Arena * bytes :=
  arena_frame a (frame_need supports_headers sub m) (frame_pieces supports_headers sub m).

End BuildFrame.

Definition status_len (published : bytes) : Z := 32 + blen published.

Definition no_responder_frame (reply : bytes) (sub : Sub) (published : bytes) : bytes :=
  let n := display_uint (status_len published) in
  bs "HMSG " ++ reply ++ bs " " ++ sid sub ++
  (bs " " ++ n ++ bs " " ++ n ++ CRLF) ++
  (bs "NATS/1.0 503" ++ CRLF ++ bs "Nats-Subject: ") ++ published ++ (CRLF ++ CRLF) ++ CRLF.

(** ** The wire format *)

(** A delivery as the protocol has it: [MSG subject sid [reply] #bytes], or
    [HMSG subject sid [reply] #hdr #total], and the payload. *)
Record Delivery := mkDelivery {
  d_subject : bytes;
  d_sid : bytes;
  d_reply : option bytes;
  d_hdr : option Z;
  d_payload : bytes }.

Definition delivery_bytes (d : Delivery) : bytes :=
  (if d_hdr d is Some _ then bs "HMSG" else bs "MSG") ++
  concat (map (fun w => x20 :: w)
    (d_subject d :: d_sid d :: option_list (d_reply d) ++
     option_list (push_u64 <$> d_hdr d) ++ [push_u64 (blen (d_payload d))])) ++
  CRLF ++ d_payload d ++ CRLF.

(** Its control line, without the CR-LF. *)
Definition delivery_line (d : Delivery) : bytes :=
  (if d_hdr d is Some _ then bs "HMSG" else bs "MSG") ++
  concat (map (fun w => x20 :: w)
    (d_subject d :: d_sid d :: option_list (d_reply d) ++
     option_list (push_u64 <$> d_hdr d) ++ [push_u64 (blen (d_payload d))])).

Lemma delivery_bytes_line d : delivery_bytes d = delivery_line d ++ CRLF ++ d_payload d ++ CRLF.
Proof. unfold delivery_bytes, delivery_line. by rewrite <- (assoc_L (++)). Qed.

(** What a subscription is owed for a message. *)
Definition delivery_of (supports_headers : bool) (sub : Sub) (m : Msg) : Delivery :=
  mkDelivery (msg_subject m) (sid sub)
    (match msg_reply m with Some [] => None | r => r end)
    (if (msg_hdr m >? 0)%Z && supports_headers then Some (msg_hdr m) else None)
    (if (msg_hdr m >? 0)%Z && negb supports_headers
     then drop (Z.to_nat (msg_hdr m)) (msg_body m) else msg_body m).

Lemma frame_pieces_bytes h sub m :
  concat (frame_pieces h sub m) = delivery_bytes (delivery_of h sub m).
Proof.
  unfold frame_pieces, delivery_bytes, delivery_of, frame_body, frame_headers.
  destruct (msg_hdr m >? 0)%Z, h, (msg_reply m) as [[| b r] |]; simpl;
    rewrite ?app_nil_r; repeat (rewrite <- ?(assoc_L (++)); simpl); reflexivity.
Qed.

Lemma frame_pieces_fit h sub m :
  (0 <= msg_hdr m <= blen (msg_body m))%Z -> (blen (msg_body m) < 10 ^ 9)%Z ->
  (blen (concat (frame_pieces h sub m)) <= frame_need h sub m)%Z.
Proof.
  intros Hh Hb.
  assert (Hd : forall n, (0 <= n < 10 ^ 9)%Z -> (blen (push_u64 n) <= 9)%Z).
  { intros n Hn. apply push_u64_length; [| lia..]. unfold in_u64, u64_modulus. lia. }
  assert (Hbody : (blen (frame_body h m) <= blen (msg_body m))%Z).
  { unfold frame_body. case_match; [| lia]. unfold blen. rewrite length_drop. lia. }
  pose proof (blen_nonneg (frame_body h m)).
  pose proof (Hd (msg_hdr m) ltac:(lia)). pose proof (Hd (blen (frame_body h m)) ltac:(lia)).
  unfold frame_pieces, frame_need.
  destruct (frame_headers h m), (default [] (msg_reply m)) as [| b r]; simpl;
    autorewrite with nats;
    change (blen (bs "HMSG ")) with 5%Z; change (blen (bs "MSG ")) with 4%Z;
    change (blen (bs " ")) with 1%Z; change (blen CRLF) with 2%Z;
    try pose proof (blen_nonneg r); lia.
Qed.

(** ** Properties *)

Section FrameProperties.

Context `{BML : BytesMutLaws}.

(** C24: a delivery frame is the protocol's [MSG]/[HMSG] text for that subscription
    and message, in one contiguous buffer: headers are kept for a subscriber that
    declared them and stripped otherwise, and the sizes on the line are those of
    what follows.  It is written in place, within the bytes [build_frame] asked
    the arena for, and leaves the arena ready for the next frame. *)
Theorem build_frame_correct a h sub m :
  arena_sealed a ->
  (0 <= msg_hdr m <= blen (msg_body m))%Z -> (blen (msg_body m) < 10 ^ 9)%Z ->
  let (a', f) := build_frame a h sub m in
  f = delivery_bytes (delivery_of h sub m) /\
  arena_sealed a' /\
  (blen f <= frame_need h sub m <= bm_capacity (chunk (arena_tail a (frame_need h sub m))))%Z /\
  bm_capacity (chunk a') =
    (bm_capacity (chunk (arena_tail a (frame_need h sub m))) - blen f)%Z.
Proof.
  intros Ha Hh Hb. pose proof (frame_pieces_fit h sub m Hh Hb) as Hfit.
  unfold build_frame. set (need := frame_need h sub m) in *. set (ps := frame_pieces h sub m) in *.
  pose proof (arena_frame_bytes a need ps Ha) as Hbytes.
  pose proof (arena_frame_sealed a need ps Ha) as Hseal.
  pose proof (arena_frame_capacity a need ps Ha Hfit) as Hcap.
  destruct (arena_frame a need ps) as [a' f]. simpl in *. subst f.
  split_and!; [apply frame_pieces_bytes | done | done | by apply arena_tail_room | done].
Qed.

End FrameProperties.

Lemma build_frame_correct_witness :
  let m := mkMsg (bs "a.b") (Some (bs "r")) 2 (bs "hhpayload") in
  let sub := sub_new 0 (bs "a.*") None (bs "7") 0 in
  let a := @arena_new simple_bytesmut in
  let (a', f) := build_frame a true sub m in
  f = delivery_bytes (delivery_of true sub m) /\ arena_sealed a' /\
  (blen f <= frame_need true sub m <=
     bm_capacity (chunk (arena_tail a (frame_need true sub m))))%Z /\
  bm_capacity (chunk a') =
    (bm_capacity (chunk (arena_tail a (frame_need true sub m))) - blen f)%Z.
Proof.
  intros m sub a.
  apply (@build_frame_correct simple_bytesmut simple_bytesmut_laws a true sub m);
    [apply arena_new_sealed | split; apply Z.leb_le; reflexivity | apply Z.ltb_lt; reflexivity].
Defined.

(** The no-responder frame is the [HMSG] of a header block and no payload, sent
    to the publisher's inbox: both sizes on its line are the length of the block,
    which names the subject nobody answered. *)
Lemma no_responder_frame_correct reply sub published :
  in_u64 (status_len published) ->
  no_responder_frame reply sub published =
  delivery_bytes (mkDelivery reply (sid sub) None (Some (status_len published))
    (bs "NATS/1.0 503" ++ CRLF ++ bs "Nats-Subject: " ++ published ++ CRLF ++ CRLF)).
Proof.
  intros Hn. unfold no_responder_frame, delivery_bytes.
  cbn [d_subject d_sid d_reply d_hdr d_payload option_list option_rect fmap option_fmap option_map
       map concat app].
  rewrite display_uint_push_u64 by done.
  replace (blen _) with (status_len published).
  2: { unfold status_len. autorewrite with nats. change (blen (bs "NATS/1.0 503")) with 12%Z.
       change (blen CRLF) with 2%Z. change (blen (bs "Nats-Subject: ")) with 14%Z. lia. }
  rewrite app_nil_r. repeat (rewrite <- ?(assoc_L (++)), <- ?app_comm_cons). reflexivity.
Qed.

Lemma no_responder_frame_correct_witness :
  no_responder_frame (bs "_INBOX.1") (sub_new 0 (bs "_INBOX.*") None (bs "9") 0) (bs "svc") =
  delivery_bytes (mkDelivery (bs "_INBOX.1") (bs "9") None (Some 35%Z)
    (bs "NATS/1.0 503" ++ CRLF ++ bs "Nats-Subject: " ++ bs "svc" ++ CRLF ++ CRLF)).
Proof.
  apply (no_responder_frame_correct (bs "_INBOX.1") (sub_new 0 (bs "_INBOX.*") None (bs "9") 0) (bs "svc")).
  vm_compute. done.
Defined.

(** The length [no_responder_frame]'s [debug_assert_eq!] expects of the buffer
    before the final CRLF. *)
Definition no_responder_asserted_len (reply : bytes) (sub : Sub) (published : bytes) : Z :=
  48 + blen reply + blen (sid sub) - 8 + status_len published.

(** The [debug_assert_eq!] in [no_responder_frame] is false for every subject
    shorter than 10^14 - 32 bytes, so a build with debug assertions panics whenever
    it has to tell a requester that nobody answers. *)
Lemma no_responder_debug_assert_fails reply sub published :
  (status_len published < 10 ^ 14)%Z ->
  (blen (no_responder_frame reply sub published) - blen CRLF)%Z <>
  no_responder_asserted_len reply sub published.
Proof.
  intros Hn. pose proof (blen_nonneg published).
  assert (Hu : in_u64 (status_len published)) by (unfold in_u64, u64_modulus, status_len in *; lia).
  pose proof (push_u64_length _ 14 Hu Hn ltac:(lia)) as Hd.
  unfold no_responder_asserted_len, no_responder_frame. rewrite display_uint_push_u64 by done.
  autorewrite with nats.
  change (blen (bs "HMSG ")) with 5%Z. change (blen (bs " ")) with 1%Z.
  change (blen CRLF) with 2%Z. change (blen (bs "NATS/1.0 503")) with 12%Z.
  change (blen (bs "Nats-Subject: ")) with 14%Z. unfold status_len in *. lia.
Qed.

Lemma no_responder_debug_assert_fails_witness :
  (blen (no_responder_frame (bs "r") (sub_new 0 (bs "r") None (bs "1") 0) (bs "svc")) - blen CRLF)%Z <>
  no_responder_asserted_len (bs "r") (sub_new 0 (bs "r") None (bs "1") 0) (bs "svc").
Proof. apply no_responder_debug_assert_fails. vm_compute. done. Defined.
