(* ===== verification/Outbox.v ===== *)
(** * The outbound queue of a connection (crates/server/src/client.rs, [Outbox])

    A channel of frames, counted in bytes: [push] classifies each frame against
    the stall and the slow-consumer thresholds, [drained] gives the bytes back. *)

From S2P Require Import Prelude External Arena.

Section Outbox.

Context `{BML : BytesMutLaws} `{CHL : ChannelLaws}.

(** ** Definitions *)

Inductive Enqueue := Enq_Ok | Enq_SoftLimit | Enq_SlowConsumer | Enq_Dropped.

#[global] Instance Enqueue_eq_dec : EqDecision Enqueue.
Proof. solve_decision. Defined.

(** [ob_tx] is the [Sender]: its channel end and the arena of this connection's
    frames; [ob_chan] is the channel both ends share; [ob_rx] is the receiving end
    while it is still parked in the outbox.  [ob_wakeups] counts the
    [space.notify_waiters()] calls. *)
Record Outbox := mkOutbox {
  ob_tx : option Arena;
  ob_chan : chan;
  ob_rx : bool;
  pending : Z;
  soft : Z;
  hard : Z;
  ob_wakeups : nat;
  gone : bool }.

Definition outbox_new (max_pending : Z) : Outbox :=
  mkOutbox (Some arena_new) ch_new true 0 (max_pending / 4 * 3) max_pending 0 false.

Definition set_pending (o : Outbox) (p : Z) : Outbox :=
  mkOutbox (ob_tx o) (ob_chan o) (ob_rx o) p (soft o) (hard o) (ob_wakeups o) (gone o).
Definition set_tx (o : Outbox) (tx : option Arena) : Outbox :=
  mkOutbox tx (ob_chan o) (ob_rx o) (pending o) (soft o) (hard o) (ob_wakeups o) (gone o).
Definition set_chan (o : Outbox) (c : chan) : Outbox :=
  mkOutbox (ob_tx o) c (ob_rx o) (pending o) (soft o) (hard o) (ob_wakeups o) (gone o).
Definition notify_space (o : Outbox) : Outbox :=
  mkOutbox (ob_tx o) (ob_chan o) (ob_rx o) (pending o) (soft o) (hard o) (S (ob_wakeups o)) (gone o).

(** [push]: [fetch_add], then the two thresholds around the channel send. *)
Definition push (o : Outbox) (frame : bytes) : Outbox * Enqueue :=
  let len := blen frame in
  let before := wrap64 (pending o + len) in
  if (before >? hard o)%Z then (set_pending o (wrap64 (before - len)), Enq_SlowConsumer)
  else
    match ch_send (ob_chan o) frame with
    | None => (set_pending o (wrap64 (before - len)), Enq_Dropped)
    | Some c => (set_chan (set_pending o before) c,
                 if (before >? soft o)%Z then Enq_SoftLimit else Enq_Ok)
    end.

Definition enqueue (o : Outbox) (frame : bytes) : Outbox * Enqueue :=
  match ob_tx o with
  | Some _ => push o frame
  | None => (o, Enq_Dropped)
  end.

(** [queue_with]: the frame is laid out in the sender's arena first. *)
Definition queue_with (o : Outbox) (build : Arena -> Arena * bytes) : Outbox * Enqueue :=
  match ob_tx o with
  | None => (o, Enq_Dropped)
  | Some arena =>
      let (arena', frame) := build arena in push (set_tx o (Some arena')) frame
  end.

Definition take_rx (o : Outbox) : Outbox * bool :=
  (mkOutbox (ob_tx o) (ob_chan o) false (pending o) (soft o) (hard o) (ob_wakeups o) (gone o),
   ob_rx o).

Definition drained (o : Outbox) (n : Z) : Outbox :=
  if gone o then o
  else
    let was := pending o in
    let o' := set_pending o (wrap64 (was - n)) in
    if (was >? soft o)%Z && (Z.max 0 (was - n) <=? soft o)%Z then notify_space o' else o'.

Definition room (o : Outbox) : bool := gone o || (pending o <=? soft o)%Z.

Definition has_room (o : Outbox) : bool := room o.

Definition no_more_writes (o : Outbox) : Outbox :=
  notify_space
    (mkOutbox (ob_tx o) (ob_chan o) (ob_rx o) 0 (soft o) (hard o) (ob_wakeups o) true).

(** ** Lemmas *)

Definition queue_bytes (o : Outbox) : Z := blen (concat (ch_queue (ob_chan o))).

(** The byte accounting: with [inflight] bytes received by the writer and not yet
    given back, [pending] is what is queued plus what is in flight, and it never
    exceeds the slow-consumer threshold. *)
Definition outbox_inv (o : Outbox) (inflight : Z) : Prop :=
  gone o = false -> pending o = (queue_bytes o + inflight)%Z /\ (pending o <= hard o)%Z.

Lemma queue_bytes_nonneg o : (0 <= queue_bytes o)%Z.
Proof. apply blen_nonneg. Qed.

(** What [push] does, when the counter cannot overflow. *)
Lemma push_spec o frame :
  (0 <= pending o)%Z -> (pending o + blen frame < u64_modulus)%Z ->
  let (o', r) := push o frame in
  match r with
  | Enq_SlowConsumer => o' = set_pending o (pending o) /\ (hard o < pending o + blen frame)%Z
  | Enq_Dropped =>
      o' = set_pending o (pending o) /\ (pending o + blen frame <= hard o)%Z /\ ch_rx_gone (ob_chan o) = true
  | _ =>
      (exists c, ch_send (ob_chan o) frame = Some c /\
         o' = set_chan (set_pending o (pending o + blen frame)) c) /\
      (pending o + blen frame <= hard o)%Z /\ ch_rx_gone (ob_chan o) = false /\
      (r = Enq_SoftLimit <-> (soft o < pending o + blen frame)%Z)
  end.
Proof.
  intros Hp Hlt. pose proof (blen_nonneg frame). unfold push.
  rewrite (wrap64_small (pending o + blen frame)) by (unfold in_u64; lia).
  rewrite Z.add_simpl_r, wrap64_small by (unfold in_u64; lia).
  destruct (_ >? hard o)%Z eqn:E1; bool_to_prop; [done |].
  destruct (ch_send (ob_chan o) frame) as [c |] eqn:E2.
  - assert (Hrx : ch_rx_gone (ob_chan o) = false).
    { destruct (ch_rx_gone (ob_chan o)) eqn:Hg; [| done].
      by rewrite (proj2 (ch_send_err _ _) Hg) in E2. }
    destruct (_ >? soft o)%Z eqn:E3; bool_to_prop; split_and!; eauto; split; (done || lia).
  - split_and!; [done | done |]. by apply ch_send_err in E2.
Qed.

Lemma set_pending_same o : set_pending o (pending o) = o.
Proof. by destruct o. Qed.

Lemma queue_bytes_send o c frame p :
  ch_send (ob_chan o) frame = Some c ->
  queue_bytes (set_chan (set_pending o p) c) = (queue_bytes o + blen frame)%Z.
Proof.
  intros H%ch_send_queue. unfold queue_bytes. simpl. rewrite H, concat_app, blen_app. simpl.
  by rewrite app_nil_r.
Qed.

Lemma push_inv o frame inflight :
  (0 <= inflight)%Z -> outbox_inv o inflight -> gone o = false ->
  (hard o + blen frame < u64_modulus)%Z ->
  outbox_inv (push o frame).1 inflight /\ gone (push o frame).1 = false /\
  soft (push o frame).1 = soft o /\ hard (push o frame).1 = hard o /\
  ob_tx (push o frame).1 = ob_tx o /\
  ch_queue (ob_chan (push o frame).1) =
    ch_queue (ob_chan o) ++
    match (push o frame).2 with Enq_Ok | Enq_SoftLimit => [frame] | _ => [] end.
Proof.
  intros Hi Hinv Hg Hmax. destruct (Hinv Hg) as [Hp Hle].
  pose proof (queue_bytes_nonneg o). pose proof (blen_nonneg frame).
  pose proof (push_spec o frame ltac:(lia) ltac:(lia)) as H1.
  destruct (push o frame) as [o' []]; simpl in *.
  1, 2: destruct H1 as ((c & Hc & ->) & Hh & _ & _); pose proof (ch_send_queue _ _ _ Hc);
    split_and!; try done; intros _; rewrite (queue_bytes_send _ _ _ _ Hc); simpl; lia.
  1, 2: rewrite set_pending_same in H1; destruct H1 as [-> _];
    split_and!; try done; by rewrite app_nil_r.
Qed.

Lemma drained_same o n :
  gone (drained o n) = gone o /\ hard (drained o n) = hard o /\ soft (drained o n) = soft o /\
  ob_chan (drained o n) = ob_chan o /\ ob_tx (drained o n) = ob_tx o.
Proof. unfold drained. destruct (gone o) eqn:Hg; [done |]. case_match; by split_and!. Qed.

Lemma drained_inv o n inflight :
  outbox_inv o inflight -> (0 <= n <= inflight)%Z -> (hard o < u64_modulus)%Z ->
  outbox_inv (drained o n) (inflight - n).
Proof.
  intros Hinv Hn Hmax. unfold drained. destruct (gone o) eqn:Hg; [by intros ?; congruence |].
  destruct (Hinv Hg) as [Hp Hle]. pose proof (queue_bytes_nonneg o).
  rewrite wrap64_small by (unfold in_u64; lia).
  destruct (_ && _); intros _; unfold queue_bytes in *; simpl; lia.
Qed.

End Outbox.

#[export] Hint Resolve queue_bytes_nonneg : nats.
