(* ===== verification/Waiting.v ===== *)
(** * Waiting for a stalled subscriber (crates/server/src/client.rs, [Outbox])

    [push], [drained], [no_more_writes] and [wait_for_space] run on different tasks
    and share two atomics and a [Notify].  Here they are split into their atomic
    operations, in the order the code performs them, and interleaved freely: one
    task at a time holds the queue lock ([push]), the writer drains, one task closes,
    and a publisher waits.  A waiter only reads, so one waiter stands for any. *)

From Stdlib Require Import Strings.Byte.
From stdpp Require Import relations.
From S2P Require Import Prelude External Arena Outbox.

(** ** [tokio::sync::Notify]

    [notified] makes a future; [notify_waiters] completes every future made before
    it, and no future completes by itself. *)

Class NotifyLib := {
  notify : Type;
  ticket : Type;
  nt_new : notify;
  (** [notified()]: the future, which is what the caller awaits. *)
  nt_notified : notify -> ticket;
  (** The futures made so far. *)
  nt_made : notify -> ticket -> Prop;
  nt_notify_waiters : notify -> notify;
  (** Would awaiting the future return at once? *)
  nt_ready : notify -> ticket -> bool }.

Class NotifyLaws (N : NotifyLib) := {
  nt_notified_made n : nt_made n (nt_notified n);
  nt_notified_fresh n : nt_ready n (nt_notified n) = false;
  nt_made_later n t : nt_made n t -> nt_made (nt_notify_waiters n) t;
  nt_notifies n t : nt_made n t -> nt_ready (nt_notify_waiters n) t = true }.

(** The number of [notify_waiters] calls; a future is the number when it was made. *)
Definition counting_notify : NotifyLib := {|
  notify := nat;
  ticket := nat;
  nt_new := 0;
  nt_notified n := n;
  nt_made n t := t <= n;
  nt_notify_waiters n := S n;
  nt_ready n t := (t <? n)%nat |}.

#[export] Instance counting_notify_laws : NotifyLaws counting_notify.
Proof.
  split; simpl; [done | apply Nat.ltb_irrefl | by intros; apply le_S | intros; apply Nat.ltb_lt; lia].
Qed.

Section Waiting.

Context `{BML : BytesMutLaws} `{CHL : ChannelLaws} `{NTL : NotifyLaws}.

(** ** The tasks *)

(** The task that holds the queue lock.  [control] says that the frame is a control
    line, whose outcome its caller ignores; a delivery's caller closes a slow
    consumer. *)
Inductive Pusher :=
| Pu_idle
| Pu_added (frame : bytes) (before : Z) (control : bool)
| Pu_undo (len : Z).

(** The writer, in [drained]. *)
Inductive Drainer :=
| Dr_idle
| Dr_loaded (n : Z)
| Dr_notify.

(** The task in [finish]: nobody yet, then after each of its operations. *)
Inductive Closer := Cl_open | Cl_swapped | Cl_tx_gone | Cl_gone | Cl_zeroed | Cl_done.

(** The publisher, in [wait_for_space]: before each load of the two calls of [room],
    around [notified], and awaiting. *)
Inductive Waiter :=
| Wa_gone1
| Wa_pending1
| Wa_create
| Wa_enable (t : ticket)
| Wa_gone2 (t : ticket)
| Wa_pending2 (t : ticket)
| Wa_parked (t : ticket)
| Wa_done.

(** [wt_owed] counts the tasks whose delivery was refused and that are about to
    close the connection. *)
Record Wait := mkWait {
  wt_out : Outbox;
  wt_space : notify;
  wt_closed : bool;
  wt_owed : nat;
  wt_pusher : Pusher;
  wt_drainer : Drainer;
  wt_closer : Closer;
  wt_waiter : Waiter }.

Definition wait_new (max_pending : Z) : Wait :=
  mkWait (outbox_new max_pending) nt_new false 0 Pu_idle Dr_idle Cl_open Wa_gone1.

Definition with_out (s : Wait) (o : Outbox) : Wait :=
  mkWait o (wt_space s) (wt_closed s) (wt_owed s) (wt_pusher s) (wt_drainer s) (wt_closer s) (wt_waiter s).
Definition with_pusher (s : Wait) (p : Pusher) : Wait :=
  mkWait (wt_out s) (wt_space s) (wt_closed s) (wt_owed s) p (wt_drainer s) (wt_closer s) (wt_waiter s).
Definition with_drainer (s : Wait) (d : Drainer) : Wait :=
  mkWait (wt_out s) (wt_space s) (wt_closed s) (wt_owed s) (wt_pusher s) d (wt_closer s) (wt_waiter s).
Definition with_closer (s : Wait) (c : Closer) : Wait :=
  mkWait (wt_out s) (wt_space s) (wt_closed s) (wt_owed s) (wt_pusher s) (wt_drainer s) c (wt_waiter s).
Definition with_waiter (s : Wait) (w : Waiter) : Wait :=
  mkWait (wt_out s) (wt_space s) (wt_closed s) (wt_owed s) (wt_pusher s) (wt_drainer s) (wt_closer s) w.
Definition with_owed (s : Wait) (n : nat) : Wait :=
  mkWait (wt_out s) (wt_space s) (wt_closed s) n (wt_pusher s) (wt_drainer s) (wt_closer s) (wt_waiter s).
(** [closed.swap(true)]. *)
Definition with_closed (s : Wait) : Wait :=
  mkWait (wt_out s) (wt_space s) true (wt_owed s) (wt_pusher s) (wt_drainer s) (wt_closer s) (wt_waiter s).
(** [space.notify_waiters()]. *)
Definition notify_all (s : Wait) : Wait :=
  mkWait (notify_space (wt_out s)) (nt_notify_waiters (wt_space s)) (wt_closed s) (wt_owed s) (wt_pusher s)
         (wt_drainer s) (wt_closer s) (wt_waiter s).

Definition set_gone (o : Outbox) : Outbox :=
  mkOutbox (ob_tx o) (ob_chan o) (ob_rx o) (pending o) (soft o) (hard o) (ob_wakeups o) true.

(** *** [push], under the lock *)

(** [pending.fetch_add(len)]. *)
Definition push_add (s : Wait) (frame : bytes) (control : bool) : Wait :=
  let before := wrap64 (pending (wt_out s) + blen frame) in
  with_pusher (with_out s (set_pending (wt_out s) before)) (Pu_added frame before control).

(** What follows the [fetch_add]: the comparison with the hard limit, and the next
    operation on the shared state. *)
Definition push_next (s : Wait) (frame : bytes) (before : Z) (control : bool) : Wait :=
  let o := wt_out s in
  if (before >? hard o)%Z then
    let s' := with_pusher (with_out s (set_pending o (wrap64 (pending o - blen frame)))) Pu_idle in
    if control then s' else with_owed s' (S (wt_owed s))
  else
    match ch_send (ob_chan o) frame with
    | Some c => with_pusher (with_out s (set_chan o c)) Pu_idle
    | None => with_pusher s (Pu_undo (blen frame))
    end.

(** [pending.fetch_sub(len)] after a send that failed. *)
Definition push_undo (s : Wait) (len : Z) : Wait :=
  with_pusher (with_out s (set_pending (wt_out s) (wrap64 (pending (wt_out s) - len)))) Pu_idle.

(** *** [drained] *)

(** [pending.fetch_sub(bytes)], after [gone] was read as [false]. *)
Definition drain_sub (s : Wait) (n : Z) : Wait :=
  let o := wt_out s in
  let was := pending o in
  with_drainer (with_out s (set_pending o (wrap64 (was - n))))
    (if (was >? soft o)%Z && (Z.max 0 (was - n) <=? soft o)%Z then Dr_notify else Dr_idle).

(** *** [finish], then [no_more_writes] *)

Definition close_next (s : Wait) : option Wait :=
  match wt_closer s with
  | Cl_swapped =>
      match wt_pusher s with
      | Pu_idle => Some (with_closer (with_out s (set_tx (wt_out s) None)) Cl_tx_gone)
      | _ => None
      end
  | Cl_tx_gone => Some (with_closer (with_out s (set_gone (wt_out s))) Cl_gone)
  | Cl_gone => Some (with_closer (with_out s (set_pending (wt_out s) 0)) Cl_zeroed)
  | Cl_zeroed => Some (with_closer (notify_all s) Cl_done)
  | Cl_open | Cl_done => None
  end.

(** *** [wait_for_space] *)

Definition wait_next (s : Wait) : option Wait :=
  let o := wt_out s in
  match wt_waiter s with
  | Wa_gone1 => Some (with_waiter s (if gone o then Wa_done else Wa_pending1))
  | Wa_pending1 => Some (with_waiter s (if (pending o <=? soft o)%Z then Wa_done else Wa_create))
  | Wa_create => Some (with_waiter s (Wa_enable (nt_notified (wt_space s))))
  | Wa_enable t => Some (with_waiter s (Wa_gone2 t))
  | Wa_gone2 t => Some (with_waiter s (if gone o then Wa_done else Wa_pending2 t))
  | Wa_pending2 t => Some (with_waiter s (if (pending o <=? soft o)%Z then Wa_done else Wa_parked t))
  | Wa_parked t => if nt_ready (wt_space s) t then Some (with_waiter s Wa_gone1) else None
  | Wa_done => None
  end.

(** ** Interleaving *)

(** What finishes an operation that is under way. *)
Inductive settle_step : Wait -> Wait -> Prop :=
| st_push s frame before control :
    wt_pusher s = Pu_added frame before control -> settle_step s (push_next s frame before control)
| st_undo s len : wt_pusher s = Pu_undo len -> settle_step s (push_undo s len)
| st_drain s n : wt_drainer s = Dr_loaded n -> settle_step s (drain_sub s n)
| st_drain_notify s : wt_drainer s = Dr_notify -> settle_step s (with_drainer (notify_all s) Dr_idle)
| st_close_owed s n :
    wt_owed s = S n -> wt_closed s = false ->
    settle_step s (with_closer (with_closed (with_owed s n)) Cl_swapped)
| st_close_late s n : wt_owed s = S n -> wt_closed s = true -> settle_step s (with_owed s n)
| st_close s s' : close_next s = Some s' -> settle_step s s'
| st_wait s s' : wait_next s = Some s' -> settle_step s s'.

(** What starts one.  With [strict], a control line is only queued when it fits under
    the hard limit. *)
Inductive start_step (strict : bool) : Wait -> Wait -> Prop :=
| sp_push s frame control :
    wt_pusher s = Pu_idle -> is_Some (ob_tx (wt_out s)) ->
    (pending (wt_out s) + blen frame < u64_modulus)%Z ->
    (strict = true -> control = true -> pending (wt_out s) + blen frame <= hard (wt_out s))%Z ->
    start_step strict s (push_add s frame control)
| sp_drain s n :
    wt_drainer s = Dr_idle -> gone (wt_out s) = false -> (0 <= n)%Z ->
    start_step strict s (with_drainer s (Dr_loaded n))
| sp_close s : wt_closed s = false -> start_step strict s (with_closer (with_closed s) Cl_swapped)
| sp_rx_drop s :
    wt_closed s = true -> start_step strict s (with_out s (set_chan (wt_out s) (ch_drop_rx (ob_chan (wt_out s))))).

Definition wait_step (strict : bool) (s s' : Wait) : Prop := start_step strict s s' \/ settle_step s s'.

(** Nothing is under way but the wait. *)
Definition quiet (s : Wait) : Prop :=
  wt_pusher s = Pu_idle /\ wt_drainer s = Dr_idle /\ wt_owed s = 0 /\
  (wt_closer s = Cl_open \/ wt_closer s = Cl_done).

(** ** The invariant *)

Definition closing (c : Closer) : bool :=
  match c with Cl_swapped | Cl_tx_gone | Cl_gone | Cl_zeroed => true | Cl_open | Cl_done => false end.

(** A [notify_waiters] is certain to come. *)
Definition owed_notify (s : Wait) : Prop :=
  wt_drainer s = Dr_notify \/ (wt_owed s <> 0 /\ wt_closed s = false) \/ closing (wt_closer s) = true.

(** The closer is where [closed], [gone] and the sender say it is. *)
Definition closer_ok (s : Wait) : Prop :=
  match wt_closer s with
  | Cl_open => wt_closed s = false /\ gone (wt_out s) = false
  | Cl_swapped => wt_closed s = true /\ gone (wt_out s) = false
  | Cl_tx_gone => wt_closed s = true /\ gone (wt_out s) = false /\ ob_tx (wt_out s) = None
  | _ => wt_closed s = true /\ gone (wt_out s) = true /\ ob_tx (wt_out s) = None
  end.

(** A push under way holds the lock, so the sender is still there; a control line
    under way fits; a send fails only after a close. *)
Definition pusher_ok (s : Wait) : Prop :=
  match wt_pusher s with
  | Pu_idle => True
  | Pu_added _ before control =>
      (wt_closer s = Cl_open \/ wt_closer s = Cl_swapped) /\ (control = true -> before <= hard (wt_out s))%Z
  | Pu_undo _ => wt_closer s = Cl_swapped
  end.

Definition drainer_ok (s : Wait) : Prop :=
  match wt_drainer s with Dr_loaded n => (0 <= n)%Z | _ => True end.

Definition waiter_ok (s : Wait) : Prop :=
  match wt_waiter s with
  | Wa_gone1 | Wa_pending1 | Wa_create | Wa_done => True
  | Wa_enable t | Wa_gone2 t => nt_made (wt_space s) t
  | Wa_pending2 t =>
      nt_made (wt_space s) t /\
      (gone (wt_out s) = true -> nt_ready (wt_space s) t = true \/ closing (wt_closer s) = true)
  | Wa_parked t =>
      nt_made (wt_space s) t /\
      (nt_ready (wt_space s) t = true \/ owed_notify s \/
       (gone (wt_out s) = false /\ soft (wt_out s) < pending (wt_out s))%Z)
  end.

Definition wait_ok (s : Wait) : Prop :=
  (0 <= soft (wt_out s))%Z /\ in_u64 (pending (wt_out s)) /\
  (ch_rx_gone (ob_chan (wt_out s)) = true -> wt_closed s = true) /\
  closer_ok s /\ pusher_ok s /\ drainer_ok s /\ waiter_ok s.

Lemma wait_new_ok max_pending : (0 <= max_pending)%Z -> wait_ok (wait_new max_pending).
Proof.
  intros H. unfold wait_ok, closer_ok, pusher_ok, drainer_ok, waiter_ok. simpl. rewrite ch_new_rx.
  pose proof (Z.div_pos max_pending 4 H ltac:(lia)). split_and!; (done || lia).
Qed.

(** *** Preservation, by the task that moves *)

Definition ticket_of (w : Waiter) : option ticket :=
  match w with Wa_enable t | Wa_gone2 t | Wa_pending2 t | Wa_parked t => Some t | _ => None end.

(** Notifying makes the waiter's future ready, and a ready future is all it asks for. *)
Lemma notified_waiter_ok s s' :
  waiter_ok s -> wt_waiter s' = wt_waiter s -> wt_space s' = nt_notify_waiters (wt_space s) -> waiter_ok s'.
Proof.
  intros H Hw Hs. assert (Hm : forall t, ticket_of (wt_waiter s) = Some t -> nt_made (wt_space s) t).
  { intros t Ht. unfold waiter_ok in H. destruct (wt_waiter s); simplify_eq/=; (done || by destruct H). }
  unfold waiter_ok. rewrite Hw, Hs. destruct (wt_waiter s); try done.
  all: try (by apply nt_made_later, Hm).
  all: split; [by apply nt_made_later, Hm | intros; left; by apply nt_notifies, Hm].
Qed.

(** The waiter's clause does not look at the pusher; it survives a change of the
    counter that keeps it above the threshold, or any change while a notification is
    owed. *)
Lemma waiter_ok_pending s s' :
  waiter_ok s -> wt_waiter s' = wt_waiter s -> wt_space s' = wt_space s -> gone (wt_out s') = gone (wt_out s) ->
  soft (wt_out s') = soft (wt_out s) -> wt_closer s' = wt_closer s ->
  (owed_notify s -> owed_notify s') ->
  (gone (wt_out s) = false -> soft (wt_out s) < pending (wt_out s) ->
   soft (wt_out s) < pending (wt_out s') \/ owed_notify s')%Z ->
  waiter_ok s'.
Proof.
  intros H Hw Hs Hg Hso Hc Ho Hp. unfold waiter_ok in *. rewrite Hw, Hs, Hg, Hc, Hso.
  destruct (wt_waiter s); try done. destruct H as [Hm H]. split; [done |].
  destruct H as [H | [H | [H1 H2]]]; [by left | right; left; auto |].
  destruct (Hp H1 H2); [right; right; done | right; left; done].
Qed.

(** The clauses but the waiter's, for a move that leaves the closer and the sender. *)
Lemma closer_ok_out s s' :
  closer_ok s -> wt_closer s' = wt_closer s -> wt_closed s' = wt_closed s -> gone (wt_out s') = gone (wt_out s) ->
  ob_tx (wt_out s') = ob_tx (wt_out s) -> closer_ok s'.
Proof. unfold closer_ok. by intros H -> -> -> ->. Qed.

Lemma owed_notify_mono s s' :
  (wt_drainer s = Dr_notify -> wt_drainer s' = Dr_notify) -> wt_owed s <= wt_owed s' ->
  wt_closed s' = wt_closed s -> wt_closer s' = wt_closer s -> owed_notify s -> owed_notify s'.
Proof.
  intros Hd Ho Hc Hcl [H | [[H1 H2] | H]]; [left; auto | right; left; split; [lia | congruence] |].
  right; right. congruence.
Qed.

Lemma push_add_ok s frame control :
  wait_ok s -> wt_pusher s = Pu_idle -> is_Some (ob_tx (wt_out s)) ->
  (pending (wt_out s) + blen frame < u64_modulus)%Z ->
  (control = true -> pending (wt_out s) + blen frame <= hard (wt_out s))%Z ->
  wait_ok (push_add s frame control).
Proof.
  intros (H1 & H2 & H3 & H4 & H5 & H7 & H6) Hp [a Ha] Hmax Hctl. pose proof (blen_nonneg frame).
  unfold in_u64 in H2. unfold push_add. rewrite wrap64_small by (unfold in_u64; lia).
  split_and!; [done | unfold in_u64; simpl; lia | done | by eapply closer_ok_out | | done |].
  - unfold pusher_ok, closer_ok in *. simpl. split; [| done].
    destruct (wt_closer s); try (destruct H4 as (_ & _ & ?); congruence); auto.
  - eapply waiter_ok_pending; try done. simpl. intros _ ?. left. lia.
Qed.

(** A refused push is followed by a close, or happens during one. *)
Lemma push_next_ok s frame before control :
  wait_ok s -> wt_pusher s = Pu_added frame before control -> wait_ok (push_next s frame before control).
Proof.
  intros (H1 & H2 & H3 & H4 & H5 & H7 & H6) Hp. unfold pusher_ok in H5. rewrite Hp in H5. destruct H5 as [Hcl Hctl].
  unfold push_next. destruct (before >? hard (wt_out s))%Z eqn:E; bool_to_prop.
  - destruct control; [specialize (Hctl eq_refl); lia |].
    split_and!; [done | apply wrap64_range | done | by eapply closer_ok_out | done | done |].
    eapply waiter_ok_pending; try done; [apply owed_notify_mono; simpl; auto; lia |].
    intros _ _. right. unfold owed_notify, closer_ok in *. simpl.
    destruct Hcl as [Hcl | Hcl]; rewrite Hcl in *; [| auto]. destruct H4. right. left. auto.
  - destruct (ch_send (ob_chan (wt_out s)) frame) as [c |] eqn:Hs.
    + split_and!; [done | done | | by eapply closer_ok_out | done | done |].
      * simpl. by rewrite (ch_send_rx _ _ _ Hs).
      * eapply waiter_ok_pending; try done. simpl. auto.
    + split_and!; [done | done | done | by eapply closer_ok_out | | done |].
      * unfold pusher_ok, closer_ok in *. simpl. apply ch_send_err, H3 in Hs.
        destruct Hcl as [Hcl | Hcl]; rewrite Hcl in *; [destruct H4; congruence | done].
      * eapply waiter_ok_pending; try done. simpl. auto.
Qed.

Lemma push_undo_ok s len : wait_ok s -> wt_pusher s = Pu_undo len -> wait_ok (push_undo s len).
Proof.
  intros (H1 & H2 & H3 & H4 & H5 & H7 & H6) Hp. unfold pusher_ok in H5. rewrite Hp in H5.
  split_and!; [done | apply wrap64_range | done | by eapply closer_ok_out | done | done |].
  eapply waiter_ok_pending; try done. intros _ _. right. right. right. simpl. by rewrite H5.
Qed.

(** A drain that takes the counter back under the threshold owes a notification; any
    other one leaves it above. *)
Lemma drain_sub_ok s n : wait_ok s -> wt_drainer s = Dr_loaded n -> wait_ok (drain_sub s n).
Proof.
  intros (H1 & H2 & H3 & H4 & H5 & Hn & H6) Hd. unfold drainer_ok in Hn. rewrite Hd in Hn. unfold in_u64 in H2.
  split_and!; [done | apply wrap64_range | done | by eapply closer_ok_out | done | |].
  { unfold drainer_ok, drain_sub. simpl. by destruct (_ && _). }
  eapply waiter_ok_pending; try done.
  - intros [H | [H | H]]; [congruence | right; by left | right; by right].
  - intros _ Hgt. unfold drain_sub, owed_notify. simpl. rewrite Z.gtb_ltb, (proj2 (Z.ltb_lt _ _) Hgt). simpl.
    destruct (Z.max 0 (pending (wt_out s) - n) <=? soft (wt_out s))%Z eqn:E; bool_to_prop.
    + right. by left.
    + left. rewrite wrap64_small by (unfold in_u64; lia). lia.
Qed.

Lemma drain_notify_ok s : wait_ok s -> wait_ok (with_drainer (notify_all s) Dr_idle).
Proof.
  intros (H1 & H2 & H3 & H4 & H5 & H7 & H6).
  split_and!; [done | done | done | by eapply closer_ok_out | done | done | by eapply notified_waiter_ok].
Qed.

(** Starting to close owes a notification from then on. *)
Lemma close_start_ok s owed :
  wait_ok s -> wt_closed s = false -> wait_ok (with_closer (with_closed (with_owed s owed)) Cl_swapped).
Proof.
  intros (H1 & H2 & H3 & H4 & H5 & H7 & H6) Hc. unfold closer_ok in H4.
  assert (Hopen : wt_closer s = Cl_open /\ gone (wt_out s) = false) by (destruct (wt_closer s); destruct H4; done || congruence).
  destruct Hopen as [Ho Hg]. split_and!; [done | done | done | done | | done |].
  - unfold pusher_ok in *. simpl. destruct (wt_pusher s); [done | | congruence]. split; [by right | apply H5].
  - unfold waiter_ok in *. simpl. destruct (wt_waiter s); try done.
    + destruct H6 as [? _]. split; [done |]. auto.
    + destruct H6 as [? _]. split; [done |]. right. left. right. by right.
Qed.

Lemma close_late_ok s n : wait_ok s -> wt_closed s = true -> wait_ok (with_owed s n).
Proof.
  intros (H1 & H2 & H3 & H4 & H5 & H7 & H6) Hc.
  split_and!; [done | done | done | by eapply closer_ok_out | done | done |].
  eapply waiter_ok_pending; try done; [| by left].
  intros [H | [[_ H] | H]]; [by left | congruence | right; by right].
Qed.

(** While the connection is being closed, nothing else can upset the waiter. *)
Lemma closing_waiter_ok s s' :
  waiter_ok s -> wt_waiter s' = wt_waiter s -> wt_space s' = wt_space s -> closing (wt_closer s') = true ->
  waiter_ok s'.
Proof.
  intros H Hw Hs Hc. unfold waiter_ok in *. rewrite Hw, Hs. destruct (wt_waiter s); try done.
  - destruct H as [? _]. auto.
  - destruct H as [? _]. split; [done |]. right. left. right. by right.
Qed.

Lemma close_next_ok s s' : wait_ok s -> close_next s = Some s' -> wait_ok s'.
Proof.
  intros (H1 & H2 & H3 & H4 & H5 & H7 & H6) Hn. unfold close_next, closer_ok, pusher_ok in *.
  assert (Hidle : wt_closer s <> Cl_swapped -> wt_closer s <> Cl_open -> wt_pusher s = Pu_idle).
  { intros ? ?. destruct (wt_pusher s); [done | destruct H5 as [[] _]; congruence | congruence]. }
  destruct (wt_closer s) eqn:Hc; try done.
  1: destruct (wt_pusher s) eqn:Hp; try done.
  all: simplify_eq; split_and!; try done; try (by unfold closer_ok; simpl; intuition);
    try (by unfold pusher_ok; simpl; rewrite ?Hp, ?Hidle by done).
  all: first [by eapply closing_waiter_ok | by eapply notified_waiter_ok].
Qed.

Lemma wait_next_ok s s' : wait_ok s -> wait_next s = Some s' -> wait_ok s'.
Proof.
  intros (H1 & H2 & H3 & H4 & H5 & H7 & H6) Hn. unfold wait_next in Hn.
  assert (Hw : forall w, waiter_ok (with_waiter s w) -> wait_ok (with_waiter s w)) by (intros; by split_and!).
  unfold waiter_ok in H6. destruct (wt_waiter s) as [| | | t | t | t | t |] eqn:Ew; simplify_eq; try apply Hw.
  - by destruct (gone _).
  - by destruct (_ <=? _)%Z.
  - apply nt_notified_made.
  - done.
  - destruct (gone (wt_out s)) eqn:Eg; [done |]. split; [done |]. simpl. congruence.
  - destruct (_ <=? _)%Z eqn:E; [done |]. bool_to_prop. destruct H6 as [? Hg]. split; [done |]. simpl.
    destruct (gone (wt_out s)); [| auto]. destruct (Hg eq_refl) as [? | ?]; [by left |].
    right. left. right. by right.
  - destruct (nt_ready _ t); [| done]. simplify_eq. by apply Hw.
Qed.

Lemma start_ok s s' : start_step true s s' -> wait_ok s -> wait_ok s'.
Proof.
  intros Hstep Hok. destruct Hstep as [s frame control Hp Htx Hmax Hctl | s n Hd Hg Hn | s Hc | s Hc].
  - by apply push_add_ok; auto.
  - destruct Hok as (H1 & H2 & H3 & H4 & H5 & H7 & H6).
    split_and!; [done | done | done | by eapply closer_ok_out | done | done |].
    eapply waiter_ok_pending; try done; [| by left]. intros [H | H]; [congruence | by right].
  - by apply (close_start_ok s (wt_owed s)).
  - destruct Hok as (H1 & H2 & H3 & H4 & H5 & H7 & H6).
    split_and!; [done | done | done | by eapply closer_ok_out | done | done |].
    eapply waiter_ok_pending; try done. by left.
Qed.

Lemma settle_ok s s' : settle_step s s' -> wait_ok s -> wait_ok s'.
Proof.
  intros Hstep Hok. destruct Hstep.
  - by apply push_next_ok.
  - by apply push_undo_ok.
  - by apply drain_sub_ok.
  - by apply drain_notify_ok.
  - by apply close_start_ok.
  - by apply close_late_ok.
  - by eapply close_next_ok.
  - by eapply wait_next_ok.
Qed.

Lemma wait_reachable_ok max_pending s :
  (0 <= max_pending)%Z -> rtc (wait_step true) (wait_new max_pending) s -> wait_ok s.
Proof.
  intros Hm H. cut (wait_ok (wait_new max_pending)); [| by apply wait_new_ok].
  induction H as [| s1 s2 s3 [Hs | Hs] _ IH]; [done | |]; intros Hok; apply IH; [by eapply start_ok | by eapply settle_ok].
Qed.

(** ** Runs *)

(** The next operation of a task, as a function: [None] if it cannot move. *)
Inductive Move :=
| M_push (frame : bytes) (control : bool)
| M_push_next
| M_drain (n : Z)
| M_drain_next
| M_close
| M_close_next
| M_wait.

Definition do_move (strict : bool) (s : Wait) (m : Move) : option Wait :=
  let o := wt_out s in
  match m with
  | M_push frame control =>
      match wt_pusher s, ob_tx o with
      | Pu_idle, Some _ =>
          if (pending o + blen frame <? u64_modulus)%Z &&
             (negb strict || negb control || (pending o + blen frame <=? hard o)%Z)
          then Some (push_add s frame control) else None
      | _, _ => None
      end
  | M_push_next =>
      match wt_pusher s with
      | Pu_idle => None
      | Pu_added frame before control => Some (push_next s frame before control)
      | Pu_undo len => Some (push_undo s len)
      end
  | M_drain n =>
      match wt_drainer s with
      | Dr_idle => if negb (gone o) && (0 <=? n)%Z then Some (with_drainer s (Dr_loaded n)) else None
      | _ => None
      end
  | M_drain_next =>
      match wt_drainer s with
      | Dr_idle => None
      | Dr_loaded n => Some (drain_sub s n)
      | Dr_notify => Some (with_drainer (notify_all s) Dr_idle)
      end
  | M_close => if wt_closed s then None else Some (with_closer (with_closed s) Cl_swapped)
  | M_close_next => close_next s
  | M_wait => wait_next s
  end.

Definition moves (strict : bool) (ms : list Move) (s : Wait) : option Wait :=
  foldl (fun s m => s ≫= fun s => do_move strict s m) (Some s) ms.

Lemma do_move_step strict s m s' : do_move strict s m = Some s' -> wait_step strict s s'.
Proof.
  intros H. unfold do_move in H. destruct m as [frame control | | n | | | |].
  - destruct (wt_pusher s) eqn:Hp; try done. destruct (ob_tx (wt_out s)) eqn:Ht; [| done].
    destruct (_ && _) eqn:E; [| done]. simplify_eq. bool_to_prop. left. apply sp_push; [done | by rewrite Ht | done |].
    intros -> ->. simpl in *. by bool_to_prop.
  - right. destruct (wt_pusher s) eqn:Hp; simplify_eq; [by apply st_push | by apply st_undo].
  - destruct (wt_drainer s) eqn:Hd; try done. destruct (_ && _) eqn:E; [| done]. simplify_eq. bool_to_prop.
    left. by apply sp_drain.
  - right. destruct (wt_drainer s) eqn:Hd; simplify_eq; [by apply st_drain | by apply st_drain_notify].
  - destruct (wt_closed s) eqn:Hc; simplify_eq. left. by apply sp_close.
  - right. by apply st_close.
  - right. by apply st_wait.
Qed.

Lemma moves_reachable strict ms s s' : moves strict ms s = Some s' -> rtc (wait_step strict) s s'.
Proof.
  revert s. induction ms as [| m ms IH]; intros s H.
  - injection H as <-. apply rtc_refl.
  - unfold moves in H. simpl in H. destruct (do_move strict s m) as [s1 |] eqn:Hm.
    + eapply rtc_l; [by eapply do_move_step | by apply IH].
    + exfalso. clear -H. induction ms as [| m ms IH]; simpl in H; [done | by apply IH].
Qed.

(** Left to themselves, the atomic operations are the functions of [Outbox]. *)
Lemma push_alone s frame control :
  let s1 := push_next (push_add s frame control) frame (wrap64 (pending (wt_out s) + blen frame)) control in
  let s2 := match wt_pusher s1 with Pu_undo len => push_undo s1 len | _ => s1 end in
  wt_out s2 = (push (wt_out s) frame).1.
Proof.
  intros s1 s2. unfold s2, s1, push_next, push_add, push. simpl.
  destruct (_ >? _)%Z; [by destruct control |]. by destruct (ch_send (ob_chan (wt_out s)) frame).
Qed.

Lemma drain_alone s n :
  gone (wt_out s) = false ->
  let s1 := drain_sub s n in
  wt_out (match wt_drainer s1 with Dr_notify => notify_all s1 | _ => s1 end) = drained (wt_out s) n.
Proof. intros Hg s1. unfold s1, drain_sub, drained. simpl. rewrite Hg. by destruct (_ && _). Qed.

(** ** Progress *)

Definition pusher_rank (p : Pusher) : nat := match p with Pu_idle => 0 | Pu_undo _ => 1 | Pu_added _ _ _ => 2 end.
Definition drainer_rank (d : Drainer) : nat := match d with Dr_idle => 0 | Dr_notify => 1 | Dr_loaded _ => 2 end.
Definition closer_rank (c : Closer) : nat :=
  match c with Cl_open => 6 | Cl_swapped => 5 | Cl_tx_gone => 4 | Cl_gone => 3 | Cl_zeroed => 2 | Cl_done => 1 end.

(** How far the waiter is from the end of its loop, with one more round if its future
    is ready. *)
Definition waiter_rank (n : notify) (w : Waiter) : nat :=
  let again t := if nt_ready n t then 7 else 0 in
  match w with
  | Wa_gone1 => 11 | Wa_pending1 => 10 | Wa_create => 9
  | Wa_enable t => 8 + again t | Wa_gone2 t => 7 + again t | Wa_pending2 t => 6 + again t
  | Wa_parked t => 5 + again t | Wa_done => 0
  end.

(** Steps left for the others, each worth more than a whole round of the waiter. *)
Definition others_rank (s : Wait) : nat :=
  pusher_rank (wt_pusher s) + drainer_rank (wt_drainer s) + closer_rank (wt_closer s) + wt_owed s.

Definition settle_rank (s : Wait) : nat := 20 * others_rank s + waiter_rank (wt_space s) (wt_waiter s).

Lemma waiter_rank_bound n w : waiter_rank n w <= 15.
Proof. destruct w; simpl; repeat case_match; lia. Qed.

Lemma settle_rank_others s s' : others_rank s' < others_rank s -> settle_rank s' < settle_rank s.
Proof.
  unfold settle_rank. pose proof (waiter_rank_bound (wt_space s') (wt_waiter s')). lia.
Qed.

Lemma settle_rank_waiter s w :
  waiter_rank (wt_space s) w < waiter_rank (wt_space s) (wt_waiter s) -> settle_rank (with_waiter s w) < settle_rank s.
Proof. unfold settle_rank, others_rank. simpl. lia. Qed.

Lemma settle_decreases s s' : wait_ok s -> settle_step s s' -> settle_rank s' < settle_rank s.
Proof.
  intros Hok Hstep. destruct Hstep as [s f b ctl Hp | s len Hp | s n Hd | s Hd | s n Ho Hc | s n Ho Hc | s s' Hn | s s' Hn].
  - apply settle_rank_others. unfold push_next, others_rank. rewrite Hp. repeat case_match; simpl; lia.
  - apply settle_rank_others. unfold others_rank. rewrite Hp. simpl. lia.
  - apply settle_rank_others. unfold others_rank, drain_sub. rewrite Hd. simpl. case_match; simpl; lia.
  - apply settle_rank_others. unfold others_rank. rewrite Hd. simpl. lia.
  - apply settle_rank_others. destruct Hok as (_ & _ & _ & H4 & _). unfold closer_ok in H4.
    unfold others_rank. simpl. rewrite Ho. destruct (wt_closer s); simpl; (lia || (destruct H4; congruence)).
  - apply settle_rank_others. unfold others_rank. simpl. lia.
  - apply settle_rank_others. unfold close_next in Hn. unfold others_rank.
    destruct (wt_closer s); try done; [destruct (wt_pusher s) eqn:Hp; try done |..]; simplify_eq; simpl; rewrite ?Hp; simpl; lia.
  - unfold wait_next in Hn.
    destruct (wt_waiter s) as [| | | t | t | t | t |] eqn:Ew; simplify_eq.
    all: try (apply settle_rank_waiter; rewrite Ew; try destruct (gone _); try destruct (pending _ <=? soft _)%Z;
              simpl; rewrite ?nt_notified_fresh; try destruct (nt_ready _ _); lia).
    destruct (nt_ready (wt_space s) t) eqn:Er; [| done]. simplify_eq.
    apply settle_rank_waiter. rewrite Ew. simpl. rewrite Er. lia.
Qed.

(** Where nothing can finish any more, nothing is under way, and the waiter is done or
    parked on a future that is not ready. *)
Lemma settled_quiet s :
  wait_ok s -> nf settle_step s ->
  quiet s /\ (wt_waiter s = Wa_done \/ exists t, wt_waiter s = Wa_parked t /\ nt_ready (wt_space s) t = false).
Proof.
  intros Hok Hnf.
  assert (Hp : wt_pusher s = Pu_idle).
  { destruct (wt_pusher s) eqn:E; [done | |]; exfalso; apply Hnf; eexists; [by eapply st_push | by eapply st_undo]. }
  assert (Hd : wt_drainer s = Dr_idle).
  { destruct (wt_drainer s) eqn:E; [done | |]; exfalso; apply Hnf; eexists; [by eapply st_drain | by eapply st_drain_notify]. }
  assert (Ho : wt_owed s = 0).
  { destruct (wt_owed s) eqn:E; [done |]. exfalso. apply Hnf.
    destruct (wt_closed s) eqn:Ec; eexists; [by eapply st_close_late | by eapply st_close_owed]. }
  split.
  - split_and!; try done. destruct (close_next s) eqn:E; [exfalso; apply Hnf; eexists; by eapply st_close |].
    unfold close_next in E. rewrite Hp in E. destruct (wt_closer s); (done || auto).
  - destruct (wait_next s) eqn:E; [exfalso; apply Hnf; eexists; by eapply st_wait |].
    unfold wait_next in E. destruct (wt_waiter s); try done; [| by left].
    right. eexists. split; [done |]. by destruct (nt_ready _ _).
Qed.

Lemma parked_quiet s t :
  wait_ok s -> wt_waiter s = Wa_parked t -> nt_ready (wt_space s) t = false -> quiet s ->
  room (wt_out s) = false /\ wt_closed s = false.
Proof.
  intros (_ & _ & _ & H4 & _ & _ & H6) Hw Ht (Hp & Hd & Ho & Hc). unfold waiter_ok, owed_notify in H6.
  rewrite Hw, Ht, Hd, Ho in H6. destruct H6 as [_ [H | [[H | [[H _] | H]] | [Hg Hgt]]]]; try done.
  - destruct Hc as [Hc | Hc]; by rewrite Hc in H.
  - unfold room. rewrite Hg, (proj2 (Z.leb_gt _ _)) by done. split; [done |]. unfold closer_ok in H4.
    destruct Hc as [Hc | Hc]; rewrite Hc in H4; [by destruct H4 | destruct H4 as (_ & ? & _); congruence].
Qed.

(** ** Properties *)

(** No wake-up is lost.  However queueing, draining, closing and waiting
    interleave, as long as no control line is refused for lack of space: a publisher
    that is parked without a notification on the way is parked on a full queue of an
    open connection. *)
Lemma no_lost_wakeup max_pending s t :
  (0 <= max_pending)%Z -> rtc (wait_step true) (wait_new max_pending) s ->
  wt_waiter s = Wa_parked t -> nt_ready (wt_space s) t = false -> quiet s ->
  room (wt_out s) = false /\ wt_closed s = false.
Proof.
  intros Hm Hr Hw Ht Hq. by eapply parked_quiet; [eapply wait_reachable_ok | ..].
Qed.

(** C12: a waiting publisher is released.  From every reachable state (again without a
    refused control line), letting the operations under way finish takes finitely
    many steps in any order, and when they have, the publisher has stopped waiting,
    unless the queue is still above its threshold and the connection is open. *)
Theorem waiter_released max_pending s :
  (0 <= max_pending)%Z -> rtc (wait_step true) (wait_new max_pending) s ->
  sn settle_step s /\
  forall s', rtc settle_step s s' -> nf settle_step s' ->
    quiet s' /\ (wt_waiter s' = Wa_done \/ (room (wt_out s') = false /\ wt_closed s' = false)).
Proof.
  intros Hm Hr. pose proof (wait_reachable_ok _ _ Hm Hr) as Hok. split.
  - apply (sn_rank _ wait_ok settle_rank); [| done]. intros x y Hx Hxy.
    split; [by eapply settle_ok | by apply settle_decreases].
  - intros s' Hs' Hnf. assert (Hr' : rtc (wait_step true) (wait_new max_pending) s').
    { etrans; [exact Hr |]. eapply rtc_subrel; [| exact Hs']. intros x y ?. by right. }
    pose proof (wait_reachable_ok _ _ Hm Hr') as Hok'.
    destruct (settled_quiet s' Hok' Hnf) as [Hq [? | (t & Hw & Ht)]]; [auto |]. split; [done |]. right.
    by eapply parked_quiet.
Qed.

End Waiting.

(** ** Sessions *)

Section Sessions.

#[local] Existing Instance simple_bytesmut.
#[local] Existing Instance list_channel.
#[local] Existing Instance counting_notify.

Definition frame_of (n : nat) : bytes := replicate n x78.

(** A queue of 100 bytes holds 97, and a publisher waits for it. *)
Definition fill_and_wait : list Move :=
  [M_push (frame_of 97) false; M_push_next; M_wait; M_wait; M_wait; M_wait; M_wait; M_wait].

Definition after_moves (strict : bool) (ms : list Move) : Wait := default (wait_new 100) (moves strict ms (wait_new 100)).

Lemma after_moves_reachable strict ms :
  bool_decide (is_Some (moves strict ms (wait_new 100))) = true ->
  rtc (wait_step strict) (wait_new 100) (after_moves strict ms).
Proof.
  intros [s Hs]%bool_decide_eq_true. unfold after_moves. rewrite Hs. by apply (moves_reachable strict ms).
Qed.

Lemma no_lost_wakeup_witness :
  room (wt_out (after_moves true fill_and_wait)) = false /\ wt_closed (after_moves true fill_and_wait) = false.
Proof.
  apply (no_lost_wakeup 100 (after_moves true fill_and_wait) 0).
  - lia.
  - apply after_moves_reachable. vm_compute. reflexivity.
  - vm_compute. reflexivity.
  - vm_compute. reflexivity.
  - vm_compute. auto.
Defined.

Lemma waiter_released_witness :
  let s := after_moves true (fill_and_wait ++ [M_drain 30; M_drain_next]) in
  wt_drainer s = Dr_notify /\ sn settle_step s.
Proof.
  intros s. split; [vm_compute; reflexivity |].
  apply (waiter_released 100 s); [lia |]. apply after_moves_reachable. vm_compute. reflexivity.
Defined.

(** C36: a refused control line can lose a wake-up.  Its bytes are in the counter while
    it is being refused; a drain at that moment sees the counter stay above the
    threshold and notifies nobody, and taking the bytes back out notifies nobody
    either.  The publisher stays parked on an open connection with room, also after
    everything that was queued has been written. *)
Theorem refused_control_line_loses_wakeup :
  let race := fill_and_wait ++ [M_push (frame_of 6) true; M_drain 25; M_drain_next; M_push_next] in
  let s := after_moves false race in
  let s' := after_moves false (race ++ [M_drain 72; M_drain_next]) in
  rtc (wait_step false) (wait_new 100) s' /\
  wt_waiter s = Wa_parked 0 /\ nt_ready (wt_space s) 0 = false /\ quiet s /\ wt_closed s = false /\
  room (wt_out s) = true /\
  wt_waiter s' = Wa_parked 0 /\ nt_ready (wt_space s') 0 = false /\ quiet s' /\ wt_closed s' = false /\
  pending (wt_out s') = 0%Z /\ nf settle_step s'.
Proof.
  intros race s s'. split; [apply after_moves_reachable; vm_compute; reflexivity |].
  split_and!; try (vm_compute; reflexivity); try (vm_compute; by auto).
  intros [s2 Hs]. inversion Hs; subst; try (vm_compute in H; discriminate H).
Qed.

End Sessions.
