(* ===== verification/Writer.v ===== *)
(** * The writer task (crates/server/src/client.rs, [write_loop])

    One task per connection moves queued frames to the socket in batches.  The
    kernel is a parameter of each write: how many bytes it took, or why it did
    not.  What reached the socket is kept as a byte string, [wire]. *)

From Stdlib Require Import String Strings.Byte.
From stdpp Require Import relations.
From S2P Require Import Prelude External Arena Outbox.

(** ** Buffers *)

Definition MAX_BATCH_BYTES : Z := 256 * 1024.
Definition MAX_BATCH_PARTS : Z := 1000.

(** [Frame::write_into]. *)
Definition write_into (frame : bytes) (parts : list bytes) : list bytes :=
  if negb (is_empty frame) then parts ++ [frame] else parts.

(** [consume]: drop [left] bytes from the front of the buffers. *)
Fixpoint consume (parts : list bytes) (left : Z) : list bytes :=
  match parts with
  | [] => []
  | front :: rest =>
      if (left >? 0)%Z then
        if (blen front <=? left)%Z then consume rest (left - blen front)
        else drop (Z.to_nat left) front :: rest
      else parts
  end.

(** What the kernel answers to one [write] or [writev]. *)
Inductive IoError := Interrupted | TimedOut | OtherError.

Definition IoResult : Type := result Z IoError.

(** What one call of [write_batch] answers, given the kernel's answer, and the
    buffers after it.  A single buffer is taken out of the queue for the call and
    put back, advanced past what was written, if anything is left of it. *)
Definition write_batch (parts : list bytes) (kernel : IoResult) : IoResult * list bytes :=
  match parts with
  | [] => (Ok 0%Z, [])
  | [buf] =>
      match kernel with
      | Ok n =>
          if (n <? blen buf)%Z then (Ok n, [drop (Z.to_nat n) buf]) else (Ok n, [])
      | Err e => (Err e, [buf])
      end
  | _ => (kernel, parts)
  end.

(** The bytes a call of [write_batch] puts on the wire. *)
Definition batch_written (parts : list bytes) (kernel : IoResult) : bytes :=
  match parts, kernel with
  | [], _ => []
  | _, Ok n => take (Z.to_nat n) (concat parts)
  | _, Err _ => []
  end.

(** The buffers after a call of [write_batch] whose future is dropped while the
    write is pending (another branch of the [select!] won): a single buffer went
    with it. *)
Definition write_batch_cancelled (parts : list bytes) : list bytes :=
  match parts with
  | [_] => []
  | _ => parts
  end.

(** ** The loop *)

Section Writer.

Context `{BML : BytesMutLaws} `{CHL : ChannelLaws}.

Record Writer := mkWriter { parts : list bytes; batch_bytes : Z }.

Definition writer_new : Writer := mkWriter [] 0.

(** The inner [try_recv] loop: take frames until nothing is queued or the batch
    is full. *)
Fixpoint collect_more (fuel : nat) (c : chan) (w : Writer) : chan * Writer :=
  match fuel with
  | O => (c, w)
  | S fuel =>
      match ch_try_recv c with
      | None => (c, w)
      | Some (frame, c') =>
          let w' := mkWriter (write_into frame (parts w)) (batch_bytes w + blen frame) in
          if (MAX_BATCH_PARTS <=? blen (parts w'))%Z || (MAX_BATCH_BYTES <=? batch_bytes w')%Z
          then (c', w')
          else collect_more fuel c' w'
      end
  end.

(** The [recv] branch: one frame, then as many more as fit.  [None] when nothing is
    queued.  The queue holds finitely many frames, so its length is enough fuel. *)
Definition collect (o : Outbox) (w : Writer) : option (Outbox * Writer) :=
  match ch_try_recv (ob_chan o) with
  | None => None
  | Some (frame, c) =>
      let w' := mkWriter (write_into frame (parts w)) (batch_bytes w + blen frame) in
      let (c', w'') := collect_more (length (ch_queue c)) c w' in
      Some (set_chan o c', w'')
  end.

(** How the task's attempt to write ends. *)
Inductive Attempt :=
| Kernel (r : IoResult)
| Deadline
| Woken.

(** The task goes on, or it ends after closing the connection: [hard] says whether
    with [close_now] or with [close]. *)
Inductive WriterNext :=
| Goes_on
| Ends (close : option (bool * string)).

(** One pass of [while batch_bytes > 0].  [closed] and [hard_closed] are what the
    connection says at the start of the pass, [hard_woken] what it says when the
    wake-up arrives. *)
Definition attempt (closed hard_closed hard_woken : bool) (o : Outbox) (w : Writer) (a : Attempt) :
    Outbox * Writer * bytes * WriterNext :=
  if closed && hard_closed then (drained o (batch_bytes w), w, [], Ends None)
  else
    match a with
    | Deadline =>
        (drained o (batch_bytes w), mkWriter (write_batch_cancelled (parts w)) (batch_bytes w), [],
         Ends (Some (true, "write deadline exceeded"%string)))
    | Woken =>
        let w' := mkWriter (write_batch_cancelled (parts w)) (batch_bytes w) in
        if hard_woken then (drained o (batch_bytes w), w', [], Ends None)
        else (o, w', [], Goes_on)
    | Kernel r =>
        let (answer, parts') := write_batch (parts w) r in
        let wrote := batch_written (parts w) r in
        let w' := mkWriter parts' (batch_bytes w) in
        match answer with
        | Err TimedOut =>
            (drained o (batch_bytes w), w', wrote, Ends (Some (true, "write deadline exceeded"%string)))
        | Ok 0%Z =>
            (drained o (batch_bytes w), w', wrote,
             Ends (Some (false, "socket stopped accepting data"%string)))
        | Ok n =>
            (drained o n, mkWriter (consume parts' n) (batch_bytes w - n), wrote, Goes_on)
        | Err Interrupted => (o, w', wrote, Goes_on)
        | Err OtherError =>
            (drained o (batch_bytes w), w', wrote, Ends (Some (false, "write error"%string)))
        end
    end.

(** The end of a batch: [parts.clear()]. *)
Definition batch_done (w : Writer) : Writer := mkWriter [] (batch_bytes w).

(** ** Lemmas *)

Lemma concat_write_into frame ps : concat (write_into frame ps) = concat ps ++ frame.
Proof.
  unfold write_into. destruct frame as [| b frame]; simpl; [by rewrite app_nil_r |].
  rewrite concat_app. simpl. by rewrite app_nil_r.
Qed.

Lemma consume_concat ps n : (0 <= n)%Z -> concat (consume ps n) = drop (Z.to_nat n) (concat ps).
Proof.
  revert n. induction ps as [| f ps IH]; intros n Hn; simpl; [by rewrite drop_nil |].
  destruct (n >? 0)%Z eqn:E1; bool_to_prop.
  2: { replace n with 0%Z by lia. done. }
  destruct (blen f <=? n)%Z eqn:E2; bool_to_prop.
  - rewrite IH by lia. rewrite drop_app_ge by (unfold blen in *; lia).
    f_equal. unfold blen in *. lia.
  - simpl. rewrite drop_app_le; [done |]. unfold blen in *. lia.
Qed.

(** The buffers hold no empty frame, and [batch_bytes] is what they hold. *)
Definition writer_inv (w : Writer) : Prop :=
  batch_bytes w = blen (concat (parts w)) /\ Forall (fun b => b <> []) (parts w).

Lemma write_into_nonempty frame ps :
  Forall (fun b => b <> []) ps -> Forall (fun b => b <> []) (write_into frame ps).
Proof.
  intros H. unfold write_into. destruct frame; simpl; [done |].
  apply Forall_app. split; [done |]. by constructor.
Qed.

Lemma consume_nonempty ps n :
  Forall (fun b => b <> []) ps -> Forall (fun b => b <> []) (consume ps n).
Proof.
  intros H. revert n. induction H as [| f ps Hf Hps IH]; intros n; simpl; [done |].
  destruct (n >? 0)%Z eqn:E0; [| by constructor].
  destruct (blen f <=? n)%Z eqn:E; [done |]. bool_to_prop. constructor; [| done].
  intros Hd. apply (f_equal length) in Hd. rewrite length_drop in Hd. simpl in Hd.
  unfold blen in E. lia.
Qed.

Definition add_frame (frame : bytes) (w : Writer) : Writer :=
  mkWriter (write_into frame (parts w)) (batch_bytes w + blen frame).

Lemma add_frame_inv frame w : writer_inv w -> writer_inv (add_frame frame w).
Proof.
  intros [Hb Hp]. split; simpl; [| by apply write_into_nonempty].
  by rewrite concat_write_into, blen_app, Hb.
Qed.

Lemma collect_more_spec fuel c w c' w' :
  collect_more fuel c w = (c', w') -> writer_inv w ->
  writer_inv w' /\
  concat (parts w') ++ concat (ch_queue c') = concat (parts w) ++ concat (ch_queue c) /\
  (blen (parts w) < MAX_BATCH_PARTS -> blen (parts w') <= MAX_BATCH_PARTS)%Z.
Proof.
  revert c w. induction fuel as [| fuel IH]; intros c w H Hw; simpl in H.
  { simplify_eq. split_and!; (done || lia). }
  destruct (ch_try_recv c) as [[frame c1] |] eqn:Hr; [| simplify_eq; split_and!; (done || lia)].
  apply ch_recv_some in Hr. pose proof (add_frame_inv frame w Hw) as Hw1.
  change (mkWriter _ _) with (add_frame frame w) in H.
  assert (Hcat : concat (parts (add_frame frame w)) ++ concat (ch_queue c1) =
                 concat (parts w) ++ concat (ch_queue c)).
  { simpl. by rewrite concat_write_into, Hr, <- (assoc_L (++)). }
  assert (Hlen : (blen (parts (add_frame frame w)) <= 1 + blen (parts w))%Z).
  { simpl. unfold write_into. destruct (negb (is_empty frame)); autorewrite with nats; lia. }
  destruct (_ || _) eqn:E.
  - simplify_eq. split_and!; [done | done |]. lia.
  - apply orb_false_iff in E as [E _]. bool_to_prop.
    destruct (IH c1 (add_frame frame w) H Hw1) as (H1 & H2 & H3).
    split_and!; [done | by rewrite H2 | intros _; by apply H3].
Qed.

(** ** The connection's output as a transition system *)

(** The outbox, the writer, the bytes the socket took, and the bytes of every
    frame the outbox accepted. *)
Record Sys := mkSys { sy_out : Outbox; sy_w : Writer; sy_wire : bytes; sy_accepted : bytes }.

Definition accepted_bytes (r : Enqueue) (frame : bytes) : bytes :=
  match r with Enq_Ok | Enq_SoftLimit => frame | _ => [] end.

(** What [write]/[writev] promise: not more than was offered. *)
Definition kernel_ok (ps : list bytes) (r : IoResult) : Prop :=
  match r with Ok n => (0 <= n <= blen (concat ps))%Z | Err _ => True end.

(** A batch of one buffer that is written at all is written whole. *)
Definition whole_single (ps : list bytes) (r : IoResult) : Prop :=
  match ps, r with [buf], Ok n => n = blen buf | _, _ => True end.

(** The steps of an open connection: a frame is queued; the writer, with nothing
    left to write, takes a batch; it writes, and the kernel answers as [may] lets it;
    the batch is done. *)
Inductive sys_step (may : list bytes -> IoResult -> Prop) : Sys -> Sys -> Prop :=
| step_enqueue o w wire acc frame o' r :
    (hard o + blen frame < u64_modulus)%Z ->
    enqueue o frame = (o', r) ->
    sys_step may (mkSys o w wire acc) (mkSys o' w wire (acc ++ accepted_bytes r frame))
| step_collect o w wire acc o' w' :
    parts w = [] -> collect o w = Some (o', w') ->
    sys_step may (mkSys o w wire acc) (mkSys o' w' wire acc)
| step_write o w wire acc r o' w' wrote :
    parts w <> [] -> kernel_ok (parts w) r -> may (parts w) r ->
    attempt false false false o w (Kernel r) = (o', w', wrote, Goes_on) ->
    sys_step may (mkSys o w wire acc) (mkSys o' w' (wire ++ wrote) acc)
| step_batch_done o w wire acc :
    (batch_bytes w <= 0)%Z ->
    sys_step may (mkSys o w wire acc) (mkSys o (batch_done w) wire acc).

Definition sys_init (max_pending : Z) : Sys := mkSys (outbox_new max_pending) writer_new [] [].

Definition sys_inv (s : Sys) : Prop :=
  gone (sy_out s) = false /\ (hard (sy_out s) < u64_modulus)%Z /\
  writer_inv (sy_w s) /\ outbox_inv (sy_out s) (batch_bytes (sy_w s)) /\
  sy_wire s ++ concat (parts (sy_w s)) ++ concat (ch_queue (ob_chan (sy_out s))) = sy_accepted s.

Lemma sys_init_inv max_pending :
  (0 <= max_pending < u64_modulus)%Z -> sys_inv (sys_init max_pending).
Proof.
  intros Hm. unfold sys_inv, sys_init, outbox_inv, queue_bytes. simpl. rewrite ch_new_queue.
  split_and!; [done | lia | split; [done | constructor] | intros _; split; [done | lia] | done].
Qed.

Lemma enqueue_inv o w wire acc frame o' r :
  (hard o + blen frame < u64_modulus)%Z -> enqueue o frame = (o', r) ->
  sys_inv (mkSys o w wire acc) -> sys_inv (mkSys o' w wire (acc ++ accepted_bytes r frame)).
Proof.
  intros Hmax He (Hg & Hh & Hw & Ho & Hs). unfold enqueue in He. simpl in *.
  destruct (ob_tx o); [| simplify_eq; simpl; rewrite app_nil_r; by split_and!].
  pose proof Hw as [Hb _].
  destruct (push_inv o frame (batch_bytes w)) as (H1 & H2 & _ & H4 & _ & H6);
    [rewrite Hb; apply blen_nonneg | done | done | done |].
  rewrite He in *. unfold sys_inv. simpl in *. split_and!; [done | lia | done | done |].
  rewrite H6, concat_app, <- Hs. destruct r; simpl; rewrite ?app_nil_r, <- ?(assoc_L (++)); done.
Qed.

Lemma collect_inv o w wire acc o' w' :
  parts w = [] -> collect o w = Some (o', w') ->
  sys_inv (mkSys o w wire acc) -> sys_inv (mkSys o' w' wire acc).
Proof.
  intros Hnil Hc (Hg & Hh & Hw & Ho & Hs). unfold collect in Hc. simpl in *.
  destruct (ch_try_recv (ob_chan o)) as [[frame c] |] eqn:Hr; [| done].
  apply ch_recv_some in Hr. change (mkWriter _ _) with (add_frame frame w) in Hc.
  destruct (collect_more _ c (add_frame frame w)) as [c' w''] eqn:Hm. simplify_eq.
  destruct (collect_more_spec _ _ _ _ _ Hm (add_frame_inv frame w Hw)) as (Hw' & Hcat & _).
  assert (Hall : concat (parts w') ++ concat (ch_queue c') = concat (parts w) ++ concat (ch_queue (ob_chan o))).
  { rewrite Hcat. simpl. by rewrite concat_write_into, Hr, <- (assoc_L (++)). }
  split_and!; [done | done | done | | simpl; by rewrite Hall].
  intros _. destruct (Ho Hg) as [Hp Hle]. unfold queue_bytes in *. simpl. split; [| done].
  destruct Hw as [Hb _], Hw' as [Hb' _]. rewrite Hp, Hb, Hb', <- !blen_app.
  apply (f_equal blen) in Hall. rewrite !blen_app in *. lia.
Qed.

(** An attempt that goes on has written the front of the buffers and kept the rest. *)
Lemma attempt_kernel o w r o' w' wrote :
  writer_inv w -> parts w <> [] -> kernel_ok (parts w) r -> whole_single (parts w) r ->
  attempt false false false o w (Kernel r) = (o', w', wrote, Goes_on) ->
  exists n, (0 <= n <= batch_bytes w)%Z /\ o' = (if (n =? 0)%Z then o else drained o n) /\
    batch_bytes w' = (batch_bytes w - n)%Z /\ writer_inv w' /\
    wrote ++ concat (parts w') = concat (parts w).
Proof.
  intros [Hb Hne] Hp Hk Hwhole. unfold attempt. simpl.
  destruct r as [n | e].
  2: { assert (Hwb : write_batch (parts w) (Err e) = (Err e, parts w))
         by (unfold write_batch; destruct (parts w) as [| f1 [| f2 ps]]; done).
       rewrite Hwb. destruct e; intros H; simplify_eq.
       exists 0%Z. pose proof (blen_nonneg (concat (parts w))).
       split_and!; [lia | lia | done | simpl; lia | by split | by destruct (parts w)]. }
  simpl in Hk.
  assert (Hwr : batch_written (parts w) (Ok n) = take (Z.to_nat n) (concat (parts w)))
    by (unfold batch_written; destruct (parts w); done).
  rewrite Hwr. destruct (write_batch (parts w) (Ok n)) as [answer ps'] eqn:Hwb.
  assert (Hps : answer = Ok n /\ concat (consume ps' n) = drop (Z.to_nat n) (concat (parts w)) /\
                Forall (fun b => b <> []) (consume ps' n)).
  { destruct (parts w) as [| f1 [| f2 ps]] eqn:Hparts; [done | |].
    - simpl in Hwb, Hwhole. subst n. rewrite Z.ltb_irrefl in Hwb. simplify_eq. simpl.
      rewrite app_nil_r. unfold blen. rewrite Nat2Z.id, drop_all. by split_and!.
    - simpl in Hwb. simplify_eq. split_and!; [done | apply consume_concat; lia | by apply consume_nonempty]. }
  destruct Hps as (-> & Hcat & Hne').
  assert (Hres : writer_inv (mkWriter (consume ps' n) (batch_bytes w - n)) /\
    take (Z.to_nat n) (concat (parts w)) ++ concat (consume ps' n) = concat (parts w)).
  { rewrite Hcat, take_drop. split; [| done]. split; [| done]. simpl. rewrite Hcat, Hb.
    unfold blen in *. rewrite length_drop. lia. }
  destruct Hres as [Hinv Hall].
  destruct n as [| n | n]; intros H; simplify_eq; [| lia]. exists (Z.pos n).
  split_and!; [lia | lia | done | done | done | done].
Qed.

Lemma sys_step_inv s s' : sys_step whole_single s s' -> sys_inv s -> sys_inv s'.
Proof.
  intros Hstep Hinv. destruct Hstep as [o w wire acc frame o' r Hmax He | o w wire acc o' w' Hn Hc
    | o w wire acc r o' w' wrote Hn Hk Hs Ha | o w wire acc Hb].
  - by eapply enqueue_inv.
  - by eapply collect_inv.
  - destruct Hinv as (Hg & Hh & Hw & Ho & Hall). simpl in *.
    destruct (attempt_kernel _ _ _ _ _ _ Hw Hn Hk Hs Ha) as (n & Hn0 & -> & Hb' & Hw' & Hcat).
    unfold sys_inv. simpl. rewrite Hb'.
    destruct (drained_same o n) as (Hq1 & Hq2 & _ & Hq3 & _).
    destruct (n =? 0)%Z eqn:En; bool_to_prop; rewrite ?Hq1, ?Hq2, ?Hq3;
      (split_and!; [done | done | done | |]).
    + subst n. by rewrite Z.sub_0_r.
    + by rewrite <- Hall, <- (assoc_L (++)), (assoc_L (++) wrote), Hcat.
    + by apply drained_inv.
    + by rewrite <- Hall, <- (assoc_L (++)), (assoc_L (++) wrote), Hcat.
  - destruct Hinv as (Hg & Hh & [Hb' Hne] & Ho & Hall). simpl in *.
    assert (Hz : concat (parts w) = []).
    { apply length_zero_iff_nil. unfold blen in Hb'. lia. }
    rewrite Hz in *. unfold sys_inv. simpl. by split_and!.
Qed.

Lemma sys_reachable_inv max_pending s :
  (0 <= max_pending < u64_modulus)%Z -> rtc (sys_step whole_single) (sys_init max_pending) s -> sys_inv s.
Proof.
  intros Hm H. apply (sys_init_inv max_pending) in Hm. revert Hm.
  induction H as [| s1 s2 s3 Hstep _ IH]; [done |]. intros Hinv. by eapply IH, sys_step_inv.
Qed.

Lemma collect_bounds o w o' w' :
  parts w = [] -> writer_inv w -> collect o w = Some (o', w') ->
  (blen (parts w') <= MAX_BATCH_PARTS)%Z /\ writer_inv w' /\
  concat (parts w') ++ concat (ch_queue (ob_chan o')) = concat (ch_queue (ob_chan o)).
Proof.
  intros Hnil Hw Hc. unfold collect in Hc.
  destruct (ch_try_recv (ob_chan o)) as [[frame c] |] eqn:Hr; [| done].
  apply ch_recv_some in Hr. change (mkWriter _ _) with (add_frame frame w) in Hc.
  destruct (collect_more _ c (add_frame frame w)) as [c' w''] eqn:Hm. simplify_eq.
  destruct (collect_more_spec _ _ _ _ _ Hm (add_frame_inv frame w Hw)) as (Hw' & Hcat & Hlen).
  split_and!; [| done |].
  - apply Hlen. simpl. rewrite Hnil. unfold write_into. by destruct (negb (is_empty frame)).
  - simpl. rewrite Hcat. simpl. by rewrite concat_write_into, Hr, Hnil.
Qed.

(** ** Properties *)

(** C11: bytes reach the socket in the order they were queued, once each, provided the
    kernel never takes only a part of a batch of one buffer ([whole_single]; it may
    write any part of a larger batch).  In every state an open connection then
    reaches, what the socket took, followed by what the writer holds, followed by what
    is queued, is exactly the accepted frames, in order; and [pending] counts exactly
    the bytes not yet written and never exceeds [max_pending].  The condition is
    needed: [short_single_write_loses_bytes] is a step without it that loses bytes. *)
Theorem writer_fifo max_pending s :
  (0 <= max_pending < u64_modulus)%Z -> rtc (sys_step whole_single) (sys_init max_pending) s ->
  sy_wire s ++ concat (parts (sy_w s)) ++ concat (ch_queue (ob_chan (sy_out s))) = sy_accepted s /\
  pending (sy_out s) =
    (blen (concat (parts (sy_w s))) + blen (concat (ch_queue (ob_chan (sy_out s)))))%Z /\
  (pending (sy_out s) <= hard (sy_out s))%Z.
Proof.
  intros Hm Hs. destruct (sys_reachable_inv _ _ Hm Hs) as (Hg & _ & [Hb _] & Ho & Hall).
  destruct (Ho Hg) as [Hp Hle]. split_and!; [done | | done].
  rewrite Hp, Hb. unfold queue_bytes. lia.
Qed.

(** A batch the writer collects is no larger than [writev] accepts: at most
    [MAX_BATCH_PARTS] buffers, none of them empty, whose bytes are the front of the
    queue. *)
Lemma collect_within_iov_max o w o' w' :
  parts w = [] -> writer_inv w -> collect o w = Some (o', w') ->
  (blen (parts w') <= 1000)%Z /\ Forall (fun b => b <> []) (parts w') /\
  concat (parts w') ++ concat (ch_queue (ob_chan o')) = concat (ch_queue (ob_chan o)).
Proof. intros H1 H2 H3. by destruct (collect_bounds _ _ _ _ H1 H2 H3) as (? & [_ ?] & ?). Qed.

(** C35: a short write of a batch of one buffer loses bytes.  When the kernel takes
    [n] bytes of a longer single buffer, [write_batch] advances the buffer by [n]
    and [write_loop] then consumes [n] more from what is left: the next write
    starts at byte [2n], and bytes [n] to [2n] are never sent, although the
    connection goes on. *)
Theorem short_single_write_loses_bytes o buf n :
  (0 < n < blen buf)%Z ->
  exists w',
    attempt false false false o (mkWriter [buf] (blen buf)) (Kernel (Ok n)) =
      (drained o n, w', take (Z.to_nat n) buf, Goes_on) /\
    concat (parts w') = drop (Z.to_nat (2 * n)) buf.
Proof.
  intros Hn. unfold attempt. simpl. rewrite (proj2 (Z.ltb_lt _ _)) by lia. rewrite app_nil_r.
  destruct n as [| n | n]; [lia | | lia]. eexists. split; [reflexivity |]. cbn [parts].
  rewrite consume_concat by lia. simpl concat. rewrite app_nil_r, drop_drop. f_equal. lia.
Qed.

(** A soft close while a single buffer is being written loses the buffer.  The
    pending write is dropped with the buffer it had taken; the batch still counts
    its bytes, so the next pass finds no buffer, writes nothing whatever the kernel
    would have done, and closes the connection: nothing that is queued is sent. *)
Lemma soft_close_drops_pending_buffer closed o buf b r :
  let w := mkWriter [buf] (Z.max 1 b) in
  exists w',
    attempt closed false false o w Woken = (o, w', [], Goes_on) /\
    (0 < batch_bytes w')%Z /\
    attempt closed false false o w' (Kernel r) =
      (drained o (batch_bytes w'), w', [],
       Ends (Some (false, "socket stopped accepting data"%string))).
Proof.
  intros w. exists (mkWriter [] (Z.max 1 b)). unfold attempt.
  rewrite !andb_false_r. simpl. split_and!; [done | lia | done].
Qed.

End Writer.

(** ** Witnesses *)

Section Witnesses.

#[local] Existing Instance simple_bytesmut.
#[local] Existing Instance list_channel.

Lemma writer_fifo_witness :
  exists s, rtc (sys_step whole_single) (sys_init 100) s /\ sy_wire s = bs "onetw" /\
    sy_wire s ++ concat (parts (sy_w s)) ++ concat (ch_queue (ob_chan (sy_out s))) = sy_accepted s /\
    pending (sy_out s) =
      (blen (concat (parts (sy_w s))) + blen (concat (ch_queue (ob_chan (sy_out s)))))%Z /\
    (pending (sy_out s) <= hard (sy_out s))%Z.
Proof.
  assert (Hrun : exists s, rtc (sys_step whole_single) (sys_init 100) s /\ sy_wire s = bs "onetw").
  { eexists. split.
    - eapply rtc_l; [eapply (step_enqueue _ _ _ _ _ (bs "one")); [| reflexivity]; vm_compute; done |].
      eapply rtc_l; [eapply (step_enqueue _ _ _ _ _ (bs "two")); [| reflexivity]; vm_compute; done |].
      eapply rtc_l; [eapply step_collect; reflexivity |].
      eapply rtc_l; [eapply (step_write _ _ _ _ _ (Ok 5%Z)); [done | vm_compute; done | done | reflexivity] |].
      apply rtc_refl.
    - reflexivity. }
  destruct Hrun as (s & Hs & Hw). exists s. split; [done |]. split; [done |].
  apply (writer_fifo 100 s); [split; [lia | reflexivity] | done].
Defined.

Lemma collect_within_iov_max_witness :
  let o := (enqueue (enqueue (outbox_new 100) (bs "one")).1 (bs "two")).1 in
  exists o' w', collect o writer_new = Some (o', w') /\
    (blen (parts w') <= 1000)%Z /\ Forall (fun b => b <> []) (parts w') /\
    concat (parts w') ++ concat (ch_queue (ob_chan o')) = concat (ch_queue (ob_chan o)).
Proof.
  intros o. eexists _, _. split; [reflexivity |].
  apply (collect_within_iov_max o writer_new); [done | split; [done | constructor] | reflexivity].
Defined.

Lemma short_single_write_loses_bytes_witness :
  exists w',
    attempt false false false (outbox_new 100) (mkWriter [bs "abcdef"] 6) (Kernel (Ok 2%Z)) =
      (drained (outbox_new 100) 2, w', bs "ab", Goes_on) /\
    concat (parts w') = bs "ef".
Proof. apply (short_single_write_loses_bytes (outbox_new 100) (bs "abcdef") 2). vm_compute. done. Defined.

End Witnesses.
