(* ===== verification/Nuid.v ===== *)
(** * Identifiers and pseudo-random numbers (crates/server/src/nuid.rs)

    The splitmix64 generator, and the server id drawn from it.  The seed comes
    from the operating system: it is a parameter. *)

From Stdlib Require Import String Strings.Byte.
From S2P Require Import Prelude.

(** ** Definitions *)

Definition wrapping_add (x y : Z) : Z := wrap64 (x + y).
Definition wrapping_mul (x y : Z) : Z := wrap64 (x * y).

(** [u64::rotate_left(k)]. *)
Definition rotate_left (x k : Z) : Z :=
  Z.lor (wrap64 (Z.shiftl x k)) (Z.shiftr x (64 - k)).

(** [z ^ (z >> k)]. *)
Definition xor_shr (k z : Z) : Z := Z.lxor z (Z.shiftr z k).

Definition ALPHABET : bytes := bs "ABCDEFGHIJKLMNOPQRSTUVWXYZ234567".
Definition PREFIX : byte := "N"%byte.
Definition LEN : nat := 56.

(** [Rng]: its [state]. *)
Record Rng := mkRng { state : Z }.

Definition GAMMA : Z := 0x9E3779B97F4A7C15.

(** [Rng::new], given what [seed()] returned. *)
Definition rng_new (seed : Z) : Rng := mkRng (rotate_left (wrapping_mul seed GAMMA) 17).

Definition next_u64 (r : Rng) : Rng * Z :=
  let s := wrapping_add (state r) GAMMA in
  let z := wrapping_mul (xor_shr 30 s) 0xBF58476D1CE4E5B9 in
  let z := wrapping_mul (xor_shr 27 z) 0x94D049BB133111EB in
  (mkRng s, xor_shr 31 z).

Definition below (r : Rng) (bound : Z) : Rng * Z :=
  if (bound =? 0)%Z then (r, 0%Z)
  else let (r', n) := next_u64 r in (r', (n mod bound)%Z).

(** The [for _ in 1..LEN] loop of [server_id]. *)
Fixpoint server_id_loop (n : nat) (r : Rng) (out : bytes) : Rng * bytes :=
  match n with
  | O => (r, out)
  | S n =>
      let (r', x) := next_u64 r in
      let i := (x mod blen ALPHABET)%Z in
      server_id_loop n r' (out ++ [default x00 (ALPHABET !! Z.to_nat i)])
  end.

Definition server_id (r : Rng) : Rng * bytes := server_id_loop (LEN - 1) r [PREFIX].

(** The generator after [n] draws, and its [n]-th output. *)
Definition draws (r : Rng) (n : nat) : Rng := Nat.iter n (fun r => (next_u64 r).1) r.
Definition draw (r : Rng) (n : nat) : Z := (next_u64 (draws r n)).2.

Example next_u64_vector :
  (next_u64 (mkRng 0)).2 = 0xE220A8397B1DCDAF%Z /\
  (next_u64 (next_u64 (mkRng 0)).1).2 = 0x6E789E6AA1B965F4%Z.
Proof. vm_compute. done. Qed.

(** ** Lemmas *)

Lemma u64_testbit z i : in_u64 z -> (64 <= i)%Z -> Z.testbit z i = false.
Proof.
  intros [H0 H1] Hi. apply Z.bits_above_log2; [done |].
  destruct (decide (z = 0)%Z) as [-> | Hz]; [simpl; lia |].
  apply Z.log2_lt_pow2; [lia |]. unfold u64_modulus in H1.
  eapply Z.lt_le_trans; [done |]. by apply Z.pow_le_mono_r.
Qed.

Lemma in_u64_bits z : (0 <= z)%Z -> (forall i, 64 <= i -> Z.testbit z i = false)%Z -> in_u64 z.
Proof.
  intros H0 Hb. split; [done |]. destruct (decide (z < u64_modulus)%Z) as [| Hge]; [done |].
  assert (Hl : (64 <= Z.log2 z)%Z).
  { apply Z.log2_le_pow2; unfold u64_modulus in *; lia. }
  specialize (Hb _ Hl). rewrite Z.bit_log2 in Hb; [done |]. unfold u64_modulus in *. lia.
Qed.

Lemma xor_shr_range k z : (0 < k)%Z -> in_u64 z -> in_u64 (xor_shr k z).
Proof.
  intros Hk Hz. pose proof Hz as [H0 _]. apply in_u64_bits.
  - apply Z.lxor_nonneg. rewrite Z.shiftr_nonneg. done.
  - intros i Hi. unfold xor_shr. rewrite Z.lxor_spec, Z.shiftr_spec by lia.
    by rewrite !u64_testbit by (done || lia).
Qed.

(** Shifting right and adding without carry loses nothing: each bit is determined
    by the result and a higher bit. *)
Lemma xor_shr_inj k x y :
  (0 < k)%Z -> in_u64 x -> in_u64 y -> xor_shr k x = xor_shr k y -> x = y.
Proof.
  intros Hk Hx Hy H.
  assert (Hbits : forall n : nat, forall i, (0 <= i)%Z -> (64 - Z.of_nat n <= i)%Z ->
            Z.testbit x i = Z.testbit y i).
  { induction n as [| n IH]; intros i Hi Hn; [by rewrite !u64_testbit by (done || lia) |].
    assert (Hb : Z.testbit (xor_shr k x) i = Z.testbit (xor_shr k y) i) by (by rewrite H).
    unfold xor_shr in Hb. rewrite !Z.lxor_spec, !Z.shiftr_spec in Hb by lia.
    rewrite (IH (i + k)%Z) in Hb by lia.
    by destruct (Z.testbit x i), (Z.testbit y i), (Z.testbit y (i + k)). }
  apply Z.bits_inj. intros i. destruct (decide (0 <= i)%Z) as [Hi | Hi].
  - apply (Hbits 64); lia.
  - by rewrite !Z.testbit_neg_r by lia.
Qed.

(** Multiplication by a number with an inverse modulo 2^64 loses nothing. *)
Lemma wrapping_mul_inj m inv x y :
  wrapping_mul m inv = 1%Z -> in_u64 x -> in_u64 y ->
  wrapping_mul x m = wrapping_mul y m -> x = y.
Proof.
  unfold wrapping_mul, wrap64. intros Hinv Hx Hy H.
  assert (Hr : forall z, in_u64 z -> ((((z * m) mod u64_modulus) * inv) mod u64_modulus = z)%Z).
  { intros z Hz. rewrite Z.mul_mod_idemp_l by done.
    rewrite <- Z.mul_assoc, <- Z.mul_mod_idemp_r, Hinv, Z.mul_1_r by done.
    by apply Z.mod_small. }
  by rewrite <- (Hr x Hx), <- (Hr y Hy), H.
Qed.

Lemma wrapping_mul_range x y : in_u64 (wrapping_mul x y).
Proof. apply wrap64_range. Qed.

Lemma wrapping_add_range x y : in_u64 (wrapping_add x y).
Proof. apply wrap64_range. Qed.

#[export] Hint Resolve wrapping_mul_range wrapping_add_range xor_shr_range : nats.

Lemma next_u64_range r : in_u64 (next_u64 r).2.
Proof. simpl. auto with nats lia. Qed.

Lemma next_u64_state r : state (next_u64 r).1 = wrapping_add (state r) GAMMA.
Proof. done. Qed.

(** The output determines the state it was drawn from. *)
Lemma next_u64_inj r s : (next_u64 r).2 = (next_u64 s).2 -> state (next_u64 r).1 = state (next_u64 s).1.
Proof.
  rewrite !next_u64_state. simpl. intros H.
  apply xor_shr_inj in H; [| lia | auto with nats..].
  apply (wrapping_mul_inj _ 0x319642B2D24D8EC3) in H; [| vm_compute; done | auto with nats lia..].
  apply xor_shr_inj in H; [| lia | auto with nats..].
  apply (wrapping_mul_inj _ 0x96DE1B173F119089) in H; [| vm_compute; done | auto with nats lia..].
  apply xor_shr_inj in H; [done | lia | auto with nats..].
Qed.

Lemma draws_state r n : in_u64 (state r) -> state (draws r n) = wrap64 (state r + Z.of_nat n * GAMMA).
Proof.
  intros Hr. induction n as [| n IH]; [by rewrite Z.add_0_r, wrap64_small |].
  change (draws r (S n)) with (next_u64 (draws r n)).1. rewrite next_u64_state, IH.
  unfold wrapping_add, wrap64. rewrite Z.add_mod_idemp_l by done. f_equal. lia.
Qed.

(** The increment is odd, so the state does not come back before 2^64 draws. *)
Lemma draws_state_inj r i j :
  in_u64 (state r) -> (Z.of_nat i < u64_modulus)%Z -> (Z.of_nat j < u64_modulus)%Z ->
  state (draws r i) = state (draws r j) -> i = j.
Proof.
  intros Hr Hi Hj H. rewrite !draws_state in H by done.
  apply Nat2Z.inj, (wrapping_mul_inj GAMMA 0xF1DE83E19937733D);
    [vm_compute; done | split; lia | split; lia |].
  unfold wrapping_mul, wrap64 in *.
  apply (f_equal (fun z => (z - state r) mod u64_modulus)%Z) in H.
  rewrite !Zminus_mod_idemp_l in H.
  by replace (state r + Z.of_nat i * GAMMA - state r)%Z with (Z.of_nat i * GAMMA)%Z in H by lia;
     replace (state r + Z.of_nat j * GAMMA - state r)%Z with (Z.of_nat j * GAMMA)%Z in H by lia.
Qed.

Lemma alphabet_lookup x : default x00 (ALPHABET !! Z.to_nat (x mod blen ALPHABET)) ∈ ALPHABET.
Proof.
  pose proof (Z.mod_pos_bound x (blen ALPHABET) ltac:(done)) as Hb.
  destruct (lookup_lt_is_Some_2 ALPHABET (Z.to_nat (x mod blen ALPHABET))) as [c Hc].
  { unfold blen in *. lia. }
  rewrite Hc. by eapply list_elem_of_lookup_2.
Qed.

Lemma server_id_loop_shape n r out :
  exists tl, (server_id_loop n r out).2 = out ++ tl /\ length tl = n /\ Forall (fun c => c ∈ ALPHABET) tl.
Proof.
  revert r out. induction n as [| n IH]; intros r out.
  - exists []. simpl. by rewrite app_nil_r.
  - cbn [server_id_loop]. destruct (next_u64 r) as [r' x].
    destruct (IH r' (out ++ [default x00 (ALPHABET !! Z.to_nat (x mod blen ALPHABET))]))
      as (tl & -> & Hlen & Htl).
    eexists (_ :: tl). rewrite <- (assoc_L (++)). split; [done |]. simpl. split; [by rewrite Hlen |].
    constructor; [apply alphabet_lookup | done].
Qed.

(** ** Properties *)

(** C34: the generator never repeats itself: from any seed, its first 2^64 outputs
    are pairwise different, and each is a [u64]. *)
Theorem rng_no_repeat seed i j :
  (Z.of_nat i < u64_modulus)%Z -> (Z.of_nat j < u64_modulus)%Z ->
  in_u64 (draw (rng_new seed) i) /\
  (draw (rng_new seed) i = draw (rng_new seed) j -> i = j).
Proof.
  intros Hi Hj. split; [apply next_u64_range |].
  intros H%next_u64_inj. rewrite !next_u64_state in H.
  apply (draws_state_inj (next_u64 (rng_new seed)).1); [apply wrapping_add_range | done | done |].
  assert (Hs : forall n, draws (next_u64 (rng_new seed)).1 n = (next_u64 (draws (rng_new seed) n)).1).
  { intros n. induction n as [| n IH]; [done |].
    change (draws ?r (S n)) with (next_u64 (draws r n)).1. by rewrite IH. }
  by rewrite !Hs, !next_u64_state.
Qed.

Lemma rng_no_repeat_witness :
  in_u64 (draw (rng_new 7) 3) /\ (draw (rng_new 7) 3 = draw (rng_new 7) 5 -> 3 = 5).
Proof. apply (rng_no_repeat 7 3 5); vm_compute; done. Defined.

(** The server id is always 56 characters of the base32 alphabet, the first of
    them [N]; a number drawn below a bound is below it. *)
Lemma server_id_shape r :
  (exists tl, (server_id r).2 = PREFIX :: tl) /\ length (server_id r).2 = 56 /\
  Forall (fun c => c ∈ ALPHABET) (server_id r).2 /\
  (below r 0).2 = 0%Z /\ forall bound, (0 < bound -> 0 <= (below r bound).2 < bound)%Z.
Proof.
  destruct (server_id_loop_shape (LEN - 1) r [PREFIX]) as (tl & Htl & Hlen & Hall).
  unfold server_id. rewrite Htl.
  split_and!; [by exists tl | simpl; by rewrite Hlen | | done |].
  - constructor; [| done]. by apply (bool_decide_unpack (PREFIX ∈ ALPHABET)).
  - intros bound Hb. unfold below. rewrite (proj2 (Z.eqb_neq _ _)) by lia.
    destruct (next_u64 r) as [r' n]. by apply Z.mod_pos_bound.
Qed.
