(* ===== verification/Hasher.v ===== *)
(** * The hasher of the subject map (crates/server/src/routing.rs, [SubjectHasher])

    The map's meaning does not depend on it; its quality does.  [mix] loses nothing,
    neither of the state nor of the word, so two subjects of the same length that
    differ in one block never meet before the final avalanche. *)

From Stdlib Require Import String Strings.Byte.
From S2P Require Import Prelude Nuid.

(** ** Definitions *)

Definition MIX : Z := 0x517cc1b727220a95.

(** [mix], on the hasher's state. *)
Definition mix (s word : Z) : Z := wrapping_mul (Z.lxor (rotate_left s 11) word) MIX.

(** [u64::from_le_bytes]. *)
Definition from_le_bytes (l : bytes) : Z := foldr (fun b n => u8 b + 256 * n)%Z 0%Z l.

(** The last word: the bytes that are left, padded, and the length of the whole. *)
Definition tail_word (tail : bytes) (len : Z) : Z :=
  Z.lxor (from_le_bytes (tail ++ replicate (8 - length tail) x00)) (wrap64 (Z.shiftl len 56)).

(** The loop of [write]; [len] is [bytes.len()]. *)
Fixpoint write_from (s len : Z) (b : bytes) : Z :=
  match b with
  | [] => s
  | b0 :: b1 :: b2 :: b3 :: b4 :: b5 :: b6 :: b7 :: rest =>
      write_from (mix s (from_le_bytes [b0; b1; b2; b3; b4; b5; b6; b7])) len rest
  | tail => mix s (tail_word tail len)
  end.

Definition hash_write (s : Z) (b : bytes) : Z := write_from s (blen b) b.

Definition hash_finish (s : Z) : Z :=
  let z := wrapping_mul (xor_shr 30 s) 0xbf58476d1ce4e5b9 in
  Z.lxor (wrapping_mul (xor_shr 27 z) 0x94d049bb133111eb) (Z.shiftr z 31).

(** ** Lemmas *)

Lemma from_le_bytes_range l : (0 <= from_le_bytes l < 256 ^ blen l)%Z.
Proof.
  induction l as [| b l IH]; [done |]. simpl from_le_bytes. rewrite blen_cons.
  rewrite Z.pow_add_r by (try lia; apply blen_nonneg). pose proof (u8_range b). lia.
Qed.

Lemma from_le_bytes_inj l k : length l = length k -> from_le_bytes l = from_le_bytes k -> l = k.
Proof.
  revert k. induction l as [| b l IH]; intros [| c k] Hlen H; try done. simpl in *.
  pose proof (u8_range b). pose proof (u8_range c).
  assert (u8 b = u8 c /\ from_le_bytes l = from_le_bytes k) as [Hb Hl] by lia.
  by rewrite (u8_inj _ _ Hb), (IH k) by lia.
Qed.

Lemma word_range l : length l = 8 -> in_u64 (from_le_bytes l).
Proof. intros H. pose proof (from_le_bytes_range l) as Hr. unfold blen in Hr. by rewrite H in Hr. Qed.

Lemma lxor_inj_r a x y : Z.lxor a x = Z.lxor a y -> x = y.
Proof.
  intros H. apply (f_equal (Z.lxor a)) in H. by rewrite <- !Z.lxor_assoc, Z.lxor_nilpotent, !Z.lxor_0_l in H.
Qed.

Lemma lxor_inj_l a x y : Z.lxor x a = Z.lxor y a -> x = y.
Proof. rewrite !(Z.lxor_comm _ a). apply lxor_inj_r. Qed.

Lemma lxor_range x y : in_u64 x -> in_u64 y -> in_u64 (Z.lxor x y).
Proof.
  intros Hx Hy. apply in_u64_bits; [apply Z.lxor_nonneg; by destruct Hx, Hy |].
  intros i Hi. by rewrite Z.lxor_spec, !u64_testbit.
Qed.

(** The bits of a rotated word. *)
Lemma rotate_left_bits x k i :
  in_u64 x -> (0 < k < 64)%Z -> (0 <= i)%Z ->
  Z.testbit (rotate_left x k) i =
    if (i <? k)%Z then Z.testbit x (i + (64 - k)) else if (i <? 64)%Z then Z.testbit x (i - k) else false.
Proof.
  intros Hx Hk Hi. unfold rotate_left, wrap64, u64_modulus.
  rewrite Z.lor_spec, Z.shiftr_spec, Z.testbit_mod_pow2, Z.shiftl_spec by lia.
  destruct (i <? k)%Z eqn:E1; bool_to_prop.
  - rewrite (Z.testbit_neg_r x (i - k)) by lia. by rewrite andb_false_r.
  - rewrite (u64_testbit x (i + (64 - k))), orb_false_r by (done || lia). by destruct (i <? 64)%Z.
Qed.

Lemma rotate_left_inj x y k :
  in_u64 x -> in_u64 y -> (0 < k < 64)%Z -> rotate_left x k = rotate_left y k -> x = y.
Proof.
  intros Hx Hy Hk H. apply Z.bits_inj. intros i. destruct (decide (0 <= i < 64)%Z) as [Hi | Hi].
  - destruct (decide (i < 64 - k)%Z) as [Hlt | Hge].
    + assert (Hb : Z.testbit (rotate_left x k) (i + k) = Z.testbit (rotate_left y k) (i + k)) by (by rewrite H).
      rewrite !rotate_left_bits in Hb by (done || lia).
      rewrite (proj2 (Z.ltb_ge _ _)), (proj2 (Z.ltb_lt _ _)), Z.add_simpl_r in Hb by lia. done.
    + assert (Hb : Z.testbit (rotate_left x k) (i - (64 - k)) = Z.testbit (rotate_left y k) (i - (64 - k)))
        by (by rewrite H).
      rewrite !rotate_left_bits in Hb by (done || lia).
      rewrite (proj2 (Z.ltb_lt _ _)) in Hb by lia. by rewrite Z.sub_add in Hb.
  - destruct (decide (i < 0)%Z); [by rewrite !Z.testbit_neg_r by lia |]. by rewrite !u64_testbit by (done || lia).
Qed.

Lemma rotate_left_range x k : in_u64 x -> (0 < k < 64)%Z -> in_u64 (rotate_left x k).
Proof.
  intros Hx Hk. apply in_u64_bits.
  - unfold rotate_left. apply Z.lor_nonneg. split; [apply wrap64_range | apply Z.shiftr_nonneg, Hx].
  - intros i Hi. rewrite rotate_left_bits by (done || lia).
    by rewrite (proj2 (Z.ltb_ge i k)), (proj2 (Z.ltb_ge i 64)) by lia.
Qed.

Lemma mix_range s w : in_u64 (mix s w).
Proof. apply wrapping_mul_range. Qed.

#[local] Hint Resolve rotate_left_range lxor_range mix_range word_range : nats.

Lemma mix_inj s t v w :
  in_u64 s -> in_u64 t -> in_u64 v -> in_u64 w -> mix s v = mix t w ->
  Z.lxor (rotate_left s 11) v = Z.lxor (rotate_left t 11) w.
Proof.
  intros Hs Ht Hv Hw. unfold mix.
  apply (wrapping_mul_inj MIX 0x2040003d780970bd); [vm_compute; done | |]; auto 6 with nats lia.
Qed.

Lemma tail_word_range tail len : length tail < 8 -> in_u64 (tail_word tail len).
Proof.
  intros Hl. unfold tail_word. apply lxor_range; [| auto with nats].
  apply word_range. rewrite length_app, length_replicate. lia.
Qed.

(** One block: a whole word, or a tail at the end. *)
Definition block_ok (blk post : bytes) : Prop := length blk = 8 \/ (0 < length blk < 8 /\ post = []).

Lemma write_from_word s len blk post :
  length blk = 8 -> write_from s len (blk ++ post) = write_from (mix s (from_le_bytes blk)) len post.
Proof. intros H. do 9 (destruct blk as [| ? blk]; simpl in H; [by (done || lia) |]). lia. Qed.

Lemma write_from_tail s len blk :
  0 < length blk < 8 -> write_from s len blk = mix s (tail_word blk len).
Proof. intros H. do 8 (destruct blk as [| ? blk]; simpl in H; [by (done || lia) |]). lia. Qed.

(** [write] from two states gives two states. *)
Lemma write_from_state_inj s t len b :
  in_u64 s -> in_u64 t -> write_from s len b = write_from t len b -> s = t.
Proof.
  remember (length b) as n eqn:En. revert s t b En.
  induction n as [n IH] using lt_wf_ind. intros s t b -> Hs Ht H.
  destruct b as [| b0 b']; [done |]. set (b := b0 :: b') in *.
  destruct (decide (length b < 8)) as [Hlt | Hge].
  - assert (0 < length b < 8) by (unfold b in *; simpl in *; lia). rewrite !write_from_tail in H by done.
    apply mix_inj in H; [| done | done | by apply tail_word_range..].
    apply lxor_inj_l in H. apply rotate_left_inj in H; done || lia.
  - rewrite <- (take_drop 8 b) in H. assert (Hw : length (take 8 b) = 8) by (rewrite length_take; lia).
    rewrite !write_from_word in H by done.
    apply (IH (length (drop 8 b))) in H; [| rewrite length_drop; lia | done | apply mix_range..].
    apply mix_inj in H; [| done | done | by apply word_range..].
    apply lxor_inj_l in H. apply rotate_left_inj in H; done || lia.
Qed.

Lemma write_from_block s len blk blk' post :
  in_u64 s -> length blk = length blk' -> block_ok blk post ->
  write_from s len (blk ++ post) = write_from s len (blk' ++ post) -> blk = blk'.
Proof.
  intros Hs Hlen [H8 | [Hlt ->]] H.
  - rewrite !write_from_word in H by congruence.
    apply write_from_state_inj in H; [| apply mix_range..].
    apply mix_inj in H; [| done | done | apply word_range; congruence..].
    apply lxor_inj_r in H. by apply from_le_bytes_inj.
  - rewrite !app_nil_r, !write_from_tail in H by lia.
    apply mix_inj in H; [| done | done | apply tail_word_range; lia..].
    apply lxor_inj_r in H. unfold tail_word in H. apply lxor_inj_l in H. rewrite <- Hlen in H.
    apply from_le_bytes_inj in H; [| rewrite !length_app; lia]. by apply app_inj_1 in H as [? _].
Qed.

Lemma write_from_skip s len n pre post :
  in_u64 s -> length pre = 8 * n ->
  exists s', in_u64 s' /\ forall b, write_from s len (pre ++ b ++ post) = write_from s' len (b ++ post).
Proof.
  revert s pre. induction n as [| n IH]; intros s pre Hs Hp.
  - destruct pre; [by exists s | simpl in Hp; lia].
  - assert (H8 : length (take 8 pre) = 8) by (rewrite length_take; lia).
    destruct (IH (mix s (from_le_bytes (take 8 pre))) (drop 8 pre)) as (s' & Hs' & H);
      [apply mix_range | rewrite length_drop; lia |].
    exists s'. split; [done |]. intros b. rewrite <- (take_drop 8 pre) at 1.
    by rewrite <- (assoc_L (++)), write_from_word, H by done.
Qed.

(** ** Property *)

(** Subjects that differ in one block do not collide in the hasher's state.
    Whatever the seed, two subjects of the same length that agree except within one
    of the 8-byte blocks [write] reads (in particular, any two different subjects of
    the same length of at most 8 bytes) leave different states. *)
Lemma hash_write_separates_blocks s n pre blk blk' post :
  in_u64 s -> length pre = 8 * n -> length blk = length blk' -> block_ok blk post -> blk <> blk' ->
  hash_write s (pre ++ blk ++ post) <> hash_write s (pre ++ blk' ++ post).
Proof.
  intros Hs Hp Hlen Hb Hne H. unfold hash_write in H.
  replace (blen (pre ++ blk' ++ post)) with (blen (pre ++ blk ++ post)) in H
    by (unfold blen; rewrite !length_app; lia).
  destruct (write_from_skip s (blen (pre ++ blk ++ post)) n pre post Hs Hp) as (s' & Hs' & Hw).
  rewrite !Hw in H. by apply write_from_block in H.
Qed.

(** ** Witness *)

Lemma hash_write_separates_blocks_witness :
  hash_write 7 (bs "orders.eu.new") <> hash_write 7 (bs "orders.eu.old").
Proof.
  apply (hash_write_separates_blocks 7 1 (bs "orders.e") (bs "u.new") (bs "u.old") []);
    [split; [lia | reflexivity] | reflexivity | reflexivity | right; simpl; split; [lia | reflexivity] | discriminate].
Defined.
