(* ===== verification/Options.v ===== *)
(** * CONNECT options (crates/server/src/client.rs, [Options])

    The five flags of a connection, their packed form in the connection's atomic
    word, and the effect of a CONNECT object on them. *)

From Stdlib Require Import String Strings.Byte.
From S2P Require Import Prelude External.

(** ** Definitions *)

Record Options := mkOptions {
  verbose : bool;
  pedantic : bool;
  echo : bool;
  headers : bool;
  no_responders : bool }.

#[global] Instance Options_eq_dec : EqDecision Options.
Proof. solve_decision. Defined.

Definition options_default : Options := mkOptions true true true false false.

(** [b as u64]. *)
Definition b2z (b : bool) : Z := if b then 1 else 0.

Definition pack (o : Options) : Z :=
  Z.lor (Z.lor (Z.lor (Z.lor (b2z (verbose o)) (Z.shiftl (b2z (pedantic o)) 1))
    (Z.shiftl (b2z (echo o)) 2)) (Z.shiftl (b2z (headers o)) 3)) (Z.shiftl (b2z (no_responders o)) 4).

(** [word & bit != 0]. *)
Definition has_bit (word bit : Z) : bool := negb (Z.land word bit =? 0)%Z.

Definition unpack (word : Z) : Options :=
  mkOptions (has_bit word 1) (has_bit word 2) (has_bit word 4) (has_bit word 8) (has_bit word 16).

Definition connect_keys : list string :=
  ["verbose"; "pedantic"; "echo"; "headers"; "no_responders"]%string.
Arguments connect_keys : simpl never.

(** The inner [match key]: the last arm is every other key. *)
Definition set_key (o : Options) (key : string) (b : bool) : Options :=
  if String.eqb key "verbose" then mkOptions b (pedantic o) (echo o) (headers o) (no_responders o)
  else if String.eqb key "pedantic" then mkOptions (verbose o) b (echo o) (headers o) (no_responders o)
  else if String.eqb key "echo" then mkOptions (verbose o) (pedantic o) b (headers o) (no_responders o)
  else if String.eqb key "headers" then mkOptions (verbose o) (pedantic o) (echo o) b (no_responders o)
  else mkOptions (verbose o) (pedantic o) (echo o) (headers o) b.

Section Connect.

Context {J : SerdeJsonLib}.

(** The boolean a key of the object holds, if it holds one. *)
Definition key_bool (obj : json_object) (key : string) : option bool :=
  json_get obj (bs key) ≫= json_as_bool.

Definition apply_key (obj : json_object) (o : Options) (key : string) : Options :=
  match json_get obj (bs key) with
  | Some v => match json_as_bool v with Some b => set_key o key b | None => o end
  | None => o
  end.

Definition apply_connect (o : Options) (json : bytes) : Options * bool :=
  match json_from_slice json with
  | None => (o, false)
  | Some value =>
      match json_as_object value with
      | None => (o, false)
      | Some obj => (foldl (apply_key obj) o connect_keys, true)
      end
  end.

(** [info_is_an_object]. *)
Definition info_is_an_object (json : bytes) : bool :=
  match json_from_slice json with
  | Some v => bool_decide (is_Some (json_as_object v))
  | None => false
  end.

(** ** Lemmas *)

Lemma apply_keys_fields obj o :
  foldl (apply_key obj) o connect_keys =
  mkOptions (default (verbose o) (key_bool obj "verbose"))
            (default (pedantic o) (key_bool obj "pedantic"))
            (default (echo o) (key_bool obj "echo"))
            (default (headers o) (key_bool obj "headers"))
            (default (no_responders o) (key_bool obj "no_responders")).
Proof.
  assert (Hk : forall o key, apply_key obj o key =
    match key_bool obj key with Some b => set_key o key b | None => o end).
  { intros o' key. unfold apply_key, key_bool. by destruct (json_get obj (bs key)). }
  unfold connect_keys. simpl. rewrite !Hk. destruct o. by repeat destruct (key_bool obj _).
Qed.

(** ** Properties *)

(** A CONNECT object sets exactly the flags it names with a boolean: a key that
    is absent, or holds something else, keeps its current value, and any other key
    is ignored.  A text that is not a JSON object is refused, and changes nothing. *)
Lemma apply_connect_correct o json :
  match json_from_slice json ≫= json_as_object with
  | None => apply_connect o json = (o, false)
  | Some obj =>
      apply_connect o json =
      (mkOptions (default (verbose o) (key_bool obj "verbose"))
                 (default (pedantic o) (key_bool obj "pedantic"))
                 (default (echo o) (key_bool obj "echo"))
                 (default (headers o) (key_bool obj "headers"))
                 (default (no_responders o) (key_bool obj "no_responders")), true)
  end.
Proof.
  unfold apply_connect. destruct (json_from_slice json) as [v |]; simpl; [| done].
  destruct (json_as_object v) as [obj |]; [| done]. f_equal. apply apply_keys_fields.
Qed.

End Connect.

(** The flags survive the packed word: unpacking what was packed gives the same
    options, the word fits the five low bits, and the bits other tasks read while
    routing (4 for [echo], 8 for [headers]) are those flags. *)
Lemma options_pack_roundtrip o :
  unpack (pack o) = o /\ (0 <= pack o < 32)%Z /\
  has_bit (pack o) 4 = echo o /\ has_bit (pack o) 8 = headers o.
Proof. by destruct o as [[] [] [] [] []]. Qed.

(** ** A concrete [serde_json]: flat objects of booleans *)

Inductive flat_value := Flat_bool (b : bool) | Flat_object (l : list (bytes * bool)).

(** ["key":true] or ["key":false]. *)
Definition flat_member (t : bytes) : option (bytes * bool) :=
  match split_on (fun b => bool_decide (b = x22)) t with
  | [ []; key; v ] =>
      if bool_decide (v = bs ":true") then Some (key, true)
      else if bool_decide (v = bs ":false") then Some (key, false) else None
  | _ => None
  end.

Definition flat_parse (t : bytes) : option flat_value :=
  match t with
  | x7b :: rest =>
      let body := removelast rest in
      if negb (bool_decide (last rest = Some x7d)) then None
      else if is_empty body then Some (Flat_object [])
      else Flat_object <$> mapM flat_member (split_on (fun b => bool_decide (b = x2c)) body)
  | _ => None
  end.

Definition flat_json : SerdeJsonLib := {|
  json_value := flat_value;
  json_object := list (bytes * bool);
  json_from_slice := flat_parse;
  json_as_object v := match v with Flat_object l => Some l | Flat_bool _ => None end;
  json_get l k := (fun kv => Flat_bool kv.2) <$> List.find (fun kv => bool_decide (kv.1 = k)) l;
  json_as_bool v := match v with Flat_bool b => Some b | Flat_object _ => None end |}.

(** The JSON text of one boolean member. *)
Definition flat_text (key : string) (b : bool) : bytes :=
  [x7b; x22] ++ bs key ++ [x22] ++ (if b then bs ":true" else bs ":false") ++ [x7d].

Example apply_connect_headers :
  @apply_connect flat_json options_default (flat_text "headers" true) =
  (mkOptions true true true true false, true).
Proof. vm_compute. reflexivity. Qed.

Example apply_connect_not_an_object :
  @apply_connect flat_json options_default (bs "5") = (options_default, false).
Proof. vm_compute. reflexivity. Qed.
