(* ===== verification/Registry.v ===== *)
(** * The subscription registry (crates/server/src/routing.rs, [Registry])

    The subscriptions of every connection, literal filters by subject and wildcard
    filters in a list.  The abstract registry is a bag of subscriptions. *)

From Stdlib Require Import String Strings.Byte.
From stdpp Require Import fin_maps.
From S2P Require Import Prelude Subjects Nuid Frames.

(** ** Definitions *)

Record Inner := mkInner {
  literal : gmap bytes (list Sub);
  wildcards : list Sub;
  total : Z }.

Record Registry := mkRegistry { inner : Inner; rng : Rng; generation : Z }.

Definition inner_new : Inner := mkInner ∅ [] 0.

(** [Registry::new], given the seed of its generator. *)
Definition registry_new (seed : Z) : Registry := mkRegistry inner_new (rng_new seed) 0.

Definition same (a b : Sub) : bool :=
  bool_decide (sid a = sid b) && bool_decide (subject a = subject b) &&
  bool_decide (conn a = conn b).

Definition identical (a b : Sub) : bool :=
  bool_decide (sid a = sid b) && bool_decide (subject a = subject b) &&
  bool_decide (queue a = queue b) && bool_decide (conn a = conn b).

Definition changed (r : Registry) : Registry :=
  mkRegistry (inner r) (rng r) (wrap64 (generation r + 1)).

(** The part of [insert] under the lock: the new [Inner], and whether it was added. *)
Definition inner_insert (i : Inner) (sub : Sub) : Inner * bool :=
  if wildcard sub then
    if negb (existsb (fun s => same s sub) (wildcards i))
    then (mkInner (literal i) (wildcards i ++ [sub]) (wrap64 (total i + 1)), true)
    else (i, false)
  else
    let entry := default [] (literal i !! subject sub) in
    if negb (existsb (fun s => same s sub) entry)
    then (mkInner (<[subject sub := entry ++ [sub]]> (literal i)) (wildcards i)
                  (wrap64 (total i + 1)), true)
    else (mkInner (<[subject sub := entry]> (literal i)) (wildcards i) (total i), false).

Definition insert (r : Registry) (sub : Sub) : Registry * bool :=
  if negb (is_valid (subject sub)) then (r, false)
  else
    let (i, added) := inner_insert (inner r) sub in
    let r' := mkRegistry i (rng r) (generation r) in
    (if added then changed r' else r', true).

(** [Vec::retain]. *)
Definition retain (p : Sub -> bool) (l : list Sub) : list Sub := List.filter p l.

(** The closure [matches] of [remove_sub]: the identity is (connection, sid). *)
Definition hit (sub s : Sub) : bool :=
  bool_decide (sid s = sid sub) && bool_decide (conn s = conn sub).

Definition remove_sub (i : Inner) (sub : Sub) : Inner :=
  if wildcard sub then
    let w := retain (fun s => negb (hit sub s)) (wildcards i) in
    mkInner (literal i) w (wrap64 (total i - (blen (wildcards i) - blen w)))
  else
    match literal i !! subject sub with
    | Some l =>
        let l' := retain (fun s => negb (hit sub s)) l in
        mkInner (if is_empty l' then delete (subject sub) (literal i)
                 else <[subject sub := l']> (literal i))
                (wildcards i) (wrap64 (total i - (blen l - blen l')))
    | None => mkInner (literal i) (wildcards i) (wrap64 (total i - 0))
    end.

Definition remove (r : Registry) (sub : Sub) : Registry :=
  changed (mkRegistry (remove_sub (inner r) sub) (rng r) (generation r)).

(** The literal map after [remove_conn], and how many it lost. *)
Definition literal_without (c : cref) (m : gmap bytes (list Sub)) : gmap bytes (list Sub) :=
  filter (fun kl => kl.2 <> []) (retain (fun s => negb (bool_decide (conn s = c))) <$> m).

Definition literal_removed (c : cref) (m : gmap bytes (list Sub)) : Z :=
  map_fold (fun _ l n => n + (blen l - blen (retain (fun s => negb (bool_decide (conn s = c))) l)))%Z
           0%Z m.

Definition remove_conn (r : Registry) (c : cref) : Registry :=
  let i := inner r in
  let w := retain (fun s => negb (bool_decide (conn s = c))) (wildcards i) in
  let removed := (literal_removed c (literal i) + (blen (wildcards i) - blen w))%Z in
  let r' := mkRegistry (mkInner (literal_without c (literal i)) w (wrap64 (total i - removed)))
                       (rng r) (generation r) in
  if negb (removed =? 0)%Z then changed r' else r'.

Definition subscription_count (r : Registry) : Z := total (inner r).

Definition matching_of (r : Registry) (c : cref) (subj : bytes) : list Sub :=
  retain (fun s => bool_decide (conn s = c)) (default [] (literal (inner r) !! subj)) ++
  retain (fun s => bool_decide (conn s = c) && matches (subject s) subj) (wildcards (inner r)).

(** The subscriptions [resolve] collects. *)
Definition resolve_subs (r : Registry) (subj : bytes) : list Sub :=
  default [] (literal (inner r) !! subj) ++
  retain (fun s => matches (subject s) subj) (wildcards (inner r)).

(** ** The abstract registry: a bag of subscriptions *)

Definition lit_subs (m : gmap bytes (list Sub)) : list Sub := concat (snd <$> map_to_list m).

Definition all_subs (i : Inner) : list Sub := lit_subs (literal i) ++ wildcards i.

(** A subscription made by [Sub::new]. *)
Definition made (s : Sub) : Prop :=
  wildcard s = has_wildcard (subject s) /\ queued s = bool_decide (is_Some (queue s)).

Inductive RegOp :=
| Op_insert (sub : Sub)
| Op_remove (sub : Sub)
| Op_remove_conn (c : cref).

Definition reg_step (r : Registry) (op : RegOp) : Registry :=
  match op with
  | Op_insert sub => (insert r sub).1
  | Op_remove sub => remove r sub
  | Op_remove_conn c => remove_conn r c
  end.

(** What [remove sub] takes out: the subscriptions of the same connection and sid,
    among the wildcard ones or among those with the same literal subject. *)
Definition removes (sub s : Sub) : bool :=
  hit sub s && (if wildcard sub then wildcard s else bool_decide (subject s = subject sub)).

Definition bag_step (l : list Sub) (op : RegOp) : list Sub :=
  match op with
  | Op_insert sub =>
      if is_valid (subject sub) && negb (existsb (fun s => same s sub) l) then sub :: l else l
  | Op_remove sub => retain (fun s => negb (removes sub s)) l
  | Op_remove_conn c => retain (fun s => negb (bool_decide (conn s = c))) l
  end.

Definition op_made (op : RegOp) : Prop :=
  match op with Op_insert sub | Op_remove sub => made sub | Op_remove_conn _ => True end.

(** ** Lemmas on bags *)

Lemma retain_app p l k : retain p (l ++ k) = retain p l ++ retain p k.
Proof. apply List.filter_app. Qed.

#[global] Instance retain_Permutation p : Proper ((≡ₚ) ==> (≡ₚ)) (retain p).
Proof.
  intros l k H. induction H as [| x l k _ IH | x y l | l k m _ IH1 _ IH2]; simpl;
    [done | by destruct (p x); rewrite ?IH | | by rewrite IH1].
  destruct (p x), (p y); try done. apply Permutation_swap.
Qed.

Lemma existsb_Permutation (p : Sub -> bool) l k : l ≡ₚ k -> existsb p l = existsb p k.
Proof.
  intros H. induction H as [| x l k _ IH | x y l | l k m _ IH1 _ IH2]; simpl;
    [done | by rewrite IH | by rewrite !orb_assoc, (orb_comm (p x)) | congruence].
Qed.

Lemma elem_of_retain p l s : s ∈ retain p l <-> s ∈ l /\ p s = true.
Proof. unfold retain. by rewrite !list_elem_of_In, List.filter_In. Qed.

Lemma retain_all p l : (forall s, s ∈ l -> p s = true) -> retain p l = l.
Proof.
  induction l as [| s l IH]; intros H; simpl; [done |].
  rewrite H by constructor. f_equal. apply IH. intros t Ht. apply H. by constructor.
Qed.

Lemma retain_none p l : (forall s, s ∈ l -> p s = false) -> retain p l = [].
Proof.
  induction l as [| s l IH]; intros H; simpl; [done |].
  rewrite H by constructor. apply IH. intros t Ht. apply H. by constructor.
Qed.

Lemma retain_ext p q l : (forall s, s ∈ l -> p s = q s) -> retain p l = retain q l.
Proof.
  induction l as [| s l IH]; intros H; simpl; [done |].
  rewrite (H s) by constructor. destruct (q s); rewrite IH; try done; intros t Ht; apply H; by constructor.
Qed.

Lemma retain_le p l : (blen (retain p l) <= blen l)%Z.
Proof. unfold blen, retain. pose proof (List.filter_length_le p l). lia. Qed.

Lemma existsb_false (p : Sub -> bool) l : existsb p l = false <-> forall s, s ∈ l -> p s = false.
Proof.
  rewrite <- not_true_iff_false, existsb_exists. split.
  - intros H s Hs. destruct (p s) eqn:E; [| done]. exfalso. apply H. exists s. by rewrite <- list_elem_of_In.
  - intros H (s & Hs & Hp). rewrite <- list_elem_of_In in Hs. by rewrite H in Hp.
Qed.

Lemma blen_Permutation {A} (l k : list A) : l ≡ₚ k -> blen l = blen k.
Proof. intros H. unfold blen. by rewrite H. Qed.

#[global] Instance bag_step_Permutation op : Proper ((≡ₚ) ==> (≡ₚ)) (fun l => bag_step l op).
Proof.
  intros l k H. destruct op; simpl; [| by rewrite H | by rewrite H].
  rewrite (existsb_Permutation _ _ _ H). by destruct (_ && _); rewrite H.
Qed.

(** ** Lemmas on the literal map *)

#[global] Instance concat_Permutation : Proper ((≡ₚ) ==> (≡ₚ)) (@concat Sub).
Proof.
  intros l k H. induction H as [| x l k _ IH | x y l | l k m _ IH1 _ IH2]; simpl;
    [done | by rewrite IH | | by rewrite IH1]. by rewrite !(assoc_L (++)), (Permutation_app_comm x).
Qed.

Lemma lit_subs_empty : lit_subs ∅ = [].
Proof. unfold lit_subs. by rewrite map_to_list_empty. Qed.

Lemma lit_subs_insert_new k l m : m !! k = None -> lit_subs (<[k := l]> m) ≡ₚ l ++ lit_subs m.
Proof. intros H. unfold lit_subs. by rewrite map_to_list_insert. Qed.

Lemma lit_subs_delete k l m : m !! k = Some l -> lit_subs m ≡ₚ l ++ lit_subs (delete k m).
Proof.
  intros H. rewrite <- (insert_delete_id m k l H) at 1.
  apply lit_subs_insert_new, lookup_delete_eq.
Qed.

Lemma lit_subs_insert k l m : lit_subs (<[k := l]> m) ≡ₚ l ++ lit_subs (delete k m).
Proof.
  rewrite (lit_subs_delete k l) by apply lookup_insert_eq. by rewrite delete_insert_eq.
Qed.

Lemma lit_subs_default k m : lit_subs m ≡ₚ default [] (m !! k) ++ lit_subs (delete k m).
Proof.
  destruct (m !! k) as [l |] eqn:H; simpl; [by apply lit_subs_delete |]. by rewrite delete_id.
Qed.

Lemma elem_of_lit_subs m s : s ∈ lit_subs m <-> exists k l, m !! k = Some l /\ s ∈ l.
Proof.
  unfold lit_subs. rewrite list_elem_of_In, in_concat. split.
  - intros (l & Hl & Hs). rewrite <- list_elem_of_In in Hl. rewrite <- list_elem_of_In in Hs.
    apply list_elem_of_fmap in Hl as ([k l'] & -> & Hkl). apply elem_of_map_to_list in Hkl. eauto.
  - intros (k & l & Hk & Hs). exists l. rewrite <- list_elem_of_In, <- list_elem_of_In. split; [| done].
    apply list_elem_of_fmap. exists (k, l). split; [done |]. by apply elem_of_map_to_list.
Qed.

Lemma retain_lit_subs p m :
  lit_subs (filter (fun kl : bytes * list Sub => kl.2 <> []) (retain p <$> m)) ≡ₚ
  retain p (lit_subs m).
Proof.
  induction m as [| k l m Hk IH] using map_ind.
  { by rewrite fmap_empty, map_filter_empty, lit_subs_empty. }
  rewrite fmap_insert, lit_subs_insert_new, retain_app, <- IH by done.
  assert (Hn : (retain p <$> m) !! k = None) by (by rewrite lookup_fmap, Hk).
  destruct (decide (retain p l = [])) as [He | He].
  - rewrite map_filter_insert_False by (simpl; auto). by rewrite delete_id, He.
  - rewrite map_filter_insert_True by done. apply lit_subs_insert_new.
    rewrite map_lookup_filter_None. by left.
Qed.

Lemma removed_lit_subs c m :
  literal_removed c m =
  (blen (lit_subs m) - blen (retain (fun s => negb (bool_decide (conn s = c))) (lit_subs m)))%Z.
Proof.
  unfold literal_removed. induction m as [| k l m Hk IH] using map_ind.
  { by rewrite map_fold_empty, lit_subs_empty. }
  rewrite map_fold_insert_L; [| intros; lia | done]. rewrite IH.
  rewrite (blen_Permutation _ _ (lit_subs_insert_new k l m Hk)).
  rewrite (blen_Permutation (retain _ (lit_subs (<[k := l]> m))) (retain _ (l ++ lit_subs m)))
    by (by rewrite (lit_subs_insert_new k l m Hk)).
  rewrite retain_app, !blen_app. lia.
Qed.

(** ** The invariant *)

Definition sub_key (s : Sub) : bytes * bytes * cref := (sid s, subject s, conn s).

(** Every subscription is filed under its own literal subject, or with the
    wildcard ones; no list is empty. *)
Definition filed (i : Inner) : Prop :=
  (forall k l, literal i !! k = Some l -> l <> [] /\ Forall (fun s => subject s = k /\ wildcard s = false) l) /\
  Forall (fun s => wildcard s = true) (wildcards i).

(** Every subscription has a legal filter, and none is there twice. *)
Definition bag_wf (l : list Sub) : Prop :=
  Forall (fun s => made s /\ is_valid (subject s) = true) l /\ NoDup (sub_key <$> l).

Definition inner_wf (i : Inner) : Prop :=
  filed i /\ bag_wf (all_subs i) /\ total i = blen (all_subs i).

#[global] Instance bag_wf_Permutation : Proper ((≡ₚ) ==> iff) bag_wf.
Proof. intros l k H. unfold bag_wf. by rewrite H. Qed.

Lemma same_key s t : same s t = true <-> sub_key s = sub_key t.
Proof.
  unfold same, sub_key. split.
  - intros H. bool_to_prop. congruence.
  - intros [= -> -> ->]. by rewrite !bool_decide_true.
Qed.

Lemma retain_keys_NoDup p l : NoDup (sub_key <$> l) -> NoDup (sub_key <$> retain p l).
Proof.
  induction l as [| s l IH]; simpl; [done |]. rewrite NoDup_cons. intros [Hs Hl].
  destruct (p s); [| by apply IH]. simpl. apply NoDup_cons. split; [| by apply IH].
  intros (t & Ht & Hin)%list_elem_of_fmap. apply elem_of_retain in Hin as [Hin _].
  apply Hs, list_elem_of_fmap. eauto.
Qed.

Lemma bag_wf_step l op : bag_wf l -> op_made op -> bag_wf (bag_step l op).
Proof.
  intros [Hall Hnd] Hop.
  assert (Hret : forall p, bag_wf (retain p l)).
  { intros p. split; [| by apply retain_keys_NoDup]. rewrite Forall_forall in *.
    intros s [Hs _]%elem_of_retain. by apply Hall. }
  destruct op as [sub | sub | c]; simpl; [| apply Hret | apply Hret].
  destruct (_ && _) eqn:E; [| done]. bool_to_prop. split.
  - by constructor.
  - simpl. apply NoDup_cons. split; [| done]. intros (s & Hk & Hs)%list_elem_of_fmap.
    rewrite existsb_false in H0. specialize (H0 s Hs).
    by rewrite (proj2 (same_key s sub)) in H0 by done.
Qed.

Lemma filed_literal i k s :
  filed i -> s ∈ default [] (literal i !! k) -> subject s = k /\ wildcard s = false.
Proof.
  intros [Hl _]. destruct (literal i !! k) as [l |] eqn:E; simpl; [| by intros ?%not_elem_of_nil].
  destruct (Hl _ _ E) as [_ Hf]. rewrite Forall_forall in Hf. auto.
Qed.

Lemma filed_elsewhere i k s :
  filed i -> s ∈ lit_subs (delete k (literal i)) -> subject s <> k /\ wildcard s = false.
Proof.
  intros [Hl _] (k' & l & Hk & Hs)%elem_of_lit_subs.
  apply lookup_delete_Some in Hk as [Hne Hk]. destruct (Hl _ _ Hk) as [_ Hf].
  rewrite Forall_forall in Hf. destruct (Hf s Hs) as [<- ?]. done.
Qed.

Lemma filed_lit i s : filed i -> s ∈ lit_subs (literal i) -> wildcard s = false.
Proof.
  intros [Hl _] (k & l & Hk & Hs)%elem_of_lit_subs.
  destruct (Hl _ _ Hk) as [_ Hf]. rewrite Forall_forall in Hf. by apply Hf.
Qed.

Lemma filed_wild i s : filed i -> s ∈ wildcards i -> wildcard s = true.
Proof. intros [_ Hw]. rewrite Forall_forall in Hw. auto. Qed.

Lemma all_subs_split i k :
  all_subs i ≡ₚ default [] (literal i !! k) ++ lit_subs (delete k (literal i)) ++ wildcards i.
Proof. unfold all_subs. by rewrite (lit_subs_default k), <- (assoc_L (++)). Qed.

(** A subscription that is the same as another is filed where the other would be. *)
Lemma same_in_bucket i sub :
  inner_wf i -> made sub ->
  existsb (fun s => same s sub) (all_subs i) =
  existsb (fun s => same s sub)
    (if wildcard sub then wildcards i else default [] (literal i !! subject sub)).
Proof.
  intros (Hf & [Hm _] & _) [Hw _]. rewrite Forall_forall in Hm.
  assert (Hkind : forall s, s ∈ all_subs i -> same s sub = true -> wildcard s = wildcard sub).
  { intros s Hs [= _ Hk _]%same_key. destruct (Hm s Hs) as [[-> _] _]. by rewrite Hw, Hk. }
  destruct (wildcard sub) eqn:E.
  - unfold all_subs in *. rewrite existsb_app. 
    replace (existsb _ (lit_subs _)) with false; [done |]. symmetry. apply existsb_false.
    intros s Hs. destruct (same s sub) eqn:Es; [| done].
    assert (wildcard s = true) by (apply Hkind; [apply elem_of_app; by left | done]).
    by rewrite (filed_lit i s) in *.
  - rewrite (existsb_Permutation _ _ _ (all_subs_split i (subject sub))), !existsb_app.
    replace (existsb _ (lit_subs _)) with false.
    2: { symmetry. apply existsb_false. intros s [Hs _]%(filed_elsewhere i); [| done].
         unfold same. rewrite (bool_decide_false (subject s = _)) by done. by rewrite andb_false_r. }
    replace (existsb _ (wildcards i)) with false; [by rewrite !orb_false_r |].
    symmetry. apply existsb_false. intros s Hs. destruct (same s sub) eqn:Es; [| done].
    assert (wildcard s = false) by (apply Hkind; [apply elem_of_app; by right | done]).
    by rewrite (filed_wild i s) in *.
Qed.

Lemma filed_set_literal i k l t :
  filed i -> l <> [] -> Forall (fun s => subject s = k /\ wildcard s = false) l ->
  filed (mkInner (<[k := l]> (literal i)) (wildcards i) t).
Proof.
  intros [Hl Hw] Hne Hall. split; [| done]. intros k' l' H. simpl in H.
  apply lookup_insert_Some in H as [[<- <-] | [_ H]]; [done | by apply Hl].
Qed.

Lemma inner_insert_correct i sub :
  inner_wf i -> made sub -> is_valid (subject sub) = true ->
  (blen (all_subs i) + 1 < u64_modulus)%Z ->
  let (i', added) := inner_insert i sub in
  inner_wf i' /\ all_subs i' ≡ₚ bag_step (all_subs i) (Op_insert sub) /\
  (added = false -> i' = i).
Proof.
  intros Hwf Hm Hv Hmax. pose proof Hwf as (Hf & Hb & Ht).
  pose proof (bag_wf_step _ (Op_insert sub) Hb Hm) as Hb'.
  pose proof (same_in_bucket i sub Hwf Hm) as Hsame.
  pose proof (blen_nonneg (all_subs i)).
  simpl in Hb' |- *. rewrite Hv in *. unfold inner_insert. simpl in Hb' |- *. rewrite Hsame in *.
  rewrite (wrap64_small (total i + 1)) by (unfold in_u64; lia).
  destruct (wildcard sub) eqn:Hw; (destruct (existsb _ _) eqn:He in Hb' |- *; rewrite ?He in *; simpl in Hb' |- *).
  - done.
  - assert (Hp : all_subs (mkInner (literal i) (wildcards i ++ [sub]) (total i + 1)) ≡ₚ sub :: all_subs i).
    { unfold all_subs. simpl. by rewrite (assoc_L (++)), <- Permutation_cons_append. }
    split_and!; [| done | done]. split_and!.
    + destruct Hf as [Hl Hws]. split; [done |]. simpl. apply Forall_app. split; [done |]. by constructor.
    + by rewrite Hp.
    + rewrite (blen_Permutation _ _ Hp), blen_cons. simpl. lia.
  - assert (Hid : mkInner (<[subject sub := default [] (literal i !! subject sub)]> (literal i))
                    (wildcards i) (total i) = i).
    { destruct (literal i !! subject sub) as [l |] eqn:El; [| done]. simpl.
      rewrite insert_id by done. by destruct i. }
    rewrite Hid. done.
  - set (l := default [] (literal i !! subject sub)) in *.
    assert (Hp : all_subs (mkInner (<[subject sub := l ++ [sub]]> (literal i)) (wildcards i) (total i + 1))
                 ≡ₚ sub :: all_subs i).
    { rewrite (all_subs_split i (subject sub)). unfold all_subs. simpl. rewrite lit_subs_insert.
      fold l. rewrite <- !(assoc_L (++)). simpl. symmetry. apply Permutation_middle. }
    split_and!; [| done | done]. split_and!.
    + apply filed_set_literal; [done | by destruct l |]. apply Forall_app. split; [| by repeat constructor].
      apply Forall_forall. intros s Hs. by apply (filed_literal i).
    + by rewrite Hp.
    + rewrite (blen_Permutation _ _ Hp), blen_cons. simpl. lia.
Qed.

Lemma total_after i i' gone :
  inner_wf i -> (blen (all_subs i) < u64_modulus)%Z -> (0 <= gone)%Z ->
  (gone + blen (all_subs i') = blen (all_subs i))%Z ->
  total i' = wrap64 (total i - gone) -> total i' = blen (all_subs i').
Proof.
  intros (_ & _ & Ht) Hmax H0 Hg ->. pose proof (blen_nonneg (all_subs i')).
  rewrite wrap64_small by (unfold in_u64; lia). lia.
Qed.

Definition removed_ok (i i' : Inner) (sub : Sub) : Prop :=
  inner_wf i' /\ all_subs i' ≡ₚ bag_step (all_subs i) (Op_remove sub).

(** A removal is correct if it leaves the subscriptions filed, has the right bag,
    and subtracts from the total what the bag lost. *)
Lemma removed_ok_intro i i' sub gone :
  inner_wf i -> made sub -> (blen (all_subs i) < u64_modulus)%Z ->
  filed i' -> all_subs i' ≡ₚ bag_step (all_subs i) (Op_remove sub) ->
  (0 <= gone)%Z -> (gone + blen (all_subs i') = blen (all_subs i))%Z ->
  total i' = wrap64 (total i - gone) -> removed_ok i i' sub.
Proof.
  intros Hwf Hm Hmax Hf Hp H0 Hg Ht. split; [| done]. pose proof Hwf as (_ & Hb & _). split_and!.
  - done.
  - rewrite Hp. by apply (bag_wf_step _ (Op_remove sub)).
  - by eapply total_after.
Qed.

Lemma remove_sub_wildcard i sub :
  inner_wf i -> made sub -> (blen (all_subs i) < u64_modulus)%Z -> wildcard sub = true ->
  removed_ok i (remove_sub i sub) sub.
Proof.
  intros Hwf Hm Hmax Hw. pose proof Hwf as (Hf & _ & _).
  unfold remove_sub. rewrite Hw. cbn zeta.
  set (w := retain (fun s => negb (hit sub s)) (wildcards i)).
  apply (removed_ok_intro _ _ _ (blen (wildcards i) - blen w)); try done.
  - destruct Hf as [Hl Hws]. split; [done |]. simpl. rewrite Forall_forall in *.
    intros s [Hs _]%elem_of_retain. auto.
  - unfold all_subs. simpl. rewrite retain_app. f_equiv.
    + rewrite retain_all; [done |]. intros s Hs. unfold removes.
      by rewrite Hw, (filed_lit i s), andb_false_r.
    + subst w. erewrite retain_ext; [done |]. intros s Hs. unfold removes.
      by rewrite Hw, (filed_wild i s), andb_true_r.
  - subst w. pose proof (retain_le (fun s => negb (hit sub s)) (wildcards i)). lia.
  - unfold all_subs. simpl. rewrite !blen_app. lia.
Qed.

(** What is not filed under the subject of a literal subscription stays. *)
Lemma remove_literal_rest i sub :
  inner_wf i -> made sub -> wildcard sub = false ->
  let rest := lit_subs (delete (subject sub) (literal i)) ++ wildcards i in
  retain (fun s => negb (removes sub s)) rest = rest.
Proof.
  intros (Hf & [Hall _] & _) [Hk' _] Hw rest. apply retain_all. intros s Hs. unfold removes.
  rewrite Hw, (bool_decide_false (subject s = _)); [by rewrite andb_false_r |].
  apply elem_of_app in Hs as [Hs | Hs]; [by apply (filed_elsewhere i) in Hs as [? _] |].
  intros He. pose proof (filed_wild i s Hf Hs) as Hws. rewrite Forall_forall in Hall.
  destruct (Hall s) as [[Hk _] _]; [apply elem_of_app; by right |]. congruence.
Qed.

Lemma filed_replace i k l l' t :
  filed i -> literal i !! k = Some l -> (forall s, s ∈ l' -> s ∈ l) ->
  filed (mkInner (if is_empty l' then delete k (literal i) else <[k := l']> (literal i)) (wildcards i) t).
Proof.
  intros Hf El Hsub. destruct l' as [| s l'']; cbn [is_empty].
  - destruct Hf as [Hl Hws]. split; [| done]. intros k' l0 H. simpl in H. apply lookup_delete_Some in H as [_ H]. by apply Hl.
  - apply filed_set_literal; [done.. |]. apply Forall_forall. intros x Hx.
    apply (filed_literal i); [done |]. rewrite El. by apply Hsub.
Qed.

Lemma remove_sub_literal i sub :
  inner_wf i -> made sub -> (blen (all_subs i) < u64_modulus)%Z -> wildcard sub = false ->
  removed_ok i (remove_sub i sub) sub.
Proof.
  intros Hwf Hm Hmax Hw. pose proof Hwf as (Hf & _ & _).
  pose proof (remove_literal_rest i sub Hwf Hm Hw) as Hrest. cbn zeta in Hrest.
  pose proof (all_subs_split i (subject sub)) as Hsplit.
  unfold remove_sub. rewrite Hw. cbn zeta.
  destruct (literal i !! subject sub) as [l |] eqn:El; simpl in Hsplit.
  2: { apply (removed_ok_intro _ _ _ 0); try done. unfold all_subs at 1. simpl. by rewrite Hsplit, Hrest. }
  set (l' := retain (fun s => negb (hit sub s)) l). set (i' := mkInner _ _ _).
  assert (Hl' : all_subs i' ≡ₚ l' ++ lit_subs (delete (subject sub) (literal i)) ++ wildcards i).
  { unfold all_subs, i'. simpl. destruct l' as [| s l'']; [done |]. cbn [is_empty].
    by rewrite lit_subs_insert, <- (assoc_L (++)). }
  apply (removed_ok_intro _ _ _ (blen l - blen l')); try done.
  - apply (filed_replace i _ l); [done.. |]. by intros s [Hs _]%elem_of_retain.
  - simpl. rewrite Hl', Hsplit, retain_app, Hrest. f_equiv. subst l'. erewrite retain_ext; [done |].
    intros s Hs. destruct (filed_literal i (subject sub) s) as [Hk _]; [done | by rewrite El |].
    unfold removes. by rewrite Hw, Hk, bool_decide_true, andb_true_r.
  - pose proof (retain_le (fun s => negb (hit sub s)) l). subst l'. lia.
  - rewrite (blen_Permutation _ _ Hl'), (blen_Permutation _ _ Hsplit), !blen_app. lia.
Qed.

Lemma remove_sub_correct i sub :
  inner_wf i -> made sub -> (blen (all_subs i) < u64_modulus)%Z -> removed_ok i (remove_sub i sub) sub.
Proof.
  destruct (wildcard sub) eqn:Hw; intros; [by apply remove_sub_wildcard | by apply remove_sub_literal].
Qed.

Lemma remove_conn_correct r c :
  inner_wf (inner r) -> (blen (all_subs (inner r)) < u64_modulus)%Z ->
  inner_wf (inner (remove_conn r c)) /\
  all_subs (inner (remove_conn r c)) ≡ₚ bag_step (all_subs (inner r)) (Op_remove_conn c).
Proof.
  intros Hwf Hmax. pose proof Hwf as (Hf & Hb & _).
  set (p s := negb (bool_decide (conn s = c))). set (i := inner r) in *.
  set (gone := (literal_removed c (literal i) + (blen (wildcards i) - blen (retain p (wildcards i))))%Z).
  set (i' := mkInner (literal_without c (literal i)) (retain p (wildcards i)) (wrap64 (total i - gone))).
  assert (Hi : inner (remove_conn r c) = i').
  { unfold remove_conn. fold i. fold gone. cbn zeta. by destruct (negb _). }
  rewrite Hi. assert (Hp : all_subs i' ≡ₚ bag_step (all_subs i) (Op_remove_conn c)).
  { unfold all_subs, i', literal_without. simpl. by rewrite retain_lit_subs, retain_app. }
  assert (Hgone : gone = (blen (all_subs i) - blen (all_subs i'))%Z).
  { rewrite (blen_Permutation _ _ Hp). unfold gone, all_subs. simpl.
    rewrite retain_app, !blen_app, removed_lit_subs. fold p. lia. }
  split; [| done]. split_and!.
  - destruct Hf as [Hl Hws]. split.
    + intros k l H. simpl in H. apply map_lookup_filter_Some in H as (Hk & Hne). split; [done |].
      apply lookup_fmap_Some in Hk as (l0 & <- & Hk). destruct (Hl _ _ Hk) as [_ Hall].
      rewrite Forall_forall in *. intros s [Hs _]%elem_of_retain. auto.
    + simpl. rewrite Forall_forall in *. intros s [Hs _]%elem_of_retain. auto.
  - rewrite Hp. by apply (bag_wf_step _ (Op_remove_conn c)).
  - apply (total_after i i' gone); [done | done | | lia | done].
    rewrite Hgone, (blen_Permutation _ _ Hp). simpl. pose proof (retain_le p (all_subs i)).
    unfold p in *. lia.
Qed.

Lemma reg_step_correct r op :
  inner_wf (inner r) -> op_made op -> (blen (all_subs (inner r)) + 1 < u64_modulus)%Z ->
  inner_wf (inner (reg_step r op)) /\
  all_subs (inner (reg_step r op)) ≡ₚ bag_step (all_subs (inner r)) op.
Proof.
  intros Hwf Hop Hmax. destruct op as [sub | sub | c]; simpl in Hop |- *.
  - unfold insert. destruct (is_valid (subject sub)) eqn:Hv; simpl; [| by rewrite ?Hv].
    pose proof (inner_insert_correct (inner r) sub Hwf Hop Hv Hmax) as H. simpl in H. rewrite Hv in H.
    destruct (inner_insert (inner r) sub) as [i []]; simpl; by destruct H as (? & ? & _).
  - apply remove_sub_correct; [done.. | lia].
  - apply remove_conn_correct; [done | lia].
Qed.

Lemma bag_step_length l op : (blen (bag_step l op) <= blen l + 1)%Z.
Proof.
  destruct op as [sub | sub | c]; simpl.
  - destruct (_ && _); autorewrite with nats; lia.
  - pose proof (retain_le (fun s => negb (removes sub s)) l). lia.
  - pose proof (retain_le (fun s => negb (bool_decide (conn s = c))) l). lia.
Qed.

Lemma inner_new_wf : inner_wf inner_new.
Proof.
  split_and!; [split; simpl; [| done] | split; simpl; [done | constructor] | done].
  intros k l H. by rewrite lookup_empty in H.
Qed.

Definition reg_run (r : Registry) (ops : list RegOp) : Registry := foldl reg_step r ops.
Definition bag_run (l : list Sub) (ops : list RegOp) : list Sub := foldl bag_step l ops.

Lemma bag_run_Permutation l k ops : l ≡ₚ k -> bag_run l ops ≡ₚ bag_run k ops.
Proof.
  revert l k. induction ops as [| op ops IH]; intros l k H; simpl; [done |].
  apply IH. by apply bag_step_Permutation.
Qed.

Lemma reg_run_correct r ops :
  inner_wf (inner r) -> Forall op_made ops ->
  (blen (all_subs (inner r)) + blen ops < u64_modulus)%Z ->
  inner_wf (inner (reg_run r ops)) /\
  all_subs (inner (reg_run r ops)) ≡ₚ bag_run (all_subs (inner r)) ops.
Proof.
  intros Hwf Hops. revert r Hwf. induction Hops as [| op ops Hop Hops IH]; intros r Hwf Hmax; simpl; [done |].
  rewrite blen_cons in Hmax. pose proof (blen_nonneg ops).
  destruct (reg_step_correct r op Hwf Hop ltac:(lia)) as [Hwf' Hp].
  pose proof (bag_step_length (all_subs (inner r)) op).
  destruct (IH (reg_step r op) Hwf') as [H1 H2]; [rewrite (blen_Permutation _ _ Hp); lia |].
  split; [done |]. unfold reg_run in *. rewrite H2. by apply bag_run_Permutation.
Qed.

(** Literal subscriptions match their own subject and no other. *)
Lemma matching_literal i subj :
  inner_wf i ->
  retain (fun s => matches (subject s) subj) (lit_subs (literal i)) ≡ₚ default [] (literal i !! subj).
Proof.
  intros (Hf & [Hall _] & _). rewrite Forall_forall in Hall.
  assert (Hm : forall s, s ∈ lit_subs (literal i) -> matches (subject s) subj = bool_decide (subject s = subj)).
  { intros s Hs. apply matches_literal. destruct (Hall s) as [[<- _] _]; [apply elem_of_app; by left |].
    by apply (filed_lit i). }
  rewrite (retain_ext _ _ _ Hm), (lit_subs_default subj), retain_app.
  rewrite retain_all, retain_none; [by rewrite app_nil_r | |].
  - intros s [Hs _]%(filed_elsewhere i); [by apply bool_decide_false | done].
  - intros s [Hs _]%(filed_literal i); [by apply bool_decide_true | done].
Qed.

Lemma resolve_subs_correct r subj :
  inner_wf (inner r) ->
  resolve_subs r subj ≡ₚ retain (fun s => matches (subject s) subj) (all_subs (inner r)).
Proof. intros Hwf. unfold resolve_subs, all_subs. by rewrite retain_app, matching_literal. Qed.

Lemma retain_retain p q l : retain p (retain q l) = retain (fun s => p s && q s) l.
Proof.
  induction l as [| s l IH]; simpl; [done |].
  destruct (q s); simpl; rewrite ?andb_true_r, ?andb_false_r, ?IH; [| done]. by destruct (p s).
Qed.

Lemma matching_of_correct r c subj :
  inner_wf (inner r) ->
  matching_of r c subj ≡ₚ
  retain (fun s => bool_decide (conn s = c) && matches (subject s) subj) (all_subs (inner r)).
Proof.
  intros Hwf. rewrite <- (retain_retain (fun s => bool_decide (conn s = c))), <- resolve_subs_correct by done.
  unfold matching_of, resolve_subs. by rewrite retain_app, retain_retain.
Qed.

(** C9: the registry refines a bag of subscriptions.  After any sequence of
    [insert], [remove] and [remove_conn] (fewer than 2^64 of them), it holds exactly
    what a bag updated by the same operations holds; [total] is the number of
    subscriptions and never wraps; [resolve] answers exactly the subscriptions whose
    filter matches the subject, and [matching_of] those of one connection. *)
Theorem registry_refines_bag seed ops subj c :
  Forall op_made ops -> (blen ops < u64_modulus)%Z ->
  let r := reg_run (registry_new seed) ops in
  let bag := bag_run [] ops in
  inner_wf (inner r) /\ all_subs (inner r) ≡ₚ bag /\ subscription_count r = blen bag /\
  resolve_subs r subj ≡ₚ retain (fun s => matches (subject s) subj) bag /\
  matching_of r c subj ≡ₚ retain (fun s => bool_decide (conn s = c) && matches (subject s) subj) bag.
Proof.
  intros Hops Hmax r bag.
  destruct (reg_run_correct (registry_new seed) ops inner_new_wf Hops) as [Hwf Hp]; [done |].
  fold r in Hwf, Hp. change (bag_run _ ops) with bag in Hp. pose proof Hwf as (_ & _ & Ht).
  split_and!; [done | done | | |].
  - unfold subscription_count. by rewrite Ht, (blen_Permutation _ _ Hp).
  - by rewrite resolve_subs_correct, Hp.
  - by rewrite matching_of_correct, Hp.
Qed.

(** ** Witnesses *)

Definition sub_a : Sub := sub_new 0 (bs "a.b") None (bs "1") 0.
Definition sub_w : Sub := sub_new 1 (bs "a.*") (Some (bs "q")) (bs "2") 1.
Definition sub_q : Sub := sub_new 2 (bs "a.>") (Some (bs "q")) (bs "3") 2.

Lemma made_new ref subj q s c : made (sub_new ref subj q s c).
Proof. done. Qed.

Lemma registry_refines_bag_witness :
  let ops := [Op_insert sub_a; Op_insert sub_w; Op_insert sub_q; Op_insert sub_a; Op_remove sub_q] in
  let r := reg_run (registry_new 7) ops in
  let bag := bag_run [] ops in
  inner_wf (inner r) /\ all_subs (inner r) ≡ₚ bag /\ subscription_count r = blen bag /\
  resolve_subs r (bs "a.b") ≡ₚ retain (fun s => matches (subject s) (bs "a.b")) bag /\
  matching_of r 1 (bs "a.b") ≡ₚ
    retain (fun s => bool_decide (conn s = 1) && matches (subject s) (bs "a.b")) bag.
Proof.
  intros ops r bag. apply (registry_refines_bag 7 ops (bs "a.b") 1); [by repeat constructor | done].
Defined.
