(* ===== verification/Interest.v ===== *)
(** * The interest cache (crates/server/src/routing.rs, [Interest])

    What the last publish of a task resolved to, reused while the registry's
    generation has not moved. *)

From Stdlib Require Import String Strings.Byte.
From stdpp Require Import fin_maps.
From S2P Require Import Prelude Subjects Nuid Frames Registry.

(** ** Definitions *)

Record Interest := mkInterest {
  in_generation : Z;
  in_subject : bytes;
  in_subs : list Sub;
  in_queue : bool;
  in_chosen : list Sub;
  in_groups : list bytes }.

Definition interest_new : Interest := mkInterest usize_max [] [] false [] [].

Definition resolve (r : Registry) (subj : bytes) (i : Interest) : Interest :=
  let subs := resolve_subs r subj in
  mkInterest (generation r) subj subs (existsb queued subs) (in_chosen i) (in_groups i).

(** The first lines of [route]: the cache is used unless it is stale or about
    another subject. *)
Definition refresh (r : Registry) (subj : bytes) (i : Interest) : Interest :=
  if negb (in_generation i =? generation r)%Z || bool_decide (in_subject i <> subj)
  then resolve r subj i else i.

(** ** Lemmas *)

Lemma retain_same_length p l : blen (retain p l) = blen l -> retain p l = l.
Proof.
  induction l as [| s l IH]; simpl; [done |]. pose proof (retain_le p l).
  destruct (p s); autorewrite with nats; intros H'; [| lia]. f_equal. apply IH. lia.
Qed.

(** A [remove_conn] that removes nothing changes nothing. *)
Lemma remove_conn_nothing i c :
  filed i ->
  (literal_removed c (literal i) +
   (blen (wildcards i) - blen (retain (fun s => negb (bool_decide (conn s = c))) (wildcards i))) = 0)%Z ->
  literal_without c (literal i) = literal i /\
  retain (fun s => negb (bool_decide (conn s = c))) (wildcards i) = wildcards i.
Proof.
  intros [Hl _] H. set (p s := negb (bool_decide (conn s = c))) in *.
  rewrite removed_lit_subs in H. fold p in H.
  pose proof (retain_le p (wildcards i)). pose proof (retain_le p (lit_subs (literal i))).
  assert (Hlit : retain p (lit_subs (literal i)) = lit_subs (literal i)) by (apply retain_same_length; lia).
  split; [| apply retain_same_length; lia]. unfold literal_without. fold p.
  assert (Hid : retain p <$> literal i = literal i).
  { rewrite <- (map_fmap_id (literal i)) at 2. apply map_fmap_ext. intros k l Hk. simpl.
    apply retain_all. intros s Hs.
    assert (Hin : s ∈ retain p (lit_subs (literal i))) by (rewrite Hlit; apply elem_of_lit_subs; eauto).
    by apply elem_of_retain in Hin as [_ ?]. }
  rewrite Hid. apply map_filter_id. intros k l Hk. by apply (Hl k l).
Qed.

(** Either an operation leaves the subscriptions alone, or it bumps the generation. *)
Lemma reg_step_generation r op :
  inner_wf (inner r) -> op_made op -> (blen (all_subs (inner r)) + 1 < u64_modulus)%Z ->
  (generation (reg_step r op) = generation r /\
   forall subj, resolve_subs (reg_step r op) subj = resolve_subs r subj) \/
  generation (reg_step r op) = wrap64 (generation r + 1).
Proof.
  intros Hwf Hop Hmax. destruct op as [sub | sub | c]; simpl in Hop |- *; [| by right |].
  - unfold insert. destruct (is_valid (subject sub)) eqn:Hv; simpl; [| by left].
    pose proof (inner_insert_correct (inner r) sub Hwf Hop Hv Hmax) as H.
    destruct (inner_insert (inner r) sub) as [i []]; simpl; [by right |].
    left. destruct H as (_ & _ & ->); [done |]. by destruct r.
  - unfold remove_conn. destruct (negb _) eqn:E; simpl; [by right |]. left. bool_to_prop.
    split; [done |]. destruct Hwf as (Hf & _ & _).
    destruct (remove_conn_nothing (inner r) c Hf E) as [H1 H2].
    intros subj. unfold resolve_subs. simpl. by rewrite H1, H2.
Qed.

(** A cache is stale or empty, or it holds what [resolve] would answer now. *)
Definition coherent (r : Registry) (i : Interest) : Prop :=
  in_generation i = usize_max \/
  (in_generation i <= generation r)%Z /\
  (in_generation i = generation r ->
   in_subs i = resolve_subs r (in_subject i) /\ in_queue i = existsb queued (in_subs i)).

Lemma coherent_step r op i :
  inner_wf (inner r) -> op_made op -> (blen (all_subs (inner r)) + 1 < u64_modulus)%Z ->
  (0 <= generation r)%Z -> (generation r + 1 < u64_modulus)%Z ->
  coherent r i -> coherent (reg_step r op) i.
Proof.
  intros Hwf Hop Hmax H0 Hgen [Hi | [Hle Hc]]; [by left |]. right.
  destruct (reg_step_generation r op Hwf Hop Hmax) as [[-> Hs] | ->].
  - split; [done |]. intros Heq. rewrite Hs. auto.
  - rewrite wrap64_small by (unfold in_u64; lia). split; [lia |]. intros ?. lia.
Qed.

Lemma resolve_coherent r subj i : coherent r (resolve r subj i).
Proof. right. split; [done |]. intros _. done. Qed.

Lemma refresh_coherent r subj i : coherent r i -> coherent r (refresh r subj i).
Proof. intros H. unfold refresh. destruct (_ || _); [apply resolve_coherent | done]. Qed.

(** With a coherent cache, [refresh] answers what [resolve] would. *)
Lemma refresh_correct r subj i :
  coherent r i -> generation r <> usize_max ->
  in_subject (refresh r subj i) = subj /\ in_subs (refresh r subj i) = resolve_subs r subj /\
  in_queue (refresh r subj i) = existsb queued (resolve_subs r subj).
Proof.
  intros Hc Hmax. unfold refresh. destruct (_ || _) eqn:E; [done |].
  apply orb_false_iff in E as [E1 E2]. bool_to_prop. apply dec_stable in E2. subst subj.
  destruct Hc as [Hc | [_ Hc]]; [congruence |]. destruct (Hc E1) as [-> ->]. by split_and!.
Qed.

(** A registry that is a later state of another, at most [n] generations on: no
    cache that was coherent has become wrong. *)
Definition evolves (r r' : Registry) (n : Z) : Prop :=
  (generation r <= generation r' <= generation r + n)%Z /\
  forall i, coherent r i -> coherent r' i.

Lemma evolves_refl r n : (0 <= n)%Z -> evolves r r n.
Proof. intros Hn. split; [lia | done]. Qed.

Lemma evolves_trans r1 r2 r3 n k : evolves r1 r2 n -> evolves r2 r3 k -> evolves r1 r3 (n + k).
Proof. intros [H1 H2] [H3 H4]. split; [lia | auto]. Qed.

Lemma evolves_weaken r r' n k : evolves r r' n -> (n <= k)%Z -> evolves r r' k.
Proof. intros [H1 H2] Hk. split; [lia | done]. Qed.

Lemma evolves_step r op :
  inner_wf (inner r) -> op_made op -> (blen (all_subs (inner r)) + 1 < u64_modulus)%Z ->
  (0 <= generation r)%Z -> (generation r + 1 < u64_modulus)%Z -> evolves r (reg_step r op) 1.
Proof.
  intros Hwf Hop Hmax H0 Hgen. split; [| intros i; by apply coherent_step].
  destruct (reg_step_generation r op Hwf Hop Hmax) as [[-> _] | ->]; [lia |].
  rewrite wrap64_small by (unfold in_u64; lia). lia.
Qed.

(** A bumped generation invalidates every cache. *)
Lemma evolves_changed r r' :
  generation r' = wrap64 (generation r + 1) -> (0 <= generation r)%Z ->
  (generation r + 1 < u64_modulus)%Z -> evolves r r' 1.
Proof.
  intros Hg H0 Hmax. rewrite wrap64_small in Hg by (unfold in_u64; lia). split; [lia |].
  intros i [Hi | [Hi _]]; [by left |]. right. split; [lia |]. intros ?. lia.
Qed.

Lemma evolves_same r r' n :
  inner r' = inner r -> generation r' = generation r -> (0 <= n)%Z -> evolves r r' n.
Proof.
  intros Hi Hg Hn. split; [lia |]. intros i Hc. unfold coherent, resolve_subs in *. by rewrite Hi, Hg.
Qed.

(** The registry with the caches of several publishing tasks. *)
Inductive CacheOp :=
| Co_reg (op : RegOp)
| Co_lookup (task : nat) (subj : bytes).

Definition cache_of (caches : gmap nat Interest) (task : nat) : Interest :=
  default interest_new (caches !! task).

Definition cache_step (st : Registry * gmap nat Interest) (op : CacheOp) : Registry * gmap nat Interest :=
  match op with
  | Co_reg op => (reg_step st.1 op, st.2)
  | Co_lookup task subj => (st.1, <[task := refresh st.1 subj (cache_of st.2 task)]> st.2)
  end.

Definition reg_ops (ops : list CacheOp) : list RegOp :=
  omap (fun op => match op with Co_reg op => Some op | Co_lookup _ _ => None end) ops.

Definition cache_inv (st : Registry * gmap nat Interest) (n : Z) : Prop :=
  inner_wf (inner st.1) /\ (blen (all_subs (inner st.1)) <= n)%Z /\ (0 <= generation st.1 <= n)%Z /\
  forall task, coherent st.1 (cache_of st.2 task).

Lemma cache_step_inv st op n :
  cache_inv st n -> Forall op_made (reg_ops [op]) -> (n + 1 < u64_modulus)%Z ->
  cache_inv (cache_step st op) (n + 1).
Proof.
  intros (Hwf & Hlen & Hgen & Hco) Hop Hmax. destruct op as [op | task subj]; simpl.
  - inversion Hop; subst. destruct (reg_step_correct st.1 op) as [Hwf' Hp]; [done | done | lia |].
    pose proof (bag_step_length (all_subs (inner st.1)) op).
    split_and!; [done | simpl; rewrite (blen_Permutation _ _ Hp); lia | | |].
    1, 2: cbn [fst]; destruct (reg_step_generation st.1 op) as [[-> _] | ->];
      [done | done | lia | lia | rewrite wrap64_small by (unfold in_u64; lia); lia].
    intros task. apply coherent_step; [done | done | lia | lia | lia | apply Hco].
  - split_and!; [done | simpl; lia | simpl; lia | simpl; lia |]. intros task'. simpl.
    unfold cache_of. destruct (decide (task = task')) as [<- | Hne].
    + rewrite lookup_insert_eq. simpl. apply refresh_coherent, Hco.
    + rewrite lookup_insert_ne by done. apply Hco.
Qed.

Lemma cache_run_inv ops st n :
  cache_inv st n -> Forall op_made (reg_ops ops) -> (n + blen ops < u64_modulus)%Z ->
  cache_inv (foldl cache_step st ops) (n + blen ops) /\
  (foldl cache_step st ops).1 = reg_run st.1 (reg_ops ops).
Proof.
  revert st n. induction ops as [| op ops IH]; intros st n Hinv Hops Hmax; simpl.
  { rewrite blen_nil, Z.add_0_r. done. }
  rewrite blen_cons in Hmax |- *. pose proof (blen_nonneg ops).
  assert (Hsplit : reg_ops (op :: ops) = reg_ops [op] ++ reg_ops ops) by (destruct op; done).
  rewrite Hsplit in Hops. apply Forall_app in Hops as [Hop Hops].
  destruct (IH (cache_step st op) (n + 1)%Z) as [H1 H2];
    [apply cache_step_inv; [done.. | lia] | done | lia |].
  split; [by replace (n + (1 + blen ops))%Z with (n + 1 + blen ops)%Z by lia |].
  rewrite H2. destruct op; done.
Qed.

(** The interest caches are never stale.  However the subscription changes of
    all connections interleave with the publishes of several tasks, each with its
    own cache, a publish is routed to exactly the subscriptions that match its
    subject at that moment (for fewer than 2^64 - 1 operations, the bound the
    generation counter has). *)
Lemma interest_cache_coherent seed ops task subj :
  Forall op_made (reg_ops ops) -> (blen ops < usize_max)%Z ->
  let st := foldl cache_step (registry_new seed, ∅) ops in
  let i := refresh st.1 subj (cache_of st.2 task) in
  in_subs i = resolve_subs st.1 subj /\ in_queue i = existsb queued (in_subs i) /\
  in_subs i ≡ₚ retain (fun s => matches (subject s) subj) (bag_run [] (reg_ops ops)).
Proof.
  intros Hops Hmax st i. unfold usize_max in Hmax.
  assert (Hinit : cache_inv (registry_new seed, ∅) 0).
  { split_and!; [apply inner_new_wf | done | done | done |]. intros t. by left. }
  destruct (cache_run_inv ops _ 0 Hinit Hops) as [Hinv Hrun]; [lia |]. fold st in Hinv, Hrun.
  destruct Hinv as (Hwf & _ & Hgen & Hco).
  destruct (refresh_correct st.1 subj (cache_of st.2 task)) as (_ & H1 & H2);
    [apply Hco | unfold usize_max; lia |]. fold i in H1, H2.
  split_and!; [done | by rewrite H1 |]. rewrite H1, resolve_subs_correct by done. rewrite Hrun.
  destruct (reg_run_correct (registry_new seed) (reg_ops ops) inner_new_wf Hops) as [_ Hp].
  - change (blen (all_subs _)) with 0%Z. assert (blen (reg_ops ops) <= blen ops)%Z; [| lia].
    unfold blen. apply inj_le. clear. induction ops as [| [] ops IH]; simpl; lia.
  - by rewrite Hp.
Qed.

Lemma interest_cache_coherent_witness :
  let ops := [Co_reg (Op_insert sub_a); Co_lookup 5 (bs "a.b"); Co_reg (Op_insert sub_w);
              Co_lookup 5 (bs "a.b"); Co_lookup 6 (bs "x")] in
  let st := foldl cache_step (registry_new 7, ∅) ops in
  let i := refresh st.1 (bs "a.b") (cache_of st.2 5) in
  in_subs i = resolve_subs st.1 (bs "a.b") /\ in_queue i = existsb queued (in_subs i) /\
  in_subs i ≡ₚ retain (fun s => matches (subject s) (bs "a.b")) (bag_run [] (reg_ops ops)).
Proof.
  intros ops st i. apply (interest_cache_coherent 7 ops 5 (bs "a.b")); [by repeat constructor | done].
Defined.

