(* ===== verification/QueueGroups.v ===== *)
(** * Queue groups (crates/server/src/routing.rs, [pick_groups])

    Narrowing the subscriptions a message matched to one member per queue group. *)

From Stdlib Require Import String Strings.Byte.
From stdpp Require Import fin_maps.
From S2P Require Import Prelude Subjects Nuid Frames Registry Interest.

(** ** Definitions *)

(** The indices, from [i] on, of the members of group [g]. *)
Definition group_members (subs : list Sub) (i : nat) (g : bytes) : list nat :=
  List.filter (fun k => bool_decide (queue <$> subs !! k = Some (Some g)))
              (seq i (length subs - i)).

(** The members in the order they are probed: from a random one on, round robin. *)
Definition probe_order (start : Z) (members : list nat) : list nat :=
  map (fun k => default 0 (members !! Z.to_nat (wrap64 (start + Z.of_nat k) mod blen members)))
      (seq 0 (length members)).

Section PickGroups.

(** [Sub::eligible] for the publisher, and [Conn::has_room] of the subscriber. *)
Context (eligible room : Sub -> bool).

Definition at_index (subs : list Sub) (p : Sub -> bool) (k : nat) : bool :=
  from_option p false (subs !! k).

Definition pick_member (start : Z) (subs : list Sub) (members : list nat) : option nat :=
  let probe p := List.find (at_index subs p) (probe_order start members) in
  match probe (fun s => eligible s && room s) with
  | Some k => Some k
  | None => probe eligible
  end.

(** The loop over the subscriptions, from index [i] on, of which [rest] are left. *)
Fixpoint pick_loop (start : Z) (subs : list Sub) (i : nat) (rest : list Sub)
    (out : list Sub) (groups : list bytes) : list Sub * list bytes :=
  match rest with
  | [] => (out, groups)
  | s :: rest' =>
      match queue s with
      | None => pick_loop start subs (S i) rest' (out ++ [s]) groups
      | Some g =>
          if existsb (fun seen => bool_decide (seen = g)) groups
          then pick_loop start subs (S i) rest' out groups
          else
            let out' :=
              match pick_member start subs (group_members subs i g) with
              | Some k => out ++ option_list (subs !! k)
              | None => out
              end in
            pick_loop start subs (S i) rest' out' (groups ++ [g])
      end
  end.

(** [pick_groups]: the registry with its generator advanced, and the cache with
    [chosen] and [groups] filled. *)
Definition pick_groups (r : Registry) (i : Interest) : Registry * Interest :=
  let (rng', start) := next_u64 (rng r) in
  let (out, groups) := pick_loop start (in_subs i) 0 (in_subs i) [] [] in
  (mkRegistry (inner r) rng' (generation r),
   mkInterest (in_generation i) (in_subject i) (in_subs i) (in_queue i) out groups).

End PickGroups.

(** ** Lemmas *)

Definition plain (s : Sub) : bool := bool_decide (queue s = None).
Definition in_group (g : bytes) (s : Sub) : bool := bool_decide (queue s = Some g).

(** With no wrap-around of the start index, every member is probed. *)
Lemma elem_of_probe_order start members k :
  (0 <= start)%Z -> (start + blen members <= u64_modulus)%Z ->
  k ∈ probe_order start members <-> k ∈ members.
Proof.
  intros H0 Hmax. unfold probe_order. set (n := blen members) in *.
  assert (Hidx : forall j, (Z.of_nat j < n)%Z ->
            wrap64 (start + Z.of_nat j) = (start + Z.of_nat j)%Z).
  { intros j Hj. apply wrap64_small. unfold in_u64. lia. }
  change (map ?f) with (fmap (M := list) f). rewrite list_elem_of_fmap. split.
  - intros (j & -> & Hj). apply elem_of_seq in Hj. assert (Hn : (0 < n)%Z) by (unfold n, blen; lia).
    pose proof (Z.mod_pos_bound (wrap64 (start + Z.of_nat j)) n Hn) as Hb.
    destruct (lookup_lt_is_Some_2 members (Z.to_nat (wrap64 (start + Z.of_nat j) mod n))) as [m Hm].
    { unfold n, blen in *. lia. }
    rewrite Hm. by eapply list_elem_of_lookup_2.
  - intros (j & Hj)%list_elem_of_lookup_1. pose proof (lookup_lt_Some _ _ _ Hj) as Hlt.
    assert (Hn : (0 < n)%Z) by (unfold n, blen; lia).
    pose proof (Z.mod_pos_bound (Z.of_nat j - start) n Hn) as Hb.
    exists (Z.to_nat ((Z.of_nat j - start) mod n)). split.
    + rewrite Hidx, Z2Nat.id, Zplus_mod_idemp_r by (rewrite ?Z2Nat.id; lia).
      replace (start + (Z.of_nat j - start))%Z with (Z.of_nat j) by lia.
      rewrite Z.mod_small by (unfold n, blen; lia). by rewrite Nat2Z.id, Hj.
    + apply elem_of_seq. unfold n, blen in *. lia.
Qed.

Lemma elem_of_group_members subs i g k :
  k ∈ group_members subs i g <-> i <= k /\ exists s, subs !! k = Some s /\ queue s = Some g.
Proof.
  unfold group_members. rewrite list_elem_of_In, List.filter_In, <- list_elem_of_In, elem_of_seq.
  rewrite bool_decide_eq_true, fmap_Some. split.
  - intros [[? _] (s & ? & ?)]. eauto.
  - intros [Hi (s & Hs & Hq)]. pose proof (lookup_lt_Some _ _ _ Hs). split; [lia | eauto].
Qed.

Lemma length_group_members subs i g : (blen (group_members subs i g) <= blen subs)%Z.
Proof.
  unfold group_members, blen.
  pose proof (List.filter_length_le (fun k => bool_decide (queue <$> subs !! k = Some (Some g)))
                (seq i (length subs - i))) as H.
  rewrite length_seq in H. lia.
Qed.

(** The members from [i] on are the members among the subscriptions left. *)
Lemma group_members_rest subs i g s :
  (exists k, k ∈ group_members subs i g /\ subs !! k = Some s) <->
  s ∈ drop i subs /\ queue s = Some g.
Proof.
  split.
  - intros (k & [Hk (t & Ht & Hq)]%elem_of_group_members & Hs). simplify_eq. split; [| done].
    apply (list_elem_of_lookup_2 _ (k - i)). rewrite lookup_drop. by replace (i + (k - i)) with k by lia.
  - intros [(j & Hj)%list_elem_of_lookup_1 Hq]. rewrite lookup_drop in Hj. exists (i + j).
    split; [| done]. apply elem_of_group_members. split; [lia | eauto].
Qed.

Section PickSpec.

Context (eligible room : Sub -> bool) (start : Z) (subs : list Sub).
Context (Hstart : (0 <= start)%Z) (Hmax : (start + blen subs <= u64_modulus)%Z).

(** The choice a group [g] of [rest] is owed: one eligible member, with room if
    some eligible member has room; nobody only if nobody is eligible. *)
Definition group_choice (rest : list Sub) (g : bytes) (l : list Sub) : Prop :=
  (l = [] /\ forall t, t ∈ rest -> in_group g t = true -> eligible t = false) \/
  exists s, l = [s] /\ s ∈ rest /\ in_group g s = true /\ eligible s = true /\
    (room s = true \/ forall t, t ∈ rest -> in_group g t = true -> eligible t && room t = false).

Lemma find_members i g p :
  match List.find (at_index subs p) (probe_order start (group_members subs i g)) with
  | Some k => exists s, subs !! k = Some s /\ s ∈ drop i subs /\ in_group g s = true /\ p s = true
  | None => forall t, t ∈ drop i subs -> in_group g t = true -> p t = false
  end.
Proof.
  assert (Hpo : forall k, k ∈ probe_order start (group_members subs i g) <-> k ∈ group_members subs i g).
  { intros k. apply elem_of_probe_order; [done |]. pose proof (length_group_members subs i g). lia. }
  destruct (List.find _ _) as [k |] eqn:E.
  - apply List.find_some in E as [Hk Hp]. rewrite <- list_elem_of_In in Hk.
    apply Hpo in Hk. pose proof Hk as [_ (s & Hs & Hq)]%elem_of_group_members.
    exists s. unfold at_index in Hp. rewrite Hs in Hp. split; [done |].
    destruct (proj1 (group_members_rest subs i g s)) as [? ?]; [eauto |].
    split; [done |]. split; [by apply bool_decide_true | done].
  - intros t Ht Hg%bool_decide_eq_true.
    destruct (proj2 (group_members_rest subs i g t)) as (k & Hk & Hs); [done |].
    apply Hpo in Hk. rewrite list_elem_of_In in Hk. pose proof (List.find_none _ _ E k Hk) as Hn.
    unfold at_index in Hn. by rewrite Hs in Hn.
Qed.

Lemma pick_member_spec i g :
  group_choice (drop i subs) g
    (match pick_member eligible room start subs (group_members subs i g) with
     | Some k => option_list (subs !! k)
     | None => []
     end).
Proof.
  unfold pick_member. pose proof (find_members i g (fun s => eligible s && room s)) as H1.
  destruct (List.find (at_index subs (fun s => eligible s && room s)) _) as [k |].
  - destruct H1 as (s & -> & Hin & Hg & [He Hr]%andb_true_iff). right. exists s. auto 10.
  - pose proof (find_members i g eligible) as H2.
    destruct (List.find (at_index subs eligible) _) as [k |]; [| by left].
    destruct H2 as (s & -> & Hin & Hg & He). right. exists s. auto 10.
Qed.

(** What the loop adds to [out] for the subscriptions [rest]. *)
Definition picks_ok (rest : list Sub) (groups : list bytes) (picks : list Sub) : Prop :=
  retain plain picks = retain plain rest /\
  (forall g, g ∈ groups -> retain (in_group g) picks = []) /\
  (forall g, g ∉ groups -> group_choice rest g (retain (in_group g) picks)).

Lemma group_choice_cons s rest g l :
  in_group g s = false -> group_choice rest g l -> group_choice (s :: rest) g l.
Proof.
  assert (Hcons : forall p : Sub -> bool, in_group g s = false ->
    (forall t, t ∈ rest -> in_group g t = true -> p t = false) ->
    forall t, t ∈ s :: rest -> in_group g t = true -> p t = false).
  { intros p Hs Hp t [-> | Ht]%elem_of_cons Hg; [congruence | auto]. }
  intros Hs [[-> H] | (t & -> & Ht & Hg & He & Hr)]; [left; auto |].
  right. exists t. split_and!; try done; [by constructor |].
  destruct Hr as [| Hr]; [by left |]. right. intros u. apply (Hcons (fun u => eligible u && room u)); done.
Qed.

Lemma group_choice_members rest g l : group_choice rest g l -> retain plain l = [] /\
  retain (in_group g) l = l /\ forall h, h <> g -> retain (in_group h) l = [].
Proof.
  intros [[-> _] | (s & -> & _ & Hg & _)]; [done |]. simpl. rewrite Hg.
  unfold plain, in_group in *. bool_to_prop. rewrite bool_decide_false by congruence.
  split_and!; [done | done |]. intros h Hne. by rewrite bool_decide_false by congruence.
Qed.

Lemma not_in_group g h s : queue s = Some g -> h <> g -> in_group h s = false.
Proof. intros Hq Hh. apply bool_decide_false. congruence. Qed.

Lemma not_plain s g : queue s = Some g -> plain s = false.
Proof. intros Hq. apply bool_decide_false. congruence. Qed.

(** A plain subscription is kept. *)
Lemma picks_ok_plain s rest groups picks :
  queue s = None -> picks_ok rest groups picks -> picks_ok (s :: rest) groups (s :: picks).
Proof.
  intros Hq (H1 & H2 & H3).
  assert (Hnone : forall g, in_group g s = false) by (intros g; apply bool_decide_false; congruence).
  split_and!.
  - assert (Hs : plain s = true) by (by apply bool_decide_true). simpl. by rewrite Hs, H1.
  - intros g Hg. simpl. rewrite Hnone. auto.
  - intros g Hg. simpl. rewrite Hnone. apply group_choice_cons; auto.
Qed.

(** A further member of a group that was sampled is skipped. *)
Lemma picks_ok_seen s g rest groups picks :
  queue s = Some g -> g ∈ groups -> picks_ok rest groups picks -> picks_ok (s :: rest) groups picks.
Proof.
  intros Hq Hg (H1 & H2 & H3). split_and!; [| done |].
  - simpl. by rewrite (not_plain _ _ Hq).
  - intros h Hh. apply group_choice_cons; [eapply not_in_group; [done | congruence] | by apply H3].
Qed.

(** The first member of a group stands for the choice among all of them. *)
Lemma picks_ok_new s g rest groups l picks :
  queue s = Some g -> g ∉ groups -> group_choice (s :: rest) g l ->
  picks_ok rest (groups ++ [g]) picks -> picks_ok (s :: rest) groups (l ++ picks).
Proof.
  intros Hq Hnew Hpick (H1 & H2 & H3).
  destruct (group_choice_members _ _ _ Hpick) as (Hl1 & Hl2 & Hl3). split_and!.
  - simpl. by rewrite retain_app, Hl1, (not_plain _ _ Hq).
  - intros h Hh. rewrite retain_app, Hl3, H2; [done | apply elem_of_app; by left |]. by intros ->.
  - intros h Hh. rewrite retain_app. destruct (decide (h = g)) as [-> | Hne].
    + rewrite Hl2, H2, app_nil_r; [done |]. apply elem_of_app. right. by constructor.
    + rewrite Hl3 by done. apply group_choice_cons; [by eapply not_in_group |]. apply H3.
      intros [? | ?%list_elem_of_singleton]%elem_of_app; congruence.
Qed.

Lemma pick_loop_picks i rest out groups :
  drop i subs = rest ->
  exists picks, (pick_loop eligible room start subs i rest out groups).1 = out ++ picks /\
    picks_ok rest groups picks.
Proof.
  revert i out groups. induction rest as [| s rest IH]; intros i out groups Hdrop; simpl.
  { exists []. rewrite app_nil_r. split; [done |]. split_and!; [done | done |].
    intros g _. left. split; [done |]. by intros t ?%not_elem_of_nil. }
  assert (Hdrop' : drop (S i) subs = rest).
  { replace (S i) with (i + 1) by lia. by rewrite <- drop_drop, Hdrop. }
  destruct (queue s) as [g |] eqn:Hq.
  - destruct (existsb _ groups) eqn:E.
    + apply existsb_exists in E as (g' & Hg' & ->%bool_decide_eq_true). rewrite <- list_elem_of_In in Hg'.
      destruct (IH (S i) out groups Hdrop') as (picks & Hp & Hok).
      exists picks. split; [done |]. by eapply picks_ok_seen.
    + assert (Hnew : g ∉ groups).
      { intros Hin. rewrite list_elem_of_In in Hin. apply not_true_iff_false in E. apply E.
        apply existsb_exists. exists g. by rewrite bool_decide_true. }
      pose proof (pick_member_spec i g) as Hpick. rewrite Hdrop in Hpick.
      set (l := match pick_member _ _ _ _ _ with Some _ => _ | None => _ end) in Hpick.
      destruct (IH (S i) (out ++ l) (groups ++ [g]) Hdrop') as (picks & Hp & Hok).
      exists (l ++ picks). split; [| by eapply picks_ok_new].
      rewrite (assoc_L (++)), <- Hp. unfold l. destruct (pick_member _ _ _ _ _); [done |].
      by rewrite app_nil_r.
  - destruct (IH (S i) (out ++ [s]) groups Hdrop') as (picks & Hp & Hok).
    exists (s :: picks). rewrite Hp, <- (assoc_L (++)). split; [done |]. by apply picks_ok_plain.
Qed.

End PickSpec.

(** Whatever the start index, only subscriptions that matched are chosen. *)
Lemma pick_loop_subset eligible room start subs i rest out groups s :
  (forall t, t ∈ rest -> t ∈ subs) ->
  s ∈ (pick_loop eligible room start subs i rest out groups).1 -> s ∈ out \/ s ∈ subs.
Proof.
  revert i out groups. induction rest as [| t rest IH]; intros i out groups Hsub; simpl; [by left |].
  assert (Hrest : forall u, u ∈ rest -> u ∈ subs) by (intros u Hu; apply Hsub; by constructor).
  assert (Ht : t ∈ subs) by (apply Hsub; constructor).
  destruct (queue t) as [g |].
  - destruct (existsb _ groups); [by apply IH |]. intros Hs. apply IH in Hs; [| done].
    destruct Hs as [Hs | Hs]; [| by right].
    destruct (pick_member _ _ _ _ _) as [k |]; [| by left].
    apply elem_of_app in Hs as [Hs | Hs]; [by left |]. right.
    destruct (subs !! k) as [u |] eqn:Hk; simpl in Hs; [| by apply not_elem_of_nil in Hs].
    apply list_elem_of_singleton in Hs as ->. by eapply list_elem_of_lookup_2.
  - intros Hs. apply IH in Hs; [| done]. destruct Hs as [Hs | Hs]; [| by right].
    apply elem_of_app in Hs as [Hs | Hs]; [by left |]. right. by apply list_elem_of_singleton in Hs as ->.
Qed.

Lemma pick_loop_length eligible room start subs i rest out groups :
  (blen (pick_loop eligible room start subs i rest out groups).1 <= blen out + blen rest)%Z.
Proof.
  revert i out groups. induction rest as [| t rest IH]; intros i out groups; simpl;
    [rewrite blen_nil; lia |]. rewrite blen_cons.
  destruct (queue t) as [g |].
  - destruct (existsb _ groups).
    + specialize (IH (S i) out groups). lia.
    + match goal with |- context [pick_loop _ _ _ _ _ _ ?o ?g] => specialize (IH (S i) o g) end.
      destruct (pick_member _ _ _ _ _) as [k |]; [| lia].
      rewrite blen_app in IH. destruct (subs !! k); simpl in IH; rewrite ?blen_cons, blen_nil in IH; simpl; lia.
  - specialize (IH (S i) (out ++ [t]) groups). rewrite blen_app, blen_cons, blen_nil in IH. lia.
Qed.

Lemma pick_groups_subset eligible room r i s :
  s ∈ in_chosen (pick_groups eligible room r i).2 -> s ∈ in_subs i.
Proof.
  unfold pick_groups. destruct (next_u64 (rng r)) as [rng' start].
  pose proof (pick_loop_subset eligible room start (in_subs i) 0 (in_subs i) [] [] s) as H.
  destruct (pick_loop _ _ _ _ _ _ _ _) as [out groups]. simpl in *. intros Hs.
  destruct H as [H | H]; [auto.. | by apply not_elem_of_nil in H | done].
Qed.

Lemma pick_groups_length eligible room r i :
  (blen (in_chosen (pick_groups eligible room r i).2) <= blen (in_subs i))%Z.
Proof.
  unfold pick_groups. destruct (next_u64 (rng r)) as [rng' start].
  pose proof (pick_loop_length eligible room start (in_subs i) 0 (in_subs i) [] []) as H.
  by destruct (pick_loop _ _ _ _ _ _ _ _) as [out groups].
Qed.

(** Sampling touches neither the subscriptions nor what the cache resolved. *)
Lemma pick_groups_same eligible room r i :
  inner (pick_groups eligible room r i).1 = inner r /\
  generation (pick_groups eligible room r i).1 = generation r /\
  in_generation (pick_groups eligible room r i).2 = in_generation i /\
  in_subject (pick_groups eligible room r i).2 = in_subject i /\
  in_subs (pick_groups eligible room r i).2 = in_subs i /\
  in_queue (pick_groups eligible room r i).2 = in_queue i.
Proof.
  unfold pick_groups. destruct (next_u64 (rng r)) as [rng' start]. by destruct (pick_loop _ _ _ _ _ _ _ _).
Qed.

(** C14: a message goes to one member per queue group.  Of the subscriptions that
    match, the plain ones are all kept, in order; of each queue group exactly one
    eligible member is chosen, one with room if any eligible member has room; a
    group is passed over only when none of its members is eligible.  (The random
    start must not be within [length] of 2^64, where [start + k] would wrap.) *)
Theorem pick_groups_one_per_group eligible room r i :
  ((next_u64 (rng r)).2 + blen (in_subs i) <= u64_modulus)%Z ->
  let chosen := in_chosen (pick_groups eligible room r i).2 in
  retain plain chosen = retain plain (in_subs i) /\
  (forall g, group_choice eligible room (in_subs i) g (retain (in_group g) chosen)) /\
  in_subs (pick_groups eligible room r i).2 = in_subs i /\
  inner (pick_groups eligible room r i).1 = inner r.
Proof.
  intros Hmax. pose proof (next_u64_range (rng r)) as [H0 _].
  unfold pick_groups. destruct (next_u64 (rng r)) as [rng' start]. simpl in Hmax, H0.
  destruct (pick_loop_picks eligible room start (in_subs i) H0 Hmax 0 (in_subs i) [] [])
    as (picks & Hp & H1 & _ & H3); [done |].
  destruct (pick_loop _ _ _ _ _ _ _ _) as [out groups]. simpl in Hp |- *. subst out.
  split_and!; [done | | done | done]. intros g. apply H3, not_elem_of_nil.
Qed.

Lemma pick_groups_one_per_group_witness :
  let r := reg_run (registry_new 7) [Op_insert sub_a; Op_insert sub_w; Op_insert sub_q] in
  let i := refresh r (bs "a.b") interest_new in
  let elig s := negb (bool_decide (conn s = 1)) in
  let chosen := in_chosen (pick_groups elig (fun _ => true) r i).2 in
  chosen = [sub_a; sub_q] /\
  retain plain chosen = retain plain (in_subs i) /\
  (forall g, group_choice elig (fun _ => true) (in_subs i) g (retain (in_group g) chosen)) /\
  in_subs (pick_groups elig (fun _ => true) r i).2 = in_subs i /\
  inner (pick_groups elig (fun _ => true) r i).1 = inner r.
Proof.
  intros r i elig chosen. split; [vm_compute; done |].
  apply (pick_groups_one_per_group elig (fun _ => true) r i). vm_compute. done.
Defined.
