(* ===== verification/Conn.v ===== *)
(** * Connections (crates/server/src/client.rs, [Conn])

    The server's shared state: every connection with its outbox, flags and table
    of subscriptions, the counters of every subscription, and the registry.  A
    connection is named by its address ([cref]), which is what [Conn::is_same]
    compares; the operations of [Conn] are functions on this state. *)

From Stdlib Require Import String Strings.Byte.
From S2P Require Import Prelude Subjects Nuid Frames External Arena Outbox Options Registry.

(** ** Definitions *)

Section Conn.

Context `{BML : BytesMutLaws} `{CHL : ChannelLaws}.

(** [c_wakes] counts the [wake.notify_waiters()] calls. *)
Record Conn := mkConn {
  c_cid : Z;
  c_out : Outbox;
  c_flags : Z;
  c_subs : gmap bytes Sub;
  c_closed : bool;
  c_reason : option string;
  c_pings_out : Z;
  c_wakes : nat;
  c_hard : bool }.

(** The two counters of a [Sub]. *)
Record Cell := mkCell { delivered : Z; limit : Z }.

(** [w_next] is the address the next [Sub] is allocated at. *)
Record World := mkWorld {
  w_conns : gmap cref Conn;
  w_cells : gmap nat Cell;
  w_reg : Registry;
  w_next : nat }.

Definition conn_new (cid max_pending : Z) : Conn :=
  mkConn cid (outbox_new max_pending) (pack options_default) ∅ false None 0 0 false.

Definition set_conn (w : World) (c : cref) (cn : Conn) : World :=
  mkWorld (<[c := cn]> (w_conns w)) (w_cells w) (w_reg w) (w_next w).
Definition set_reg (w : World) (r : Registry) : World :=
  mkWorld (w_conns w) (w_cells w) r (w_next w).
Definition set_cell (w : World) (ref : nat) (x : Cell) : World :=
  mkWorld (w_conns w) (<[ref := x]> (w_cells w)) (w_reg w) (w_next w).

(** A change of one connection; nothing happens at an address nobody has. *)
Definition upd_conn (w : World) (c : cref) (f : Conn -> Conn) : World :=
  match w_conns w !! c with
  | Some cn => set_conn w c (f cn)
  | None => w
  end.

Definition set_out (cn : Conn) (o : Outbox) : Conn :=
  mkConn (c_cid cn) o (c_flags cn) (c_subs cn) (c_closed cn) (c_reason cn) (c_pings_out cn)
         (c_wakes cn) (c_hard cn).
Definition set_subs (cn : Conn) (m : gmap bytes Sub) : Conn :=
  mkConn (c_cid cn) (c_out cn) (c_flags cn) m (c_closed cn) (c_reason cn) (c_pings_out cn)
         (c_wakes cn) (c_hard cn).
Definition set_flags (cn : Conn) (f : Z) : Conn :=
  mkConn (c_cid cn) (c_out cn) f (c_subs cn) (c_closed cn) (c_reason cn) (c_pings_out cn)
         (c_wakes cn) (c_hard cn).
Definition set_pings (cn : Conn) (n : Z) : Conn :=
  mkConn (c_cid cn) (c_out cn) (c_flags cn) (c_subs cn) (c_closed cn) (c_reason cn) n
         (c_wakes cn) (c_hard cn).

(** ** The operations of [Conn] *)

Definition is_closed (w : World) (c : cref) : bool := from_option c_closed true (w_conns w !! c).

Definition flags_of (w : World) (c : cref) : Z := from_option c_flags 0%Z (w_conns w !! c).

Definition opts (w : World) (c : cref) : Options := unpack (flags_of w c).
Definition set_opts (w : World) (c : cref) (o : Options) : World :=
  upd_conn w c (fun cn => set_flags cn (pack o)).
Definition conn_echo (w : World) (c : cref) : bool := has_bit (flags_of w c) 4.
Definition supports_headers (w : World) (c : cref) : bool := has_bit (flags_of w c) 8.

Definition conn_has_room (w : World) (c : cref) : bool :=
  from_option (fun cn => has_room (c_out cn)) true (w_conns w !! c).

(** [Conn::enqueue]. *)
Definition conn_enqueue (w : World) (c : cref) (frame : bytes) : World * Enqueue :=
  match w_conns w !! c with
  | Some cn =>
      if c_closed cn then (w, Enq_Dropped)
      else let (o, r) := enqueue (c_out cn) frame in (set_conn w c (set_out cn o), r)
  | None => (w, Enq_Dropped)
  end.

(** [Conn::deliver], on the connection of the subscription. *)
Definition deliver (w : World) (sub : Sub) (m : Msg) : World * Enqueue :=
  match w_conns w !! conn sub with
  | Some cn =>
      if c_closed cn then (w, Enq_Dropped)
      else
        let (o, r) :=
          queue_with (c_out cn) (fun a => build_frame a (has_bit (c_flags cn) 8) sub m) in
        (set_conn w (conn sub) (set_out cn o), r)
  | None => (w, Enq_Dropped)
  end.

(** [Conn::finish] past its first test: the connection after it. *)
Definition finished (cn : Conn) (reason : string) (hard : bool) : Conn :=
  mkConn (c_cid cn) (no_more_writes (set_tx (c_out cn) None)) (c_flags cn) ∅ true (Some reason)
         (c_pings_out cn) (S (c_wakes cn)) hard.

Definition finish (w : World) (c : cref) (reason : string) (hard : bool) : World :=
  match w_conns w !! c with
  | Some cn =>
      if c_closed cn then w
      else set_conn (set_reg w (remove_conn (w_reg w) c)) c (finished cn reason hard)
  | None => w
  end.

Definition close (w : World) (c : cref) (reason : string) : World := finish w c reason false.
Definition close_now (w : World) (c : cref) (reason : string) : World := finish w c reason true.
Definition close_slow_consumer (w : World) (c : cref) : World :=
  close_now w c "slow consumer: max_pending exceeded".

Definition conn_pings_out (w : World) (c : cref) : Z := from_option c_pings_out 0%Z (w_conns w !! c).
Definition note_ping_sent (w : World) (c : cref) : World :=
  upd_conn w c (fun cn => set_pings cn (wrap64 (c_pings_out cn + 1))).
Definition note_pong (w : World) (c : cref) : World := upd_conn w c (fun cn => set_pings cn 0).

(** ** The counters of a subscription (routing.rs, [Sub]) *)

Definition cell_of (w : World) (sub : Sub) : Cell := default (mkCell 0 0) (w_cells w !! sub_ref sub).

Definition set_limit (w : World) (sub : Sub) (max : Z) : World * bool :=
  let x := cell_of w sub in
  if (max >? 0)%Z && (max >? delivered x)%Z
  then (set_cell w (sub_ref sub) (mkCell (delivered x) max), false)
  else (set_cell w (sub_ref sub) (mkCell (delivered x) 0), true).

Definition account (w : World) (sub : Sub) : World * bool :=
  let x := cell_of w sub in
  let n := wrap64 (delivered x + 1) in
  (set_cell w (sub_ref sub) (mkCell n (limit x)),
   negb (limit x =? 0)%Z && (limit x <=? n)%Z).

Definition eligible (w : World) (from : cref) (sub : Sub) : bool :=
  negb (is_closed w (conn sub)) &&
  negb (bool_decide (conn sub = from) && negb (conn_echo w from)).

(** ** The state invariant *)

(** An open connection can be written to; a closed one never again. *)
Definition conn_wf (cn : Conn) : Prop :=
  if c_closed cn
  then ob_tx (c_out cn) = None /\ gone (c_out cn) = true
  else (exists a, ob_tx (c_out cn) = Some a /\ arena_sealed a) /\ gone (c_out cn) = false.

(** The table of a connection's subscriptions, by sid. *)
Definition table_wf (w : World) (c : cref) (cn : Conn) : Prop :=
  forall k s, c_subs cn !! k = Some s ->
    sid s = k /\ conn s = c /\ made s /\ is_valid (subject s) = true /\
    sub_ref s < w_next w /\ is_Some (w_cells w !! sub_ref s).

(** A subscription its connection knows by its sid. *)
Definition known (w : World) (s : Sub) : Prop :=
  exists cn, w_conns w !! conn s = Some cn /\ c_subs cn !! sid s = Some s.

(** A limited subscription has not reached its limit. *)
Definition within_limit (w : World) (s : Sub) : Prop :=
  limit (cell_of w s) = 0%Z \/ (0 <= delivered (cell_of w s) < limit (cell_of w s))%Z.

Definition cells_wf (w : World) : Prop :=
  forall ref x, w_cells w !! ref = Some x -> (0 <= delivered x)%Z /\ (0 <= limit x < 2 ^ 63)%Z.

(** Two subscriptions never share their counters. *)
Definition refs_unique (w : World) : Prop :=
  forall s t, known w s -> known w t -> sub_ref s = sub_ref t -> s = t.

Definition registered (w : World) : list Sub := all_subs (inner (w_reg w)).

(** The part of the invariant that holds between any two operations. *)
Definition world_wf (w : World) : Prop :=
  inner_wf (inner (w_reg w)) /\
  (forall c cn, w_conns w !! c = Some cn -> conn_wf cn /\ table_wf w c cn) /\
  Forall (known w) (registered w) /\ refs_unique w /\ cells_wf w.

(** ** Lemmas *)

Lemma push_same o f :
  ob_tx (push o f).1 = ob_tx o /\ gone (push o f).1 = gone o /\
  soft (push o f).1 = soft o /\ hard (push o f).1 = hard o.
Proof. unfold push. repeat case_match; by split_and!. Qed.

Lemma enqueue_conn_wf cn f :
  conn_wf cn -> conn_wf (set_out cn (enqueue (c_out cn) f).1).
Proof.
  unfold conn_wf, enqueue. simpl. destruct (push_same (c_out cn) f) as (Ht & Hg & _).
  destruct (c_closed cn); destruct (ob_tx (c_out cn)) eqn:E; simpl; rewrite ?Ht, ?Hg, ?E; try done;
    by intros [(a0 & ? & ?) ?].
Qed.

Lemma queue_with_conn_wf cn build :
  (forall a, arena_sealed a -> arena_sealed (build a).1) ->
  conn_wf cn -> conn_wf (set_out cn (queue_with (c_out cn) build).1).
Proof.
  intros Hb. unfold conn_wf, queue_with. simpl.
  destruct (ob_tx (c_out cn)) as [a |] eqn:E; simpl; [| by rewrite E].
  specialize (Hb a). destruct (build a) as [a' f]. simpl in Hb.
  destruct (push_same (set_tx (c_out cn) (Some a')) f) as (Ht & Hg & _). rewrite Ht, Hg. simpl.
  destruct (c_closed cn); [by intros [? _] |]. intros [(a0 & Ha & Hs) Hgone]. simplify_eq. eauto.
Qed.

Lemma build_frame_sealed a h sub m : arena_sealed a -> arena_sealed (build_frame a h sub m).1.
Proof. apply arena_frame_sealed. Qed.

(** What does not change the tables of subscriptions keeps the invariant. *)
Lemma world_wf_set_conn w c cn cn' :
  world_wf w -> w_conns w !! c = Some cn -> conn_wf cn' -> c_subs cn' = c_subs cn ->
  world_wf (set_conn w c cn').
Proof.
  intros (Hr & Hc & Hk & Hu & Hx) Hcn Hwf Hs.
  assert (Hknown : forall s, known (set_conn w c cn') s <-> known w s).
  { intros s. unfold known. simpl. destruct (decide (c = conn s)) as [-> | Hne].
    - rewrite lookup_insert_eq. split.
      + intros (? & [= <-] & H). rewrite Hs in H. eauto.
      + intros (? & H1 & H2). simplify_eq. rewrite <- Hs in H2. eauto.
    - by rewrite lookup_insert_ne. }
  split_and!; [done | | | |].
  - intros d dn Hd. simpl in Hd. apply lookup_insert_Some in Hd as [[<- <-] | [_ Hd]]; [| by apply Hc].
    split; [done |]. unfold table_wf. rewrite Hs. by apply Hc.
  - eapply Forall_impl; [exact Hk |]. intros s. apply Hknown.
  - intros s t Hs1%Hknown Ht%Hknown. by apply Hu.
  - done.
Qed.

Lemma conn_enqueue_wf w c f : world_wf w -> world_wf (conn_enqueue w c f).1.
Proof.
  intros Hw. unfold conn_enqueue. destruct (w_conns w !! c) as [cn |] eqn:Hc; [| done].
  destruct (c_closed cn); [done |]. pose proof (enqueue_conn_wf cn f) as He.
  destruct (enqueue (c_out cn) f) as [o r]. simpl in *.
  eapply world_wf_set_conn; [done | done | | done]. apply He. by apply Hw in Hc as [? _].
Qed.

Lemma deliver_wf w sub m : world_wf w -> world_wf (deliver w sub m).1.
Proof.
  intros Hw. unfold deliver. destruct (w_conns w !! conn sub) as [cn |] eqn:Hc; [| done].
  destruct (c_closed cn); [done |].
  pose proof (queue_with_conn_wf cn (fun a => build_frame a (has_bit (c_flags cn) 8) sub m)) as He.
  destruct (queue_with (c_out cn) _) as [o r]. simpl in *.
  eapply world_wf_set_conn; [done | done | | done].
  apply He; [intros; by apply build_frame_sealed |]. by apply Hw in Hc as [? _].
Qed.

Lemma upd_conn_wf w c f :
  (forall cn, c_out (f cn) = c_out cn /\ c_subs (f cn) = c_subs cn /\ c_closed (f cn) = c_closed cn) ->
  world_wf w -> world_wf (upd_conn w c f).
Proof.
  intros Hf Hw. unfold upd_conn. destruct (w_conns w !! c) as [cn |] eqn:Hc; [| done].
  destruct (Hf cn) as (Ho & Hs & Hcl). eapply world_wf_set_conn; [done | done | | done].
  unfold conn_wf. rewrite Ho, Hcl. by apply Hw in Hc as [? _].
Qed.

Lemma set_opts_wf w c o : world_wf w -> world_wf (set_opts w c o).
Proof. by apply upd_conn_wf. Qed.

Lemma note_pong_wf w c : world_wf w -> world_wf (note_pong w c).
Proof. by apply upd_conn_wf. Qed.

Lemma note_ping_sent_wf w c : world_wf w -> world_wf (note_ping_sent w c).
Proof. by apply upd_conn_wf. Qed.

(** There are at most as many subscriptions as were ever made. *)
Lemma registered_bound w : world_wf w -> (blen (registered w) <= Z.of_nat (w_next w))%Z.
Proof.
  intros (Hr & Hc & Hk & Hu & _). rewrite Forall_forall in Hk.
  assert (Hnd : NoDup (sub_ref <$> registered w)).
  { destruct Hr as (_ & [_ Hnd] & _). fold (registered w) in Hnd.
    assert (Hin : forall s, s ∈ registered w -> known w s) by auto. revert Hnd Hin.
    generalize (registered w). intros l. induction l as [| s l IH]; simpl; intros Hnd Hin; [constructor |].
    apply NoDup_cons in Hnd as [Hs Hnd]. apply NoDup_cons. split.
    - intros (t & Ht & Htl)%list_elem_of_fmap. apply Hs.
      rewrite (Hu s t); [by apply list_elem_of_fmap_2 | apply Hin; constructor | | done].
      apply Hin. by constructor.
    - apply IH; [done |]. intros t Ht. apply Hin. by constructor. }
  apply inj_le. rewrite <- (length_fmap sub_ref), <- (length_seq (w_next w) 0).
  apply submseteq_length, NoDup_submseteq; [done |].
  intros ref (s & -> & Hs)%list_elem_of_fmap. destruct (Hk s Hs) as (cn & Hcn & Hsid).
  destruct (Hc _ _ Hcn) as [_ Ht]. apply Ht in Hsid as (_ & _ & _ & _ & Hlt & _).
  apply elem_of_seq. lia.
Qed.

(** Shrinking the registry keeps the invariant. *)
Lemma world_wf_set_reg w r :
  world_wf w -> inner_wf (inner r) -> (forall s, s ∈ all_subs (inner r) -> s ∈ registered w) ->
  world_wf (set_reg w r).
Proof.
  intros (Hr & Hc & Hk & Hu & Hx) Hwf Hsub. split_and!; [done | done | | done | done].
  rewrite Forall_forall in *. intros s Hs. apply Hk, Hsub, Hs.
Qed.

Lemma world_wf_set_cell w ref x :
  world_wf w -> (0 <= delivered x)%Z -> (0 <= limit x < 2 ^ 63)%Z -> world_wf (set_cell w ref x).
Proof.
  intros (Hr & Hc & Hk & Hu & Hx) Hd Hl. split_and!; [done | | done | done |].
  - intros c cn Hcn. destruct (Hc _ _ Hcn) as [H1 H2]. split; [done |]. intros k s Hs.
    destruct (H2 k s Hs) as (? & ? & ? & ? & ? & ?). split_and!; try done.
    simpl. destruct (decide (ref = sub_ref s)) as [-> | Hne].
    + rewrite lookup_insert_eq. eauto.
    + by rewrite lookup_insert_ne.
  - intros ref' x' H. simpl in H. apply lookup_insert_Some in H as [[<- <-] | [_ H]]; [done | by eapply Hx].
Qed.

Lemma cell_of_wf w s : world_wf w ->
  (0 <= delivered (cell_of w s))%Z /\ (0 <= limit (cell_of w s) < 2 ^ 63)%Z.
Proof.
  intros (_ & _ & _ & _ & Hx). unfold cell_of.
  destruct (w_cells w !! sub_ref s) as [x |] eqn:E; simpl; [by eapply Hx | lia].
Qed.

Lemma account_wf w s : world_wf w -> world_wf (account w s).1.
Proof.
  intros Hw. pose proof (cell_of_wf w s Hw) as [Hd Hl]. apply world_wf_set_cell; [done | | done].
  apply wrap64_range.
Qed.

Lemma set_limit_wf w s max : (max < 2 ^ 63)%Z -> world_wf w -> world_wf (set_limit w s max).1.
Proof.
  intros Hm Hw. pose proof (cell_of_wf w s Hw) as [Hd Hl]. unfold set_limit.
  destruct (_ && _) eqn:E; bool_to_prop; simpl; apply world_wf_set_cell; simpl; (done || lia).
Qed.

Lemma known_finished w c cn reason h s :
  w_conns w !! c = Some cn ->
  known (set_conn (set_reg w (remove_conn (w_reg w) c)) c (finished cn reason h)) s <->
  known w s /\ conn s <> c.
Proof.
  intros Hc. unfold known. simpl. destruct (decide (c = conn s)) as [-> | Hne].
  - rewrite lookup_insert_eq. split; [| by intros [_ ?]]. intros (? & [= <-] & H). simpl in H.
    by rewrite lookup_empty in H.
  - rewrite lookup_insert_ne by done. naive_solver.
Qed.

Lemma remove_conn_world w c :
  world_wf w -> (Z.of_nat (w_next w) < u64_modulus)%Z ->
  inner_wf (inner (remove_conn (w_reg w) c)) /\
  forall s, s ∈ all_subs (inner (remove_conn (w_reg w) c)) <-> s ∈ registered w /\ conn s <> c.
Proof.
  intros Hw Hmax. pose proof (registered_bound w Hw) as Hb. destruct Hw as (Hr & _).
  destruct (remove_conn_correct (w_reg w) c Hr) as [H1 H2]; [unfold registered in Hb; lia |].
  split; [done |]. intros s. rewrite H2. simpl. rewrite elem_of_retain, negb_true_iff, bool_decide_eq_false.
  done.
Qed.

Lemma finish_wf w c reason h :
  (Z.of_nat (w_next w) < u64_modulus)%Z -> world_wf w -> world_wf (finish w c reason h).
Proof.
  intros Hmax Hw. unfold finish. destruct (w_conns w !! c) as [cn |] eqn:Hc; [| done].
  destruct (c_closed cn); [done |]. pose proof (remove_conn_world w c Hw Hmax) as [Hr' Hin].
  destruct Hw as (Hr & Hcs & Hk & Hu & Hx). rewrite Forall_forall in Hk.
  split_and!; [done | | | | done].
  - intros d dn Hd. simpl in Hd. apply lookup_insert_Some in Hd as [[<- <-] | [_ Hd]]; [| by apply Hcs].
    split; [done |]. intros k s H. simpl in H. by rewrite lookup_empty in H.
  - apply Forall_forall. intros s [Hs Hne]%Hin. apply (known_finished _ _ _ _ _ _ Hc). auto.
  - intros s t [Hs _]%(known_finished _ _ _ _ _ _ Hc) [Ht _]%(known_finished _ _ _ _ _ _ Hc). by apply Hu.
Qed.

(** ** A new subscription *)

(** [Sub::new], [Registry::insert] and the insertion in the connection's table. *)
Definition add_sub (w : World) (c : cref) (cn : Conn) (s : Sub) : World :=
  mkWorld (<[c := set_subs cn (<[sid s := s]> (c_subs cn))]> (w_conns w))
          (<[sub_ref s := mkCell 0 0]> (w_cells w)) (insert (w_reg w) s).1 (S (w_next w)).

Lemma known_add_sub w c cn s t :
  w_conns w !! c = Some cn -> conn s = c -> c_subs cn !! sid s = None ->
  known (add_sub w c cn s) t <-> known w t \/ t = s.
Proof.
  intros Hc Hs Hnew. unfold known. simpl. destruct (decide (c = conn t)) as [Ht | Hne].
  - rewrite <- Ht, lookup_insert_eq. split.
    + intros (? & [= <-] & H). simpl in H.
      apply lookup_insert_Some in H as [[_ ?] | [_ H]]; [by right | left; eauto].
    + intros [(? & H1 & H2) | ->]; eexists; (split; [done |]); simpl.
      * simplify_eq. rewrite lookup_insert_ne; [done |]. congruence.
      * apply lookup_insert_eq.
  - rewrite lookup_insert_ne by done. split; [by left |]. intros [? | ->]; [done | congruence].
Qed.

Lemma insert_registered w s :
  world_wf w -> made s -> is_valid (subject s) = true -> (Z.of_nat (w_next w) + 1 < u64_modulus)%Z ->
  inner_wf (inner (insert (w_reg w) s).1) /\
  (forall t, t ∈ all_subs (inner (insert (w_reg w) s).1) -> t ∈ registered w \/ t = s) /\
  all_subs (inner (insert (w_reg w) s).1) ≡ₚ bag_step (registered w) (Op_insert s).
Proof.
  intros Hw Hm Hv Hmax. pose proof (registered_bound w Hw) as Hb. pose proof Hw as (Hr & _).
  destruct (reg_step_correct (w_reg w) (Op_insert s) Hr Hm) as [H1 H2]; [unfold registered in Hb; lia |].
  simpl in H1, H2. split_and!; [done | | done]. intros t. rewrite H2. fold (registered w).
  destruct (_ && _); [| by left]. rewrite elem_of_cons. tauto.
Qed.

Lemma add_sub_wf w c cn s :
  world_wf w -> w_conns w !! c = Some cn -> c_subs cn !! sid s = None ->
  conn s = c -> sub_ref s = w_next w -> made s -> is_valid (subject s) = true ->
  (Z.of_nat (w_next w) + 1 < u64_modulus)%Z -> world_wf (add_sub w c cn s).
Proof.
  intros Hw Hc Hnew Hs Href Hm Hv Hmax.
  destruct (insert_registered w s Hw Hm Hv Hmax) as (Hr' & Hin & _).
  destruct Hw as (Hr & Hcs & Hk & Hu & Hx). rewrite Forall_forall in Hk.
  assert (Hlt : forall t, known w t -> sub_ref t < w_next w).
  { intros t (dn & Hd & Ht). apply Hcs in Hd as [_ Hd]. by apply Hd in Ht as (_ & _ & _ & _ & ? & _). }
  assert (Hold : forall d dn, w_conns w !! d = Some dn -> table_wf (add_sub w c cn s) d dn).
  { intros d dn Hd k t Ht. destruct (Hcs _ _ Hd) as [_ H]. destruct (H k t Ht) as (? & ? & ? & ? & ? & ?).
    simpl. rewrite lookup_insert_ne by lia. split_and!; (done || lia). }
  split_and!; [done | | | |].
  - intros d dn Hd. simpl in Hd. apply lookup_insert_Some in Hd as [[<- <-] | [_ Hd]].
    2: { split; [by apply Hcs in Hd as [? _] | by apply Hold]. }
    split; [by apply Hcs in Hc as [? _] |]. intros k t Ht. simpl in Ht.
    apply lookup_insert_Some in Ht as [[<- <-] | [_ Ht]]; [| by apply (Hold c cn)].
    simpl. rewrite lookup_insert_eq. split_and!; (done || lia || eauto).
  - apply Forall_forall. intros t Ht%Hin. apply (known_add_sub _ _ _ _ _ Hc Hs Hnew). naive_solver.
  - intros t u Ht%(known_add_sub _ _ _ _ _ Hc Hs Hnew) Hu'%(known_add_sub _ _ _ _ _ Hc Hs Hnew) He.
    destruct Ht as [Ht | ->], Hu' as [Hu' | ->]; [by apply Hu | | | done].
    + apply Hlt in Ht. lia.
    + apply Hlt in Hu'. lia.
  - intros ref x H. simpl in H. apply lookup_insert_Some in H as [[<- <-] | [_ H]]; [simpl; lia | by eapply Hx].
Qed.

End Conn.
