(* ===== verification/Route.v ===== *)
(** * Routing (crates/server/src/routing.rs, [Registry::route])

    Fanning one message out: the subscriptions it matches (through the publishing
    task's cache), the choice among queue groups, the deliveries, and what they do
    to slow consumers and to subscriptions that reach their limit. *)

From Stdlib Require Import String Strings.Byte.
From S2P Require Import Prelude Subjects Nuid Frames External Arena Outbox Options Registry Interest QueueGroups Conn.

Section Route.

Context `{BML : BytesMutLaws} `{CHL : ChannelLaws}.

(** ** Definitions *)

Inductive Give := Give_Ok | Give_Stall (c : cref) | Give_Gone.

(** [Registry::give]: the state, [expired], and the outcome. *)
Definition give (w : World) (sub : Sub) (m : Msg) (expired : list Sub) :
    World * list Sub * Give :=
  let (w1, r) := deliver w sub m in
  match r with
  | Enq_Ok =>
      let (w2, spent) := account w1 sub in
      (w2, if spent then expired ++ [sub] else expired, Give_Ok)
  | Enq_SoftLimit =>
      let (w2, spent) := account w1 sub in
      (w2, if spent then expired ++ [sub] else expired, Give_Stall (conn sub))
  | Enq_SlowConsumer => (close_slow_consumer w1 (conn sub), expired ++ [sub], Give_Gone)
  | Enq_Dropped => (w1, expired, Give_Gone)
  end.

(** What the delivery loop of [route] threads through. *)
Record RouteState := mkRouteState {
  rt_world : World;
  rt_count : Z;
  rt_stall : list cref;
  rt_expired : list Sub }.

(** One turn of the loop. *)
Definition route_one (m : Msg) (from : cref) (st : RouteState) (sub : Sub) : RouteState :=
  if negb (eligible (rt_world st) from sub) then st
  else
    let '(w, expired, g) := give (rt_world st) sub m (rt_expired st) in
    match g with
    | Give_Ok => mkRouteState w (rt_count st + 1) (rt_stall st) expired
    | Give_Stall c => mkRouteState w (rt_count st + 1) (rt_stall st ++ [c]) expired
    | Give_Gone => mkRouteState w (rt_count st) (rt_stall st) expired
    end.

Definition route_loop (m : Msg) (from : cref) (list : list Sub) (st : RouteState) : RouteState :=
  foldl (route_one m from) st list.

(** The subscriptions that are spent leave the registry, under one bump. *)
Definition expire (r : Registry) (expired : list Sub) : Registry :=
  if is_empty expired then r
  else changed (mkRegistry (foldl remove_sub (inner r) expired) (rng r) (generation r)).

(** The subscriptions a message is offered to, with the cache and the registry after. *)
Definition route_list (w : World) (m : Msg) (from : cref) (i : Interest) :
    Registry * Interest * list Sub :=
  let i1 := refresh (w_reg w) (msg_subject m) i in
  if in_queue i1 then
    let (r, i2) := pick_groups (eligible w from) (fun s => conn_has_room w (conn s)) (w_reg w) i1 in
    (r, i2, in_chosen i2)
  else (w_reg w, i1, in_subs i1).

Record Delivered := mkDelivered { count : Z; stall : list cref }.

Definition route (w : World) (m : Msg) (from : cref) (i : Interest) :
    World * Interest * Delivered :=
  let '(r, i', list) := route_list w m from i in
  let w1 := set_reg w r in
  if is_empty list then (w1, i', mkDelivered 0 [])
  else
    let st := route_loop m from list (mkRouteState w1 0 [] []) in
    (set_reg (rt_world st) (expire (w_reg (rt_world st)) (rt_expired st)), i',
     mkDelivered (rt_count st) (rt_stall st)).

(** ** Lemmas: the invariant *)

Lemma give_wf w sub m expired :
  (Z.of_nat (w_next w) < u64_modulus)%Z -> world_wf w -> world_wf (give w sub m expired).1.1.
Proof.
  intros Hmax Hw. unfold give. pose proof (deliver_wf w sub m Hw) as Hd.
  assert (Hn : w_next (deliver w sub m).1 = w_next w).
  { unfold deliver. destruct (w_conns w !! conn sub) as [cn |]; [| done].
    destruct (c_closed cn); [done |]. by destruct (queue_with _ _). }
  destruct (deliver w sub m) as [w1 []]; simpl in *.
  - by apply (account_wf w1 sub).
  - by apply (account_wf w1 sub).
  - apply finish_wf; [by rewrite Hn | done].
  - done.
Qed.

Lemma give_next w sub m expired : w_next (give w sub m expired).1.1 = w_next w.
Proof.
  unfold give, deliver. destruct (w_conns w !! conn sub) as [cn |]; [| done].
  destruct (c_closed cn); [done |]. destruct (queue_with _ _) as [o []]; try done.
  simpl. unfold close_slow_consumer, close_now, finish. by repeat case_match.
Qed.

Lemma route_one_wf m from st sub :
  (Z.of_nat (w_next (rt_world st)) < u64_modulus)%Z -> world_wf (rt_world st) ->
  world_wf (rt_world (route_one m from st sub)) /\
  w_next (rt_world (route_one m from st sub)) = w_next (rt_world st).
Proof.
  intros Hmax Hw. unfold route_one. destruct (negb _); [done |].
  pose proof (give_wf (rt_world st) sub m (rt_expired st) Hmax Hw) as Hg.
  pose proof (give_next (rt_world st) sub m (rt_expired st)) as Hn.
  destruct (give _ _ _ _) as [[w e] []]; done.
Qed.

Lemma route_loop_wf m from list st :
  (Z.of_nat (w_next (rt_world st)) < u64_modulus)%Z -> world_wf (rt_world st) ->
  world_wf (rt_world (route_loop m from list st)) /\
  w_next (rt_world (route_loop m from list st)) = w_next (rt_world st).
Proof.
  revert st. induction list as [| s list IH]; intros st Hmax Hw; simpl; [done |].
  destruct (route_one_wf m from st s Hmax Hw) as [H1 H2].
  destruct (IH (route_one m from st s)) as [H3 H4]; [by rewrite H2 | done |].
  split; [done |]. by rewrite <- H2.
Qed.

(** Removing a list of subscriptions from the registry. *)
Lemma remove_subs_correct i expired :
  inner_wf i -> Forall made expired -> (blen (all_subs i) < u64_modulus)%Z ->
  inner_wf (foldl remove_sub i expired) /\
  forall s, s ∈ all_subs (foldl remove_sub i expired) <->
    s ∈ all_subs i /\ Forall (fun e => removes e s = false) expired.
Proof.
  intros Hi He. revert i Hi. induction He as [| e es He _ IH]; intros i Hi Hmax; simpl.
  { split; [done |]. intros s. rewrite Forall_nil. tauto. }
  destruct (remove_sub_correct i e Hi He Hmax) as [Hi' Hp]. simpl in Hp.
  assert (Hlen : (blen (all_subs (remove_sub i e)) <= blen (all_subs i))%Z).
  { rewrite (blen_Permutation _ _ Hp). apply retain_le. }
  destruct (IH (remove_sub i e) Hi') as [H1 H2]; [lia |]. split; [done |].
  intros s. rewrite H2, Hp, elem_of_retain, negb_true_iff, Forall_cons. tauto.
Qed.

Lemma expire_wf w expired :
  world_wf w -> (Z.of_nat (w_next w) < u64_modulus)%Z -> Forall made expired ->
  world_wf (set_reg w (expire (w_reg w) expired)) /\
  forall s, s ∈ all_subs (inner (expire (w_reg w) expired)) <->
    s ∈ registered w /\ Forall (fun e => removes e s = false) expired.
Proof.
  intros Hw Hmax He. pose proof (registered_bound w Hw) as Hb. pose proof Hw as (Hr & _).
  unfold expire. destruct (is_empty expired) eqn:E.
  { bool_to_prop. split; [by apply world_wf_set_reg |]. intros s. rewrite Forall_nil. tauto. }
  destruct (remove_subs_correct (inner (w_reg w)) expired Hr He) as [H1 H2];
    [unfold registered in Hb; lia |].
  simpl. split; [| done]. apply world_wf_set_reg; [done | done |]. simpl. intros s Hs.
  by apply H2 in Hs as [? _].
Qed.

(** ** Lemmas: deliveries *)

(** The frame a subscription is sent, by the header flag of its connection. *)
Definition frame_for (cn : Conn) (m : Msg) (s : Sub) : bytes :=
  delivery_bytes (delivery_of (has_bit (c_flags cn) 8) s m).

(** The connection has room for [n] more bytes and somebody to write them. *)
Definition accepts (cn : Conn) (n : Z) : Prop :=
  c_closed cn = false /\ ch_rx_gone (ob_chan (c_out cn)) = false /\
  (0 <= pending (c_out cn))%Z /\ (pending (c_out cn) + n <= hard (c_out cn))%Z /\
  (hard (c_out cn) < u64_modulus)%Z.

(** The connection after [frames] were queued on it. *)
Definition fed (cn cn' : Conn) (frames : list bytes) : Prop :=
  conn_wf cn' /\ c_closed cn' = c_closed cn /\ c_flags cn' = c_flags cn /\ c_subs cn' = c_subs cn /\
  ch_queue (ob_chan (c_out cn')) = ch_queue (ob_chan (c_out cn)) ++ frames /\
  ch_rx_gone (ob_chan (c_out cn')) = ch_rx_gone (ob_chan (c_out cn)) /\
  pending (c_out cn') = (pending (c_out cn) + blen (concat frames))%Z /\
  hard (c_out cn') = hard (c_out cn) /\ soft (c_out cn') = soft (c_out cn).

Lemma fed_nil cn : conn_wf cn -> fed cn cn [].
Proof. intros H. unfold fed. rewrite app_nil_r. simpl. rewrite blen_nil. split_and!; (done || lia). Qed.

Lemma fed_app cn cn1 cn2 f1 f2 : fed cn cn1 f1 -> fed cn1 cn2 f2 -> fed cn cn2 (f1 ++ f2).
Proof.
  intros (A1 & A2 & A3 & A4 & A5 & A6 & A7 & A8 & A9) (B1 & B2 & B3 & B4 & B5 & B6 & B7 & B8 & B9).
  unfold fed. rewrite concat_app, blen_app, (assoc_L (++)). split_and!; (done || congruence || lia).
Qed.

Lemma accepts_fed cn cn' frames n :
  accepts cn (blen (concat frames) + n) -> fed cn cn' frames -> accepts cn' n.
Proof.
  intros (H1 & H2 & H3 & H4 & H5) (_ & A2 & _ & _ & _ & A6 & A7 & A8 & _). unfold accepts.
  rewrite A2, A6, A7, A8. pose proof (blen_nonneg (concat frames)). split_and!; (done || lia).
Qed.

Lemma build_frame_bytes a h s m :
  arena_sealed a -> (build_frame a h s m).2 = delivery_bytes (delivery_of h s m).
Proof. intros Ha. unfold build_frame. by rewrite arena_frame_bytes, frame_pieces_bytes. Qed.

Lemma deliver_fits w s m cn :
  w_conns w !! conn s = Some cn -> conn_wf cn -> accepts cn (blen (frame_for cn m s)) ->
  exists cn' r, deliver w s m = (set_conn w (conn s) cn', r) /\
    (r = Enq_Ok \/ r = Enq_SoftLimit) /\ fed cn cn' [frame_for cn m s].
Proof.
  intros Hc Hwf (Hcl & Hrx & Hp & Hle & Hmax). unfold deliver. rewrite Hc, Hcl.
  unfold conn_wf in Hwf. rewrite Hcl in Hwf. destruct Hwf as [(a & Ha & Hs) Hg].
  unfold queue_with. rewrite Ha.
  pose proof (build_frame_bytes a (has_bit (c_flags cn) 8) s m Hs) as Hb.
  pose proof (build_frame_sealed a (has_bit (c_flags cn) 8) s m Hs) as Hs'.
  fold (frame_for cn m s) in Hb. destruct (build_frame a _ s m) as [a' f]. simpl in Hb, Hs'. subst f.
  set (o := set_tx (c_out cn) (Some a')).
  assert (Ho : pending o = pending (c_out cn) /\ hard o = hard (c_out cn) /\ ob_chan o = ob_chan (c_out cn))
    by done.
  destruct Ho as (Ho1 & Ho2 & Ho3).
  pose proof (push_spec o (frame_for cn m s)) as Hpush. rewrite Ho1, Ho2, Ho3 in Hpush.
  specialize (Hpush Hp ltac:(lia)).
  destruct (push o (frame_for cn m s)) as [o' r]. destruct r.
  1, 2: destruct Hpush as ((ch & Hsend & ->) & _); exists (set_out cn (set_chan (set_pending o (pending (c_out cn) + blen (frame_for cn m s))) ch));
    eexists; (split; [done |]); (split; [auto |]); unfold fed, conn_wf; simpl; rewrite Hcl;
    rewrite (ch_send_queue _ _ _ Hsend), (ch_send_rx _ _ _ Hsend), app_nil_r; split_and!; eauto.
  - destruct Hpush as [_ ?]. lia.
  - destruct Hpush as (_ & _ & ?). congruence.
Qed.

Lemma deliver_conns w s m :
  (forall c, c <> conn s -> w_conns (deliver w s m).1 !! c = w_conns w !! c) /\
  (forall c, flags_of (deliver w s m).1 c = flags_of w c).
Proof.
  unfold deliver. destruct (w_conns w !! conn s) as [cn |] eqn:Hc; [| done].
  destruct (c_closed cn); [done |]. destruct (queue_with _ _) as [o r]. simpl. split.
  - intros c Hne. by rewrite lookup_insert_ne.
  - intros c. unfold flags_of. simpl. destruct (decide (conn s = c)) as [<- | Hne].
    + by rewrite lookup_insert_eq, Hc.
    + by rewrite lookup_insert_ne.
Qed.

Lemma finish_conns w d reason h :
  (forall c, c <> d -> w_conns (finish w d reason h) !! c = w_conns w !! c) /\
  (forall c, flags_of (finish w d reason h) c = flags_of w c).
Proof.
  unfold finish. destruct (w_conns w !! d) as [cn |] eqn:Hc; [| done].
  destruct (c_closed cn); [done |]. simpl. split.
  - intros c Hne. by rewrite lookup_insert_ne.
  - intros c. unfold flags_of. simpl. destruct (decide (d = c)) as [<- | Hne].
    + by rewrite lookup_insert_eq, Hc.
    + by rewrite lookup_insert_ne.
Qed.

Lemma route_one_conns m from st s :
  (forall c, c <> conn s -> w_conns (rt_world (route_one m from st s)) !! c = w_conns (rt_world st) !! c) /\
  (forall c, flags_of (rt_world (route_one m from st s)) c = flags_of (rt_world st) c).
Proof.
  unfold route_one. destruct (negb _); [done |]. unfold give.
  destruct (deliver_conns (rt_world st) s m) as [H1 H2].
  destruct (deliver (rt_world st) s m) as [w1 []]; simpl in *; [done | done | | done].
  destruct (finish_conns w1 (conn s) "slow consumer: max_pending exceeded" true) as [H3 H4].
  split; intros c; [intros Hne |]; unfold close_slow_consumer, close_now.
  - by rewrite H3, H1.
  - by rewrite H4, H2.
Qed.

(** Does [from]'s message go to connection [c] at all? *)
Definition echo_ok (w : World) (from c : cref) : bool :=
  negb (bool_decide (c = from) && negb (conn_echo w from)).

(** The frames a list of subscriptions owes connection [c]. *)
Definition frames_for (w : World) (from c : cref) (cn : Conn) (m : Msg) (l : list Sub) : list bytes :=
  if echo_ok w from c then frame_for cn m <$> retain (fun s => bool_decide (conn s = c)) l else [].

Lemma route_one_fits m from st s cn :
  w_conns (rt_world st) !! conn s = Some cn -> conn_wf cn ->
  accepts cn (blen (concat (frames_for (rt_world st) from (conn s) cn m [s]))) ->
  exists cn', w_conns (rt_world (route_one m from st s)) !! conn s = Some cn' /\
    fed cn cn' (frames_for (rt_world st) from (conn s) cn m [s]) /\
    rt_count (route_one m from st s) =
      (rt_count st + blen (frames_for (rt_world st) from (conn s) cn m [s]))%Z.
Proof.
  intros Hc Hwf Hacc. unfold route_one, eligible, is_closed.
  rewrite Hc. simpl. pose proof Hacc as (Hcl & _). rewrite Hcl. simpl.
  change (negb (bool_decide (conn s = from) && negb (conn_echo (rt_world st) from)))
    with (echo_ok (rt_world st) from (conn s)).
  unfold frames_for in *. destruct (echo_ok (rt_world st) from (conn s)); simpl.
  2: { exists cn. split; [done |]. split; [by apply fed_nil |]. rewrite blen_nil. lia. }
  simpl in Hacc. rewrite bool_decide_true in * by done. simpl in Hacc |- *. rewrite app_nil_r in Hacc.
  destruct (deliver_fits _ s m cn Hc Hwf Hacc) as (cn' & r & Hd & Hr & Hfed).
  unfold give. rewrite Hd. destruct Hr as [-> | ->]; simpl; exists cn'; rewrite lookup_insert_eq;
    (split; [done |]); (split; [done |]); rewrite blen_cons, blen_nil; lia.
Qed.

Lemma frames_for_app w from c cn m l k :
  frames_for w from c cn m (l ++ k) = frames_for w from c cn m l ++ frames_for w from c cn m k.
Proof. unfold frames_for. destruct (echo_ok w from c); [| done]. by rewrite retain_app, fmap_app. Qed.

Lemma frames_for_other w from c cn m s : conn s <> c -> frames_for w from c cn m [s] = [].
Proof. intros H. unfold frames_for. simpl. rewrite bool_decide_false by done. by destruct (echo_ok w from c). Qed.

Lemma frames_for_ext w w' from c cn cn' m l :
  flags_of w from = flags_of w' from -> c_flags cn = c_flags cn' ->
  frames_for w from c cn m l = frames_for w' from c cn' m l.
Proof. intros Hf Hc. unfold frames_for, echo_ok, conn_echo, frame_for. by rewrite Hf, Hc. Qed.

(** A connection with room for its frames gets them all, in order, whatever
    happens to the others. *)
Lemma route_loop_fits m from list st c cn :
  w_conns (rt_world st) !! c = Some cn -> conn_wf cn ->
  accepts cn (blen (concat (frames_for (rt_world st) from c cn m list))) ->
  exists cn', w_conns (rt_world (route_loop m from list st)) !! c = Some cn' /\
    fed cn cn' (frames_for (rt_world st) from c cn m list).
Proof.
  revert st cn. induction list as [| s list IH]; intros st cn Hc Hwf Hacc.
  { exists cn. split; [done |]. unfold frames_for. destruct (echo_ok _ _ _); by apply fed_nil. }
  change (s :: list) with ([s] ++ list) in *. rewrite frames_for_app in Hacc |- *.
  rewrite concat_app, blen_app in Hacc. simpl.
  destruct (route_one_conns m from st s) as [Hother Hflags].
  assert (Hstep : exists cn1, w_conns (rt_world (route_one m from st s)) !! c = Some cn1 /\
    fed cn cn1 (frames_for (rt_world st) from c cn m [s])).
  { destruct (decide (conn s = c)) as [<- | Hne].
    - destruct (route_one_fits m from st s cn Hc Hwf) as (cn1 & H1 & H2 & _); [| eauto].
      destruct Hacc as (? & ? & ? & ? & ?).
      pose proof (blen_nonneg (concat (frames_for (rt_world st) from (conn s) cn m list))).
      split_and!; (done || lia).
    - exists cn. rewrite Hother, frames_for_other by done. split; [done | by apply fed_nil]. }
  destruct Hstep as (cn1 & Hc1 & Hfed). pose proof Hfed as (Hwf1 & _ & Hfl & _).
  rewrite (frames_for_ext _ (rt_world (route_one m from st s)) from c cn cn1 m list) in Hacc |- * by done.
  destruct (IH (route_one m from st s) cn1 Hc1 Hwf1) as (cn2 & Hc2 & Hfed2); [by eapply accepts_fed |].
  exists cn2. split; [done |]. by eapply fed_app.
Qed.

(** Every open connection has room for its share of the message. *)
Definition all_accept (w : World) (from : cref) (m : Msg) (l : list Sub) : Prop :=
  forall c cn, w_conns w !! c = Some cn ->
    conn_wf cn /\ (c_closed cn = false -> accepts cn (blen (concat (frames_for w from c cn m l)))).

Lemma eligible_frames w from s cn m :
  w_conns w !! conn s = Some cn -> c_closed cn = false ->
  blen (frames_for w from (conn s) cn m [s]) = (if eligible w from s then 1%Z else 0%Z).
Proof.
  intros Hc Hcl. unfold eligible, is_closed. rewrite Hc. simpl. rewrite Hcl. simpl.
  unfold frames_for, echo_ok. destruct (negb _); [| done]. simpl. by rewrite bool_decide_true.
Qed.

Lemma not_eligible_closed w from s : is_closed w (conn s) = true -> eligible w from s = false.
Proof. intros H. unfold eligible. by rewrite H. Qed.

Lemma route_one_skip m from st s : eligible (rt_world st) from s = false -> route_one m from st s = st.
Proof. intros H. unfold route_one. by rewrite H. Qed.

Lemma route_one_all_accept m from st s l :
  all_accept (rt_world st) from m (s :: l) ->
  all_accept (rt_world (route_one m from st s)) from m l /\
  (forall c, is_closed (rt_world (route_one m from st s)) c = is_closed (rt_world st) c) /\
  rt_count (route_one m from st s) =
    (rt_count st + if eligible (rt_world st) from s then 1 else 0)%Z.
Proof.
  intros Hall. change (s :: l) with ([s] ++ l) in Hall.
  assert (Hmono : forall c cn, w_conns (rt_world st) !! c = Some cn -> c_closed cn = false ->
            accepts cn (blen (concat (frames_for (rt_world st) from c cn m [s])) +
                        blen (concat (frames_for (rt_world st) from c cn m l)))).
  { intros c cn Hc Hcl. destruct (Hall c cn Hc) as [_ Ha]. specialize (Ha Hcl).
    by rewrite frames_for_app, concat_app, blen_app in Ha. }
  destruct (route_one_conns m from st s) as [Hother Hflags].
  assert (Hrest : forall c cn, w_conns (rt_world st) !! c = Some cn -> c_closed cn = false ->
            accepts cn (blen (concat (frames_for (rt_world st) from c cn m l)))).
  { intros c cn Hc Hcl. destruct (Hmono c cn Hc Hcl) as (? & ? & ? & ? & ?).
    pose proof (blen_nonneg (concat (frames_for (rt_world st) from c cn m [s]))). split_and!; (done || lia). }
  destruct (is_closed (rt_world st) (conn s)) eqn:Hopen.
  { rewrite route_one_skip, not_eligible_closed by (by try apply not_eligible_closed).
    split_and!; [| done | lia]. intros c cn Hcn. split; [by apply (Hall c) |]. by apply Hrest. }
  unfold is_closed in Hopen. destruct (w_conns (rt_world st) !! conn s) as [cn |] eqn:Hc; [| done].
  simpl in Hopen. rename Hopen into Hcl.
  destruct (Hall _ _ Hc) as [Hwf _]. pose proof (Hmono _ _ Hc Hcl) as Hacc.
  destruct (route_one_fits m from st s cn Hc Hwf) as (cn' & Hc' & Hfed & Hcount).
  { destruct Hacc as (? & ? & ? & ? & ?).
    pose proof (blen_nonneg (concat (frames_for (rt_world st) from (conn s) cn m l))). split_and!; (done || lia). }
  rewrite Hcount, (eligible_frames (rt_world st) from s cn m Hc Hcl). pose proof Hfed as (Hwf' & Hcl' & Hfl' & _).
  split_and!; [| | done].
  - intros c dn Hd. destruct (decide (c = conn s)) as [-> | Hne].
    + rewrite Hc' in Hd. injection Hd as <-. split; [done |]. intros _.
      rewrite <- (frames_for_ext (rt_world st) _ from (conn s) cn cn' m l) by done. by eapply accepts_fed.
    + rewrite Hother in Hd by done. split; [by apply (Hall c) |]. intros Hdc.
      rewrite <- (frames_for_ext (rt_world st) _ from c dn dn m l) by done. by apply Hrest.
  - intros c. unfold is_closed. destruct (decide (c = conn s)) as [-> | Hne]; [| by rewrite Hother].
    rewrite Hc, Hc'. simpl. by rewrite Hcl'.
Qed.

Lemma route_loop_count m from list st :
  all_accept (rt_world st) from m list ->
  rt_count (route_loop m from list st) =
    (rt_count st + blen (retain (eligible (rt_world st) from) list))%Z.
Proof.
  revert st. induction list as [| s list IH]; intros st Hall; simpl; [rewrite blen_nil; lia |].
  destruct (route_one_all_accept m from st s list Hall) as (Hall' & Hcl & Hcount).
  rewrite (IH _ Hall'), Hcount.
  assert (He : forall t, eligible (rt_world (route_one m from st s)) from t = eligible (rt_world st) from t).
  { intros t. unfold eligible, conn_echo. destruct (route_one_conns m from st s) as [_ Hf].
    by rewrite Hcl, Hf. }
  rewrite (retain_ext (eligible (rt_world (route_one m from st s)) from) (eligible (rt_world st) from) list)
    by auto.
  destruct (eligible (rt_world st) from s); rewrite ?blen_cons; lia.
Qed.

(** ** Lemmas: subscription limits *)

(** The limited subscriptions in the registry are below their limit, or about to
    be taken out. *)
Definition limits_ok (w : World) (expired : list Sub) : Prop :=
  forall s, s ∈ registered w -> within_limit w s \/ s ∈ expired.

(** No registered subscription shares the counters of [s]. *)
Definition owns_cell (w : World) (s : Sub) : Prop :=
  forall t, t ∈ registered w -> sub_ref t = sub_ref s -> t = s.

Lemma deliver_reg w s m :
  w_reg (deliver w s m).1 = w_reg w /\ w_cells (deliver w s m).1 = w_cells w /\
  w_next (deliver w s m).1 = w_next w.
Proof.
  unfold deliver. destruct (w_conns w !! conn s) as [cn |]; [| done].
  destruct (c_closed cn); [done |]. by destruct (queue_with _ _).
Qed.

Lemma within_limit_account w s :
  world_wf w -> (account w s).2 = false -> within_limit (account w s).1 s.
Proof.
  intros Hw. destruct (cell_of_wf w s Hw) as [Hd Hl]. unfold account, within_limit, cell_of. simpl.
  rewrite lookup_insert_eq. simpl. fold (cell_of w s). intros H.
  destruct (limit (cell_of w s) =? 0)%Z eqn:E; bool_to_prop; [by left |]. simpl in H. bool_to_prop.
  right. pose proof (wrap64_range (delivered (cell_of w s) + 1)) as [? _]. lia.
Qed.

Lemma account_limits w s expired :
  world_wf w -> owns_cell w s -> limits_ok w expired ->
  limits_ok (account w s).1 (if (account w s).2 then expired ++ [s] else expired).
Proof.
  intros Hw Hown Hl t Ht. change (registered (account w s).1) with (registered w) in Ht.
  destruct (decide (sub_ref t = sub_ref s)) as [He | Hne].
  - rewrite (Hown t Ht He). destruct (account w s).2 eqn:E.
    + right. apply elem_of_app. right. by constructor.
    + left. by apply within_limit_account.
  - destruct (Hl t Ht) as [H | H].
    + left. unfold within_limit, cell_of, account in *. simpl. by rewrite lookup_insert_ne.
    + right. destruct (account w s).2; [apply elem_of_app; by left | done].
Qed.

Lemma finish_registered w c reason h s :
  world_wf w -> (Z.of_nat (w_next w) < u64_modulus)%Z ->
  s ∈ registered (finish w c reason h) -> s ∈ registered w.
Proof.
  intros Hw Hmax. unfold finish. destruct (w_conns w !! c) as [cn |]; [| done].
  destruct (c_closed cn); [done |]. unfold registered at 1. simpl.
  intros Hs. by apply (remove_conn_world w c Hw Hmax) in Hs as [? _].
Qed.

Lemma finish_cells w c reason h : w_cells (finish w c reason h) = w_cells w.
Proof. unfold finish. by repeat case_match. Qed.

Lemma within_limit_cells w w' s : w_cells w' = w_cells w -> within_limit w s -> within_limit w' s.
Proof. intros H. unfold within_limit, cell_of. by rewrite H. Qed.

Lemma route_one_limits m from st s :
  world_wf (rt_world st) -> (Z.of_nat (w_next (rt_world st)) < u64_modulus)%Z ->
  owns_cell (rt_world st) s -> limits_ok (rt_world st) (rt_expired st) ->
  limits_ok (rt_world (route_one m from st s)) (rt_expired (route_one m from st s)) /\
  (forall t, t ∈ registered (rt_world (route_one m from st s)) -> t ∈ registered (rt_world st)) /\
  (forall t, t ∈ rt_expired (route_one m from st s) -> t ∈ rt_expired st \/ t = s).
Proof.
  intros Hw Hmax Hown Hl. unfold route_one. destruct (negb _); [naive_solver |]. unfold give.
  pose proof (deliver_wf (rt_world st) s m Hw) as Hw1.
  destruct (deliver_reg (rt_world st) s m) as (Hr1 & Hx1 & Hn1).
  assert (Hl1 : limits_ok (deliver (rt_world st) s m).1 (rt_expired st)).
  { intros t Ht. unfold registered in Ht. rewrite Hr1 in Ht. destruct (Hl t Ht) as [H | H]; [left | by right].
    by eapply within_limit_cells. }
  assert (Hown1 : owns_cell (deliver (rt_world st) s m).1 s).
  { intros t Ht. unfold registered in Ht. rewrite Hr1 in Ht. by apply Hown. }
  assert (Hreg : forall t, t ∈ registered (deliver (rt_world st) s m).1 -> t ∈ registered (rt_world st))
    by (intros t; unfold registered; by rewrite Hr1).
  assert (Hex : forall (b : bool) t, t ∈ (if b then rt_expired st ++ [s] else rt_expired st) ->
            t ∈ rt_expired st \/ t = s).
  { intros [] t; [| by left]. rewrite elem_of_app, list_elem_of_singleton. tauto. }
  destruct (deliver (rt_world st) s m) as [w1 r]. simpl in *.
  pose proof (account_limits w1 s (rt_expired st) Hw1 Hown1 Hl1) as Hacc. unfold account in Hacc. simpl in Hacc.
  destruct r; simpl; [by split_and!; [| | apply Hex].. | | by split_and!; [| | left]].
  split_and!; [| | by apply (Hex true)].
  - intros t Ht. apply finish_registered in Ht; [| done | by rewrite Hn1].
    destruct (Hl1 t Ht) as [H | H]; [left | right; apply elem_of_app; by left].
    eapply within_limit_cells; [apply finish_cells | done].
  - intros t Ht. apply Hreg. apply finish_registered in Ht; [done | done | by rewrite Hn1].
Qed.

Lemma route_loop_limits m from list st :
  world_wf (rt_world st) -> (Z.of_nat (w_next (rt_world st)) < u64_modulus)%Z ->
  Forall (owns_cell (rt_world st)) list -> limits_ok (rt_world st) (rt_expired st) ->
  limits_ok (rt_world (route_loop m from list st)) (rt_expired (route_loop m from list st)) /\
  (forall t, t ∈ rt_expired (route_loop m from list st) -> t ∈ rt_expired st \/ t ∈ list).
Proof.
  revert st. induction list as [| s list IH]; intros st Hw Hmax Hown Hl; simpl.
  { split; [done |]. by left. }
  apply Forall_cons in Hown as [Hs Hown].
  destruct (route_one_limits m from st s Hw Hmax Hs Hl) as (H1 & H2 & H3).
  destruct (route_one_wf m from st s Hmax Hw) as [Hw' Hn].
  destruct (IH (route_one m from st s)) as [H4 H5]; [done | by rewrite Hn | | done |].
  - eapply Forall_impl; [exact Hown |]. intros t Ht u Hu. apply Ht. auto.
  - split; [done |]. intros t Ht. apply H5 in Ht as [Ht | Ht].
    + apply H3 in Ht as [? | ->]; [by left |]. right. constructor.
    + right. by constructor.
Qed.

Lemma removes_self s : removes s s = true.
Proof. unfold removes, hit. rewrite !bool_decide_true by done. simpl. by destruct (wildcard s). Qed.

(** ** Lemmas: the whole of [route] *)

(** The invariant of the server's state: it is well formed, and no subscription in
    the registry has reached its limit. *)
Definition world_ok (w : World) : Prop := world_wf w /\ limits_ok w [].

(** The counters are at least [n] away from wrapping. *)
Definition headroom (w : World) (n : Z) : Prop :=
  (0 <= generation (w_reg w))%Z /\
  (Z.of_nat (w_next w) + generation (w_reg w) + n < usize_max)%Z.

Lemma route_list_facts w m from i :
  world_wf w -> coherent (w_reg w) i -> generation (w_reg w) <> usize_max ->
  let '(r, i', l) := route_list w m from i in
  inner r = inner (w_reg w) /\ generation r = generation (w_reg w) /\ coherent (w_reg w) i' /\
  (forall s, s ∈ l -> s ∈ registered w /\ matches (subject s) (msg_subject m) = true) /\
  (blen l <= Z.of_nat (w_next w))%Z.
Proof.
  intros Hw Hco Hgen. unfold route_list.
  pose proof (refresh_coherent _ (msg_subject m) _ Hco) as Hco'.
  destruct (refresh_correct _ (msg_subject m) _ Hco Hgen) as (_ & Hsubs & _).
  set (i1 := refresh (w_reg w) (msg_subject m) i) in *.
  pose proof (resolve_subs_correct (w_reg w) (msg_subject m) (proj1 Hw)) as Hp.
  assert (Hin : forall s, s ∈ in_subs i1 -> s ∈ registered w /\ matches (subject s) (msg_subject m) = true).
  { intros s. rewrite Hsubs, Hp. apply elem_of_retain. }
  assert (Hlen : (blen (in_subs i1) <= Z.of_nat (w_next w))%Z).
  { rewrite Hsubs, (blen_Permutation _ _ Hp). pose proof (registered_bound w Hw) as Hb. unfold registered in Hb.
    pose proof (retain_le (fun s => matches (subject s) (msg_subject m)) (all_subs (inner (w_reg w)))). lia. }
  destruct (in_queue i1); [| done].
  pose proof (pick_groups_same (eligible w from) (fun s => conn_has_room w (conn s)) (w_reg w) i1)
    as (H1 & H2 & H3 & H4 & H5 & H6).
  pose proof (pick_groups_subset (eligible w from) (fun s => conn_has_room w (conn s)) (w_reg w) i1) as H7.
  pose proof (pick_groups_length (eligible w from) (fun s => conn_has_room w (conn s)) (w_reg w) i1) as H8.
  destruct (pick_groups _ _ _ _) as [r i2]. simpl in *.
  split_and!; [done | done | | auto | lia].
  unfold coherent in *. by rewrite H3, H4, H5, H6.
Qed.

Lemma finish_evolves w c reason h :
  world_wf w -> headroom w 2 -> evolves (w_reg w) (w_reg (finish w c reason h)) 1.
Proof.
  intros Hw [H0 Hh]. unfold finish. destruct (w_conns w !! c) as [cn |]; [| by apply evolves_refl].
  destruct (c_closed cn); [by apply evolves_refl |]. simpl.
  pose proof (registered_bound w Hw) as Hb. unfold registered, usize_max in *.
  apply (evolves_step _ (Op_remove_conn c)); [apply Hw | done | lia..].
Qed.

Lemma route_one_evolves m from st s :
  world_wf (rt_world st) -> headroom (rt_world st) 2 ->
  evolves (w_reg (rt_world st)) (w_reg (rt_world (route_one m from st s))) 1.
Proof.
  intros Hw Hh. unfold route_one. destruct (negb _); [by apply evolves_refl |]. unfold give.
  pose proof (deliver_wf (rt_world st) s m Hw) as Hw1.
  destruct (deliver_reg (rt_world st) s m) as (Hr1 & _ & Hn1).
  destruct (deliver (rt_world st) s m) as [w1 []]; simpl in *; rewrite <- Hr1; try by apply evolves_refl.
  apply finish_evolves; [done |]. unfold headroom. by rewrite Hr1, Hn1.
Qed.

Lemma headroom_evolves w w' n k :
  evolves (w_reg w) (w_reg w') k -> w_next w' = w_next w -> headroom w (n + k) -> headroom w' n.
Proof. intros [Hg _] Hn [H0 H1]. unfold headroom. rewrite Hn. lia. Qed.

Lemma route_loop_evolves m from list st :
  world_wf (rt_world st) -> headroom (rt_world st) (blen list + 1) ->
  evolves (w_reg (rt_world st)) (w_reg (rt_world (route_loop m from list st))) (blen list).
Proof.
  revert st. induction list as [| s list IH]; intros st Hw Hh; simpl; [by apply evolves_refl |].
  rewrite blen_cons in *. pose proof (blen_nonneg list) as Hb.
  assert (Hmax : (Z.of_nat (w_next (rt_world st)) < u64_modulus)%Z).
  { destruct Hh as [? ?]. unfold usize_max in *. lia. }
  destruct (route_one_wf m from st s Hmax Hw) as [Hw' Hn].
  assert (He : evolves (w_reg (rt_world st)) (w_reg (rt_world (route_one m from st s))) 1).
  { apply route_one_evolves; [done |]. destruct Hh as [? ?]. split; [done | lia]. }
  eapply evolves_trans; [exact He |]. apply IH; [done |].
  eapply headroom_evolves; [exact He | done |]. destruct Hh as [? ?]. split; [done | lia].
Qed.

Lemma expire_evolves r expired :
  (0 <= generation r)%Z -> (generation r + 1 < u64_modulus)%Z -> evolves r (expire r expired) 1.
Proof.
  intros H0 H1. unfold expire. destruct (is_empty expired); [by apply evolves_refl |]. by apply evolves_changed.
Qed.

Lemma registered_made w s : world_wf w -> s ∈ registered w -> made s.
Proof. intros (Hr & _) Hs. destruct Hr as (_ & [Hall _] & _). rewrite Forall_forall in Hall. by apply Hall. Qed.

Lemma registered_owns_cell w s : world_wf w -> s ∈ registered w -> owns_cell w s.
Proof.
  intros (_ & _ & Hk & Hu & _) Hs t Ht He. rewrite Forall_forall in Hk. by apply Hu; auto.
Qed.

Lemma world_ok_set_reg w r :
  world_ok w -> inner r = inner (w_reg w) -> world_ok (set_reg w r).
Proof.
  intros [Hw Hl] Hi. split.
  - apply world_wf_set_reg; [done | rewrite Hi; apply Hw | intros s; by rewrite Hi].
  - intros s Hs. unfold registered in Hs. simpl in Hs. rewrite Hi in Hs. by apply Hl.
Qed.

(** [route] keeps the invariant, leaves the caller's cache coherent, and every
    other cache too. *)
Lemma route_ok w m from i :
  world_ok w -> coherent (w_reg w) i -> headroom w (Z.of_nat (w_next w) + 2) ->
  let '(w', i', d) := route w m from i in
  world_ok w' /\ coherent (w_reg w') i' /\ w_next w' = w_next w /\
  evolves (w_reg w) (w_reg w') (Z.of_nat (w_next w) + 1).
Proof.
  intros Hok Hco Hh. pose proof Hok as [Hw Hl]. pose proof Hh as [H0 H1]. unfold usize_max in H1.
  pose proof (route_list_facts w m from i Hw Hco ltac:(unfold usize_max; lia)) as Hfacts. unfold route.
  destruct (route_list w m from i) as [[r i'] l]. destruct Hfacts as (Hi & Hg & Hco' & Hin & Hlen).
  assert (Her : forall n, (0 <= n)%Z -> evolves (w_reg w) r n) by (intros; by apply evolves_same).
  pose proof (world_ok_set_reg w r Hok Hi) as Hok1.
  destruct (is_empty l).
  { split_and!; [done | by apply (Her 0%Z) | done | apply Her; lia]. }
  set (st := mkRouteState (set_reg w r) 0 [] []). pose proof Hok1 as [Hw1 Hl1].
  assert (Hreg1 : registered (rt_world st) = registered w) by (unfold registered; simpl; by rewrite Hi).
  assert (Hh1 : headroom (rt_world st) (blen l + 1)).
  { split; simpl; rewrite Hg; [done |]. unfold usize_max. lia. }
  destruct (route_loop_wf m from l st) as [Hw2 Hn2]; [simpl; lia | done |].
  destruct (route_loop_limits m from l st) as [Hl2 Hex]; [done | simpl; lia | | done |].
  { apply Forall_forall. intros s Hs. apply registered_owns_cell; [done |]. rewrite Hreg1. by apply Hin. }
  assert (Hmade : Forall made (rt_expired (route_loop m from l st))).
  { apply Forall_forall. intros s Hs. apply Hex in Hs as [Hs | Hs]; [by apply not_elem_of_nil in Hs |].
    apply (registered_made w); [done |]. by apply Hin. }
  pose proof (route_loop_evolves m from l st Hw1 Hh1) as He2.
  set (st2 := route_loop m from l st) in *.
  destruct (expire_wf (rt_world st2) (rt_expired st2) Hw2) as [Hw3 Hin3]; [rewrite Hn2; simpl; lia | done |].
  assert (He3 : evolves (w_reg w) (expire (w_reg (rt_world st2)) (rt_expired st2)) (blen l + 1)).
  { pose proof (evolves_trans _ _ _ _ _ (Her 0%Z ltac:(lia)) He2) as He. rewrite Z.add_0_l in He.
    eapply evolves_trans; [exact He |]. destruct He as [He _].
    apply expire_evolves; [lia |]. lia. }
  split_and!; [split; [done |] | by apply He3 | simpl; by rewrite Hn2 | eapply evolves_weaken; [exact He3 | lia]].
  intros s Hs. unfold registered in Hs. simpl in Hs. apply Hin3 in Hs as [Hs Hall].
  left. destruct (Hl2 s Hs) as [H | H]; [done |]. rewrite Forall_forall in Hall.
  specialize (Hall s H). by rewrite removes_self in Hall.
Qed.

(** What routing does to one connection that has room for its frames. *)
Lemma route_feeds w m from i c cn :
  world_wf w -> w_conns w !! c = Some cn ->
  let frames := frames_for w from c cn m (route_list w m from i).2 in
  accepts cn (blen (concat frames)) ->
  exists cn', w_conns (route w m from i).1.1 !! c = Some cn' /\ fed cn cn' frames.
Proof.
  intros Hw Hc frames Hacc. subst frames. unfold route.
  destruct (route_list w m from i) as [[r i'] l]. simpl in Hacc |- *.
  assert (Hwf : conn_wf cn) by (by apply Hw in Hc as [? _]).
  assert (Hex : exists cn', w_conns (rt_world (route_loop m from l (mkRouteState (set_reg w r) 0 [] []))) !! c = Some cn' /\
    fed cn cn' (frames_for w from c cn m l)).
  { by apply (route_loop_fits m from l (mkRouteState (set_reg w r) 0 [] []) c cn). }
  destruct (is_empty l) eqn:E; [| done]. by bool_to_prop.
Qed.

(** ** Properties *)

(** C16: a message is offered to the right subscriptions.  With a coherent cache,
    the list [route] walks has every plain subscription of the registry whose filter
    matches the subject, exactly once, and of each queue group that matches exactly
    one eligible member (with room, if one has room), or nobody if no member is
    eligible.  (The random start must not be within [length] of 2^64.) *)
Theorem route_list_correct w m from i :
  world_wf w -> coherent (w_reg w) i -> generation (w_reg w) <> usize_max ->
  ((next_u64 (rng (w_reg w))).2 + blen (registered w) <= u64_modulus)%Z ->
  let l := (route_list w m from i).2 in
  let matching := retain (fun s => matches (subject s) (msg_subject m)) (registered w) in
  retain plain l ≡ₚ retain plain matching /\
  (existsb queued matching = false -> l ≡ₚ matching) /\
  (existsb queued matching = true -> forall g,
     group_choice (eligible w from) (fun s => conn_has_room w (conn s)) matching g (retain (in_group g) l)).
Proof.
  intros Hw Hco Hgen Hrng l matching. subst l. unfold route_list.
  destruct (refresh_correct _ (msg_subject m) _ Hco Hgen) as (_ & Hsubs & Hq).
  pose proof (resolve_subs_correct (w_reg w) (msg_subject m) (proj1 Hw)) as Hp.
  change (retain _ (all_subs _)) with matching in Hp.
  rewrite (existsb_Permutation _ _ _ Hp) in Hq. rewrite Hq.
  set (i1 := refresh (w_reg w) (msg_subject m) i) in *. rewrite <- Hsubs in Hp.
  destruct (existsb queued matching) eqn:E; [| by rewrite <- Hp].
  assert (Hmax : ((next_u64 (rng (w_reg w))).2 + blen (in_subs i1) <= u64_modulus)%Z).
  { rewrite (blen_Permutation _ _ Hp). unfold matching.
    pose proof (retain_le (fun s => matches (subject s) (msg_subject m)) (registered w)). lia. }
  pose proof (next_u64_range (rng (w_reg w))) as [H0 _]. unfold pick_groups.
  destruct (next_u64 (rng (w_reg w))) as [rng' start]. simpl in Hmax, H0.
  destruct (pick_loop_picks (eligible w from) (fun s => conn_has_room w (conn s)) start (in_subs i1) H0 Hmax
              0 (in_subs i1) [] []) as (picks & Hpk & H1 & _ & H3); [done |].
  destruct (pick_loop _ _ _ _ _ _ _ _) as [out groups]. simpl in Hpk |- *. subst out.
  split_and!; [by rewrite H1, Hp | done |]. intros _ g. specialize (H3 g (not_elem_of_nil g)).
  unfold group_choice in *. setoid_rewrite <- Hp. done.
Qed.

(** C4: every subscriber with room gets its copy, once and in order.  When a message
    is routed, a connection whose outbox can take the frames it is owed gets
    exactly those frames, appended to what is queued: one per subscription of that
    connection on the list, in the list's order, each the protocol text for that
    subscription (none if the publisher turned echo off and this is its own
    connection).  It stays open, whatever becomes of the other subscribers. *)
Theorem route_delivers w m from i c cn :
  world_wf w -> w_conns w !! c = Some cn ->
  let l := (route_list w m from i).2 in
  let frames := frames_for w from c cn m l in
  accepts cn (blen (concat frames)) ->
  exists cn', w_conns (route w m from i).1.1 !! c = Some cn' /\ c_closed cn' = false /\
    ch_queue (ob_chan (c_out cn')) = ch_queue (ob_chan (c_out cn)) ++ frames /\
    pending (c_out cn') = (pending (c_out cn) + blen (concat frames))%Z.
Proof.
  intros Hw Hc l frames Hacc.
  destruct (route_feeds w m from i c cn Hw Hc Hacc) as (cn' & Hc' & _ & Hcl & _ & _ & H5 & _ & H7 & _).
  exists cn'. rewrite Hcl. destruct Hacc as [Hop _]. by split_and!.
Qed.

(** The count that decides whether anybody answers is exact: when every open
    connection has room for what it is owed, [route] reports one delivery for each
    eligible subscription it walked. *)
Lemma route_counts_deliveries w m from i :
  world_wf w ->
  let l := (route_list w m from i).2 in
  all_accept w from m l ->
  count (route w m from i).2 = blen (retain (eligible w from) l).
Proof.
  intros Hw l Hall. subst l. unfold route. destruct (route_list w m from i) as [[r i'] l]. simpl in Hall |- *.
  pose proof (route_loop_count m from l (mkRouteState (set_reg w r) 0 [] []) Hall) as H. simpl in H.
  destruct (is_empty l) eqn:E; [by bool_to_prop |]. simpl. done.
Qed.

End Route.
