(* ===== verification/Client.v ===== *)
(** * The reader task: one event at a time (crates/server/src/client.rs, [handle])

    What each parsed operation does to the server's state, with the no-responder
    rule of lib.rs, and the invariant every operation keeps. *)

From Stdlib Require Import String Strings.Byte.
From S2P Require Import Prelude Subjects Proto Nuid Frames External Arena Outbox Options Registry Interest QueueGroups Conn Route.

Section Client.

Context `{BML : BytesMutLaws} `{CHL : ChannelLaws} {J : SerdeJsonLib}.

(** ** Definitions *)

(** [Server::send_err]. *)
Definition send_err (w : World) (c : cref) (text : string) : World :=
  (conn_enqueue w c (frame_err text)).1.

(** [conn.enqueue] where the outcome is not looked at. *)
Definition say (w : World) (c : cref) (frame : bytes) : World := (conn_enqueue w c frame).1.

Definition no_responder_check (w : World) (c : cref) (m : Msg) (reply : option bytes) (delivered : Z) :
    World :=
  if negb (delivered =? 0)%Z || negb (no_responders (opts w c)) then w
  else
    match reply with
    | Some (b :: r) =>
        foldl (fun w s => say w c (no_responder_frame (b :: r) s (msg_subject m))) w
              (matching_of (w_reg w) c (b :: r))
    | _ => w
    end.

(** The table of a connection. *)
Definition subs_of (w : World) (c : cref) : gmap bytes Sub := from_option c_subs ∅ (w_conns w !! c).

Definition handle_subscribe (w : World) (c : cref) (subj : bytes) (q : option bytes) (s : bytes) : World :=
  if bool_decide (is_Some (subs_of w c !! s)) then w
  else
    let sub := sub_new (w_next w) subj q s c in
    let w1 := mkWorld (w_conns w) (<[w_next w := mkCell 0 0]> (w_cells w)) (w_reg w) (S (w_next w)) in
    let (r, inserted) := insert (w_reg w1) sub in
    let w2 := set_reg w1 r in
    if inserted then upd_conn w2 c (fun cn => set_subs cn (<[s := sub]> (c_subs cn))) else w2.

Definition handle_unsubscribe (w : World) (c : cref) (s : bytes) (max : Z) : World :=
  match subs_of w c !! s with
  | Some sub =>
      let (w1, gone) := set_limit w sub max in
      if gone then
        let w2 := upd_conn w1 c (fun cn => set_subs cn (delete s (c_subs cn))) in
        set_reg w2 (remove (w_reg w2) sub)
      else w1
  | None => w
  end.

(** What [handle] answers: the state, the task's cache, the connections it then
    waits for, and whether the connection goes on. *)
Definition Handled : Type := World * Interest * list cref * bool.

Definition handle_publish (w : World) (c : cref) (i : Interest) (subj : bytes) (reply : option bytes)
    (hdr : Z) (body : bytes) (hpub : bool) : Handled :=
  let o := opts w c in
  if hpub && negb (headers o) then (w, i, [], false)
  else
    let w1 := if pedantic o && negb (is_valid_publish subj)
              then send_err w c INVALID_PUBLISH_SUBJECT else w in
    let w2 := if verbose o then say w1 c frame_ok else w1 in
    if is_empty subj then (w2, i, [], true)
    else
      let m := mkMsg subj reply hdr body in
      let '(w3, i', d) := route w2 m c i in
      (no_responder_check w3 c m reply (count d), i', stall d, true).

Definition handle (w : World) (c : cref) (ev : Event) (i : Interest) : Handled :=
  let verb := verbose (opts w c) in
  let ok w := if verb then say w c frame_ok else w in
  match ev with
  | EvConnect json =>
      let (o, parsed) := apply_connect (opts w c) json in
      if negb parsed then (w, i, [], false)
      else
        let w1 := set_opts w c o in
        (if verbose o then say w1 c frame_ok else w1, i, [], true)
  | EvSubscribe subj q s =>
      if negb (is_valid subj) || from_option (fun q => negb (is_valid q)) false q
      then (send_err w c INVALID_SUBJECT, i, [], true)
      else (ok (handle_subscribe w c subj q s), i, [], true)
  | EvUnsubscribe s max => (ok (handle_unsubscribe w c s max), i, [], true)
  | EvPublish subj reply hdr total body hpub => handle_publish w c i subj reply hdr body hpub
  | EvPing => (say w c frame_pong, i, [], true)
  | EvPong => (note_pong w c, i, [], true)
  | EvInfo arg => (w, i, [], info_is_an_object arg)
  | EvClientOk => (w, i, [], true)
  | EvHpubAttempt outcome =>
      if negb (headers (opts w c)) then (w, i, [], false)
      else
        match outcome with
        | Hpub_Ok => (w, i, [], true)
        | Hpub_Args => (w, i, [], false)
        | Hpub_Frame text => (send_err w c text, i, [], false)
        end
  | EvClientErr => (w, i, [], false)
  end.

(** The wait for a stalled subscriber is over. *)
Definition stall_over (w : World) (c : cref) : bool := is_closed w c || conn_has_room w c.

(** ** Lemmas *)

(** Saying something changes one outbox and nothing else. *)
Lemma say_same w c f :
  w_reg (say w c f) = w_reg w /\ w_cells (say w c f) = w_cells w /\ w_next (say w c f) = w_next w /\
  subs_of (say w c f) c = subs_of w c /\ (forall d, flags_of (say w c f) d = flags_of w d) /\
  (forall d, is_Some (w_conns (say w c f) !! d) <-> is_Some (w_conns w !! d)).
Proof.
  unfold say, conn_enqueue. destruct (w_conns w !! c) as [cn |] eqn:Hc; [| done].
  destruct (c_closed cn); [done |]. destruct (enqueue (c_out cn) f) as [o r]. simpl.
  split_and!; try done.
  - unfold subs_of. simpl. by rewrite lookup_insert_eq, Hc.
  - intros d. unfold flags_of. simpl. destruct (decide (c = d)) as [<- | Hne];
      [by rewrite lookup_insert_eq, Hc | by rewrite lookup_insert_ne].
  - intros d. simpl. destruct (decide (c = d)) as [<- | Hne];
      [rewrite lookup_insert_eq, Hc; split; eauto | by rewrite lookup_insert_ne].
Qed.

(** A later state of the server, in which every cache is still usable. *)
Definition later (w w' : World) (n : Z) : Prop :=
  world_ok w' /\ evolves (w_reg w) (w_reg w') n /\ (Z.of_nat (w_next w') <= Z.of_nat (w_next w) + 1)%Z.

Lemma later_same w w' :
  world_ok w -> world_wf w' -> w_reg w' = w_reg w -> w_cells w' = w_cells w -> w_next w' = w_next w ->
  later w w' 0.
Proof.
  intros [_ Hl] Hw Hr Hx Hn. split_and!; [split; [done |] | rewrite Hr; by apply evolves_refl | lia].
  intros s Hs. unfold registered in Hs. rewrite Hr in Hs. destruct (Hl s Hs) as [H | H]; [left | by right].
  by eapply within_limit_cells.
Qed.

Lemma say_later w c f : world_ok w -> later w (say w c f) 0.
Proof.
  intros Hok. destruct (say_same w c f) as (Hr & Hx & Hn & _). apply later_same; try done.
  by apply conn_enqueue_wf, Hok.
Qed.

Lemma say_ok w c f : world_ok w -> world_ok (say w c f).
Proof. intros H. by apply (say_later w c f). Qed.

Lemma say_list_ok {A} (g : A -> bytes) w c (l : list A) :
  world_ok w ->
  let w' := foldl (fun w s => say w c (g s)) w l in
  world_ok w' /\ w_reg w' = w_reg w /\ w_next w' = w_next w.
Proof.
  revert w. induction l as [| s l IH]; intros w Hok; simpl; [done |].
  destruct (say_same w c (g s)) as (Hr & _ & Hn & _).
  destruct (IH (say w c (g s)) (say_ok _ _ _ Hok)) as (H1 & H2 & H3). by rewrite H2, H3, Hr, Hn.
Qed.

Lemma no_responder_check_ok w c m reply n :
  world_ok w ->
  let w' := no_responder_check w c m reply n in
  world_ok w' /\ w_reg w' = w_reg w /\ w_next w' = w_next w.
Proof.
  intros Hok. unfold no_responder_check. destruct (_ || _); [done |].
  destruct reply as [[| b r] |]; [done | | done].
  apply (say_list_ok (fun s => no_responder_frame (b :: r) s (msg_subject m))), Hok.
Qed.

(** ** Subscribing *)

Lemma handle_subscribe_new w c cn subj q s :
  w_conns w !! c = Some cn -> c_subs cn !! s = None -> is_valid subj = true ->
  handle_subscribe w c subj q s = add_sub w c cn (sub_new (w_next w) subj q s c).
Proof.
  intros Hc Hnew Hv. unfold handle_subscribe, subs_of. rewrite Hc. simpl. rewrite Hnew.
  rewrite bool_decide_false by (by intros [? ?]). unfold insert, add_sub, insert. simpl. rewrite Hv. simpl.
  destruct (inner_insert _ _) as [i []]; unfold upd_conn; simpl; by rewrite Hc.
Qed.

Lemma handle_subscribe_known w c subj q s :
  is_Some (subs_of w c !! s) -> handle_subscribe w c subj q s = w.
Proof. intros H. unfold handle_subscribe. by rewrite bool_decide_true. Qed.

Lemma add_sub_limits w c cn s :
  world_ok w -> sub_ref s = w_next w -> made s -> is_valid (subject s) = true ->
  (Z.of_nat (w_next w) + 1 < u64_modulus)%Z -> limits_ok (add_sub w c cn s) [].
Proof.
  intros [Hw Hl] Href Hm Hv Hmax t Ht. left. destruct (insert_registered w s Hw Hm Hv Hmax) as (_ & Hin & _).
  apply Hin in Ht as [Ht | ->].
  - destruct (Hl t Ht) as [H | H]; [| by apply not_elem_of_nil in H].
    assert (Hlt : sub_ref t < w_next w).
    { destruct Hw as (_ & Hcs & Hk & _). rewrite Forall_forall in Hk. destruct (Hk t Ht) as (dn & Hd & Hsid).
      apply Hcs in Hd as [_ Hd]. by apply Hd in Hsid as (_ & _ & _ & _ & ? & _). }
    unfold within_limit, cell_of in *. simpl. by rewrite lookup_insert_ne by lia.
  - left. unfold cell_of. simpl. by rewrite lookup_insert_eq.
Qed.

Lemma handle_subscribe_later w c subj q s :
  world_ok w -> is_Some (w_conns w !! c) -> is_valid subj = true -> headroom w 2 ->
  later w (handle_subscribe w c subj q s) 1.
Proof.
  intros Hok [cn Hc] Hv [H0 H1]. unfold usize_max in H1. pose proof Hok as [Hw Hl].
  destruct (c_subs cn !! s) as [sub |] eqn:Hs.
  { rewrite handle_subscribe_known by (unfold subs_of; rewrite Hc; simpl; rewrite Hs; eauto).
    split_and!; [done | by apply evolves_refl | lia]. }
  rewrite (handle_subscribe_new w c cn) by done. set (x := sub_new (w_next w) subj q s c).
  split_and!; [split | | simpl; lia].
  - apply add_sub_wf; try done. lia.
  - apply add_sub_limits; try done. lia.
  - pose proof (registered_bound w Hw) as Hb. unfold registered in Hb.
    apply (evolves_step _ (Op_insert x)); [apply Hw | done | lia..].
Qed.

(** ** Unsubscribing *)

Lemma set_limit_later w s max :
  world_ok w -> known w s -> (max < 2 ^ 63)%Z ->
  world_ok (set_limit w s max).1 /\ w_reg (set_limit w s max).1 = w_reg w /\
  w_conns (set_limit w s max).1 = w_conns w /\ w_next (set_limit w s max).1 = w_next w.
Proof.
  intros [Hw Hl] Hs Hmax. split_and!; try (unfold set_limit; by case_match). split; [by apply set_limit_wf |].
  destruct (cell_of_wf w s Hw) as [Hd _]. pose proof Hw as (_ & _ & Hk & Hu & _). rewrite Forall_forall in Hk.
  assert (Hreg : registered (set_limit w s max).1 = registered w) by (unfold set_limit; by case_match).
  intros t Ht. rewrite Hreg in Ht. left. destruct (decide (sub_ref t = sub_ref s)) as [He | Hne].
  - rewrite (Hu t s) by auto. unfold set_limit, within_limit, cell_of.
    destruct (_ && _) eqn:E; simpl; rewrite lookup_insert_eq; simpl; [| by left].
    fold (cell_of w s) in *. bool_to_prop. right. lia.
  - destruct (Hl t Ht) as [H | H]; [| by apply not_elem_of_nil in H].
    unfold set_limit, within_limit, cell_of in *. destruct (_ && _); simpl; by rewrite lookup_insert_ne.
Qed.

(** Taking a subscription out of its table and out of the registry. *)
Definition drop_sub (w : World) (c : cref) (cn : Conn) (sub : Sub) : World :=
  set_reg (set_conn w c (set_subs cn (delete (sid sub) (c_subs cn)))) (remove (w_reg w) sub).

Lemma drop_sub_known w c cn sub t :
  w_conns w !! c = Some cn -> c_subs cn !! sid sub = Some sub -> conn sub = c ->
  known (drop_sub w c cn sub) t <-> known w t /\ t <> sub.
Proof.
  intros Hc Hs Hconn. unfold known. simpl. destruct (decide (c = conn t)) as [Ht | Hne].
  - rewrite <- Ht, lookup_insert_eq, Hc. split.
    + intros (? & [= <-] & H). simpl in H. apply lookup_delete_Some in H as [Hne H]. split; [eauto |]. congruence.
    + intros [(? & [= <-] & H) Hne]. eexists. split; [done |]. simpl.
      rewrite lookup_delete_ne; [done |]. congruence.
  - rewrite lookup_insert_ne by done. split; [| by intros [? _]]. intros H. split; [done |]. congruence.
Qed.

Lemma drop_sub_ok w c cn sub :
  world_ok w -> w_conns w !! c = Some cn -> c_subs cn !! sid sub = Some sub -> headroom w 2 ->
  later w (drop_sub w c cn sub) 1.
Proof.
  intros [Hw Hl] Hc Hs [H0 H1]. unfold usize_max in H1. pose proof Hw as (Hr & Hcs & Hk & Hu & Hx).
  destruct (Hcs _ _ Hc) as [Hwf Ht]. destruct (Ht _ _ Hs) as (_ & Hconn & Hm & _).
  pose proof (registered_bound w Hw) as Hb. unfold registered in Hb.
  destruct (reg_step_correct (w_reg w) (Op_remove sub) Hr Hm) as [Hr' Hp]; [lia |]. simpl in Hr', Hp.
  assert (Hin : forall t, t ∈ registered (drop_sub w c cn sub) -> t ∈ registered w /\ t <> sub).
  { intros t. unfold registered. simpl. rewrite Hp, elem_of_retain, negb_true_iff.
    intros [Hin Hne]. split; [done |]. intros ->. by rewrite removes_self in Hne. }
  rewrite Forall_forall in Hk. split_and!; [split; [split_and! |] | | simpl; lia].
  - done.
  - intros d dn Hd. simpl in Hd. apply lookup_insert_Some in Hd as [[<- <-] | [_ Hd]]; [| by apply Hcs].
    split; [done |]. intros k t Hkt. simpl in Hkt. apply lookup_delete_Some in Hkt as [_ Hkt]. by apply Ht.
  - apply Forall_forall. intros t [Hreg Hne]%Hin. apply (drop_sub_known w c cn sub t Hc Hs Hconn). auto.
  - intros t u [H2 _]%(drop_sub_known w c cn sub t Hc Hs Hconn) [H3 _]%(drop_sub_known w c cn sub u Hc Hs Hconn).
    by apply Hu.
  - done.
  - intros t [Hreg _]%Hin. by apply Hl.
  - apply (evolves_step _ (Op_remove sub)); [done | done | lia..].
Qed.

Lemma handle_unsubscribe_later w c s max :
  world_ok w -> is_Some (w_conns w !! c) -> (max < 2 ^ 63)%Z -> headroom w 2 ->
  later w (handle_unsubscribe w c s max) 1.
Proof.
  intros Hok [cn Hc] Hmax Hh. unfold handle_unsubscribe, subs_of. rewrite Hc. simpl.
  destruct (c_subs cn !! s) as [sub |] eqn:Hs; [| split_and!; [done | by apply evolves_refl | lia]].
  pose proof Hok as [(_ & Hcs & _) _]. destruct (Hcs _ _ Hc) as [_ Ht].
  destruct (Ht _ _ Hs) as (<- & Hconn & _).
  assert (Hkn : known w sub) by (exists cn; by rewrite Hconn).
  destruct (set_limit_later w sub max Hok Hkn Hmax) as (Hok1 & Hr1 & Hc1 & Hn1).
  destruct (set_limit w sub max) as [w1 []]; simpl in *.
  - unfold upd_conn. rewrite Hc1, Hc. change (set_reg _ _) with (drop_sub w1 c cn sub).
    destruct (drop_sub_ok w1 c cn sub Hok1) as (H1 & H2 & H3); [by rewrite Hc1 | done | |].
    + unfold headroom. by rewrite Hr1, Hn1.
    + split_and!; [done | by rewrite <- Hr1 | by rewrite <- Hn1].
  - split_and!; [done | rewrite Hr1; by apply evolves_refl | lia].
Qed.

(** ** Every event *)

(** The one number an event carries that an atomic stores. *)
Definition event_fits (ev : Event) : Prop :=
  match ev with EvUnsubscribe _ max => (max < 2 ^ 63)%Z | _ => True end.

Definition handled_ok (w : World) (h : Handled) : Prop :=
  let '(w', i', _, _) := h in
  later w w' (Z.of_nat (w_next w) + 1) /\ coherent (w_reg w') i'.
Arguments handled_ok : simpl never.

Lemma later_handled w w' i n waits b :
  later w w' n -> (n <= Z.of_nat (w_next w) + 1)%Z -> coherent (w_reg w) i ->
  handled_ok w (w', i, waits, b).
Proof.
  intros (H1 & H2 & H3) Hn Hco. split; [| by apply H2].
  split_and!; [done | by eapply evolves_weaken | done].
Qed.

Lemma later_say w w' c f n : later w w' n -> later w (say w' c f) n.
Proof.
  intros (H1 & H2 & H3). destruct (say_same w' c f) as (Hr & _ & Hn & _).
  split_and!; [by apply say_ok | by rewrite Hr | by rewrite Hn].
Qed.

Lemma later_refl w n : world_ok w -> (0 <= n)%Z -> later w w n.
Proof. intros H Hn. split_and!; [done | by apply evolves_refl | lia]. Qed.

Lemma later_say_if (b : bool) w w' c f n :
  later w w' n -> later w (if b then say w' c f else w') n.
Proof. destruct b; [apply later_say | done]. Qed.

Lemma set_opts_later w c o : world_ok w -> later w (set_opts w c o) 0.
Proof.
  intros Hok. apply later_same; [done | apply set_opts_wf, Hok | | |];
    unfold set_opts, upd_conn; by case_match.
Qed.

Lemma note_pong_later w c : world_ok w -> later w (note_pong w c) 0.
Proof.
  intros Hok. apply later_same; [done | apply note_pong_wf, Hok | | |];
    unfold note_pong, upd_conn; by case_match.
Qed.

Lemma handle_publish_ok w c i subj reply hdr body hpub :
  world_ok w -> coherent (w_reg w) i -> headroom w (Z.of_nat (w_next w) + 2) ->
  handled_ok w (handle_publish w c i subj reply hdr body hpub).
Proof.
  intros Hok Hco Hh. unfold handle_publish. pose proof (later_refl w 0 Hok ltac:(lia)) as Hrefl.
  destruct (hpub && _); [eapply later_handled; [done | lia | done] |].
  set (w1 := if pedantic _ && _ then _ else w).
  assert (Hs1 : world_ok w1 /\ w_reg w1 = w_reg w /\ w_next w1 = w_next w).
  { unfold w1, send_err. destruct (_ && _); [| done].
    destruct (say_same w c (frame_err INVALID_PUBLISH_SUBJECT)) as (? & _ & ? & _).
    split_and!; [by apply say_ok | done | done]. }
  set (w2 := if verbose _ then say w1 c frame_ok else w1).
  assert (Hs2 : world_ok w2 /\ w_reg w2 = w_reg w /\ w_next w2 = w_next w).
  { unfold w2. destruct Hs1 as (H1 & H2 & H3). destruct (verbose _); [| done].
    destruct (say_same w1 c frame_ok) as (Hr & _ & Hn & _). rewrite Hr, Hn. by split_and!; [apply say_ok | |]. }
  destruct Hs2 as (Hok2 & Hr2 & Hn2).
  assert (Hl2 : later w w2 0) by (split_and!; [done | rewrite Hr2; by apply evolves_refl | lia]).
  destruct (is_empty subj); [eapply later_handled; [done | lia | done] |].
  pose proof (route_ok w2 (mkMsg subj reply hdr body) c i Hok2) as Hroute.
  unfold headroom in Hroute. rewrite Hr2, Hn2 in Hroute. specialize (Hroute Hco Hh).
  destruct (route w2 _ c i) as [[w3 i'] d]. destruct Hroute as (Hok3 & Hco3 & Hn3 & He3).
  destruct (no_responder_check_ok w3 c (mkMsg subj reply hdr body) reply (count d) Hok3) as (H1 & H2 & H3).
  split; [split_and! |].
  - done.
  - by rewrite H2.
  - rewrite H3, Hn3. lia.
  - by rewrite H2.
Qed.

Lemma handle_ok w c ev i :
  world_ok w -> is_Some (w_conns w !! c) -> coherent (w_reg w) i ->
  headroom w (Z.of_nat (w_next w) + 2) -> event_fits ev -> handled_ok w (handle w c ev i).
Proof.
  intros Hok Hc Hco Hh Hev. pose proof (later_refl w 0 Hok ltac:(lia)) as Hrefl.
  assert (Hh2 : headroom w 2) by (destruct Hh; split; lia).
  assert (Hsay : forall f, later w (say w c f) 0) by (intros; by apply later_say).
  unfold handle. destruct ev as [json | subj q s | s max | subj reply hdr total body hpub | | | arg | o | |].
  - destruct (apply_connect (opts w c) json) as [o []]; simpl; [| eapply later_handled; [done | lia | done]].
    eapply later_handled; [| | done]; [apply later_say_if, set_opts_later, Hok | lia].
  - destruct (is_valid subj) eqn:Hv; simpl; [| eapply later_handled; [apply Hsay | lia | done]].
    destruct (from_option _ false q); [eapply later_handled; [apply Hsay | lia | done] |].
    eapply later_handled; [apply later_say_if, handle_subscribe_later; done | lia | done].
  - eapply later_handled; [apply later_say_if, handle_unsubscribe_later; done | lia | done].
  - by apply handle_publish_ok.
  - eapply later_handled; [apply Hsay | lia | done].
  - eapply later_handled; [by apply note_pong_later | lia | done].
  - eapply later_handled; [done | lia | done].
  - destruct (headers (opts w c)); simpl; [| eapply later_handled; [done | lia | done]].
    destruct o; (eapply later_handled; [first [done | apply Hsay] | lia | done]).
  - eapply later_handled; [done | lia | done].
  - eapply later_handled; [done | lia | done].
Qed.

(** A SUB that is not refused, as one equation. *)
Lemma handle_valid_sub w c subj q s i :
  is_valid subj = true -> from_option is_valid true q = true ->
  (handle w c (EvSubscribe subj q s) i).1.1.1 =
  (if verbose (opts w c) then say (handle_subscribe w c subj q s) c frame_ok
   else handle_subscribe w c subj q s).
Proof.
  intros Hv Hq. simpl. rewrite Hv. replace (from_option (fun q => negb (is_valid q)) false q) with false; [done |].
  destruct q; simpl in *; [by rewrite Hq | done].
Qed.

(** A new sid is a new subscription in the registry. *)
Lemma add_sub_registered w c cn s :
  world_ok w -> headroom w 2 -> w_conns w !! c = Some cn -> c_subs cn !! sid s = None ->
  conn s = c -> made s -> is_valid (subject s) = true ->
  registered (add_sub w c cn s) ≡ₚ s :: registered w.
Proof.
  intros [Hw _] [H0 H1] Hc Hs Hconn Hm Hv. unfold usize_max in H1.
  destruct (insert_registered w s Hw Hm Hv) as (_ & _ & Hp); [lia |].
  unfold registered at 1. simpl. rewrite Hp. simpl. rewrite Hv. simpl.
  destruct (existsb _ (registered w)) eqn:E; [| done].
  apply existsb_exists in E as (t & Ht & He). rewrite <- list_elem_of_In in Ht.
  destruct Hw as (_ & _ & Hk & _). rewrite Forall_forall in Hk.
  destruct (Hk t Ht) as (dn & Hd & Hsid). apply same_key in He. injection He as H2 _ H3.
  rewrite H2, H3 in *. congruence.
Qed.

(** ** Properties *)

(** C19: SUB.  A filter or queue name that is not a legal subject only draws an
    error line.  An sid the connection already uses keeps its subscription: the
    subscriptions, the counters and the tables are as they were.  Otherwise exactly
    one subscription is added, to the registry and to the connection's table, with
    nothing delivered and no limit. *)
Theorem subscribe_correct w c cn subj q s i :
  world_ok w -> headroom w 2 -> w_conns w !! c = Some cn ->
  let w' := (handle w c (EvSubscribe subj q s) i).1.1.1 in
  let sub := sub_new (w_next w) subj q s c in
  if is_valid subj && from_option is_valid true q then
    match c_subs cn !! s with
    | Some _ => registered w' = registered w /\ w_cells w' = w_cells w /\ subs_of w' c = c_subs cn
    | None =>
        registered w' ≡ₚ sub :: registered w /\ subs_of w' c = <[s := sub]> (c_subs cn) /\
        w_cells w' = <[sub_ref sub := mkCell 0 0]> (w_cells w)
    end
  else w' = send_err w c INVALID_SUBJECT.
Proof.
  intros Hok Hh Hc w' sub. subst w'. destruct (is_valid subj) eqn:Hv; simpl andb; cbn match.
  2: { simpl. by rewrite Hv. }
  destruct (from_option is_valid true q) eqn:Hq.
  2: { simpl. rewrite Hv. destruct q as [q |]; [| done]. simpl in *. by rewrite Hq. }
  rewrite handle_valid_sub by done. set (w1 := handle_subscribe w c subj q s).
  set (w' := if verbose (opts w c) then _ else _).
  assert (Hsame : registered w' = registered w1 /\ w_cells w' = w_cells w1 /\ subs_of w' c = subs_of w1 c).
  { unfold w', registered. destruct (verbose _); [| done].
    destruct (say_same w1 c frame_ok) as (-> & ? & _ & ? & _). done. }
  destruct Hsame as (-> & -> & ->).
  assert (Hsubs : subs_of w c = c_subs cn) by (unfold subs_of; by rewrite Hc).
  destruct (c_subs cn !! s) as [x |] eqn:Hs.
  { unfold w1. rewrite handle_subscribe_known by (rewrite Hsubs, Hs; eauto). done. }
  unfold w1. rewrite (handle_subscribe_new w c cn) by done. fold sub.
  split_and!; [by apply add_sub_registered | unfold subs_of; simpl; by rewrite lookup_insert_eq | done].
Qed.

(** C20: UNSUB.  An unknown sid is not an error and changes no subscription.  With a
    limit above what was delivered, the subscription stays, with that limit;
    otherwise it is taken out of the connection's table, and no subscription of
    that connection and sid is left in the registry. *)
Theorem unsubscribe_correct w c cn s max :
  world_ok w -> headroom w 2 -> w_conns w !! c = Some cn -> (max < 2 ^ 63)%Z ->
  let w' := handle_unsubscribe w c s max in
  match c_subs cn !! s with
  | None => w' = w
  | Some sub =>
      if (Z.max 0 (delivered (cell_of w sub)) <? max)%Z then
        registered w' = registered w /\ subs_of w' c = c_subs cn /\
        cell_of w' sub = mkCell (delivered (cell_of w sub)) max
      else
        subs_of w' c = delete s (c_subs cn) /\
        forall t, t ∈ registered w' <-> t ∈ registered w /\ ~ (conn t = c /\ sid t = s)
  end.
Proof.
  intros Hok Hh Hc Hmax w'. subst w'. unfold handle_unsubscribe, subs_of. rewrite Hc. simpl.
  destruct (c_subs cn !! s) as [sub |] eqn:Hs; [| done]. pose proof Hok as [Hw _].
  pose proof Hw as (Hr & Hcs & Hk & _). rewrite Forall_forall in Hk.
  destruct (Hcs _ _ Hc) as [_ Ht]. destruct (Ht _ _ Hs) as (Hsid & Hconn & Hm & _).
  destruct (cell_of_wf w sub Hw) as [Hd _].
  assert (Hcond : (max >? 0)%Z && (max >? delivered (cell_of w sub))%Z =
                  (Z.max 0 (delivered (cell_of w sub)) <? max)%Z).
  { rewrite !Z.gtb_ltb, Z.max_r by lia. destruct (Z.ltb_spec (delivered (cell_of w sub)) max).
    - by rewrite (proj2 (Z.ltb_lt 0 max)) by lia.
    - apply andb_false_r. }
  unfold set_limit. rewrite Hcond. destruct (_ <? max)%Z.
  { split_and!; [done | simpl; by rewrite Hc | unfold cell_of; simpl; by rewrite lookup_insert_eq]. }
  unfold upd_conn. simpl. rewrite Hc. simpl. split; [by rewrite lookup_insert_eq |].
  pose proof (registered_bound w Hw) as Hb. destruct Hh as [H0 H1]. unfold usize_max, registered in *.
  destruct (reg_step_correct (w_reg w) (Op_remove sub) Hr Hm) as [_ Hp]; [lia |]. simpl in Hp.
  intros t. simpl. rewrite Hp, elem_of_retain, negb_true_iff. split; intros [Ht1 Ht2]; (split; [done |]).
  - intros [E1 E2]. destruct (Hk t Ht1) as (dn & Hd' & Htsid).
    rewrite E1, E2 in *. simplify_eq. by rewrite removes_self in Ht2.
  - apply not_true_iff_false. intros H. apply Ht2. unfold removes, hit in H. bool_to_prop. by subst.
Qed.

(** The connection-ending errors are silent.  When an event ends the connection
    (a CONNECT or INFO that is not a JSON object, an HPUB without header support or
    with unusable arguments, a client's -ERR), nothing is said and nothing changes;
    the one exception is a broken HPUB frame, which says its error line first. *)
Lemma silent_close w c ev i :
  let '(w', i', waits, goes_on) := handle w c ev i in
  goes_on = false ->
  i' = i /\ waits = [] /\
  (w' = w \/ exists text, ev = EvHpubAttempt (Hpub_Frame text) /\ w' = send_err w c text).
Proof.
  unfold handle. destruct ev as [json | subj q s | s max | subj reply hdr total body hpub | | | arg | o | |];
    try done; try (intros; by split_and!; [| | left]).
  - destruct (apply_connect (opts w c) json) as [o []]; simpl; [done |]. intros _. by split_and!; [| | left].
  - by destruct (negb (is_valid subj) || _).
  - unfold handle_publish. destruct (hpub && _); [intros _; by split_and!; [| | left] |].
    destruct (is_empty subj); [done |]. by destruct (route _ _ _ _) as [[? ?] ?].
  - destruct (negb (headers _)); [intros _; by split_and!; [| | left] |].
    destruct o; [done | intros _; by split_and!; [| | left] |]. intros _. split_and!; [done | done |]. right. eauto.
Qed.

(** C22: closing.  A connection that is closed takes all its subscriptions out of the
    registry and nobody else's; nothing can be queued on it any more, no publisher
    waits for it, and closing it again does nothing. *)
Theorem close_is_final w c cn reason h :
  world_wf w -> (Z.of_nat (w_next w) < u64_modulus)%Z ->
  w_conns w !! c = Some cn -> c_closed cn = false ->
  let w' := finish w c reason h in
  (forall t, t ∈ registered w' <-> t ∈ registered w /\ conn t <> c) /\
  subs_of w' c = ∅ /\ stall_over w' c = true /\ conn_has_room w' c = true /\
  (forall f, conn_enqueue w' c f = (w', Enq_Dropped)) /\
  (forall s m, conn s = c -> deliver w' s m = (w', Enq_Dropped)) /\
  (forall reason' h', finish w' c reason' h' = w').
Proof.
  intros Hw Hmax Hc Hcl w'.
  assert (Hw' : w' = set_conn (set_reg w (remove_conn (w_reg w) c)) c (finished cn reason h)).
  { subst w'. unfold finish. by rewrite Hc, Hcl. }
  assert (Hc' : w_conns w' !! c = Some (finished cn reason h)) by (rewrite Hw'; apply lookup_insert_eq).
  split_and!.
  - intros t. rewrite Hw'. by apply (remove_conn_world w c).
  - unfold subs_of. by rewrite Hc'.
  - unfold stall_over, is_closed. by rewrite Hc'.
  - unfold conn_has_room. by rewrite Hc'.
  - intros f. unfold conn_enqueue. by rewrite Hc'.
  - intros s m <-. unfold deliver. by rewrite Hc'.
  - intros reason' h'. unfold finish at 1. by rewrite Hc'.
Qed.

(** A SUB on a closed connection: nothing is said, and the subscription is made and
    registered like any other. *)
Lemma sub_after_close w c cn subj q s i :
  w_conns w !! c = Some cn -> c_closed cn = true ->
  c_subs cn !! s = None -> is_valid subj = true -> from_option is_valid true q = true ->
  (handle w c (EvSubscribe subj q s) i).1.1.1 = add_sub w c cn (sub_new (w_next w) subj q s c).
Proof.
  intros Hc Hcl Hs Hv Hq. rewrite handle_valid_sub, (handle_subscribe_new w c cn) by done.
  set (sub := sub_new (w_next w) subj q s c).
  destruct (verbose (opts w c)); [| done]. simpl. unfold say, conn_enqueue. simpl.
  rewrite lookup_insert_eq. simpl. by rewrite Hcl.
Qed.

End Client.
