(* ===== verification/RouteSteps.v ===== *)
(** * Routing and subscribing, one lock and one atomic at a time

    (crates/server/src/routing.rs, [route], [resolve], [give], [Sub]; client.rs,
    [handle] and [finish].)  The server's transition system takes a whole operation of a
    task as one step.  Here the operations that meet in the registry are programs of
    single accesses (a load, a store, a critical section up to its unlock, a push on
    an outbox), and the tasks interleave between any two of them.  A task that is left alone does
    what the operation does as a whole. *)

From Stdlib Require Import String Strings.Byte.
From stdpp Require Import relations.
From S2P Require Import Prelude Subjects Nuid Frames External Arena Outbox Options Registry Interest QueueGroups Conn Route Client.

Section RouteSteps.

Context `{BML : BytesMutLaws} `{CHL : ChannelLaws}.

(** ** Critical sections of the registry *)

Inductive LockOp :=
| Lk_insert (sub : Sub)
| Lk_remove (sub : Sub)
| Lk_remove_conn (c : cref)
| Lk_expire (expired : list Sub).

(** What a critical section makes of the subscriptions, and whether it ends with
    [changed]. *)
Definition lock_op (i : Inner) (op : LockOp) : Inner * bool :=
  match op with
  | Lk_insert sub => inner_insert i sub
  | Lk_remove sub => (remove_sub i sub, true)
  | Lk_remove_conn c =>
      let w := retain (fun s => negb (bool_decide (conn s = c))) (wildcards i) in
      let removed := (literal_removed c (literal i) + (blen (wildcards i) - blen w))%Z in
      (mkInner (literal_without c (literal i)) w (wrap64 (total i - removed)), negb (removed =? 0)%Z)
  | Lk_expire expired => (foldl remove_sub i expired, true)
  end.

(** ** Programs *)

(** The delivery loop of [route]: the message, the subscriptions left, [expired],
    [count] and [stall]. *)
Record Walk := mkWalk { wk_msg : Msg; wk_todo : list Sub; wk_expired : list Sub; wk_count : Z; wk_stall : list cref }.

Inductive Instr :=
(* [route] *)
| I_load (m : Msg)
| I_resolve (m : Msg)
| I_choose (m : Msg)
| I_walk (k : Walk)
| I_deliver (k : Walk) (s : Sub)
| I_account (k : Walk) (s : Sub) (stalled : bool)
| I_limit (k : Walk) (s : Sub) (stalled : bool) (n : Z)
| I_done (d : Delivered)
(* [finish] *)
| I_swap (d : cref) (reason : string) (hard : bool)
| I_off (d : cref)
(* a critical section of the registry, and [changed] at the end of one *)
| I_lock (op : LockOp)
| I_bump (op : LockOp)
(* SUB and UNSUB *)
| I_contains (subj : bytes) (q : option bytes) (s : bytes)
| I_table (sub : Sub)
| I_get (s : bytes) (max : Z)
| I_check (s : bytes) (sub : Sub) (max : Z)
| I_store (s : bytes) (sub : Sub) (max : Z) (gone : bool)
| I_untable (s : bytes).

(** What a task sets out to do. *)
Inductive TaskEv :=
| Te_publish (m : Msg)
| Te_subscribe (subj : bytes) (q : option bytes) (s : bytes)
| Te_unsubscribe (s : bytes) (max : Z)
| Te_close (d : cref) (reason : string) (hard : bool).

Definition program (ev : TaskEv) : list Instr :=
  match ev with
  | Te_publish m => [I_load m]
  | Te_subscribe subj q s => if is_valid subj then [I_contains subj q s] else []
  | Te_unsubscribe s max => [I_get s max]
  | Te_close d reason hard => [I_swap d reason hard]
  end.

(** [finish] in two parts: the flags, and what follows [remove_conn]. *)
Definition swapped (cn : Conn) (reason : string) (hard : bool) : Conn :=
  mkConn (c_cid cn) (c_out cn) (c_flags cn) (c_subs cn) true (Some reason) (c_pings_out cn) (c_wakes cn) hard.

Definition cut_off (cn : Conn) : Conn :=
  mkConn (c_cid cn) (no_more_writes (set_tx (c_out cn) None)) (c_flags cn) ∅ (c_closed cn) (c_reason cn)
         (c_pings_out cn) (S (c_wakes cn)) (c_hard cn).

(** ** The state *)

Record Task := mkTask { tk_cache : Interest; tk_code : list Instr }.

(** The shared state, who holds the registry's lock, and the tasks.  [p_inner] is not
    in the code: it is the subscriptions as they were at the last unlock, which is what
    the generation counter stands for; no step reads it. *)
Record Par := mkPar { p_world : World; p_lock : option cref; p_inner : Inner; p_tasks : gmap cref Task }.

Definition task_of (s : Par) (c : cref) : Task := default (mkTask interest_new []) (p_tasks s !! c).

Definition set_inner (w : World) (i : Inner) : World :=
  set_reg w (mkRegistry i (rng (w_reg w)) (generation (w_reg w))).

(** What one instruction of task [c] does: the shared state, the lock and [p_inner]
    after it, the task's cache, and what it goes on with.  [None]: it waits for the
    lock. *)
Definition exec (w : World) (lock : option cref) (gi : Inner) (c : cref) (i : Interest) (ins : Instr) :
    option (World * option cref * Inner * Interest * list Instr) :=
  let go w' i' code := Some (w', lock, gi, i', code) in
  match ins with
  | I_load m =>
      go w i [if negb (in_generation i =? generation (w_reg w))%Z || bool_decide (in_subject i <> msg_subject m)
              then I_resolve m else I_choose m]
  | I_resolve m => if lock is None then go w (resolve (w_reg w) (msg_subject m) i) [I_choose m] else None
  | I_choose m =>
      let '(r, i', list) :=
        if in_queue i then
          let (r, i2) := pick_groups (eligible w c) (fun s => conn_has_room w (conn s)) (w_reg w) i in
          (r, i2, in_chosen i2)
        else (w_reg w, i, in_subs i) in
      go (set_reg w r) i' [if is_empty list then I_done (mkDelivered 0 []) else I_walk (mkWalk m list [] 0 [])]
  | I_walk k =>
      match wk_todo k with
      | [] =>
          let d := mkDelivered (wk_count k) (wk_stall k) in
          go w i (if is_empty (wk_expired k) then [I_done d] else [I_lock (Lk_expire (wk_expired k)); I_done d])
      | s :: rest =>
          let k' := mkWalk (wk_msg k) rest (wk_expired k) (wk_count k) (wk_stall k) in
          go w i [if eligible w c s then I_deliver k' s else I_walk k']
      end
  | I_deliver k s =>
      let (w', r) := deliver w s (wk_msg k) in
      match r with
      | Enq_Ok => go w' i [I_account k s false]
      | Enq_SoftLimit => go w' i [I_account k s true]
      | Enq_SlowConsumer =>
          go w' i [I_swap (conn s) "slow consumer: max_pending exceeded" true;
                   I_walk (mkWalk (wk_msg k) (wk_todo k) (wk_expired k ++ [s]) (wk_count k) (wk_stall k))]
      | Enq_Dropped => go w' i [I_walk k]
      end
  | I_account k s stalled =>
      let x := cell_of w s in
      let n := wrap64 (delivered x + 1) in
      go (set_cell w (sub_ref s) (mkCell n (limit x))) i [I_limit k s stalled n]
  | I_limit k s stalled n =>
      let max := limit (cell_of w s) in
      go w i [I_walk (mkWalk (wk_msg k) (wk_todo k)
                       (if negb (max =? 0)%Z && (max <=? n)%Z then wk_expired k ++ [s] else wk_expired k)
                       (wk_count k + 1) (if stalled then wk_stall k ++ [conn s] else wk_stall k))]
  | I_done _ => go w i []
  | I_swap d reason hard =>
      match w_conns w !! d with
      | Some cn =>
          if c_closed cn then go w i []
          else go (set_conn w d (swapped cn reason hard)) i [I_lock (Lk_remove_conn d); I_off d]
      | None => go w i []
      end
  | I_off d => go (upd_conn w d cut_off) i []
  | I_lock op =>
      if lock is None then
        let (inner', bump) := lock_op (inner (w_reg w)) op in
        if bump then Some (set_inner w inner', Some c, gi, i, [I_bump op])
        else Some (set_inner w inner', None, inner', i, [])
      else None
  | I_bump _ => Some (set_reg w (changed (w_reg w)), None, inner (w_reg w), i, [])
  | I_contains subj q s =>
      if bool_decide (is_Some (subs_of w c !! s)) then go w i []
      else
        let sub := sub_new (w_next w) subj q s c in
        go (mkWorld (w_conns w) (<[w_next w := mkCell 0 0]> (w_cells w)) (w_reg w) (S (w_next w))) i
           [I_lock (Lk_insert sub); I_table sub]
  | I_table sub => go (upd_conn w c (fun cn => set_subs cn (<[sid sub := sub]> (c_subs cn)))) i []
  | I_get s max => go w i (from_option (fun sub => [I_check s sub max]) [] (subs_of w c !! s))
  | I_check s sub max =>
      go w i [I_store s sub max (negb ((max >? 0)%Z && (max >? delivered (cell_of w sub))%Z))]
  | I_store s sub max gone =>
      let x := cell_of w sub in
      go (set_cell w (sub_ref sub) (mkCell (delivered x) (if gone then 0%Z else max))) i
         (if gone then [I_untable s; I_lock (Lk_remove sub)] else [])
  | I_untable s => go (upd_conn w c (fun cn => set_subs cn (delete s (c_subs cn)))) i []
  end.

(** One step of task [c]. *)
Definition task_step (s : Par) (c : cref) : option Par :=
  match tk_code (task_of s c) with
  | [] => None
  | ins :: code =>
      '(w, lock, gi, i, more) ← exec (p_world s) (p_lock s) (p_inner s) c (tk_cache (task_of s c)) ins;
      Some (mkPar w lock gi (<[c := mkTask i (more ++ code)]> (p_tasks s)))
  end.

Definition start (s : Par) (c : cref) (ev : TaskEv) : Par :=
  mkPar (p_world s) (p_lock s) (p_inner s) (<[c := mkTask (tk_cache (task_of s c)) (program ev)]> (p_tasks s)).

Definition par_new (w : World) : Par := mkPar w None (inner (w_reg w)) ∅.

(** The steps of a task that nobody interrupts. *)
Definition alone (c : cref) (s s' : Par) : Prop := task_step s c = Some s'.

(** What the same operation does as a whole, and what the task has left to do. *)
Definition outcome (w : World) (c : cref) (i : Interest) (ev : TaskEv) : World * Interest * list Instr :=
  match ev with
  | Te_publish m => let '(w', i', d) := route w m c i in (w', i', [I_done d])
  | Te_subscribe subj q s => (if is_valid subj then handle_subscribe w c subj q s else w, i, [])
  | Te_unsubscribe s max => (handle_unsubscribe w c s max, i, [])
  | Te_close d reason hard => (finish w d reason hard, i, [])
  end.

(** ** Lemmas: a task alone *)

(** No lock is held, and task [c] has [code] to do. *)
Definition quiet (T : gmap cref Task) (w : World) (c : cref) (i : Interest) (code : list Instr) : Par :=
  mkPar w None (inner (w_reg w)) (<[c := mkTask i code]> T).

Lemma alone_exec T w lock gi c i ins code w' lock' gi' i' more :
  exec w lock gi c i ins = Some (w', lock', gi', i', more) ->
  alone c (mkPar w lock gi (<[c := mkTask i (ins :: code)]> T))
          (mkPar w' lock' gi' (<[c := mkTask i' (more ++ code)]> T)).
Proof.
  intros H. unfold alone, task_step, task_of. simpl. rewrite lookup_insert_eq. simpl. rewrite H. simpl.
  by rewrite insert_insert_eq.
Qed.

Lemma upd_conn_same w c f :
  w_reg (upd_conn w c f) = w_reg w /\ w_cells (upd_conn w c f) = w_cells w /\ w_next (upd_conn w c f) = w_next w.
Proof. unfold upd_conn. by destruct (w_conns w !! c). Qed.

Lemma cell_of_set_cell w s x : cell_of (set_cell w (sub_ref s) x) s = x.
Proof. unfold cell_of. simpl. by rewrite lookup_insert_eq. Qed.

(** A step that leaves the subscriptions alone. *)
Lemma quiet_step T w c i ins code w' gi i' more s' :
  exec w None (inner (w_reg w)) c i ins = Some (w', None, gi, i', more) -> gi = inner (w_reg w') ->
  rtc (alone c) (quiet T w' c i' (more ++ code)) s' -> rtc (alone c) (quiet T w c i (ins :: code)) s'.
Proof. intros H -> Hr. eapply rtc_l; [by apply alone_exec | done]. Qed.

Definition lock_reg (r : Registry) (op : LockOp) : Registry :=
  let (i, bump) := lock_op (inner r) op in
  if bump then changed (mkRegistry i (rng r) (generation r)) else mkRegistry i (rng r) (generation r).

Lemma quiet_lock T w c i op code s' :
  rtc (alone c) (quiet T (set_reg w (lock_reg (w_reg w) op)) c i code) s' ->
  rtc (alone c) (quiet T w c i (I_lock op :: code)) s'.
Proof.
  unfold lock_reg. intros H. destruct (lock_op (inner (w_reg w)) op) as [inner' []] eqn:E.
  - eapply rtc_l; [eapply alone_exec; simpl; rewrite E; done |]. simpl.
    eapply rtc_l; [eapply alone_exec; simpl; done |]. done.
  - eapply rtc_l; [eapply alone_exec; simpl; rewrite E; done |]. done.
Qed.

Lemma lock_reg_remove_conn r c : lock_reg r (Lk_remove_conn c) = remove_conn r c.
Proof. done. Qed.

Lemma lock_reg_insert r sub : is_valid (subject sub) = true -> insert r sub = (lock_reg r (Lk_insert sub), true).
Proof. intros H. unfold insert, lock_reg. rewrite H. simpl. by destruct (inner_insert (inner r) sub) as [i []]. Qed.

Lemma cut_off_swapped cn reason hard : cut_off (swapped cn reason hard) = finished cn reason hard.
Proof. done. Qed.

Lemma quiet_finish T w c i d reason hard code s' :
  rtc (alone c) (quiet T (finish w d reason hard) c i code) s' ->
  rtc (alone c) (quiet T w c i (I_swap d reason hard :: code)) s'.
Proof.
  unfold finish. intros H. destruct (w_conns w !! d) as [cn |] eqn:Hd.
  2: { eapply quiet_step; [simpl; by rewrite Hd | done | done]. }
  destruct (c_closed cn) eqn:Hc.
  { eapply quiet_step; [simpl; by rewrite Hd, Hc | done | done]. }
  eapply quiet_step; [simpl; by rewrite Hd, Hc | done |]. simpl. apply quiet_lock.
  eapply quiet_step; [done | by rewrite (proj1 (upd_conn_same _ _ _)) |].
  simpl. unfold upd_conn. simpl. rewrite lookup_insert_eq, cut_off_swapped.
  unfold set_conn in *. simpl in *. by rewrite insert_insert_eq.
Qed.

Definition walk_of (m : Msg) (list : list Sub) (st : RouteState) : Walk :=
  mkWalk m list (rt_expired st) (rt_count st) (rt_stall st).

(** The delivery of one message to one subscription. *)
Lemma quiet_one T m c i s list st code s' :
  rtc (alone c) (quiet T (rt_world (route_one m c st s)) c i (I_walk (walk_of m list (route_one m c st s)) :: code)) s' ->
  rtc (alone c) (quiet T (rt_world st) c i (I_walk (walk_of m (s :: list) st) :: code)) s'.
Proof.
  unfold route_one. intros H. eapply quiet_step; [done | done |]. simpl.
  destruct (eligible (rt_world st) c s) eqn:He; simpl in *; [| by destruct st].
  unfold give in H. destruct (deliver_reg (rt_world st) s m) as [Hreg _].
  destruct (deliver (rt_world st) s m) as [w1 r] eqn:Hd. simpl in Hreg.
  destruct r; (eapply quiet_step; [simpl; by rewrite Hd | by rewrite Hreg |]); simpl in *.
  1, 2: do 2 (eapply quiet_step; [done | done |]; simpl); by rewrite cell_of_set_cell.
  - by apply quiet_finish.
  - by destruct st.
Qed.

Lemma quiet_loop T m c i list st code s' :
  rtc (alone c) (quiet T (rt_world (route_loop m c list st)) c i (I_walk (walk_of m [] (route_loop m c list st)) :: code)) s' ->
  rtc (alone c) (quiet T (rt_world st) c i (I_walk (walk_of m list st) :: code)) s'.
Proof.
  revert st. induction list as [| s list IH]; intros st H; simpl in *; [done |].
  by apply quiet_one, IH.
Qed.

(** From the choice of the subscriptions on. *)
Lemma quiet_choose T w m c i s' :
  refresh (w_reg w) (msg_subject m) i = i ->
  rtc (alone c) (quiet T (route w m c i).1.1 c (route w m c i).1.2 [I_done (route w m c i).2]) s' ->
  rtc (alone c) (quiet T w c i [I_choose m]) s'.
Proof.
  intros Hi. unfold route, route_list. rewrite Hi. intros H.
  set (x := if in_queue i then _ else _) in H.
  assert (Hx : inner x.1.1 = inner (w_reg w)).
  { unfold x, pick_groups. destruct (in_queue i); [| done]. destruct (next_u64 _). by destruct (pick_loop _ _ _ _ _ _). }
  destruct x as [[r i'] l] eqn:E. simpl in *. unfold x in E.
  eapply quiet_step; [cbn [exec]; by rewrite E | by rewrite <- Hx |].
  simpl. destruct (is_empty l); [done |].
  apply (quiet_loop T m c i' l (mkRouteState (set_reg w r) 0 [] [])).
  set (st := route_loop m c l _) in *. eapply quiet_step; [done | done |]. simpl.
  unfold expire in H. destruct (is_empty (rt_expired st)); simpl in *; [by destruct (rt_world st) |].
  by apply quiet_lock.
Qed.

Lemma quiet_publish T w m c i s' :
  rtc (alone c) (quiet T (route w m c i).1.1 c (route w m c i).1.2 [I_done (route w m c i).2]) s' ->
  rtc (alone c) (quiet T w c i [I_load m]) s'.
Proof.
  intros H. set (i1 := refresh (w_reg w) (msg_subject m) i).
  assert (Hidem : refresh (w_reg w) (msg_subject m) i1 = i1).
  { unfold i1, refresh at 2 3. destruct (_ || _) eqn:E; unfold refresh; [| by rewrite E].
    simpl. by rewrite Z.eqb_refl, bool_decide_false by (intros Hn; done). }
  assert (Hr : route w m c i1 = route w m c i) by (unfold route, route_list; by rewrite Hidem).
  rewrite <- Hr in H. apply quiet_choose in H; [| done]. unfold i1, refresh in H.
  eapply quiet_step; [done | done |]. simpl. destruct (_ || _); [| done].
  by eapply quiet_step.
Qed.

Lemma quiet_subscribe T w c i subj q x s' :
  is_valid subj = true ->
  rtc (alone c) (quiet T (handle_subscribe w c subj q x) c i []) s' ->
  rtc (alone c) (quiet T w c i [I_contains subj q x]) s'.
Proof.
  intros Hv H. unfold handle_subscribe in H.
  destruct (bool_decide (is_Some (subs_of w c !! x))) eqn:Hk;
    (eapply quiet_step; [simpl; by rewrite Hk | done |]); [done |].
  simpl. rewrite lock_reg_insert in H by done. apply quiet_lock. simpl in *.
  eapply quiet_step; [done | by rewrite (proj1 (upd_conn_same _ _ _)) | done].
Qed.

Lemma quiet_unsubscribe T w c i x max s' :
  rtc (alone c) (quiet T (handle_unsubscribe w c x max) c i []) s' ->
  rtc (alone c) (quiet T w c i [I_get x max]) s'.
Proof.
  intros H. unfold handle_unsubscribe, set_limit in H. eapply quiet_step; [done | done |].
  destruct (subs_of w c !! x) as [sub |]; simpl; [| done]. eapply quiet_step; [done | done |]. simpl.
  destruct ((max >? 0)%Z && _); simpl in *; (eapply quiet_step; [done | done |]); simpl; [done |].
  eapply quiet_step; [done | by rewrite (proj1 (upd_conn_same _ _ _)) |]. by apply quiet_lock.
Qed.

(** An operation of a task that nobody interrupts, taken one load, store, lock and
    push at a time, does what the operation does as a whole: [route] with its count
    and its stalled connections, SUB, UNSUB and the closing of a connection.  It
    ends, whatever the state, with no lock held. *)
Lemma task_alone_atomic s c ev :
  p_lock s = None -> p_inner s = inner (w_reg (p_world s)) ->
  let '(w', i', code) := outcome (p_world s) c (tk_cache (task_of s c)) ev in
  rtc (alone c) (start s c ev) (mkPar w' None (inner (w_reg w')) (<[c := mkTask i' code]> (p_tasks s))).
Proof.
  intros Hl Hi. unfold start. rewrite Hl, Hi. generalize (tk_cache (task_of s c)) as i.
  generalize (p_world s) as w. generalize (p_tasks s) as T. clear. intros T w i.
  change (mkPar w None (inner (w_reg w)) ?m) with (quiet T w c i (program ev)).
  destruct ev as [m | subj q x | x max | d reason hard]; simpl.
  - pose proof (quiet_publish T w m c i) as H. destruct (route w m c i) as [[w' i'] d]. simpl in H. by apply H.
  - destruct (is_valid subj) eqn:Hv; [by apply quiet_subscribe | done].
  - by apply quiet_unsubscribe.
  - by apply quiet_finish.
Qed.

End RouteSteps.
