(* ===== verification/Races.v ===== *)
(** * Tasks racing in the registry (crates/server/src/routing.rs and client.rs)

    The tasks of RouteSteps interleave between any two accesses, while writers,
    keepalives and options change the connections at will.  The registry behind its
    lock and its generation counter is then still one bag of subscriptions: each
    change takes effect at its unlock, each lookup at the load or the resolve that
    answers it, cached or not. *)

From Stdlib Require Import String Strings.Byte.
From stdpp Require Import relations.
From S2P Require Import Prelude Subjects Nuid Frames External Arena Outbox Options Registry Interest QueueGroups Conn Route Client RouteSteps.

Section Races.

Context `{BML : BytesMutLaws} `{CHL : ChannelLaws}.

(** ** What the steps show *)

(** What a critical section does to a bag of subscriptions. *)
Definition lock_ops (op : LockOp) : list RegOp :=
  match op with
  | Lk_insert sub => [Op_insert sub]
  | Lk_remove sub => [Op_remove sub]
  | Lk_remove_conn c => [Op_remove_conn c]
  | Lk_expire expired => Op_remove <$> expired
  end.

(** What a step of task [c] shows of the registry. *)
Inductive Label :=
| L_change (op : LockOp)
| L_lookup (subj : bytes) (answer : list Sub)
| L_tau.

Definition label (s : Par) (c : cref) (s' : Par) : Label :=
  match tk_code (task_of s c) with
  | I_bump op :: _ => L_change op
  | I_lock op :: _ => if p_lock s' is None then L_change op else L_tau
  | (I_load m | I_resolve m) :: _ =>
      match tk_code (task_of s' c) with
      | I_choose _ :: _ => L_lookup (msg_subject m) (in_subs (tk_cache (task_of s' c)))
      | _ => L_tau
      end
  | _ => L_tau
  end.

(** ** The steps of all tasks *)

(** A step of the program, and what it shows.  [may c ev]: what task [c] is allowed to
    start. *)
Inductive par_step (may : cref -> TaskEv -> Prop) : Par -> Label -> Par -> Prop :=
| ps_start s c ev :
    tk_code (task_of s c) = [] -> may c ev -> par_step may s L_tau (start s c ev)
| ps_run s c s' :
    task_step s c = Some s' -> par_step may s (label s c s') s'
| ps_conns s conns :
    (forall c, subs_of (mkWorld conns (w_cells (p_world s)) (w_reg (p_world s)) (w_next (p_world s))) c =
               subs_of (p_world s) c) ->
    par_step may s L_tau
      (mkPar (mkWorld conns (w_cells (p_world s)) (w_reg (p_world s)) (w_next (p_world s)))
         (p_lock s) (p_inner s) (p_tasks s)).

Inductive trace (may : cref -> TaskEv -> Prop) : Par -> list Label -> Par -> Prop :=
| tr_nil s : trace may s [] s
| tr_cons s l s1 ls s2 : par_step may s l s1 -> trace may s1 ls s2 -> trace may s (l :: ls) s2.

(** ** The abstract registry: a bag of subscriptions *)

Definition spec_step (bag : list Sub) (l : Label) (bag' : list Sub) : Prop :=
  match l with
  | L_change op => bag' ≡ₚ bag_run bag (lock_ops op)
  | L_lookup subj answer => bag' = bag /\ answer ≡ₚ retain (fun s => matches (subject s) subj) bag
  | L_tau => bag' = bag
  end.

Fixpoint spec_run (bag : list Sub) (ls : list Label) (bag' : list Sub) : Prop :=
  match ls with
  | [] => bag' = bag
  | l :: ls => exists bag1, spec_step bag l bag1 /\ spec_run bag1 ls bag'
  end.

(** ** The invariant *)

(** The subscriptions an instruction holds. *)
Definition lock_subs (op : LockOp) : list Sub :=
  match op with
  | Lk_insert sub | Lk_remove sub => [sub]
  | Lk_remove_conn _ => []
  | Lk_expire expired => expired
  end.

Definition walk_subs (k : Walk) : list Sub := wk_todo k ++ wk_expired k.

Definition instr_subs (ins : Instr) : list Sub :=
  match ins with
  | I_walk k => walk_subs k
  | I_deliver k s | I_account k s _ | I_limit k s _ _ => s :: walk_subs k
  | I_lock op | I_bump op => lock_subs op
  | I_table sub | I_check _ sub _ | I_store _ sub _ _ => [sub]
  | _ => []
  end.

(** The registry as the generation counter stands for it. *)
Definition snapshot (s : Par) : Registry :=
  mkRegistry (p_inner s) (rng (w_reg (p_world s))) (generation (w_reg (p_world s))).

(** A subscription a task works on by its sid is its own; one that is being
    registered is new. *)
Definition instr_own (lo : nat) (c : cref) (ins : Instr) : Prop :=
  match ins with
  | I_contains subj _ _ => is_valid subj = true
  | I_lock (Lk_insert x) | I_bump (Lk_insert x) => lo <= sub_ref x
  | I_table x => conn x = c
  | I_check s x _ | I_store s x _ _ => conn x = c /\ sid x = s
  | _ => True
  end.

(** [Q] holds of every subscription there is. *)
Definition table_sat (Q : Sub -> Prop) (w : World) : Prop :=
  forall c k x, subs_of w c !! k = Some x -> Q x /\ conn x = c /\ sid x = k.

Definition code_sat (Q : Sub -> Prop) (lo : nat) (c : cref) (code : list Instr) : Prop :=
  Forall (fun ins => Forall Q (instr_subs ins) /\ instr_own lo c ins) code.

Record all_sat (Q : Sub -> Prop) (lo : nat) (s : Par) : Prop := {
  as_bag : Forall Q (all_subs (p_inner s));
  as_table : table_sat Q (p_world s);
  as_cache : forall c, Forall Q (in_subs (tk_cache (task_of s c)));
  as_code : forall c, code_sat Q lo c (tk_code (task_of s c)) }.

Definition is_bump (ins : Instr) : bool := if ins is I_bump _ then true else false.

(** The lock: what is under it, and who will bump the generation. *)
Definition lock_wf (s : Par) : Prop :=
  match p_lock s with
  | None => inner (w_reg (p_world s)) = p_inner s
  | Some c =>
      exists op code, tk_code (task_of s c) = I_bump op :: code /\ existsb is_bump code = false /\
        inner (w_reg (p_world s)) = (lock_op (p_inner s) op).1
  end.

Record par_inv (Q : Sub -> Prop) (lo : nat) (b : Z) (s : Par) : Prop := {
  pi_wf : inner_wf (p_inner s);
  pi_size : (blen (all_subs (p_inner s)) <= b)%Z;
  pi_gen : (0 <= generation (w_reg (p_world s)) <= b)%Z;
  pi_next : lo <= w_next (p_world s);
  pi_lock : lock_wf s;
  pi_bump : forall c, existsb is_bump (tk_code (task_of s c)) = true -> p_lock s = Some c;
  pi_cache : forall c, coherent (snapshot s) (tk_cache (task_of s c));
  pi_all : all_sat Q lo s }.

(** ** Lemmas: critical sections *)

Definition legal (x : Sub) : Prop := made x /\ is_valid (subject x) = true.

Lemma bag_run_expire l expired :
  bag_run l (lock_ops (Lk_expire expired)) = foldl (fun l e => retain (fun s => negb (removes e s)) l) l expired.
Proof. unfold bag_run. simpl. revert l. induction expired as [| e es IH]; intros l; simpl; [done | apply IH]. Qed.

Lemma remove_subs_run i expired :
  inner_wf i -> Forall made expired -> (blen (all_subs i) < u64_modulus)%Z ->
  inner_wf (foldl remove_sub i expired) /\
  all_subs (foldl remove_sub i expired) ≡ₚ bag_run (all_subs i) (lock_ops (Lk_expire expired)).
Proof.
  intros Hi He. revert i Hi. induction He as [| e es He _ IH]; intros i Hi Hmax; simpl; [done |].
  destruct (remove_sub_correct i e Hi He Hmax) as [Hi' Hp].
  pose proof (retain_le (fun s => negb (removes e s)) (all_subs i)) as Hle.
  destruct (IH (remove_sub i e) Hi') as [H1 H2].
  { rewrite (blen_Permutation _ _ Hp). simpl. lia. }
  split; [done |]. rewrite H2. by apply (bag_run_Permutation _ _ (lock_ops (Lk_expire es))).
Qed.

(** A critical section keeps the registry well formed and does to the bag what it
    says; one that ends without [changed] changed nothing. *)
Lemma lock_op_correct i op :
  inner_wf i -> Forall legal (lock_subs op) -> (blen (all_subs i) + 1 < u64_modulus)%Z ->
  inner_wf (lock_op i op).1 /\ all_subs (lock_op i op).1 ≡ₚ bag_run (all_subs i) (lock_ops op) /\
  ((lock_op i op).2 = false -> (lock_op i op).1 = i).
Proof.
  intros Hi Hop Hmax. destruct op as [sub | sub | c | expired]; simpl in Hop |- *.
  - apply Forall_singleton in Hop as [Hm Hv]. pose proof (inner_insert_correct i sub Hi Hm Hv Hmax) as H.
    by destruct (inner_insert i sub).
  - apply Forall_singleton in Hop as [Hm Hv].
    destruct (remove_sub_correct i sub Hi Hm ltac:(lia)) as [H1 H2]. done.
  - destruct (remove_conn_correct (mkRegistry i (rng_new 0) 0) c Hi ltac:(simpl; lia)) as [H1 H2].
    unfold remove_conn in H1, H2. simpl in H1, H2.
    set (gone := (literal_removed c (literal i) + _)%Z) in *.
    split_and!; [by destruct (negb (gone =? 0)%Z) | by destruct (negb (gone =? 0)%Z) |].
    intros E%negb_false_iff%Z.eqb_eq. destruct (remove_conn_nothing i c (proj1 Hi) E) as [-> ->].
    rewrite E, Z.sub_0_r, wrap64_small; [by destruct i |]. destruct Hi as (_ & _ & ->).
    unfold in_u64. pose proof (blen_nonneg (all_subs i)). lia.
  - destruct (remove_subs_run i expired Hi) as [H1 H2]; [| lia | done].
    eapply Forall_impl; [exact Hop |]. by intros x [? _].
Qed.

Lemma lock_bag_size l op : (blen (bag_run l (lock_ops op)) <= blen l + 1)%Z.
Proof.
  destruct op as [sub | sub | c | expired]; [apply (bag_step_length l) .. |].
  rewrite bag_run_expire. revert l. induction expired as [| e es IH]; intros l; simpl; [lia |].
  pose proof (IH (retain (fun s => negb (removes e s)) l)). pose proof (retain_le (fun s => negb (removes e s)) l).
  lia.
Qed.

Lemma lock_bag_elem l op x :
  x ∈ bag_run l (lock_ops op) -> x ∈ l \/ op = Lk_insert x.
Proof.
  destruct op as [sub | sub | c | expired]; simpl.
  - destruct (_ && _); [| by left]. rewrite elem_of_cons. intros [-> | ?]; [by right | by left].
  - intros [? _]%elem_of_retain. by left.
  - intros [? _]%elem_of_retain. by left.
  - fold (lock_ops (Lk_expire expired)). rewrite bag_run_expire. revert l. induction expired as [| e es IH]; intros l; simpl; [by left |].
    intros [H | ?]%IH; [| by right]. apply elem_of_retain in H as [? _]. by left.
Qed.

(** ** Lemmas: the invariant *)

Lemma task_of_insert w l g T c t d :
  task_of (mkPar w l g (<[c := t]> T)) d = if decide (c = d) then t else task_of (mkPar w l g T) d.
Proof.
  unfold task_of. simpl. case_decide as E; [subst; by rewrite lookup_insert_eq | by rewrite lookup_insert_ne].
Qed.

Lemma subs_of_set_conn w c cn d :
  subs_of (set_conn w c cn) d = if decide (c = d) then c_subs cn else subs_of w d.
Proof.
  unfold subs_of. simpl. case_decide as E; [subst; by rewrite lookup_insert_eq | by rewrite lookup_insert_ne].
Qed.

Lemma subs_of_deliver w s m d : subs_of (deliver w s m).1 d = subs_of w d.
Proof.
  unfold deliver. destruct (w_conns w !! conn s) as [cn |] eqn:Hc; [| done].
  destruct (c_closed cn); [done |]. destruct (queue_with _ _) as [o r]. simpl.
  rewrite subs_of_set_conn. case_decide as E; [| done]. subst. unfold subs_of. by rewrite Hc.
Qed.

Lemma subs_of_upd_conn w c f d :
  subs_of (upd_conn w c f) d = if decide (c = d) then from_option (fun cn => c_subs (f cn)) ∅ (w_conns w !! c)
                               else subs_of w d.
Proof.
  unfold upd_conn. destruct (w_conns w !! c) as [cn |] eqn:Hc; simpl.
  - apply subs_of_set_conn.
  - case_decide as E; [| done]. subst. unfold subs_of. by rewrite Hc.
Qed.

(** An instruction outside of the critical sections. *)
Definition calm (ins : Instr) : bool := match ins with I_lock _ | I_bump _ => false | _ => true end.

(** The subscriptions I_choose goes on with. *)
Definition choice (w : World) (c : cref) (i : Interest) : Registry * Interest * list Sub :=
  if in_queue i then
    let (r, i2) := pick_groups (eligible w c) (fun s => conn_has_room w (conn s)) (w_reg w) i in
    (r, i2, in_chosen i2)
  else (w_reg w, i, in_subs i).

Lemma choice_same w c i :
  inner (choice w c i).1.1 = inner (w_reg w) /\ generation (choice w c i).1.1 = generation (w_reg w) /\
  in_generation (choice w c i).1.2 = in_generation i /\ in_subject (choice w c i).1.2 = in_subject i /\
  in_subs (choice w c i).1.2 = in_subs i /\ in_queue (choice w c i).1.2 = in_queue i /\
  forall x, x ∈ (choice w c i).2 -> x ∈ in_subs i.
Proof.
  unfold choice. destruct (in_queue i) eqn:Hq; [| by split_and!].
  pose proof (pick_groups_same (eligible w c) (fun s => conn_has_room w (conn s)) (w_reg w) i) as H.
  pose proof (pick_groups_subset (eligible w c) (fun s => conn_has_room w (conn s)) (w_reg w) i) as Hs.
  destruct (pick_groups _ _ _ _) as [r i2]. simpl in *. rewrite <- Hq. destruct H as (? & ? & ? & ? & ? & ?). by split_and!.
Qed.

(** Outside of the critical sections the subscriptions, their generation and the
    lock do not change. *)
Lemma calm_exec w lock gi c i ins w' lock' gi' i' more :
  calm ins = true -> exec w lock gi c i ins = Some (w', lock', gi', i', more) ->
  lock' = lock /\ gi' = gi /\ inner (w_reg w') = inner (w_reg w) /\
  generation (w_reg w') = generation (w_reg w) /\ w_next w <= w_next w' /\ existsb is_bump more = false.
Proof.
  intros Hc H. destruct ins; simpl in Hc, H; try done.
  all: try by (repeat case_match; simplify_eq; split_and!; (done || simpl; lia)).
  - change (if in_queue i then _ else _) with (choice w c i) in H.
    pose proof (choice_same w c i) as Hch. destruct (choice w c i) as [[r i2] l]. simpl in Hch. simplify_eq.
    destruct Hch as (? & ? & _). destruct (is_empty l); split_and!; done.
  - destruct (deliver_reg w s (wk_msg k)) as (Hr & _ & Hn).
    destruct (deliver w s (wk_msg k)) as [w1 r]. simpl in *.
    destruct r; simplify_eq; rewrite Hr, Hn; by split_and!.
  - simplify_eq. destruct (upd_conn_same w d cut_off) as (-> & _ & ->). by split_and!.
  - simplify_eq. match goal with |- context [upd_conn w c ?f] => destruct (upd_conn_same w c f) as (-> & _ & ->) end. by split_and!.
  - destruct (subs_of w c !! s); simplify_eq; by split_and!.
  - simplify_eq. match goal with |- context [upd_conn w c ?f] => destruct (upd_conn_same w c f) as (-> & _ & ->) end. by split_and!.
Qed.

Ltac code_sat :=
  unfold walk_subs in *; simpl in *;
  repeat ((rewrite Forall_cons in * ) || (rewrite Forall_nil in * ) || (rewrite Forall_app in * )
          || (progress (unfold walk_subs in * )) || (progress (simpl in * )));
  tauto.

Section Invariant.

Context (Q : Sub -> Prop) (lo : nat).
Context (HQ : forall x, Q x -> legal x).
Context (Hnew : forall ref subj q s c, lo <= ref -> is_valid subj = true -> Q (sub_new ref subj q s c)).

Lemma table_sat_insert w c x : table_sat Q w -> Q x -> conn x = c ->
  table_sat Q (upd_conn w c (fun cn => set_subs cn (<[sid x := x]> (c_subs cn)))).
Proof.
  intros Hw Hx Hc d k y. rewrite subs_of_upd_conn. case_decide as E; [| apply Hw]. subst d.
  destruct (w_conns w !! c) as [cn |] eqn:Hcn; simpl; [| by rewrite lookup_empty].
  intros [[<- <-] | [_ H]]%lookup_insert_Some; [done |]. apply Hw. unfold subs_of. by rewrite Hcn.
Qed.

(** Tables that only lost subscriptions. *)
Lemma table_sat_shrink w w' :
  (forall c k x, subs_of w' c !! k = Some x -> subs_of w c !! k = Some x) -> table_sat Q w -> table_sat Q w'.
Proof. intros H Hw c k x Hx. by apply Hw, H. Qed.

Lemma calm_tables w lock gi c i ins w' lock' gi' i' more :
  calm ins = true -> exec w lock gi c i ins = Some (w', lock', gi', i', more) ->
  Forall Q (instr_subs ins) -> instr_own lo c ins -> table_sat Q w -> table_sat Q w'.
Proof.
  intros Hc H HQi Ho Hw. destruct ins; simpl in Hc, H; try done.
  all: try by (repeat case_match; simplify_eq).
  - pose proof (subs_of_deliver w s (wk_msg k)) as Hs.
    destruct (deliver w s (wk_msg k)) as [w1 r]. simpl in *.
    assert (H1 : table_sat Q w1) by (eapply table_sat_shrink; [| exact Hw]; intros d y x; by rewrite Hs).
    destruct r; by simplify_eq.
  - destruct (w_conns w !! d) as [cn |] eqn:Hd; [| by simplify_eq].
    destruct (c_closed cn); simplify_eq; [done |]. eapply table_sat_shrink; [| exact Hw].
    intros e k x. rewrite subs_of_set_conn. case_decide as E; [| done]. subst. unfold subs_of. by rewrite Hd.
  - simplify_eq. eapply table_sat_shrink; [| exact Hw]. intros e k x. rewrite subs_of_upd_conn.
    case_decide as E; [| done]. subst. unfold subs_of. by destruct (w_conns w !! e).
  - simpl in Ho, HQi. rewrite Forall_singleton in HQi. simplify_eq. by apply table_sat_insert.
  - simplify_eq. eapply table_sat_shrink; [| exact Hw]. intros e k x. rewrite subs_of_upd_conn.
    case_decide as E; [| done]. subst. unfold subs_of. destruct (w_conns w !! e) as [cn |]; [| done].
    simpl. by intros [_ ?]%lookup_delete_Some.
Qed.

Lemma calm_code w lock gi c i ins w' lock' gi' i' more :
  calm ins = true -> exec w lock gi c i ins = Some (w', lock', gi', i', more) ->
  Forall Q (instr_subs ins) -> instr_own lo c ins -> lo <= w_next w -> table_sat Q w ->
  Forall Q (in_subs i) -> code_sat Q lo c more.
Proof.
  intros Hc H HQi Ho Hlo Hw Hi. unfold code_sat. destruct ins; simpl in Hc, H, HQi; try done.
  all: try by (repeat case_match; simplify_eq; repeat constructor).
  - fold (choice w c i) in H. destruct (choice_same w c i) as (_ & _ & _ & _ & _ & _ & Hsub).
    destruct (choice w c i) as [[r i2] l]. simplify_eq. simpl in Hsub.
    assert (Hl : Forall Q l) by (rewrite Forall_forall in *; auto).
    destruct (is_empty l); code_sat.
  - destruct k as [m [| s todo] e n st]; simpl in *.
    + destruct (is_empty e); simplify_eq; code_sat.
    + simplify_eq. destruct (eligible _ c s); code_sat.
  - destruct (deliver w s (wk_msg k)) as [w1 []]; simplify_eq; code_sat.
  - simplify_eq. code_sat.
  - simplify_eq. case_match; code_sat.
  - destruct (bool_decide _); simplify_eq; [constructor |]. pose proof (Hnew (w_next w) subj q s c Hlo Ho). code_sat.
  - destruct (subs_of w c !! s) as [x |] eqn:E; simplify_eq; [| constructor].
    apply Hw in E as (? & ? & ?). code_sat.
  - simplify_eq. code_sat.
  - simplify_eq. destruct gone; code_sat.
Qed.


Lemma coherent_ext r r' i : inner r' = inner r -> generation r' = generation r -> coherent r i -> coherent r' i.
Proof. intros H1 H2. by apply (evolves_same r r' 0 H1 H2). Qed.

Lemma unlocked_snapshot s : lock_wf s -> p_lock s = None -> snapshot s = w_reg (p_world s).
Proof. unfold lock_wf, snapshot. intros H E. rewrite E in H. rewrite <- H. by destruct (w_reg (p_world s)). Qed.

Lemma resolve_sat s m i :
  inner_wf (p_inner s) -> Forall Q (all_subs (p_inner s)) ->
  Forall Q (in_subs (resolve (snapshot s) (msg_subject m) i)).
Proof.
  intros Hwf Hb. simpl. rewrite (resolve_subs_correct (snapshot s)) by done. rewrite Forall_forall in *.
  intros x [Hx _]%elem_of_retain. auto.
Qed.

Lemma calm_cache b s c ins w' lock' gi' i' more :
  calm ins = true -> exec (p_world s) (p_lock s) (p_inner s) c (tk_cache (task_of s c)) ins = Some (w', lock', gi', i', more) ->
  par_inv Q lo b s -> coherent (snapshot s) i' /\ Forall Q (in_subs i').
Proof.
  intros Hc H [Hwf _ _ _ Hl _ Hco [Hb _ Hin _]]. specialize (Hco c). specialize (Hin c).
  set (i := tk_cache (task_of s c)) in *. destruct ins; simpl in Hc, H; try done.
  all: try by (repeat case_match; simplify_eq).
  - destruct (p_lock s) eqn:E; [done |]. simplify_eq. rewrite <- unlocked_snapshot by done.
    split; [apply resolve_coherent | by apply resolve_sat].
  - fold (choice (p_world s) c i) in H. destruct (choice_same (p_world s) c i) as (_ & _ & H1 & H2 & H3 & H4 & _).
    destruct (choice (p_world s) c i) as [[r i2] l]. simplify_eq. simpl in *.
    unfold coherent. by rewrite H1, H2, H3, H4.
Qed.

(** What the invariant says of one task. *)
Definition task_inv (s : Par) (c : cref) (t : Task) : Prop :=
  coherent (snapshot s) (tk_cache t) /\ Forall Q (in_subs (tk_cache t)) /\ code_sat Q lo c (tk_code t) /\
  (existsb is_bump (tk_code t) = true -> p_lock s = Some c).

Lemma par_inv_intro b s :
  inner_wf (p_inner s) -> (blen (all_subs (p_inner s)) <= b)%Z ->
  (0 <= generation (w_reg (p_world s)) <= b)%Z -> lo <= w_next (p_world s) -> lock_wf s ->
  Forall Q (all_subs (p_inner s)) -> table_sat Q (p_world s) -> (forall c, task_inv s c (task_of s c)) ->
  par_inv Q lo b s.
Proof.
  intros ? ? ? ? ? ? ? Ht. split; try done; [| | split; [done | done | |]]; intros c; by destruct (Ht c) as (? & ? & ? & ?).
Qed.

Lemma par_inv_task b s c : par_inv Q lo b s -> task_inv s c (task_of s c).
Proof. intros [? ? ? ? ? Hb Hc [? ? ? ?]]. split_and!; auto. Qed.

(** A step of another task, as one task sees it. *)
Lemma task_inv_frame s w lock gi T c t d :
  task_inv s d (task_of s d) -> d <> c ->
  (forall i, coherent (snapshot s) i -> coherent (mkRegistry gi (rng (w_reg w)) (generation (w_reg w))) i) ->
  (p_lock s = Some d -> lock = Some d) -> p_tasks s = T ->
  task_inv (mkPar w lock gi (<[c := t]> T)) d (task_of (mkPar w lock gi (<[c := t]> T)) d).
Proof.
  intros (H1 & H2 & H3 & H4) Hne Hev Hl <-. rewrite task_of_insert. rewrite decide_False by done.
  unfold task_inv, task_of in *. simpl. split_and!; [by apply Hev | done | done | auto].
Qed.

Lemma calm_step_inv b s c ins code w' lock' gi' i' more :
  par_inv Q lo b s -> tk_code (task_of s c) = ins :: code -> calm ins = true ->
  exec (p_world s) (p_lock s) (p_inner s) c (tk_cache (task_of s c)) ins = Some (w', lock', gi', i', more) ->
  par_inv Q lo b (mkPar w' lock' gi' (<[c := mkTask i' (more ++ code)]> (p_tasks s))).
Proof.
  intros Hinv Hcode Hcalm He. pose proof Hinv as [Hwf Hsz Hgen Hnx Hl Hbump Hco [Hbag Htab Hin Hcs]].
  destruct (calm_exec _ _ _ _ _ _ _ _ _ _ _ Hcalm He) as (-> & -> & Hi & Hg & Hn & Hnb).
  pose proof (Hcs c) as Hcs'. rewrite Hcode in Hcs'. apply Forall_cons in Hcs' as [[Hq1 Hq2] Hcs'].
  destruct (calm_cache _ _ _ _ _ _ _ _ _ Hcalm He Hinv) as [Hc1 Hc2].
  assert (Hev : forall i, coherent (snapshot s) i -> coherent (mkRegistry (p_inner s) (rng (w_reg w')) (generation (w_reg w'))) i)
    by (intros i; by apply coherent_ext).
  apply par_inv_intro; simpl; try done; [by rewrite Hg | lia | | by eapply calm_tables |].
  - unfold lock_wf in *. simpl. rewrite Hi. destruct (p_lock s) as [d |]; [| done].
    destruct Hl as (op & code' & Hd & ?). exists op, code'. split; [| done]. rewrite task_of_insert.
    rewrite decide_False; [done |]. intros <-. rewrite Hcode in Hd. by simplify_eq.
  - intros d. destruct (decide (d = c)) as [-> | Hne].
    + rewrite task_of_insert, decide_True by done. split_and!; simpl; [by apply Hev | done | |].
      * apply Forall_app. split; [| done]. by eapply calm_code.
      * rewrite existsb_app, Hnb. simpl. intros H. apply Hbump. rewrite Hcode. simpl. by rewrite H, orb_true_r.
    + apply (task_inv_frame s); try done. by apply (par_inv_task b).
Qed.

(** A critical section. *)
Lemma lock_legal s c op code b :
  par_inv Q lo b s -> tk_code (task_of s c) = I_lock op :: code \/ tk_code (task_of s c) = I_bump op :: code ->
  Forall legal (lock_subs op) /\ Forall Q (lock_subs op) /\ instr_own lo c (I_lock op) /\ code_sat Q lo c code.
Proof.
  intros Hinv Hcode. destruct (par_inv_task b s c Hinv) as (_ & _ & Hcs & _).
  assert (H : Forall Q (lock_subs op) /\ instr_own lo c (I_lock op) /\ code_sat Q lo c code).
  { destruct Hcode as [E | E]; rewrite E in Hcs; by apply Forall_cons in Hcs as [[? ?] ?]. }
  destruct H as (H & ? & ?). split_and!; try done. eapply Forall_impl; [exact H |]. apply HQ.
Qed.

Lemma lock_step_inv b s c op code w' lock' gi' i' more :
  par_inv Q lo b s -> (b + 1 < usize_max)%Z -> tk_code (task_of s c) = I_lock op :: code ->
  exec (p_world s) (p_lock s) (p_inner s) c (tk_cache (task_of s c)) (I_lock op) = Some (w', lock', gi', i', more) ->
  par_inv Q lo b (mkPar w' lock' gi' (<[c := mkTask i' (more ++ code)]> (p_tasks s))).
Proof.
  intros Hinv Hb Hcode He. pose proof Hinv as [Hwf Hsz Hgen Hnx Hl Hbump Hco [Hbag Htab Hin Hcs]].
  destruct (lock_legal s c op code b Hinv (or_introl Hcode)) as (Hleg & HQop & Hown & Hrest).
  unfold lock_wf in Hl. simpl in He. destruct (p_lock s) eqn:El; [done |]. rewrite Hl in He.
  destruct (lock_op_correct (p_inner s) op Hwf Hleg ltac:(unfold usize_max in Hb; lia)) as (_ & _ & Hsame).
  destruct (lock_op (p_inner s) op) as [i1 bump] eqn:Eop. simpl in Hsame.
  assert (Hnb : existsb is_bump code = false).
  { destruct (existsb is_bump code) eqn:E; [| done]. assert (H : None = Some c); [| done]. apply Hbump.
    rewrite Hcode. simpl. by rewrite E. }
  destruct bump.
  - simplify_eq. apply par_inv_intro; simpl; try done.
    + unfold lock_wf. simpl. exists op, code. rewrite task_of_insert, decide_True by done. simpl. by rewrite Eop.
    + intros d. destruct (decide (d = c)) as [-> | Hne].
      * rewrite task_of_insert, decide_True by done. split_and!; simpl; [apply Hco | apply Hin | | done].
        apply Forall_cons. split; [| done]. split; [done | by destruct op].
      * apply (task_inv_frame s); try done; [by apply (par_inv_task b) | by rewrite El].
  - rewrite Hsame in * by done. simplify_eq. apply par_inv_intro; simpl; try done.
    intros d. destruct (decide (d = c)) as [-> | Hne].
    + rewrite task_of_insert, decide_True by done. split_and!; simpl; [apply Hco | apply Hin | done | by rewrite Hnb].
    + apply (task_inv_frame s); try done; [by apply (par_inv_task b) | by rewrite El].
Qed.

(** Who is about to bump the generation holds the lock, over what its critical
    section made. *)
Lemma bump_locked s c op code b :
  par_inv Q lo b s -> tk_code (task_of s c) = I_bump op :: code ->
  p_lock s = Some c /\ inner (w_reg (p_world s)) = (lock_op (p_inner s) op).1 /\ existsb is_bump code = false.
Proof.
  intros [_ _ _ _ Hl Hbump _ _] Hcode. assert (E : p_lock s = Some c) by (apply Hbump; by rewrite Hcode).
  unfold lock_wf in Hl. rewrite E in Hl. destruct Hl as (op' & code' & H & ? & ?). rewrite Hcode in H.
  by simplify_eq.
Qed.

Lemma bump_step_inv b s c op code w' lock' gi' i' more :
  par_inv Q lo b s -> (b + 1 < usize_max)%Z -> tk_code (task_of s c) = I_bump op :: code ->
  exec (p_world s) (p_lock s) (p_inner s) c (tk_cache (task_of s c)) (I_bump op) = Some (w', lock', gi', i', more) ->
  par_inv Q lo (b + 1) (mkPar w' lock' gi' (<[c := mkTask i' (more ++ code)]> (p_tasks s))).
Proof.
  intros Hinv Hb Hcode He. pose proof Hinv as [Hwf Hsz Hgen Hnx Hl Hbump Hco [Hbag Htab Hin Hcs]].
  destruct (lock_legal s c op code b Hinv (or_intror Hcode)) as (Hleg & HQop & Hown & Hrest).
  destruct (bump_locked s c op code b Hinv Hcode) as (El & Hi & Hnb).
  unfold usize_max in Hb.
  destruct (lock_op_correct (p_inner s) op Hwf Hleg ltac:(lia)) as (Hwf' & Hp & _).
  pose proof (lock_bag_size (all_subs (p_inner s)) op) as Hlen.
  destruct (evolves_changed (snapshot s) (mkRegistry (lock_op (p_inner s) op).1 (rng (w_reg (p_world s)))
              (wrap64 (generation (w_reg (p_world s)) + 1)))) as [Hg Hev]; [done | simpl; lia.. |].
  simpl in He, Hg. simplify_eq. rewrite Hi. apply par_inv_intro; simpl; try done.
  - rewrite (blen_Permutation _ _ Hp). lia.
  - lia.
  - rewrite Hp, Forall_forall. rewrite Forall_forall in Hbag, HQop. intros x [Hx | ->]%lock_bag_elem; [auto |].
    apply HQop. constructor.
  - intros d. destruct (decide (d = c)) as [-> | Hne].
    + rewrite task_of_insert, decide_True by done. split_and!; simpl; [apply Hev, Hco | apply Hin | done | by rewrite Hnb].
    + apply (task_inv_frame s); try done; [by apply (par_inv_task b) | rewrite El; congruence].
Qed.

Lemma task_step_exec s c s' :
  task_step s c = Some s' ->
  exists ins code w lock gi i more, tk_code (task_of s c) = ins :: code /\
    exec (p_world s) (p_lock s) (p_inner s) c (tk_cache (task_of s c)) ins = Some (w, lock, gi, i, more) /\
    s' = mkPar w lock gi (<[c := mkTask i (more ++ code)]> (p_tasks s)).
Proof.
  unfold task_step. intros H. destruct (tk_code (task_of s c)) as [| ins code]; [done |].
  destruct (exec _ _ _ _ _ ins) as [[[[[w lock] gi] i] more] |] eqn:E; [| done]. simpl in H. simplify_eq.
  by exists ins, code, w, lock, gi, i, more.
Qed.

Lemma task_step_inv b s c s' :
  par_inv Q lo b s -> (b + 1 < usize_max)%Z -> task_step s c = Some s' -> par_inv Q lo (b + 1) s'.
Proof.
  intros Hinv Hb (ins & code & w & lock & gi & i & more & Hcode & He & ->)%task_step_exec.
  assert (Hweak : forall s, par_inv Q lo b s -> par_inv Q lo (b + 1) s)
    by (intros t [? ? ? ? ? ? ? ?]; split; try done; lia).
  destruct (calm ins) eqn:Hcalm; [by eapply Hweak, calm_step_inv |].
  destruct ins; try done; [by eapply Hweak, lock_step_inv | by eapply bump_step_inv].
Qed.

Lemma program_sat c ev : code_sat Q lo c (program ev) /\ existsb is_bump (program ev) = false.
Proof.
  unfold code_sat. destruct ev; simpl; try (split; [by repeat constructor | done]).
  destruct (is_valid subj) eqn:Hv; split; repeat constructor; done.
Qed.

Lemma par_step_inv may b s l s' :
  par_inv Q lo b s -> (b + 1 < usize_max)%Z -> par_step may s l s' -> par_inv Q lo (b + 1) s'.
Proof.
  intros Hinv Hb H. pose proof Hinv as [Hwf Hsz Hgen Hnx Hl Hbump Hco [Hbag Htab Hin Hcs]].
  destruct H as [s c ev Hidle _ | s c s' H | s conns Hsub]; [| by eapply task_step_inv |].
  - apply par_inv_intro; simpl; try done; [lia | lia | |].
    + unfold lock_wf in *. simpl. destruct (p_lock s) as [d |]; [| done].
      destruct Hl as (op & code & Hd & ?). exists op, code. unfold start. rewrite task_of_insert.
      rewrite decide_False; [done |]. intros <-. by rewrite Hidle in Hd.
    + intros d. unfold start. destruct (program_sat c ev) as [H1 H2]. destruct (decide (d = c)) as [-> | Hne].
      * rewrite task_of_insert, decide_True by done. split_and!; simpl; [apply Hco | apply Hin | done | by rewrite H2].
      * apply (task_inv_frame s); try done. by apply (par_inv_task b).
  - apply par_inv_intro; simpl; try done; [lia | lia | |].
    + intros c k x. rewrite Hsub. apply Htab.
    + intros d. apply (par_inv_task b s d Hinv).
Qed.

(** The start: no task is at work. *)
Lemma par_new_inv b w :
  inner_wf (inner (w_reg w)) -> (blen (all_subs (inner (w_reg w))) <= b)%Z ->
  (0 <= generation (w_reg w) <= b)%Z -> lo <= w_next w ->
  Forall Q (all_subs (inner (w_reg w))) -> table_sat Q w -> par_inv Q lo b (par_new w).
Proof.
  intros. apply par_inv_intro; simpl; try done. intros c. unfold task_of. simpl. rewrite lookup_empty. simpl.
  split_and!; simpl; [by left | constructor | constructor | done].
Qed.

Lemma label_lookup b s c m code w lock gi i more ins s' :
  par_inv Q lo b s -> (b + 1 < usize_max)%Z -> tk_code (task_of s c) = ins :: code ->
  ins = I_load m \/ ins = I_resolve m ->
  exec (p_world s) (p_lock s) (p_inner s) c (tk_cache (task_of s c)) ins = Some (w, lock, gi, i, more) ->
  s' = mkPar w lock gi (<[c := mkTask i (more ++ code)]> (p_tasks s)) ->
  p_inner s' = p_inner s /\
  spec_step (all_subs (p_inner s)) (label s c s') (all_subs (p_inner s)).
Proof.
  intros [Hwf _ Hgen _ Hl _ Hco _] Hb Hcode Hins He ->. unfold label. rewrite Hcode.
  rewrite task_of_insert, decide_True by done. unfold usize_max in Hb. specialize (Hco c).
  destruct Hins as [-> | ->]; simpl in He.
  - simplify_eq. simpl. split; [done |].
    destruct (negb _ || _) eqn:E; simpl; [done |]. split; [done |].
    rewrite <- (resolve_subs_correct (snapshot s)) by done.
    destruct (refresh_correct (snapshot s) (msg_subject m) (tk_cache (task_of s c)) Hco) as (_ & H & _);
      [unfold usize_max; simpl; lia |].
    unfold refresh in H. simpl in H. rewrite E in H. by rewrite H.
  - destruct (p_lock s) eqn:El; [done |]. simplify_eq. simpl. split; [done |]. split; [done |].
    rewrite <- (unlocked_snapshot s Hl El). by apply (resolve_subs_correct (snapshot s)).
Qed.

Lemma task_step_spec b s c s' :
  par_inv Q lo b s -> (b + 1 < usize_max)%Z -> task_step s c = Some s' ->
  spec_step (all_subs (p_inner s)) (label s c s') (all_subs (p_inner s')).
Proof.
  intros Hinv Hb (ins & code & w & lock & gi & i & more & Hcode & He & Hs')%task_step_exec.
  destruct (calm ins) eqn:Hcalm.
  - destruct (calm_exec _ _ _ _ _ _ _ _ _ _ _ Hcalm He) as (_ & Hg & _).
    assert (Hp : p_inner s' = p_inner s) by (by subst). rewrite Hp.
    destruct ins; try done; try (unfold label; rewrite Hcode; done).
    + eapply (label_lookup b); try done. by left.
    + eapply (label_lookup b); try done. by right.
  - pose proof Hinv as [Hwf Hsz _ _ Hl _ _ _]. unfold usize_max in Hb. subst s'. unfold label. rewrite Hcode.
    destruct ins as [ | | | | | | | | | | op | op | | | | | |]; try done; simpl.
    + destruct (lock_legal s c op code b Hinv (or_introl Hcode)) as (Hleg & _).
      destruct (lock_op_correct (p_inner s) op Hwf Hleg ltac:(lia)) as (_ & Hp & _).
      unfold lock_wf in Hl. simpl in He. destruct (p_lock s); [done |]. rewrite Hl in He.
      destruct (lock_op (p_inner s) op) as [i1 []]; by simplify_eq.
    + destruct (lock_legal s c op code b Hinv (or_intror Hcode)) as (Hleg & _).
      destruct (lock_op_correct (p_inner s) op Hwf Hleg ltac:(lia)) as (_ & Hp & _).
      destruct (bump_locked s c op code b Hinv Hcode) as (_ & Hi & _).
      simpl in He. simplify_eq. by rewrite Hi.
Qed.

Lemma par_step_spec may b s l s' :
  par_inv Q lo b s -> (b + 1 < usize_max)%Z -> par_step may s l s' ->
  spec_step (all_subs (p_inner s)) l (all_subs (p_inner s')).
Proof. intros Hinv Hb H. destruct H as [| s c s' H |]; [done | by eapply task_step_spec | done]. Qed.

Lemma trace_spec may b s ls s' :
  par_inv Q lo b s -> (b + blen ls < usize_max)%Z -> trace may s ls s' ->
  spec_run (all_subs (p_inner s)) ls (all_subs (p_inner s')) /\ par_inv Q lo (b + blen ls) s'.
Proof.
  intros Hinv Hb H. revert b Hinv Hb. induction H as [s | s l s1 ls s2 H1 H2 IH]; intros b Hinv Hb.
  { by rewrite blen_nil, Z.add_0_r. }
  rewrite blen_cons in Hb |- *. pose proof (blen_nonneg ls).
  replace (b + (1 + blen ls))%Z with (b + 1 + blen ls)%Z in * by lia.
  destruct (IH (b + 1)%Z) as [H3 H4]; [eapply par_step_inv; [done | lia | done] | lia |].
  split; [| done]. exists (all_subs (p_inner s1)). split; [| done]. eapply par_step_spec; [done | lia | done].
Qed.

(** Whoever waits, waits for the lock, and the next step of the task that holds it
    releases it. *)
Lemma lock_released b s c :
  par_inv Q lo b s -> tk_code (task_of s c) <> [] -> task_step s c = None ->
  exists d s', p_lock s = Some d /\ task_step s d = Some s' /\ p_lock s' = None.
Proof.
  intros [_ _ _ _ Hl _ _ _] Hne Hstep. unfold task_step in Hstep.
  destruct (tk_code (task_of s c)) as [| ins code]; [done |].
  assert (Hlock : exists d, p_lock s = Some d).
  { destruct (p_lock s) as [d |] eqn:E; [eauto |]. exfalso.
    destruct (exec _ _ _ _ _ ins) as [[[[[w lock] gi] i] more] |] eqn:He; [done |].
    destruct ins; simpl in He; try done; repeat case_match; done. }
  destruct Hlock as [d Hd]. unfold lock_wf in Hl. rewrite Hd in Hl. destruct Hl as (op & code' & Hcode & _).
  exists d. unfold task_step. rewrite Hcode. simpl. eauto.
Qed.

End Invariant.

(** A world of the server, as a start for the tasks. *)
Lemma world_legal w : world_wf w -> Forall legal (registered w) /\ table_sat legal w.
Proof.
  intros (Hr & Hc & _). split.
  - by destruct Hr as (_ & [? _] & _).
  - intros c k x H. unfold subs_of in H. destruct (w_conns w !! c) as [cn |] eqn:E; simpl in H; [| by rewrite lookup_empty in H].
    destruct (Hc c cn E) as [_ Ht]. destruct (Ht k x H) as (? & ? & ? & ? & _). done.
Qed.

Lemma world_par_inv w b :
  world_wf w -> (0 <= generation (w_reg w) <= b)%Z -> (Z.of_nat (w_next w) <= b)%Z ->
  par_inv legal 0 b (par_new w).
Proof.
  intros Hw Hg Hn. destruct (world_legal w Hw) as [H1 H2]. pose proof (registered_bound w Hw).
  unfold registered in *. apply par_new_inv; try done; [by destruct Hw | lia | lia].
Qed.

(** C5: the registry is linearizable.  Let the tasks of any number of connections
    publish, subscribe, unsubscribe and close, interleaved at every load, store,
    lock and push, with the caches of the publishers read without any lock.  What
    they see of the registry is what they would see of one bag of subscriptions:
    each critical section changes it at its unlock by exactly what it says, and
    each publish, answered by its cache or not, is answered with exactly the
    subscriptions that match in the bag at a moment inside it.  The count of
    subscriptions is exact, and whoever waits for the lock waits for a task that
    releases it with its next step. *)
Theorem registry_linearizable w may ls s :
  world_wf w -> (0 <= generation (w_reg w))%Z ->
  (generation (w_reg w) + Z.of_nat (w_next w) + blen ls < usize_max)%Z ->
  trace may (par_new w) ls s ->
  spec_run (registered w) ls (all_subs (p_inner s)) /\
  total (p_inner s) = blen (all_subs (p_inner s)) /\
  (p_lock s = None -> inner (w_reg (p_world s)) = p_inner s) /\
  (forall c, tk_code (task_of s c) <> [] -> task_step s c = None ->
     exists d s', p_lock s = Some d /\ task_step s d = Some s' /\ p_lock s' = None).
Proof.
  intros Hw Hg Hb Htr.
  pose proof (world_par_inv w (generation (w_reg w) + Z.of_nat (w_next w)) Hw ltac:(lia) ltac:(lia)) as H0.
  destruct (trace_spec legal 0 ltac:(done) ltac:(done) may _ _ _ _ H0 Hb Htr) as [H1 H2].
  split_and!; [done | by destruct H2 as [(_ & _ & ?)] | |].
  - intros El. pose proof (pi_lock _ _ _ _ H2) as Hl. unfold lock_wf in Hl. by rewrite El in Hl.
  - intros c. by eapply lock_released.
Qed.

End Races.
