(* ===== verification/LimitRace.v ===== *)
(** * Delivery limits under concurrent publishers (crates/server/src/routing.rs)

    [Sub::account] counts a delivery after it was queued, and [route] takes a spent
    subscription out of the registry at the end of its loop.  Publishers that
    resolved the subscription before that deliver to it once more each. *)

From Stdlib Require Import String Strings.Byte.
From stdpp Require Import relations fin_maps.
From S2P Require Import Prelude Subjects Nuid Frames External Arena Outbox Options Registry Interest QueueGroups Conn Route Client RouteSteps Races.

Section LimitRace.

Context `{BML : BytesMutLaws} `{CHL : ChannelLaws}.

(** ** Lemmas: a message reaches a subscription once *)

Lemma probe_order_member start members k : k ∈ probe_order start members -> k ∈ members.
Proof.
  unfold probe_order. change (map ?f) with (fmap (M := list) f).
  intros (j & -> & Hj%elem_of_seq)%list_elem_of_fmap.
  assert (Hn : (0 < blen members)%Z) by (unfold blen; lia).
  pose proof (Z.mod_pos_bound (wrap64 (start + Z.of_nat j)) _ Hn) as Hb.
  destruct (lookup_lt_is_Some_2 members (Z.to_nat (wrap64 (start + Z.of_nat j) mod blen members))) as [m Hm].
  { unfold blen in *. lia. }
  rewrite Hm. by eapply list_elem_of_lookup_2.
Qed.

Lemma pick_member_queue elig room start subs i g k :
  pick_member elig room start subs (group_members subs i g) = Some k ->
  exists u, subs !! k = Some u /\ queue u = Some g.
Proof.
  intros H. assert (Hk : k ∈ group_members subs i g).
  { apply (probe_order_member start). unfold pick_member in H.
    destruct (List.find _ _) eqn:E in H; [simplify_eq | by apply List.find_some in H as [?%list_elem_of_In _]].
    by apply List.find_some in E as [?%list_elem_of_In _]. }
  apply elem_of_group_members in Hk as [_ ?]. done.
Qed.

Lemma pick_loop_NoDup elig room start subs i rest out groups :
  NoDup rest -> NoDup out ->
  (forall x, x ∈ out -> (queue x = None /\ x ∉ rest) \/ exists g, queue x = Some g /\ g ∈ groups) ->
  NoDup (pick_loop elig room start subs i rest out groups).1.
Proof.
  revert i out groups. induction rest as [| s rest IH]; intros i out groups Hr Ho Hx; simpl; [done |].
  apply NoDup_cons in Hr as [Hs Hr].
  assert (Hx' : forall x, x ∈ out -> (queue x = None /\ x ∉ rest) \/ exists g, queue x = Some g /\ g ∈ groups).
  { intros x Hin. destruct (Hx x Hin) as [[? Hn] | ?]; [left | by right]. split; [done |]. set_solver. }
  destruct (queue s) as [g |] eqn:Hq.
  - destruct (existsb _ groups) eqn:E; [by apply IH |].
    assert (Hg : g ∉ groups).
    { intros Hin%list_elem_of_In. apply not_true_iff_false in E. apply E. apply existsb_exists.
      exists g. by rewrite bool_decide_true. }
    destruct (pick_member _ _ _ _ _) as [k |] eqn:Ek.
    + apply pick_member_queue in Ek as (u & Hu & Hqu). rewrite Hu. simpl. apply IH; [done | |].
      * apply NoDup_app. split_and!; [done | | apply NoDup_singleton]. intros x Hin ->%list_elem_of_singleton.
        destruct (Hx u Hin) as [[? _] | (g' & Hg' & ?)]; [congruence |]. rewrite Hqu in Hg'. by simplify_eq.
      * intros x [Hin | ->%list_elem_of_singleton]%elem_of_app.
        -- destruct (Hx' x Hin) as [? | (g' & ? & ?)]; [by left | right; exists g'; set_solver].
        -- right. exists g. set_solver.
    + apply IH; [done | done |]. intros x Hin. destruct (Hx' x Hin) as [? | (g' & ? & ?)]; [by left |].
      right. exists g'. set_solver.
  - apply IH; [done | |].
    + apply NoDup_app. split_and!; [done | | apply NoDup_singleton]. intros x Hin ->%list_elem_of_singleton.
      destruct (Hx s Hin) as [[_ Hn] | (g' & ? & _)]; [set_solver | congruence].
    + intros x [Hin | ->%list_elem_of_singleton]%elem_of_app; [by apply Hx' | by left].
Qed.

Lemma choice_NoDup w c i : NoDup (in_subs i) -> NoDup (choice w c i).2.
Proof.
  intros H. unfold choice, pick_groups. destruct (in_queue i); [| done]. destruct (next_u64 _) as [r start].
  pose proof (pick_loop_NoDup (eligible w c) (fun s => conn_has_room w (conn s)) start (in_subs i) 0 (in_subs i) [] []) as Hp.
  destruct (pick_loop _ _ _ _ _ _ _ _) as [out groups]. simpl in *. apply Hp; [done | constructor |]. set_solver.
Qed.

(** ** Counting over tasks *)

Definition tally (f : Task -> nat) (T : gmap cref Task) : nat := map_fold (fun _ t n => f t + n) 0 T.

Lemma tally_new f T c t : T !! c = None -> tally f (<[c := t]> T) = f t + tally f T.
Proof. intros H. unfold tally. rewrite map_fold_insert_L; [done | | done]. intros. lia. Qed.

Lemma tally_insert f T c t :
  f (mkTask interest_new []) = 0 ->
  tally f (<[c := t]> T) + f (default (mkTask interest_new []) (T !! c)) = tally f T + f t.
Proof.
  intros H0. destruct (T !! c) as [u |] eqn:E; simpl.
  - assert (Hu : tally f T = f u + tally f (delete c T)).
    { rewrite <- (tally_new f (delete c T) c u) by apply lookup_delete_eq. by rewrite insert_delete_id. }
    rewrite Hu, <- insert_delete_eq, tally_new by apply lookup_delete_eq. lia.
  - rewrite H0, tally_new by done. lia.
Qed.

Lemma tally_add f g T : tally (fun t => f t + g t) T = tally f T + tally g T.
Proof. induction T as [| c t T Hc IH] using map_ind; [done |]. rewrite !tally_new, IH by done. lia. Qed.

Lemma tally_bound f T (pubs : gset cref) :
  (forall c t, T !! c = Some t -> f t <= 1 /\ (0 < f t -> c ∈ pubs)) -> tally f T <= size pubs.
Proof.
  revert pubs. induction T as [| c t T Hc IH] using map_ind; intros pubs H; [unfold tally; simpl; rewrite map_fold_empty; lia |].
  rewrite tally_new by done. destruct (H c t ltac:(apply lookup_insert_eq)) as [H1 H2].
  assert (Hrest : forall d u, T !! d = Some u -> d <> c /\ f u <= 1 /\ (0 < f u -> d ∈ pubs)).
  { intros d u Hd. split; [congruence |]. apply H. rewrite lookup_insert_ne by congruence. done. }
  destruct (f t) as [| [| ?]] eqn:E; [| | lia].
  - apply (IH pubs). intros d u Hd. by apply Hrest in Hd as (_ & ?).
  - assert (Hin : c ∈ pubs) by (apply H2; lia).
    assert (Hle : tally f T <= size (pubs ∖ {[c]})).
    { apply IH. intros d u Hd. apply Hrest in Hd as (? & ? & ?). split; [done |]. set_solver. }
    rewrite size_difference, size_singleton in Hle by set_solver.
    assert (size pubs <> 0) by (apply size_non_empty_iff; set_solver). lia.
Qed.

(** ** The limit of one subscription *)

Section Limit.

(** The subscription, its limit, and the tasks that publish. *)
Context (x0 : Sub) (L : Z) (pubs : gset cref).

(** Nobody unsubscribes it by its sid again. *)
Definition may_start (c : cref) (ev : TaskEv) : Prop :=
  match ev with
  | Te_publish _ => c ∈ pubs
  | Te_unsubscribe s _ => ~ (c = conn x0 /\ s = sid x0)
  | _ => True
  end.

(** A subscription has the counters of [x0] only if it is [x0]. *)
Definition own_cell (x : Sub) : Prop := legal x /\ (sub_ref x = sub_ref x0 -> x = x0).

Lemma own_cell_legal x : own_cell x -> legal x.
Proof. by intros [? _]. Qed.

Definition occ (l : list Sub) : nat := length (retain (fun x => bool_decide (sub_ref x = sub_ref x0)) l).

(** How often an instruction may still deliver to it, and how often it holds it as
    spent. *)
Definition open_w (i : Interest) (ins : Instr) : nat :=
  match ins with
  | I_choose _ => occ (in_subs i)
  | I_walk k => occ (wk_todo k)
  | I_deliver k s | I_account k s _ => occ (s :: wk_todo k)
  | I_limit k _ _ _ => occ (wk_todo k)
  | _ => 0
  end.

Definition spent_w (ins : Instr) : nat :=
  match ins with
  | I_walk k | I_deliver k _ | I_account k _ _ => occ (wk_expired k)
  | I_limit k s _ n => occ (wk_expired k) + (if (L <=? n)%Z then occ [s] else 0)
  | I_lock (Lk_expire es) | I_bump (Lk_expire es) => occ es
  | _ => 0
  end.

Definition open_t (t : Task) : nat := sum_list_with (open_w (tk_cache t)) (tk_code t).
Definition spent_t (t : Task) : nat := sum_list_with spent_w (tk_code t).

(** Who routes, and who unsubscribes what. *)
Definition limit_own (c : cref) (ins : Instr) : Prop :=
  match ins with
  | I_load _ | I_resolve _ | I_choose _ | I_walk _ | I_deliver _ _ | I_account _ _ _ | I_limit _ _ _ _
  | I_lock (Lk_expire _) | I_bump (Lk_expire _) => c ∈ pubs
  | I_get s _ | I_check s _ _ | I_store s _ _ _ => ~ (c = conn x0 /\ s = sid x0)
  | _ => True
  end.

(** The start of [route], which has the task to itself. *)
Definition opening (ins : Instr) : bool :=
  match ins with I_load _ | I_resolve _ | I_choose _ => true | _ => false end.

Record limit_task (c : cref) (t : Task) : Prop := {
  lt_cache : NoDup (in_subs (tk_cache t));
  lt_once : open_t t + spent_t t <= 1;
  lt_own : Forall (limit_own c) (tk_code t);
  lt_tail : forall ins code, tk_code t = ins :: code ->
    Forall (fun ins => opening ins = false) code /\ (opening ins = true -> code = []) }.

(** While [x0] is registered, every delivery from the limit on has left a task that
    will take it out; afterwards, the deliveries still to come are counted. *)
Definition limit_inv (s : Par) : Prop :=
  (forall c, limit_task c (task_of s c)) /\
  exists d, w_cells (p_world s) !! sub_ref x0 = Some (mkCell d L) /\ (0 <= d)%Z /\
    ((x0 ∈ all_subs (p_inner s) /\ (d <= L - 1 + Z.of_nat (tally spent_t (p_tasks s)))%Z) \/
     ((x0 ∉ all_subs (p_inner s)) /\ (d + Z.of_nat (tally open_t (p_tasks s)) <= L - 1 + Z.of_nat (size pubs))%Z)).

(** ** Lemmas: weights *)

Lemma occ_app l k : occ (l ++ k) = occ l + occ k.
Proof. unfold occ. by rewrite retain_app, length_app. Qed.

Lemma occ_cons x l : occ (x :: l) = occ [x] + occ l.
Proof. apply (occ_app [x]). Qed.

Lemma occ_0 l : x0 ∉ l -> Forall own_cell l -> occ l = 0.
Proof.
  intros Hn Hl. unfold occ. rewrite retain_none; [done |]. rewrite Forall_forall in Hl. intros x Hx.
  apply bool_decide_false. intros E. destruct (Hl x Hx) as [_ H]. by rewrite (H E) in Hx.
Qed.

Lemma occ_elem l : Forall own_cell l -> 0 < occ l -> x0 ∈ l.
Proof. intros Hl Ho. destruct (decide (x0 ∈ l)) as [? | Hn]; [done |]. rewrite occ_0 in Ho by done. lia. Qed.

Lemma occ_once l : NoDup l -> Forall own_cell l -> occ l <= 1.
Proof.
  intros Hnd Hl. unfold occ. set (p x := bool_decide (sub_ref x = sub_ref x0)).
  assert (Hp : forall x, x ∈ retain p l -> x = x0).
  { intros x [Hx E%bool_decide_eq_true]%elem_of_retain. rewrite Forall_forall in Hl. by apply Hl. }
  assert (Hnd' : NoDup (retain p l)).
  { clear -Hnd. induction Hnd as [| x l Hx _ IH]; simpl; [constructor |]. destruct (p x); [| done].
    apply NoDup_cons. split; [| done]. by intros [? _]%elem_of_retain. }
  destruct (retain p l) as [| x [| y l']]; simpl; [lia | lia |].
  exfalso. apply NoDup_cons in Hnd' as [Hn _]. apply Hn. rewrite (Hp x), (Hp y) by set_solver. constructor.
Qed.

Lemma occ_le l k : (forall x, x ∈ l -> x ∈ k) -> NoDup l -> Forall own_cell l -> occ l <= occ k.
Proof.
  intros Hsub Hnd Hl. pose proof (occ_once l Hnd Hl).
  destruct (decide (occ l = 0)) as [-> | Hne]; [lia |].
  assert (Hin : x0 ∈ k) by (apply Hsub, occ_elem; [done | lia]).
  apply list_elem_of_split in Hin as (k1 & k2 & ->). rewrite occ_app, occ_cons.
  assert (E : occ [x0] = 1) by (unfold occ; simpl; by rewrite bool_decide_true). lia.
Qed.

Lemma open_t_tail i j code :
  Forall (fun ins => opening ins = false) code -> sum_list_with (open_w i) code = sum_list_with (open_w j) code.
Proof. induction 1 as [| ins code Hi _ IH]; simpl; [done |]. rewrite IH. by destruct ins. Qed.

(** A task that does not publish weighs nothing. *)
Lemma weights_pubs c code i :
  Forall (limit_own c) code -> c ∉ pubs ->
  sum_list_with (open_w i) code = 0 /\ sum_list_with spent_w code = 0.
Proof.
  intros H Hc. induction H as [| ins code Hi _ [IH1 IH2]]; simpl; [done |]. rewrite IH1, IH2.
  destruct ins as [ | | | | | | | | | | [] | [] | | | | | |]; simpl in *; done.
Qed.

Lemma weights_bound s : (forall c, limit_task c (task_of s c)) -> tally open_t (p_tasks s) + tally spent_t (p_tasks s) <= size pubs.
Proof.
  intros H. rewrite <- tally_add. apply tally_bound. intros c t Hc. specialize (H c). unfold task_of in H.
  rewrite Hc in H. simpl in H. destruct H as [_ H1 H2 _]. split; [done |]. intros Hpos.
  destruct (decide (c ∈ pubs)) as [? | Hn]; [done |].
  destruct (weights_pubs c (tk_code t) (tk_cache t) H2 Hn) as [E1 E2]. unfold open_t, spent_t in Hpos. lia.
Qed.

Lemma expired_removed l es x : x ∈ es -> x ∉ bag_run l (lock_ops (Lk_expire es)).
Proof.
  rewrite bag_run_expire. revert l. induction es as [| e es IH]; intros l; simpl; [by intros ?%not_elem_of_nil |].
  intros [-> | Hx]%elem_of_cons; [| by apply IH]. intros Hin.
  assert (H : forall k, e ∈ foldl (fun l e => retain (fun s => negb (removes e s)) l) k es -> e ∈ k).
  { clear. induction es as [| e' es IH]; intros k; simpl; [done |]. intros H%IH. by apply elem_of_retain in H as [? _]. }
  apply H, elem_of_retain in Hin as [_ Hn]. by rewrite removes_self in Hn.
Qed.

(** What one step of a publisher does to the counter and the weights. *)
Definition weighed (i i' : Interest) (ins : Instr) (more : list Instr) (d d' : Z) : Prop :=
  let o := open_w i ins in let o' := sum_list_with (open_w i') more in
  let p := spent_w ins in let p' := sum_list_with spent_w more in
  (d' = d /\ o' <= o /\ p <= p' /\ o' + p' <= o + p) \/
  (d' = (d + 1)%Z /\ S o' = o /\ p' = p + (if (L <=? d')%Z then 1 else 0)).

Lemma weighed_nothing i i' ins more d :
  open_w i ins = 0 -> spent_w ins = 0 -> sum_list_with (open_w i') more = 0 -> sum_list_with spent_w more = 0 ->
  weighed i i' ins more d d.
Proof. intros H1 H2 H3 H4. left. rewrite H1, H2, H3, H4. lia. Qed.

Lemma occ_other s : sub_ref s <> sub_ref x0 -> occ [s] = 0.
Proof. intros E. unfold occ. simpl. by rewrite bool_decide_false. Qed.

Lemma occ_same s : sub_ref s = sub_ref x0 -> occ [s] = 1.
Proof. intros E. unfold occ. simpl. by rewrite bool_decide_true. Qed.

(** A delivery is counted. *)
Lemma account_weighed w i k s stalled d :
  w_cells w !! sub_ref x0 = Some (mkCell d L) -> (0 <= d)%Z -> (d + 1 < u64_modulus)%Z ->
  let n := wrap64 (delivered (cell_of w s) + 1) in
  exists d', w_cells (set_cell w (sub_ref s) (mkCell n (limit (cell_of w s)))) !! sub_ref x0 = Some (mkCell d' L) /\
    weighed i i (I_account k s stalled) [I_limit k s stalled n] d d'.
Proof.
  intros Hd H0 Hmax n. unfold weighed. simpl. rewrite (occ_cons s (wk_todo k)).
  destruct (decide (sub_ref s = sub_ref x0)) as [E | E].
  - exists (d + 1)%Z. unfold n, cell_of. rewrite E, Hd, lookup_insert_eq. simpl. rewrite (occ_same s E).
    rewrite wrap64_small by (unfold in_u64; lia). split; [done |]. right. repeat split; [lia |].
    destruct (L <=? d + 1)%Z; lia.
  - exists d. rewrite lookup_insert_ne by done. rewrite (occ_other s E). split; [done |]. left. case_match; lia.
Qed.

(** It is compared with the limit. *)
Lemma limit_weighed w i k s stalled n d count stall :
  w_cells w !! sub_ref x0 = Some (mkCell d L) -> (0 < L)%Z ->
  let max := limit (cell_of w s) in
  weighed i i (I_limit k s stalled n)
    [I_walk (mkWalk (wk_msg k) (wk_todo k)
       (if negb (max =? 0)%Z && (max <=? n)%Z then wk_expired k ++ [s] else wk_expired k) count stall)] d d.
Proof.
  intros Hd HL max. left. simpl. unfold max. destruct (decide (sub_ref s = sub_ref x0)) as [E | E].
  - unfold cell_of. rewrite E, Hd. simpl. destruct (L =? 0)%Z eqn:E0; bool_to_prop; [lia |]. simpl.
    destruct (L <=? n)%Z; rewrite ?occ_app; lia.
  - repeat case_match; rewrite ?occ_app, ?(occ_other s E); lia.
Qed.

Lemma calm_weighed w lock gi c i ins w' lock' gi' i' more d :
  calm ins = true -> opening ins = false \/ (exists m, ins = I_choose m) ->
  exec w lock gi c i ins = Some (w', lock', gi', i', more) ->
  w_cells w !! sub_ref x0 = Some (mkCell d L) -> (0 <= d)%Z -> (d + 1 < u64_modulus)%Z -> (0 < L)%Z ->
  sub_ref x0 < w_next w -> NoDup (in_subs i) -> Forall own_cell (in_subs i) ->
  Forall own_cell (instr_subs ins) -> instr_own (S (sub_ref x0)) c ins -> limit_own c ins ->
  exists d', w_cells w' !! sub_ref x0 = Some (mkCell d' L) /\ weighed i i' ins more d d'.
Proof.
  intros Hcalm Hop H Hd H0 Hmax HL Hn Hnd Hic Hown Hio Hlo.
  destruct ins; simpl in Hcalm, H; try done; try by destruct Hop as [? | [? ?]].
  - (* choose *) fold (choice w c i) in H. pose proof (choice_NoDup w c i Hnd) as Hl.
    destruct (choice_same w c i) as (_ & _ & _ & _ & _ & _ & Hsub).
    destruct (choice w c i) as [[r i2] l]. simpl in Hl, Hsub. simplify_eq. exists d. split; [done |].
    assert (Hoc : Forall own_cell l) by (rewrite Forall_forall in *; auto).
    pose proof (occ_le l (in_subs i) Hsub Hl Hoc). left.
    destruct (is_empty l); simpl; (split; [done | unfold occ in *; simpl; lia]).
  - (* walk *) destruct k as [m [| s todo] e n st]; simpl in *.
    + exists d. simplify_eq. split; [done |]. left. destruct (is_empty e) eqn:E; simpl; [bool_to_prop; subst |]; change (occ []) with 0; lia.
    + exists d. simplify_eq. split; [done |]. left. destruct (eligible _ c s); simpl; rewrite ?(occ_cons s todo); lia.
  - (* deliver *) destruct (deliver_reg w s (wk_msg k)) as (_ & Hcells & _).
    destruct (deliver w s (wk_msg k)) as [w1 r]. simpl in Hcells.
    exists d. destruct r; simplify_eq; rewrite Hcells; (split; [done |]); left; simpl; rewrite ?occ_app, ?(occ_cons s (wk_todo k)); lia.
  - (* account *) simplify_eq. by apply account_weighed.
  - (* limit *) simplify_eq. exists d. split; [done |]. by apply limit_weighed.
  - exists d. simplify_eq. split; [done |]. by apply weighed_nothing.
  - exists d. destruct (w_conns w !! d0) as [cn |]; [destruct (c_closed cn) |]; simplify_eq; (split; [done |]); by apply weighed_nothing.
  - exists d. simplify_eq. rewrite (proj1 (proj2 (upd_conn_same _ _ _))). split; [done |]. by apply weighed_nothing.
  - exists d. destruct (bool_decide _); simplify_eq; simpl; rewrite ?lookup_insert_ne by lia; (split; [done |]); by apply weighed_nothing.
  - exists d. simplify_eq. rewrite (proj1 (proj2 (upd_conn_same _ _ _))). split; [done |]. by apply weighed_nothing.
  - exists d. destruct (subs_of w c !! s); simplify_eq; (split; [done |]); by apply weighed_nothing.
  - exists d. simplify_eq. split; [done |]. by apply weighed_nothing.
  - exists d. simplify_eq. simpl in Hio, Hlo, Hown |- *. rewrite Forall_singleton in Hown. rewrite lookup_insert_ne.
    + split; [done |]. by destruct gone; apply weighed_nothing.
    + intros E. destruct Hown as [_ Hx]. rewrite (Hx E) in Hio. destruct Hio. apply Hlo. done.
  - exists d. simplify_eq. rewrite (proj1 (proj2 (upd_conn_same _ _ _))). split; [done |]. by apply weighed_nothing.
Qed.

(** ** Lemmas: the invariant *)

Lemma exec_limit_own w lock gi c i ins w' lock' gi' i' more :
  exec w lock gi c i ins = Some (w', lock', gi', i', more) -> limit_own c ins ->
  Forall (limit_own c) more /\ (opening ins = true -> tail more = []) /\
  (opening ins = false -> Forall (fun ins => opening ins = false) more).
Proof.
  intros H Ho. destruct ins; simpl in H, Ho.
  all: try by (repeat case_match; simplify_eq; repeat constructor).
  - destruct (subs_of w c !! s); simplify_eq; repeat constructor; done.
Qed.

Lemma exec_cache_NoDup b s c ins w' lock' gi' i' more :
  par_inv own_cell (S (sub_ref x0)) b s ->
  exec (p_world s) (p_lock s) (p_inner s) c (tk_cache (task_of s c)) ins = Some (w', lock', gi', i', more) ->
  NoDup (in_subs (tk_cache (task_of s c))) -> NoDup (in_subs i').
Proof.
  intros [Hwf _ _ _ Hl _ _ _] H Hnd. set (i := tk_cache (task_of s c)) in *. destruct ins; simpl in H.
  all: try by (repeat case_match; simplify_eq).
  - destruct (p_lock s) eqn:E; [done |]. simplify_eq. rewrite <- (unlocked_snapshot s Hl E). simpl.
    rewrite (resolve_subs_correct (snapshot s)) by done. destruct Hwf as (_ & [_ Hk] & _).
    apply (retain_keys_NoDup (fun s => matches (subject s) (msg_subject m))) in Hk. by apply NoDup_fmap_1 in Hk.
  - fold (choice (p_world s) c i) in H. destruct (choice_same (p_world s) c i) as (_ & _ & _ & _ & H3 & _).
    destruct (choice (p_world s) c i) as [[r i2] l]. simplify_eq. simpl in H3. by rewrite H3.
Qed.

Section Step.

Context (s : Par) (c : cref) (ins : Instr) (code : list Instr).
Context (w' : World) (lock' : option cref) (gi' : Inner) (i' : Interest) (more : list Instr) (b : Z).
Context (Hinv : par_inv own_cell (S (sub_ref x0)) b s) (Ht : forall c, limit_task c (task_of s c)).
Context (Hcode : tk_code (task_of s c) = ins :: code).
Context (He : exec (p_world s) (p_lock s) (p_inner s) c (tk_cache (task_of s c)) ins = Some (w', lock', gi', i', more)).

Let i := tk_cache (task_of s c).
Let T' := <[c := mkTask i' (more ++ code)]> (p_tasks s).

Lemma rest_no_opening : Forall (fun ins => opening ins = false) code.
Proof. destruct (Ht c) as [_ _ _ H]. by apply (H ins code). Qed.

Lemma open_step : tally open_t T' + open_w i ins = tally open_t (p_tasks s) + sum_list_with (open_w i') more.
Proof.
  pose proof (tally_insert open_t (p_tasks s) c (mkTask i' (more ++ code)) eq_refl) as H.
  fold (task_of s c) in H. unfold open_t at 2 4 in H. rewrite Hcode in H. simpl in H. fold i in H.
  rewrite sum_list_with_app, (open_t_tail i i' code rest_no_opening) in H. unfold T'. lia.
Qed.

Lemma spent_step : tally spent_t T' + spent_w ins = tally spent_t (p_tasks s) + sum_list_with spent_w more.
Proof.
  pose proof (tally_insert spent_t (p_tasks s) c (mkTask i' (more ++ code)) eq_refl) as H.
  fold (task_of s c) in H. unfold spent_t at 2 4 in H. rewrite Hcode in H. simpl in H.
  rewrite sum_list_with_app in H. unfold T'. lia.
Qed.

Lemma limit_task_step :
  sum_list_with (open_w i') more + sum_list_with spent_w more <= open_w i ins + spent_w ins \/
  (opening ins = true /\ sum_list_with (open_w i') more + sum_list_with spent_w more <= 1) ->
  forall w lock gi d, limit_task d (task_of (mkPar w lock gi T') d).
Proof.
  intros Hw w lock gi d. unfold T'. rewrite task_of_insert. case_decide as E; [| apply (Ht d)]. subst d.
  pose proof rest_no_opening as Hrest. pose proof (Ht c) as [Hnd Honce Hown Htail]. rewrite Hcode in Hown.
  apply Forall_cons in Hown as [Hown1 Hown2]. destruct (Htail ins code Hcode) as [_ Hone].
  destruct (exec_limit_own _ _ _ _ _ _ _ _ _ _ _ He Hown1) as (Hm1 & Hm2 & Hm3).
  unfold open_t, spent_t in Honce. rewrite Hcode in Honce. simpl in Honce. fold i in Honce.
  split; simpl; [by eapply exec_cache_NoDup | | by apply Forall_app |].
  - unfold open_t, spent_t. simpl. rewrite !sum_list_with_app, (open_t_tail i' i code Hrest).
    destruct Hw as [Hw | [Ho Hw]]; [lia |]. rewrite (Hone Ho) in *. simpl in *. lia.
  - intros hd tl Heq. destruct (opening ins) eqn:Ho.
    + rewrite (Hone eq_refl), app_nil_r in Heq. rewrite Heq in Hm2. simpl in Hm2. rewrite Hm2 by done. done.
    + assert (Hall : Forall (fun ins => opening ins = false) (more ++ code)) by (apply Forall_app; auto).
      rewrite Heq in Hall. apply Forall_cons in Hall as [H1 H2]. split; [done |]. congruence.
Qed.

Context (HL : (0 < L)%Z) (Hmax : (L + Z.of_nat (size pubs) < u64_modulus)%Z).

Lemma own_parts :
  Forall own_cell (in_subs i) /\ Forall own_cell (instr_subs ins) /\ instr_own (S (sub_ref x0)) c ins /\
  NoDup (in_subs i) /\ limit_own c ins.
Proof.
  destruct (par_inv_task _ _ b s c Hinv) as (_ & H1 & H2 & _). rewrite Hcode in H2.
  apply Forall_cons in H2 as [[H2 H3] _]. destruct (Ht c) as [H4 _ H5 _]. rewrite Hcode in H5.
  by apply Forall_cons in H5 as [? _].
Qed.

(** Steps other than lookups and critical sections. *)
Lemma calm_limit :
  calm ins = true -> opening ins = false \/ (exists m, ins = I_choose m) ->
  limit_inv s -> limit_inv (mkPar w' lock' gi' T').
Proof.
  intros Hcalm Hop [_ (d & Hd & H0 & Hcase)]. destruct own_parts as (H1 & H2 & H3 & H4 & H5).
  destruct (calm_exec _ _ _ _ _ _ _ _ _ _ _ Hcalm He) as (_ & Hg & _).
  pose proof (weights_bound s Ht) as Hwb. pose proof (pi_next _ _ _ _ Hinv) as Hnx.
  destruct (calm_weighed _ _ _ _ _ _ _ _ _ _ _ d Hcalm Hop He) as (d' & Hd' & Hw); try done; [lia |].
  pose proof open_step as Ho. pose proof spent_step as Hs. unfold weighed in Hw. fold i in Hw.
  split.
  - simpl. apply limit_task_step. left. destruct Hw as [(_ & _ & _ & ?) | (_ & ? & ?)]; [done |]. case_match; lia.
  - exists d'. simpl. rewrite Hg. split; [done |]. split; [lia |].
    destruct Hcase as [[Hin Hc] | [Hin Hc]]; [left | right]; (split; [done |]).
    + destruct Hw as [(-> & _ & ? & _) | (-> & ? & Hp)]; [lia |]. destruct (L <=? d + 1)%Z eqn:E; bool_to_prop; lia.
    + destruct Hw as [(-> & ? & _ & _) | (-> & ? & _)]; lia.
Qed.

(** Lookups: who finds the subscription finds it registered. *)
Lemma lookup_limit m :
  ins = I_load m \/ ins = I_resolve m -> (b + 1 < usize_max)%Z ->
  limit_inv s -> limit_inv (mkPar w' lock' gi' T').
Proof.
  intros Hins Hb [_ (d & Hd & H0 & Hcase)]. destruct own_parts as (_ & _ & _ & H4 & _).
  assert (Hcalm : calm ins = true /\ opening ins = true /\ open_w i ins = 0 /\ spent_w ins = 0)
    by (by destruct Hins as [-> | ->]).
  destruct Hcalm as (Hcalm & Hop & Hw1 & Hw2).
  destruct (label_lookup _ _ b s c m code w' lock' gi' i' more ins _ Hinv Hb Hcode Hins He eq_refl) as [Hg Hspec].
  simpl in Hg. fold T' in Hspec.
  pose proof (exec_cache_NoDup b s c ins w' lock' gi' i' more Hinv He H4) as Hnd.
  destruct (calm_cache _ _ b s c ins w' lock' gi' i' more Hcalm He Hinv) as [_ Hown].
  pose proof (occ_once _ Hnd Hown) as Hone.
  assert (Hm : (more = [I_resolve m] \/
            more = [I_choose m] /\ (0 < occ (in_subs i') -> x0 ∈ all_subs (p_inner s))) /\
            w_cells w' = w_cells (p_world s)).
  { unfold label in Hspec. rewrite Hcode in Hspec. unfold T' in Hspec. rewrite task_of_insert, decide_True in Hspec by done.
    simpl in Hspec. destruct Hins as [E | E]; rewrite E in *; simpl in He.
    - destruct (negb _ || _); simplify_eq; (split; [| done]); [by left |]. right. split; [done |].
      intros Hpos%occ_elem; [| done]. simpl in Hspec. destruct Hspec as [_ Ha]. rewrite Ha in Hpos.
      by apply elem_of_retain in Hpos as [? _].
    - destruct (p_lock s); [done |]. simplify_eq. split; [| done]. right. split; [done |].
      intros Hpos%occ_elem; [| done]. destruct Hspec as [_ Ha]. rewrite Ha in Hpos.
      by apply elem_of_retain in Hpos as [? _]. }
  destruct Hm as [Hm Hcells]. pose proof open_step as Ho. pose proof spent_step as Hs. split.
  - simpl. apply limit_task_step. right. split; [done |]. destruct Hm as [-> | [-> _]]; simpl; lia.
  - exists d. simpl. rewrite Hcells, Hg. split; [done |]. split; [done |].
    destruct Hcase as [[Hin Hc] | [Hin Hc]]; [left | right]; (split; [done |]);
      destruct Hm as [Hm | [Hm Hreg]]; rewrite Hm in Ho, Hs; simpl in Ho, Hs; try lia.
    assert (occ (in_subs i') = 0); [| lia]. destruct (occ (in_subs i')); [done |]. exfalso. apply Hin, Hreg. lia.
Qed.

(** Critical sections: the task that takes the subscription out holds it as spent. *)
Lemma lock_limit op :
  ins = I_lock op -> (b + 1 < usize_max)%Z -> limit_inv s -> limit_inv (mkPar w' lock' gi' T').
Proof.
  intros E Hb [_ (d & Hd & H0 & Hcase)]. pose proof open_step as Ho. pose proof spent_step as Hs.
  assert (Hm : gi' = p_inner s /\ w_cells w' = w_cells (p_world s) /\
            sum_list_with (open_w i') more = 0 /\ sum_list_with spent_w more = spent_w ins /\ open_w i ins = 0).
  { assert (Hcode' := Hcode). assert (He' := He). rewrite E in Hcode', He'. simpl in He'.
    destruct (lock_legal _ _ own_cell_legal s c op code b Hinv (or_introl Hcode')) as (Hleg & _).
    pose proof Hinv as [Hwf Hsz _ _ Hl _ _ _]. unfold usize_max in Hb. unfold lock_wf in Hl.
    destruct (p_lock s); [done |]. rewrite Hl in He'.
    destruct (lock_op_correct (p_inner s) op Hwf Hleg ltac:(lia)) as (_ & _ & Hsame).
    destruct (lock_op (p_inner s) op) as [i1 []] eqn:Eop; simplify_eq.
    - split_and!; try done; simpl; destruct op; simpl; lia.
    - simpl in Hsame. rewrite Hsame by done. split_and!; try done; by destruct op; simplify_eq. }
  destruct Hm as (Hg & Hcells & Hm1 & Hm2 & Hm3). split.
  - simpl. apply limit_task_step. left. lia.
  - exists d. simpl. rewrite Hcells, Hg. split; [done |]. split; [done |].
    destruct Hcase as [[Hin Hc] | [Hin Hc]]; [left | right]; (split; [done |]); lia.
Qed.

Lemma bump_limit op :
  ins = I_bump op -> (b + 1 < usize_max)%Z -> limit_inv s -> limit_inv (mkPar w' lock' gi' T').
Proof.
  intros E Hb [_ (d & Hd & H0 & Hcase)]. pose proof open_step as Ho. pose proof spent_step as Hs.
  pose proof (weights_bound s Ht) as Hwb.
  assert (Hcode' := Hcode). rewrite E in Hcode'.
  destruct (lock_legal _ _ own_cell_legal s c op code b Hinv (or_intror Hcode')) as (Hleg & Hown & Hlo & _).
  destruct (bump_locked _ _ s c op code b Hinv Hcode') as (_ & Hi & _).
  pose proof Hinv as [Hwf Hsz _ _ _ _ _ _]. unfold usize_max in Hb.
  destruct (lock_op_correct (p_inner s) op Hwf Hleg ltac:(lia)) as (_ & Hp & _). rewrite <- Hi in Hp.
  assert (Hm : gi' = inner (w_reg (p_world s)) /\ w_cells w' = w_cells (p_world s) /\ more = [])
    by (pose proof He as He'; rewrite E in He'; simpl in He'; by simplify_eq).
  destruct Hm as (Hg & Hcells & Hm). rewrite Hm in Ho, Hs. simpl in Ho, Hs. rewrite E in Ho, Hs. simpl in Ho.
  split.
  - simpl. apply limit_task_step. left. rewrite Hm. simpl. lia.
  - exists d. simpl. rewrite Hcells, Hg. split; [done |]. split; [done |].
    destruct (decide (x0 ∈ all_subs (inner (w_reg (p_world s))))) as [Hin' | Hin']; [left | right]; (split; [done |]).
    + rewrite Hp in Hin'. destruct Hcase as [[Hin Hc] | [Hin Hc]].
      * assert (spent_w (I_bump op) = 0); [| lia]. destruct op as [| | | es]; try done. simpl.
        apply occ_0; [| done]. intros Hes. by eapply expired_removed.
      * exfalso. apply lock_bag_elem in Hin' as [? | ->]; [done |]. simpl in Hlo. lia.
    + destruct Hcase as [[Hin Hc] | [Hin Hc]]; lia.
Qed.

End Step.

Lemma own_cell_new ref subj q x c :
  S (sub_ref x0) <= ref -> is_valid subj = true -> own_cell (sub_new ref subj q x c).
Proof. intros Hr Hv. split; [done |]. simpl. lia. Qed.

Context (HL : (0 < L)%Z) (Hmax : (L + Z.of_nat (size pubs) < u64_modulus)%Z).

Lemma task_step_limit b s c s' :
  par_inv own_cell (S (sub_ref x0)) b s -> (b + 1 < usize_max)%Z -> limit_inv s ->
  task_step s c = Some s' -> limit_inv s'.
Proof.
  intros Hinv Hb Hlim (ins & code & w & lock & gi & i & more & Hcode & He & ->)%task_step_exec.
  pose proof Hlim as [Ht _].
  destruct ins as [m | m | m | | | | | | | | op | op | | | | | |].
  1, 2: by eapply (lookup_limit s c _ code w lock gi i more b); eauto.
  1: by eapply (calm_limit s c _ code w lock gi i more b); eauto.
  8: by eapply (lock_limit s c _ code w lock gi i more b).
  8: by eapply (bump_limit s c _ code w lock gi i more b).
  all: by eapply (calm_limit s c _ code w lock gi i more b); eauto.
Qed.

Lemma par_step_limit b s l s' :
  par_inv own_cell (S (sub_ref x0)) b s -> (b + 1 < usize_max)%Z -> limit_inv s ->
  par_step may_start s l s' -> limit_inv s'.
Proof.
  intros Hinv Hb Hlim H. destruct H as [s c ev Hidle Hmay | s c s' H | s conns _]; [| by eapply task_step_limit | done].
  destruct Hlim as [Ht Hd]. pose proof (Ht c) as [Hnd _ _ _].
  assert (Hz : open_t (mkTask (tk_cache (task_of s c)) (program ev)) = 0 /\
               spent_t (mkTask (tk_cache (task_of s c)) (program ev)) = 0)
    by (unfold open_t, spent_t; destruct ev; simpl; try case_match; done).
  destruct Hz as [Hz1 Hz2]. split.
  - intros d. unfold start. rewrite task_of_insert. case_decide as E; [subst d | apply Ht]. split; simpl; [done | lia | |].
    + destruct ev; simpl in *; try case_match; repeat constructor; done.
    + intros ins code Heq. destruct ev; simpl in Heq; try case_match; by simplify_eq.
  - destruct Hd as (d & H1 & H2 & H3). exists d. simpl. split; [done |]. split; [done |].
    pose proof (tally_insert open_t (p_tasks s) c (mkTask (tk_cache (task_of s c)) (program ev)) eq_refl) as Ho.
    pose proof (tally_insert spent_t (p_tasks s) c (mkTask (tk_cache (task_of s c)) (program ev)) eq_refl) as Hs.
    fold (task_of s c) in Ho, Hs.
    assert (Hw : open_t (task_of s c) = 0 /\ spent_t (task_of s c) = 0)
      by (unfold open_t, spent_t; by rewrite Hidle).
    destruct Hw as [Hw1 Hw2]. rewrite Hz1, Hw1 in Ho. rewrite Hz2, Hw2 in Hs.
    destruct H3 as [[? ?] | [? ?]]; [left | right]; (split; [done |]); lia.
Qed.

Lemma trace_limit b s ls s' :
  par_inv own_cell (S (sub_ref x0)) b s -> (b + blen ls < usize_max)%Z -> limit_inv s ->
  trace may_start s ls s' -> limit_inv s'.
Proof.
  intros Hinv Hb Hlim H. revert b Hinv Hb Hlim. induction H as [s | s l s1 ls s2 H1 H2 IH]; intros b Hinv Hb Hlim; [done |].
  rewrite blen_cons in Hb. pose proof (blen_nonneg ls).
  assert (Hb1 : (b + 1 < usize_max)%Z) by lia.
  apply (IH (b + 1)%Z); [| lia | by eapply par_step_limit].
  eapply (par_step_inv own_cell (S (sub_ref x0)) own_cell_legal own_cell_new); done.
Qed.

Lemma limit_inv_bound s : limit_inv s ->
  exists d, w_cells (p_world s) !! sub_ref x0 = Some (mkCell d L) /\ (d <= L - 1 + Z.of_nat (size pubs))%Z.
Proof.
  intros [Ht (d & Hd & H0 & Hc)]. exists d. split; [done |]. pose proof (weights_bound s Ht).
  destruct Hc as [[_ ?] | [_ ?]]; lia.
Qed.

End Limit.

Lemma world_own_cell w x0 b :
  world_wf w -> x0 ∈ registered w -> (0 <= generation (w_reg w) <= b)%Z -> (Z.of_nat (w_next w) <= b)%Z ->
  par_inv (own_cell x0) (S (sub_ref x0)) b (par_new w).
Proof.
  intros Hw Hx Hg Hn. destruct (world_legal w Hw) as [H1 H2]. pose proof (registered_bound w Hw).
  pose proof Hw as (Hr & Hc & Hk & Hu & _). rewrite Forall_forall in Hk, H1.
  assert (Hx0 := Hk _ Hx). unfold registered in *. apply par_new_inv; try done; [lia | | |].
  - destruct Hx0 as (cn & Hcn & Hs). destruct (Hc _ _ Hcn) as [_ Ht]. apply Ht in Hs as (_ & _ & _ & _ & ? & _). done.
  - apply Forall_forall. intros x Hin. split; [by apply H1 |]. intros E. by apply Hu; [apply Hk | |].
  - intros c k x Hin. destruct (H2 c k x Hin) as (Hl & <- & <-). split; [| done]. split; [done |].
    intros E. apply Hu; [| done | done]. unfold subs_of in Hin.
    destruct (w_conns w !! conn x) as [cn |] eqn:Ec; simpl in Hin; [by exists cn | by rewrite lookup_empty in Hin].
Qed.


End LimitRace.
