(* ===== verification/LiveSteps.v ===== *)
(** * What holds while the tasks race (crates/server/src/client.rs and routing.rs)

    The tasks of RouteSteps, interleaved between any two accesses, over connections
    that behave as connections do: their tables change only by SUB, UNSUB and
    [finish], and one that was closed stays closed.  The invariant of the server that holds
    at every such moment, not only between whole operations, and what follows from
    it for every later moment of a run. *)

From Stdlib Require Import String Strings.Byte.
From stdpp Require Import relations.
From S2P Require Import Prelude Subjects Nuid Frames External Arena Outbox Options Registry Interest QueueGroups Conn Route Client RouteSteps Races.

Section LiveSteps.

Context `{BML : BytesMutLaws} `{CHL : ChannelLaws}.

(** ** The steps *)

Definition shut (w : World) (c : cref) : Prop := exists cn, w_conns w !! c = Some cn /\ c_closed cn = true.

(** What the writers, the keepalives, the options and new connections do to the
    connections: a table stays as it is, a closed connection stays closed, and a new
    one has no subscriptions. *)
Definition conns_after (m m' : gmap cref Conn) : Prop :=
  forall c, match m !! c with
            | Some cn => exists cn', m' !! c = Some cn' /\ c_subs cn' = c_subs cn /\
                                     (c_closed cn = true -> c_closed cn' = true)
            | None => from_option c_subs ∅ (m' !! c) = ∅
            end.

Definition set_conns (w : World) (conns : gmap cref Conn) : World :=
  mkWorld conns (w_cells w) (w_reg w) (w_next w).

(** [handle] runs in the reader of a connection there is. *)
Definition can_start (w : World) (c : cref) (ev : TaskEv) : Prop :=
  if ev is Te_subscribe _ _ _ then is_Some (w_conns w !! c) else True.

Inductive live_step (may : cref -> TaskEv -> Prop) : Par -> Label -> Par -> Prop :=
| ls_start s c ev :
    tk_code (task_of s c) = [] -> may c ev -> can_start (p_world s) c ev ->
    live_step may s L_tau (start s c ev)
| ls_run s c s' :
    task_step s c = Some s' -> live_step may s (label s c s') s'
| ls_conns s conns :
    conns_after (w_conns (p_world s)) conns ->
    live_step may s L_tau (mkPar (set_conns (p_world s) conns) (p_lock s) (p_inner s) (p_tasks s)).

Inductive live (may : cref -> TaskEv -> Prop) : Par -> list Label -> Par -> Prop :=
| lv_nil s : live may s [] s
| lv_cons s l s1 ls s2 : live_step may s l s1 -> live may s1 ls s2 -> live may s (l :: ls) s2.

(** ** Lemmas: a live run is a run of the tasks *)

Lemma conns_after_subs w conns c :
  conns_after (w_conns w) conns -> subs_of (set_conns w conns) c = subs_of w c.
Proof.
  intros H. specialize (H c). unfold subs_of. simpl. destruct (w_conns w !! c) as [cn |]; simpl; [| done].
  by destruct H as (cn' & -> & ? & _).
Qed.

Lemma live_step_par may s l s' : live_step may s l s' -> par_step may s l s'.
Proof.
  intros [s0 c ev H1 H2 _ | s0 c s1 H | s0 conns H]; [by apply ps_start | by apply ps_run |].
  apply ps_conns. intros c. by apply conns_after_subs.
Qed.

Lemma live_trace may s ls s' : live may s ls s' -> trace may s ls s'.
Proof. induction 1; econstructor; [by apply live_step_par | done]. Qed.

(** ** The programs of SUB and UNSUB, as far as they have come *)

(** A subscription whose SUB is under way: its sid is still free. *)
Definition fresh (w : World) (c : cref) (x : Sub) : Prop :=
  conn x = c /\ is_Some (w_conns w !! c) /\ subs_of w c !! sid x = None.

(** A subscription found under its sid is there until the connection is closed. *)
Definition found (w : World) (c : cref) (k : bytes) (x : Sub) : Prop :=
  conn x = c /\ sid x = k /\ (subs_of w c !! k = Some x \/ shut w c).

(** An instruction of [route] or [finish]. *)
Definition other (w : World) (ins : Instr) : Prop :=
  match ins with
  | I_off d => shut w d
  | I_lock op | I_bump op => match op with Lk_insert _ | Lk_remove _ => False | _ => True end
  | I_contains _ _ _ | I_table _ | I_get _ _ | I_check _ _ _ | I_store _ _ _ _ | I_untable _ => False
  | _ => True
  end.

Inductive task_shape (w : World) (c : cref) : list Instr -> Prop :=
| sh_other code : Forall (other w) code -> task_shape w c code
| sh_contains subj q k : is_Some (w_conns w !! c) -> task_shape w c [I_contains subj q k]
| sh_insert x : fresh w c x -> task_shape w c [I_lock (Lk_insert x); I_table x]
| sh_inserted x : fresh w c x -> task_shape w c [I_bump (Lk_insert x); I_table x]
| sh_table x : fresh w c x -> task_shape w c [I_table x]
| sh_get k max : task_shape w c [I_get k max]
| sh_check k x max : found w c k x -> task_shape w c [I_check k x max]
| sh_store k x max gone : found w c k x -> task_shape w c [I_store k x max gone]
| sh_untable k x : found w c k x -> task_shape w c [I_untable k; I_lock (Lk_remove x)]
| sh_remove x : conn x = c -> subs_of w c !! sid x = None -> task_shape w c [I_lock (Lk_remove x)]
| sh_removed x : conn x = c -> subs_of w c !! sid x = None -> task_shape w c [I_bump (Lk_remove x)].

(** Where a registered subscription is held besides the registry: in its
    connection's table, or by the SUB that is about to file it there, or by the UNSUB that
    is about to take it out; or its connection is closed. *)
Definition held (s : Par) (x : Sub) : Prop :=
  found (p_world s) (conn x) (sid x) x \/
  I_table x ∈ tk_code (task_of s (conn x)) \/
  I_lock (Lk_remove x) ∈ tk_code (task_of s (conn x)) \/
  I_bump (Lk_remove x) ∈ tk_code (task_of s (conn x)).

Record live_inv (s : Par) : Prop := {
  li_shape : forall c, task_shape (p_world s) c (tk_code (task_of s c));
  li_held : forall x, x ∈ all_subs (p_inner s) -> held s x }.

(** ** Lemmas: connections *)

(** What a step leaves of connection [d]. *)
Definition kept (w w' : World) (d : cref) : Prop :=
  (is_Some (w_conns w !! d) -> is_Some (w_conns w' !! d)) /\
  (shut w d -> shut w' d) /\
  (subs_of w' d = subs_of w d \/ (subs_of w' d = ∅ /\ shut w' d)).

Lemma kept_same w w' d : w_conns w' = w_conns w -> kept w w' d.
Proof. intros H. unfold kept, shut, subs_of. rewrite H. split_and!; auto. Qed.

Lemma kept_set_conn w c cn cn' d :
  w_conns w !! c = Some cn -> (c_closed cn = true -> c_closed cn' = true) ->
  c_subs cn' = c_subs cn \/ (c_subs cn' = ∅ /\ c_closed cn' = true) -> kept w (set_conn w c cn') d.
Proof.
  intros Hc Hcl Hs. unfold kept, shut, subs_of. simpl. destruct (decide (c = d)) as [<- | Hne].
  - rewrite lookup_insert_eq, Hc. simpl. split_and!; [done | | destruct Hs as [? | [? ?]]; eauto].
    intros (? & [= <-] & ?). eauto.
  - rewrite lookup_insert_ne by done. split_and!; auto.
Qed.

Lemma kept_deliver w x m d : kept w (deliver w x m).1 d.
Proof.
  unfold deliver. destruct (w_conns w !! conn x) as [cn |] eqn:Hc; [| by apply kept_same].
  destruct (c_closed cn) eqn:Hcl; [by apply kept_same |]. destruct (queue_with _ _) as [o r]. simpl.
  eapply kept_set_conn; [done | by rewrite Hcl | by left].
Qed.

Lemma kept_off w e d : shut w e -> kept w (upd_conn w e cut_off) d.
Proof.
  intros (cn & Hc & Hcl). unfold upd_conn. rewrite Hc. eapply kept_set_conn; [done | done |]. by right.
Qed.

(** What SUB and UNSUB do to their own table. *)
Definition tables (ins : Instr) : bool := match ins with I_table _ | I_untable _ => true | _ => false end.

Lemma exec_kept w lock gi c i ins w' lock' gi' i' more d :
  exec w lock gi c i ins = Some (w', lock', gi', i', more) ->
  (forall e, ins = I_off e -> shut w e) -> tables ins = false \/ d <> c -> kept w w' d.
Proof.
  intros H Hoff Ht. destruct ins; simpl in H, Ht.
  all: try by (repeat case_match; simplify_eq; apply kept_same).
  - pose proof (kept_deliver w s (wk_msg k) d) as Hd. destruct (deliver w s (wk_msg k)) as [w1 r]. simpl in Hd.
    destruct r; by simplify_eq.
  - destruct (w_conns w !! d0) as [cn |] eqn:Hc; [| simplify_eq; by apply kept_same].
    destruct (c_closed cn) eqn:Hcl; simplify_eq; [by apply kept_same |].
    eapply kept_set_conn; [done | done | by left].
  - simplify_eq. apply kept_off. by apply Hoff.
  - destruct Ht as [Ht | Hne]; [done |]. simplify_eq. unfold upd_conn.
    destruct (w_conns w !! c) as [cn |]; [| by apply kept_same].
    unfold kept, shut, subs_of. simpl. rewrite lookup_insert_ne by done. split_and!; auto.
  - destruct Ht as [Ht | Hne]; [done |]. simplify_eq. unfold upd_conn.
    destruct (w_conns w !! c) as [cn |]; [| by apply kept_same].
    unfold kept, shut, subs_of. simpl. rewrite lookup_insert_ne by done. split_and!; auto.
Qed.

(** A connection's own table operation closes nobody. *)
Lemma upd_subs_shut w c f d :
  (forall cn, c_closed (f cn) = c_closed cn) -> shut w d -> shut (upd_conn w c f) d.
Proof.
  intros Hf (cn & Hd & Hcl). unfold upd_conn, shut. destruct (w_conns w !! c) as [dn |] eqn:Hc; [| eauto].
  simpl. destruct (decide (c = d)) as [<- | Hne]; [rewrite lookup_insert_eq | rewrite lookup_insert_ne by done; eauto].
  simplify_eq. eexists. split; [done |]. by rewrite Hf.
Qed.

Lemma exec_shut w lock gi c i ins w' lock' gi' i' more d :
  exec w lock gi c i ins = Some (w', lock', gi', i', more) -> shut w d -> shut w' d.
Proof.
  intros H Hd. destruct (tables ins) eqn:Ht.
  - destruct ins; try done; simpl in H; simplify_eq; by apply upd_subs_shut.
  - assert (Hoff : (exists e, ins = I_off e) \/ forall e, ins <> I_off e)
      by (destruct ins; (by right) || (left; eauto)).
    destruct Hoff as [[e ->] | Hno].
    + simpl in H. simplify_eq. by apply upd_subs_shut.
    + eapply exec_kept; [done | | by left | done]. intros e ->. by destruct (Hno e).
Qed.

(** ** Lemmas: the shape of a task's program *)

Lemma fresh_kept w w' c x : kept w w' c -> fresh w c x -> fresh w' c x.
Proof.
  intros (H1 & _ & H3) (? & ? & Hn). split_and!; [done | auto |].
  destruct H3 as [-> | [-> _]]; [done | apply lookup_empty].
Qed.

Lemma found_kept w w' c k x : kept w w' c -> found w c k x -> found w' c k x.
Proof.
  intros (_ & H2 & H3) (? & ? & [H | H]); split_and!; auto.
  destruct H3 as [-> | [_ ?]]; auto.
Qed.

Lemma none_kept w w' c (k : bytes) : kept w w' c -> subs_of w c !! k = None -> subs_of w' c !! k = None.
Proof. intros (_ & _ & [-> | [-> _]]) H; [done | apply lookup_empty]. Qed.

Lemma other_kept w w' code :
  (forall d, shut w d -> shut w' d) -> Forall (other w) code -> Forall (other w') code.
Proof. intros Hd H. eapply Forall_impl; [exact H |]. intros ins. destruct ins; simpl; auto. Qed.

Lemma shape_kept w w' c code :
  (forall d, shut w d -> shut w' d) -> kept w w' c -> task_shape w c code -> task_shape w' c code.
Proof.
  intros Hd Hk [code' H | subj q k H | x H | x H | x H | k max | k x max H | k x max gone H | k x H | x H1 H2 | x H1 H2];
    [apply sh_other | apply sh_contains | apply sh_insert | apply sh_inserted | apply sh_table | apply sh_get
    | apply sh_check | apply sh_store | apply sh_untable | apply sh_remove | apply sh_removed];
    eauto using fresh_kept, found_kept, none_kept, other_kept.
  by apply Hk.
Qed.

(** [I_off] is only ever reached by way of a closed connection. *)
Lemma shape_off w c e code : task_shape w c (I_off e :: code) -> shut w e.
Proof. inversion 1 as [? H' | | | | | | | | | |]. subst. by apply Forall_cons in H' as [? _]. Qed.

(** An instruction of [route] or [finish] goes on with such instructions. *)
Lemma other_exec w lock gi c i ins w' lock' gi' i' more :
  exec w lock gi c i ins = Some (w', lock', gi', i', more) -> other w ins -> Forall (other w') more.
Proof.
  intros H Ho. destruct ins; simpl in H, Ho; try done.
  all: try by (repeat case_match; simplify_eq; repeat constructor).
  destruct (w_conns w !! d) as [cn |] eqn:Hd; [| simplify_eq; constructor].
  destruct (c_closed cn) eqn:Hcl; simplify_eq; repeat constructor. simpl.
  eexists. split; [apply lookup_insert_eq | done].
Qed.

Lemma upd_subs_lookup w c f cn :
  w_conns w !! c = Some cn -> subs_of (upd_conn w c (fun cn => set_subs cn (f (c_subs cn)))) c = f (subs_of w c).
Proof. intros H. rewrite subs_of_upd_conn, decide_True by done. unfold subs_of. by rewrite H. Qed.

Lemma untable_lookup w c (k : bytes) :
  subs_of (upd_conn w c (fun cn => set_subs cn (delete k (c_subs cn)))) c = delete k (subs_of w c).
Proof.
  rewrite subs_of_upd_conn, decide_True by done. unfold subs_of. destruct (w_conns w !! c); simpl; [done |].
  by rewrite delete_empty.
Qed.

(** A task's step leaves its own program in shape. *)
Lemma shape_exec w lock gi c i ins code w' lock' gi' i' more :
  exec w lock gi c i ins = Some (w', lock', gi', i', more) -> task_shape w c (ins :: code) -> table_sat legal w ->
  task_shape w' c (more ++ code).
Proof.
  intros H Hs Htab. pose proof (fun d => exec_shut _ _ _ _ _ _ _ _ _ _ _ d H) as Hsh.
  assert (Hk : tables ins = false -> kept w w' c)
    by (intros Ht; eapply exec_kept; [done | intros e ->; by eapply shape_off | by left]).
  inversion Hs as [? Ho | subj q k Hc | x Hx | x Hx | x Hx | k max | k x max Hx | k x max g Hx | k x Hx | x Hx Hn | x Hx Hn];
    subst; simpl in H.
  - apply Forall_cons in Ho as [Ho Hc]. apply sh_other, Forall_app.
    split; [by eapply other_exec | by eapply other_kept].
  - destruct (subs_of w c !! k) as [x |] eqn:Ek.
    { rewrite bool_decide_true in H by eauto. simplify_eq. by apply sh_other. }
    rewrite bool_decide_false in H by (by intros [? ?]). simplify_eq. simpl. apply sh_insert. by split_and!.
  - destruct lock; [done |]. destruct (inner_insert _ x) as [i1 []]; simplify_eq; simpl.
    + by apply sh_inserted.
    + by apply sh_table.
  - simplify_eq. by apply sh_table.
  - simplify_eq. by apply sh_other.
  - simplify_eq. destruct (subs_of w' c !! k) as [x |] eqn:Ek; simpl; [| by apply sh_other].
    apply sh_check. destruct (Htab c k x Ek) as (_ & ? & ?). split_and!; auto.
  - simplify_eq. by apply sh_store.
  - simplify_eq. destruct g; simpl; [by apply sh_untable | by apply sh_other].
  - simplify_eq. simpl. destruct Hx as (Hx & <- & _). apply sh_remove; [done |].
    rewrite untable_lookup. apply lookup_delete_eq.
  - destruct lock; [done |]. simplify_eq. by apply sh_removed.
  - simplify_eq. by apply sh_other.
Qed.

(** ** Lemmas: every registered subscription is held *)

Lemma found_table w c x y :
  fresh w c y -> found w c (sid x) x ->
  found (upd_conn w c (fun cn => set_subs cn (<[sid y := y]> (c_subs cn)))) c (sid x) x.
Proof.
  intros (_ & [cn Hcn] & Hn) (? & ? & [H | H]); split_and!; try done; [left | right; by apply upd_subs_shut].
  rewrite (upd_subs_lookup w c _ cn) by done. rewrite lookup_insert_ne; [done |]. congruence.
Qed.

Lemma found_untable w c k x y :
  found w c k y -> found w c (sid x) x ->
  x = y \/ found (upd_conn w c (fun cn => set_subs cn (delete k (c_subs cn)))) c (sid x) x.
Proof.
  intros (_ & _ & Hy) (? & ? & [H | H]); [| right; split_and!; try done; right; by apply upd_subs_shut].
  destruct (decide (sid x = k)) as [<- | Hne].
  - destruct Hy as [Hy | Hy]; [left; congruence | right]. split_and!; try done. right. by apply upd_subs_shut.
  - right. split_and!; try done. left. by rewrite untable_lookup, lookup_delete_ne.
Qed.

(** The found subscription of a task's own connection, over a step of that task. *)
Lemma found_exec w lock gi c i ins code w' lock' gi' i' more x :
  exec w lock gi c i ins = Some (w', lock', gi', i', more) -> task_shape w c (ins :: code) ->
  found w c (sid x) x -> found w' c (sid x) x \/ I_lock (Lk_remove x) ∈ code.
Proof.
  intros H Hs Hf. destruct (tables ins) eqn:Ht.
  - inversion Hs as [? Ho | | | | y Hy | | | | k y Hy | |]; subst; try done.
    + apply Forall_cons in Ho as [Ho _]. by destruct ins.
    + simpl in H. simplify_eq. left. by apply found_table.
    + simpl in H. simplify_eq. destruct (found_untable _ _ _ x y Hy Hf) as [-> | ?]; [right; constructor | by left].
  - left. eapply found_kept; [| done]. eapply exec_kept; [done | intros e ->; by eapply shape_off | by left].
Qed.

Lemma table_filed w lock gi c i x code w' lock' gi' i' more :
  exec w lock gi c i (I_table x) = Some (w', lock', gi', i', more) -> task_shape w c (I_table x :: code) ->
  found w' c (sid x) x.
Proof.
  intros H Hs. inversion Hs as [? Ho | | | | y Hy | | | | | |]; subst.
  - by apply Forall_cons in Ho as [[] _].
  - simpl in H. simplify_eq. destruct Hy as (? & [cn Hcn] & _). split_and!; try done. left.
    rewrite (upd_subs_lookup w c _ cn) by done. apply lookup_insert_eq.
Qed.

Section Step.

Context (s : Par) (c : cref) (ins : Instr) (code : list Instr).
Context (w' : World) (lock' : option cref) (gi' : Inner) (i' : Interest) (more : list Instr).
Context (Hcode : tk_code (task_of s c) = ins :: code).
Context (Hexec : exec (p_world s) (p_lock s) (p_inner s) c (tk_cache (task_of s c)) ins = Some (w', lock', gi', i', more)).
Context (Hshape : forall d, task_shape (p_world s) d (tk_code (task_of s d))).

Let s' := mkPar w' lock' gi' (<[c := mkTask i' (more ++ code)]> (p_tasks s)).

Lemma step_code_same d : d <> c -> task_of s' d = task_of s d.
Proof. intros H. unfold s'. rewrite task_of_insert, decide_False by done. done. Qed.

Lemma step_code : tk_code (task_of s' c) = more ++ code.
Proof. unfold s'. by rewrite task_of_insert, decide_True. Qed.

Lemma step_kept d : d <> c -> kept (p_world s) w' d.
Proof.
  intros Hne. eapply exec_kept; [exact Hexec | | by right]. intros e ->. specialize (Hshape c).
  rewrite Hcode in Hshape. by eapply shape_off.
Qed.

Lemma step_shape d : table_sat legal (p_world s) -> task_shape w' d (tk_code (task_of s' d)).
Proof.
  intros Htab. destruct (decide (d = c)) as [-> | Hne].
  - rewrite step_code. eapply shape_exec; [exact Hexec | | done]. rewrite <- Hcode. apply Hshape.
  - rewrite step_code_same by done. eapply shape_kept; [| by apply step_kept | apply Hshape].
    intros e. by eapply exec_shut.
Qed.

(** What a task was about to do, it still is, unless it did it. *)
Lemma step_elem x j : j ∈ tk_code (task_of s (conn x)) -> (conn x = c /\ j = ins) \/ j ∈ tk_code (task_of s' (conn x)).
Proof.
  intros H. destruct (decide (conn x = c)) as [E | Hne]; [| right; by rewrite step_code_same].
  rewrite E in *. rewrite Hcode in H. rewrite step_code. apply elem_of_cons in H as [-> | H]; [by left | right].
  apply elem_of_app. by right.
Qed.

(** A held subscription stays held, but for the one an UNSUB has just removed. *)
Lemma step_held x : held s x -> held s' x \/ ins = I_bump (Lk_remove x).
Proof.
  pose proof (Hshape c) as Hs. rewrite Hcode in Hs.
  intros [Hf | [Hj | [Hj | Hj]]]; [| apply step_elem in Hj as [[Hc Hj] | Hj]; [subst ins | left; unfold held; tauto] ..].
  - destruct (decide (conn x = c)) as [E | Hne].
    + rewrite E in Hf. destruct (found_exec _ _ _ _ _ _ _ _ _ _ _ _ x Hexec Hs Hf) as [H | H]; left.
      * left. by rewrite E.
      * right. right. left. rewrite E, step_code. apply elem_of_app. by right.
    + left. left. eapply found_kept; [by apply step_kept | done].
  - left. left. rewrite Hc. by eapply table_filed.
  - left. right. right. right. rewrite Hc, step_code. simpl in Hexec. destruct (p_lock s); [done |].
    simplify_eq. constructor.
  - by right.
Qed.

End Step.

Lemma task_step_live b s c s' :
  par_inv legal 0 b s -> (b + 1 < usize_max)%Z -> live_inv s -> task_step s c = Some s' -> live_inv s'.
Proof.
  intros Hinv Hb [Hsh Hheld] (ins & code & w & lock & gi & i & more & Hcode & He & ->)%task_step_exec.
  pose proof Hinv as [Hwf Hsz _ _ Hl _ _ [_ Htab _ _]]. unfold usize_max in Hb.
  split; [intros d; by eapply step_shape |]. simpl. intros x Hx.
  pose proof (step_held s c ins code w lock gi i more Hcode He Hsh x) as Hstep.
  destruct (calm ins) eqn:Hcalm.
  { destruct (calm_exec _ _ _ _ _ _ _ _ _ _ _ Hcalm He) as (_ & -> & _).
    destruct (Hstep (Hheld x Hx)) as [? | ->]; done. }
  destruct ins as [ | | | | | | | | | | op | op | | | | | |]; try done.
  - assert (Hx' : x ∈ all_subs (p_inner s)).
    { destruct (lock_legal legal 0 ltac:(done) s c op code b Hinv (or_introl Hcode)) as (Hleg & _).
      destruct (lock_op_correct (p_inner s) op Hwf Hleg ltac:(lia)) as (_ & _ & Hsame).
      unfold lock_wf in Hl. simpl in He. destruct (p_lock s); [done |]. rewrite Hl in He.
      destruct (lock_op (p_inner s) op) as [i1 []]; simplify_eq; [done |]. simpl in Hsame. by rewrite Hsame in Hx. }
    destruct (Hstep (Hheld x Hx')) as [? | ?]; done.
  - destruct (lock_legal legal 0 ltac:(done) s c op code b Hinv (or_intror Hcode)) as (Hleg & _).
    destruct (lock_op_correct (p_inner s) op Hwf Hleg ltac:(lia)) as (_ & Hp & _).
    destruct (bump_locked legal 0 s c op code b Hinv Hcode) as (_ & Hi & _).
    simpl in He. simplify_eq. rewrite Hi, Hp in Hx. pose proof Hx as [Hx' | ->]%lock_bag_elem.
    + destruct (Hstep (Hheld x Hx')) as [? | E]; [done |]. simplify_eq. simpl in Hx.
      apply elem_of_retain in Hx as [_ Hx]. by rewrite removes_self in Hx.
    + specialize (Hsh c). rewrite Hcode in Hsh.
      inversion Hsh as [? Ho | | | y Hy | | | | | | |]; subst; [by apply Forall_cons in Ho as [[] _] |].
      destruct Hy as (<- & _). right. left. rewrite task_of_insert, decide_True by done. constructor.
Qed.

Lemma live_step_inv may b s l s' :
  par_inv legal 0 b s -> (b + 1 < usize_max)%Z -> live_inv s -> live_step may s l s' -> live_inv s'.
Proof.
  intros Hinv Hb Hlive H. destruct H as [s c ev Hidle _ Hcan | s c s' H | s conns Hc]; [| by eapply task_step_live |].
  - destruct Hlive as [Hsh Hheld]. split.
    + intros d. unfold start. rewrite task_of_insert. case_decide as E; [subst d | apply Hsh]. simpl.
      destruct ev; simpl; try (by apply sh_other; repeat constructor); [| by apply sh_get].
      destruct (is_valid subj); [by apply sh_contains | by apply sh_other].
    + intros x Hx. unfold held, start. rewrite task_of_insert. specialize (Hheld x Hx). unfold held in Hheld.
      case_decide as E; [| done]. subst c. rewrite Hidle in Hheld. left.
      destruct Hheld as [? | [H | [H | H]]]; [done | by apply not_elem_of_nil in H ..].
  - destruct Hlive as [Hsh Hheld].
    assert (Hk : forall d, kept (p_world s) (set_conns (p_world s) conns) d).
    { intros d. unfold kept. rewrite conns_after_subs by done. specialize (Hc d). unfold shut. simpl.
      destruct (w_conns (p_world s) !! d) as [cn |].
      - destruct Hc as (cn' & -> & _ & Hcl). split_and!; eauto. intros (? & [= <-] & ?). eauto.
      - split_and!; [by intros [? ?] | by intros (? & ? & _) | by left]. }
    split; simpl; [intros d | intros x Hx].
    + eapply shape_kept; [| apply Hk | apply Hsh]. intros e. apply Hk.
    + destruct (Hheld x Hx) as [? | ?]; [left | by right]. by eapply found_kept; [apply Hk |].
Qed.

Lemma live_new_inv w : world_wf w -> live_inv (par_new w).
Proof.
  intros Hw. split.
  - intros c. unfold task_of. simpl. rewrite lookup_empty. by apply sh_other.
  - intros x Hx. left. pose proof Hw as (_ & Hc & Hk & _). rewrite Forall_forall in Hk.
    destruct (Hk x Hx) as (cn & Hcn & H). split_and!; [done | done | left]. simpl. unfold subs_of. by rewrite Hcn.
Qed.

(** Over any number of steps. *)
Lemma live_run_inv may b s ls s' :
  par_inv legal 0 b s -> live_inv s -> (b + blen ls < usize_max)%Z -> live may s ls s' ->
  par_inv legal 0 (b + blen ls) s' /\ live_inv s'.
Proof.
  intros Hinv Hlive Hb H. revert b Hinv Hlive Hb.
  induction H as [s | s l s1 ls s2 H1 H2 IH]; intros b Hinv Hlive Hb; [by rewrite blen_nil, Z.add_0_r |].
  rewrite blen_cons in Hb |- *. pose proof (blen_nonneg ls).
  replace (b + (1 + blen ls))%Z with (b + 1 + blen ls)%Z in * by lia.
  apply IH; [| by eapply (live_step_inv may b); [| lia | |] | lia].
  eapply par_step_inv; [done | done | done | lia | by eapply live_step_par].
Qed.

(** The registry as it stands, in the middle of a critical section too. *)
Lemma registry_now b s :
  par_inv legal 0 b s -> (b + 1 < usize_max)%Z -> live_inv s ->
  inner_wf (inner (w_reg (p_world s))) /\ forall x, x ∈ registered (p_world s) -> held s x.
Proof.
  intros Hinv Hb [Hsh Hheld]. pose proof Hinv as [Hwf Hsz _ _ Hl _ _ _]. unfold lock_wf in Hl. unfold registered.
  destruct (p_lock s) as [c |] eqn:El; [| by rewrite Hl].
  destruct Hl as (op & code & Hcode & _ & ->). unfold usize_max in Hb.
  destruct (lock_legal legal 0 ltac:(done) s c op code b Hinv (or_intror Hcode)) as (Hleg & _).
  destruct (lock_op_correct (p_inner s) op Hwf Hleg ltac:(lia)) as (Hwf' & Hp & _). split; [done |].
  intros x. rewrite Hp. intros [Hx | ->]%lock_bag_elem; [by apply Hheld |].
  specialize (Hsh c). pose proof Hsh as Hs. rewrite Hcode in Hs.
  inversion Hs as [? Ho | | | y Hy | | | | | | |]; subst; [by apply Forall_cons in Ho as [[] _] |].
  destruct Hy as (<- & _). right. left. rewrite Hcode. set_solver.
Qed.

(** What is held under one sid of an open connection is one subscription. *)
Lemma held_unique s x y :
  live_inv s -> held s x -> held s y -> conn x = conn y -> sid x = sid y -> ~ shut (p_world s) (conn x) -> x = y.
Proof.
  intros [Hsh _] Hx Hy Hc Hk Hopen. specialize (Hsh (conn x)).
  unfold held, found in Hx, Hy. rewrite <- Hc in Hy. rewrite <- Hk in Hy.
  destruct Hsh as [code Ho | subj q k H | z H | z H | z H | k max | k z max H | k z max gone H | k z H | z H1 H2 | z H1 H2].
  { rewrite Forall_forall in Ho.
    assert (Hno : forall z, (I_table z ∉ code) /\ (I_lock (Lk_remove z) ∉ code) /\ (I_bump (Lk_remove z) ∉ code))
      by (intros z; split_and!; intros H; by apply Ho in H).
    destruct (Hno x) as (? & ? & ?); destruct (Hno y) as (? & ? & ?).
    destruct Hx as [(_ & _ & [Hx | ?]) | ?], Hy as [(_ & _ & [Hy | ?]) | ?]; try done; try tauto. congruence. }
  all: unfold fresh, found in *; set_unfold; naive_solver congruence.
Qed.

(** ** The property *)

(** C1: the invariant of the server, at every moment of every interleaving.  Let the
    tasks of any number of connections publish, subscribe, unsubscribe and close,
    interleaved at every load, store, lock and push, while writers and
    keepalives work on the connections and new ones arrive.  At every moment, in the
    middle of a critical section too:
    - the registry is well formed and its count is the number of its subscriptions;
    - a connection's table files its own subscriptions under their sids, with valid
      subjects;
    - each registered subscription is in its connection's table, or the SUB that
      made it is about to file it there, or an UNSUB is about to take it out of the
      registry, or its connection is closed;
    - one sid of an open connection names at most one registered subscription. *)
Theorem race_invariant w may ls s :
  world_wf w -> (0 <= generation (w_reg w))%Z ->
  (generation (w_reg w) + Z.of_nat (w_next w) + blen ls + 1 < usize_max)%Z ->
  live may (par_new w) ls s ->
  let w' := p_world s in
  inner_wf (inner (w_reg w')) /\ subscription_count (w_reg w') = blen (registered w') /\
  (forall c k x, subs_of w' c !! k = Some x -> conn x = c /\ sid x = k /\ is_valid (subject x) = true) /\
  (forall x, x ∈ registered w' ->
     known w' x \/ I_table x ∈ tk_code (task_of s (conn x)) \/
     I_lock (Lk_remove x) ∈ tk_code (task_of s (conn x)) \/ I_bump (Lk_remove x) ∈ tk_code (task_of s (conn x)) \/
     shut w' (conn x)) /\
  (forall x y, x ∈ registered w' -> y ∈ registered w' -> conn x = conn y -> sid x = sid y ->
     ~ shut w' (conn x) -> x = y).
Proof.
  intros Hw Hg Hb Hrun w'.
  set (b := (generation (w_reg w) + Z.of_nat (w_next w))%Z) in *.
  pose proof (world_par_inv w b Hw ltac:(lia) ltac:(lia)) as H0.
  destruct (live_run_inv may b _ ls s H0 (live_new_inv w Hw) ltac:(lia) Hrun) as [H1 H2].
  destruct (registry_now (b + blen ls) s H1 ltac:(lia) H2) as [Hwf Hheld]. fold w' in Hwf, Hheld.
  split_and!; [done | by destruct Hwf as (_ & _ & ?) | | |].
  - intros c k x Hx. destruct H1 as [_ _ _ _ _ _ _ [_ Htab _ _]]. by destruct (Htab c k x Hx) as ([_ ?] & ? & ?).
  - intros x Hx. destruct (Hheld x Hx) as [(_ & _ & [H | H]) | H]; [left | tauto | tauto].
    fold w' in H. unfold known. unfold subs_of in H. destruct (w_conns w' !! conn x) as [cn |]; [eauto |].
    done.
  - intros x y Hx Hy. apply (held_unique s); auto.
Qed.

End LiveSteps.
