(* ===== verification/Lasting.v ===== *)
(** * What lasts (crates/server/src/client.rs and routing.rs)

    Two states of a subscription that no later step of any task leaves, however the
    tasks interleave, unless its own client unsubscribes its sid: registered by a SUB on a
    closed connection, and spent but still in its connection's table. *)

From Stdlib Require Import String Strings.Byte.
From stdpp Require Import relations.
From S2P Require Import Prelude Subjects Proto Nuid Frames External Arena Outbox Options Registry Interest QueueGroups Conn Route Client RouteSteps Races LiveSteps.

Section Lasting.

Context `{BML : BytesMutLaws} `{CHL : ChannelLaws} {J : SerdeJsonLib}.

(** ** Runs without an UNSUB of one sid *)

(** Connection [c] starts no UNSUB of [k]. *)
Definition keeps_sid (c : cref) (k : bytes) (d : cref) (ev : TaskEv) : Prop :=
  if ev is Te_unsubscribe k' _ then ~ (d = c /\ k' = k) else True.

(** An invariant of a run that is proved next to the invariants of LiveSteps. *)
Lemma live_run_with (P : Par -> Prop) may b s ls s' :
  (forall b t l t', par_inv legal 0 b t -> (b + 1 < usize_max)%Z -> live_inv t -> P t -> live_step may t l t' -> P t') ->
  par_inv legal 0 b s -> live_inv s -> P s -> (b + blen ls < usize_max)%Z -> live may s ls s' -> P s'.
Proof.
  intros Hstep Hinv Hlive HP Hb H. revert b Hinv Hlive HP Hb.
  induction H as [s | s l s1 ls s2 H1 H2 IH]; intros b Hinv Hlive HP Hb; [done |].
  rewrite blen_cons in Hb. pose proof (blen_nonneg ls). apply (IH (b + 1)%Z).
  - eapply par_step_inv; [done | done | done | lia | by eapply live_step_par].
  - by eapply (live_step_inv may b); [| lia | |].
  - by eapply (Hstep b); [| lia | | |].
  - lia.
Qed.

(** What one step of a task does to the bag: nothing, or what its critical section
    says at its unlock. *)
Lemma task_step_bag b s c ins code w lock gi i more :
  par_inv legal 0 b s -> (b + 1 < usize_max)%Z -> tk_code (task_of s c) = ins :: code ->
  exec (p_world s) (p_lock s) (p_inner s) c (tk_cache (task_of s c)) ins = Some (w, lock, gi, i, more) ->
  all_subs gi ≡ₚ (if ins is I_bump op then bag_run (all_subs (p_inner s)) (lock_ops op) else all_subs (p_inner s)).
Proof.
  intros Hinv Hb Hcode He. pose proof Hinv as [Hwf Hsz _ _ Hl _ _ _]. unfold usize_max in Hb.
  destruct (calm ins) eqn:Hcalm.
  { destruct (calm_exec _ _ _ _ _ _ _ _ _ _ _ Hcalm He) as (_ & -> & _). by destruct ins. }
  destruct ins as [ | | | | | | | | | | op | op | | | | | |]; try done.
  - destruct (lock_legal legal 0 ltac:(done) s c op code b Hinv (or_introl Hcode)) as (Hleg & _).
    destruct (lock_op_correct (p_inner s) op Hwf Hleg ltac:(lia)) as (_ & _ & Hsame).
    unfold lock_wf in Hl. simpl in He. destruct (p_lock s); [done |]. rewrite Hl in He.
    destruct (lock_op (p_inner s) op) as [i1 []]; simplify_eq; [done |]. simpl in Hsame. by rewrite Hsame.
  - destruct (lock_legal legal 0 ltac:(done) s c op code b Hinv (or_intror Hcode)) as (Hleg & _).
    destruct (lock_op_correct (p_inner s) op Hwf Hleg ltac:(lia)) as (_ & Hp & _).
    destruct (bump_locked legal 0 s c op code b Hinv Hcode) as (_ & Hi & _).
    simpl in He. simplify_eq. by rewrite Hi.
Qed.

(** ** A subscription of a closed connection *)

Section Leak.

Context (c : cref) (x : Sub).
Context (Hconn : conn x = c).

Definition off_conn (y : Sub) : Prop := conn y <> c.

Definition op_spares (op : LockOp) : Prop :=
  match op with
  | Lk_insert _ => True
  | Lk_remove y => ~ (conn y = c /\ sid y = sid x)
  | Lk_remove_conn e => e <> c
  | Lk_expire es => Forall off_conn es
  end.

(** What no task ever comes to: to take [x] out. *)
Definition spares (d : cref) (ins : Instr) : Prop :=
  match ins with
  | I_walk k | I_deliver k _ => Forall off_conn (wk_expired k)
  | I_account k s _ | I_limit k s _ _ => off_conn s /\ Forall off_conn (wk_expired k)
  | I_lock op | I_bump op => op_spares op
  | I_get k _ | I_check k _ _ | I_store k _ _ _ => ~ (d = c /\ k = sid x)
  | _ => True
  end.

Record leaked (s : Par) : Prop := {
  lk_shut : shut (p_world s) c;
  lk_in : x ∈ all_subs (p_inner s);
  lk_code : forall d, Forall (spares d) (tk_code (task_of s d)) }.

Lemma hit_conn y z : hit y z = true -> conn z = conn y /\ sid z = sid y.
Proof. unfold hit. intros H. bool_to_prop. done. Qed.

Lemma spared l op : x ∈ l -> op_spares op -> x ∈ bag_run l (lock_ops op).
Proof.
  intros Hx Hop. destruct op as [y | y | e | es]; simpl in *.
  - destruct (_ && _); [by right | done].
  - apply elem_of_retain. split; [done |]. destruct (removes y x) eqn:E; [| done]. unfold removes in E.
    apply andb_true_iff in E as [[? ?]%hit_conn _]. destruct Hop. split; congruence.
  - apply elem_of_retain. split; [done |]. rewrite bool_decide_false; [done |]. congruence.
  - fold (lock_ops (Lk_expire es)). rewrite bag_run_expire. revert l Hx.
    induction Hop as [| e es He _ IH]; intros l Hx; simpl; [done |]. apply IH, elem_of_retain. split; [done |].
    destruct (removes e x) eqn:E; [| done]. unfold removes in E.
    apply andb_true_iff in E as [[? ?]%hit_conn _]. destruct He. congruence.
Qed.

Lemma deliver_shut w s m : shut w (conn s) -> deliver w s m = (w, Enq_Dropped).
Proof. intros (cn & Hc & Hcl). unfold deliver. by rewrite Hc, Hcl. Qed.

(** What a task goes on with spares [x] too. *)
Lemma spares_exec w lock gi d i ins w' lock' gi' i' more :
  exec w lock gi d i ins = Some (w', lock', gi', i', more) -> shut w c -> instr_own 0 d ins -> spares d ins ->
  Forall (spares d) more.
Proof.
  intros H Hs Ho Hsp. destruct ins; simpl in H, Ho, Hsp.
  all: try by (repeat case_match; simplify_eq; repeat constructor).
  - destruct (decide (conn s = c)) as [E | Hne].
    + rewrite deliver_shut in H by (by rewrite E). simplify_eq. by repeat constructor.
    + destruct (deliver w s (wk_msg k)) as [w1 []]; simplify_eq; repeat constructor; simpl; try done.
      apply Forall_app. split; [done |]. by apply Forall_singleton.
  - destruct Hsp. simplify_eq. by repeat constructor.
  - destruct Hsp. simplify_eq. repeat constructor; simpl. case_match; [| done].
    apply Forall_app. split; [done |]. by apply Forall_singleton.
  - destruct (w_conns w !! d0) as [cn |] eqn:Hd; [| simplify_eq; constructor].
    destruct (c_closed cn) eqn:Hcl; simplify_eq; repeat constructor. simpl. intros ->.
    destruct Hs as (? & ? & ?). congruence.
  - destruct (subs_of w d !! s); simplify_eq; by repeat constructor.
  - simplify_eq. destruct gone; repeat constructor; simpl. intros [? ?]. destruct Hsp. destruct Ho. split; congruence.
Qed.

Lemma leaked_step may b s l s' :
  (forall d ev, may d ev -> keeps_sid c (sid x) d ev) ->
  par_inv legal 0 b s -> (b + 1 < usize_max)%Z -> live_inv s -> leaked s -> live_step may s l s' -> leaked s'.
Proof.
  intros Hmay Hinv Hb Hlive [Hs Hx Hc] H.
  destruct H as [s d ev Hidle Hev _ | s d s' H | s conns Hcs].
  - split; [done | done |]. intros e. unfold start. rewrite task_of_insert. case_decide; [subst e | apply Hc].
    simpl. apply Hmay in Hev. destruct ev; simpl in *; try by repeat constructor.
    destruct (is_valid subj); by repeat constructor.
  - apply task_step_exec in H as (ins & code & w & lock & gi & i & more & Hcode & He & ->).
    pose proof (Hc d) as Hd. rewrite Hcode in Hd. apply Forall_cons in Hd as [Hins Hrest].
    assert (Hown : instr_own 0 d ins).
    { destruct Hinv as [_ _ _ _ _ _ _ [_ _ _ Hsat]]. specialize (Hsat d). rewrite Hcode in Hsat.
      by apply Forall_cons in Hsat as [[_ ?] _]. }
    split; simpl.
    + by eapply exec_shut.
    + rewrite (task_step_bag b s d ins code w lock gi i more) by done.
      destruct ins; try done. by apply spared.
    + intros e. rewrite task_of_insert. case_decide; [subst e | apply Hc]. simpl. apply Forall_app.
      split; [| done]. by eapply spares_exec.
  - split; simpl; [| done | done]. destruct Hs as (cn & Hd & Hcl). specialize (Hcs c). rewrite Hd in Hcs.
    destruct Hcs as (cn' & Hcn' & _ & ?). exists cn'. auto.
Qed.

End Leak.

(** The registry as it stands in the middle of a critical section. *)
Lemma leaked_registered b c x s :
  conn x = c -> par_inv legal 0 b s -> (b + 1 < usize_max)%Z -> leaked c x s -> x ∈ registered (p_world s).
Proof.
  intros Hc Hinv Hb [_ Hx Hsp]. pose proof Hinv as [Hwf Hsz _ _ Hl _ _ _]. unfold lock_wf in Hl. unfold registered.
  destruct (p_lock s) as [d |]; [| by rewrite Hl]. destruct Hl as (op & code & Hcode & _ & ->).
  unfold usize_max in Hb.
  destruct (lock_legal legal 0 ltac:(done) s d op code b Hinv (or_intror Hcode)) as (Hleg & _).
  destruct (lock_op_correct (p_inner s) op Hwf Hleg ltac:(lia)) as (_ & -> & _).
  apply (spared c); [done | done |]. specialize (Hsp d). rewrite Hcode in Hsp.
  by apply Forall_cons in Hsp as [? _].
Qed.

(** ** A spent subscription that is still in its table *)

(** What [route] leaves of a connection's table. *)
Lemma kept_trans w w1 w2 d : kept w w1 d -> kept w1 w2 d -> kept w w2 d.
Proof.
  intros (H1 & H2 & H3) (H4 & H5 & H6). split_and!; auto.
  destruct H6 as [-> | ?]; [| by right]. destruct H3 as [-> | [-> ?]]; [by left | right; auto].
Qed.

Lemma kept_finish w e reason h d : kept w (finish w e reason h) d.
Proof.
  unfold finish. destruct (w_conns w !! e) as [cn |] eqn:Hc; [| by apply kept_same].
  destruct (c_closed cn) eqn:Hcl; [by apply kept_same |].
  apply (kept_trans _ (set_reg w (remove_conn (w_reg w) e))); [by apply kept_same |].
  eapply kept_set_conn; [exact Hc | done | by right].
Qed.

Lemma kept_route_one m from st y d : kept (rt_world st) (rt_world (route_one m from st y)) d.
Proof.
  unfold route_one. destruct (negb _); [by apply kept_same |]. unfold give.
  pose proof (kept_deliver (rt_world st) y m d) as Hd. destruct (deliver (rt_world st) y m) as [w1 []]; simpl in *.
  - eapply kept_trans; [exact Hd | by apply kept_same].
  - eapply kept_trans; [exact Hd | by apply kept_same].
  - eapply kept_trans; [exact Hd | apply kept_finish].
  - done.
Qed.

Lemma kept_route w m from i d : kept w (route w m from i).1.1 d.
Proof.
  unfold route. destruct (route_list w m from i) as [[r i'] l]. destruct (is_empty l); [by apply kept_same |]. simpl.
  assert (Hl : forall st, kept (rt_world st) (rt_world (route_loop m from l st)) d).
  { induction l as [| y l IH]; intros st; simpl; [by apply kept_same |].
    eapply kept_trans; [apply kept_route_one | apply IH]. }
  eapply kept_trans; [| by apply kept_same]. eapply kept_trans; [| apply Hl]. by apply kept_same.
Qed.

Section Dead.

Context (c : cref) (x : Sub).

(** What the reader of [c] never comes to: to work on the sid of [x]. *)
Definition skips (ins : Instr) : Prop :=
  match ins with
  | I_lock (Lk_insert y) | I_bump (Lk_insert y) | I_table y => sid y <> sid x
  | I_get k _ | I_check k _ _ | I_store k _ _ _ | I_untable k => k <> sid x
  | _ => True
  end.

Definition dead (s : Par) : Prop :=
  shut (p_world s) c \/
  (subs_of (p_world s) c !! sid x = Some x /\
   (forall y, y ∈ all_subs (p_inner s) -> conn y = c -> sid y <> sid x) /\
   Forall skips (tk_code (task_of s c))).

Lemma skips_exec w lock gi i ins w' lock' gi' i' more :
  exec w lock gi c i ins = Some (w', lock', gi', i', more) -> subs_of w c !! sid x = Some x -> skips ins ->
  Forall skips more.
Proof.
  intros H Hx Hsk. destruct ins; simpl in H, Hsk.
  all: try by (repeat case_match; simplify_eq; repeat constructor).
  - destruct (decide (s = sid x)) as [-> | Hne].
    + rewrite Hx, bool_decide_true in H by eauto. simplify_eq. constructor.
    + destruct (bool_decide _); simplify_eq; by repeat constructor.
  - destruct (subs_of w c !! s); simplify_eq; by repeat constructor.
Qed.

Lemma skips_table w lock gi i ins w' lock' gi' i' more :
  exec w lock gi c i ins = Some (w', lock', gi', i', more) -> tables ins = true -> skips ins ->
  subs_of w c !! sid x = Some x -> subs_of w' c !! sid x = Some x.
Proof.
  intros H Ht Hsk Hx. destruct ins; try done; simpl in H, Hsk; simplify_eq.
  - destruct (w_conns w !! c) as [cn |] eqn:Hc; [| by unfold subs_of in Hx; rewrite Hc in Hx].
    rewrite (upd_subs_lookup w c _ cn), lookup_insert_ne by done. done.
  - by rewrite untable_lookup, lookup_delete_ne.
Qed.

Lemma dead_step may b s l s' :
  (forall d ev, may d ev -> keeps_sid c (sid x) d ev) ->
  par_inv legal 0 b s -> (b + 1 < usize_max)%Z -> live_inv s -> dead s -> live_step may s l s' -> dead s'.
Proof.
  intros Hmay Hinv Hb Hlive Hdead H.
  assert (Hstay : shut (p_world s) c -> shut (p_world s') c).
  { destruct H as [| s d s' H | s conns Hcs]; [done | |].
    - apply task_step_exec in H as (ins & code & w & lock & gi & i & more & _ & He & ->). by eapply exec_shut.
    - intros (cn & Hd & Hcl). specialize (Hcs c). rewrite Hd in Hcs. destruct Hcs as (cn' & ? & _ & ?).
      exists cn'. auto. }
  destruct Hdead as [? | (Hx & Hno & Hcode)]; [left; auto |].
  destruct H as [s d ev Hidle Hev _ | s d s' H | s conns Hcs].
  - right. split_and!; [done | done |]. unfold start. rewrite task_of_insert. case_decide; [subst d | done].
    simpl. apply Hmay in Hev. destruct ev; simpl in *; try by repeat constructor.
    + destruct (is_valid subj); by repeat constructor.
    + repeat constructor. simpl. intros ->. by destruct Hev.
  - apply task_step_exec in H as (ins & code & w & lock & gi & i & more & Hc & He & ->).
    destruct Hlive as [Hsh _]. pose proof (Hsh d) as Hshape. rewrite Hc in Hshape.
    assert (Hins : d = c -> skips ins).
    { intros ->. rewrite Hc in Hcode. by apply Forall_cons in Hcode as [? _]. }
    assert (Htab : shut w c \/ subs_of w c !! sid x = Some x).
    { destruct (decide (d = c)) as [-> | Hne].
      - destruct (tables ins) eqn:Ht; [right; eapply skips_table; eauto |].
        destruct (exec_kept _ _ _ _ _ _ _ _ _ _ _ c He) as (_ & _ & [-> | [_ ?]]);
          [intros e ->; by eapply shape_off | by left | by right | by left].
      - destruct (step_kept s d ins code w lock gi i more Hc He Hsh c) as (_ & _ & [-> | [_ ?]]);
          [done | by right | by left]. }
    destruct Htab as [? | Htab]; [by left |]. right. simpl. split_and!; [done | |].
    + intros y. rewrite (task_step_bag b s d ins code w lock gi i more) by done. intros Hy.
      destruct ins as [ | | | | | | | | | | | op | | | | | |]; try by apply Hno.
      apply lock_bag_elem in Hy as [Hy | ->]; [by apply Hno |]. intros Hyc.
      inversion Hshape as [? Ho | | | z Hz | | | | | | |]; subst; [by apply Forall_cons in Ho as [[] _] |].
      by destruct Hz as (<- & _); apply Hins.
    + rewrite task_of_insert. case_decide; [subst d | done]. rewrite Hc in Hcode.
      apply Forall_cons in Hcode as [Hi Hrest]. simpl. apply Forall_app. split; [| done].
      by eapply skips_exec.
  - right. simpl. split_and!; [| done | done]. by rewrite conns_after_subs.
Qed.

End Dead.

(** ** Properties *)


(** C39: the sid of a spent subscription stays taken.  [route] takes a subscription
    that reached its limit out of the registry and leaves it in its connection's
    table.  From there on, whatever all tasks do, interleaved at every access, and
    for as long as the connection is open and its client does not unsubscribe that
    sid: the table still holds the spent subscription, nothing is registered under
    that sid, and a SUB with it changes nothing. *)
Theorem spent_sid_stays_taken w m from i x :
  world_ok w -> coherent (w_reg w) i -> headroom w (Z.of_nat (w_next w) + 2) -> x ∈ registered w ->
  let w1 := (route w m from i).1.1 in
  is_closed w1 (conn x) = false ->
  (0 < limit (cell_of w1 x) <= delivered (cell_of w1 x))%Z ->
  (x ∉ registered w1) /\
  forall may ls s,
    (forall d ev, may d ev -> keeps_sid (conn x) (sid x) d ev) ->
    (generation (w_reg w1) + Z.of_nat (w_next w1) + blen ls < usize_max)%Z ->
    live may (par_new w1) ls s ->
    shut (p_world s) (conn x) \/
    (subs_of (p_world s) (conn x) !! sid x = Some x /\
     (forall y, y ∈ all_subs (p_inner s) -> conn y = conn x -> sid y <> sid x) /\
     (forall subj q, handle_subscribe (p_world s) (conn x) subj q (sid x) = p_world s)).
Proof.
  intros Hok Hco Hh Hx w1 Hopen Hspent. pose proof (route_ok w m from i Hok Hco Hh) as Hr.
  pose proof (kept_route w m from i (conn x)) as Hk. fold w1 in Hk.
  assert (Hw1 : world_ok w1 /\ (0 <= generation (w_reg w1))%Z).
  { unfold w1. destruct (route w m from i) as [[w' i'] d]. destruct Hr as (? & _ & _ & [? _]). destruct Hh. split; [done | simpl; lia]. }
  destruct Hw1 as [[Hwf Hlim] Hg].
  assert (Htab : subs_of w1 (conn x) !! sid x = Some x).
  { destruct Hok as [(_ & _ & Hkn & _) _]. rewrite Forall_forall in Hkn. destruct (Hkn x Hx) as (cn & Hcn & Hsid).
    destruct Hk as (_ & _ & [-> | [_ (dn & Hd & Hcl)]]); [unfold subs_of; by rewrite Hcn |].
    unfold is_closed in Hopen. rewrite Hd in Hopen. simpl in Hopen. congruence. }
  assert (Hnone : forall y, y ∈ registered w1 -> conn y = conn x -> sid y <> sid x).
  { intros y Hy Hyc Hys. assert (y = x) as ->.
    { destruct Hwf as (_ & _ & Hkn & _). rewrite Forall_forall in Hkn. destruct (Hkn y Hy) as (cn & Hcn & Hsid).
      rewrite Hyc in Hcn. rewrite Hys in Hsid. unfold subs_of in Htab. rewrite Hcn in Htab. simpl in Htab. congruence. }
    destruct (Hlim x Hy) as [[H | H] | H]; [lia | lia | by apply not_elem_of_nil in H]. }
  split; [intros H; by apply (Hnone x H) |]. intros may ls s Hmay Hb Hrun.
  set (b := (generation (w_reg w1) + Z.of_nat (w_next w1))%Z) in *.
  assert (Hend : dead (conn x) x s).
  { apply (live_run_with (dead (conn x) x) may b (par_new w1) ls s);
      [| apply world_par_inv; [done | lia | lia] | by apply live_new_inv | | lia | done].
    - intros b' t l t'. by apply dead_step.
    - right. split_and!; [done | done |]. unfold task_of. simpl. rewrite lookup_empty. constructor. }
  destruct Hend as [? | (H1 & H2 & _)]; [by left | right]. split_and!; [done | done |].
  intros subj q. apply handle_subscribe_known. eauto.
Qed.

End Lasting.
