(* ===== verification/Server.v ===== *)
(** * The server as a transition system

    Connections are spawned (client.rs, [spawn]); their reader tasks handle events,
    say control lines and close (client.rs, [handle], [read_loop]); their writer
    tasks drain the outboxes (client.rs, [write_loop]).  The tasks interleave at the
    granularity of these operations. *)

From Stdlib Require Import String Strings.Byte.
From stdpp Require Import relations.
From S2P Require Import Prelude Subjects Proto Nuid Frames External Arena Outbox Writer Options Registry Interest QueueGroups Conn Route Client.

Section Server.

Context `{BML : BytesMutLaws} `{CHL : ChannelLaws} {J : SerdeJsonLib}.

(** ** Definitions *)

Definition world_new (seed : Z) : World := mkWorld ∅ ∅ (registry_new seed) 0.

(** [client::spawn] up to the start of the tasks: the connection is made, and the
    INFO line is queued on its outbox; [false] if that was dropped. *)
Definition spawn_conn (w : World) (c : cref) (cid max_pending : Z) (line : bytes) : World * bool :=
  let cn := conn_new cid max_pending in
  let (o, r) := enqueue (c_out cn) line in
  (set_conn w c (set_out cn o), negb (bool_decide (r = Enq_Dropped))).

(** What the writer task does to an outbox: it takes the receiving end, receives
    frames, gives bytes back, and drops the receiving end when it ends. *)
Inductive writer_effect : Outbox -> Outbox -> Prop :=
| we_take o : writer_effect o (take_rx o).1
| we_collect o w o' w' : collect o w = Some (o', w') -> writer_effect o o'
| we_drained o n : writer_effect o (drained o n)
| we_drop o : writer_effect o (set_chan o (ch_drop_rx (ob_chan o))).

(** The state, and the interest cache of each reader task. *)
Record Srv := mkSrv { sv_world : World; sv_caches : gmap cref Interest }.

(** A keepalive tick of the reader task: the state, and whether the task goes on. *)
Definition MAX_PINGS_OUT : Z := 2.

Definition tick (w : World) (c : cref) : World * bool :=
  if (MAX_PINGS_OUT <=? conn_pings_out w c)%Z
  then (close (say w c (frame_err STALE_CONNECTION)) c "stale connection", false)
  else (say (note_ping_sent w c) c frame_ping, true).

(** A batch the parser could not finish: its error line, and the close. *)
Definition proto_error (w : World) (c : cref) (e : ProtoError) : World * bool :=
  let w1 := from_option (fun text => say w c (frame_err text)) w (err_line e) in
  if closes e then (close w1 c "protocol error", false) else (w1, true).

Inductive srv_step : Srv -> Srv -> Prop :=
| sv_spawn w caches c cid max_pending line :
    w_conns w !! c = None ->
    srv_step (mkSrv w caches)
             (mkSrv (spawn_conn w c cid max_pending line).1 (<[c := interest_new]> caches))
| sv_event w caches c ev w' i' waits goes_on :
    is_Some (w_conns w !! c) -> event_fits ev -> headroom w (Z.of_nat (w_next w) + 2) ->
    handle w c ev (cache_of caches c) = (w', i', waits, goes_on) ->
    srv_step (mkSrv w caches) (mkSrv w' (<[c := i']> caches))
| sv_tick w caches c :
    headroom w 2 -> srv_step (mkSrv w caches) (mkSrv (tick w c).1 caches)
| sv_error w caches c e :
    headroom w 2 -> srv_step (mkSrv w caches) (mkSrv (proto_error w c e).1 caches)
| sv_close w caches c reason hard :
    headroom w 2 -> srv_step (mkSrv w caches) (mkSrv (finish w c reason hard) caches)
| sv_write w caches c cn o :
    w_conns w !! c = Some cn -> writer_effect (c_out cn) o ->
    srv_step (mkSrv w caches) (mkSrv (set_conn w c (set_out cn o)) caches).

Definition srv_init (seed : Z) : Srv := mkSrv (world_new seed) ∅.

(** ** Lemmas *)

Definition srv_ok (s : Srv) : Prop :=
  world_ok (sv_world s) /\ forall c, coherent (w_reg (sv_world s)) (cache_of (sv_caches s) c).

Lemma world_new_ok seed : world_ok (world_new seed).
Proof.
  split; [split_and! |].
  - apply inner_new_wf.
  - intros c cn H. simpl in H. by rewrite lookup_empty in H.
  - constructor.
  - intros s t (cn & H & _). simpl in H. by rewrite lookup_empty in H.
  - intros ref x H. simpl in H. by rewrite lookup_empty in H.
  - intros s H. by apply not_elem_of_nil in H.
Qed.

(** A connection with an empty table can be added at a free address. *)
Lemma fresh_conn_ok w c cn :
  world_ok w -> w_conns w !! c = None -> conn_wf cn -> c_subs cn = ∅ -> world_ok (set_conn w c cn).
Proof.
  intros [(Hr & Hcs & Hk & Hu & Hx) Hl] Hc Hwf Hs.
  assert (Hknown : forall t, known (set_conn w c cn) t <-> known w t).
  { intros t. unfold known. simpl. destruct (decide (c = conn t)) as [<- | Hne].
    - rewrite lookup_insert_eq. split; [| intros (? & ? & _); congruence].
      intros (? & [= <-] & H). by rewrite Hs, lookup_empty in H.
    - by rewrite lookup_insert_ne. }
  split; [split_and! | done].
  - done.
  - intros d dn Hd. simpl in Hd. apply lookup_insert_Some in Hd as [[<- <-] | [_ Hd]]; [| by apply Hcs].
    split; [done |]. intros k t H. by rewrite Hs, lookup_empty in H.
  - eapply Forall_impl; [exact Hk |]. intros t. apply Hknown.
  - intros t u Ht%Hknown Hu'%Hknown. by apply Hu.
  - done.
Qed.

Lemma conn_new_wf cid max_pending : conn_wf (conn_new cid max_pending).
Proof. split; [| done]. exists arena_new. split; [done | apply arena_new_sealed]. Qed.

Lemma spawn_ok w c cid max_pending line :
  world_ok w -> w_conns w !! c = None -> world_ok (spawn_conn w c cid max_pending line).1.
Proof.
  intros Hok Hc. unfold spawn_conn.
  pose proof (enqueue_conn_wf (conn_new cid max_pending) line (conn_new_wf _ _)) as Hwf.
  destruct (enqueue _ line) as [o r]. by apply fresh_conn_ok.
Qed.

Lemma writer_effect_same o o' : writer_effect o o' -> ob_tx o' = ob_tx o /\ gone o' = gone o.
Proof.
  intros [o0 | o0 w o1 w' Hc | o0 n | o0]; [done | | | done].
  - unfold collect in Hc. repeat case_match; by simplify_eq.
  - by destruct (drained_same o0 n) as (? & _ & _ & _ & ?).
Qed.

Lemma write_ok w c cn o :
  world_ok w -> w_conns w !! c = Some cn -> writer_effect (c_out cn) o ->
  world_ok (set_conn w c (set_out cn o)).
Proof.
  intros [Hw Hl] Hc He. split; [| done].
  eapply world_wf_set_conn; [done | done | | done]. apply Hw in Hc as [Hwf _].
  destruct (writer_effect_same _ _ He) as [Ht Hg]. unfold conn_wf in *. simpl. by rewrite Ht, Hg.
Qed.

Lemma finish_later w c reason h : world_ok w -> headroom w 2 -> later w (finish w c reason h) 1.
Proof.
  intros [Hw Hl] Hh. pose proof Hh as [H0 H1]. unfold usize_max in H1.
  split_and!; [split | by apply finish_evolves | unfold finish; repeat case_match; simpl; lia].
  - apply finish_wf; [lia | done].
  - intros s Hs. apply finish_registered in Hs; [| done | lia].
    destruct (Hl s Hs) as [H | H]; [left | by right]. eapply within_limit_cells; [apply finish_cells | done].
Qed.

Lemma note_ping_later w c : world_ok w -> later w (note_ping_sent w c) 0.
Proof.
  intros Hok. apply later_same; [done | apply note_ping_sent_wf, Hok | | |];
    unfold note_ping_sent, upd_conn; by case_match.
Qed.

Lemma say_close_later w c f reason h :
  world_ok w -> headroom w 2 -> later w (finish (say w c f) c reason h) 1.
Proof.
  intros Hok Hh. destruct (say_same w c f) as (Hr & _ & Hn & _).
  destruct (finish_later (say w c f) c reason h) as (H1 & H2 & H3);
    [by apply say_ok | unfold headroom; by rewrite Hr, Hn |].
  split_and!; [done | by rewrite <- Hr | by rewrite <- Hn].
Qed.

Lemma tick_later w c : world_ok w -> headroom w 2 -> later w (tick w c).1 1.
Proof.
  intros Hok Hh. unfold tick. destruct (_ <=? _)%Z; simpl; [by apply say_close_later |].
  apply later_say. destruct (note_ping_later w c Hok) as (H1 & H2 & H3).
  split_and!; [done | eapply evolves_weaken; [done | lia] | done].
Qed.

Lemma proto_error_later w c e : world_ok w -> headroom w 2 -> later w (proto_error w c e).1 1.
Proof.
  intros Hok Hh. unfold proto_error. destruct e as [text | text |]; simpl.
  - by apply say_close_later.
  - apply later_say, later_refl; [done | lia].
  - by apply finish_later.
Qed.

Lemma srv_ok_later w w' caches n : srv_ok (mkSrv w caches) -> later w w' n -> srv_ok (mkSrv w' caches).
Proof. intros [_ Hco] (H1 & [_ H2] & _). split; [done |]. intros c. apply H2, Hco. Qed.

Lemma srv_ok_cache w caches c i :
  srv_ok (mkSrv w caches) -> coherent (w_reg w) i -> srv_ok (mkSrv w (<[c := i]> caches)).
Proof.
  intros [Hok Hco] Hi. split; [done |]. intros d. unfold cache_of. simpl.
  destruct (decide (c = d)) as [<- | Hne]; [by rewrite lookup_insert_eq |].
  rewrite lookup_insert_ne by done. apply Hco.
Qed.

Lemma srv_step_ok s s' : srv_step s s' -> srv_ok s -> srv_ok s'.
Proof.
  intros Hstep Hs. destruct Hstep as [w caches c cid mp line Hc | w caches c ev w' i' waits b Hc Hev Hh He
    | w caches c Hh | w caches c e Hh | w caches c reason hard Hh | w caches c cn o Hc He];
    pose proof Hs as [Hok Hco]; simpl in Hok, Hco.
  - apply srv_ok_cache; [| by left]. split; [by apply spawn_ok |]. intros d. simpl.
    unfold spawn_conn. destruct (enqueue _ line). simpl. apply Hco.
  - pose proof (handle_ok w c ev (cache_of caches c) Hok Hc (Hco c) Hh Hev) as H. rewrite He in H.
    destruct H as [H1 H2]. apply srv_ok_cache; [by eapply srv_ok_later | done].
  - eapply srv_ok_later; [done | by apply tick_later].
  - eapply srv_ok_later; [done | by apply proto_error_later].
  - eapply srv_ok_later; [done | by apply finish_later].
  - split; [by apply write_ok | done].
Qed.

Lemma srv_steps_ok s s' : rtc srv_step s s' -> srv_ok s -> srv_ok s'.
Proof. induction 1 as [| s1 s2 s3 Hstep _ IH]; [done |]. intros Hs. by eapply IH, srv_step_ok. Qed.

Lemma srv_reachable_ok seed s : rtc srv_step (srv_init seed) s -> srv_ok s.
Proof.
  intros H. eapply srv_steps_ok; [exact H |]. split; [apply world_new_ok | by left].
Qed.

(** ** The invariant *)

(** The invariant between whole operations: what LiveSteps shows at every moment of
    every interleaving is here sharper, because each operation is one step.
    - The registry's count is the number of its subscriptions, and each of them is
      the one its connection knows by that sid, so an sid names at most one;
    - a subscription with a delivery limit that is still registered has not reached
      it (an interleaving inside of UNSUB can break this, see RaceRuns);
    - a connection is writable exactly until it is closed;
    - whatever a task's cache holds, its next publish resolves to exactly the
      subscriptions that match. *)
Lemma server_invariant seed s :
  rtc srv_step (srv_init seed) s ->
  let w := sv_world s in
  subscription_count (w_reg w) = blen (registered w) /\
  (forall t, t ∈ registered w -> known w t /\ within_limit w t) /\
  (forall t u, t ∈ registered w -> u ∈ registered w -> conn t = conn u -> sid t = sid u -> t = u) /\
  (forall c cn, w_conns w !! c = Some cn -> c_closed cn = false <-> is_Some (ob_tx (c_out cn))) /\
  (forall c subj, generation (w_reg w) <> usize_max ->
     in_subs (refresh (w_reg w) subj (cache_of (sv_caches s) c)) ≡ₚ
     retain (fun t => matches (subject t) subj) (registered w)).
Proof.
  intros Hs w. pose proof (srv_reachable_ok _ _ Hs) as Hok. unfold srv_ok in Hok. fold w in Hok.
  destruct Hok as [[(Hr & Hcs & Hk & Hu & Hx) Hl] Hco].
  rewrite Forall_forall in Hk. split_and!.
  - by destruct Hr as (_ & _ & ?).
  - intros t Ht. split; [auto |]. destruct (Hl t Ht) as [? | H]; [done |]. by apply not_elem_of_nil in H.
  - intros t u Ht Hu' E1 E2. destruct (Hk t Ht) as (cn & Hc & H1), (Hk u Hu') as (dn & Hd & H2).
    rewrite E1, E2 in *. congruence.
  - intros c cn Hc. apply Hcs in Hc as [Hwf _]. unfold conn_wf in Hwf. destruct (c_closed cn).
    + destruct Hwf as [-> _]. split; [done |]. by intros [? ?].
    + destruct Hwf as [(a & -> & _) _]. split; eauto.
  - intros c subj Hgen. destruct (refresh_correct (w_reg w) subj (cache_of (sv_caches s) c) (Hco c) Hgen) as (_ & -> & _).
    by apply resolve_subs_correct.
Qed.

End Server.
