(* ===== verification/Order.v ===== *)
(** * Ordering

    Frames wait on a connection's channel in the order they were queued: nothing a
    reader task does removes or overtakes a queued frame, and the writer takes
    frames from the front only. *)

From Stdlib Require Import String Strings.Byte.
From stdpp Require Import relations.
From S2P Require Import Prelude Subjects Proto Nuid Frames External Arena Outbox Writer Options Registry Interest QueueGroups Conn Route Client Server.

Section Order.

Context `{BML : BytesMutLaws} `{CHL : ChannelLaws} {J : SerdeJsonLib}.

(** What is queued for a connection. *)
Definition conn_queue (cn : Conn) : list bytes := ch_queue (ob_chan (c_out cn)).

(** A connection [cn'] that is [cn] with [fs] queued behind what it had: a closed
    connection stays closed, only closing makes a close a hard one or wakes the
    writer, and the counter of an outbox in use moves with its queue. *)
Definition carries (cn : Conn) (fs : list bytes) (cn' : Conn) : Prop :=
  conn_queue cn' = conn_queue cn ++ fs /\
  ob_rx (c_out cn') = ob_rx (c_out cn) /\
  (c_closed cn = true -> c_closed cn' = true) /\
  (c_hard cn' = true -> c_hard cn = true \/ c_closed cn' = true) /\
  (c_closed cn' = false -> c_wakes cn' = c_wakes cn) /\
  (in_u64 (pending (c_out cn)) -> in_u64 (pending (c_out cn'))) /\
  (gone (c_out cn') = false ->
     gone (c_out cn) = false /\ wrap64 (pending (c_out cn')) = wrap64 (pending (c_out cn) + blen (concat fs))).

Lemma carries_refl cn : carries cn [] cn.
Proof. unfold carries. rewrite app_nil_r, Z.add_0_r. auto 8. Qed.

Lemma carries_trans cn1 f1 cn2 f2 cn3 :
  carries cn1 f1 cn2 -> carries cn2 f2 cn3 -> carries cn1 (f1 ++ f2) cn3.
Proof.
  intros (Q1 & X1 & C1 & H1 & W1 & R1 & P1) (Q2 & X2 & C2 & H2 & W2 & R2 & P2).
  split_and!; [| congruence | auto | | | auto |].
  - by rewrite Q2, Q1, (assoc_L (++)).
  - intros H. destruct (H2 H) as [H' | H']; [| by right]. destruct (H1 H'); auto.
  - intros H. rewrite W2 by done. apply W1. destruct (c_closed cn2); [| done]. by rewrite C2 in H.
  - intros (G2 & E2)%P2. destruct (P1 G2) as [G1 E1]. split; [done |].
    rewrite E2, <- wrap64_add_l, E1, wrap64_add_l, concat_app, blen_app. f_equal. lia.
Qed.

(** Everything a task does to the rest of a connection. *)
Lemma carries_same cn cn' :
  c_out cn' = c_out cn -> c_closed cn' = c_closed cn -> c_hard cn' = c_hard cn ->
  c_wakes cn' = c_wakes cn -> carries cn [] cn'.
Proof.
  intros Ho Hc Hh Hw. unfold carries, conn_queue. rewrite Ho, Hc, Hh, Hw, app_nil_r, Z.add_0_r. auto 8.
Qed.

#[local] Hint Resolve carries_refl carries_same : core.

(** The connections are the same, each with more frames behind those it had. *)
Definition extends (w w' : World) : Prop :=
  forall c, match w_conns w !! c with
            | Some cn => exists cn' fs, w_conns w' !! c = Some cn' /\ carries cn fs cn'
            | None => w_conns w' !! c = None
            end.

Lemma extends_refl w : extends w w.
Proof. intros c. destruct (w_conns w !! c) as [cn |]; [exists cn, []; auto | done]. Qed.

Lemma extends_trans w1 w2 w3 : extends w1 w2 -> extends w2 w3 -> extends w1 w3.
Proof.
  intros H12 H23 c. specialize (H12 c). specialize (H23 c). destruct (w_conns w1 !! c) as [cn |].
  - destruct H12 as (cn2 & f2 & Hc2 & Hk2). rewrite Hc2 in H23. destruct H23 as (cn3 & f3 & Hc3 & Hk3).
    exists cn3, (f2 ++ f3). split; [done | by eapply carries_trans].
  - by rewrite H12 in H23.
Qed.

#[local] Instance extends_preorder : PreOrder extends.
Proof. split; [intros w; apply extends_refl | intros w1 w2 w3; apply extends_trans]. Qed.

Lemma extends_lookup w w' c cn :
  extends w w' -> w_conns w !! c = Some cn ->
  exists cn' fs, w_conns w' !! c = Some cn' /\ carries cn fs cn'.
Proof. intros H Hc. specialize (H c). by rewrite Hc in H. Qed.

(** Changing one connection in a way that only appends to its queue. *)
Lemma extends_set_conn w c cn cn' fs :
  w_conns w !! c = Some cn -> carries cn fs cn' -> extends w (set_conn w c cn').
Proof.
  intros Hc Hk d. simpl. destruct (decide (c = d)) as [<- | Hne].
  - rewrite Hc, lookup_insert_eq. eauto.
  - rewrite lookup_insert_ne by done. apply (extends_refl w d).
Qed.

Lemma extends_same w w' : w_conns w' = w_conns w -> extends w w'.
Proof. intros H c. rewrite H. apply (extends_refl w c). Qed.

(** [push] queues the frame and counts it, or gives its bytes back. *)
Lemma push_carries cn o f : c_out cn = o \/ (exists a, set_tx (c_out cn) (Some a) = o) ->
  exists fs, carries cn fs (set_out cn (push o f).1).
Proof.
  intros Ho.
  assert (Hsame : ch_queue (ob_chan o) = conn_queue cn /\ gone o = gone (c_out cn) /\
                  pending o = pending (c_out cn) /\ ob_rx o = ob_rx (c_out cn)) by (destruct Ho as [<- | [a <-]]; done).
  destruct Hsame as (Hq & Hg & Hp & Hx). unfold push, carries, conn_queue.
  assert (Hundo : wrap64 (wrap64 (wrap64 (pending o + blen f) - blen f)) = wrap64 (pending (c_out cn) + 0)).
  { rewrite wrap64_idem, wrap64_sub_l, Hp. f_equal. lia. }
  destruct (_ >? hard o)%Z; [| destruct (ch_send (ob_chan o) f) as [ch |] eqn:Hs].
  2: { exists [f]. simpl. rewrite Hg, Hx, (ch_send_queue _ _ _ Hs), Hq, app_nil_r, wrap64_idem, Hp.
       auto 10 with nats. }
  all: exists []; simpl; rewrite Hg, Hx, Hundo, Hq, app_nil_r; auto 10 with nats.
Qed.

Lemma conn_enqueue_extends w c f : extends w (conn_enqueue w c f).1.
Proof.
  unfold conn_enqueue. destruct (w_conns w !! c) as [cn |] eqn:Hc; [| done]. destruct (c_closed cn); [done |].
  unfold enqueue. destruct (ob_tx (c_out cn)); simpl.
  - destruct (push_carries cn (c_out cn) f) as [fs Hfs]; [by left |].
    destruct (push (c_out cn) f) as [o r]. by apply (extends_set_conn w c cn _ fs).
  - apply (extends_set_conn w c cn _ []); auto.
Qed.

Lemma deliver_extends w s m : extends w (deliver w s m).1.
Proof.
  unfold deliver. destruct (w_conns w !! conn s) as [cn |] eqn:Hc; [| done]. destruct (c_closed cn); [done |].
  unfold queue_with. destruct (ob_tx (c_out cn)) as [a |]; simpl.
  - destruct (build_frame _ _ _ _) as [a' f].
    destruct (push_carries cn (set_tx (c_out cn) (Some a')) f) as [fs Hfs]; [by eauto |].
    destruct (push _ f) as [o r]. by apply (extends_set_conn w (conn s) cn _ fs).
  - apply (extends_set_conn w (conn s) cn _ []); auto.
Qed.

Lemma upd_conn_extends w c f :
  (forall cn, carries cn [] (f cn)) -> extends w (upd_conn w c f).
Proof.
  intros Hf. unfold upd_conn. destruct (w_conns w !! c) as [cn |] eqn:Hc; [| done].
  by apply (extends_set_conn w c cn _ []).
Qed.

Lemma finished_carries cn reason h : carries cn [] (finished cn reason h).
Proof. unfold carries, conn_queue. simpl. rewrite app_nil_r. split_and!; auto; by intros. Qed.

Lemma finish_extends w c reason h : extends w (finish w c reason h).
Proof.
  unfold finish. destruct (w_conns w !! c) as [cn |] eqn:Hc; [| done]. destruct (c_closed cn); [done |].
  trans (set_reg w (remove_conn (w_reg w) c)); [by apply extends_same |].
  apply (extends_set_conn _ c cn _ []); [done | apply finished_carries].
Qed.

Lemma say_extends w c f : extends w (say w c f).
Proof. apply conn_enqueue_extends. Qed.

Lemma say_if_extends (b : bool) w w' c f : extends w w' -> extends w (if b then say w' c f else w').
Proof. destruct b; [| done]. intros H. etrans; [exact H | apply say_extends]. Qed.

Lemma route_one_extends m from st s : extends (rt_world st) (rt_world (route_one m from st s)).
Proof.
  unfold route_one. destruct (negb _); [done |]. unfold give.
  pose proof (deliver_extends (rt_world st) s m) as Hd.
  destruct (deliver (rt_world st) s m) as [w1 []]; simpl in *;
    (etrans; [exact Hd |]); try by apply extends_same. apply finish_extends.
Qed.

Lemma route_loop_extends m from list st : extends (rt_world st) (rt_world (route_loop m from list st)).
Proof.
  revert st. induction list as [| s list IH]; intros st; simpl; [done |].
  etrans; [apply (route_one_extends m from st s) | apply IH].
Qed.

Lemma route_extends w m from i : extends w (route w m from i).1.1.
Proof.
  unfold route. destruct (route_list w m from i) as [[r i'] l]. destruct (is_empty l); simpl.
  - by apply extends_same.
  - trans (set_reg w r); [by apply extends_same |].
    etrans; [apply (route_loop_extends m from l (mkRouteState (set_reg w r) 0 [] [])) |]. by apply extends_same.
Qed.

Lemma no_responder_extends w c m reply n : extends w (no_responder_check w c m reply n).
Proof.
  unfold no_responder_check. destruct (_ || _); [done |]. destruct reply as [[| b r] |]; [done | | done].
  generalize (matching_of (w_reg w) c (b :: r)). intros l. revert w.
  induction l as [| s l IH]; intros w; simpl; [done |]. etrans; [apply say_extends | apply IH].
Qed.

Lemma handle_subscribe_extends w c subj q s : extends w (handle_subscribe w c subj q s).
Proof.
  unfold handle_subscribe. case_bool_decide; [done |]. destruct (insert _ _) as [r []].
  - etrans; [| apply upd_conn_extends; auto]. by apply extends_same.
  - by apply extends_same.
Qed.

Lemma handle_unsubscribe_extends w c s max : extends w (handle_unsubscribe w c s max).
Proof.
  unfold handle_unsubscribe. destruct (subs_of w c !! s) as [sub |]; [| done]. unfold set_limit.
  destruct (_ && _); [by apply extends_same |].
  etrans; [| by apply extends_same]. etrans; [| apply upd_conn_extends; auto]. by apply extends_same.
Qed.

Lemma handle_publish_extends w c i subj reply hdr body hpub :
  extends w (handle_publish w c i subj reply hdr body hpub).1.1.1.
Proof.
  unfold handle_publish. destruct (hpub && _); [done |].
  set (w1 := if pedantic _ && _ then _ else w). set (w2 := if verbose _ then say w1 c frame_ok else w1).
  assert (H2 : extends w w2).
  { apply say_if_extends. unfold w1. destruct (_ && _); [apply say_extends | done]. }
  destruct (is_empty subj); [done |].
  pose proof (route_extends w2 (mkMsg subj reply hdr body) c i) as Hr.
  destruct (route w2 _ c i) as [[w3 i'] d]. simpl in *.
  etrans; [exact H2 |]. etrans; [exact Hr |]. apply no_responder_extends.
Qed.

Lemma handle_extends w c ev i : extends w (handle w c ev i).1.1.1.
Proof.
  unfold handle. destruct ev as [json | subj q s | s max | subj reply hdr total body hpub | | | arg | o | |].
  - destruct (apply_connect (opts w c) json) as [o []]; simpl; [| done].
    apply say_if_extends. apply upd_conn_extends; auto.
  - destruct (negb (is_valid subj) || _); simpl; [apply say_extends |].
    apply say_if_extends, handle_subscribe_extends.
  - apply say_if_extends, handle_unsubscribe_extends.
  - apply handle_publish_extends.
  - apply say_extends.
  - apply upd_conn_extends; auto.
  - done.
  - destruct (negb (headers _)); [done |]. destruct o; [done | done | apply say_extends].
  - done.
  - done.
Qed.

Lemma tick_extends w c : extends w (tick w c).1.
Proof.
  unfold tick. destruct (_ <=? _)%Z; simpl.
  - etrans; [apply say_extends | apply finish_extends].
  - trans (note_ping_sent w c); [apply upd_conn_extends; auto | apply say_extends].
Qed.

Lemma proto_error_extends w c e : extends w (proto_error w c e).1.
Proof.
  unfold proto_error. destruct e as [text | text |]; simpl.
  - etrans; [apply say_extends | apply finish_extends].
  - apply say_extends.
  - apply finish_extends.
Qed.

Lemma collect_more_front fuel ch w ch' w' :
  collect_more fuel ch w = (ch', w') -> exists popped, ch_queue ch = popped ++ ch_queue ch'.
Proof.
  revert ch w. induction fuel as [| fuel IH]; intros ch w H; simpl in H; [simplify_eq; by exists [] |].
  destruct (ch_try_recv ch) as [[f ch1] |] eqn:Hr; [| simplify_eq; by exists []].
  apply ch_recv_some in Hr. destruct (_ || _); [simplify_eq; by exists [f] |].
  destruct (IH _ _ H) as [popped Hp]. exists (f :: popped). by rewrite Hr, Hp.
Qed.

Lemma writer_front o o' :
  writer_effect o o' -> exists popped, ch_queue (ob_chan o) = popped ++ ch_queue (ob_chan o').
Proof.
  intros [o0 | o0 w o1 w' Hc | o0 n | o0]; [by exists [] | | |].
  - unfold collect in Hc. destruct (ch_try_recv (ob_chan o0)) as [[f ch] |] eqn:Hr; [| done].
    apply ch_recv_some in Hr. destruct (collect_more _ ch _) as [ch' w''] eqn:Hm. simplify_eq. simpl.
    destruct (collect_more_front _ _ _ _ _ Hm) as [popped Hp]. exists (f :: popped). by rewrite Hr, Hp.
  - destruct (drained_same o0 n) as (_ & _ & _ & -> & _). by exists [].
  - exists (ch_queue (ob_chan o0)). simpl. by rewrite ch_drop_rx_queue, app_nil_r.
Qed.

(** ** Properties *)

(** A queued frame is never overtaken, lost or changed on its channel.  In any
    step of the server, and for every connection, either frames are appended behind
    those that are queued, or the connection's own writer takes frames from the
    front (or, when it ends, drops them all).  So the frames one publisher's messages
    put on a connection reach its writer in publish order. *)
Lemma queue_order_preserved s s' c cn :
  srv_step s s' -> w_conns (sv_world s) !! c = Some cn ->
  exists cn', w_conns (sv_world s') !! c = Some cn' /\
    ((exists fs, conn_queue cn' = conn_queue cn ++ fs) \/
     (exists popped, conn_queue cn = popped ++ conn_queue cn')).
Proof.
  intros Hstep Hc.
  assert (Hext : forall w w', extends w w' -> w_conns w !! c = Some cn ->
    exists cn', w_conns w' !! c = Some cn' /\
      ((exists fs, conn_queue cn' = conn_queue cn ++ fs) \/
       (exists popped, conn_queue cn = popped ++ conn_queue cn'))).
  { intros w w' H Hcn. destruct (extends_lookup _ _ _ _ H Hcn) as (cn' & fs & ? & ? & _). eauto. }
  destruct Hstep as [w caches d cid mp line Hd | w caches d ev w' i' waits b Hd Hev Hh He
    | w caches d Hh | w caches d e Hh | w caches d reason hard Hh | w caches d dn o Hd He]; simpl in *.
  - exists cn. unfold spawn_conn. destruct (enqueue _ line). simpl.
    rewrite lookup_insert_ne by congruence. split; [done |]. left. exists []. by rewrite app_nil_r.
  - pose proof (handle_extends w d ev (cache_of caches d)) as H. rewrite He in H. by apply (Hext w w').
  - by apply (Hext w); [apply tick_extends |].
  - by apply (Hext w); [apply proto_error_extends |].
  - by apply (Hext w); [apply finish_extends |].
  - destruct (decide (d = c)) as [-> | Hne].
    + simplify_eq. rewrite lookup_insert_eq. eexists. split; [done |]. right. by apply writer_front.
    + exists cn. rewrite lookup_insert_ne by done. split; [done |]. left. exists []. by rewrite app_nil_r.
Qed.

End Order.
