(* ===== verification/ReadLoop.v ===== *)
(** * The read loop (crates/server/src/client.rs, [read_loop])

    One read at a time: the bytes are parsed into a batch, the batch is carried out
    in order, and the read buffer is resized by how full the read was. *)

From Stdlib Require Import String Strings.Byte.
From stdpp Require Import relations.
From S2P Require Import Prelude Subjects Proto ProtoLex Decimal ProtoFeed ProtoStream ProtoRoundtrip Nuid Frames External Arena Outbox Writer Options Registry Interest QueueGroups Conn Route Client Server Order.

(** ** The read buffer *)

Definition START_READ_BUF : Z := 16 * 1024.
Definition MAX_READ_BUF : Z := 64 * 1024.
Definition SHORTS_TO_SHRINK : Z := 2.

(** [cap] and [short] after a read of [n] bytes; [short] is a [u32]. *)
Definition resize (cap short n : Z) : Z * Z :=
  if (cap <=? n)%Z then (Z.min (cap * 2) MAX_READ_BUF, 0%Z)
  else if (n <? cap / 2)%Z then
    let short' := ((short + 1) mod 2 ^ 32)%Z in
    if (short' >? SHORTS_TO_SHRINK)%Z && (cap >? START_READ_BUF)%Z
    then ((cap / 2)%Z, 0%Z) else (cap, short')
  else (cap, short).

(** ** The first keepalive probe *)

Definition NANOS_PER_MILLI : Z := 1000000.
Definition FIRST_PING_INTERVAL : Z := 2 * 1000 * NANOS_PER_MILLI.

(** [keepalive_first], in nanoseconds, given the generator it draws from. *)
Definition keepalive_first (r : Rng) (interval : Z) : Z :=
  let cap := Z.min FIRST_PING_INTERVAL interval in
  let jitter := (below r (Z.max (cap / NANOS_PER_MILLI / 5) 1)).2 in
  (cap + jitter * NANOS_PER_MILLI)%Z.

Section ReadLoop.

Context `{BML : BytesMutLaws} `{CHL : ChannelLaws} {J : SerdeJsonLib}.

(** ** One read *)

(** What the task keeps between reads, besides its cache. *)
Record Reader := mkReader { rd_cap : Z; rd_short : Z; rd_buf : bytes; rd_parser : State }.

Definition reader_new : Reader := mkReader START_READ_BUF 0 [] Line.

(** The batch, in order, up to the event that ends the connection; the connections
    a publish waits for are collected in order, and taken to be ready at once (the
    waits are steps of ReadTask). *)
Fixpoint handle_all (w : World) (c : cref) (evs : list Event) (i : Interest) (waits : list cref) : Handled :=
  match evs with
  | [] => (w, i, waits, true)
  | ev :: evs' =>
      let '(w1, i1, ws, goes_on) := handle w c ev i in
      if goes_on then handle_all w1 c evs' i1 (waits ++ ws) else (w1, i1, waits ++ ws, false)
  end.

(** How a pass of the loop ends: it goes on, it breaks out, or the task returns. *)
Inductive Next := Next_loop | Next_break | Next_return.

Definition read_result : Type := World * Reader * Interest * list cref * Next.

(** The loop's body on the answer of a read: [None] only if parsing ran out of fuel,
    which it never does. *)
Definition read_one (lim : Limits) (w : World) (c : cref) (rd : Reader) (i : Interest)
    (chunk : bytes) : option read_result :=
  if is_empty chunk then Some (close w c "client closed", rd, i, [], Next_break)
  else
    let (cap, short) := resize (rd_cap rd) (rd_short rd) (blen chunk) in
    match feed_into (rd_parser rd) (rd_buf rd ++ chunk) lim [] with
    | None => None
    | Some (Err e, st, src, _) =>
        let (w1, goes_on) := proto_error w c e in
        Some (w1, mkReader cap short src st, i, [], if goes_on : bool then Next_loop else Next_break)
    | Some (Ok _, st, src, evs) =>
        let '(w1, i1, waits, goes_on) := handle_all w c evs i [] in
        Some (if goes_on then w1 else close w1 c "connection closed by protocol",
              mkReader cap short src st, i1, waits, if goes_on then Next_loop else Next_return)
    end.

(** What the task's [select!] wakes up with. *)
Inductive Wakeup :=
| Wk_read (chunk : bytes)
| Wk_read_error
| Wk_notified
| Wk_tick.

(** One pass of [read_loop], with the close that follows the loop when it breaks
    out. *)
Definition read_step (lim : Limits) (w : World) (c : cref) (rd : Reader) (i : Interest)
    (wk : Wakeup) : option read_result :=
  let pass :=
    if is_closed w c then Some (w, rd, i, [], Next_break)
    else match wk with
         | Wk_read chunk => read_one lim w c rd i chunk
         | Wk_read_error => Some (close w c "read error", rd, i, [], Next_break)
         | Wk_notified => Some (w, rd, i, [], Next_break)
         | Wk_tick =>
             let (w1, goes_on) := tick w c in
             Some (w1, rd, i, [], if goes_on : bool then Next_loop else Next_break)
         end in
  '(w1, rd1, i1, waits, next) ← pass;
  Some (if next is Next_break then close w1 c "ended" else w1, rd1, i1, waits, next).

(** ** Lemmas *)

(** The parser's errors all close the connection. *)
Lemma pub_line_closes line rest ha hpub lim e : pub_line line rest ha hpub lim = Err e -> closes e = true.
Proof. unfold pub_line. intros H. repeat (case_match; simplify_eq; try done). Qed.

Lemma parse_line_closes line lim e : parse_line line lim = Err e -> closes e = true.
Proof.
  unfold parse_line, prefix_verb, sub_line, unsub_line, subscribe. intros H.
  destruct line as [| b0 line']; [by simplify_eq |].
  repeat case_match; simplify_eq; try done; by eapply pub_line_closes.
Qed.

Lemma feed_pass_closes st src lim out r st' src' out' e :
  feed_pass st src lim out = Return r st' src' out' -> r = Err e -> closes e = true.
Proof.
  intros H ->. destruct st as [| subject reply hdr need hpub parts]; simpl in H.
  - unfold feed_line in H. repeat (case_match; simplify_eq/=; try done). by eapply parse_line_closes.
  - unfold feed_body, body_decide, hpub_frame_error in H. destruct (body_take need parts src).
    repeat (case_match; simplify_eq/=; try done).
Qed.

Lemma feed_loop_closes fuel st src lim out r st' src' out' e :
  feed_loop fuel st src lim out = Some (r, st', src', out') -> r = Err e -> closes e = true.
Proof.
  revert st src out. induction fuel as [| fuel IH]; intros st src out H Hr; simpl in H; [done |].
  destruct (feed_pass st src lim out) eqn:Hp; [by eapply IH |]. simplify_eq. by eapply feed_pass_closes.
Qed.

(** Saying something on a connection with room. *)
Lemma say_accepts w c cn f :
  w_conns w !! c = Some cn -> conn_wf cn -> accepts cn (blen f) ->
  exists cn', w_conns (say w c f) !! c = Some cn' /\ c_closed cn' = false /\
    ch_queue (ob_chan (c_out cn')) = ch_queue (ob_chan (c_out cn)) ++ [f].
Proof.
  intros Hc Hwf (Hcl & Hrx & Hp & Hle & Hmax). unfold conn_wf in Hwf. rewrite Hcl in Hwf.
  destruct Hwf as [(a & Ha & _) _]. unfold say, conn_enqueue. rewrite Hc, Hcl. unfold enqueue. rewrite Ha.
  pose proof (push_spec (c_out cn) f Hp ltac:(lia)) as Hpush. destruct (push (c_out cn) f) as [o r].
  simpl. rewrite lookup_insert_eq. eexists. split; [done |]. split; [done |]. simpl.
  destruct r.
  1, 2: destruct Hpush as ((ch & Hs & ->) & _); simpl; by apply ch_send_queue.
  - destruct Hpush as [_ ?]. lia.
  - destruct Hpush as (_ & _ & ?). congruence.
Qed.

(** A pass adds at most one event, so a read brings at most as many as it has passes. *)
Lemma feed_pass_count st src lim out :
  match feed_pass st src lim out with
  | Return _ _ _ out' | Continue _ _ out' => length out' <= S (length out)
  end.
Proof.
  assert (forall ev, length (out ++ [ev]) = S (length out)) by (intros; rewrite length_app; simpl; lia).
  destruct st as [| subject reply hdr need hpub parts]; simpl.
  - unfold feed_line. repeat case_match; simplify_eq; rewrite ?H; lia.
  - unfold feed_body, body_decide, hpub_frame_error. destruct (body_take need parts src).
    repeat case_match; simplify_eq; rewrite ?H; lia.
Qed.

Lemma feed_loop_count fuel st src lim out r st' src' out' :
  feed_loop fuel st src lim out = Some (r, st', src', out') -> length out' <= length out + fuel.
Proof.
  revert st src out. induction fuel as [| fuel IH]; intros st src out H; simpl in H; [done |].
  pose proof (feed_pass_count st src lim out) as Hp.
  destruct (feed_pass st src lim out) as [st1 src1 out1 | r1 st1 src1 out1]; [apply IH in H | simplify_eq]; lia.
Qed.

(** Room for the counters to serve [n] more events and a close. *)
Definition room_for (w : World) (n : nat) : Prop :=
  headroom w ((Z.of_nat n + 1) * (Z.of_nat (w_next w) + Z.of_nat n + 3)).

Lemma room_for_two w n : room_for w n -> headroom w 2.
Proof. intros [? H]. split; [done |]. nia. Qed.

Lemma room_for_event w n : room_for w (S n) -> headroom w (Z.of_nat (w_next w) + 2).
Proof. intros [? H]. split; [done |]. nia. Qed.

Lemma room_for_le w m n : m <= n -> room_for w n -> room_for w m.
Proof. intros Hm [? H]. split; [done |]. nia. Qed.

Lemma room_for_later w w' n :
  room_for w (S n) -> later w w' (Z.of_nat (w_next w) + 1) -> room_for w' n.
Proof. intros [? H] (_ & [Hg _] & Hn). split; [lia |]. nia. Qed.

Lemma is_closed_finish w c reason h : is_closed (finish w c reason h) c = true.
Proof.
  unfold finish, is_closed. destruct (w_conns w !! c) as [cn |] eqn:Hc; simpl; [| by rewrite Hc].
  destruct (c_closed cn) eqn:Hcl; simpl; [by rewrite Hc |]. by rewrite lookup_insert_eq.
Qed.

Lemma extends_conn w w' c : extends w w' -> is_Some (w_conns w !! c) -> is_Some (w_conns w' !! c).
Proof. intros H [cn Hc]. destruct (extends_lookup _ _ _ _ H Hc) as (cn' & fs & Hc' & _). eauto. Qed.

Lemma cache_of_insert caches c i : cache_of (<[c := i]> caches) c = i.
Proof. unfold cache_of. by rewrite lookup_insert_eq. Qed.

(** The batch is a sequence of steps of the server. *)
Lemma handle_all_steps c evs s waits :
  srv_ok s -> is_Some (w_conns (sv_world s) !! c) -> Forall event_fits evs ->
  room_for (sv_world s) (length evs) ->
  let '(w', i', _, _) := handle_all (sv_world s) c evs (cache_of (sv_caches s) c) waits in
  exists s', rtc srv_step s s' /\ sv_world s' = w' /\ cache_of (sv_caches s') c = i' /\ headroom w' 2.
Proof.
  revert s waits. induction evs as [| ev evs IH]; intros s waits Hs Hc Hfit Hroom; simpl.
  { exists s. split_and!; [done.. | by eapply room_for_two]. }
  apply Forall_cons in Hfit as [Hev Hfit]. simpl in Hroom. destruct s as [w caches]. simpl in *.
  pose proof (handle_ok w c ev (cache_of caches c) (proj1 Hs) Hc (proj2 Hs c) (room_for_event _ _ Hroom) Hev) as Hok.
  pose proof (handle_extends w c ev (cache_of caches c)) as Hext.
  destruct (handle w c ev (cache_of caches c)) as [[[w1 i1] ws] goes_on] eqn:Hh. simpl in Hext.
  assert (Hstep : srv_step (mkSrv w caches) (mkSrv w1 (<[c := i1]> caches))).
  { eapply sv_event; [done | done | by eapply room_for_event | exact Hh]. }
  destruct Hok as [Hlater _]. pose proof (room_for_later _ _ _ Hroom Hlater) as Hroom1.
  destruct goes_on.
  - specialize (IH (mkSrv w1 (<[c := i1]> caches)) (waits ++ ws) (srv_step_ok _ _ Hstep Hs)
      (extends_conn _ _ _ Hext Hc) Hfit Hroom1).
    simpl in IH. rewrite cache_of_insert in IH.
    destruct (handle_all w1 c evs i1 (waits ++ ws)) as [[[w' i'] ws'] b].
    destruct IH as (s' & H1 & H2). exists s'. split; [by eapply rtc_l | done].
  - eexists. split; [by eapply rtc_l, rtc_refl |]. simpl. rewrite cache_of_insert.
    split_and!; [done.. | by eapply room_for_two].
Qed.

(** The most events a wakeup can bring. *)
Definition events_of (rd : Reader) (wk : Wakeup) : nat :=
  match wk with Wk_read chunk => S (length (rd_buf rd ++ chunk)) | _ => 0 end.

Lemma close_step s c reason :
  headroom (sv_world s) 2 -> srv_step s (mkSrv (close (sv_world s) c reason) (sv_caches s)).
Proof. destruct s. by apply sv_close. Qed.

Lemma close_closed w c reason : is_closed w c = true -> close w c reason = w.
Proof.
  unfold is_closed, close, finish. destruct (w_conns w !! c) as [cn |]; [| done]. simpl. by intros ->.
Qed.

Lemma tick_closes w c : (tick w c).2 = false -> is_closed (tick w c).1 c = true.
Proof. unfold tick. destruct (_ <=? _)%Z; [| done]. intros _. apply is_closed_finish. Qed.

(** A read is a sequence of steps of the server. *)
Lemma read_one_steps lim s c rd chunk :
  srv_ok s -> is_Some (w_conns (sv_world s) !! c) -> state_wf lim (rd_parser rd) ->
  room_for (sv_world s) (S (length (rd_buf rd ++ chunk))) ->
  exists w' rd' i' waits next s',
    read_one lim (sv_world s) c rd (cache_of (sv_caches s) c) chunk = Some (w', rd', i', waits, next) /\
    rtc srv_step s s' /\ sv_world s' = w' /\ cache_of (sv_caches s') c = i' /\
    state_wf lim (rd_parser rd') /\ (next <> Next_loop -> is_closed w' c = true).
Proof.
  intros Hs Hc Hwf Hroom. unfold read_one.
  pose proof (room_for_two _ _ Hroom) as Hh2. destruct (is_empty chunk).
  { do 5 eexists. eexists (mkSrv _ _). split; [done |].
    split; [by eapply rtc_once, close_step |]. split_and!; [done.. | intros _; apply is_closed_finish]. }
  destruct (resize _ _ _) as [cap short].
  destruct (feed_into_some (rd_parser rd) (rd_buf rd ++ chunk) lim []) as [[[[r st'] src'] out'] Hfeed].
  destruct (feed_into_ok _ _ _ _ _ _ _ _ Hwf Hfeed) as (Hwf' & evs & Hout & Hevs). simpl in Hout. subst out'.
  pose proof (feed_loop_count _ _ _ _ _ _ _ _ _ Hfeed) as Hcount. simpl in Hcount. rewrite Hfeed.
  destruct r as [[] | e].
  - pose proof (handle_all_steps c evs s [] Hs Hc) as H.
    destruct (handle_all _ c evs _ []) as [[[w1 i1] waits] goes_on].
    destruct H as (s1 & Hrtc & <- & <- & Hh).
    { eapply Forall_impl; [exact Hevs |]. intros ev. destruct ev; simpl; lia. }
    { by eapply room_for_le; [| exact Hroom]; lia. }
    destruct goes_on.
    + do 6 eexists. split; [done |]. by split_and!.
    + do 5 eexists. eexists (mkSrv _ _). split; [done |].
      split; [eapply rtc_r; [exact Hrtc | by apply close_step] |].
      split_and!; [done.. | intros _; apply is_closed_finish].
  - assert (Hcl : closes e = true) by (eapply feed_loop_closes; [exact Hfeed | done]).
    assert (Hstep : srv_step s (mkSrv (proto_error (sv_world s) c e).1 (sv_caches s))).
    { destruct s. by apply sv_error. }
    unfold proto_error in *. rewrite Hcl in *. do 6 eexists. split; [done |].
    split; [by apply rtc_once |]. split_and!; [done.. | intros _; apply is_closed_finish].
Qed.

(** A read that brings the text of commands. *)
Lemma read_one_cmds lim w c rd i cs :
  rd_parser rd = Line -> rd_buf rd = [] -> cs <> [] -> Forall (cmd_ok lim) cs ->
  let '(w1, i1, waits, goes_on) := handle_all w c (concat (map cmd_events cs)) i [] in
  exists rd',
    read_one lim w c rd i (concat (map encode cs)) =
      Some (if goes_on then w1 else close w1 c "connection closed by protocol", rd', i1, waits,
            if goes_on then Next_loop else Next_return) /\
    rd_parser rd' = Line /\ rd_buf rd' = [].
Proof.
  intros Hst Hbuf Hne Hcs. unfold read_one.
  destruct (is_empty (concat (map encode cs))) eqn:He.
  { exfalso. destruct cs as [| cmd cs]; [done |]. simpl in He. unfold encode in He.
    destruct (cmd_line cmd); done. }
  destruct (resize _ _ _) as [cap short]. rewrite Hst, Hbuf. simpl app. rewrite feed_into_cmds by done. simpl app.
  destruct (handle_all w c (concat (map cmd_events cs)) i []) as [[[w1 i1] waits] goes_on]. eauto.
Qed.

(** ** Properties *)

(** A pass of the read loop, apart from its waits.  Whatever wakes the task, and
    whatever bytes the client sent, the pass is a sequence of steps of the server and
    leaves the parser ready for the next read; and the task ends only with its
    connection closed.  The connections a publish of the batch has to wait for are listed in
    [waits]; ReadTask has the waits as steps of their own. *)
Lemma read_pass_refines_server lim s c rd wk :
  srv_ok s -> is_Some (w_conns (sv_world s) !! c) -> state_wf lim (rd_parser rd) ->
  room_for (sv_world s) (S (events_of rd wk)) ->
  exists w' rd' i' waits next s',
    read_step lim (sv_world s) c rd (cache_of (sv_caches s) c) wk = Some (w', rd', i', waits, next) /\
    rtc srv_step s s' /\ srv_ok s' /\ sv_world s' = w' /\ cache_of (sv_caches s') c = i' /\
    state_wf lim (rd_parser rd') /\ (next <> Next_loop -> is_closed w' c = true).
Proof.
  intros Hs Hc Hwf Hroom. pose proof (room_for_two _ _ Hroom) as Hh2.
  assert (Hdone : forall r, exists s', rtc srv_step s s' /\ srv_ok s' /\
    sv_world s' = close (sv_world s) c r /\ cache_of (sv_caches s') c = cache_of (sv_caches s) c).
  { intros r. pose proof (close_step s c r Hh2) as Hstep. eexists. split; [by apply rtc_once |].
    split; [by eapply srv_step_ok | done]. }
  unfold read_step. destruct (is_closed (sv_world s) c) eqn:Hcl; simpl.
  { do 5 eexists. exists s. split; [done |]. rewrite close_closed by done. by split_and!. }
  destruct wk as [chunk | | |]; simpl in Hroom.
  - destruct (read_one_steps lim s c rd chunk) as (w' & rd' & i' & waits & next & s' & H1 & H2 & H3 & H4 & H5 & H6);
      [done.. | by eapply room_for_le; [| exact Hroom]; lia |].
    rewrite H1. simpl. do 5 eexists. exists s'. split; [done |].
    replace (if next is Next_break then close w' c "ended" else w') with w'
      by (destruct next; [done | symmetry; by apply close_closed, H6 | done]).
    split_and!; [done | by eapply srv_steps_ok | done..].
  - destruct (Hdone "read error"%string) as (s' & H1 & H2 & H3 & H4).
    do 5 eexists. exists s'. simpl. split; [done |].
    rewrite close_closed by apply is_closed_finish.
    split_and!; [done.. | intros _; apply is_closed_finish].
  - destruct (Hdone "ended"%string) as (s' & H1 & H2 & H3 & H4).
    do 5 eexists. exists s'. split; [done |]. split_and!; [done.. | intros _; apply is_closed_finish].
  - pose proof (tick_closes (sv_world s) c) as Ht.
    assert (Hstep : srv_step s (mkSrv (tick (sv_world s) c).1 (sv_caches s))) by (destruct s; by apply sv_tick).
    destruct (tick (sv_world s) c) as [w1 goes_on]. simpl in *.
    do 5 eexists. eexists (mkSrv w1 _). split; [done |].
    replace (if (if goes_on then Next_loop else Next_break) is Next_break then close w1 c "ended" else w1) with w1
      by (destruct goes_on; [done | symmetry; by apply close_closed, Ht]).
    split_and!; [by apply rtc_once | by eapply srv_step_ok | done.. | destruct goes_on; [by intros [] | intros _; by apply Ht]].
Qed.

(** C15: a segment of legal commands is carried out in order.  When a read brings the
    text of any sequence of legal commands, the read loop does exactly what handling
    the commands' events one after the other does, and is left between commands with
    nothing unread. *)
Theorem read_segment_in_order lim w c rd i cs :
  rd_parser rd = Line -> rd_buf rd = [] -> cs <> [] -> Forall (cmd_ok lim) cs ->
  let '(w1, i1, waits, goes_on) := handle_all w c (concat (map cmd_events cs)) i [] in
  exists rd',
    read_one lim w c rd i (concat (map encode cs)) =
      Some (if goes_on then w1 else close w1 c "connection closed by protocol", rd', i1, waits,
            if goes_on then Next_loop else Next_return) /\
    rd_parser rd' = Line /\ rd_buf rd' = [].
Proof. apply read_one_cmds. Qed.

(** C23: a parse error ends the connection, and nothing of its batch is carried out.
    Whatever bytes cause it, the error's line (if its class has one, on an outbox with
    room for it) is the last thing queued for the client, and the connection is closed with its
    subscriptions unregistered; the events that were parsed before the error are
    dropped with it. *)
Theorem parse_error_closes lim w c cn rd i chunk e st src evs :
  world_ok w -> headroom w 2 -> w_conns w !! c = Some cn ->
  accepts cn (blen (from_option (fun t => frame_err t) [] (err_line e))) ->
  chunk <> [] -> feed_into (rd_parser rd) (rd_buf rd ++ chunk) lim [] = Some (Err e, st, src, evs) ->
  exists w' rd' cn',
    read_one lim w c rd i chunk = Some (w', rd', i, [], Next_break) /\
    w_conns w' !! c = Some cn' /\ c_closed cn' = true /\ c_subs cn' = ∅ /\
    (forall t, t ∈ registered w' <-> t ∈ registered w /\ conn t <> c) /\
    ch_queue (ob_chan (c_out cn')) =
      ch_queue (ob_chan (c_out cn)) ++ from_option (fun t => [frame_err t]) [] (err_line e).
Proof.
  intros Hok Hh Hc Hacc Hne Hfeed.
  assert (Hcl : closes e = true) by (eapply feed_loop_closes; [exact Hfeed | done]).
  pose proof Hok as [Hw _]. pose proof Hh as [H0 H1]. unfold usize_max in H1.
  assert (Hwf : conn_wf cn) by (by apply Hw in Hc as [? _]).
  set (w1 := from_option (fun text => say w c (frame_err text)) w (err_line e)).
  assert (Hw1 : world_ok w1 /\ registered w1 = registered w /\ w_next w1 = w_next w /\
    exists cn1, w_conns w1 !! c = Some cn1 /\ c_closed cn1 = false /\
      ch_queue (ob_chan (c_out cn1)) =
        ch_queue (ob_chan (c_out cn)) ++ from_option (fun t => [frame_err t]) [] (err_line e)).
  { unfold w1. destruct (err_line e) as [text |]; simpl in *.
    - destruct (say_same w c (frame_err text)) as (Hr & _ & Hn & _). unfold registered. rewrite Hr, Hn.
      split_and!; [by apply say_ok | done | done |]. by apply say_accepts.
    - split_and!; [done | done | done |]. exists cn. destruct Hacc as [? _]. by rewrite app_nil_r. }
  destruct Hw1 as (Hok1 & Hreg1 & Hn1 & cn1 & Hc1 & Hcl1 & Hq1).
  unfold read_one. destruct chunk as [| b chunk]; [done |]. cbn [is_empty].
  destruct (resize _ _ _) as [cap short]. rewrite Hfeed. unfold proto_error. fold w1. rewrite Hcl.
  eexists _, _, (finished cn1 "protocol error" false). split; [done |].
  unfold close, finish. rewrite Hc1, Hcl1. split_and!; [apply lookup_insert_eq | done | done | | done].
  intros t. rewrite <- Hreg1. apply (remove_conn_world w1 c (proj1 Hok1)). lia.
Qed.

End ReadLoop.

(** The read buffer stays between 16 and 64 KiB, whatever sizes the reads have:
    it grows only on a full read, and shrinks only after more than
    [SHORTS_TO_SHRINK] short ones. *)
Lemma read_buffer_bounds ns :
  let '(cap, short) := foldl (fun cs n => resize cs.1 cs.2 n) (START_READ_BUF, 0%Z) ns in
  (cap = 16 * 1024 \/ cap = 32 * 1024 \/ cap = 64 * 1024)%Z /\ (0 <= short < 2 ^ 32)%Z.
Proof.
  assert (Hgen : forall cs : Z * Z,
    (cs.1 = 16 * 1024 \/ cs.1 = 32 * 1024 \/ cs.1 = 64 * 1024)%Z /\ (0 <= cs.2 < 2 ^ 32)%Z ->
    let '(cap, short) := foldl (fun cs n => resize cs.1 cs.2 n) cs ns in
    (cap = 16 * 1024 \/ cap = 32 * 1024 \/ cap = 64 * 1024)%Z /\ (0 <= short < 2 ^ 32)%Z).
  { induction ns as [| n ns IH]; intros [cap short] H; simpl in *; [done |]. apply IH.
    unfold resize, MAX_READ_BUF, START_READ_BUF, SHORTS_TO_SHRINK.
    pose proof (Z.mod_pos_bound (short + 1) (2 ^ 32) ltac:(lia)).
    destruct H as [Hcap Hs].
    destruct (cap <=? n)%Z; simpl; [split; [| lia]; destruct Hcap as [-> | [-> | ->]]; vm_compute; auto |].
    destruct (n <? cap / 2)%Z; simpl; [| done].
    destruct (_ >? 2)%Z; simpl; [| split; [done | lia]].
    destruct (cap >? 16 * 1024)%Z eqn:E; simpl; bool_to_prop; [| split; [done | lia]].
    split; [| lia]. destruct Hcap as [-> | [-> | ->]]; [lia | vm_compute; auto | vm_compute; auto]. }
  apply Hgen. split; [by left | done].
Qed.

(** The first keepalive probe comes after the shorter of two seconds and the
    configured interval, and at most a fifth of it (or one millisecond) later. *)
Lemma keepalive_first_bounds r interval :
  (0 <= interval)%Z ->
  let cap := Z.min FIRST_PING_INTERVAL interval in
  (cap <= keepalive_first r interval < cap + Z.max (cap / 5) NANOS_PER_MILLI)%Z.
Proof.
  intros Hi cap. unfold keepalive_first. fold cap.
  assert (Hcap : (0 <= cap)%Z) by (unfold cap, FIRST_PING_INTERVAL, NANOS_PER_MILLI; lia).
  set (bound := Z.max (cap / NANOS_PER_MILLI / 5) 1).
  assert (Hb : (0 <= (below r bound).2 < bound)%Z).
  { unfold below. rewrite (proj2 (Z.eqb_neq _ _)) by lia. destruct (next_u64 r) as [r' n].
    apply Z.mod_pos_bound. lia. }
  assert (Hmul : (bound * NANOS_PER_MILLI <= Z.max (cap / 5) NANOS_PER_MILLI)%Z).
  { unfold bound, NANOS_PER_MILLI. rewrite Z.div_div by lia.
    pose proof (Z.div_pos cap 5 Hcap ltac:(lia)). pose proof (Z.mul_div_le cap (1000000 * 5) ltac:(lia)).
    pose proof (Z.div_le_lower_bound cap 5 (cap / (1000000 * 5) * 1000000) ltac:(lia) ltac:(lia)). lia. }
  unfold NANOS_PER_MILLI in *. nia.
Qed.

Lemma keepalive_first_bounds_witness :
  let cap := Z.min FIRST_PING_INTERVAL (120 * 1000 * NANOS_PER_MILLI) in
  (cap <= keepalive_first (mkRng 7) (120 * 1000 * NANOS_PER_MILLI)
     < cap + Z.max (cap / 5) NANOS_PER_MILLI)%Z.
Proof. apply (keepalive_first_bounds (mkRng 7)). vm_compute. done. Defined.
