(* ===== verification/WriteLoop.v ===== *)
(** * The writer task on the server's state (crates/server/src/client.rs, [write_loop])

    [write_loop] whole: waiting for frames, collecting a batch, writing it, and every
    way the task ends, as steps on the state the readers share; the server with
    these tasks refines the transition system of Server.v, in which a writer may do
    anything to its own outbox.  Also the end of [spawn], which runs after the
    connection's reader has returned. *)

From Stdlib Require Import String Strings.Byte.
From stdpp Require Import relations.
From S2P Require Import Prelude Subjects Proto ProtoFeed Nuid Frames External Arena Outbox Writer Options Registry Interest QueueGroups Conn Route Client Server Order ReadLoop.

Section WriteLoop.

Context `{BML : BytesMutLaws} `{CHL : ChannelLaws} {J : SerdeJsonLib}.

(** ** Definitions *)

(** Where the task is: before [take_rx]; at the head of the loop; awaiting the first
    [select!]; at the head of [while batch_bytes > 0]; before the second [select!];
    awaiting it; returned.  A [select!] makes its [notified] future when it is
    entered; [seen] is the number of wake-ups at that moment. *)
Inductive WrPhase :=
| Wr_start
| Wr_top
| Wr_recv (seen : nat)
| Wr_check
| Wr_arm
| Wr_await (seen : nat)
| Wr_ended.

(** The task: its locals, and the bytes its socket has taken. *)
Record WriteTask := mkWriteTask { wt_phase : WrPhase; wt_w : Writer; wt_wire : bytes }.

Definition task_new : WriteTask := mkWriteTask Wr_start writer_new [].

(** What lets the task go on: it runs (which includes receiving), it is woken, the
    kernel answers its write, or the deadline passes. *)
Inductive WrEvent :=
| On_run
| On_wake
| On_kernel (r : IoResult)
| On_deadline.

Definition put_out (w : World) (c : cref) (cn : Conn) (o : Outbox) : World := set_conn w c (set_out cn o).

(** The task returns: it closes the connection, if it does, and its receiver goes. *)
Definition drop_rx (w : World) (c : cref) : World :=
  upd_conn w c (fun cn => set_out cn (set_chan (c_out cn) (ch_drop_rx (ob_chan (c_out cn))))).

Definition end_task (w : World) (c : cref) (closes : option (bool * string)) : World :=
  drop_rx (from_option (fun '(hard, reason) => finish w c reason hard) w closes) c.

Definition go_to (t : WriteTask) (p : WrPhase) : WriteTask := mkWriteTask p (wt_w t) (wt_wire t).

(** [while batch_bytes > 0], and [parts.clear()] behind it. *)
Definition while_head (wr : Writer) (wire : bytes) : WriteTask :=
  if (0 <? batch_bytes wr)%Z then mkWriteTask Wr_check wr wire
  else mkWriteTask Wr_top (batch_done wr) wire.

(** Behind the first [select!]: [if parts.is_empty() { continue; }]. *)
Definition after_recv (wr : Writer) (wire : bytes) : WriteTask :=
  if is_empty (parts wr) then mkWriteTask Wr_top wr wire else while_head wr wire.

(** The second [select!] and the match on its outcome. *)
Definition attempt_step (w : World) (c : cref) (cn : Conn) (t : WriteTask) (a : Attempt) : World * WriteTask :=
  let '(o, wr, wrote, next) := attempt false false (c_hard cn) (c_out cn) (wt_w t) a in
  let wire := wt_wire t ++ wrote in
  match next with
  | Goes_on => (put_out w c cn o, while_head wr wire)
  | Ends closes => (end_task (put_out w c cn o) c closes, mkWriteTask Wr_ended wr wire)
  end.

(** One step of the task; [None] when it is waiting for something else. *)
Definition write_step (w : World) (c : cref) (t : WriteTask) (e : WrEvent) : option (World * WriteTask) :=
  cn ← w_conns w !! c;
  let o := c_out cn in
  let wr := wt_w t in
  match wt_phase t, e with
  | Wr_start, On_run =>
      let (o', had) := take_rx o in
      Some (put_out w c cn o', go_to t (if had : bool then Wr_top else Wr_ended))
  | Wr_top, On_run =>
      Some (w, if is_empty (parts wr) then go_to t (Wr_recv (c_wakes cn)) else while_head wr (wt_wire t))
  | Wr_recv _, On_run =>
      match collect o wr, ob_tx o with
      | Some (o', wr'), _ => Some (put_out w c cn o', after_recv wr' (wt_wire t))
      | None, None => Some (end_task w c (Some (false, "written"%string)), go_to t Wr_ended)
      | None, Some _ => None
      end
  | Wr_recv seen, On_wake =>
      if (seen <? c_wakes cn)%nat then
        if c_hard cn then Some (end_task w c None, go_to t Wr_ended)
        else Some (w, after_recv wr (wt_wire t))
      else None
  | Wr_check, On_run =>
      if c_closed cn && c_hard cn
      then Some (end_task (put_out w c cn (drained o (batch_bytes wr))) c None, go_to t Wr_ended)
      else Some (w, go_to t Wr_arm)
  | Wr_arm, On_run => Some (w, go_to t (Wr_await (c_wakes cn)))
  | Wr_await _, On_kernel r => Some (attempt_step w c cn t (Kernel r))
  | Wr_await _, On_deadline => Some (attempt_step w c cn t Deadline)
  | Wr_await seen, On_wake =>
      if (seen <? c_wakes cn)%nat then Some (attempt_step w c cn t Woken) else None
  | _, _ => None
  end.

(** The end of [spawn], after [read_loop]: the sender is dropped; [late] says that
    the writer did not end within ten seconds. *)
Definition spawn_end (w : World) (c : cref) (late : bool) : World :=
  let w1 := upd_conn w c (fun cn => set_out cn (set_tx (c_out cn) None)) in
  if late then close_now w1 c "write deadline" else w1.

(** The server with its writer tasks. *)
Record Full := mkFull { fu_srv : Srv; fu_tasks : gmap cref WriteTask }.

Definition full_init (seed : Z) : Full := mkFull (srv_init seed) ∅.

(** A reader's step: the steps of Server.v that are neither a spawn nor a write. *)
Inductive reader_step : Srv -> Srv -> Prop :=
| rd_event w caches c ev w' i' waits goes_on :
    is_Some (w_conns w !! c) -> event_fits ev -> headroom w (Z.of_nat (w_next w) + 2) ->
    handle w c ev (cache_of caches c) = (w', i', waits, goes_on) ->
    reader_step (mkSrv w caches) (mkSrv w' (<[c := i']> caches))
| rd_tick w caches c :
    headroom w 2 -> reader_step (mkSrv w caches) (mkSrv (tick w c).1 caches)
| rd_error w caches c e :
    headroom w 2 -> reader_step (mkSrv w caches) (mkSrv (proto_error w c e).1 caches)
| rd_close w caches c reason hard :
    headroom w 2 -> reader_step (mkSrv w caches) (mkSrv (finish w c reason hard) caches).

(** One step of one task; [may] says what can happen to a writer.  The end of [spawn]
    comes when [read_loop] has returned, with the connection closed. *)
Inductive full_step_by (may : cref -> WriteTask -> WrEvent -> Prop) : Full -> Full -> Prop :=
| fs_spawn w caches tasks c cid max_pending line :
    w_conns w !! c = None ->
    full_step_by may (mkFull (mkSrv w caches) tasks)
      (mkFull (mkSrv (spawn_conn w c cid max_pending line).1 (<[c := interest_new]> caches))
              (<[c := task_new]> tasks))
| fs_read s s' tasks : reader_step s s' -> full_step_by may (mkFull s tasks) (mkFull s' tasks)
| fs_write w caches tasks c t e w' t' :
    tasks !! c = Some t -> may c t e -> headroom w 2 -> write_step w c t e = Some (w', t') ->
    full_step_by may (mkFull (mkSrv w caches) tasks) (mkFull (mkSrv w' caches) (<[c := t']> tasks))
| fs_end w caches tasks c late :
    is_closed w c = true ->
    full_step_by may (mkFull (mkSrv w caches) tasks) (mkFull (mkSrv (spawn_end w c late) caches) tasks).

Definition full_step : Full -> Full -> Prop := full_step_by (fun _ _ _ => True).

Lemma full_step_by_full may f f' : full_step_by may f f' -> full_step f f'.
Proof. intros []; [by apply fs_spawn | by apply fs_read | by eapply fs_write | by apply fs_end]. Qed.

(** ** Every step is a sequence of server steps *)

Lemma reader_step_srv s s' : reader_step s s' -> srv_step s s'.
Proof. intros []; [by eapply sv_event | by apply sv_tick | by apply sv_error | by apply sv_close]. Qed.

Lemma put_same w c cn : w_conns w !! c = Some cn -> put_out w c cn (c_out cn) = w.
Proof.
  intros Hc. unfold put_out, set_conn. replace (set_out cn (c_out cn)) with cn by (by destruct cn).
  rewrite insert_id by done. by destruct w.
Qed.

Lemma drop_rx_srv w c caches : rtc srv_step (mkSrv w caches) (mkSrv (drop_rx w c) caches).
Proof.
  unfold drop_rx, upd_conn. destruct (w_conns w !! c) as [cn |] eqn:Hc; [| done].
  apply rtc_once. eapply sv_write; [done | constructor].
Qed.

Lemma end_task_srv w c closes caches :
  headroom w 2 -> rtc srv_step (mkSrv w caches) (mkSrv (end_task w c closes) caches).
Proof.
  intros Hh. unfold end_task. destruct closes as [[h reason] |]; simpl; [| apply drop_rx_srv].
  eapply rtc_l; [by apply (sv_close w caches c reason h) | apply drop_rx_srv].
Qed.

Lemma put_srv w c cn o caches :
  w_conns w !! c = Some cn -> writer_effect (c_out cn) o ->
  rtc srv_step (mkSrv w caches) (mkSrv (put_out w c cn o) caches).
Proof. intros Hc Ho. apply rtc_once. by apply sv_write. Qed.

(** An attempt gives bytes back, or leaves the outbox as it is. *)
Lemma attempt_out cl h hw o wr a o' wr' wrote next :
  attempt cl h hw o wr a = (o', wr', wrote, next) -> o' = o \/ exists n, o' = drained o n.
Proof.
  unfold attempt. destruct (cl && h); [intros; simplify_eq; eauto |].
  destruct a as [r | |]; [| intros; simplify_eq; eauto | destruct hw; intros; simplify_eq; eauto].
  destruct (write_batch _ r) as [[n | []] ps]; [destruct n |..]; intros; simplify_eq; eauto.
Qed.

Lemma put_attempt_srv w c cn o caches :
  w_conns w !! c = Some cn -> o = c_out cn \/ (exists n, o = drained (c_out cn) n) ->
  rtc srv_step (mkSrv w caches) (mkSrv (put_out w c cn o) caches).
Proof.
  intros Hc [-> | [n ->]]; [by rewrite put_same | apply put_srv; [done | constructor]].
Qed.

Lemma attempt_step_srv w c cn t a caches :
  w_conns w !! c = Some cn -> headroom w 2 ->
  rtc srv_step (mkSrv w caches) (mkSrv (attempt_step w c cn t a).1 caches).
Proof.
  intros Hc Hh. unfold attempt_step.
  destruct (attempt _ _ _ _ _ a) as [[[o wr] wrote] next] eqn:Ha. apply attempt_out in Ha.
  destruct next; simpl; [by apply put_attempt_srv |].
  etrans; [by apply put_attempt_srv | by apply end_task_srv].
Qed.

Lemma write_step_srv w c t e w' t' caches :
  write_step w c t e = Some (w', t') -> headroom w 2 ->
  rtc srv_step (mkSrv w caches) (mkSrv w' caches).
Proof.
  intros H Hh. unfold write_step in H. destruct (w_conns w !! c) as [cn |] eqn:Hc; [| done]. simpl in H.
  pose proof (attempt_step_srv w c cn t) as Hat.
  destruct (wt_phase t) as [| | seen | | | seen |], e as [| | r |]; try done.
  - simplify_eq. apply put_srv; [done | apply (we_take (c_out cn))].
  - by simplify_eq.
  - destruct (collect (c_out cn) (wt_w t)) as [[o wr] |] eqn:Hcol.
    + simplify_eq. apply put_srv; [done | by econstructor].
    + destruct (ob_tx (c_out cn)); [done |]. simplify_eq. by apply end_task_srv.
  - destruct (seen <? _)%nat; [| done]. destruct (c_hard cn); simplify_eq; [by apply end_task_srv | done].
  - destruct (_ && _); simplify_eq; [| done].
    etrans; [apply put_srv; [done | constructor] | by apply end_task_srv].
  - by simplify_eq.
  - destruct (seen <? _)%nat; [| done]. specialize (Hat Woken caches Hc Hh).
    destruct (attempt_step w c cn t Woken). by simplify_eq.
  - specialize (Hat (Kernel r) caches Hc Hh). destruct (attempt_step _ _ _ _ _). by simplify_eq.
  - specialize (Hat Deadline caches Hc Hh). destruct (attempt_step _ _ _ _ _). by simplify_eq.
Qed.

Lemma spawn_end_closed w c late :
  (forall cn, w_conns w !! c = Some cn -> conn_wf cn) -> is_closed w c = true -> spawn_end w c late = w.
Proof.
  intros Hwf Hcl. unfold spawn_end, upd_conn, is_closed in *. destruct (w_conns w !! c) as [cn |] eqn:Hc.
  - simpl in Hcl. specialize (Hwf cn eq_refl). unfold conn_wf in Hwf. rewrite Hcl in Hwf. destruct Hwf as [Ht _].
    assert (E : set_out cn (set_tx (c_out cn) None) = cn).
    { rewrite <- Ht. destruct cn as [? []]. done. }
    rewrite E. unfold set_conn. rewrite insert_id by done. destruct late; [| by destruct w].
    unfold close_now, finish. simpl. rewrite Hc, Hcl. by destruct w.
  - destruct late; [| done]. unfold close_now, finish. by rewrite Hc.
Qed.

Lemma spawn_end_srv w caches c late :
  srv_ok (mkSrv w caches) -> is_closed w c = true -> spawn_end w c late = w.
Proof.
  intros [[(_ & Hcs & _) _] _] Hcl. apply spawn_end_closed; [| done]. intros cn Hc. by apply Hcs in Hc as [? _].
Qed.

Lemma full_step_srv f f' : srv_ok (fu_srv f) -> full_step f f' -> rtc srv_step (fu_srv f) (fu_srv f').
Proof.
  intros Hs Hstep. destruct Hstep as [| | | w caches tasks c late Hcl]; simpl in *;
    [by apply rtc_once, sv_spawn | by apply rtc_once, reader_step_srv | by eapply write_step_srv |].
  by rewrite (spawn_end_srv w caches c late Hs Hcl).
Qed.

(** ** The invariant of a writer task *)

(** With the connection it writes for: the receiver is there until the task takes
    it, a task that has ended leaves a closed connection, only a closed connection is
    closed hard, and while the outbox is in use its counter is what is queued plus
    what the task still has to write. *)
Definition task_ok (cn : Conn) (t : WriteTask) : Prop :=
  in_u64 (pending (c_out cn)) /\
  (c_hard cn = true -> c_closed cn = true) /\
  (wt_phase t = Wr_start -> ob_rx (c_out cn) = true) /\
  (wt_phase t = Wr_ended -> c_closed cn = true) /\
  (gone (c_out cn) = false ->
     pending (c_out cn) = wrap64 (queue_bytes (c_out cn) + batch_bytes (wt_w t))).

Lemma carries_task_ok cn fs cn' t : carries cn fs cn' -> task_ok cn t -> task_ok cn' t.
Proof.
  intros (Hq & Hx & Hc & Hh & _ & Hu & Hp) (T1 & T2 & T3 & T4 & T5). split_and!; [auto | | | auto |].
  - intros [H | H]%Hh; auto.
  - rewrite Hx. auto.
  - intros [Hg E]%Hp. rewrite <- (wrap64_small (pending (c_out cn'))) by auto. rewrite E, (T5 Hg), wrap64_add_l.
    unfold queue_bytes, conn_queue in *. rewrite Hq, concat_app, blen_app. f_equal. lia.
Qed.

Lemma reader_step_extends s s' : reader_step s s' -> extends (sv_world s) (sv_world s').
Proof.
  intros [w caches c ev w' i' waits b _ _ _ He | | |]; simpl.
  - pose proof (handle_extends w c ev (cache_of caches c)) as H. by rewrite He in H.
  - apply tick_extends.
  - apply proto_error_extends.
  - apply finish_extends.
Qed.

(** The same accounting from collecting a batch and from giving bytes back. *)
Lemma collect_more_counts fuel ch wr ch' wr' :
  collect_more fuel ch wr = (ch', wr') ->
  (blen (concat (ch_queue ch')) + batch_bytes wr' = blen (concat (ch_queue ch)) + batch_bytes wr)%Z.
Proof.
  revert ch wr. induction fuel as [| fuel IH]; intros ch wr H; simpl in H; [by simplify_eq |].
  destruct (ch_try_recv ch) as [[f ch1] |] eqn:Hr; [| by simplify_eq].
  apply ch_recv_some in Hr. rewrite Hr. simpl. rewrite blen_app.
  destruct (_ || _); [simplify_eq | apply IH in H]; simpl in *; lia.
Qed.

Lemma collect_counts o wr o' wr' :
  collect o wr = Some (o', wr') ->
  (queue_bytes o' + batch_bytes wr' = queue_bytes o + batch_bytes wr)%Z /\
  pending o' = pending o /\ gone o' = gone o.
Proof.
  unfold collect. destruct (ch_try_recv (ob_chan o)) as [[f ch] |] eqn:Hr; [| done].
  destruct (collect_more _ ch _) as [ch' wr1] eqn:Hm. intros. simplify_eq.
  apply collect_more_counts in Hm. apply ch_recv_some in Hr. split_and!; [| done | done].
  unfold queue_bytes. rewrite Hr. simpl in *. rewrite blen_app. lia.
Qed.

Lemma drained_counts o n :
  (in_u64 (pending o) -> in_u64 (pending (drained o n))) /\
  (gone o = false -> pending (drained o n) = wrap64 (pending o - n)).
Proof.
  unfold drained. destruct (gone o); [done |]. destruct (_ && _); simpl; auto with nats.
Qed.

(** What an attempt takes from the batch it gives back to the outbox, unless it ends. *)
Lemma attempt_counts h o wr a o' wr' wrote :
  attempt false false h o wr a = (o', wr', wrote, Goes_on) ->
  exists n, batch_bytes wr' = (batch_bytes wr - n)%Z /\ (o' = o /\ n = 0%Z \/ o' = drained o n).
Proof.
  unfold attempt. simpl. destruct a as [r | |]; [| done | destruct h; [done |]; intros; simplify_eq; exists 0%Z].
  - destruct (write_batch _ r) as [[n | []] ps]; [destruct n |..]; intros; simplify_eq; simpl; eauto.
    exists 0%Z. rewrite Z.sub_0_r. auto.
  - simpl. rewrite Z.sub_0_r. auto.
Qed.

(** A connection on which the task acts: [task_ok], and what is closed is gone. *)
Definition conn_ok (cn : Conn) : Prop :=
  in_u64 (pending (c_out cn)) /\ (c_hard cn = true -> c_closed cn = true) /\
  (c_closed cn = true -> gone (c_out cn) = true).

Lemma end_task_ok w c cn closes :
  w_conns w !! c = Some cn -> conn_ok cn -> (closes = None -> c_closed cn = true) ->
  exists cn', w_conns (end_task w c closes) !! c = Some cn' /\
    forall wr wire, task_ok cn' (mkWriteTask Wr_ended wr wire).
Proof.
  intros Hc (Hu & Hh & Hg) Hcl. unfold end_task, drop_rx, upd_conn.
  assert (H : exists cn1, w_conns (from_option (fun '(h, reason) => finish w c reason h) w closes) !! c = Some cn1 /\
    in_u64 (pending (c_out cn1)) /\ c_closed cn1 = true /\ gone (c_out cn1) = true).
  { destruct closes as [[h reason] |]; simpl; [| exists cn; auto 8]. unfold finish. rewrite Hc.
    destruct (c_closed cn) eqn:E; [exists cn; auto 8 |]. simpl. rewrite lookup_insert_eq.
    eexists. split; [done |]. by split_and!. }
  destruct H as (cn1 & -> & H1 & H2 & H3). simpl. rewrite lookup_insert_eq.
  eexists. split; [done |]. intros wr wire. split_and!; simpl; auto; congruence.
Qed.

Lemma put_lookup w c cn o : w_conns (put_out w c cn o) !! c = Some (set_out cn o).
Proof. apply lookup_insert_eq. Qed.

Lemma go_on_ok cn t o wr wire p :
  task_ok cn t -> in_u64 (pending o) -> gone o = gone (c_out cn) ->
  (gone o = false -> pending o = wrap64 (queue_bytes o + batch_bytes wr)) ->
  p <> Wr_start -> p <> Wr_ended -> task_ok (set_out cn o) (mkWriteTask p wr wire).
Proof. intros (T1 & T2 & T3 & T4 & T5) Hu Hg Hp H1 H2. by split_and!. Qed.

Lemma while_head_ok cn t o wr wire :
  task_ok cn t -> in_u64 (pending o) -> gone o = gone (c_out cn) ->
  (gone o = false -> pending o = wrap64 (queue_bytes o + batch_bytes wr)) ->
  task_ok (set_out cn o) (while_head wr wire).
Proof. intros. unfold while_head. destruct (_ <? _)%Z; by eapply go_on_ok. Qed.

Lemma after_recv_ok cn t o wr wire :
  task_ok cn t -> in_u64 (pending o) -> gone o = gone (c_out cn) ->
  (gone o = false -> pending o = wrap64 (queue_bytes o + batch_bytes wr)) ->
  task_ok (set_out cn o) (after_recv wr wire).
Proof. intros. unfold after_recv. destruct (is_empty _); [by eapply go_on_ok | by eapply while_head_ok]. Qed.

Lemma set_out_same cn : set_out cn (c_out cn) = cn.
Proof. by destruct cn. Qed.

Lemma attempt_step_ok w c cn t a :
  w_conns w !! c = Some cn -> conn_ok cn -> task_ok cn t ->
  exists cn', w_conns (attempt_step w c cn t a).1 !! c = Some cn' /\ task_ok cn' (attempt_step w c cn t a).2.
Proof.
  intros Hc (Hu & Hh & Hg) Ht. pose proof Ht as (T1 & T2 & T3 & T4 & T5). unfold attempt_step.
  destruct (attempt _ _ _ _ _ a) as [[[o wr] wrote] next] eqn:Ha. pose proof (attempt_out _ _ _ _ _ _ _ _ _ _ Ha) as Ho.
  assert (Hout : in_u64 (pending o) /\ gone o = gone (c_out cn) /\ queue_bytes o = queue_bytes (c_out cn)).
  { destruct Ho as [-> | [n ->]]; [done |]. destruct (drained_same (c_out cn) n) as (? & _ & _ & Hch & _).
    unfold queue_bytes. rewrite Hch. split_and!; [by apply drained_counts | done | done]. }
  destruct Hout as (O1 & O2 & O3). destruct next as [| closes]; simpl.
  - eexists. split; [apply put_lookup |]. eapply while_head_ok; [done | done | done |].
    rewrite O2. intros H. destruct (attempt_counts _ _ _ _ _ _ _ Ha) as (n & -> & [[-> ->] | ->]).
    + rewrite Z.sub_0_r. auto.
    + rewrite (proj2 (drained_counts _ n) H), (T5 H), wrap64_sub_l, O3. f_equal. lia.
  - destruct (end_task_ok (put_out w c cn o) c (set_out cn o) closes) as (cn' & H1 & H2);
      [apply put_lookup | split_and!; simpl; [done | done | by rewrite O2] | | eauto].
    intros ->. simpl. apply Hh. clear -Ha. unfold attempt in Ha. simpl in Ha.
    destruct a as [r | |]; [| by simplify_eq | destruct (c_hard cn); by simplify_eq].
    destruct (write_batch _ r) as [[n | []] ps]; [destruct n |..]; by simplify_eq.
Qed.

Lemma write_step_ok w c t e w' t' cn :
  write_step w c t e = Some (w', t') -> w_conns w !! c = Some cn -> conn_ok cn -> task_ok cn t ->
  exists cn', w_conns w' !! c = Some cn' /\ task_ok cn' t'.
Proof.
  intros H Hc Hok Ht. unfold write_step in H. rewrite Hc in H. simpl in H.
  pose proof Ht as (T1 & T2 & T3 & T4 & T5). pose proof Hok as (Hu & Hh & Hg).
  assert (Hgo : forall wr wire, batch_bytes wr = batch_bytes (wt_w t) ->
    task_ok cn (after_recv wr wire) /\ task_ok cn (while_head wr wire) /\
    forall p, p <> Wr_start -> p <> Wr_ended -> task_ok cn (mkWriteTask p wr wire)).
  { intros wr wire E. rewrite <- E in T5. pose proof (after_recv_ok cn t (c_out cn) wr wire) as H1.
    pose proof (while_head_ok cn t (c_out cn) wr wire) as H2.
    pose proof (go_on_ok cn t (c_out cn) wr wire) as H3. rewrite set_out_same in *. auto. }
  assert (Hend : forall w1 cn1 cl, w_conns w1 !! c = Some cn1 -> conn_ok cn1 -> (cl = None -> c_closed cn1 = true) ->
    w' = end_task w1 c cl -> wt_phase t' = Wr_ended -> exists cn', w_conns w' !! c = Some cn' /\ task_ok cn' t').
  { intros w1 cn1 cl H1 H2 H3 -> H5. destruct (end_task_ok w1 c cn1 cl H1 H2 H3) as (cn' & ? & H6).
    destruct t' as [p wr wire]. simpl in H5. subst p. eauto. }
  pose proof (attempt_step_ok w c cn t) as Hat.
  destruct (wt_phase t) as [| | seen | | | seen |] eqn:Hp, e as [| | r |]; try done.
  - simplify_eq. eexists. split; [apply put_lookup |]. rewrite T3 by done. by eapply go_on_ok.
  - simplify_eq. exists cn. split; [done |]. destruct (is_empty _); [| by apply Hgo].
    unfold go_to. by apply Hgo.
  - destruct (collect (c_out cn) (wt_w t)) as [[o wr] |] eqn:Hcol.
    + simplify_eq. eexists. split; [apply put_lookup |].
      destruct (collect_counts _ _ _ _ Hcol) as (C1 & C2 & C3).
      eapply after_recv_ok; [done | by rewrite C2 | done | rewrite C1, C2, C3; auto].
    + destruct (ob_tx (c_out cn)); [done |]. simplify_eq. eapply (Hend w cn (Some _)); done.
  - destruct (seen <? _)%nat; [| done]. destruct (c_hard cn) eqn:Hhard; simplify_eq; [by apply (Hend w cn None); auto |].
    exists cn. split; [done |]. by apply Hgo.
  - destruct (c_closed cn && c_hard cn) eqn:E; simplify_eq; [| exists cn; split; [done |]; unfold go_to; by apply Hgo].
    apply andb_true_iff in E as [E1 E2]. destruct (drained_same (c_out cn) (batch_bytes (wt_w t))) as (Hgd & _).
    eapply Hend; [apply put_lookup | split_and!; simpl; [by apply drained_counts | done | by rewrite Hgd] | done..].
  - simplify_eq. exists cn. split; [done |]. unfold go_to. by apply Hgo.
  - destruct (seen <? _)%nat; [| done]. specialize (Hat Woken Hc Hok Ht).
    destruct (attempt_step w c cn t Woken). by simplify_eq.
  - specialize (Hat (Kernel r) Hc Hok Ht). destruct (attempt_step _ _ _ _ _). by simplify_eq.
  - specialize (Hat Deadline Hc Hok Ht). destruct (attempt_step _ _ _ _ _). by simplify_eq.
Qed.

(** ** The invariant of the whole *)

Lemma end_task_others w c d closes : c <> d -> w_conns (end_task w c closes) !! d = w_conns w !! d.
Proof.
  intros Hne. unfold end_task, drop_rx, upd_conn.
  destruct closes as [[h reason] |]; simpl; [unfold finish; destruct (w_conns w !! c) as [cn |] eqn:Hc |].
  1: destruct (c_closed cn); simpl; rewrite ?lookup_insert_eq, ?Hc; simpl; by rewrite !lookup_insert_ne.
  1: by rewrite Hc.
  destruct (w_conns w !! c); simpl; by rewrite ?lookup_insert_ne.
Qed.

Lemma write_step_others w c t e w' t' d :
  write_step w c t e = Some (w', t') -> c <> d -> w_conns w' !! d = w_conns w !! d.
Proof.
  intros H Hne. unfold write_step in H. destruct (w_conns w !! c) as [cn |] eqn:Hc; [| done]. simpl in H.
  assert (Hput : forall o, w_conns (put_out w c cn o) !! d = w_conns w !! d)
    by (intros; by apply lookup_insert_ne).
  assert (Hat : forall a w1 t1, attempt_step w c cn t a = (w1, t1) -> w_conns w1 !! d = w_conns w !! d).
  { intros a w1 t1. unfold attempt_step. destruct (attempt _ _ _ _ _ a) as [[[o wr] wrote] next].
    destruct next; intros; simplify_eq; rewrite ?end_task_others; done. }
  repeat case_match; simplify_eq; rewrite ?end_task_others; eauto.
Qed.

Definition full_ok (f : Full) : Prop :=
  srv_ok (fu_srv f) /\
  forall c, match w_conns (sv_world (fu_srv f)) !! c, fu_tasks f !! c with
            | Some cn, Some t => task_ok cn t
            | None, None => True
            | _, _ => False
            end.

Lemma srv_conn_ok s c cn t :
  srv_ok s -> w_conns (sv_world s) !! c = Some cn -> task_ok cn t -> conn_ok cn.
Proof.
  intros [[(_ & Hcs & _) _] _] Hc (T1 & T2 & _). split_and!; [done | done |].
  intros E. apply Hcs in Hc as [Hwf _]. unfold conn_wf in Hwf. rewrite E in Hwf. apply Hwf.
Qed.

Lemma spawned_task_ok w c cid max_pending line :
  exists cn, w_conns (spawn_conn w c cid max_pending line).1 !! c = Some cn /\ task_ok cn task_new.
Proof.
  unfold spawn_conn. set (cn := conn_new cid max_pending).
  assert (Hn : task_ok cn task_new).
  { split_and!; simpl; try done. intros _. unfold queue_bytes. simpl. by rewrite ch_new_queue. }
  destruct (push_carries cn (c_out cn) line) as [fs Hfs]; [by left |].
  change (enqueue (c_out cn) line) with (push (c_out cn) line). destruct (push (c_out cn) line) as [o r].
  eexists. simpl. rewrite lookup_insert_eq. split; [done |]. by eapply carries_task_ok.
Qed.

Lemma full_step_ok f f' : full_step f f' -> full_ok f -> full_ok f'.
Proof.
  intros Hstep [Hs Ht]. split.
  { apply full_step_srv in Hstep; [| done]. by eapply srv_steps_ok. }
  intros c. specialize (Ht c).
  destruct Hstep as [w caches tasks d cid mp line Hd | s s' tasks Hr | w caches tasks d t e w' t' Hd _ _ Hw
    | w caches tasks d late Hcl]; simpl in *.
  - destruct (decide (d = c)) as [<- | Hne].
    + destruct (spawned_task_ok w d cid mp line) as (cn & -> & H). by rewrite lookup_insert_eq.
    + unfold spawn_conn. destruct (enqueue _ line). simpl. by rewrite !lookup_insert_ne.
  - apply reader_step_extends in Hr. specialize (Hr c). destruct (w_conns (sv_world s) !! c) as [cn |].
    + destruct Hr as (cn' & fs & -> & Hk). destruct (tasks !! c); [by eapply carries_task_ok | done].
    + by rewrite Hr.
  - destruct (decide (d = c)) as [<- | Hne].
    + rewrite Hd in Ht. destruct (w_conns w !! d) as [cn |] eqn:Hc; [| done].
      destruct (write_step_ok w d t e w' t' cn) as (cn' & -> & H); [done | done | by eapply srv_conn_ok | done |].
      by rewrite lookup_insert_eq.
    + rewrite (write_step_others _ _ _ _ _ _ c Hw) by done. by rewrite lookup_insert_ne.
  - by rewrite (spawn_end_srv w caches d late Hs Hcl).
Qed.

Lemma full_reachable_ok seed f : rtc full_step (full_init seed) f -> full_ok f.
Proof.
  intros H. assert (Hi : full_ok (full_init seed)).
  { split; [by apply (srv_reachable_ok seed) |]. intros c. simpl. by rewrite !lookup_empty. }
  revert Hi. induction H as [| f1 f2 f3 Hstep _ IH]; [done |]. intros Hi. by eapply IH, full_step_ok.
Qed.

Lemma full_reachable_srv seed f :
  rtc full_step (full_init seed) f -> rtc srv_step (srv_init seed) (fu_srv f).
Proof.
  apply (rtc_ind_r (fun f => rtc srv_step (srv_init seed) (fu_srv f))); [done |].
  intros f1 f2 H1 Hstep IH. etrans; [exact IH |]. apply full_step_srv; [by apply (full_reachable_ok seed) | done].
Qed.

(** ** A writer left to itself *)

(** A socket that takes bytes: every write takes at least one, and a batch of one
    buffer is taken whole; the deadline does not pass. *)
Definition willing (t : WriteTask) (e : WrEvent) : Prop :=
  match e with
  | On_run | On_wake => True
  | On_kernel (Ok n) =>
      (0 < n)%Z /\ kernel_ok (parts (wt_w t)) (Ok n) /\ whole_single (parts (wt_w t)) (Ok n)
  | On_kernel (Err _) | On_deadline => False
  end.

Definition flush_step (c : cref) (x y : World * WriteTask) : Prop :=
  exists e, willing x.2 e /\ write_step x.1 c x.2 e = Some y.

(** What the task holds in each phase; in the end, everything is on the wire. *)
Definition flush_phase (cn : Conn) (t : WriteTask) : Prop :=
  match wt_phase t with
  | Wr_start => parts (wt_w t) = [] /\ ob_rx (c_out cn) = true
  | Wr_top | Wr_recv _ => parts (wt_w t) = []
  | Wr_check | Wr_arm => parts (wt_w t) <> []
  | Wr_await seen => parts (wt_w t) <> [] /\ c_wakes cn <= seen
  | Wr_ended => parts (wt_w t) = [] /\ conn_queue cn = []
  end.

(** The connection [cn], open or softly closed ([b]). *)
Definition soft_conn (b : bool) (cn : Conn) : Prop :=
  c_closed cn = b /\ c_hard cn = false /\ (ob_tx (c_out cn) = None <-> b = true).

Definition flushing (c : cref) (b : bool) (total : bytes) (x : World * WriteTask) : Prop :=
  exists cn, w_conns x.1 !! c = Some cn /\ soft_conn b cn /\
    writer_inv (wt_w x.2) /\ flush_phase cn x.2 /\
    wt_wire x.2 ++ concat (parts (wt_w x.2)) ++ concat (conn_queue cn) = total.

Definition phase_rank (cn : Conn) (p : WrPhase) : nat :=
  match p with
  | Wr_start => 9
  | Wr_recv seen => if (seen <? c_wakes cn)%nat then 8 else 6
  | Wr_top => 7
  | Wr_check => 5
  | Wr_arm => 4
  | Wr_await _ => 3
  | Wr_ended => 0
  end.

Definition flush_rank (c : cref) (x : World * WriteTask) : nat :=
  match w_conns x.1 !! c with
  | Some cn =>
      10 * (length (concat (parts (wt_w x.2))) + length (concat (conn_queue cn)) + length (conn_queue cn)) +
      phase_rank cn (wt_phase x.2)
  | None => 0
  end.

Lemma collect_shorter o wr o' wr' :
  collect o wr = Some (o', wr') -> length (ch_queue (ob_chan o')) < length (ch_queue (ob_chan o)).
Proof.
  unfold collect. destruct (ch_try_recv (ob_chan o)) as [[f ch] |] eqn:Hr; [| done].
  destruct (collect_more _ ch _) as [ch' wr1] eqn:Hm. intros. simplify_eq. apply ch_recv_some in Hr.
  destruct (collect_more_front _ _ _ _ _ Hm) as [popped Hp]. rewrite Hr, Hp. simpl. rewrite length_app. lia.
Qed.

Lemma collect_none o wr : collect o wr = None -> ch_queue (ob_chan o) = [].
Proof.
  unfold collect. destruct (ch_try_recv (ob_chan o)) as [[f ch] |] eqn:Hr; [by destruct (collect_more _ _ _) |].
  intros _. by apply ch_recv_none.
Qed.

Lemma attempt_willing o wr n :
  parts wr <> [] -> (0 < n)%Z -> exists o' wr' wrote,
    attempt false false false o wr (Kernel (Ok n)) = (o', wr', wrote, Goes_on) /\
    batch_bytes wr' = (batch_bytes wr - n)%Z.
Proof.
  intros Hp Hn. unfold attempt. simpl.
  assert (Hwb : exists ps, write_batch (parts wr) (Ok n) = (Ok n, ps)).
  { destruct (parts wr) as [| f1 [| f2 ps]]; [done | simpl; destruct (_ <? _)%Z | simpl]; eauto. }
  destruct Hwb as [ps ->]. destruct n as [| n | n]; [lia | eauto 10 | lia].
Qed.

(** Going on after a batch was collected or written. *)
Lemma while_head_flushing w c b cn wr wire total :
  w_conns w !! c = Some cn -> soft_conn b cn ->
  writer_inv wr -> wire ++ concat (parts wr) ++ concat (conn_queue cn) = total ->
  flushing c b total (w, while_head wr wire) /\
  flush_rank c (w, while_head wr wire) <=
    10 * (length (concat (parts wr)) + length (concat (conn_queue cn)) + length (conn_queue cn)) + 7.
Proof.
  intros Hc Hs [Hb Hne] Hall. unfold while_head. destruct (0 <? batch_bytes wr)%Z eqn:E; bool_to_prop.
  - split; [| unfold flush_rank; simpl fst; rewrite Hc; simpl; lia].
    exists cn. split_and!; [done | done | by split | | done]. intros Hp. simpl in Hp. by rewrite Hb, Hp in E.
  - assert (Hnil : concat (parts wr) = []).
    { destruct (concat (parts wr)); [done |]. rewrite Hb in E. unfold blen in E. simpl in E. lia. }
    split; [| unfold flush_rank; simpl fst; rewrite Hc; simpl; lia].
    exists cn. split_and!; [done | done | | done | by rewrite Hnil in Hall]. split; [| constructor].
    simpl. by rewrite Hb, Hnil.
Qed.

Lemma after_recv_flushing w c b cn wr wire total :
  w_conns w !! c = Some cn -> soft_conn b cn ->
  writer_inv wr -> wire ++ concat (parts wr) ++ concat (conn_queue cn) = total ->
  flushing c b total (w, after_recv wr wire) /\
  flush_rank c (w, after_recv wr wire) <=
    10 * (length (concat (parts wr)) + length (concat (conn_queue cn)) + length (conn_queue cn)) + 7.
Proof.
  intros Hc Hs Hw Hall. unfold after_recv.
  destruct (is_empty (parts wr)) eqn:E; [| by apply while_head_flushing].
  split; [| unfold flush_rank; simpl fst; rewrite Hc; simpl; lia].
  exists cn. split_and!; try done. unfold flush_phase. simpl. by destruct (parts wr).
Qed.

Lemma end_task_closed w c cn closes :
  w_conns w !! c = Some cn -> c_closed cn = true ->
  w_conns (end_task w c closes) !! c =
    Some (set_out cn (set_chan (c_out cn) (ch_drop_rx (ob_chan (c_out cn))))).
Proof.
  intros Hc Hcl. unfold end_task, drop_rx, upd_conn.
  replace (from_option _ w closes) with w; [by rewrite Hc; simpl; rewrite lookup_insert_eq |].
  destruct closes as [[h reason] |]; [| done]. simpl. unfold finish. by rewrite Hc, Hcl.
Qed.

Lemma flush_go w c b cn t p total :
  w_conns w !! c = Some cn -> flushing c b total (w, t) -> flush_phase cn (go_to t p) -> p <> Wr_ended ->
  phase_rank cn p < phase_rank cn (wt_phase t) ->
  flushing c b total (w, go_to t p) /\ flush_rank c (w, go_to t p) < flush_rank c (w, t).
Proof.
  intros Hc (cn' & Hc' & Hs & H4 & H5 & H6) Hp Hne Hlt. simpl in *. simplify_eq.
  split; [by exists cn | unfold flush_rank; simpl fst; rewrite Hc; simpl; lia].
Qed.

(** An attempt that goes on has moved bytes from the batch to the wire. *)
Lemma attempt_flushing w c b cn t r o wr wrote total :
  w_conns w !! c = Some cn -> flushing c b total (w, t) -> (exists seen, wt_phase t = Wr_await seen) ->
  kernel_ok (parts (wt_w t)) r -> whole_single (parts (wt_w t)) r ->
  attempt false false (c_hard cn) (c_out cn) (wt_w t) (Kernel r) = (o, wr, wrote, Goes_on) ->
  let y := (put_out w c cn o, while_head wr (wt_wire t ++ wrote)) in
  flushing c b total y /\ writer_inv wr /\
  flush_rank c y <= 10 * (length (concat (parts wr)) + length (concat (conn_queue cn)) + length (conn_queue cn)) + 7.
Proof.
  intros Hc (cn' & Hc' & Hs & Hw & Hp & Hall) [seen Hph] Hk Hwh Ha. simpl in Hc', Hw, Hp, Hall.
  rewrite Hc in Hc'. injection Hc' as <-. pose proof Hs as (H1 & H2 & H3). rewrite H2 in Ha.
  unfold flush_phase in Hp. rewrite Hph in Hp. destruct Hp as [Hne _].
  destruct (attempt_kernel _ _ _ _ _ _ Hw Hne Hk Hwh Ha) as (_ & _ & _ & _ & Hw' & Hcat).
  pose proof (attempt_out _ _ _ _ _ _ _ _ _ _ Ha) as Ho.
  assert (Hout : ob_tx o = ob_tx (c_out cn) /\ ch_queue (ob_chan o) = conn_queue cn).
  { destruct Ho as [-> | [m ->]]; [done |]. destruct (drained_same (c_out cn) m) as (_ & _ & _ & E1 & E2).
    by rewrite E2, E1. }
  destruct Hout as [Ht Hq].
  destruct (while_head_flushing (put_out w c cn o) c b (set_out cn o) wr (wt_wire t ++ wrote) total) as [Hf Hr];
    [apply put_lookup | split_and!; simpl; [done | done | by rewrite Ht] | done | |].
  { unfold conn_queue. simpl. rewrite Hq, <- Hall, <- Hcat. by rewrite <- !(assoc_L (++)). }
  replace (conn_queue (set_out cn o)) with (conn_queue cn) in Hr by done. by split_and!.
Qed.

Lemma flush_write w c b cn t n y total :
  w_conns w !! c = Some cn -> flushing c b total (w, t) -> (exists seen, wt_phase t = Wr_await seen) ->
  (0 < n)%Z -> kernel_ok (parts (wt_w t)) (Ok n) -> whole_single (parts (wt_w t)) (Ok n) ->
  attempt_step w c cn t (Kernel (Ok n)) = y ->
  flushing c b total y /\ flush_rank c y < flush_rank c (w, t).
Proof.
  intros Hc Hf Hph Hn Hk Hwh <-. pose proof Hf as (cn' & Hc' & Hs & Hw & Hp & Hall). simpl in Hc', Hw, Hp, Hall.
  rewrite Hc in Hc'. injection Hc' as <-. pose proof Hs as (_ & H2 & _).
  assert (Hne : parts (wt_w t) <> []).
  { unfold flush_phase in Hp. destruct Hph as [seen Hph]. rewrite Hph in Hp. apply Hp. }
  destruct (attempt_willing (c_out cn) (wt_w t) n Hne Hn) as (o & wr & wrote & Ha & Hbb).
  assert (Ha' : attempt false false (c_hard cn) (c_out cn) (wt_w t) (Kernel (Ok n)) = (o, wr, wrote, Goes_on))
    by (by rewrite H2).
  destruct (attempt_flushing w c b cn t (Ok n) o wr wrote total Hc Hf Hph Hk Hwh Ha') as (Hf' & Hw' & Hr).
  unfold attempt_step. rewrite Ha'. split; [exact Hf' |]. eapply Nat.le_lt_trans; [exact Hr |].
  destruct Hph as [seen Hph]. unfold flush_rank. simpl fst. simpl snd. rewrite Hc, Hph.
  destruct Hw as [Hb _], Hw' as [Hb' _]. unfold blen in *. simpl phase_rank. lia.
Qed.

Lemma flush_step_ok c b total x y :
  flushing c b total x -> flush_step c x y -> flushing c b total y /\ flush_rank c y < flush_rank c x.
Proof.
  destruct x as [w t]. intros Hf (e & Hwill & Hstep). pose proof Hf as (cn & Hc & Hs & Hw & Hp & Hall).
  pose proof Hs as (H1 & H2 & H3).
  simpl in *. unfold write_step in Hstep. rewrite Hc in Hstep. simpl in Hstep. unfold flush_phase in Hp.
  destruct (wt_phase t) as [| | seen | | | seen |] eqn:Hph, e as [| | [n |] |]; try done.
  - destruct Hp as [Hnil Hrx]. rewrite Hrx in Hstep. simplify_eq. split.
    + eexists. split; [apply put_lookup |]. by split_and!.
    + unfold flush_rank. simpl fst. rewrite put_lookup, Hc. simpl. rewrite Hph. unfold conn_queue. simpl. lia.
  - rewrite Hp in Hstep. simplify_eq. apply (flush_go w c _ cn); [done | done | done | done |].
    rewrite Hph. simpl. rewrite Nat.ltb_irrefl. lia.
  - destruct (collect (c_out cn) (wt_w t)) as [[o wr] |] eqn:Hcol; [| destruct (ob_tx (c_out cn)) eqn:Hnone; [done |]]; simplify_eq.
    + destruct (collect_bounds _ _ _ _ Hp Hw Hcol) as (_ & Hw' & Hcat). pose proof (collect_shorter _ _ _ _ Hcol) as Hlt.
      assert (Htx : ob_tx o = ob_tx (c_out cn)) by (apply (writer_effect_same (c_out cn) o); by econstructor).
      destruct (after_recv_flushing (put_out w c cn o) c (c_closed cn) (set_out cn o) wr (wt_wire t) (wt_wire t ++ concat (parts (wt_w t)) ++ concat (conn_queue cn))) as [Hf' Hr];
        [apply put_lookup | split_and!; simpl; [done | done | by rewrite Htx] | done | unfold conn_queue; simpl; by rewrite Hcat, Hp |].
      split; [done |]. eapply Nat.le_lt_trans; [exact Hr |]. unfold flush_rank. simpl fst. rewrite Hc. simpl snd.
      rewrite Hph. apply (f_equal length) in Hcat. rewrite length_app in Hcat.
      unfold conn_queue. simpl. destruct (seen <? c_wakes cn)%nat; lia.
    + assert (Hq : conn_queue cn = []) by (by eapply collect_none).
      pose proof (end_task_closed w c cn (Some (false, "written"%string)) Hc (proj1 H3 eq_refl)) as He. split.
      * eexists. split; [exact He |]. split_and!; simpl; try done.
        -- split; [done | apply ch_drop_rx_queue].
        -- rewrite Hq. unfold conn_queue. simpl. by rewrite ch_drop_rx_queue.
      * unfold flush_rank. simpl fst. rewrite He, Hc. unfold conn_queue. simpl. rewrite ch_drop_rx_queue, Hph. simpl.
        destruct (seen <? c_wakes cn)%nat; lia.
  - rewrite H2 in Hstep. destruct (seen <? c_wakes cn)%nat eqn:E; [| done]. simplify_eq.
    replace (after_recv (wt_w t) (wt_wire t)) with (go_to t Wr_top) by (unfold after_recv; by rewrite Hp).
    apply (flush_go w c _ cn); [done | done | done | done |]. rewrite Hph. simpl. rewrite E. lia.
  - rewrite H2, andb_false_r in Hstep. simplify_eq.
    apply (flush_go w c _ cn); [done | done | done | done |]. rewrite Hph. simpl. lia.
  - simplify_eq. apply (flush_go w c _ cn); [done | done | done | done |]. rewrite Hph. simpl. lia.
  - destruct Hp as [_ Hle]. rewrite (proj2 (Nat.ltb_ge _ _)) in Hstep by lia. done.
  - destruct Hwill as (W1 & W2 & W3). simplify_eq. eapply flush_write; eauto.
Qed.

(** A writer that cannot go on has written everything, and has ended if its connection
    was closed. *)
Lemma flush_nf c b total x :
  flushing c b total x -> nf (flush_step c) x -> wt_wire x.2 = total /\ (b = true -> wt_phase x.2 = Wr_ended).
Proof.
  destruct x as [w t]. intros (cn & Hc & (H1 & H2 & H3) & Hw & Hp & <-) Hnf. simpl in *.
  assert (Hstuck : forall e, willing t e -> write_step w c t e = None).
  { intros e He. destruct (write_step w c t e) as [y |] eqn:E; [| done]. exfalso. apply Hnf. exists y. by exists e. }
  pose proof (Hstuck On_run I) as Hrun. unfold write_step in Hrun, Hstuck. rewrite Hc in Hrun. simpl in Hrun.
  unfold flush_phase in Hp. destruct (wt_phase t) as [| | seen | | | seen |]; try done.
  - destruct (collect _ _) as [[o wr] |] eqn:Hcol; [done |]. destruct (ob_tx (c_out cn)); [| done].
    rewrite Hp. unfold conn_queue. rewrite (collect_none _ _ Hcol), app_nil_r. split; [done |]. intros E. by apply H3 in E.
  - by rewrite H2, andb_false_r in Hrun.
  - exfalso. destruct Hp as [Hne _]. destruct Hw as [Hb Hnb].
    specialize (Hstuck (On_kernel (Ok (blen (concat (parts (wt_w t))))))). rewrite Hc in Hstuck. simpl in Hstuck.
    assert (Hpos : (0 < blen (concat (parts (wt_w t))))%Z).
    { destruct (parts (wt_w t)) as [| [| b0 f] ps]; [done | by inversion Hnb | unfold blen; simpl; lia]. }
    assert (Hsome : forall y : World * WriteTask, Some y = None -> False) by done.
    eapply Hsome, Hstuck. split_and!; [done | lia | lia |].
    destruct (parts (wt_w t)) as [| f [| f2 ps]]; simpl; [done | by rewrite app_nil_r | done].
  - destruct Hp as [-> ->]. by rewrite !app_nil_r.
Qed.

Lemma flush_steps_ok c b total x y : flushing c b total x -> rtc (flush_step c) x y -> flushing c b total y.
Proof. intros Hx. induction 1 as [| x y z Hxy _ IH]; [done |]. by apply IH, (flush_step_ok c b total x y). Qed.

(** Left to itself, a writer comes to rest, and then everything it had is written. *)
Lemma writer_settles w c b cn t :
  w_conns w !! c = Some cn -> soft_conn b cn -> writer_inv (wt_w t) -> flush_phase cn t ->
  sn (flush_step c) (w, t) /\
  forall w' t', rtc (flush_step c) (w, t) (w', t') -> nf (flush_step c) (w', t') ->
    wt_wire t' = wt_wire t ++ concat (parts (wt_w t)) ++ concat (conn_queue cn) /\
    (b = true -> wt_phase t' = Wr_ended).
Proof.
  intros Hc Hs Hw Hp. set (total := wt_wire t ++ _).
  assert (Hf : flushing c b total (w, t)) by (exists cn; by split_and!).
  split; [by eapply (sn_rank _ (flushing c b total) (flush_rank c)); [apply flush_step_ok |] |].
  intros w' t' Hr Hnf. apply (flush_nf c b total (w', t')); [by eapply flush_steps_ok | done].
Qed.

(** ** Properties *)

(** C7: the server with its writer tasks refines the server in which a writer may do
    anything to its outbox.  Every state that spawns, readers' operations, writers'
    steps and ends of connection tasks reach together, however they interleave and
    whatever the kernels answer, is one the simpler system reaches; a writer that has
    ended leaves a closed connection behind, and on every open connection [pending]
    is, modulo [2^64], the bytes queued plus the writer's own count [batch_bytes] of
    what it has left to write.  (The count is the writer's; after a short write of a
    batch of one buffer it is more than the bytes it holds, see Writer.) *)
Theorem write_loop_refines_server seed f :
  rtc full_step (full_init seed) f ->
  rtc srv_step (srv_init seed) (fu_srv f) /\
  forall c cn, w_conns (sv_world (fu_srv f)) !! c = Some cn ->
    exists t, fu_tasks f !! c = Some t /\
      (wt_phase t = Wr_ended -> c_closed cn = true) /\
      (c_closed cn = false ->
         pending (c_out cn) = wrap64 (queue_bytes (c_out cn) + batch_bytes (wt_w t))).
Proof.
  intros Hf. split; [by apply full_reachable_srv |]. intros c cn Hc.
  destruct (full_reachable_ok _ _ Hf) as [[[(_ & Hcs & _) _] _] Ht]. specialize (Ht c). rewrite Hc in Ht.
  destruct (fu_tasks f !! c) as [t |]; [| done]. destruct Ht as (_ & _ & _ & T4 & T5).
  exists t. split_and!; [done | done |]. intros Hcl. apply T5. apply Hcs in Hc as [Hwf _].
  unfold conn_wf in Hwf. rewrite Hcl in Hwf. apply Hwf.
Qed.

(** C8: a soft close flushes.  After a connection was closed softly, its writer, on a
    socket that takes bytes (of a batch of one buffer, all), runs to its end in
    finitely many steps in any order of its wake-ups, and by then the socket has taken
    exactly the rest of the batch and every frame that was queued, in order.
    ([flush_phase]: the writer is not in the middle of a write that began before the
    close, and its batch is what it holds.) *)
Theorem soft_close_flushes w c cn t :
  w_conns w !! c = Some cn -> conn_wf cn -> c_closed cn = true -> c_hard cn = false ->
  writer_inv (wt_w t) -> flush_phase cn t ->
  sn (flush_step c) (w, t) /\
  forall w' t', rtc (flush_step c) (w, t) (w', t') -> nf (flush_step c) (w', t') ->
    wt_phase t' = Wr_ended /\
    wt_wire t' = wt_wire t ++ concat (parts (wt_w t)) ++ concat (conn_queue cn).
Proof.
  intros Hc Hwf Hcl Hh Hw Hp. destruct (writer_settles w c true cn t) as [Hsn Hend]; [done | | done | done |].
  - split_and!; [done | done |]. unfold conn_wf in Hwf. rewrite Hcl in Hwf. tauto.
  - split; [exact Hsn |]. intros w' t' Hr Hnf. destruct (Hend w' t' Hr Hnf) as [H1 H2]. auto.
Qed.

End WriteLoop.
