(* ===== verification/ReadTask.v ===== *)
(** * The reader task (crates/server/src/client.rs, [read_loop] with its awaits)

    [read_loop] as a task that other tasks interrupt: at the head of its loop, in its
    [select!], between two operations of a batch, and in the wait for a subscriber
    that a publish of the batch has filled ([handle], the loop around
    [wait_for_space]).  With the writer tasks and the ends of [spawn] these are all
    the tasks of a connection. *)

From Stdlib Require Import String Strings.Byte.
From stdpp Require Import relations.
From S2P Require Import Prelude Subjects Proto ProtoFeed Nuid Frames External Arena Outbox Writer Options Registry Interest QueueGroups Conn Route Client Server Order ReadLoop WriteLoop.

Section ReadTask.

Context `{BML : BytesMutLaws} `{CHL : ChannelLaws} {J : SerdeJsonLib}.

(** ** Definitions *)

(** Where the task is: at the head of the loop; in the [select!], whose [notified]
    future was made after [seen] wake-ups; about to carry out the rest of a batch;
    waiting for the first of the stalled connections, with the rest of the batch behind
    them; returned. *)
Inductive RtPhase :=
| Rt_top
| Rt_select (seen : nat)
| Rt_batch (evs : list Event)
| Rt_wait (stalled : list cref) (evs : list Event)
| Rt_done.

Record ReadTask := mkReadTask { rt_phase : RtPhase; rt_reader : Reader }.

Definition read_task_new : ReadTask := mkReadTask Rt_top reader_new.

(** What lets the task go on: it runs, its [select!] wakes up, or [wait_for_space]
    comes back. *)
Inductive RtEvent :=
| Rt_go
| Rt_wakes (wk : Wakeup)
| Rt_released.

Definition to_phase (t : ReadTask) (p : RtPhase) : ReadTask := mkReadTask p (rt_reader t).

(** [break], and what follows the loop. *)
Definition broken (w : World) (c : cref) (i : Interest) (t : ReadTask) : World * Interest * ReadTask :=
  (close w c "ended", i, to_phase t Rt_done).

(** The [select!]'s answer, up to the parsed batch. *)
Definition woken_by (lim : Limits) (w : World) (c : cref) (i : Interest) (t : ReadTask) (seen : nat) (wk : Wakeup) :
    option (World * Interest * ReadTask) :=
  match wk with
  | Wk_read chunk =>
      if is_empty chunk then Some (broken (close w c "client closed") c i t)
      else
        let rd := rt_reader t in
        let (cap, short) := resize (rd_cap rd) (rd_short rd) (blen chunk) in
        match feed_into (rd_parser rd) (rd_buf rd ++ chunk) lim [] with
        | None => None
        | Some (Err e, st, src, _) =>
            let t1 := mkReadTask Rt_top (mkReader cap short src st) in
            let (w1, goes_on) := proto_error w c e in
            Some (if goes_on : bool then (w1, i, t1) else broken w1 c i t1)
        | Some (Ok _, st, src, evs) => Some (w, i, mkReadTask (Rt_batch evs) (mkReader cap short src st))
        end
  | Wk_read_error => Some (broken (close w c "read error") c i t)
  | Wk_notified =>
      cn ← w_conns w !! c;
      if (seen <? c_wakes cn)%nat then Some (broken w c i t) else None
  | Wk_tick =>
      let (w1, goes_on) := tick w c in
      Some (if goes_on : bool then (w1, i, to_phase t Rt_top) else broken w1 c i t)
  end.

(** One step of the task; [None] when it is waiting for something else.  The wait for
    a stalled connection ends only when it is closed or has room. *)
Definition read_task (lim : Limits) (w : World) (c : cref) (i : Interest) (t : ReadTask) (e : RtEvent) :
    option (World * Interest * ReadTask) :=
  match rt_phase t, e with
  | Rt_top, Rt_go =>
      if is_closed w c then Some (broken w c i t)
      else cn ← w_conns w !! c; Some (w, i, to_phase t (Rt_select (c_wakes cn)))
  | Rt_select seen, Rt_wakes wk => woken_by lim w c i t seen wk
  | Rt_batch [], Rt_go => Some (w, i, to_phase t Rt_top)
  | Rt_batch (ev :: evs), Rt_go =>
      let '(w1, i1, stalled, goes_on) := handle w c ev i in
      Some (if goes_on then (w1, i1, to_phase t (Rt_wait stalled evs))
            else (close w1 c "connection closed by protocol", i1, to_phase t Rt_done))
  | Rt_wait [] evs, Rt_go => Some (w, i, to_phase t (Rt_batch evs))
  | Rt_wait (d :: stalled) evs, Rt_released =>
      if stall_over w d then Some (w, i, to_phase t (Rt_wait stalled evs)) else None
  | _, _ => None
  end.

(** All tasks of all connections. *)
Record Tasks := mkTasks { ts_full : Full; ts_readers : gmap cref ReadTask }.

Definition tasks_init (seed : Z) : Tasks := mkTasks (full_init seed) ∅.

Inductive tasks_step (lim : Limits) : Tasks -> Tasks -> Prop :=
| tk_spawn w caches writers readers c cid max_pending line :
    w_conns w !! c = None ->
    tasks_step lim (mkTasks (mkFull (mkSrv w caches) writers) readers)
      (mkTasks (mkFull (mkSrv (spawn_conn w c cid max_pending line).1 (<[c := interest_new]> caches))
                       (<[c := task_new]> writers)) (<[c := read_task_new]> readers))
| tk_read w caches writers readers c t e w' i' t' :
    readers !! c = Some t -> room_for w 1 ->
    read_task lim w c (cache_of caches c) t e = Some (w', i', t') ->
    tasks_step lim (mkTasks (mkFull (mkSrv w caches) writers) readers)
      (mkTasks (mkFull (mkSrv w' (<[c := i']> caches)) writers) (<[c := t']> readers))
| tk_write w caches writers readers c t e w' t' :
    writers !! c = Some t -> headroom w 2 -> write_step w c t e = Some (w', t') ->
    tasks_step lim (mkTasks (mkFull (mkSrv w caches) writers) readers)
      (mkTasks (mkFull (mkSrv w' caches) (<[c := t']> writers)) readers)
| tk_end w caches writers readers c t late :
    readers !! c = Some t -> rt_phase t = Rt_done ->
    tasks_step lim (mkTasks (mkFull (mkSrv w caches) writers) readers)
      (mkTasks (mkFull (mkSrv (spawn_end w c late) caches) writers) readers).

(** A step between two reads, the rest of the server being as it may. *)
Definition batch_step (lim : Limits) (c : cref) (t t' : ReadTask) : Prop :=
  match rt_phase t with Rt_batch _ | Rt_wait _ _ => True | _ => False end /\
  exists w i e w' i', read_task lim w c i t e = Some (w', i', t').

(** ** Lemmas: connections last *)

Definition lasts (s s' : Srv) : Prop :=
  (forall c, is_Some (w_conns (sv_world s) !! c) ->
     is_Some (w_conns (sv_world s') !! c) /\ (is_closed (sv_world s) c = true -> is_closed (sv_world s') c = true)) /\
  (forall c, is_Some (sv_caches s !! c) -> is_Some (sv_caches s' !! c)).

Lemma extends_lasts w w' c :
  extends w w' -> is_Some (w_conns w !! c) ->
  is_Some (w_conns w' !! c) /\ (is_closed w c = true -> is_closed w' c = true).
Proof.
  intros H [cn Hc]. destruct (extends_lookup _ _ _ _ H Hc) as (cn' & fs & Hc' & _ & _ & Hk & _).
  unfold is_closed. rewrite Hc, Hc'. eauto.
Qed.

Lemma srv_step_lasts s s' : srv_step s s' -> lasts s s'.
Proof.
  intros Hstep. destruct Hstep as [w caches d cid mp line Hd | w caches d ev w' i' waits b Hd Hev Hh He
    | w caches d Hh | w caches d e Hh | w caches d reason hard Hh | w caches d dn o Hd He]; split; simpl; try done; intros c Hc.
  - unfold spawn_conn, is_closed. destruct (enqueue _ line). simpl.
    rewrite lookup_insert_ne; [done |]. intros ->. rewrite Hd in Hc. by destruct Hc.
  - apply lookup_insert_is_Some'. by right.
  - apply extends_lasts; [| done]. pose proof (handle_extends w d ev (cache_of caches d)) as H. by rewrite He in H.
  - apply lookup_insert_is_Some'. by right.
  - apply extends_lasts; [apply tick_extends | done].
  - apply extends_lasts; [apply proto_error_extends | done].
  - apply extends_lasts; [apply finish_extends | done].
  - unfold is_closed. simpl. destruct (decide (d = c)) as [<- | Hne].
    + rewrite lookup_insert_eq, Hd. eauto.
    + by rewrite lookup_insert_ne.
Qed.

Lemma srv_steps_lasts s s' : rtc srv_step s s' -> lasts s s'.
Proof.
  induction 1 as [s | s s1 s2 H1 _ [IH1 IH2]]; [split; auto |]. apply srv_step_lasts in H1 as [H1 H2].
  split; intros c Hc; [| auto]. destruct (H1 c Hc) as [Hs Hcl]. destruct (IH1 c Hs). auto.
Qed.

(** ** Lemmas: a reader's step *)

(** What is true of a reader with the state it shares. *)
Definition reader_ok (lim : Limits) (s : Srv) (c : cref) (t : ReadTask) : Prop :=
  is_Some (w_conns (sv_world s) !! c) /\ is_Some (sv_caches s !! c) /\ state_wf lim (rd_parser (rt_reader t)) /\
  match rt_phase t with
  | Rt_done => is_closed (sv_world s) c = true
  | Rt_batch evs | Rt_wait _ evs => Forall event_fits evs
  | _ => True
  end.

Lemma reader_ok_lasts lim s s' c t : lasts s s' -> reader_ok lim s c t -> reader_ok lim s' c t.
Proof.
  intros [H1 H2] (Hc & Hi & Hp & Ht). destruct (H1 c Hc) as [Hc' Hcl]. split_and!; auto. by destruct (rt_phase t); auto.
Qed.

Lemma cache_same caches c i : caches !! c = Some i -> <[c := cache_of caches c]> caches = caches.
Proof. intros H. unfold cache_of. rewrite H. simpl. by apply insert_id. Qed.

(** Breaking out of the loop, after a close or not, is one close of the server. *)
Lemma broken_step lim s c t w :
  headroom (sv_world s) 2 -> reader_ok lim s c t -> rtc reader_step s (mkSrv w (sv_caches s)) ->
  is_closed w c = true \/ w = sv_world s ->
  rtc reader_step s (mkSrv (close w c "ended") (sv_caches s)) /\
  reader_ok lim (mkSrv (close w c "ended") (sv_caches s)) c (to_phase t Rt_done).
Proof.
  intros Hh Hok Hr Hw.
  assert (Hr' : rtc reader_step s (mkSrv (close w c "ended") (sv_caches s))).
  { destruct Hw as [Hw | ->]; [by rewrite close_closed |]. destruct s as [w0 caches]. apply rtc_once. by apply rd_close. }
  split; [done |]. destruct (srv_steps_lasts s (mkSrv (close w c "ended") (sv_caches s))) as [H1 H2].
  { eapply rtc_subrel; [| exact Hr']. intros x y. apply reader_step_srv. }
  destruct Hok as (Hc & Hi & Hp & _). destruct (H1 c Hc) as [Hc' _].
  split_and!; [done | by apply H2 | done | apply is_closed_finish].
Qed.

Lemma woken_step lim s c t seen wk w' i' t' :
  headroom (sv_world s) 2 -> reader_ok lim s c t ->
  woken_by lim (sv_world s) c (cache_of (sv_caches s) c) t seen wk = Some (w', i', t') ->
  rtc reader_step s (mkSrv w' (sv_caches s)) /\ i' = cache_of (sv_caches s) c /\
  reader_ok lim (mkSrv w' (sv_caches s)) c t'.
Proof.
  intros Hh Hok H. pose proof Hok as (Hc & Hi & Hp & _).
  assert (Hclose : forall r, rtc reader_step s (mkSrv (close (sv_world s) c r) (sv_caches s)))
    by (intros r; destruct s; apply rtc_once; by apply rd_close).
  assert (Hbroken : forall w t1, state_wf lim (rd_parser (rt_reader t1)) -> rtc reader_step s (mkSrv w (sv_caches s)) ->
    is_closed w c = true \/ w = sv_world s ->
    broken w c (cache_of (sv_caches s) c) t1 = (w', i', t') ->
    rtc reader_step s (mkSrv w' (sv_caches s)) /\ i' = cache_of (sv_caches s) c /\
    reader_ok lim (mkSrv w' (sv_caches s)) c t').
  { intros w t1 Hp1 Hr Hw Hb. unfold broken in Hb. simplify_eq.
    destruct (broken_step lim s c (mkReadTask Rt_top (rt_reader t1)) w Hh) as [H1 H2];
      [split_and!; simpl; done | done | done |].
    split_and!; [done | done | exact H2]. }
  assert (Hlast : forall w, rtc reader_step s (mkSrv w (sv_caches s)) -> forall t1, state_wf lim (rd_parser (rt_reader t1)) ->
    rt_phase t1 = Rt_top -> reader_ok lim (mkSrv w (sv_caches s)) c t1).
  { intros w Hr t1 Hp1 Ht1. apply (reader_ok_lasts lim s); [| split_and!; try done; by rewrite Ht1].
    apply srv_steps_lasts. eapply rtc_subrel; [| exact Hr]. intros x y. apply reader_step_srv. }
  destruct wk as [chunk | | |]; simpl in H.
  - destruct (is_empty chunk).
    { simplify_eq. eapply Hbroken; [exact Hp | apply (Hclose "client closed"%string) | left; apply is_closed_finish | done]. }
    destruct (resize _ _ _) as [cap short].
    destruct (feed_into _ _ lim []) as [[[[r st] src] evs] |] eqn:Hfeed; [| done].
    destruct (feed_into_ok _ _ _ _ _ _ _ _ Hp Hfeed) as (Hwf & evs' & -> & Hevs). simpl in *.
    destruct r as [[] | e].
    + simplify_eq. split_and!; [by destruct s | done |]. split_and!; [done | done | done |]. simpl.
      eapply Forall_impl; [exact Hevs |]. intros ev. destruct ev; simpl; lia.
    + assert (Hcl : closes e = true) by (eapply feed_loop_closes; [exact Hfeed | done]).
      assert (Hstep : rtc reader_step s (mkSrv (proto_error (sv_world s) c e).1 (sv_caches s)))
        by (destruct s; apply rtc_once; by apply rd_error).
      unfold proto_error in *. rewrite Hcl in *. simpl in Hstep. simplify_eq.
      eapply Hbroken; [| exact Hstep | left; apply is_closed_finish | done]. exact Hwf.
  - simplify_eq. eapply Hbroken; [exact Hp | apply (Hclose "read error"%string) | left; apply is_closed_finish | done].
  - destruct (w_conns (sv_world s) !! c); [| done]. simpl in H. destruct (_ <? _)%nat; [| done]. simplify_eq.
    apply (Hbroken (sv_world s) t); [exact Hp | by destruct s | by right | done].
  - assert (Hstep : rtc reader_step s (mkSrv (tick (sv_world s) c).1 (sv_caches s)))
      by (destruct s; apply rtc_once; by apply rd_tick).
    pose proof (tick_closes (sv_world s) c) as Ht. destruct (tick (sv_world s) c) as [w1 []]; simpl in *.
    + simplify_eq. split_and!; [done | done | by apply Hlast].
    + eapply Hbroken; [exact Hp | exact Hstep | left; by apply Ht | congruence].
Qed.

Lemma read_task_steps lim s c t e w' i' t' :
  srv_ok s -> room_for (sv_world s) 1 -> reader_ok lim s c t ->
  read_task lim (sv_world s) c (cache_of (sv_caches s) c) t e = Some (w', i', t') ->
  rtc reader_step s (mkSrv w' (<[c := i']> (sv_caches s))) /\
  reader_ok lim (mkSrv w' (<[c := i']> (sv_caches s))) c t'.
Proof.
  intros Hs Hroom Hok H. pose proof Hok as (Hc & [i Hi] & Hp & Ht).
  pose proof (room_for_two _ _ Hroom) as Hh.
  assert (Hsame : forall t1, state_wf lim (rd_parser (rt_reader t1)) ->
    match rt_phase t1 with Rt_done => is_closed (sv_world s) c = true | Rt_batch evs | Rt_wait _ evs => Forall event_fits evs | _ => True end ->
    rtc reader_step s (mkSrv (sv_world s) (<[c := cache_of (sv_caches s) c]> (sv_caches s))) /\
    reader_ok lim (mkSrv (sv_world s) (<[c := cache_of (sv_caches s) c]> (sv_caches s))) c t1).
  { intros t1 Hp1 Ht1. rewrite (cache_same _ _ i) by done. destruct s. split; [done | by split_and!]. }
  unfold read_task in H. destruct (rt_phase t) as [| seen | [| ev evs] | [| d stalled] evs |] eqn:Hph, e as [| wk |]; try done.
  - destruct (is_closed (sv_world s) c) eqn:Hcl.
    + unfold broken in H. simplify_eq. rewrite (cache_same _ _ i) by done.
      apply broken_step; [done | | by destruct s | by left]. by split_and!; [.. | rewrite Hph].
    + destruct Hc as [cn Hc]. rewrite Hc in H. simpl in H. simplify_eq. by apply Hsame.
  - destruct (woken_step lim s c t seen wk w' i' t' Hh Hok H) as (H1 & -> & H2). by rewrite (cache_same _ _ i).
  - simplify_eq. by apply Hsame.
  - apply Forall_cons in Ht as [Hev Hevs]. destruct s as [w caches]. simpl in *.
    pose proof (handle_ok w c ev (cache_of caches c) (proj1 Hs) Hc (proj2 Hs c) (room_for_event _ _ Hroom) Hev) as Hlater.
    destruct (handle w c ev (cache_of caches c)) as [[[w1 i1] ws] goes_on] eqn:Hh1. destruct Hlater as [Hlater _].
    assert (Hstep : reader_step (mkSrv w caches) (mkSrv w1 (<[c := i1]> caches)))
      by (eapply rd_event; [done | done | by eapply room_for_event | exact Hh1]).
    pose proof (reader_ok_lasts lim _ _ c (mkReadTask Rt_top (rt_reader t)) (srv_step_lasts _ _ (reader_step_srv _ _ Hstep))
      ltac:(split_and!; simpl; done)) as (Hc1 & Hi1 & _).
    destruct goes_on; simplify_eq.
    + split; [by apply rtc_once |]. by split_and!.
    + assert (Hcl : reader_step (mkSrv w1 (<[c := i']> caches)) (mkSrv (close w1 c "connection closed by protocol") (<[c := i']> caches))).
      { apply rd_close. eapply room_for_two, room_for_later; [exact Hroom | exact Hlater]. }
      split; [eapply rtc_l; [exact Hstep | by apply rtc_once] |].
      pose proof (reader_ok_lasts lim _ _ c (mkReadTask Rt_top (rt_reader t)) (srv_step_lasts _ _ (reader_step_srv _ _ Hcl))
        ltac:(split_and!; simpl; done)) as (Hc2 & Hi2 & _).
      split_and!; [done | done | done | apply is_closed_finish].
  - simplify_eq. by apply Hsame.
  - destruct (stall_over (sv_world s) d); [| done]. simplify_eq. by apply Hsame.
Qed.

(** ** Lemmas: all tasks *)

Definition tasks_ok (lim : Limits) (seed : Z) (s : Tasks) : Prop :=
  rtc full_step (full_init seed) (ts_full s) /\
  forall c t, ts_readers s !! c = Some t -> reader_ok lim (fu_srv (ts_full s)) c t.

Lemma full_lasts f f' : full_ok f -> rtc full_step f f' -> lasts (fu_srv f) (fu_srv f').
Proof.
  intros Hok H. apply srv_steps_lasts. revert Hok.
  induction H as [| f1 f2 f3 H1 _ IH]; [done |]. intros Hok.
  etrans; [apply full_step_srv; [by destruct Hok | done] | by apply IH, (full_step_ok f1 f2)].
Qed.

(** The other readers see a step as one of the server. *)
Lemma readers_frame lim seed f f' readers c t' :
  rtc full_step (full_init seed) f -> rtc full_step f f' ->
  (forall d t, readers !! d = Some t -> reader_ok lim (fu_srv f) d t) -> reader_ok lim (fu_srv f') c t' ->
  tasks_ok lim seed (mkTasks f' (<[c := t']> readers)).
Proof.
  intros Hr Hstep Hrd Ht'. split; [by etrans |]. intros d t Hd. simpl in *.
  apply lookup_insert_Some in Hd as [[<- <-] | [_ Hd]]; [done |].
  eapply reader_ok_lasts; [| by apply Hrd]. apply full_lasts; [by eapply full_reachable_ok | done].
Qed.

Lemma reader_steps_full s s' writers :
  rtc reader_step s s' -> rtc full_step (mkFull s writers) (mkFull s' writers).
Proof. induction 1 as [| x y z Hxy _ IH]; [done |]. eapply rtc_l; [by apply fs_read | exact IH]. Qed.

Lemma tasks_step_ok lim seed s s' : tasks_ok lim seed s -> tasks_step lim s s' -> tasks_ok lim seed s'.
Proof.
  intros [Hr Hrd] Hstep. pose proof (full_reachable_ok _ _ Hr) as Hok.
  assert (Hsame : forall f', full_step (ts_full s) f' -> tasks_ok lim seed (mkTasks f' (ts_readers s))).
  { intros f' Hf. split; [by eapply rtc_r |]. intros c t Hc. eapply reader_ok_lasts; [| by apply Hrd].
    by apply full_lasts, rtc_once. }
  destruct Hstep as [w caches writers readers c cid mp line Hc | w caches writers readers c t e w' i' t' Hc Hroom Hstep
    | w caches writers readers c t e w' t' Hc Hh Hstep | w caches writers readers c t late Hc Hph]; simpl in *.
  - eapply readers_frame; [exact Hr | by apply rtc_once, fs_spawn | done |]. simpl.
    destruct (spawned_task_ok w c cid mp line) as (cn & Hcn & _).
    split_and!; simpl; [by eexists | rewrite lookup_insert_eq; eauto | done | done].
  - destruct (read_task_steps lim (mkSrv w caches) c t e w' i' t') as [H1 H2]; [by destruct Hok | done | by apply Hrd | done |].
    eapply readers_frame; [exact Hr | | done | exact H2].
    by apply reader_steps_full.
  - apply Hsame. by eapply fs_write.
  - apply Hsame. apply fs_end. destruct (Hrd c t Hc) as (_ & _ & _ & Hd). by rewrite Hph in Hd.
Qed.

Lemma tasks_reachable_ok lim seed s : rtc (tasks_step lim) (tasks_init seed) s -> tasks_ok lim seed s.
Proof.
  apply (rtc_ind_r (tasks_ok lim seed)).
  - split; [done |]. intros c t H. simpl in H. by rewrite lookup_empty in H.
  - intros s1 s2 _ Hstep IH. by eapply tasks_step_ok.
Qed.

(** Between two reads a reader takes finitely many steps, whatever the other tasks do
    in the meantime. *)
Lemma batch_sn lim c t : sn (batch_step lim c) t.
Proof.
  destruct t as [p rd].
  assert (Hidle : forall p, match p with Rt_batch _ | Rt_wait _ _ => False | _ => True end -> sn (batch_step lim c) (mkReadTask p rd)).
  { intros p' Hp. constructor. intros t' [Hb _]. simpl in Hb. by destruct p'. }
  assert (Hwait : forall evs stalled, sn (batch_step lim c) (mkReadTask (Rt_batch evs) rd) ->
    sn (batch_step lim c) (mkReadTask (Rt_wait stalled evs) rd)).
  { intros evs stalled Hb. induction stalled as [| d stalled IH]; constructor; intros t' (_ & w & i & e & w' & i' & H);
      unfold read_task in H; simpl in H; destruct e; simplify_eq; [done |]. destruct (stall_over w d); by simplify_eq. }
  assert (Hbatch : forall evs, sn (batch_step lim c) (mkReadTask (Rt_batch evs) rd)).
  { induction evs as [| ev evs IH]; constructor; intros t' (_ & w & i & e & w' & i' & H); unfold read_task in H;
      cbn [rt_phase] in H; destruct e; simplify_eq; [by apply Hidle |].
    destruct (handle w c ev i) as [[[w1 i1] ws] []]; simplify_eq; [by apply Hwait | by apply Hidle]. }
  destruct p; auto.
Qed.

(** ** Properties *)

(** C6: the tasks of the connections refine the server.  Let any number of connections
    be spawned, and their readers, their writers and the ends of [spawn] take turns:
    a reader stops at the head of its loop, in its [select!], between any two
    operations of a batch, and for each stalled subscriber until that one is closed
    or has room.  Every state they reach is one of the system in which a reader's
    operations are single steps (what [write_loop_refines_server] and Delivery say
    holds of it).  Each reader's parser is ready for any bytes; in its [select!] it takes whatever is read; in the middle of a
    batch it can always go on, except in the wait for a stalled subscriber, which it
    leaves only when that one is closed or has room; between two reads it takes
    finitely many steps, whatever the others do; and it returns only with its
    connection closed.  (That [wait_for_space] comes back when there is room is
    Waiting's [waiter_released], and the case in which it does not is there too.) *)
Theorem reader_tasks_refine_server lim seed s :
  rtc (tasks_step lim) (tasks_init seed) s ->
  rtc full_step (full_init seed) (ts_full s) /\
  forall c t, ts_readers s !! c = Some t ->
    let w := sv_world (fu_srv (ts_full s)) in
    let i := cache_of (sv_caches (fu_srv (ts_full s))) c in
    state_wf lim (rd_parser (rt_reader t)) /\ sn (batch_step lim c) t /\
    match rt_phase t with
    | Rt_select _ => forall chunk, is_Some (read_task lim w c i t (Rt_wakes (Wk_read chunk)))
    | Rt_wait (d :: _) _ =>
        (forall e r, read_task lim w c i t e = Some r -> e = Rt_released /\ stall_over w d = true) /\
        (stall_over w d = true -> is_Some (read_task lim w c i t Rt_released))
    | Rt_done => is_closed w c = true
    | _ => is_Some (read_task lim w c i t Rt_go)
    end.
Proof.
  intros Hs. destruct (tasks_reachable_ok lim seed s Hs) as [Hr Hrd]. split; [exact Hr |].
  intros c t Hc w i. destruct (Hrd c t Hc) as ([cn Hcn] & _ & Hp & Ht). fold w in Hcn, Ht.
  split_and!; [done | apply batch_sn |]. unfold read_task.
  destruct (rt_phase t) as [| seen | [| ev evs] | [| d stalled] evs |] eqn:Hph; [| | done | | done | | done].
  - destruct (is_closed w c); [done |]. by rewrite Hcn.
  - intros chunk. simpl. destruct (is_empty chunk); [done |]. destruct (resize _ _ _).
    destruct (feed_into_some (rd_parser (rt_reader t)) (rd_buf (rt_reader t) ++ chunk) lim []) as [[[[r st'] src'] out'] ->].
    destruct r; [done |]. by destruct (proto_error w c e).
  - by destruct (handle w c ev i) as [[[w1 i1] ws] goes_on].
  - split.
    + intros e r. destruct e; try done. by destruct (stall_over w d).
    + by intros ->.
Qed.

(** C40: the ten-second backstop of [spawn] never does anything.  [spawn] reaches it when
    [read_loop] has returned, and in every state all tasks can reach, a reader that has
    returned has its connection closed: dropping the sender, and the [close_now] that
    follows when the writer has not ended within ten seconds, leave the server as it
    is, so a soft close stays a soft one and the writer is not stopped. *)
Theorem backstop_never_acts lim seed s c t late :
  rtc (tasks_step lim) (tasks_init seed) s -> ts_readers s !! c = Some t -> rt_phase t = Rt_done ->
  let w := sv_world (fu_srv (ts_full s)) in spawn_end w c late = w.
Proof.
  intros Hs Hc Hp w. destruct (tasks_reachable_ok lim seed s Hs) as [Hr Hrd].
  destruct (full_reachable_ok _ _ Hr) as [Hok _]. destruct (Hrd c t Hc) as (_ & _ & _ & Ht). rewrite Hp in Ht.
  subst w. destruct (fu_srv (ts_full s)) as [w caches]. by apply (spawn_end_srv w caches).
Qed.

End ReadTask.
