(* ===== verification/Delivery.v ===== *)
(** * From the publisher's socket to the subscriber's

    The tasks of the server together: what a connection was to be sent, as one byte
    stream (what its socket has taken, what its writer holds, what is queued) only
    ever grows at its end while the connection is open, whatever the other tasks do;
    and the text of a publish that one reader gets ends up, as the protocol's delivery
    text, on the socket of every subscriber that has room for it. *)

From Stdlib Require Import String Strings.Byte.
From stdpp Require Import relations.
From S2P Require Import Prelude Subjects Proto ProtoFeed ProtoRoundtrip Nuid Frames External Arena Outbox Writer Options Registry Interest QueueGroups Conn Route Client Server Order ReadLoop WriteLoop.

Section Delivery.

Context `{BML : BytesMutLaws} `{CHL : ChannelLaws} {J : SerdeJsonLib}.

(** ** A connection's output as one stream *)

Definition conn_stream (cn : Conn) (t : WriteTask) : bytes :=
  wt_wire t ++ concat (parts (wt_w t)) ++ concat (conn_queue cn).

(** What [write] and [writev] promise to the writer of [c], with the batch of one
    buffer taken whole (Writer.v has what happens otherwise); it may fail, be
    interrupted or run into the deadline.  The other writers' kernels are free. *)
Definition kernel_gentle (c d : cref) (t : WriteTask) (e : WrEvent) : Prop :=
  d = c ->
  match e with
  | On_kernel r => kernel_ok (parts (wt_w t)) r /\ whole_single (parts (wt_w t)) r
  | _ => True
  end.

Definition gentle_step (c : cref) : Full -> Full -> Prop := full_step_by (kernel_gentle c).

(** Connection [c] of a state, with its writer. *)
Definition conn_at (f : Full) (c : cref) (cn : Conn) (t : WriteTask) : Prop :=
  w_conns (sv_world (fu_srv f)) !! c = Some cn /\ fu_tasks f !! c = Some t.

(** The writer of an open connection holds its batch, whatever it waits for. *)
Definition stream_ok (cn : Conn) (t : WriteTask) : Prop :=
  c_closed cn = false -> writer_inv (wt_w t) /\ flush_phase cn t.

Definition streams_ok (c : cref) (f : Full) : Prop := forall cn t, conn_at f c cn t -> stream_ok cn t.

(** ** One step *)

Lemma conn_at_task_ok f c cn t : full_ok f -> conn_at f c cn t -> task_ok cn t.
Proof. intros [_ Ht] [Hc Hk]. specialize (Ht c). by rewrite Hc, Hk in Ht. Qed.

Lemma conn_at_flushing f c cn t :
  full_ok f -> conn_at f c cn t -> stream_ok cn t -> c_closed cn = false ->
  flushing c false (conn_stream cn t) (sv_world (fu_srv f), t).
Proof.
  intros Hok Hat Hs Hcl. pose proof (conn_at_task_ok _ _ _ _ Hok Hat) as (_ & T2 & _).
  destruct Hat as [Hc _]. destruct (Hs Hcl) as [Hw Hp]. exists cn. split_and!; [done | | done | done | done].
  destruct Hok as [[[(_ & Hcs & _) _] _] _]. destruct (Hcs _ _ Hc) as [Hwf _]. unfold conn_wf in Hwf.
  rewrite Hcl in Hwf. destruct Hwf as [(a & Ha & _) _].
  split_and!; [done | destruct (c_hard cn); [by specialize (T2 eq_refl); congruence | done] | by rewrite Ha].
Qed.

(** What is queued behind a connection is appended to its stream. *)
Lemma carries_stream cn fs cn' t :
  carries cn fs cn' -> conn_stream cn' t = conn_stream cn t ++ concat fs.
Proof.
  intros (Hq & _). unfold conn_stream. by rewrite Hq, concat_app, <- !(assoc_L (++)).
Qed.

Lemma carries_stream_ok cn fs cn' t :
  carries cn fs cn' -> (wt_phase t = Wr_ended -> c_closed cn = true) -> stream_ok cn t -> stream_ok cn' t.
Proof.
  intros (_ & Hx & Hc & _ & Hw & _) He Hs Hcl.
  assert (Hop : c_closed cn = false) by (destruct (c_closed cn); [by rewrite Hc in Hcl | done]).
  destruct (Hs Hop) as [H1 H2]. split; [done |]. unfold flush_phase in *.
  destruct (wt_phase t); rewrite ?Hx, ?(Hw Hcl); try done. by specialize (He eq_refl); congruence.
Qed.

(** A step of the writer that leaves the connection open neither adds to its stream
    nor takes from it. *)
Lemma write_step_stream w c b total t e w' t' :
  flushing c b total (w, t) -> kernel_gentle c c t e -> write_step w c t e = Some (w', t') ->
  wt_phase t' <> Wr_ended -> flushing c b total (w', t').
Proof.
  intros Hf Hg Hstep Hne.
  assert (Hwill : willing t e -> flushing c b total (w', t')).
  { intros Hw. eapply flush_step_ok; [exact Hf | by exists e]. }
  destruct e as [| | r |]; [by apply Hwill.. | |]; unfold write_step in Hstep;
    pose proof Hf as (cn & Hc & _); simpl in Hc; rewrite Hc in Hstep; simpl in Hstep;
    destruct (wt_phase t) as [| | seen | | | seen |] eqn:Hph; try done.
  - destruct (Hg eq_refl) as [Hk Hwh]. unfold attempt_step in Hstep.
    destruct (attempt _ _ _ _ _ _) as [[[o wr] wrote] [| closes]] eqn:Ha; simplify_eq; try done.
    by apply (attempt_flushing w c b cn t r o wr wrote total Hc Hf); eauto.
  - unfold attempt_step in Hstep. simpl in Hstep. by simplify_eq.
Qed.

(** A writer does not open a connection again. *)
Lemma write_step_closed w c t e w' t' cn cn' :
  write_step w c t e = Some (w', t') -> w_conns w !! c = Some cn -> w_conns w' !! c = Some cn' ->
  c_closed cn = true -> c_closed cn' = true.
Proof.
  intros H Hc Hc' Hcl. unfold write_step in H. rewrite Hc in H. simpl in H.
  assert (Hend : forall w1 cn1 cl, w_conns w1 !! c = Some cn1 -> c_closed cn1 = true -> w' = end_task w1 c cl ->
    c_closed cn' = true).
  { intros w1 cn1 cl H1 H2 ->. rewrite (end_task_closed _ _ _ _ H1 H2) in Hc'. by simplify_eq. }
  assert (Hput : forall o, w' = put_out w c cn o -> c_closed cn' = true).
  { intros o ->. rewrite put_lookup in Hc'. by simplify_eq. }
  assert (Hat : forall a, attempt_step w c cn t a = (w', t') -> c_closed cn' = true).
  { intros a. unfold attempt_step. destruct (attempt _ _ _ _ _ a) as [[[o wr] wrote] [| closes]]; intros; simplify_eq;
      [by eapply Hput |].
    by eapply (Hend (put_out w c cn o) (set_out cn o)); [apply put_lookup | |]. }
  repeat case_match; simplify_eq; eauto. eapply Hend; [| | reflexivity]; [apply put_lookup | done].
Qed.

Lemma gentle_write_at c f w caches tasks t e w' t' cn' :
  f = mkFull (mkSrv w caches) tasks -> full_ok f -> streams_ok c f ->
  tasks !! c = Some t -> kernel_gentle c c t e -> write_step w c t e = Some (w', t') ->
  w_conns w' !! c = Some cn' -> c_closed cn' = false ->
  stream_ok cn' t' /\ forall cn, conn_at f c cn t -> c_closed cn = false /\ conn_stream cn' t' = conn_stream cn t.
Proof.
  intros -> Hok Hss Ht Hg Hstep Hc' Hcl'.
  destruct (w_conns w !! c) as [cn |] eqn:Hc; [| by unfold write_step in Hstep; rewrite Hc in Hstep].
  assert (Hat : conn_at (mkFull (mkSrv w caches) tasks) c cn t) by done.
  pose proof (conn_at_task_ok _ _ _ _ Hok Hat) as Htask.
  assert (Hcl : c_closed cn = false).
  { destruct (c_closed cn) eqn:E; [| done]. by rewrite (write_step_closed _ _ _ _ _ _ _ _ Hstep Hc Hc' E) in Hcl'. }
  pose proof (conn_at_flushing _ _ _ _ Hok Hat (Hss _ _ Hat) Hcl) as Hf.
  destruct (write_step_ok w c t e w' t' cn Hstep Hc) as (cn1 & Hc1 & _ & _ & _ & T4 & _);
    [by eapply (srv_conn_ok (mkSrv w caches)); [apply Hok | done..] | done |].
  rewrite Hc' in Hc1. injection Hc1 as <-.
  destruct (write_step_stream w c false _ t e w' t' Hf Hg Hstep) as (cn1 & Hc1 & _ & Hw & Hp & Hall);
    [intros E; by rewrite (T4 E) in Hcl' |].
  simpl in Hc1, Hw, Hp, Hall. rewrite Hc' in Hc1. injection Hc1 as <-. split; [done |].
  intros cn1 [Hc1 _]. simpl in Hc1. by simplify_eq.
Qed.

(** Any step, of any task: an open connection was open, and its stream has kept its
    front. *)
Lemma gentle_step_at c f f' cn' t' :
  full_ok f -> streams_ok c f -> gentle_step c f f' -> conn_at f' c cn' t' -> c_closed cn' = false ->
  stream_ok cn' t' /\
  forall cn t, conn_at f c cn t -> c_closed cn = false /\ conn_stream cn t `prefix_of` conn_stream cn' t'.
Proof.
  intros Hok Hss Hstep Hat Hcl.
  destruct Hstep as [w caches tasks d cid mp line Hd | s s' tasks Hr | w caches tasks d t e w' t1 Hd Hg _ Hw
    | w caches tasks d late Hend]; destruct Hat as [Hc Ht]; simpl in Hc, Ht.
  - destruct (decide (d = c)) as [-> | Hne].
    + destruct (spawned_task_ok w c cid mp line) as (cn1 & Hc1 & _ & _ & T3 & _). rewrite lookup_insert_eq in Ht.
      simplify_eq. split; [intros _; split; [split; [done | constructor] | split; [done | by apply T3]] |].
      intros cn t [Hc2 _]. simpl in Hc2. congruence.
    + unfold spawn_conn in Hc. destruct (enqueue _ line). simpl in Hc. rewrite lookup_insert_ne in Hc by done. rewrite lookup_insert_ne in Ht by done.
      split; [by apply Hss |]. intros cn t [Hc2 Ht2]. simpl in *. by simplify_eq.
  - apply reader_step_extends in Hr. specialize (Hr c).
    destruct (w_conns (sv_world s) !! c) as [cn |] eqn:Hcn; [| congruence].
    destruct Hr as (cn1 & fs & Hc1 & Hk). rewrite Hc in Hc1. injection Hc1 as <-.
    assert (Hat : conn_at (mkFull s tasks) c cn t') by done.
    pose proof (conn_at_task_ok _ _ _ _ Hok Hat) as (_ & _ & _ & T4 & _).
    split; [by eapply carries_stream_ok; [done | done | apply Hss] |].
    intros cn1 t1 [Hc1 Ht1]. simpl in Hc1, Ht1. simplify_eq. rewrite (carries_stream _ _ _ _ Hk).
    split; [| by apply prefix_app_r]. destruct Hk as (_ & _ & Hkc & _). destruct (c_closed cn); [by rewrite Hkc in Hcl | done].
  - destruct (decide (d = c)) as [-> | Hne].
    + rewrite lookup_insert_eq in Ht. injection Ht as ->.
      destruct (gentle_write_at c _ w caches tasks t e w' t' cn' eq_refl Hok Hss Hd Hg Hw Hc Hcl) as [H1 H2].
      split; [done |]. intros cn t2 Hat. pose proof Hat as [_ Ht2]. simpl in Ht2. rewrite Hd in Ht2. injection Ht2 as <-.
      destruct (H2 cn Hat) as [-> ->]. done.
    + rewrite (write_step_others _ _ _ _ _ _ c Hw) in Hc by done. rewrite lookup_insert_ne in Ht by done.
      split; [by apply Hss |]. intros cn t2 [Hc2 Ht2]. simpl in *. by simplify_eq.
  - rewrite (spawn_end_srv w caches d late (proj1 Hok) Hend) in Hc.
    split; [by apply Hss |]. intros cn t2 [Hc2 Ht2]. simpl in *. by simplify_eq.
Qed.

(** ** Runs *)

Lemma gentle_run_full c f f' : rtc (gentle_step c) f f' -> rtc full_step f f'.
Proof. apply rtc_subrel. intros x y. apply full_step_by_full. Qed.

Lemma gentle_reachable_ok seed c f : rtc (gentle_step c) (full_init seed) f -> full_ok f.
Proof. intros H. eapply full_reachable_ok, gentle_run_full, H. Qed.

Lemma gentle_reachable_streams seed c f : rtc (gentle_step c) (full_init seed) f -> streams_ok c f.
Proof.
  apply (rtc_ind_r (streams_ok c)).
  - intros cn t [Hc _]. simpl in Hc. by rewrite lookup_empty in Hc.
  - intros f1 f2 H1 Hstep IH cn t Hat Hcl.
    by apply (gentle_step_at c f1 f2 cn t (gentle_reachable_ok _ _ _ H1) IH Hstep Hat Hcl).
Qed.

(** Connections are not forgotten. *)
Lemma full_step_task may f f' c : full_step_by may f f' -> is_Some (fu_tasks f !! c) -> is_Some (fu_tasks f' !! c).
Proof. intros []; simpl; intros Hc; [| done | | done]; by apply lookup_insert_is_Some'; right. Qed.

Lemma conn_at_exists f c : full_ok f -> is_Some (fu_tasks f !! c) -> exists cn t, conn_at f c cn t.
Proof.
  intros [_ Ht] [t Hk]. specialize (Ht c). rewrite Hk in Ht. unfold conn_at.
  destruct (w_conns (sv_world (fu_srv f)) !! c) as [cn |]; [by exists cn, t | done].
Qed.

Lemma gentle_run_at seed c f1 f2 cn1 t1 :
  rtc (gentle_step c) (full_init seed) f1 -> rtc (gentle_step c) f1 f2 -> conn_at f1 c cn1 t1 ->
  is_Some (fu_tasks f2 !! c) /\
  forall cn2 t2, conn_at f2 c cn2 t2 -> c_closed cn2 = false -> conn_stream cn1 t1 `prefix_of` conn_stream cn2 t2.
Proof.
  intros H1 H2 [Hc1 Ht1]. revert f2 H2.
  apply (rtc_ind_r (fun f2 => is_Some (fu_tasks f2 !! c) /\ forall cn2 t2, conn_at f2 c cn2 t2 ->
    c_closed cn2 = false -> conn_stream cn1 t1 `prefix_of` conn_stream cn2 t2)).
  - split; [eauto |]. intros cn2 t2 [Hc2 Ht2] _. by simplify_eq.
  - intros f2 f3 H12 H23 [Hk Hpre]. split; [by eapply full_step_task |]. intros cn3 t3 Hat3 Hcl.
    assert (Hr : rtc (gentle_step c) (full_init seed) f2) by (by etrans).
    pose proof (gentle_reachable_ok _ _ _ Hr) as Hok.
    destruct (gentle_step_at c f2 f3 cn3 t3 Hok (gentle_reachable_streams _ _ _ Hr) H23 Hat3 Hcl) as [_ Hback].
    destruct (conn_at_exists f2 c Hok Hk) as (cn & t & Hat). destruct (Hback cn t Hat) as [Hopen Hlast].
    etrans; [by apply Hpre | done].
Qed.

(** ** A publish *)

(** The message of a publishing command, and whether its client may send it. *)
Definition cmd_msg (cmd : Cmd) : option Msg :=
  match cmd with
  | CmdPub s r body => Some (mkMsg s r 0 body)
  | CmdHpub s r h p => Some (mkMsg s r (blen h) (h ++ p))
  | _ => None
  end.

Definition may_send (o : Options) (cmd : Cmd) : bool :=
  match cmd with CmdHpub _ _ _ _ => headers o | _ => true end.

(** A client that is told nothing about its publish: not verbose, and not pedantic
    about this subject. *)
Definition unanswered (o : Options) (m : Msg) : Prop :=
  verbose o = false /\ pedantic o && negb (is_valid_publish (msg_subject m)) = false.

Lemma publish_handled w c i subj reply hdr body hpub :
  let m := mkMsg subj reply hdr body in
  subj <> [] -> unanswered (opts w c) m -> hpub && negb (headers (opts w c)) = false ->
  let '(w3, i', d) := route w m c i in
  handle_publish w c i subj reply hdr body hpub = (no_responder_check w3 c m reply (count d), i', stall d, true).
Proof.
  intros m Hs [Hv Hp] Hh. change (msg_subject m) with subj in Hp. unfold handle_publish. rewrite Hh, Hp, Hv. fold m.
  replace (is_empty subj) with false by (by destruct subj). by destruct (route w m c i) as [[w3 i'] d].
Qed.

(** The read of one publishing command, as steps of the reader. *)
Lemma publish_read lim d f c rd cmd m :
  let w := sv_world (fu_srv f) in
  let i := cache_of (sv_caches (fu_srv f)) c in
  is_Some (w_conns w !! c) -> headroom w (Z.of_nat (w_next w) + 2) ->
  rd_parser rd = Line -> rd_buf rd = [] -> cmd_ok lim cmd -> cmd_msg cmd = Some m ->
  unanswered (opts w c) m -> may_send (opts w c) cmd = true ->
  exists f1 rd' waits,
    read_one lim w c rd i (encode cmd) =
      Some (sv_world (fu_srv f1), rd', cache_of (sv_caches (fu_srv f1)) c, waits, Next_loop) /\
    rtc (gentle_step d) f f1 /\ fu_tasks f1 = fu_tasks f /\
    extends (route w m c i).1.1 (sv_world (fu_srv f1)).
Proof.
  destruct f as [[w caches] tasks]. simpl. intros Hc Hh Hst Hbuf Hok Hm Hun Hsend.
  pose proof (read_one_cmds lim w c rd (cache_of caches c) [cmd] Hst Hbuf ltac:(done) ltac:(by constructor)) as Hread.
  simpl in Hread. rewrite !app_nil_r in Hread.
  assert (Hgo : forall subj reply hdr total body hpub caches', m = mkMsg subj reply hdr body -> subj <> [] ->
    hpub && negb (headers (opts w c)) = false -> cache_of caches' c = cache_of caches c ->
    exists w1 i1 waits, handle w c (EvPublish subj reply hdr total body hpub) (cache_of caches c) = (w1, i1, waits, true) /\
      gentle_step d (mkFull (mkSrv w caches') tasks) (mkFull (mkSrv w1 (<[c := i1]> caches')) tasks) /\
      extends (route w m c (cache_of caches c)).1.1 w1).
  { intros subj reply hdr total body hpub caches' -> Hne Hhp Hca.
    pose proof (publish_handled w c (cache_of caches c) subj reply hdr body hpub Hne Hun Hhp) as Hp.
    destruct (route w _ c _) as [[w3 i'] dv]. do 3 eexists. split; [exact Hp |]. split; [| apply no_responder_extends].
    apply fs_read. eapply (rd_event _ _ _ (EvPublish subj reply hdr total body hpub)); [done.. |]. rewrite Hca. exact Hp. }
  assert (Hw : forall s r, word s -> Forall word (option_list r) -> s <> []) by (intros s r [? _] _; done).
  destruct cmd as [| | | s r body | s r h p | |]; simpl in Hm; try done; injection Hm as <-; destruct Hok as (_ & Hs & Hr & _).
  - destruct (Hgo s r 0%Z (blen body) body false caches eq_refl (Hw s r Hs Hr) eq_refl eq_refl) as (w1 & i1 & waits & Hh1 & Hstep & Hext).
    simpl in Hread, Hh1. rewrite Hh1 in Hread. simpl in Hread. destruct Hread as (rd' & Hread & _ & _).
    exists (mkFull (mkSrv w1 (<[c := i1]> caches)) tasks), rd', waits. simpl. unfold cache_of at 2.
    rewrite lookup_insert_eq. split_and!; [done | by apply rtc_once | done | done].
  - unfold may_send in Hsend. pose proof Hsend as Hbit. simpl in Hbit.
    destruct (Hgo s r (blen h) (blen (h ++ p)) (h ++ p) true (<[c := cache_of caches c]> caches) eq_refl (Hw s r Hs Hr))
      as (w1 & i1 & waits & Hh1 & Hstep & Hext).
    { by rewrite Hsend. }
    { unfold cache_of at 1. by rewrite lookup_insert_eq. }
    simpl in Hread, Hh1. rewrite Hbit in Hread. simpl in Hread. rewrite Hh1 in Hread. simpl in Hread.
    destruct Hread as (rd' & Hread & _ & _).
    exists (mkFull (mkSrv w1 (<[c := i1]> (<[c := cache_of caches c]> caches))) tasks), rd', waits.
    simpl. unfold cache_of at 2. rewrite lookup_insert_eq. split_and!; [done | | done | done].
    eapply rtc_l; [| by apply rtc_once]. apply fs_read. eapply (rd_event _ _ _ (EvHpubAttempt Hpub_Ok)); [done.. |].
    simpl. by rewrite Hbit.
Qed.

(** ** Properties *)

(** C3: what a connection is sent is one stream, provided its kernel never takes only a
    part of a batch of one buffer ([kernel_gentle]: no more than it is offered, and
    such a batch whole; without it bytes are lost, see
    [short_single_write_loses_bytes] in Writer).  From any reachable state on, and as
    long as the connection is open, everything that was queued for it, was in its
    writer's hands or had been taken by its socket stays where it is in its stream:
    the steps of all readers and writers lose, change, repeat and reorder nothing of
    it, and once the socket has taken as many bytes, they are those bytes. *)
Theorem stream_in_order seed c f1 f2 cn1 t1 cn2 t2 :
  rtc (gentle_step c) (full_init seed) f1 -> rtc (gentle_step c) f1 f2 ->
  conn_at f1 c cn1 t1 -> conn_at f2 c cn2 t2 -> c_closed cn2 = false ->
  conn_stream cn1 t1 `prefix_of` conn_stream cn2 t2 /\
  (length (conn_stream cn1 t1) <= length (wt_wire t2) -> conn_stream cn1 t1 `prefix_of` wt_wire t2).
Proof.
  intros H1 H2 Hat1 Hat2 Hcl. destruct (gentle_run_at seed c f1 f2 cn1 t1 H1 H2 Hat1) as [_ H].
  specialize (H cn2 t2 Hat2 Hcl). split; [done |]. intros Hle. unfold conn_stream in H at 2.
  destruct (prefix_weak_total (conn_stream cn1 t1) (wt_wire t2) _ H ltac:(by apply prefix_app_r)) as [Hp | Hp]; [done |].
  by rewrite (prefix_length_eq _ _ Hp Hle).
Qed.

(** C2: a publish reaches its subscribers' sockets.  The conditions: the reader of [c]
    is between commands with nothing unread, and its client is one that is not told
    about the publish (not verbose, not pedantic about this subject) and, for HPUB,
    may send headers; connection [d] has room for the frames it is owed; and [d]'s
    kernel, until now and from now on, takes a batch of one buffer whole (Writer has
    what happens otherwise).  When then a read brings the text of one PUB or HPUB to the reader
    of [c], whatever happens afterwards, as long as [d] is open: left to itself on a
    socket that takes bytes, [d]'s writer comes to rest after finitely many steps, and
    then the socket has taken everything [d] was to be sent before, then exactly those
    frames (the protocol text of the message for each of [d]'s subscriptions on the
    routing list, in its order), then what was queued later. *)
Theorem publish_reaches_socket seed lim c d f rd cmd m cn t :
  let w := sv_world (fu_srv f) in
  let i := cache_of (sv_caches (fu_srv f)) c in
  let frames := frames_for w c d cn m (route_list w m c i).2 in
  rtc (gentle_step d) (full_init seed) f -> conn_at f d cn t -> accepts cn (blen (concat frames)) ->
  is_Some (w_conns w !! c) -> headroom w (Z.of_nat (w_next w) + 2) ->
  rd_parser rd = Line -> rd_buf rd = [] -> cmd_ok lim cmd -> cmd_msg cmd = Some m ->
  unanswered (opts w c) m -> may_send (opts w c) cmd = true ->
  exists f1 rd' waits,
    read_one lim w c rd i (encode cmd) =
      Some (sv_world (fu_srv f1), rd', cache_of (sv_caches (fu_srv f1)) c, waits, Next_loop) /\
    rtc (gentle_step d) f f1 /\
    forall f2 cn2 t2, rtc (gentle_step d) f1 f2 -> conn_at f2 d cn2 t2 -> c_closed cn2 = false ->
      sn (flush_step d) (sv_world (fu_srv f2), t2) /\
      forall w3 t3, rtc (flush_step d) (sv_world (fu_srv f2), t2) (w3, t3) -> nf (flush_step d) (w3, t3) ->
        exists later, wt_wire t3 = conn_stream cn t ++ concat frames ++ later.
Proof.
  intros w i frames Hr Hat Hacc Hc Hh Hst Hbuf Hok Hm Hun Hsend.
  destruct (publish_read lim d f c rd cmd m Hc Hh Hst Hbuf Hok Hm Hun Hsend) as (f1 & rd' & waits & Hread & Hsteps & Htasks & Hext).
  exists f1, rd', waits. split; [exact Hread |]. split; [exact Hsteps |].
  pose proof Hat as [Hcn Ht]. pose proof (gentle_reachable_ok _ _ _ Hr) as [[[Hwf _] _] _].
  destruct (route_feeds w m c i d cn Hwf Hcn Hacc) as (cn0 & Hc0 & _ & _ & _ & _ & Hq & _).
  destruct (extends_lookup _ _ _ _ Hext Hc0) as (cn1 & fs & Hc1 & Hk).
  assert (Hat1 : conn_at f1 d cn1 t) by (split; [done | by rewrite Htasks]).
  assert (Hstream : conn_stream cn1 t = conn_stream cn t ++ concat frames ++ concat fs).
  { rewrite (carries_stream _ _ _ _ Hk). unfold conn_stream, conn_queue. by rewrite Hq, concat_app, <- !(assoc_L (++)). }
  intros f2 cn2 t2 H2 Hat2 Hcl. assert (Hr1 : rtc (gentle_step d) (full_init seed) f1) by (by etrans).
  assert (Hr2 : rtc (gentle_step d) (full_init seed) f2) by (by etrans).
  destruct (gentle_run_at seed d f1 f2 cn1 t Hr1 H2 Hat1) as [_ Hpre]. destruct (Hpre cn2 t2 Hat2 Hcl) as [more Hmore].
  destruct (conn_at_flushing f2 d cn2 t2 (gentle_reachable_ok _ _ _ Hr2) Hat2 (gentle_reachable_streams _ _ _ Hr2 _ _ Hat2) Hcl)
    as (cn3 & Hc3 & Hsoft & Hw & Hp & Hall).
  simpl in Hc3, Hw, Hp, Hall. destruct (writer_settles _ _ _ _ _ Hc3 Hsoft Hw Hp) as [Hsn Hend].
  split; [exact Hsn |]. intros w3 t3 H3 Hnf. destruct (Hend w3 t3 H3 Hnf) as [-> _].
  exists (concat fs ++ more). rewrite Hall, Hmore, Hstream. by rewrite <- !(assoc_L (++)).
Qed.

End Delivery.
