(* ===== verification/Info.v ===== *)
(** * The INFO line (crates/server/src/info.rs; lib.rs, [Server::info_line])

    The first line of every connection: a JSON object written by hand, with the
    proof that a JSON reader gets exactly the values that went in. *)

From Stdlib Require Import String Strings.Byte.
From S2P Require Import Prelude Decimal.

(** ** Definitions *)

Record Info := mkInfo {
  i_server_id : bytes;
  i_server_name : bytes;
  i_version : bytes;
  i_host : bytes;
  i_port : Z;
  i_max_payload : Z }.

(** One lowercase hexadecimal digit. *)
Definition hex_digit (n : Z) : byte := if (n <? 10)%Z then as_u8 (48 + n) else as_u8 (87 + n).

(** The arms of the [match] in [push_str].  A string is its UTF-8 bytes; every
    character the arms single out is one byte, and the last arm copies the others. *)
Definition escape_byte (b : byte) : bytes :=
  match b with
  | x22 => [x5c; x22]
  | x5c => [x5c; x5c]
  | x0a => [x5c; "n"%byte]
  | x0d => [x5c; "r"%byte]
  | x09 => [x5c; "t"%byte]
  | _ =>
      if (u8 b <? 0x20)%Z
      then [x5c; "u"%byte; "0"%byte; "0"%byte; hex_digit (u8 b / 16); hex_digit (u8 b mod 16)]
      else [b]
  end.

Definition escape (v : bytes) : bytes := concat (map escape_byte v).

Definition push_str (key : string) (value : bytes) : bytes :=
  [x22] ++ bs key ++ [x22; x3a; x22] ++ escape value ++ [x22].

(** ["key":] before a number or a literal. *)
Definition raw_key (key : string) : bytes := [x22] ++ bs key ++ [x22; x3a].

(** [Info::line], given the text of the peer's address. *)
Definition line (i : Info) (cid : Z) (peer_ip : bytes) : bytes :=
  bs "INFO {" ++
  push_str "server_id" (i_server_id i) ++ bs "," ++
  push_str "server_name" (i_server_name i) ++ bs "," ++
  push_str "version" (i_version i) ++
  bs "," ++ raw_key "proto" ++ bs "1" ++ bs "," ++
  push_str "host" (i_host i) ++
  bs "," ++ raw_key "port" ++ display_uint (i_port i) ++
  bs "," ++ raw_key "headers" ++ bs "true" ++
  bs "," ++ raw_key "max_payload" ++ display_uint (i_max_payload i) ++
  bs "," ++ raw_key "client_id" ++ display_uint cid ++ bs "," ++
  push_str "client_ip" peer_ip ++
  bs "} " ++ [x0d; x0a].

(** [Server::info_line]: the parts come from the server and the bound address. *)
Definition info_line (server_id server_name version listen_ip : bytes) (listen_port max_payload cid : Z)
    (peer_ip : bytes) : bytes :=
  line (mkInfo server_id server_name version listen_ip listen_port max_payload) cid peer_ip.

(** ** A reader of JSON objects of strings, numbers and [true] *)

Inductive JVal := JStr (s : bytes) | JNum (n : Z) | JTrue.

Definition hex_value (b : byte) : option Z :=
  if is_ascii_digit b then Some (u8 b - 48)%Z
  else if (97 <=? u8 b)%Z && (u8 b <=? 102)%Z then Some (u8 b - 87)%Z else None.

(** The rest of a string after its opening quote; [\u] escapes up to [\u007f]. *)
Fixpoint read_string (l : bytes) : option (bytes * bytes) :=
  match l with
  | x22 :: rest => Some ([], rest)
  | x5c :: "u"%byte :: "0"%byte :: "0"%byte :: h1 :: h2 :: rest =>
      match hex_value h1, hex_value h2, read_string rest with
      | Some a, Some b, Some (s, rest') =>
          if (a <? 8)%Z then Some (as_u8 (a * 16 + b) :: s, rest') else None
      | _, _, _ => None
      end
  | x5c :: "n"%byte :: rest => prod_map (cons x0a) id <$> read_string rest
  | x5c :: "r"%byte :: rest => prod_map (cons x0d) id <$> read_string rest
  | x5c :: "t"%byte :: rest => prod_map (cons x09) id <$> read_string rest
  | x5c :: x22 :: rest => prod_map (cons x22) id <$> read_string rest
  | x5c :: x5c :: rest => prod_map (cons x5c) id <$> read_string rest
  | x5c :: _ => None
  | b :: rest => if (u8 b <? 0x20)%Z then None else prod_map (cons b) id <$> read_string rest
  | [] => None
  end.

(** The digits at the front. *)
Fixpoint span_digits (l : bytes) : bytes * bytes :=
  match l with
  | b :: rest => if is_ascii_digit b then prod_map (cons b) id (span_digits rest) else ([], l)
  | [] => ([], [])
  end.

Definition read_value (l : bytes) : option (JVal * bytes) :=
  match l with
  | x22 :: rest => prod_map JStr id <$> read_string rest
  | "t"%byte :: "r"%byte :: "u"%byte :: "e"%byte :: rest => Some (JTrue, rest)
  | _ => let (d, rest) := span_digits l in
         if is_empty d then None else Some (JNum (digits_value d), rest)
  end.

(** ["key":value]. *)
Definition read_member (l : bytes) : option ((bytes * JVal) * bytes) :=
  match l with
  | x22 :: rest =>
      match read_string rest with
      | Some (k, x3a :: rest') => prod_map (pair k) id <$> read_value rest'
      | _ => None
      end
  | _ => None
  end.

(** Members separated by commas, up to the closing brace. *)
Fixpoint read_members (fuel : nat) (l : bytes) : option (list (bytes * JVal) * bytes) :=
  match fuel with
  | O => None
  | S fuel =>
      match read_member l with
      | Some (m, x2c :: rest) => prod_map (cons m) id <$> read_members fuel rest
      | Some (m, x7d :: rest) => Some ([m], rest)
      | _ => None
      end
  end.

(** [INFO ] and an object: its members, and what follows it.  Every member takes at
    least one byte, so the length of the text is enough fuel. *)
Definition read_info (l : bytes) : option (list (bytes * JVal) * bytes) :=
  if bool_decide (take 6 l = bs "INFO {") then read_members (length l) (drop 6 l) else None.

(** ** Lemmas *)

Lemma read_string_escape_byte b v rest :
  (forall rest, read_string (escape v ++ x22 :: rest) = Some (v, rest)) ->
  read_string (escape_byte b ++ escape v ++ x22 :: rest) = Some (b :: v, rest).
Proof. intros IH. destruct b; simpl; rewrite IH; reflexivity. Qed.

Lemma read_string_escape v rest : read_string (escape v ++ x22 :: rest) = Some (v, rest).
Proof.
  revert rest. induction v as [| b v IH]; intros rest; [done |].
  change (escape (b :: v)) with (escape_byte b ++ escape v). rewrite <- (assoc_L (++)).
  by apply read_string_escape_byte.
Qed.

(** The keys the server writes need no escaping. *)
Definition plain_key (key : string) : bool := bool_decide (escape (bs key) = bs key).

Lemma read_key key rest :
  plain_key key = true -> read_string (bs key ++ x22 :: rest) = Some (bs key, rest).
Proof. intros H%bool_decide_eq_true. rewrite <- H at 1. apply read_string_escape. Qed.

Lemma read_member_str key v rest :
  plain_key key = true -> read_member (push_str key v ++ rest) = Some ((bs key, JStr v), rest).
Proof.
  intros Hk. unfold push_str. simpl. rewrite <- (assoc_L (++)). simpl. rewrite read_key by done.
  rewrite <- (assoc_L (++)). simpl. by rewrite read_string_escape.
Qed.

Lemma span_digits_app d rest :
  all_digits d = true -> from_option is_ascii_digit false (head rest) = false ->
  span_digits (d ++ rest) = (d, rest).
Proof.
  intros Hd Hr. induction d as [| b d IH]; simpl in *.
  - destruct rest as [| b rest]; simpl in *; [done |]. by rewrite Hr.
  - bool_to_prop. by rewrite H, IH.
Qed.

Lemma read_value_num n rest :
  in_u64 n -> from_option is_ascii_digit false (head rest) = false ->
  read_value (display_uint n ++ rest) = Some (JNum n, rest).
Proof.
  intros Hn Hr. rewrite display_uint_push_u64 by done.
  destruct (push_u64_spec n Hn) as (Hd & Hv & Hne & _).
  destruct (push_u64 n) as [| b d] eqn:E; [done |].
  pose proof (span_digits_app (b :: d) rest Hd Hr) as Hs.
  assert (Hb : is_ascii_digit b = true) by (simpl in Hd; by bool_to_prop).
  assert (Hread : read_value ((b :: d) ++ rest) =
    let (d0, r) := span_digits ((b :: d) ++ rest) in
    if is_empty d0 then None else Some (JNum (digits_value d0), r)).
  { simpl app. destruct b; try done; vm_compute in Hb; done. }
  by rewrite Hread, Hs, Hv.
Qed.

Lemma read_member_raw key v x rest :
  plain_key key = true -> read_value (v ++ rest) = Some (x, rest) ->
  read_member (raw_key key ++ v ++ rest) = Some ((bs key, x), rest).
Proof.
  intros Hk Hv. unfold raw_key. simpl. rewrite <- (assoc_L (++)). simpl. rewrite read_key by done.
  by rewrite Hv.
Qed.

Lemma read_members_cons fuel l m rest :
  read_member l = Some (m, x2c :: rest) ->
  read_members (S fuel) l = prod_map (cons m) id <$> read_members fuel rest.
Proof. intros H. simpl. by rewrite H. Qed.

Lemma read_members_last fuel l m rest :
  read_member l = Some (m, x7d :: rest) -> read_members (S fuel) l = Some ([m], rest).
Proof. intros H. simpl. by rewrite H. Qed.

(** Bytes that a line reader does not stop at. *)
Definition printable (b : byte) : Prop := (0x20 <= u8 b)%Z.

Lemma escape_printable v : Forall printable (escape v).
Proof.
  induction v as [| b v IH]; [constructor |]. simpl. apply Forall_app. split; [| exact IH].
  destruct b; repeat constructor; vm_compute; done.
Qed.

Lemma digits_printable d : all_digits d = true -> Forall printable d.
Proof.
  intros Hd. apply Forall_forall. intros b Hb. unfold all_digits in Hd. rewrite forallb_forall in Hd.
  rewrite list_elem_of_In in Hb. apply Hd, is_ascii_digit_range in Hb. unfold printable. lia.
Qed.

Lemma literal_printable (l : bytes) : forallb (fun b => (0x20 <=? u8 b)%Z) l = true -> Forall printable l.
Proof.
  intros H. apply Forall_forall. intros b Hb. rewrite forallb_forall in H. rewrite list_elem_of_In in Hb.
  apply H in Hb. unfold printable. by bool_to_prop.
Qed.

Lemma push_str_printable key v :
  forallb (fun b => (0x20 <=? u8 b)%Z) (bs key) = true -> Forall printable (push_str key v).
Proof.
  intros Hk. unfold push_str. rewrite !Forall_app.
  split_and!; first [apply escape_printable | by apply literal_printable].
Qed.

Lemma drop_info l : read_info (bs "INFO {" ++ l) = read_members (6 + length l) l.
Proof. reflexivity. Qed.

Lemma read_members_str fuel key v rest :
  plain_key key = true ->
  read_members (S fuel) (push_str key v ++ bs "," ++ rest) =
  prod_map (cons (bs key, JStr v)) id <$> read_members fuel rest.
Proof. intros Hk. by apply read_members_cons, read_member_str. Qed.

Lemma read_members_num fuel key n rest :
  plain_key key = true -> in_u64 n ->
  read_members (S fuel) (raw_key key ++ display_uint n ++ bs "," ++ rest) =
  prod_map (cons (bs key, JNum n)) id <$> read_members fuel rest.
Proof. intros Hk Hn. apply read_members_cons, read_member_raw; [done |]. by apply read_value_num. Qed.

Lemma read_members_S fuel l :
  read_members (S fuel) l =
  match read_member l with
  | Some (m, x2c :: rest) => prod_map (cons m) id <$> read_members fuel rest
  | Some (m, x7d :: rest) => Some ([m], rest)
  | _ => None
  end.
Proof. reflexivity. Qed.

Lemma read_members_more fuel l x : read_members fuel l = Some x -> read_members (S fuel) l = Some x.
Proof.
  revert l x. induction fuel as [| fuel IH]; intros l x H; [done |].
  rewrite read_members_S in H |- *. destruct (read_member l) as [[m [| b rest]] |]; try done.
  destruct b; try done. destruct (read_members fuel rest) as [y |] eqn:E; [| done].
  by rewrite (IH _ _ E).
Qed.

Lemma read_members_le fuel fuel' l x :
  fuel <= fuel' -> read_members fuel l = Some x -> read_members fuel' l = Some x.
Proof.
  intros Hle H. induction Hle as [| fuel' _ IH]; [done |]. by apply read_members_more.
Qed.

(** ** Properties *)

(** C25: the INFO line says what it should, whatever the names contain.  Up to its
    final CRLF it has no control byte, so a client reads it as one line; and a JSON
    reader finds exactly the ten members, in the pinned order, with the values
    that were put in: no server name can break out of its string. *)
Theorem info_line_correct i cid ip :
  in_u64 (i_port i) -> in_u64 (i_max_payload i) -> in_u64 cid ->
  read_info (line i cid ip) =
    Some ([(bs "server_id", JStr (i_server_id i)); (bs "server_name", JStr (i_server_name i));
           (bs "version", JStr (i_version i)); (bs "proto", JNum 1); (bs "host", JStr (i_host i));
           (bs "port", JNum (i_port i)); (bs "headers", JTrue);
           (bs "max_payload", JNum (i_max_payload i)); (bs "client_id", JNum cid);
           (bs "client_ip", JStr ip)], bs " " ++ [x0d; x0a]) /\
  exists text, line i cid ip = text ++ [x0d; x0a] /\ Forall printable text.
Proof.
  intros Hp Hm Hc. split.
  - unfold line. rewrite drop_info.
    eapply (read_members_le 10); [rewrite length_app; simpl; lia |].
    do 3 rewrite read_members_str by reflexivity.
    change (raw_key "proto" ++ bs "1" ++ ?X) with (raw_key "proto" ++ display_uint 1 ++ X).
    rewrite read_members_num by (reflexivity || (vm_compute; done)).
    rewrite read_members_str by reflexivity.
    rewrite read_members_num by (reflexivity || done).
    rewrite (read_members_cons _ _ (bs "headers", JTrue)
      (raw_key "max_payload" ++ display_uint (i_max_payload i) ++ bs "," ++ raw_key "client_id" ++
       display_uint cid ++ bs "," ++ push_str "client_ip" ip ++ bs "} " ++ [x0d; x0a]))
      by (by apply (read_member_raw "headers" (bs "true"))).
    do 2 rewrite read_members_num by (reflexivity || done).
    rewrite (read_members_last _ _ (bs "client_ip", JStr ip) (bs " " ++ [x0d; x0a]))
      by (by apply (read_member_str "client_ip" ip)).
    reflexivity.
  - eexists. unfold line. rewrite !(assoc_L (++)). split; [reflexivity |].
    rewrite !display_uint_push_u64 by done.
    pose proof (proj1 (push_u64_spec _ Hp)). pose proof (proj1 (push_u64_spec _ Hm)).
    pose proof (proj1 (push_u64_spec _ Hc)).
    rewrite !Forall_app. split_and!; lazymatch goal with
      | |- Forall _ (push_str _ _) => apply push_str_printable; reflexivity
      | |- Forall _ (push_u64 _) => apply digits_printable; assumption
      | |- _ => apply literal_printable; reflexivity
      end.
Qed.

Lemma info_line_correct_witness :
  let i := mkInfo (bs "NID") [x22; x0a; "x"%byte] (bs "0.1.0") (bs "0.0.0.0") 4222 1048576 in
  exists text, line i 1 (bs "127.0.0.1") = text ++ [x0d; x0a] /\ Forall printable text.
Proof.
  intros i. apply (info_line_correct i 1 (bs "127.0.0.1")); vm_compute; done.
Defined.
