(* ===== verification/Config.v ===== *)
(** * Configuration (crates/server/src/config.rs): options and flags

    The options of the server, the command line, and how the two are combined.  A
    Rust string is the list of its characters (Unicode scalar values). *)

From Stdlib Require Import String Strings.Byte.
From S2P Require Import Prelude Decimal.

(** ** Strings *)

Abbreviation str := (list Z).

(** A string literal. *)
Definition cs (s : string) : str := map u8 (bs s).
Arguments cs : simpl never.

Definition is_digit (c : Z) : bool := (48 <=? c)%Z && (c <=? 57)%Z.

(** [char::to_digit(radix)], for a radix of 10 or 16. *)
Definition to_digit (radix c : Z) : option Z :=
  let d := if is_digit c then (c - 48)%Z
           else if (97 <=? c)%Z && (c <=? 122)%Z then (c - 87)%Z
           else if (65 <=? c)%Z && (c <=? 90)%Z then (c - 55)%Z else radix in
  if (d <? radix)%Z then Some d else None.

(** The value of a string of digits. *)
Fixpoint digits_of (radix acc : Z) (s : str) : option Z :=
  match s with
  | [] => Some acc
  | c :: s' =>
      match to_digit radix c with
      | Some d => digits_of radix (acc * radix + d) s'
      | None => None
      end
  end.

(** [<signed integer>::from_str_radix]: an optional sign, at least one digit, and a
    value within the type. *)
Definition from_str_radix (radix lo hi : Z) (s : str) : option Z :=
  let in_range n := if (lo <=? n)%Z && (n <=? hi)%Z then Some n else None in
  let signed neg s' :=
    if is_empty s' then None
    else digits_of radix 0 s' ≫= fun n => in_range (if neg : bool then (- n)%Z else n) in
  match s with
  | [] => None
  | 43%Z :: s' => signed false s'
  | 45%Z :: s' => signed true s'
  | _ => signed false s
  end.

Definition i32_min : Z := - 2 ^ 31.
Definition i32_max : Z := 2 ^ 31 - 1.
Definition i64_min : Z := - 2 ^ 63.
Definition i64_max : Z := 2 ^ 63 - 1.

Definition parse_i32 (s : str) : option Z := from_str_radix 10 i32_min i32_max s.
Definition parse_i64 (s : str) : option Z := from_str_radix 10 i64_min i64_max s.

(** [str::parse] for an unsigned type: no minus sign. *)
Definition parse_uint (hi : Z) (s : str) : option Z :=
  match s with
  | 45%Z :: _ => None
  | _ => from_str_radix 10 0 hi s
  end.

(** [s.split_once(c)]. *)
Fixpoint split_once (c : Z) (s : str) : option (str * str) :=
  match s with
  | [] => None
  | x :: s' =>
      if (x =? c)%Z then Some ([], s')
      else match split_once c s' with Some (a, b) => Some (x :: a, b) | None => None end
  end.

(** [s.starts_with(prefix)]. *)
Definition starts_with (prefix s : str) : bool := bool_decide (take (length prefix) s = prefix).

(** ** Options *)

Definition DEFAULT_PORT : Z := 4222.
Definition RANDOM_PORT : Z := -1.
Definition MAX_PAYLOAD : Z := 1024 * 1024.
Definition MAX_PENDING : Z := 64 * 1024 * 1024.
Definition MAX_CONTROL_LINE : Z := 4096.
Definition MAX_CONNECTIONS : Z := 64 * 1024.
(** Durations are nanoseconds. *)
Definition SECOND : Z := 1000000000.
Definition PING_INTERVAL : Z := 120 * SECOND.
Definition WRITE_DEADLINE : Z := 10 * SECOND.

Record Config := mkConfig {
  cfg_host : str;
  cfg_port : Z;
  cfg_ports_file_dir : option str;
  cfg_server_name : option str;
  cfg_max_payload : Z;
  cfg_max_pending : Z;
  cfg_max_control_line : Z;
  cfg_max_connections : Z;
  cfg_ping_interval : Z;
  cfg_write_deadline : Z;
  cfg_debug : bool;
  cfg_trace : bool }.

Definition config_default : Config :=
  mkConfig (cs "0.0.0.0") 0 None None MAX_PAYLOAD MAX_PENDING MAX_CONTROL_LINE MAX_CONNECTIONS
           PING_INTERVAL WRITE_DEADLINE false false.

Definition bind_port (c : Config) : Z := if (cfg_port c =? 0)%Z then DEFAULT_PORT else cfg_port c.

(** The decimal text of an unsigned number. *)
Definition show (n : Z) : str := map u8 (display_uint n).

Definition validate (c : Config) : result unit str :=
  if (cfg_max_payload c >? cfg_max_pending c)%Z
  then Err (cs "max_payload (" ++ show (cfg_max_payload c) ++
            cs ") cannot be higher than max_pending (" ++ show (cfg_max_pending c) ++ cs ")")
  else Ok tt.

(** ** The command line *)

Record CmdArgs := mkCmdArgs {
  a_config_file : option str;
  a_test_config : bool;
  a_version : bool;
  a_help : bool;
  a_host : option str;
  a_port : option Z;
  a_ports_file_dir : option str;
  a_server_name : option str;
  a_debug : bool;
  a_trace : bool }.

Definition args_default : CmdArgs := mkCmdArgs None false false false None None None None false false.

Definition set_config_file (a : CmdArgs) v := mkCmdArgs (Some v) (a_test_config a) (a_version a) (a_help a)
  (a_host a) (a_port a) (a_ports_file_dir a) (a_server_name a) (a_debug a) (a_trace a).
Definition set_test_config (a : CmdArgs) := mkCmdArgs (a_config_file a) true (a_version a) (a_help a)
  (a_host a) (a_port a) (a_ports_file_dir a) (a_server_name a) (a_debug a) (a_trace a).
Definition set_version (a : CmdArgs) := mkCmdArgs (a_config_file a) (a_test_config a) true (a_help a)
  (a_host a) (a_port a) (a_ports_file_dir a) (a_server_name a) (a_debug a) (a_trace a).
Definition set_help (a : CmdArgs) := mkCmdArgs (a_config_file a) (a_test_config a) (a_version a) true
  (a_host a) (a_port a) (a_ports_file_dir a) (a_server_name a) (a_debug a) (a_trace a).
Definition set_host (a : CmdArgs) v := mkCmdArgs (a_config_file a) (a_test_config a) (a_version a) (a_help a)
  (Some v) (a_port a) (a_ports_file_dir a) (a_server_name a) (a_debug a) (a_trace a).
Definition set_port (a : CmdArgs) v := mkCmdArgs (a_config_file a) (a_test_config a) (a_version a) (a_help a)
  (a_host a) (Some v) (a_ports_file_dir a) (a_server_name a) (a_debug a) (a_trace a).
Definition set_ports_file_dir (a : CmdArgs) v := mkCmdArgs (a_config_file a) (a_test_config a) (a_version a)
  (a_help a) (a_host a) (a_port a) (Some v) (a_server_name a) (a_debug a) (a_trace a).
Definition set_server_name (a : CmdArgs) v := mkCmdArgs (a_config_file a) (a_test_config a) (a_version a)
  (a_help a) (a_host a) (a_port a) (a_ports_file_dir a) (Some v) (a_debug a) (a_trace a).
Definition set_debug (a : CmdArgs) := mkCmdArgs (a_config_file a) (a_test_config a) (a_version a) (a_help a)
  (a_host a) (a_port a) (a_ports_file_dir a) (a_server_name a) true (a_trace a).
Definition set_trace (a : CmdArgs) := mkCmdArgs (a_config_file a) (a_test_config a) (a_version a) (a_help a)
  (a_host a) (a_port a) (a_ports_file_dir a) (a_server_name a) (a_debug a) true.

(** The arms of [match name.as_str()]: a flag that takes a value, or one that does
    not. *)
Inductive Flag :=
| WithValue (set : str -> CmdArgs -> result CmdArgs str)
| Switch (set : CmdArgs -> CmdArgs).

(** Is [name] one of these literals? *)
Definition one_of (name : str) (l : list string) : bool :=
  existsb (fun s => bool_decide (name = cs s)) l.

Definition flag_of (program name : str) : option Flag :=
  if one_of name ["-a"; "--addr"; "--net"]%string then Some (WithValue (fun v a => Ok (set_host a v)))
  else if one_of name ["-p"; "--port"]%string then
    Some (WithValue (fun v a =>
      match parse_i32 v with
      | Some p => Ok (set_port a p)
      | None => Err (program ++ cs ": invalid value " ++ [34%Z] ++ v ++ [34%Z] ++ cs " for flag -p: parse error")
      end))
  else if one_of name ["-n"; "--name"; "--server_name"]%string
  then Some (WithValue (fun v a => Ok (set_server_name a v)))
  else if one_of name ["-c"; "--config"]%string then Some (WithValue (fun v a => Ok (set_config_file a v)))
  else if one_of name ["--ports_file_dir"]%string
  then Some (WithValue (fun v a => Ok (set_ports_file_dir a v)))
  else if one_of name ["-t"]%string then Some (Switch set_test_config)
  else if one_of name ["-v"; "--version"]%string then Some (Switch set_version)
  else if one_of name ["-h"; "--help"]%string then Some (Switch set_help)
  else if one_of name ["-D"; "--debug"]%string then Some (Switch set_debug)
  else if one_of name ["-V"; "--trace"]%string then Some (Switch set_trace)
  else None.

(** [-x=v] for long flags: the name, and the value given inline. *)
Definition split_flag (arg : str) : str * option str :=
  match split_once 61 arg with
  | Some (n, v) => if starts_with (cs "--") n then (n, Some v) else (arg, None)
  | None => (arg, None)
  end.

(** The loop of [parse_args], with [out] so far. *)
Fixpoint parse_args_loop (program : str) (argv : list str) (out : CmdArgs) : result CmdArgs str :=
  match argv with
  | [] => Ok out
  | arg :: rest =>
      if is_empty arg || negb (starts_with (cs "-") arg) || bool_decide (arg = cs "-") then Ok out
      else
        let (name, inline) := split_flag arg in
        match flag_of program name with
        | None => Err (program ++ cs ": flag provided but not defined: " ++ name)
        | Some (Switch set) => parse_args_loop program rest (set out)
        | Some (WithValue set) =>
            match inline with
            | Some v => out' <-? set v out ;; parse_args_loop program rest out'
            | None =>
                match rest with
                | v :: rest' => out' <-? set v out ;; parse_args_loop program rest' out'
                | [] => Err (program ++ cs ": flag needs an argument: " ++ name)
                end
            end
        end
  end.

Definition parse_args (argv : list str) (program : str) : result CmdArgs str :=
  parse_args_loop program argv args_default.

Definition apply_flags (c : Config) (a : CmdArgs) : Config :=
  mkConfig (default (cfg_host c) (a_host a)) (default (cfg_port c) (a_port a))
    (match a_ports_file_dir a with Some d => Some d | None => cfg_ports_file_dir c end)
    (match a_server_name a with Some n => Some n | None => cfg_server_name c end)
    (cfg_max_payload c) (cfg_max_pending c) (cfg_max_control_line c) (cfg_max_connections c)
    (cfg_ping_interval c) (cfg_write_deadline c) (cfg_debug c || a_debug a) (cfg_trace c || a_trace a).

(** The lines of [usage], the first of them empty. *)
Definition usage_lines (program : str) : list str :=
  [[]; cs "Usage: " ++ program ++ cs " [options]"; [];
   cs "Server Options:";
   cs "    -a, --addr, --net <host>         Bind to host address (default: 0.0.0.0)";
   cs "    -p, --port <port>                Use port for clients (default: 4222)";
   cs "    -n, --name, --server_name <name> Server name (default: auto)";
   cs "    -c, --config <file>              Configuration file";
   cs "    -t                               Test configuration and exit";
   cs "        --ports_file_dir <dir>       Creates a ports file in the specified directory";
   cs "    -v, --version                    Show version"; [];
   cs "Logging Options:";
   cs "    -D, --debug                      Enable debugging output";
   cs "    -V, --trace                      Trace the raw protocol"].

Definition usage (program : str) : str := concat (map (fun l => l ++ [10%Z]) (usage_lines program)).

(** ** A command line for every set of arguments *)

(** The decimal text of an [i32]. *)
Definition show_int (n : Z) : str := if (n <? 0)%Z then 45%Z :: show (- n) else show n.

Definition value_flag (name : string) (v : option str) : list str :=
  from_option (fun v => [cs name; v]) [] v.

Definition switch_flag (name : string) (b : bool) : list str := if b then [cs name] else [].

Definition render_args (a : CmdArgs) : list str :=
  value_flag "-c" (a_config_file a) ++ switch_flag "-t" (a_test_config a) ++
  switch_flag "-v" (a_version a) ++ switch_flag "-h" (a_help a) ++
  value_flag "-a" (a_host a) ++ value_flag "-p" (show_int <$> a_port a) ++
  value_flag "--ports_file_dir" (a_ports_file_dir a) ++ value_flag "-n" (a_server_name a) ++
  switch_flag "-D" (a_debug a) ++ switch_flag "-V" (a_trace a).

Definition port_ok (a : CmdArgs) : Prop :=
  from_option (fun p => i32_min <= p <= i32_max)%Z True (a_port a).

(** The flags a text speaks of: its words that begin with a dash, less a comma. *)
Fixpoint words_of (word s : str) : list str :=
  match s with
  | [] => [word]
  | c :: s => if (c =? 32)%Z || (c =? 10)%Z then word :: words_of [] s else words_of (word ++ [c]) s
  end.

Definition flag_words (s : str) : list str :=
  map (fun w => if bool_decide (last w = Some 44%Z) then removelast w else w)
      (List.filter (starts_with (cs "-")) (words_of [] s)).

(** ** Lemmas *)

Lemma digits_of_app radix acc s t :
  digits_of radix acc (s ++ t) = digits_of radix acc s ≫= fun n => digits_of radix n t.
Proof. revert acc. induction s as [| c s IH]; intros acc; simpl; [done |]. by destruct (to_digit radix c). Qed.

Lemma digits_of_digits acc d :
  all_digits d = true ->
  digits_of 10 acc (map u8 d) = Some (foldl (fun n b => n * 10 + (u8 b - 48))%Z acc d).
Proof.
  revert acc. induction d as [| b d IH]; intros acc Hd; simpl in *; [done |]. bool_to_prop.
  apply is_ascii_digit_range in H. unfold to_digit, is_digit.
  rewrite (proj2 (Z.leb_le 48 (u8 b))), (proj2 (Z.leb_le (u8 b) 57)) by lia. simpl.
  rewrite (proj2 (Z.ltb_lt (u8 b - 48) 10)) by lia. by apply IH.
Qed.

Lemma show_digits n :
  in_u64 n -> exists c s, show n = c :: s /\ (48 <= c <= 57)%Z /\ digits_of 10 0 (show n) = Some n.
Proof.
  intros Hn. unfold show. rewrite display_uint_push_u64 by done.
  destruct (push_u64_spec n Hn) as (Hd & Hv & Hne & _). destruct (push_u64 n) as [| b d]; [done |].
  exists (u8 b), (map u8 d). rewrite digits_of_digits by done. split_and!; [done | .. | by rewrite <- Hv].
  all: simpl in Hd; bool_to_prop; apply is_ascii_digit_range in H; lia.
Qed.

(** The text of a number is digits. *)
Lemma show_chars n : in_u64 n -> Forall (fun c => 48 <= c <= 57)%Z (show n).
Proof.
  intros Hn. unfold show. rewrite display_uint_push_u64 by done.
  destruct (push_u64_spec n Hn) as (Hd & _). apply Forall_map.
  unfold all_digits in Hd. rewrite forallb_forall in Hd. apply Forall_forall. intros b Hb.
  by apply is_ascii_digit_range, Hd, list_elem_of_In.
Qed.

Lemma parse_uint_show hi n : in_u64 n -> (n <= hi)%Z -> parse_uint hi (show n) = Some n.
Proof.
  intros Hn Hhi. destruct (show_digits n Hn) as (c & s & E & Hc & Hd). unfold parse_uint, from_str_radix. rewrite E in *.
  assert (Hin : (if (0 <=? n)%Z && (n <=? hi)%Z then Some n else None) = Some n).
  { unfold in_u64 in Hn. by rewrite (proj2 (Z.leb_le 0 n)), (proj2 (Z.leb_le n hi)) by lia. }
  simpl is_empty. rewrite Hd. cbn [mbind option_bind]. rewrite Hin.
  assert (H : c = 48%Z \/ c = 49%Z \/ c = 50%Z \/ c = 51%Z \/ c = 52%Z \/ c = 53%Z \/ c = 54%Z \/ c = 55%Z \/ c = 56%Z \/ c = 57%Z) by lia.
  by repeat destruct H as [-> | H]; [..| subst c].
Qed.

(** Parsing the decimal text of a number of the type gives it back. *)
Lemma from_str_show lo hi n :
  (lo <= n <= hi)%Z -> (- 2 ^ 63 <= lo)%Z -> (hi < 2 ^ 63)%Z ->
  from_str_radix 10 lo hi (show_int n) = Some n.
Proof.
  intros Hn Hlo Hhi. unfold show_int.
  assert (Hr : forall m, (lo <= m <= hi)%Z ->
    (if (lo <=? m)%Z && (m <=? hi)%Z then Some m else None) = Some m).
  { intros m Hm. by rewrite (proj2 (Z.leb_le lo m)), (proj2 (Z.leb_le m hi)) by lia. }
  destruct (n <? 0)%Z eqn:E; bool_to_prop.
  - destruct (show_digits (- n)) as (c & s & Hs & _ & Hv); [unfold in_u64, u64_modulus; lia |].
    unfold from_str_radix. rewrite Hs in Hv |- *. cbn [is_empty]. rewrite Hv. simpl.
    rewrite Z.opp_involutive. by apply Hr.
  - destruct (show_digits n) as (c & s & Hs & Hc & Hv); [unfold in_u64, u64_modulus; lia |].
    assert (Hplain : from_str_radix 10 lo hi (show n) =
      digits_of 10 0 (show n) ≫= fun n => if (lo <=? n)%Z && (n <=? hi)%Z then Some n else None).
    { rewrite Hs. unfold from_str_radix. assert (c <> 43 /\ c <> 45)%Z as [? ?] by lia.
      by repeat (case_match; try done; try lia). }
    rewrite Hplain, Hv. by apply Hr.
Qed.

(** ** How the loop consumes a flag *)

(** Is this argument a flag, in the loop's own test? *)
Definition is_flag (arg : str) : bool :=
  negb (is_empty arg || negb (starts_with (cs "-") arg) || bool_decide (arg = cs "-")).

(** The first argument that is not a flag ends the command line. *)
Definition ends_flags (rest : list str) : bool :=
  match rest with [] => true | arg :: _ => negb (is_flag arg) end.

Section Loop.

Variable program : str.

Lemma loop_end rest out : ends_flags rest = true -> parse_args_loop program rest out = Ok out.
Proof.
  destruct rest as [| arg rest]; [done |]. unfold ends_flags, is_flag. rewrite negb_involutive.
  intros H. cbn [parse_args_loop]. by rewrite H.
Qed.

Lemma loop_value name set out' v rest out :
  is_flag (cs name) = true -> split_flag (cs name) = (cs name, None) ->
  flag_of program (cs name) = Some (WithValue set) ->
  from_option (fun v => set v out) (Ok out) v = Ok out' ->
  parse_args_loop program (value_flag name v ++ rest) out = parse_args_loop program rest out'.
Proof.
  unfold is_flag. intros H1%negb_true_iff H2 H3 H4. destruct v as [v |]; [| by simpl in H4; simplify_eq].
  simpl in H4. cbn [value_flag from_option app parse_args_loop]. by rewrite H1, H2, H3, H4.
Qed.

(** The port is parsed back. *)
Lemma loop_port v rest out :
  from_option (fun p => i32_min <= p <= i32_max)%Z True v ->
  parse_args_loop program (value_flag "-p" (show_int <$> v) ++ rest) out =
    parse_args_loop program rest (from_option (set_port out) out v).
Proof.
  intros Hv. eapply loop_value; [reflexivity.. |]. destruct v as [p |]; [simpl in Hv |- * | done].
  unfold parse_i32. by rewrite from_str_show by (unfold i32_min, i32_max in *; lia).
Qed.

Lemma loop_switch name set b rest out :
  is_flag (cs name) = true -> split_flag (cs name) = (cs name, None) ->
  flag_of program (cs name) = Some (Switch set) ->
  parse_args_loop program (switch_flag name b ++ rest) out =
    parse_args_loop program rest (if b then set out else out).
Proof.
  unfold is_flag. intros H1%negb_true_iff H2 H3. destruct b; [| done].
  cbn [switch_flag app parse_args_loop]. by rewrite H1, H2, H3.
Qed.

End Loop.

(** C27: the command line round-trips.  Writing any set of arguments out as flags,
    with a port of the type, and parsing that command line gives the same arguments,
    for every program name and whatever follows the flags. *)
Theorem parse_args_roundtrip (program : str) (a : CmdArgs) (rest : list str) :
  port_ok a -> ends_flags rest = true -> parse_args (render_args a ++ rest) program = Ok a.
Proof.
  intros Hp Hr. unfold parse_args, render_args. rewrite <- !app_assoc.
  destruct a as [cf tc ve he ho po pd sn de tr]. unfold port_ok in Hp. simpl in Hp.
  cbn [a_config_file a_test_config a_version a_help a_host a_port a_ports_file_dir a_server_name a_debug a_trace].
  rewrite (loop_value _ "-c" _ (mkCmdArgs cf false false false None None None None false false))
    by first [reflexivity | by destruct cf].
  do 3 (erewrite loop_switch by reflexivity).
  match goal with |- parse_args_loop _ _ ?o = _ =>
    replace o with (mkCmdArgs cf tc ve he None None None None false false) by by destruct tc, ve, he
  end.
  rewrite (loop_value _ "-a" _ (mkCmdArgs cf tc ve he ho None None None false false))
    by first [reflexivity | by destruct ho].
  rewrite loop_port by done.
  replace (from_option _ _ po) with (mkCmdArgs cf tc ve he ho po None None false false) by by destruct po.
  rewrite (loop_value _ "--ports_file_dir" _ (mkCmdArgs cf tc ve he ho po pd None false false))
    by first [reflexivity | by destruct pd].
  rewrite (loop_value _ "-n" _ (mkCmdArgs cf tc ve he ho po pd sn false false))
    by first [reflexivity | by destruct sn].
  do 2 (erewrite loop_switch by reflexivity). rewrite loop_end by done.
  by destruct de, tr.
Qed.

Lemma parse_args_roundtrip_witness :
  let a := mkCmdArgs (Some (cs "n.conf")) false false false None (Some (-1)%Z) None None true false in
  parse_args [cs "-c"; cs "n.conf"; cs "-p"; cs "-1"; cs "-D"; cs "extra"; cs "-t"] (cs "nats-server") = Ok a.
Proof.
  refine (parse_args_roundtrip (cs "nats-server")
    (mkCmdArgs (Some (cs "n.conf")) false false false None (Some (-1)%Z) None None true false)
    [cs "extra"; cs "-t"] _ _).
  - vm_compute. split; discriminate.
  - vm_compute. reflexivity.
Defined.

(** Every flag the usage text names is one the parser of the command line knows. *)
Lemma usage_flags_known :
  let flags := flag_words (usage (cs "nats-server-rs")) in
  length flags = 18 /\ forallb (fun f => if flag_of (cs "nats-server-rs") f is Some _ then true else false) flags = true.
Proof. vm_compute. done. Qed.
