(* ===== verification/ConfigFile.v ===== *)
(** * The configuration file (crates/server/src/config.rs)

    [parse_config] and the readers of values: strings, integers, booleans and
    durations.  A duration's number is read as an [f64] by the code; that is the
    decimal value rounded to 53 significant bits, then truncated. *)

From Stdlib Require Import String Strings.Byte.
From S2P Require Import Prelude Decimal Config.

(** ** Strings *)

(** [char::is_whitespace]: the Unicode property White_Space. *)
Definition is_whitespace (c : Z) : bool :=
  ((9 <=? c)%Z && (c <=? 13)%Z) || (c =? 32)%Z || (c =? 133)%Z || (c =? 160)%Z || (c =? 5760)%Z ||
  ((8192 <=? c)%Z && (c <=? 8202)%Z) || (c =? 8232)%Z || (c =? 8233)%Z || (c =? 8239)%Z ||
  (c =? 8287)%Z || (c =? 12288)%Z.

Fixpoint trim_start_matches (p : Z -> bool) (s : str) : str :=
  match s with
  | [] => []
  | c :: s' => if p c then trim_start_matches p s' else s
  end.

Definition trim_end_matches (p : Z -> bool) (s : str) : str := reverse (trim_start_matches p (reverse s)).
Definition trim_matches (p : Z -> bool) (s : str) : str := trim_end_matches p (trim_start_matches p s).
Definition trim (s : str) : str := trim_matches is_whitespace s.

(** [s.strip_suffix(c)], or [s] itself. *)
Definition without_suffix (c : Z) (s : str) : str :=
  match reverse s with x :: r => if (x =? c)%Z then reverse r else s | [] => s end.

(** [s.lines()]: what is before each newline, less a carriage return there, and a
    last line that is not empty. *)
Fixpoint lines_from (cur : str) (s : str) : list str :=
  match s with
  | [] => if is_empty cur then [] else [cur]
  | c :: s' => if (c =? 10)%Z then without_suffix 13 cur :: lines_from [] s' else lines_from (cur ++ [c]) s'
  end.
Definition lines (s : str) : list str := lines_from [] s.

(** [raw[..i]] for the first [#], or the whole line. *)
Fixpoint before_comment (s : str) : str :=
  match s with
  | [] => []
  | c :: s' => if (c =? 35)%Z then [] else c :: before_comment s'
  end.

Definition is_quote (c : Z) : bool := (c =? 34)%Z || (c =? 39)%Z.
Definition is_comma (c : Z) : bool := (c =? 44)%Z.

Definition unquote (v : str) : str := trim_matches is_quote (trim (trim_end_matches is_comma (trim v))).

(** ** Values *)

Inductive ConfigError :=
| E_no_key (line : nat)
| E_int (s : str)
| E_bool (s : str)
| E_duration (field s : str)
| E_field (name : str).

Definition parse_string (v : str) : result str ConfigError := Ok (unquote v).

(** [s.strip_prefix(p)]. *)
Definition strip_prefix (p s : str) : option str :=
  if starts_with p s then Some (drop (length p) s) else None.

Definition ok_or {A E} (e : E) (o : option A) : result A E := match o with Some a => Ok a | None => Err e end.

Definition parse_int (v : str) : result Z ConfigError :=
  let s := unquote v in
  match (match strip_prefix (cs "0x") s with Some h => Some h | None => strip_prefix (cs "0X") s end) with
  | Some hex => ok_or (E_int s) (from_str_radix 16 i64_min i64_max hex)
  | None => ok_or (E_int s) (parse_i64 s)
  end.

Definition parse_bool (v : str) : result bool ConfigError :=
  let s := unquote v in
  if one_of s ["true"; "on"; "yes"]%string then Ok true
  else if one_of s ["false"; "off"; "no"]%string then Ok false
  else Err (E_bool s).

(** ** Durations *)

(** The decimal text [int.frac] as a fraction: at most one point, at least one
    digit. *)
Fixpoint decimal_from (m : Z) (k : option Z) (seen : bool) (s : str) : option (Z * Z) :=
  match s with
  | [] => if seen then Some (m, default 0%Z k) else None
  | c :: s' =>
      if (c =? 46)%Z then
        match k with None => decimal_from m (Some 0%Z) seen s' | Some _ => None end
      else if is_digit c then decimal_from (m * 10 + (c - 48)) ((fun k => k + 1)%Z <$> k) true s'
      else None
  end.

(** [m / 10^k]. *)
Definition decimal (s : str) : option (Z * Z) := decimal_from 0 None false s.

(** [n / d] rounded to an integer, a tie to the even one. *)
Definition round_half_even (n d : Z) : Z :=
  let q := (n / d)%Z in
  let r := (n mod d)%Z in
  if (2 * r <? d)%Z then q
  else if (d <? 2 * r)%Z then (q + 1)%Z
  else if Z.even q then q else (q + 1)%Z.

(** The integer part of the [f64] nearest to [m / 10^k].  With [e] the binary
    exponent of the value, the [f64] is a multiple of [2^(e-52)]; below a half its
    integer part is 0. *)
Definition f64_trunc (m k : Z) : Z :=
  let d := (10 ^ k)%Z in
  if (2 * m <? d)%Z then 0%Z
  else
    let e := if (m <? d)%Z then (-1)%Z else Z.log2 (m / d) in
    if (e <=? 52)%Z
    then (round_half_even (m * 2 ^ (52 - e)) d / 2 ^ (52 - e))%Z
    else (round_half_even m (d * 2 ^ (e - 52)) * 2 ^ (e - 52))%Z.

Definition u128_modulus : Z := 2 ^ 128.

(** [num as u128]: a float out of range, infinity too, is the largest number. *)
Definition f64_as_u128 (m k : Z) : Z := Z.min (f64_trunc m k) (u128_modulus - 1).

Definition scale_of (unit : str) : option Z :=
  if bool_decide (unit = cs "ns") then Some 1%Z
  else if bool_decide (unit = cs "us") || bool_decide (unit = [181%Z; 115%Z]) then Some 1000%Z
  else if bool_decide (unit = cs "ms") then Some 1000000%Z
  else if bool_decide (unit = cs "s") then Some 1000000000%Z
  else if bool_decide (unit = cs "m") then Some (60 * 1000000000)%Z
  else if bool_decide (unit = cs "h") then Some (3600 * 1000000000)%Z
  else if bool_decide (unit = []) then Some 1000000000%Z
  else None.

(** The scan of a number, and of a unit: what satisfies [p], and the rest. *)
Fixpoint span (p : Z -> bool) (s : str) : str * str :=
  match s with
  | [] => ([], [])
  | c :: s' => if p c then let (a, b) := span p s' in (c :: a, b) else ([], s)
  end.

Definition numeric (c : Z) : bool := is_digit c || (c =? 46)%Z.

(** The loop of [parse_duration_str]; each pass takes at least one character. *)
Fixpoint duration_loop (fuel : nat) (total : Z) (s : str) : option Z :=
  match fuel with
  | O => None
  | S fuel' =>
      if is_empty s then Some total
      else
        let (num_text, rest) := span numeric s in
        if is_empty num_text then None
        else
          '(m, k) ← decimal num_text;
          let (unit, rest') := span (fun c => negb (numeric c)) rest in
          scale ← scale_of unit;
          duration_loop fuel' ((total + f64_as_u128 m k * scale) mod u128_modulus)%Z rest'
  end.

(** In nanoseconds. *)
Definition parse_duration_str (s : str) : option Z :=
  match s with
  | [] => None
  | c :: s' =>
      let negative := (c =? 45)%Z in
      let body := if negative || (c =? 43)%Z then s' else s in
      if is_empty body then None
      else
        total ← duration_loop (S (length body)) 0 body;
        if negative then None else Some (wrap64 total)
  end.

Definition parse_duration (v field : str) (warnings : list str) : result (Z * list str) ConfigError :=
  let s := unquote v in
  let quoted := starts_with [34%Z] (trim v) || starts_with [39%Z] (trim v) in
  let as_text := ok_or (E_duration field s) (parse_duration_str s) in
  if quoted then d <-? as_text ;; Ok (d, warnings)
  else
    match parse_i64 s with
    | Some secs => Ok ((wrap64 secs * SECOND)%Z, warnings ++ [field ++ cs " should be converted to a duration"])
    | None => d <-? as_text ;; Ok (d, warnings)
    end.

(** ** The file *)

Definition wrap32 (n : Z) : Z := ((n + 2 ^ 31) mod 2 ^ 32 - 2 ^ 31)%Z.

Definition cfg_set_host (c : Config) v := mkConfig v (cfg_port c) (cfg_ports_file_dir c) (cfg_server_name c)
  (cfg_max_payload c) (cfg_max_pending c) (cfg_max_control_line c) (cfg_max_connections c) (cfg_ping_interval c)
  (cfg_write_deadline c) (cfg_debug c) (cfg_trace c).
Definition cfg_set_port (c : Config) v := mkConfig (cfg_host c) v (cfg_ports_file_dir c) (cfg_server_name c)
  (cfg_max_payload c) (cfg_max_pending c) (cfg_max_control_line c) (cfg_max_connections c) (cfg_ping_interval c)
  (cfg_write_deadline c) (cfg_debug c) (cfg_trace c).
Definition cfg_set_server_name (c : Config) v := mkConfig (cfg_host c) (cfg_port c) (cfg_ports_file_dir c) (Some v)
  (cfg_max_payload c) (cfg_max_pending c) (cfg_max_control_line c) (cfg_max_connections c) (cfg_ping_interval c)
  (cfg_write_deadline c) (cfg_debug c) (cfg_trace c).
Definition cfg_set_max_payload (c : Config) v := mkConfig (cfg_host c) (cfg_port c) (cfg_ports_file_dir c)
  (cfg_server_name c) v (cfg_max_pending c) (cfg_max_control_line c) (cfg_max_connections c) (cfg_ping_interval c)
  (cfg_write_deadline c) (cfg_debug c) (cfg_trace c).
Definition cfg_set_max_pending (c : Config) v := mkConfig (cfg_host c) (cfg_port c) (cfg_ports_file_dir c)
  (cfg_server_name c) (cfg_max_payload c) v (cfg_max_control_line c) (cfg_max_connections c) (cfg_ping_interval c)
  (cfg_write_deadline c) (cfg_debug c) (cfg_trace c).
Definition cfg_set_max_control_line (c : Config) v := mkConfig (cfg_host c) (cfg_port c) (cfg_ports_file_dir c)
  (cfg_server_name c) (cfg_max_payload c) (cfg_max_pending c) v (cfg_max_connections c) (cfg_ping_interval c)
  (cfg_write_deadline c) (cfg_debug c) (cfg_trace c).
Definition cfg_set_max_connections (c : Config) v := mkConfig (cfg_host c) (cfg_port c) (cfg_ports_file_dir c)
  (cfg_server_name c) (cfg_max_payload c) (cfg_max_pending c) (cfg_max_control_line c) v (cfg_ping_interval c)
  (cfg_write_deadline c) (cfg_debug c) (cfg_trace c).
Definition cfg_set_ping_interval (c : Config) v := mkConfig (cfg_host c) (cfg_port c) (cfg_ports_file_dir c)
  (cfg_server_name c) (cfg_max_payload c) (cfg_max_pending c) (cfg_max_control_line c) (cfg_max_connections c) v
  (cfg_write_deadline c) (cfg_debug c) (cfg_trace c).
Definition cfg_set_write_deadline (c : Config) v := mkConfig (cfg_host c) (cfg_port c) (cfg_ports_file_dir c)
  (cfg_server_name c) (cfg_max_payload c) (cfg_max_pending c) (cfg_max_control_line c) (cfg_max_connections c)
  (cfg_ping_interval c) v (cfg_debug c) (cfg_trace c).
Definition cfg_set_debug (c : Config) v := mkConfig (cfg_host c) (cfg_port c) (cfg_ports_file_dir c)
  (cfg_server_name c) (cfg_max_payload c) (cfg_max_pending c) (cfg_max_control_line c) (cfg_max_connections c)
  (cfg_ping_interval c) (cfg_write_deadline c) v (cfg_trace c).
Definition cfg_set_trace (c : Config) v := mkConfig (cfg_host c) (cfg_port c) (cfg_ports_file_dir c)
  (cfg_server_name c) (cfg_max_payload c) (cfg_max_pending c) (cfg_max_control_line c) (cfg_max_connections c)
  (cfg_ping_interval c) (cfg_write_deadline c) (cfg_debug c) v.

(** The options so far, and the warnings. *)
Definition Parsed : Type := Config * list str.

(** The arms of [match key]. *)
Definition set_field (key value : str) (p : Parsed) : result Parsed ConfigError :=
  let (c, ws) := p in
  if one_of key ["host"]%string then v <-? parse_string value ;; Ok (cfg_set_host c v, ws)
  else if one_of key ["port"]%string then n <-? parse_int value ;; Ok (cfg_set_port c (wrap32 n), ws)
  else if one_of key ["server_name"; "name"]%string
  then v <-? parse_string value ;; Ok (cfg_set_server_name c v, ws)
  else if one_of key ["max_payload"]%string then n <-? parse_int value ;; Ok (cfg_set_max_payload c (wrap64 n), ws)
  else if one_of key ["max_pending"]%string then n <-? parse_int value ;; Ok (cfg_set_max_pending c (wrap64 n), ws)
  else if one_of key ["max_control_line"]%string
  then n <-? parse_int value ;; Ok (cfg_set_max_control_line c (wrap64 n), ws)
  else if one_of key ["max_connections"; "max_conn"]%string
  then n <-? parse_int value ;; Ok (cfg_set_max_connections c n, ws)
  else if one_of key ["ping_interval"]%string
  then d <-? parse_duration value key ws ;; Ok (cfg_set_ping_interval c d.1, d.2)
  else if one_of key ["write_deadline"]%string
  then d <-? parse_duration value key ws ;; Ok (cfg_set_write_deadline c d.1, d.2)
  else if one_of key ["debug"]%string then b <-? parse_bool value ;; Ok (cfg_set_debug c b, ws)
  else if one_of key ["trace"]%string then b <-? parse_bool value ;; Ok (cfg_set_trace c b, ws)
  else Err (E_field key).

(** One line of the file. *)
Definition config_line (idx : nat) (raw : str) (p : Parsed) : result Parsed ConfigError :=
  let line := trim (before_comment raw) in
  if is_empty line then Ok p
  else
    match split_once 58 line with
    | None => Err (E_no_key (idx + 1))
    | Some (key, value) => set_field (trim_matches (fun c => (c =? 34)%Z) (trim key)) value p
    end.

Fixpoint config_lines (idx : nat) (ls : list str) (p : Parsed) : result Parsed ConfigError :=
  match ls with
  | [] => Ok p
  | raw :: ls' => p' <-? config_line idx raw p ;; config_lines (S idx) ls' p'
  end.

Definition parse_config (text : str) : result Parsed ConfigError :=
  config_lines 0 (lines text) (config_default, []).

(** ** A file for every set of options *)

Definition quoted (s : str) : str := [34%Z] ++ s ++ [34%Z].
Definition show_bool (b : bool) : str := if b then cs "true" else cs "false".

Definition ns_text (n : Z) : str := show n ++ cs "ns".

(** [key: value]. *)
Definition field (key : string) (value : str) : str := cs key ++ [58%Z; 32%Z] ++ value.

Definition render_config (c : Config) : str :=
  concat (map (fun l => l ++ [10%Z])
    ([field "host" (quoted (cfg_host c)); field "port" (show_int (cfg_port c))] ++
     from_option (fun n => [field "server_name" (quoted n)]) [] (cfg_server_name c) ++
     [field "max_payload" (show_int (cfg_max_payload c)); field "max_pending" (show_int (cfg_max_pending c));
      field "max_control_line" (show_int (cfg_max_control_line c));
      field "max_connections" (show_int (cfg_max_connections c));
      field "ping_interval" (quoted (ns_text (cfg_ping_interval c)));
      field "write_deadline" (quoted (ns_text (cfg_write_deadline c)));
      field "debug" (show_bool (cfg_debug c)); field "trace" (show_bool (cfg_trace c))])).

(** A string that can be written between quotes: no newline or [#], and no quote at
    either end. *)
Definition writable (s : str) : Prop :=
  Forall (fun c => c <> 10 /\ c <> 35)%Z s /\
  (forall c, head s = Some c -> is_quote c = false) /\ (forall c, last s = Some c -> is_quote c = false).

(** Options a file can set: numbers of their types, durations within the integers
    an [f64] holds exactly. *)
Definition config_ok (c : Config) : Prop :=
  writable (cfg_host c) /\ (i32_min <= cfg_port c <= i32_max)%Z /\ cfg_ports_file_dir c = None /\
  from_option writable True (cfg_server_name c) /\
  (0 <= cfg_max_payload c <= i64_max)%Z /\ (0 <= cfg_max_pending c <= i64_max)%Z /\
  (0 <= cfg_max_control_line c <= i64_max)%Z /\ (i64_min <= cfg_max_connections c <= i64_max)%Z /\
  (0 <= cfg_ping_interval c < 2 ^ 53)%Z /\ (0 <= cfg_write_deadline c < 2 ^ 53)%Z.

Example config_text :
  parse_config (cs "host: 127.0.0.1 # c" ++ [10%Z] ++ cs "ping_interval: 1.5s" ++ [13%Z; 10%Z; 10%Z] ++
                cs " max_payload : 0x10," ++ [10%Z] ++ cs "write_deadline: 3") =
  Ok (cfg_set_write_deadline (cfg_set_max_payload (cfg_set_ping_interval (cfg_set_host config_default (cs "127.0.0.1"))
      SECOND) 16) (3 * SECOND), [cs "write_deadline should be converted to a duration"]).
Proof. vm_compute. reflexivity. Qed.

(** ** Lemmas on trimming and lines *)

(** No end of [s] satisfies [p]. *)
Definition ends_not (p : Z -> bool) (s : str) : Prop :=
  (forall c, head s = Some c -> p c = false) /\ (forall c, last s = Some c -> p c = false).

Lemma trim_start_id p s : (forall c, head s = Some c -> p c = false) -> trim_start_matches p s = s.
Proof. intros H. destruct s as [| c s]; [done |]. simpl. by rewrite (H c). Qed.

Lemma trim_end_id p s : (forall c, last s = Some c -> p c = false) -> trim_end_matches p s = s.
Proof.
  intros H. unfold trim_end_matches. rewrite trim_start_id; [apply reverse_involutive |].
  intros c. rewrite head_reverse. apply H.
Qed.

Lemma trim_matches_id p s : ends_not p s -> trim_matches p s = s.
Proof. intros [H1 H2]. unfold trim_matches. by rewrite trim_start_id, trim_end_id. Qed.

(** One character to trim at each end. *)
Lemma trim_matches_wrapped p a b s : p a = true -> p b = true -> ends_not p s -> trim_matches p (a :: s ++ [b]) = s.
Proof.
  intros Ha Hb [H1 H2]. unfold trim_matches. simpl. rewrite Ha. destruct s as [| c s].
  - simpl. by rewrite Hb.
  - rewrite trim_start_id by (intros x [= <-]; by apply H1). unfold trim_end_matches.
    rewrite reverse_snoc. simpl. rewrite Hb, trim_start_id; [by rewrite reverse_involutive |].
    intros x. rewrite head_reverse. apply H2.
Qed.

Lemma ends_not_forall p s : Forall (fun c => p c = false) s -> ends_not p s.
Proof.
  intros H. rewrite Forall_forall in H. split; intros c Hc; apply H.
  - by apply head_Some_elem_of.
  - by apply last_Some_elem_of.
Qed.

Lemma trim_space v : ends_not is_whitespace v -> trim (32%Z :: v) = v.
Proof. intros H. unfold trim, trim_matches. simpl. by apply (trim_matches_id is_whitespace). Qed.

Lemma unquote_space v :
  ends_not is_whitespace v -> (forall c, last v = Some c -> is_comma c = false) ->
  unquote (32%Z :: v) = trim_matches is_quote v.
Proof.
  intros Hw Hc. unfold unquote. rewrite trim_space, (trim_end_id is_comma) by done.
  unfold trim. by rewrite (trim_matches_id is_whitespace).
Qed.

Lemma unquote_quoted s : writable s -> unquote (32%Z :: quoted s) = s.
Proof.
  intros (_ & Hh & Hl). rewrite unquote_space.
  - by apply trim_matches_wrapped.
  - split; intros c; unfold quoted; [by intros [= <-] |]. rewrite (assoc_L (++)), last_snoc. by intros [= <-].
  - intros c. unfold quoted. rewrite (assoc_L (++)), last_snoc. by intros [= <-].
Qed.

(** Text without blanks, commas or quotes. *)
Definition plain_char (c : Z) : bool :=
  negb (is_whitespace c) && negb (is_comma c) && negb (is_quote c) && negb (c =? 35)%Z.

Lemma plain_forall v p :
  (forall c, plain_char c = true -> p c = false) -> forallb plain_char v = true -> Forall (fun c => p c = false) v.
Proof. intros Hp H. rewrite forallb_forall in H. apply Forall_forall. intros c Hc. apply Hp, H. by apply list_elem_of_In. Qed.

Lemma unquote_plain v : forallb plain_char v = true -> unquote (32%Z :: v) = v.
Proof.
  intros H. rewrite unquote_space.
  - apply trim_matches_id, ends_not_forall. eapply plain_forall; [| done].
    intros c Hc. unfold plain_char in Hc. by bool_to_prop.
  - apply ends_not_forall. eapply plain_forall; [| done]. intros c Hc. unfold plain_char in Hc. by bool_to_prop.
  - apply (ends_not_forall is_comma). eapply plain_forall; [| done].
    intros c Hc. unfold plain_char in Hc. by bool_to_prop.
Qed.

Lemma lines_from_line cur l s :
  Forall (fun c => c <> 10)%Z l -> lines_from cur (l ++ 10%Z :: s) = without_suffix 13 (cur ++ l) :: lines_from [] s.
Proof.
  intros H. revert cur. induction H as [| c l Hc H IH]; intros cur; simpl; [by rewrite app_nil_r |].
  rewrite (proj2 (Z.eqb_neq c 10) Hc), IH, <- (assoc_L (++)). done.
Qed.

Lemma lines_rendered ls :
  Forall (fun l => Forall (fun c => c <> 10)%Z l /\ last l <> Some 13%Z) ls ->
  lines (concat (map (fun l => l ++ [10%Z]) ls)) = ls.
Proof.
  unfold lines. induction 1 as [| l ls [H1 H2] H IH]; [done |]. simpl. rewrite <- (assoc_L (++)). simpl.
  rewrite lines_from_line by done. rewrite IH. simpl. f_equal. unfold without_suffix.
  destruct (reverse l) as [| c r] eqn:E; [done |]. apply (f_equal head) in E. rewrite head_reverse in E.
  rewrite (proj2 (Z.eqb_neq c 13)); [done |]. intros ->. done.
Qed.

(** ** Lemmas on values *)

Lemma show_int_chars n :
  (i64_min <= n <= i64_max)%Z -> Forall (fun c => 48 <= c <= 57 \/ c = 45)%Z (show_int n).
Proof.
  intros Hn. unfold i64_min, i64_max in Hn. unfold show_int.
  destruct (n <? 0)%Z eqn:E; bool_to_prop; [constructor; [by right |] |];
    (eapply Forall_impl; [apply show_chars; unfold in_u64, u64_modulus; lia |]; intros c Hc; by left).
Qed.

Lemma show_int_plain n : (i64_min <= n <= i64_max)%Z -> forallb plain_char (show_int n) = true.
Proof.
  intros Hn. apply forallb_forall. intros c Hc.
  pose proof (show_int_chars n Hn) as H. rewrite Forall_forall in H.
  apply list_elem_of_In, H in Hc. unfold plain_char, is_whitespace, is_comma, is_quote.
  repeat match goal with
  | |- context [(?a =? ?b)%Z] => destruct (Z.eqb_spec a b); [lia |]
  | |- context [(?a <=? ?b)%Z] => destruct (Z.leb_spec a b); try lia
  end; done.
Qed.

Lemma no_hex_prefix n x : (i64_min <= n <= i64_max)%Z -> (57 < x)%Z -> strip_prefix [48%Z; x] (show_int n) = None.
Proof.
  intros Hn Hx. unfold strip_prefix, starts_with. case_bool_decide as H; [| done]. exfalso.
  assert (Hin : x ∈ show_int n).
  { rewrite <- (take_drop 2 (show_int n)), elem_of_app. left. simpl in H. rewrite H. set_solver. }
  pose proof (show_int_chars n Hn) as Hc. rewrite Forall_forall in Hc. apply Hc in Hin. lia.
Qed.

Lemma parse_int_show n : (i64_min <= n <= i64_max)%Z -> parse_int (32%Z :: show_int n) = Ok n.
Proof.
  intros Hn. unfold parse_int. rewrite unquote_plain by by apply show_int_plain.
  change (cs "0x") with [48; 120]%Z. change (cs "0X") with [48; 88]%Z.
  rewrite !no_hex_prefix by (done || lia). unfold parse_i64.
  by rewrite from_str_show by (unfold i64_min, i64_max in *; lia).
Qed.

Lemma parse_bool_show b : parse_bool (32%Z :: show_bool b) = Ok b.
Proof. by destruct b. Qed.

(** An integer below 2^53 is an [f64]. *)
Lemma f64_trunc_int n : (0 <= n < 2 ^ 53)%Z -> f64_trunc n 0 = n.
Proof.
  intros Hn. unfold f64_trunc. change (10 ^ 0)%Z with 1%Z. destruct (Z.eq_dec n 0%Z) as [-> | Hnz]; [done |].
  rewrite (proj2 (Z.ltb_ge (2 * n) 1)), (proj2 (Z.ltb_ge n 1)), Z.div_1_r by lia.
  assert (Z.log2 n < 53)%Z by (apply Z.log2_lt_pow2; lia).
  rewrite (proj2 (Z.leb_le _ _)) by lia. unfold round_half_even. rewrite Z.mod_1_r, Z.div_1_r. simpl.
  apply Z.div_mul. apply Z.pow_nonzero; pose proof (Z.log2_nonneg n); lia.
Qed.

Lemma decimal_digits m s :
  Forall (fun c => 48 <= c <= 57)%Z s -> s <> [] ->
  decimal_from m None false s = Some (foldl (fun n c => n * 10 + (c - 48))%Z m s, 0%Z).
Proof.
  intros Hs Hne. assert (Hgen : forall seen, (seen = true \/ s <> []) ->
    decimal_from m None seen s = Some (foldl (fun n c => n * 10 + (c - 48))%Z m s, 0%Z)); [| auto].
  clear Hne. revert m. induction Hs as [| c s Hc Hs IH]; intros m seen Hseen; simpl.
  - by destruct Hseen as [-> | ?].
  - rewrite (proj2 (Z.eqb_neq c 46)) by lia. unfold is_digit.
    rewrite (proj2 (Z.leb_le 48 c)), (proj2 (Z.leb_le c 57)) by lia. simpl. apply IH. by left.
Qed.

(** ** Durations written out *)

Inductive TimeUnit := U_ns | U_us | U_ms | U_s | U_m | U_h.

Definition unit_text (u : TimeUnit) : str :=
  match u with
  | U_ns => cs "ns" | U_us => cs "us" | U_ms => cs "ms" | U_s => cs "s" | U_m => cs "m" | U_h => cs "h"
  end.

Definition unit_nanos (u : TimeUnit) : Z :=
  match u with
  | U_ns => 1 | U_us => 1000 | U_ms => 1000000 | U_s => SECOND | U_m => 60 * SECOND | U_h => 3600 * SECOND
  end.

(** [3h20m] and the like. *)
Definition show_duration (l : list (Z * TimeUnit)) : str := concat (map (fun p => show p.1 ++ unit_text p.2) l).

Definition nanos (l : list (Z * TimeUnit)) : Z := foldr (fun p n => p.1 * unit_nanos p.2 + n)%Z 0%Z l.

Lemma scale_of_unit u : scale_of (unit_text u) = Some (unit_nanos u).
Proof. by destruct u. Qed.

Lemma span_app p a b :
  Forall (fun c => p c = true) a -> (forall c, head b = Some c -> p c = false) -> span p (a ++ b) = (a, b).
Proof.
  intros Ha Hb. induction Ha as [| c a Hc Ha IH]; simpl.
  - destruct b as [| c b]; [done |]. simpl. by rewrite (Hb c).
  - by rewrite Hc, IH.
Qed.

Lemma show_spec n :
  in_u64 n -> exists c s, show n = c :: s /\ (48 <= c <= 57)%Z /\ decimal (show n) = Some (n, 0%Z).
Proof.
  intros Hn. destruct (show_digits n Hn) as (c & s & Hs & Hc & Hv). exists c, s. split; [done |]. split; [done |].
  unfold decimal. rewrite decimal_digits; [| by apply show_chars | by rewrite Hs]. f_equal. f_equal.
  unfold show in *. rewrite display_uint_push_u64 in * by done.
  destruct (push_u64_spec n Hn) as (Hd & _). rewrite digits_of_digits in Hv by done. injection Hv as Hv.
  rewrite <- Hv at 2. generalize 0%Z. clear. induction (push_u64 n) as [| b d IH]; intros z; simpl; [done |].
  apply IH.
Qed.

Lemma digit_numeric c : (48 <= c <= 57)%Z -> numeric c = true.
Proof. intros Hc. unfold numeric, is_digit. by rewrite (proj2 (Z.leb_le 48 c)), (proj2 (Z.leb_le c 57)) by lia. Qed.

Lemma show_duration_head l :
  Forall (fun p => in_u64 p.1) l -> forall c, head (show_duration l) = Some c -> negb (numeric c) = false.
Proof.
  intros [| [n u] l' Hn _] c Hc; [done |]. destruct (show_spec n Hn) as (d & s & Hs & Hd & _).
  unfold show_duration in Hc. simpl in Hc. rewrite Hs in Hc. injection Hc as <-.
  by rewrite digit_numeric.
Qed.

Lemma duration_loop_show l fuel total :
  Forall (fun p => 0 <= p.1 < 2 ^ 53)%Z l -> length (show_duration l) < fuel -> (0 <= total < u128_modulus)%Z ->
  duration_loop fuel total (show_duration l) = Some ((total + nanos l) mod u128_modulus)%Z.
Proof.
  intros Hl. revert fuel total. induction Hl as [| [n u] l Hn Hl IH]; intros fuel total Hf Ht.
  { destruct fuel; [simpl in Hf; lia |]. simpl. by rewrite Z.add_0_r, Z.mod_small. }
  simpl in Hn. assert (Hu : in_u64 n) by (unfold in_u64, u64_modulus; lia).
  destruct (show_spec n Hu) as (c & s & Hs & Hc & Hd). destruct fuel as [| fuel]; [lia |].
  change (show_duration ((n, u) :: l)) with ((show n ++ unit_text u) ++ show_duration l) in *.
  rewrite <- (assoc_L (++)) in *. cbn [duration_loop].
  rewrite (span_app numeric (show n)).
  2: { eapply Forall_impl; [by apply show_chars |]. intros x Hx. by apply digit_numeric. }
  2: { by destruct u; intros x [= <-]. }
  rewrite Hd. rewrite Hs in *. cbn [is_empty app mbind option_bind].
  rewrite (span_app (fun c => negb (numeric c)) (unit_text u)).
  2: { destruct u; by repeat constructor. }
  2: { apply show_duration_head. eapply Forall_impl; [exact Hl |]. intros [m v]; unfold in_u64, u64_modulus; simpl; lia. }
  rewrite scale_of_unit. cbn [mbind option_bind]. unfold f64_as_u128. rewrite f64_trunc_int by done.
  rewrite Z.min_l by (unfold u128_modulus; lia). rewrite IH.
  - f_equal. simpl. rewrite Z.add_mod_idemp_l by done. f_equal. lia.
  - simpl in Hf. rewrite !length_app in Hf. lia.
  - by apply Z.mod_pos_bound.
Qed.

Lemma parse_duration_show l :
  l <> [] -> Forall (fun p => 0 <= p.1 < 2 ^ 53)%Z l ->
  parse_duration_str (show_duration l) = Some (wrap64 (nanos l mod u128_modulus)).
Proof.
  intros Hne Hl. pose proof (duration_loop_show l (S (length (show_duration l))) 0 Hl ltac:(lia) ltac:(done)) as H.
  destruct l as [| [n u] l]; [done |]. apply Forall_cons in Hl as [Hn _]. simpl in Hn.
  destruct (show_spec n) as (c & s & Hs & Hc & _); [unfold in_u64, u64_modulus; lia |].
  assert (Hcons : exists t, show_duration ((n, u) :: l) = c :: t).
  { eexists. unfold show_duration. cbn [map concat fst snd]. rewrite Hs. reflexivity. }
  destruct Hcons as [t Ht]. rewrite Ht in *. unfold parse_duration_str.
  rewrite (proj2 (Z.eqb_neq c 45)), (proj2 (Z.eqb_neq c 43)) by lia. simpl orb. cbn [is_empty].
  by rewrite H.
Qed.

(** ** Lines written out *)

(** A key of the file: lower-case letters and underscores. *)
Definition key_ok (key : string) : bool :=
  negb (is_empty (cs key)) && forallb (fun c => ((97 <=? c) && (c <=? 122)) || (c =? 95))%Z (cs key).

Lemma key_ok_forall key (p : Z -> bool) :
  key_ok key = true -> (forall c, 95 <= c <= 122 -> p c = false)%Z -> Forall (fun c => p c = false) (cs key).
Proof.
  intros Hk Hp. unfold key_ok in Hk. bool_to_prop. rewrite forallb_forall in H0.
  apply Forall_forall. intros c Hc%list_elem_of_In%H0. apply Hp.
  apply orb_true_iff in Hc as [Hc | Hc]; bool_to_prop; lia.
Qed.

Lemma letter_not_blank c : (95 <= c <= 122)%Z -> is_whitespace c = false.
Proof.
  intros Hc. unfold is_whitespace.
  repeat match goal with
  | |- context [(?a =? ?b)%Z] => destruct (Z.eqb_spec a b); [lia |]
  | |- context [(?a <=? ?b)%Z] => destruct (Z.leb_spec a b); try lia
  end; done.
Qed.

Lemma before_comment_id s : Forall (fun c => c <> 35)%Z s -> before_comment s = s.
Proof. induction 1 as [| c s Hc _ IH]; [done |]. simpl. by rewrite (proj2 (Z.eqb_neq c 35) Hc), IH. Qed.

Lemma split_once_app c a b : Forall (fun x => (x =? c)%Z = false) a -> split_once c (a ++ c :: b) = Some (a, b).
Proof.
  induction 1 as [| x a Hx _ IH]; simpl; [by rewrite Z.eqb_refl |]. by rewrite Hx, IH.
Qed.

(** A value as it stands in a line. *)
Definition value_ok (v : str) : Prop :=
  Forall (fun c => c <> 10 /\ c <> 35)%Z v /\ exists c, last v = Some c /\ is_whitespace c = false.

Lemma last_field key v c : last v = Some c -> last (field key v) = Some c.
Proof. intros Hv. unfold field. rewrite (assoc_L (++)), last_app, Hv. done. Qed.

Lemma field_no_newline key v : key_ok key = true -> value_ok v ->
  Forall (fun c => c <> 10 /\ c <> 35)%Z (field key v).
Proof.
  intros Hk [Hv _]. unfold field. rewrite !Forall_app. split_and!; [| by repeat constructor | done].
  pose proof (key_ok_forall key (fun c => (c =? 10) || (c =? 35))%Z Hk ltac:(cbv beta; lia)) as H.
  eapply Forall_impl; [exact H |]. intros c Hc. simpl in Hc. bool_to_prop. lia.
Qed.

Lemma config_line_field idx key v p :
  key_ok key = true -> value_ok v -> config_line idx (field key v) p = set_field (cs key) (32%Z :: v) p.
Proof.
  intros Hk Hv. pose proof (field_no_newline key v Hk Hv) as Hf. destruct Hv as [Hv (c & Hl & Hc)].
  unfold config_line. rewrite before_comment_id by (eapply Forall_impl; [exact Hf |]; cbv beta; tauto).
  pose proof (key_ok_forall key is_whitespace Hk letter_not_blank) as Hblank.
  assert (Hne : cs key <> []) by (unfold key_ok in Hk; bool_to_prop; by destruct (cs key)).
  assert (Ht : trim (field key v) = field key v).
  { apply trim_matches_id. split; intros x; [| rewrite (last_field _ _ _ Hl); by intros [= <-]]. unfold field.
    destruct (cs key) as [| y t]; [done |]. intros [= <-]. by apply Forall_cons in Hblank as [? _]. }
  rewrite Ht.
  replace (is_empty (field key v)) with false by (unfold field; by destruct (cs key)).
  unfold field. change ([58; 32]%Z ++ v) with (58%Z :: 32%Z :: v). rewrite split_once_app.
  2: { apply key_ok_forall; [done |]. intros x Hx. apply Z.eqb_neq. lia. }
  unfold trim. rewrite (trim_matches_id is_whitespace) by by apply ends_not_forall.
  rewrite (trim_matches_id (fun c => (c =? 34)%Z)); [done |].
  apply ends_not_forall, key_ok_forall; [done |]. intros x Hx. apply Z.eqb_neq. lia.
Qed.

Lemma value_ok_quoted s : Forall (fun c => c <> 10 /\ c <> 35)%Z s -> value_ok (quoted s).
Proof.
  intros H. split.
  - unfold quoted. rewrite !Forall_app. by split_and!; [repeat constructor | | repeat constructor].
  - exists 34%Z. unfold quoted. by rewrite (assoc_L (++)), last_snoc.
Qed.

Lemma value_ok_show_int n : (i64_min <= n <= i64_max)%Z -> value_ok (show_int n).
Proof.
  intros Hn. pose proof (show_int_chars n Hn) as Hc. split.
  - eapply Forall_impl; [exact Hc |]. intros c. cbv beta. lia.
  - destruct (last (show_int n)) as [c |] eqn:Hl.
    + exists c. split; [done |]. pose proof (show_int_plain n Hn) as Hp. rewrite forallb_forall in Hp.
      apply last_Some_elem_of, list_elem_of_In, Hp in Hl. unfold plain_char in Hl. by bool_to_prop.
    + apply last_None in Hl. unfold show_int in Hl. unfold i64_min, i64_max in Hn.
      destruct (n <? 0)%Z eqn:E; [done |]. bool_to_prop.
      destruct (show_digits n) as (c & s & Hs & _); [unfold in_u64, u64_modulus; lia |]. congruence.
Qed.

Lemma value_ok_show_bool b : value_ok (show_bool b).
Proof. destruct b; (split; [by repeat constructor | eexists; by split]). Qed.

Lemma ns_text_writable n : (0 <= n < 2 ^ 53)%Z -> writable (ns_text n).
Proof.
  intros Hn. assert (Hu : in_u64 n) by (unfold in_u64, u64_modulus; lia). unfold ns_text.
  destruct (show_digits n Hu) as (c & s & Hs & Hc & _). split_and!.
  - apply Forall_app. split; [| by repeat constructor]. eapply Forall_impl; [by apply show_chars |]. cbv beta. lia.
  - intros x. rewrite Hs. intros [= <-]. unfold is_quote. lia.
  - intros x. rewrite last_app. by intros [= <-].
Qed.

Lemma parse_duration_ns n key ws :
  (0 <= n < 2 ^ 53)%Z -> parse_duration (32%Z :: quoted (ns_text n)) key ws = Ok (n, ws).
Proof.
  intros Hn. unfold parse_duration. rewrite unquote_quoted by by apply ns_text_writable.
  rewrite trim_space.
  2: { split; intros c; unfold quoted; [by intros [= <-] |]. rewrite (assoc_L (++)), last_snoc. by intros [= <-]. }
  change (starts_with [34%Z] (quoted (ns_text n))) with true. cbn [orb].
  replace (ns_text n) with (show_duration [(n, U_ns)]) by (unfold show_duration, ns_text; simpl; by rewrite app_nil_r).
  rewrite parse_duration_show by (done || (repeat constructor; simpl; lia)). simpl.
  rewrite Z.mod_small, wrap64_small by (unfold in_u64, u64_modulus, u128_modulus; lia). do 2 f_equal. lia.
Qed.

(** A key with its value, as [render_config] writes them. *)
Definition render_fields (c : Config) : list (string * str) :=
  [("host"%string, quoted (cfg_host c)); ("port"%string, show_int (cfg_port c))] ++
  from_option (fun n => [("server_name"%string, quoted n)]) [] (cfg_server_name c) ++
  [("max_payload"%string, show_int (cfg_max_payload c)); ("max_pending"%string, show_int (cfg_max_pending c));
   ("max_control_line"%string, show_int (cfg_max_control_line c));
   ("max_connections"%string, show_int (cfg_max_connections c));
   ("ping_interval"%string, quoted (ns_text (cfg_ping_interval c)));
   ("write_deadline"%string, quoted (ns_text (cfg_write_deadline c)));
   ("debug"%string, show_bool (cfg_debug c)); ("trace"%string, show_bool (cfg_trace c))].

(** The fields, one after the other. *)
Fixpoint set_fields (fs : list (string * str)) (p : Parsed) : result Parsed ConfigError :=
  match fs with
  | [] => Ok p
  | (key, v) :: fs' => p' <-? set_field (cs key) (32%Z :: v) p ;; set_fields fs' p'
  end.

Definition field_ok (f : string * str) : Prop := key_ok f.1 = true /\ value_ok f.2.

Lemma parse_fields fs :
  Forall field_ok fs ->
  parse_config (concat (map (fun l => l ++ [10%Z]) (map (fun f => field f.1 f.2) fs))) =
  set_fields fs (config_default, []).
Proof.
  intros Hfs. unfold parse_config. rewrite lines_rendered.
  - generalize (config_default, @nil str). generalize 0%nat.
    induction Hfs as [| [key v] fs [Hk Hv] Hfs IH]; intros idx p; [done |]. cbn [map config_lines set_fields fst snd].
    rewrite config_line_field by done. destruct (set_field _ _ p); [apply IH | done].
  - apply Forall_map. eapply Forall_impl; [exact Hfs |]. intros [key v] [Hk Hv]. simpl in *. split.
    + eapply Forall_impl; [by apply field_no_newline |]. cbv beta. tauto.
    + destruct Hv as (_ & c & Hl & Hc). rewrite (last_field _ _ _ Hl). by intros [= ->].
Qed.

Lemma render_fields_ok c : config_ok c -> Forall field_ok (render_fields c).
Proof.
  intros ([Hh _] & Hp & _ & Hs & H1 & H2 & H3 & H4 & H5 & H6). unfold render_fields.
  assert (Hint : forall n, (0 <= n <= i64_max)%Z -> value_ok (show_int n)).
  { intros n Hn. apply value_ok_show_int. unfold i64_min. lia. }
  assert (Hns : forall n, (0 <= n < 2 ^ 53)%Z -> value_ok (quoted (ns_text n))).
  { intros n Hn. apply value_ok_quoted, (ns_text_writable n Hn). }
  apply Forall_app. split; [| apply Forall_app; split].
  - repeat (apply Forall_cons_2 || apply Forall_nil_2); (split; [reflexivity | simpl]).
    + by apply value_ok_quoted.
    + apply value_ok_show_int. unfold i32_min, i32_max, i64_min, i64_max in *. lia.
  - destruct (cfg_server_name c) as [n |]; [| apply Forall_nil_2].
    apply Forall_cons_2; [| apply Forall_nil_2]. split; [reflexivity | apply value_ok_quoted, Hs].
  - repeat (apply Forall_cons_2 || apply Forall_nil_2); (split; [reflexivity | simpl]);
      auto using value_ok_show_int, value_ok_show_bool.
Qed.

(** The arms that [render_fields] uses.  Each test of the key is decided by
    evaluation. *)
Ltac at_arm := unfold set_field; repeat match goal with
  | |- context [one_of ?k ?l] => let b := eval vm_compute in (one_of k l) in
      replace (one_of k l) with b by (vm_compute; reflexivity); cbv iota
  end.

Section Arms.

Variables (c : Config) (ws : list str).

Lemma arm_host v : writable v -> set_field (cs "host") (32%Z :: quoted v) (c, ws) = Ok (cfg_set_host c v, ws).
Proof. intros H. at_arm. unfold parse_string. by rewrite unquote_quoted. Qed.

Lemma arm_server_name v :
  writable v -> set_field (cs "server_name") (32%Z :: quoted v) (c, ws) = Ok (cfg_set_server_name c v, ws).
Proof. intros H. at_arm. unfold parse_string. by rewrite unquote_quoted. Qed.

Lemma arm_port n :
  (i32_min <= n <= i32_max)%Z -> set_field (cs "port") (32%Z :: show_int n) (c, ws) = Ok (cfg_set_port c n, ws).
Proof.
  intros H. unfold i32_min, i32_max in H. at_arm.
  rewrite parse_int_show by (unfold i64_min, i64_max; lia). simpl. unfold wrap32.
  rewrite Z.mod_small by lia. do 3 f_equal. lia.
Qed.

Lemma arm_max_connections n :
  (i64_min <= n <= i64_max)%Z ->
  set_field (cs "max_connections") (32%Z :: show_int n) (c, ws) = Ok (cfg_set_max_connections c n, ws).
Proof. intros H. at_arm. by rewrite parse_int_show. Qed.

(** An integer that is stored as an unsigned one. *)
Lemma parse_unsigned n (k : Z -> Parsed) :
  (0 <= n <= i64_max)%Z ->
  (x <-? parse_int (32%Z :: show_int n) ;; Ok (k (wrap64 x))) = Ok (E := ConfigError) (k n).
Proof.
  intros H. unfold i64_max in H. rewrite parse_int_show by (unfold i64_min, i64_max; lia). simpl.
  by rewrite wrap64_small by (unfold in_u64, u64_modulus; lia).
Qed.

Lemma arm_max_payload n :
  (0 <= n <= i64_max)%Z ->
  set_field (cs "max_payload") (32%Z :: show_int n) (c, ws) = Ok (cfg_set_max_payload c n, ws).
Proof. intros H. at_arm. by apply (parse_unsigned n (fun n => (cfg_set_max_payload c n, ws))). Qed.

Lemma arm_max_pending n :
  (0 <= n <= i64_max)%Z ->
  set_field (cs "max_pending") (32%Z :: show_int n) (c, ws) = Ok (cfg_set_max_pending c n, ws).
Proof. intros H. at_arm. by apply (parse_unsigned n (fun n => (cfg_set_max_pending c n, ws))). Qed.

Lemma arm_max_control_line n :
  (0 <= n <= i64_max)%Z ->
  set_field (cs "max_control_line") (32%Z :: show_int n) (c, ws) = Ok (cfg_set_max_control_line c n, ws).
Proof. intros H. at_arm. by apply (parse_unsigned n (fun n => (cfg_set_max_control_line c n, ws))). Qed.

Lemma arm_ping_interval n :
  (0 <= n < 2 ^ 53)%Z ->
  set_field (cs "ping_interval") (32%Z :: quoted (ns_text n)) (c, ws) = Ok (cfg_set_ping_interval c n, ws).
Proof. intros H. at_arm. by rewrite parse_duration_ns. Qed.

Lemma arm_write_deadline n :
  (0 <= n < 2 ^ 53)%Z ->
  set_field (cs "write_deadline") (32%Z :: quoted (ns_text n)) (c, ws) = Ok (cfg_set_write_deadline c n, ws).
Proof. intros H. at_arm. by rewrite parse_duration_ns. Qed.

Lemma arm_debug b : set_field (cs "debug") (32%Z :: show_bool b) (c, ws) = Ok (cfg_set_debug c b, ws).
Proof. at_arm. by rewrite parse_bool_show. Qed.

Lemma arm_trace b : set_field (cs "trace") (32%Z :: show_bool b) (c, ws) = Ok (cfg_set_trace c b, ws).
Proof. at_arm. by rewrite parse_bool_show. Qed.

End Arms.

Create Rewrite HintDb arms.
#[local] Hint Rewrite arm_host arm_server_name arm_port arm_max_payload arm_max_pending arm_max_control_line
  arm_max_connections arm_ping_interval arm_write_deadline arm_debug arm_trace using done : arms.

Lemma set_fields_cons key v fs p p' :
  set_field (cs key) (32%Z :: v) p = Ok p' -> set_fields ((key, v) :: fs) p = set_fields fs p'.
Proof. intros H. cbn [set_fields]. by rewrite H. Qed.

(** ** Properties *)

(** C26: the configuration file round-trips, for options a file can express
    ([config_ok]): host and server name hold no newline and no [#] and have no quote
    at an end, the port is an [i32], sizes and the connection limit are at most
    [i64::MAX], the two durations are below 2^53 ns (about 104 days), and no ports file
    directory is set (it has no key).  Writing such options out, one [key: value] line
    each, and parsing that file gives the same options and no warning.  Outside of that
    it does not hold: see [hash_cuts_quoted_name]. *)
Theorem parse_config_roundtrip c : config_ok c -> parse_config (render_config c) = Ok (c, []).
Proof.
  intros Hc. replace (render_config c) with
    (concat (map (fun l => l ++ [10%Z]) (map (fun f => field f.1 f.2) (render_fields c))))
    by (unfold render_config, render_fields; by destruct (cfg_server_name c)).
  rewrite parse_fields by by apply render_fields_ok. unfold render_fields.
  destruct c as [host port dir name mp mpe mcl mco pi wd de tr].
  destruct Hc as (Hh & Hp & Hd & Hs & H1 & H2 & H3 & H4 & H5 & H6).
  cbn [cfg_host cfg_port cfg_ports_file_dir cfg_server_name cfg_max_payload cfg_max_pending cfg_max_control_line
       cfg_max_connections cfg_ping_interval cfg_write_deadline cfg_debug cfg_trace] in *. subst dir.
  destruct name as [name |]; cbn [from_option app] in *;
    repeat (erewrite set_fields_cons by (autorewrite with arms; reflexivity)); reflexivity.
Qed.

(** A [#] starts a comment inside quotes too: a quoted server name with one in it is
    cut there, and nothing is said about it. *)
Example hash_cuts_quoted_name :
  let c := cfg_set_server_name config_default (cs "a#b") in
  parse_config (render_config c) = Ok (cfg_set_server_name config_default (cs "a"), []).
Proof. vm_compute. reflexivity. Qed.

Lemma parse_config_roundtrip_witness :
  let c := cfg_set_server_name (cfg_set_ping_interval config_default (5 * SECOND)) (cs " it's: a, name ") in
  parse_config (render_config c) = Ok (c, []).
Proof.
  intros c. apply (parse_config_roundtrip c). unfold config_ok, writable.
  split; [split; [by repeat constructor |]; split; by intros x [= <-] |].
  split; [by vm_compute |]. split; [done |].
  split; [split; [by repeat constructor |]; split; by intros x [= <-] |].
  by vm_compute.
Defined.

(** Durations of whole numbers are read exactly.  A sequence of numbers below
    2^53 with their units is the sum of its parts, in nanoseconds, when that fits in
    64 bits; a plus sign changes nothing, and a negative duration is refused. *)
Lemma whole_durations_exact l :
  l <> [] -> Forall (fun p => 0 <= p.1 < 2 ^ 53)%Z l -> (nanos l < u64_modulus)%Z ->
  parse_duration_str (show_duration l) = Some (nanos l) /\
  parse_duration_str (cs "+" ++ show_duration l) = Some (nanos l) /\
  parse_duration_str (cs "-" ++ show_duration l) = None.
Proof.
  intros Hne Hl Hmax.
  assert (Hpos : (0 <= nanos l)%Z).
  { clear -Hl. induction Hl as [| [n u] l Hn _ IH]; simpl in *; [done |].
    assert (0 <= unit_nanos u)%Z by (by destruct u). nia. }
  assert (Hval : wrap64 (nanos l mod u128_modulus) = nanos l).
  { unfold u64_modulus in Hmax. rewrite Z.mod_small by (unfold u128_modulus; lia).
    apply wrap64_small. unfold in_u64, u64_modulus. lia. }
  assert (Hs : is_empty (show_duration l) = false).
  { pose proof (parse_duration_show l Hne Hl) as H. by destruct (show_duration l). }
  pose proof (duration_loop_show l (S (length (show_duration l))) 0 Hl ltac:(lia) ltac:(done)) as Hloop.
  split_and!.
  - by rewrite parse_duration_show, Hval.
  - change (cs "+" ++ show_duration l) with (43%Z :: show_duration l). unfold parse_duration_str. simpl orb.
    cbv iota. rewrite Hs, Hloop, Z.add_0_l. cbn [mbind option_bind]. by rewrite <- Hval at 2.
  - change (cs "-" ++ show_duration l) with (45%Z :: show_duration l). unfold parse_duration_str. simpl orb.
    cbv iota. by rewrite Hs, Hloop.
Qed.

Lemma whole_durations_exact_witness :
  parse_duration_str (cs "1h30m5s") = Some (5405 * SECOND)%Z.
Proof.
  refine (proj1 (whole_durations_exact [(1%Z, U_h); (30%Z, U_m); (5%Z, U_s)] _ _ _)).
  - discriminate.
  - repeat constructor; vm_compute; done.
  - vm_compute. done.
Defined.

(** The fraction of a duration is dropped.  A number is truncated before it is
    multiplied by its unit, so one and a half seconds is one second, and a
    [ping_interval] of half a second is accepted as an interval of zero. *)
Lemma fractional_duration_truncated :
  parse_duration_str (cs "1.5s") = Some SECOND /\
  parse_duration_str (cs "0.5s") = Some 0%Z /\
  exists c, parse_config (cs "ping_interval: 0.5s") = Ok (c, []) /\
    validate c = Ok tt /\ cfg_ping_interval c = 0%Z.
Proof.
  split; [vm_compute; reflexivity |]. split; [vm_compute; reflexivity |].
  exists (cfg_set_ping_interval config_default 0). split_and!; vm_compute; reflexivity.
Qed.
