(* ===== verification/Net.v ===== *)
(** * Listening (crates/server/src/net.rs, and the counters of lib.rs)

    The accept loop is one task; the connections it spawns end in tasks of their own
    and give their place back when they do.  The limit is tested, and the place
    taken, in two separate atomic operations. *)

From Stdlib Require Import String Strings.Byte.
From stdpp Require Import relations.
From S2P Require Import Prelude Decimal Config.

(** ** Where to listen *)

Definition normalize_host (host : str) : str :=
  if one_of host ["0.0.0.0"; "::"; "*"]%string then cs "0.0.0.0" else host.

(** The port asked of the kernel. *)
Definition requested (cfg : Config) : Z :=
  if (bind_port cfg =? RANDOM_PORT)%Z then 0%Z else bind_port cfg.

(** The text that is parsed as the address to bind. *)
Definition bind_text (cfg : Config) : str := normalize_host (cfg_host cfg) ++ cs ":" ++ show_int (requested cfg).

(** ** The accept loop *)

(** Where the accept loop is between two atomic operations on the counters. *)
Inductive Phase := Ph_accept | Ph_admitted | Ph_counted.

(** The counters of [Server], where the accept loop is, and the ids of the
    connection tasks that are running. *)
Record Net := mkNet { n_cids : Z; n_active : Z; n_phase : Phase; n_tasks : list Z }.

Definition net_new : Net := mkNet 0 0 Ph_accept [].

Definition set_phase (n : Net) (p : Phase) : Net := mkNet (n_cids n) (n_active n) p (n_tasks n).

(** Is there no place for another connection? *)
Definition over_limit (cfg : Config) (n : Net) : bool :=
  (0 <=? cfg_max_connections cfg)%Z && (cfg_max_connections cfg <=? n_active n)%Z.

(** A socket was accepted; [nodelay] is the answer of [set_nodelay]. *)
Definition admission (cfg : Config) (n : Net) (nodelay : bool) : Net :=
  if negb nodelay || over_limit cfg n then n else set_phase n Ph_admitted.

(** [server.active.fetch_add(1)]. *)
Definition count_in (n : Net) : Net := mkNet (n_cids n) (wrap64 (n_active n + 1)) Ph_counted (n_tasks n).

(** [Server::next_cid]: the counter, and the id. *)
Definition next_cid (n : Net) : Net * Z :=
  let was := n_cids n in
  (mkNet (wrap64 (was + 1)) (n_active n) (n_phase n) (n_tasks n), wrap64 (was + 1)).

(** The connection's task is spawned with the next id. *)
Definition spawn_task (n : Net) : Net :=
  let (n1, cid) := next_cid n in
  mkNet (n_cids n1) (n_active n1) Ph_accept (cid :: n_tasks n1).

(** A connection's task ends, and [DropCount] is dropped with it. *)
Definition drop_count (n : Net) (cid : Z) : Net :=
  mkNet (n_cids n) (wrap64 (n_active n - 1)) (n_phase n) (filter (fun x => x <> cid) (n_tasks n)).

Inductive net_step (cfg : Config) : Net -> Net -> Prop :=
| ns_accept n nodelay : n_phase n = Ph_accept -> net_step cfg n (admission cfg n nodelay)
| ns_count n : n_phase n = Ph_admitted -> (n_cids n + 1 < u64_modulus)%Z -> net_step cfg n (count_in n)
| ns_spawn n : n_phase n = Ph_counted -> (n_cids n + 1 < u64_modulus)%Z -> net_step cfg n (spawn_task n)
| ns_drop n cid : cid ∈ n_tasks n -> net_step cfg n (drop_count n cid).

(** ** Lemmas *)

(** The place the accept loop has taken for a task it has not spawned yet, and the one
    it has found free but not taken yet. *)
Definition taken (p : Phase) : Z := match p with Ph_counted => 1 | _ => 0 end.
Definition promised (p : Phase) : Z := match p with Ph_admitted => 1 | _ => 0 end.

Definition net_ok (cfg : Config) (n : Net) : Prop :=
  n_active n = (blen (n_tasks n) + taken (n_phase n))%Z /\
  NoDup (n_tasks n) /\ (forall cid, cid ∈ n_tasks n -> 0 < cid <= n_cids n)%Z /\
  (blen (n_tasks n) <= n_cids n < u64_modulus)%Z /\
  ((0 <= cfg_max_connections cfg)%Z -> (n_active n + promised (n_phase n) <= cfg_max_connections cfg)%Z).

Lemma net_new_ok cfg : net_ok cfg net_new.
Proof. unfold net_ok, blen, u64_modulus. simpl. split; [done |]. split; [constructor |]. split; [| lia]. by intros ? ?%not_elem_of_nil. Qed.

Lemma blen_filter_out (l : list Z) cid :
  NoDup l -> cid ∈ l -> blen (filter (fun x => x <> cid) l) = (blen l - 1)%Z.
Proof.
  intros Hd Hin. induction Hd as [| x l Hx Hd IH]; [by apply not_elem_of_nil in Hin |].
  rewrite filter_cons. unfold blen in *. destruct (decide (x = cid)) as [-> | Hne].
  - rewrite decide_False by (intros H; by apply H). simpl.
    replace (filter (fun x => x <> cid) l) with l; [lia |].
    clear -Hx. induction l as [| y l IH]; [done |]. apply not_elem_of_cons in Hx as [? ?].
    rewrite filter_cons_True by done. f_equal. by apply IH.
  - rewrite decide_True by done. apply elem_of_cons in Hin as [? | Hin]; [done |].
    specialize (IH Hin). simpl. lia.
Qed.

Lemma net_step_ok cfg n n' : net_step cfg n n' -> net_ok cfg n -> net_ok cfg n'.
Proof.
  intros Hstep (Ha & Hd & Hin & Hc & Hl).
  destruct Hstep as [n nodelay Hp | n Hp Hr | n Hp Hr | n cid Hcid]; rewrite ?Hp in *; simpl in *.
  - unfold admission, over_limit. destruct (negb nodelay || _) eqn:E.
    + unfold net_ok. rewrite Hp. simpl. split_and!; auto; lia.
    + bool_to_prop. unfold net_ok. simpl. split_and!; auto; try lia.
  - unfold net_ok, count_in. simpl. rewrite wrap64_small by (unfold in_u64, blen in *; lia).
    split_and!; [lia | done | done | lia | lia |]. intros H. specialize (Hl H). lia.
  - unfold net_ok, spawn_task, next_cid. simpl. rewrite wrap64_small by (unfold in_u64, blen in *; lia).
    unfold blen in *. simpl. split_and!; [lia | | | lia | lia | intros H; specialize (Hl H); lia].
    + constructor; [| done]. intros H%Hin. lia.
    + intros cid [-> | H%Hin]%elem_of_cons; lia.
  - pose proof (blen_filter_out _ _ Hd Hcid) as Hf.
    assert (1 <= blen (n_tasks n))%Z by (destruct (n_tasks n); [by apply not_elem_of_nil in Hcid | unfold blen; simpl; lia]).
    assert (0 <= taken (n_phase n) <= 1)%Z by (destruct (n_phase n); simpl; lia).
    unfold net_ok, drop_count. simpl. rewrite Hf. rewrite wrap64_small by (unfold in_u64; lia).
    split_and!; [lia | by apply NoDup_filter | | lia | lia | intros H'; specialize (Hl H'); lia].
    intros x Hx. apply list_elem_of_filter in Hx as [_ Hx]. by apply Hin.
Qed.

(** ** Properties *)

(** C28: the connection limit is kept and connection ids are unique.  However the
    accept loop interleaves with connections that end, the number of connection
    tasks never exceeds a limit that is not negative, the counter is exactly that
    number (plus the place taken for a task about to be spawned), and no two running
    tasks have the same id. *)
Theorem connection_limit cfg n :
  rtc (net_step cfg) net_new n ->
  ((0 <= cfg_max_connections cfg)%Z -> (blen (n_tasks n) <= n_active n <= cfg_max_connections cfg)%Z) /\
  n_active n = (blen (n_tasks n) + taken (n_phase n))%Z /\
  NoDup (n_tasks n) /\ (forall cid, cid ∈ n_tasks n -> 0 < cid <= n_cids n)%Z.
Proof.
  intros H. assert (Hok : net_ok cfg n).
  { cut (net_ok cfg net_new); [| apply net_new_ok].
    induction H as [| n1 n2 n3 Hstep _ IH]; [done |]. intros H1. by eapply IH, net_step_ok. }
  destruct Hok as (Ha & Hd & Hin & _ & Hl).
  assert (0 <= taken (n_phase n) /\ 0 <= promised (n_phase n))%Z by (destruct (n_phase n); simpl; lia).
  split_and!; try done; lia.
Qed.

Lemma connection_limit_witness :
  let cfg := config_default in
  let n := spawn_task (count_in (admission cfg net_new true)) in
  n_tasks n = [1%Z] /\ n_active n = (blen (n_tasks n) + taken (n_phase n))%Z.
Proof.
  intros cfg n. split; [vm_compute; reflexivity |].
  apply (connection_limit cfg n).
  eapply rtc_l; [by apply (ns_accept cfg net_new true) |].
  eapply rtc_l; [apply ns_count; reflexivity |].
  eapply rtc_l; [apply ns_spawn; reflexivity |].
  apply rtc_refl.
Defined.
