(* ===== verification/Alloc.v ===== *)
(** * Allocation statistics (crates/server/src/allocstats.rs)

    The counting allocator, the tags of the sites that take memory, and the size
    histogram.  The counters exist with the [allocstats] feature; without it [tag]
    and [hist] do nothing.  The system allocator is outside: what it answers is part
    of each event, and the blocks it has handed out are a map from address to size. *)

From Stdlib Require Import String Strings.Byte.
From S2P Require Import Prelude Proto Decimal Config.

(** ** Definitions *)

Inductive Site :=
| ReadBuf | Events | FrameChunk | Payload | Subscribe | ControlLine | Connection | Routing | Other.

Definition site_index (s : Site) : nat :=
  match s with
  | ReadBuf => 0 | Events => 1 | FrameChunk => 2 | Payload => 3 | Subscribe => 4
  | ControlLine => 5 | Connection => 6 | Routing => 7 | Other => 8
  end.

Definition SITE_COUNT : nat := 9.

Definition NAMES : list string :=
  ["read_buf"; "events"; "frame_chunk"; "payload"; "subscribe"; "control_line"; "connection"; "routing"; "other"]%string.

Definition HIST_BUCKETS : nat := 28.

(** The statics: [ALLOCS], [BYTES], [LIVE], [COUNTERS] and [HIST]. *)
Record Stats := mkStats { ALLOCS : Z; BYTES : Z; LIVE : Z; COUNTERS : list Z; HIST : list Z }.

Definition stats_new : Stats := mkStats 0 0 0 (replicate SITE_COUNT 0%Z) (replicate HIST_BUCKETS 0%Z).

Definition fetch_add_at (i : nat) (l : list Z) : list Z := alter (fun n => wrap64 (n + 1)) i l.

Section Alloc.

(** Whether the feature is built in. *)
Variable allocstats : bool.

Definition tag (site : Site) (s : Stats) : Stats :=
  if allocstats
  then mkStats (ALLOCS s) (BYTES s) (LIVE s) (fetch_add_at (site_index site) (COUNTERS s)) (HIST s)
  else s.

Definition tag_count (s : Stats) (i : nat) : Z :=
  if allocstats then default 0%Z (COUNTERS s !! i) else 0%Z.

Definition tag_line (s : Stats) : bytes :=
  bs "alloctags" ++
  concat (imap (fun i name => bs " " ++ bs name ++ bs "=" ++ display_uint (tag_count s i)) NAMES).

(** [usize::BITS - size.leading_zeros()]: the number of significant bits. *)
Definition bit_length (size : Z) : Z := if (size =? 0)%Z then 0%Z else (Z.log2 size + 1)%Z.

Definition hist_bucket (size : Z) : nat := Z.to_nat (Z.min (bit_length size) (Z.of_nat HIST_BUCKETS - 1)).

Definition hist (size : Z) (s : Stats) : Stats :=
  if allocstats
  then mkStats (ALLOCS s) (BYTES s) (LIVE s) (COUNTERS s) (fetch_add_at (hist_bucket size) (HIST s))
  else s.

Definition hist_line (s : Stats) : bytes :=
  let used := filter (fun p => p.2 <> 0%Z) (imap pair (HIST s)) in
  bs "allochist" ++
  concat (map (fun p => bs " 2^" ++ display_uint (Z.of_nat p.1) ++ bs "=" ++ display_uint p.2) used) ++
  (if is_empty used then bs " (empty)" else []).

(** The [count!] macro. *)
Definition count (size : Z) (s : Stats) : Stats :=
  let s := hist size s in
  mkStats (wrap64 (ALLOCS s + 1)) (wrap64 (BYTES s + size)) (wrap64 (LIVE s + size)) (COUNTERS s) (HIST s).

(** What the four operations of [GlobalAlloc] do to the counters, before they call
    the system allocator. *)
Definition alloc (size : Z) (s : Stats) : Stats := count size s.
Definition alloc_zeroed (size : Z) (s : Stats) : Stats := count size s.
Definition dealloc (size : Z) (s : Stats) : Stats :=
  mkStats (ALLOCS s) (BYTES s) (wrap64 (LIVE s - size)) (COUNTERS s) (HIST s).
Definition realloc (size new_size : Z) (s : Stats) : Stats :=
  mkStats (wrap64 (ALLOCS s + 1)) (wrap64 (BYTES s + new_size))
          (wrap64 (wrap64 (LIVE s + new_size) - size)) (COUNTERS s) (HIST s).

(** [as i64], and [untagged]. *)
Definition as_i64 (z : Z) : Z := if (z <? 2 ^ 63)%Z then z else (z - u64_modulus)%Z.

Definition untagged (s : Stats) : Z :=
  if allocstats
  then let sum := foldr (fun i n => wrap64 (tag_count s i + n)) 0%Z (seq 0 SITE_COUNT) in
       Z.abs (as_i64 (ALLOCS s) - as_i64 sum)
  else 0%Z.

(** The lines [dump] writes, with the feature on; [t] is the elapsed time, printed. *)
Definition dump_lines (stage t : bytes) (s : Stats) : bytes :=
  bs "allocstats stage=" ++ stage ++ bs " allocs=" ++ display_uint (ALLOCS s) ++ bs " bytes=" ++
  display_uint (BYTES s) ++ bs " live=" ++ display_uint (LIVE s) ++ bs " t=" ++ t ++ [x0a] ++
  tag_line s ++ [x0a] ++ hist_line s ++ [x0a].

(** [dump]: what goes to stderr, and what is appended to the file named in the
    environment, if it can be opened. *)
Definition dump (stage t : bytes) (file_opens : bool) (s : Stats) : bytes * option bytes :=
  if allocstats then (dump_lines stage t s, if file_opens then Some (dump_lines stage t s) else None) else ([], None).

(** [spawn_dumper]: the period of the dumper thread in milliseconds, if it starts one,
    from the two variables of the environment. *)
Definition dumper_period (file every : option str) : option Z :=
  if allocstats then _ ← file; Some (default 100%Z (every ≫= parse_uint usize_max)) else None.

(** ** The program's calls *)

(** A call of the allocator, with what the system allocator answers: an address, or
    [None] for a null pointer. *)
Inductive AllocEvent :=
| Ae_alloc (size : Z) (p : option nat)
| Ae_zeroed (size : Z) (p : option nat)
| Ae_dealloc (p : nat)
| Ae_realloc (p : nat) (new_size : Z) (q : option nat).

(** The blocks handed out and not taken back. *)
Abbreviation Blocks := (gmap nat Z).

(** What the system allocator hands out does not overlap what it handed out before. *)
Definition hand_out (p : option nat) (size : Z) (b : Blocks) : option Blocks :=
  match p with
  | None => Some b
  | Some p => if bool_decide (b !! p = None) then Some (<[p := size]> b) else None
  end.

(** One call; [None] for a call no correct program makes (a block that is not the
    caller's) or an answer no allocator gives.  The layout of a block is the one it
    was allocated with. *)
Definition alloc_step (x : Stats * Blocks) (e : AllocEvent) : option (Stats * Blocks) :=
  let (s, b) := x in
  match e with
  | Ae_alloc size p => b' ← hand_out p size b; Some (alloc size s, b')
  | Ae_zeroed size p => b' ← hand_out p size b; Some (alloc_zeroed size s, b')
  | Ae_dealloc p => size ← b !! p; Some (dealloc size s, delete p b)
  | Ae_realloc p new_size q =>
      size ← b !! p;
      b' ← (if q is Some _ then hand_out q new_size (delete p b) else Some b);
      Some (realloc size new_size s, b')
  end.

Definition alloc_run (es : list AllocEvent) (x : Stats * Blocks) : option (Stats * Blocks) :=
  foldl (fun x e => x ≫= fun x => alloc_step x e) (Some x) es.

(** ** Lemmas *)

Definition live_bytes (b : Blocks) : Z := map_fold (fun _ size n => (size + n)%Z) 0%Z b.

Lemma live_bytes_insert p size b : b !! p = None -> live_bytes (<[p := size]> b) = (size + live_bytes b)%Z.
Proof. intros H. unfold live_bytes. rewrite map_fold_insert_L; [done | intros; lia | done]. Qed.

Lemma live_bytes_delete p size b : b !! p = Some size -> live_bytes b = (size + live_bytes (delete p b))%Z.
Proof. intros H. unfold live_bytes. rewrite (map_fold_delete_L _ _ p size b); [done | intros; lia | done]. Qed.

(** What a refused call leaves in [LIVE]: the bytes of a block that was never handed
    out, or of the growth of a block that stayed as it was. *)
Definition refused (b : Blocks) (e : AllocEvent) : Z :=
  match e with
  | Ae_alloc size None | Ae_zeroed size None => size
  | Ae_realloc p new_size None => (new_size - default 0 (b !! p))%Z
  | _ => 0%Z
  end.

Definition sum_hist (s : Stats) : Z := foldr Z.add 0%Z (HIST s).

Definition is_realloc (e : AllocEvent) : Z := match e with Ae_realloc _ _ _ => 1%Z | _ => 0%Z end.

Lemma hand_out_live p size b b' :
  hand_out p size b = Some b' -> (live_bytes b' = (if p is Some _ then size else 0) + live_bytes b)%Z.
Proof.
  destruct p as [p |]; simpl; [case_bool_decide; [| done] |]; intros; simplify_eq; [by apply live_bytes_insert | lia].
Qed.

Lemma alloc_step_live s b e s' b' :
  alloc_step (s, b) e = Some (s', b') ->
  LIVE s' = wrap64 (LIVE s + (live_bytes b' - live_bytes b) + refused b e).
Proof.
  destruct e as [size p | size p | p | p new_size q]; simpl; intros H.
  1, 2: destruct (hand_out p size b) as [b1 |] eqn:Hh; simplify_eq/=; apply hand_out_live in Hh;
    unfold hist; destruct allocstats; simpl; f_equal; destruct p; simpl in *; lia.
  - destruct (b !! p) as [size |] eqn:Hp; simplify_eq/=. rewrite (live_bytes_delete _ _ _ Hp). f_equal. lia.
  - destruct (b !! p) as [size |] eqn:Hp; [| done]. simpl in H.
    pose proof (live_bytes_delete _ _ _ Hp) as Hd. destruct q as [q |]; simpl in H.
    + case_bool_decide; simplify_eq/=. rewrite wrap64_sub_l, live_bytes_insert by done. f_equal. lia.
    + simplify_eq/=. rewrite wrap64_sub_l. f_equal. lia.
Qed.

(** A run in which the system allocator never refuses. *)
Definition answered (e : AllocEvent) : bool :=
  match e with
  | Ae_alloc _ p | Ae_zeroed _ p => bool_decide (is_Some p)
  | Ae_dealloc _ => true
  | Ae_realloc _ _ q => bool_decide (is_Some q)
  end.

Lemma refused_answered b e : answered e = true -> refused b e = 0%Z.
Proof.
  destruct e as [size [p |] | size [p |] | p | p new_size [q |]]; try done; simpl; intros H;
    by apply bool_decide_eq_true, is_Some_None in H.
Qed.

Lemma alloc_run_cons e es x : alloc_run (e :: es) x = alloc_step x e ≫= alloc_run es.
Proof.
  unfold alloc_run. simpl. destruct (alloc_step x e) as [y |]; [done |].
  simpl. induction es as [| e' es IH]; [done | exact IH].
Qed.

Lemma alloc_run_live es s b s' b' :
  alloc_run es (s, b) = Some (s', b') -> forallb answered es = true ->
  LIVE s = wrap64 (live_bytes b) -> LIVE s' = wrap64 (live_bytes b').
Proof.
  revert s b. induction es as [| e es IH]; intros s b H Ha Hl; [by injection H as <- <- |].
  rewrite alloc_run_cons in H. destruct (alloc_step (s, b) e) as [[s1 b1] |] eqn:He; [| done].
  simpl in Ha. apply andb_true_iff in Ha as [Ha1 Ha2]. eapply IH; [exact H | done |].
  rewrite (alloc_step_live _ _ _ _ _ He), (refused_answered _ _ Ha1), Hl.
  rewrite <- Z.add_assoc, wrap64_add_l. f_equal. lia.
Qed.

(** The histogram's total moves by one. *)
Lemma sum_fetch_add l i :
  i < length l -> wrap64 (foldr Z.add 0%Z (fetch_add_at i l)) = wrap64 (foldr Z.add 0%Z l + 1).
Proof.
  unfold fetch_add_at. revert i. induction l as [| n l IH]; intros i Hi; simpl in Hi; [lia |]. destruct i as [| i]; simpl.
  - rewrite wrap64_add_l. f_equal. lia.
  - change (list_alter _ i l) with (alter (fun n => wrap64 (n + 1)) i l). rewrite (Z.add_comm n), <- wrap64_add_l, IH, wrap64_add_l by lia. f_equal. lia.
Qed.

Lemma hist_bucket_lt size : hist_bucket size < HIST_BUCKETS.
Proof. unfold hist_bucket, HIST_BUCKETS. lia. Qed.

Lemma fetch_add_length i l : length (fetch_add_at i l) = length l.
Proof. apply length_alter. Qed.

(** ** Properties *)

(** The bucket of a size: bucket 0 holds size 0, bucket [k] the sizes from [2^(k-1)]
    to [2^k - 1], and the last one everything from [2^26] up. *)
Lemma hist_bucket_sizes size k :
  (0 <= size)%Z ->
  hist_bucket size = k <->
    (k = 0 /\ size = 0%Z) \/
    (0 < k < 27 /\ (2 ^ (Z.of_nat k - 1) <= size < 2 ^ Z.of_nat k)%Z) \/
    (k = 27 /\ (2 ^ 26 <= size)%Z).
Proof.
  intros Hs. unfold hist_bucket, bit_length, HIST_BUCKETS. destruct (size =? 0)%Z eqn:E; bool_to_prop.
  - subst size. split; [intros <-; by left |]. intros [[-> _] | [[Hk H] | [-> H]]]; [done | | done].
    pose proof (Z.pow_pos_nonneg 2 (Z.of_nat k - 1)). lia.
  - assert (Hl : (0 <= Z.log2 size)%Z) by apply Z.log2_nonneg.
    assert (Hk : forall k', (0 <= k')%Z -> (k' <= Z.log2 size <-> 2 ^ k' <= size)%Z).
    { intros k' Hk'. rewrite <- Z.log2_le_pow2 by lia. done. }
    split.
    + intros <-. destruct (decide (Z.log2 size < 26)%Z) as [Hlt | Hge].
      * right. left. rewrite Z.min_l by lia. rewrite Z2Nat.id, Z.add_simpl_r by lia.
        pose proof (Z.log2_spec size). split; [lia |]. rewrite Z.add_1_r. lia.
      * right. right. split; [lia |]. apply Hk; lia.
    + intros [[_ H] | [[Hk1 [Hk2 Hk3]] | [-> H]]]; [done | |].
      * apply Hk in Hk2; [| lia]. apply Z.log2_lt_pow2 in Hk3; lia.
      * apply Hk in H; lia.
Qed.

(** The histogram's buckets add up to the calls of [count!]: everything [ALLOCS]
    counts but the calls of [realloc]. *)
Lemma alloc_step_hist s b e s' b' :
  allocstats = true -> length (HIST s) = HIST_BUCKETS -> alloc_step (s, b) e = Some (s', b') ->
  length (HIST s') = HIST_BUCKETS /\
  wrap64 (ALLOCS s' - sum_hist s') = wrap64 (ALLOCS s - sum_hist s + is_realloc e).
Proof.
  intros Hf Hl H. unfold sum_hist.
  assert (Hcount : forall size, length (HIST (count size s)) = HIST_BUCKETS /\
    wrap64 (ALLOCS (count size s) - foldr Z.add 0%Z (HIST (count size s))) =
      wrap64 (ALLOCS s - foldr Z.add 0%Z (HIST s) + 0)).
  { intros size. unfold count, hist. rewrite Hf. simpl. rewrite fetch_add_length. split; [done |].
    rewrite wrap64_sub_l, <- wrap64_sub_r, sum_fetch_add, wrap64_sub_r by (rewrite Hl; apply hist_bucket_lt).
    f_equal. lia. }
  destruct e as [size p | size p | p | p new_size q]; simpl in *.
  1, 2: destruct (hand_out p size b); simplify_eq/=; apply Hcount.
  - destruct (b !! p); simplify_eq/=. by rewrite Z.add_0_r.
  - destruct (b !! p); [| done]. simpl in H. destruct (if q is Some _ then _ else _) as [b1 |]; simplify_eq/=.
    split; [done |]. rewrite wrap64_sub_l. f_equal. lia.
Qed.

Definition reallocs (es : list AllocEvent) : Z := foldr (fun e n => is_realloc e + n)%Z 0%Z es.

Lemma alloc_run_hist es s b s' b' :
  allocstats = true -> length (HIST s) = HIST_BUCKETS -> alloc_run es (s, b) = Some (s', b') ->
  wrap64 (ALLOCS s' - sum_hist s') = wrap64 (ALLOCS s - sum_hist s + reallocs es).
Proof.
  intros Hf. revert s b. induction es as [| e es IH]; intros s b Hl H; simpl.
  { injection H as <- <-. by rewrite Z.add_0_r. }
  rewrite alloc_run_cons in H. destruct (alloc_step (s, b) e) as [[s1 b1] |] eqn:He; [| done].
  destruct (alloc_step_hist _ _ _ _ _ Hf Hl He) as [Hl1 H1]. rewrite (IH s1 b1 Hl1 H).
  rewrite <- wrap64_add_l, H1, wrap64_add_l. f_equal. lia.
Qed.

(** The counters say what the program holds.  Whatever calls it makes, as long as
    the system allocator grants them: [LIVE] is the total size of the blocks that are
    allocated and not freed; and with the feature on the histogram's buckets add up
    to [ALLOCS] less the calls of [realloc], which it does not see (all modulo
    [2^64]). *)
Lemma alloc_counters_exact es s b :
  alloc_run es (stats_new, ∅) = Some (s, b) -> forallb answered es = true ->
  LIVE s = wrap64 (live_bytes b) /\
  (allocstats = true -> wrap64 (ALLOCS s - sum_hist s) = wrap64 (reallocs es)).
Proof.
  intros H Ha. split; [by eapply alloc_run_live |]. intros Hf. by rewrite (alloc_run_hist es stats_new ∅ s b Hf).
Qed.

End Alloc.

(** ** What a refusal does *)

(** A refused request is counted as memory in use.  The counters move before the
    system allocator answers and are not corrected: after a null answer to an
    allocation [LIVE] is too high by its size for ever, and after a refused [realloc],
    whose block stays as it was, by the growth. *)
Lemma refused_request_counted_live allocstats es s b e s' b' :
  alloc_run allocstats es (stats_new, ∅) = Some (s, b) -> forallb answered es = true ->
  answered e = false -> alloc_step allocstats (s, b) e = Some (s', b') ->
  b' = b /\ LIVE s' = wrap64 (live_bytes b' + refused b e).
Proof.
  intros H Ha He Hs. assert (Hb : b' = b).
  { destruct e as [size [p |] | size [p |] | p | p new_size [q |]]; simpl in *; try done;
      try (by rewrite bool_decide_eq_false in He; exfalso; apply He; eauto); [by simplify_eq.. |].
    destruct (b !! p); by simplify_eq/=. }
  split; [done |]. rewrite (alloc_step_live _ _ _ _ _ _ Hs), (alloc_run_live _ _ _ _ _ _ H Ha eq_refl), Hb.
  rewrite Z.sub_diag, Z.add_0_r. apply wrap64_add_l.
Qed.

(** ** Witness *)

Definition alloc_session : list AllocEvent :=
  [Ae_alloc 100 (Some 1); Ae_zeroed 64 (Some 2); Ae_realloc 1 300 (Some 1); Ae_dealloc 2; Ae_alloc (2 ^ 30) (Some 2)].

Example alloc_session_lines :
  option_map (fun x => (hist_line x.1, tag_line true (tag true Payload x.1), untagged true (tag true Payload x.1)))
             (alloc_run true alloc_session (stats_new, ∅)) =
  Some (bs "allochist 2^7=2 2^27=1",
        bs "alloctags read_buf=0 events=0 frame_chunk=0 payload=1 subscribe=0 control_line=0 connection=0 routing=0 other=0",
        3%Z).
Proof. vm_compute. reflexivity. Qed.

Lemma alloc_counters_exact_witness :
  exists s b, alloc_run true alloc_session (stats_new, ∅) = Some (s, b) /\
    LIVE s = wrap64 (live_bytes b) /\ LIVE s = (300 + 2 ^ 30)%Z /\
    wrap64 (ALLOCS s - sum_hist s) = 1%Z.
Proof.
  destruct (alloc_run true alloc_session (stats_new, ∅)) as [[s b] |] eqn:E; [| vm_compute in E; discriminate E].
  destruct (alloc_counters_exact true alloc_session s b E eq_refl) as [H1 H2].
  exists s, b. split; [reflexivity |]. split; [exact H1 |]. split; [| exact (H2 eq_refl)].
  vm_compute in E. injection E as <- _. reflexivity.
Defined.
