(* ===== verification/TestClient.v ===== *)
(** * The raw test client (crates/core-it/src/wire.rs)

    The client the integration tests speak to a server with: it frames commands,
    reads control lines and payloads, and answers keepalives.  Its socket is the
    sequence of what the reads of one byte will answer; the clock is a function that
    says at which pass of a loop the deadline is found to have passed. *)

From Stdlib Require Import String Strings.Byte.
From S2P Require Import Prelude Proto ProtoLex Decimal ProtoFeed ProtoStream ProtoRoundtrip External Arena Frames.

(** ** Definitions *)

(** What a bounded read of one byte can answer. *)
Inductive Rx :=
| Rx_byte (b : byte)
| Rx_closed
| Rx_error
| Rx_timeout.

(** [Next]. *)
Inductive WireNext :=
| Nx_line (l : bytes)
| Nx_closed
| Nx_timeout.

(** The methods of [Next]; [None] is the panic. *)
Definition nx_is_closed (n : WireNext) : bool := match n with Nx_closed => true | _ => false end.
Definition nx_is_timeout (n : WireNext) : bool := match n with Nx_timeout => true | _ => false end.
Definition nx_the_line (n : WireNext) : option bytes := match n with Nx_line l => Some l | _ => None end.
Definition expect_line (n : WireNext) (want : bytes) : option unit :=
  l ← nx_the_line n; if bool_decide (l = want) then Some tt else None.

(** [Conn]: what will arrive, [buf], what was sent, [auto_pong]. *)
Record Wire := mkWire { wi_rx : list Rx; wi_buf : bytes; wi_sent : bytes; wi_auto_pong : bool }.

Definition set_rx (c : Wire) (rx : list Rx) (buf : bytes) : Wire := mkWire rx buf (wi_sent c) (wi_auto_pong c).

Definition send (c : Wire) (b : bytes) : Wire := mkWire (wi_rx c) (wi_buf c) (wi_sent c ++ b) (wi_auto_pong c).

Definition connect_opts (c : Wire) (opts : bytes) : Wire := send c (bs "CONNECT " ++ opts ++ CRLF).

(** [windows(2).position(|w| w == b"\r\n")]. *)
Definition wire_find_crlf (buf : bytes) : option nat := crlf_position buf.

(** [read_line_into]: a socket that has nothing more to say times out; one that is
    closed stays closed. *)
Fixpoint read_line_into (rx : list Rx) (buf : bytes) : WireNext * list Rx * bytes :=
  match wire_find_crlf buf with
  | Some i => (Nx_line (take (i + 2) buf), rx, drop (i + 2) buf)
  | None =>
      match rx with
      | [] => (Nx_timeout, [], buf)
      | Rx_byte b :: rx' => read_line_into rx' (buf ++ [b])
      | Rx_closed :: _ | Rx_error :: _ => (Nx_closed, rx, buf)
      | Rx_timeout :: rx' => (Nx_timeout, rx', buf)
      end
  end.

Definition absorb_ping (c : Wire) (line : WireNext) : Wire * bool :=
  match line with
  | Nx_line l =>
      if wi_auto_pong c && bool_decide (l = bs "PING" ++ CRLF) then (send c (bs "PONG" ++ CRLF), true) else (c, false)
  | _ => (c, false)
  end.

(** [next]: the loop goes on only after a keepalive, and every keepalive is six bytes
    of the buffer or of the socket, which bounds the passes. *)
Fixpoint next_loop (fuel : nat) (expired : nat -> bool) (pass : nat) (c : Wire) : option (Wire * WireNext) :=
  match fuel with
  | O => None
  | S fuel =>
      if expired pass then Some (c, Nx_timeout)
      else
        let '(line, rx, buf) := read_line_into (wi_rx c) (wi_buf c) in
        let (c', absorbed) := absorb_ping (set_rx c rx buf) line in
        if absorbed : bool then next_loop fuel expired (S pass) c' else Some (c', line)
  end.

Definition next (expired : nat -> bool) (c : Wire) : option (Wire * WireNext) :=
  next_loop (S (length (wi_rx c) + length (wi_buf c))) expired 0 c.

(** [barrier]: [false] is the panic. *)
Fixpoint barrier_loop (n : nat) (expired : nat -> nat -> bool) (c : Wire) : option (Wire * bool) :=
  match n with
  | O => Some (c, false)
  | S n' =>
      '(c', nx) ← next (expired n) c;
      match nx with
      | Nx_line l =>
          if bool_decide (l = bs "PONG" ++ CRLF) then Some (c', true)
          else if bool_decide (take 3 l = bs "+OK") then barrier_loop n' expired c' else Some (c', false)
      | _ => Some (c', false)
      end
  end.

Definition barrier (expired : nat -> nat -> bool) (c : Wire) : option (Wire * bool) :=
  barrier_loop 64 expired (send c (bs "PING" ++ CRLF)).

(** [absorb_ping_bytes], on the bytes the caller holds. *)
Definition absorb_ping_bytes (c : Wire) (b : bytes) : Wire * bytes * bool :=
  if negb (wi_auto_pong c) then (c, b, false)
  else
    let n := length b in
    if (n <? 7)%nat || negb (bool_decide (drop (n - 7) b = bs "PING" ++ CRLF)) || negb (is_empty (take (n - 7) b))
    then (c, b, false)
    else (send c (bs "PONG" ++ CRLF), take (n - 7) b, true).

(** The loop of [drain]; every pass reads a byte or ends. *)
Fixpoint drain_loop (rx : list Rx) (expired : nat -> bool) (pass : nat) (c : Wire) (out : bytes) : Wire * bytes :=
  if expired pass then (set_rx c rx (wi_buf c), out)
  else
    match rx with
    | [] => (set_rx c [] (wi_buf c), out)
    | Rx_byte b :: rx' =>
        let '(c', out', _) := absorb_ping_bytes c (out ++ [b]) in drain_loop rx' expired (S pass) c' out'
    | Rx_closed :: _ | Rx_error :: _ => (set_rx c rx (wi_buf c), out)
    | Rx_timeout :: rx' => (set_rx c rx' (wi_buf c), out)
    end.

Definition drain (expired : nat -> bool) (c : Wire) : Wire * bytes :=
  drain_loop (wi_rx c) expired 0 (set_rx c (wi_rx c) []) (wi_buf c).

(** [closed]. *)
Fixpoint closed_loop (rx : list Rx) (expired : nat -> bool) (pass : nat) (c : Wire) : Wire * bool :=
  if expired pass then (set_rx c rx (wi_buf c), false)
  else
    match rx with
    | [] => (set_rx c [] (wi_buf c), false)
    | Rx_byte b :: rx' =>
        let '(c', v, _) := absorb_ping_bytes c (wi_buf c ++ [b]) in
        if negb (is_empty v) then (set_rx c' rx' v, false) else closed_loop rx' expired (S pass) (set_rx c' rx' v)
    | Rx_closed :: _ | Rx_error :: _ => (set_rx c rx (wi_buf c), true)
    | Rx_timeout :: rx' => (set_rx c rx' (wi_buf c), false)
    end.

Definition closed (expired : nat -> bool) (c : Wire) : Wire * bool :=
  if negb (is_empty (wi_buf c)) then (c, false) else closed_loop (wi_rx c) expired 0 c.

(** [read_msg_body]: [n + 2] bytes straight from the socket (a read of several bytes
    is as many reads of one); [None] is a panic. *)
Fixpoint fill (n : nat) (rx : list Rx) (got : bytes) : option (bytes * list Rx) :=
  match n with
  | O => Some (got, rx)
  | S n' =>
      match rx with
      | Rx_byte b :: rx' => fill n' rx' (got ++ [b])
      | _ => None
      end
  end.

Definition read_msg_body (n : nat) (c : Wire) : option (Wire * bytes) :=
  '(body, rx) ← fill (n + 2) (wi_rx c) [];
  if bool_decide (drop n body = CRLF) then Some (set_rx c rx (wi_buf c), take n body) else None.

(** [connect_raw]: the first line must be an INFO line, whose JSON is what follows. *)
Definition connect_raw (rx : list Rx) : option (Wire * bytes) :=
  match read_line_into rx [] with
  | (Nx_line l, rx', buf) =>
      if bool_decide (take 5 l = bs "INFO ") then Some (mkWire rx' buf [] false, drop 5 l) else None
  | _ => None
  end.

(** [connect]: the same client, answering keepalives. *)
Definition connect (rx : list Rx) : option (Wire * bytes) :=
  '(c, info) ← connect_raw rx; Some (mkWire (wi_rx c) (wi_buf c) (wi_sent c) true, info).

(** *** Frames *)

Definition pub_frame (subject : bytes) (reply : option bytes) (body : bytes) : bytes :=
  match reply with
  | Some r => bs "PUB " ++ subject ++ bs " " ++ r ++ bs " " ++ display_uint (blen body) ++ CRLF
  | None => bs "PUB " ++ subject ++ bs " " ++ display_uint (blen body) ++ CRLF
  end ++ body ++ CRLF.

Definition hpub_frame (subject : bytes) (reply : option bytes) (hdr body : bytes) : bytes :=
  match reply with
  | Some r =>
      bs "HPUB " ++ subject ++ bs " " ++ r ++ bs " " ++ display_uint (blen hdr) ++ bs " " ++
      display_uint (blen hdr + blen body) ++ CRLF
  | None =>
      bs "HPUB " ++ subject ++ bs " " ++ display_uint (blen hdr) ++ bs " " ++
      display_uint (blen hdr + blen body) ++ CRLF
  end ++ hdr ++ body ++ CRLF.

Definition header_block (lines : list bytes) : bytes :=
  bs "NATS/1.0" ++ CRLF ++ concat (map (fun l => l ++ CRLF) lines) ++ CRLF.

(** ** Lemmas: framing *)

(** What a test sends through these helpers. *)
Inductive TestFrame :=
| T_connect (opts : bytes)
| T_pub (subject : bytes) (reply : option bytes) (body : bytes)
| T_hpub (subject : bytes) (reply : option bytes) (hdr body : bytes)
| T_ping.

Definition test_bytes (f : TestFrame) : bytes :=
  match f with
  | T_connect opts => wi_sent (connect_opts (mkWire [] [] [] true) opts)
  | T_pub s r b => pub_frame s r b
  | T_hpub s r h b => hpub_frame s r h b
  | T_ping => bs "PING" ++ CRLF
  end.

Definition test_cmd (f : TestFrame) : Cmd :=
  match f with
  | T_connect opts => CmdConnect opts
  | T_pub s r b => CmdPub s r b
  | T_hpub s r h b => CmdHpub s r h b
  | T_ping => CmdPing
  end.

Lemma size_in_u64 lim n : (0 <= n)%Z -> size_ok lim n -> in_u64 n.
Proof. intros H [H1 _]. unfold in_u64, u64_modulus. lia. Qed.

Lemma test_bytes_encode lim f : cmd_ok lim (test_cmd f) -> test_bytes f = encode (test_cmd f).
Proof.
  intros [_ H]. destruct f as [opts | s r b | s r h b |]; unfold encode; simpl in *.
  - unfold encode_line, encode_args. simpl. by rewrite !app_nil_r.
  - destruct H as (_ & _ & Hs). pose proof (size_in_u64 _ _ (blen_nonneg b) Hs).
    unfold pub_frame, encode_line, encode_args. rewrite display_uint_push_u64 by done.
    destruct r as [r |]; simpl; by rewrite ?app_nil_r; repeat (rewrite <- ?(assoc_L (++)); simpl).
  - destruct H as (_ & _ & Hs). pose proof (size_in_u64 _ _ (blen_nonneg (h ++ b)) Hs) as Ht.
    assert (Hh : in_u64 (blen h)).
    { rewrite blen_app in Ht. pose proof (blen_nonneg h). pose proof (blen_nonneg b). unfold in_u64 in *. lia. }
    unfold hpub_frame, encode_line, encode_args. rewrite <- blen_app, !display_uint_push_u64 by done.
    destruct r as [r |]; simpl; by rewrite ?app_nil_r; repeat (rewrite <- ?(assoc_L (++)); simpl).
  - done.
Qed.

(** ** Lemmas: reading *)

Definition arrives (b : bytes) : list Rx := map Rx_byte b.

Lemma arrives_app a b : arrives (a ++ b) = arrives a ++ arrives b.
Proof. apply map_app. Qed.

Lemma fill_arrives b rx got : fill (length b) (arrives b ++ rx) got = Some (got ++ b, rx).
Proof.
  revert got. induction b as [| x b IH]; intros got; simpl; [by rewrite app_nil_r |].
  by rewrite IH, <- (assoc_L (++)).
Qed.

Definition no_cr (l : bytes) : Prop := Forall (fun b => b <> x0d) l.

(** A line that arrives behind what is buffered of it. *)
Lemma read_line_arrives line p q rx :
  no_cr line -> line ++ CRLF = p ++ q ->
  read_line_into (arrives q ++ rx) p = (Nx_line (line ++ CRLF), rx, []).
Proof.
  intros Hl. pose proof (crlf_position_line line [] Hl) as Hpos. fold CRLF in Hpos.
  revert p. induction q as [| b q IH]; intros p Hpq.
  - rewrite app_nil_r in Hpq. subst p. simpl.
    assert (Ht : take (length line + 2) (line ++ CRLF) = line ++ CRLF) by (apply take_ge; rewrite length_app; simpl; lia).
    assert (Hd : drop (length line + 2) (line ++ CRLF) = []) by (apply drop_ge; rewrite length_app; simpl; lia).
    destruct rx; simpl; unfold wire_find_crlf; by rewrite Hpos, Ht, Hd.
  - simpl. unfold wire_find_crlf. destruct (crlf_position p) as [i |] eqn:Hi.
    + exfalso. pose proof (crlf_position_app p (b :: q) i Hi) as H. rewrite <- Hpq, Hpos in H. simplify_eq.
      apply crlf_position_Some, (f_equal length) in Hi. apply (f_equal length) in Hpq.
      rewrite !length_app, ?length_take in *. simpl in *. rewrite ?length_drop in *. lia.
    + apply IH. by rewrite <- (assoc_L (++)).
Qed.

Definition ping_line : bytes := bs "PING" ++ CRLF.
Definition pong_line : bytes := bs "PONG" ++ CRLF.

Definition times (k : nat) (l : bytes) : bytes := concat (replicate k l).

Lemma times_length k l : length (times k l) = k * length l.
Proof. unfold times. induction k as [| k IH]; [done |]. simpl. rewrite length_app, IH. lia. Qed.

Lemma times_add j k l : times (j + k) l = times j l ++ times k l.
Proof. unfold times. by rewrite replicate_add, concat_app. Qed.

(** [next] skips keepalives, answering each, and returns the first other line. *)
Lemma next_loop_keepalives fuel expired pass k line rx sent :
  (forall i, expired i = false) -> no_cr line -> line <> bs "PING" -> k < fuel ->
  next_loop fuel expired pass (mkWire (arrives (times k ping_line ++ line ++ CRLF) ++ rx) [] sent true) =
  Some (mkWire rx [] (sent ++ times k pong_line) true, Nx_line (line ++ CRLF)).
Proof.
  intros He Hl Hne. revert fuel pass sent. induction k as [| k IH]; intros fuel pass sent Hk;
    (destruct fuel as [| fuel]; [lia |]); cbn [next_loop]; rewrite He; cbn [wi_rx wi_buf].
  - change (times 0 ping_line ++ line ++ CRLF) with (line ++ CRLF).
    rewrite (read_line_arrives line [] (line ++ CRLF)) by done. simpl. rewrite app_nil_r. rewrite bool_decide_eq_false_2; [done |].
    intros H. apply Hne. by apply (app_inv_tail CRLF line (bs "PING")) in H.
  - change (times (S k) ping_line) with (ping_line ++ times k ping_line).
    rewrite <- (assoc_L (++)), arrives_app, <- (assoc_L (++)).
    rewrite (read_line_arrives (bs "PING") [] ping_line) by (done || by repeat constructor).
    cbn [absorb_ping set_rx wi_auto_pong andb]. rewrite bool_decide_eq_true_2 by done.
    unfold send. cbn [wi_rx wi_buf wi_sent wi_auto_pong]. rewrite IH by lia. by rewrite <- (assoc_L (++)).
Qed.

Lemma next_keepalives expired k line rx sent :
  (forall i, expired i = false) -> no_cr line -> line <> bs "PING" ->
  next expired (mkWire (arrives (times k ping_line ++ line ++ CRLF) ++ rx) [] sent true) =
  Some (mkWire rx [] (sent ++ times k pong_line) true, Nx_line (line ++ CRLF)).
Proof.
  intros He Hl Hne. apply next_loop_keepalives; [done.. |]. simpl.
  unfold arrives. rewrite !length_app, length_map, !length_app, times_length. simpl. lia.
Qed.

Lemma barrier_loop_passes n expired oks k rx sent :
  (forall n i, expired n i = false) -> length oks < n ->
  barrier_loop n expired
    (mkWire (arrives (concat (map (fun j => times j ping_line ++ frame_ok) oks) ++ times k ping_line ++ pong_line) ++ rx)
            [] sent true) =
  Some (mkWire rx [] (sent ++ times (foldr Nat.add k oks) pong_line) true, true).
Proof.
  intros He. revert n sent. induction oks as [| j oks IH]; intros n sent Hn; (destruct n as [| n]; [simpl in Hn; lia |]).
  - simpl barrier_loop. simpl app at 1. unfold pong_line at 1.
    rewrite next_keepalives by (done || by repeat constructor). done.
  - simpl map. simpl concat. rewrite <- !(assoc_L (++)), (assoc_L (++) (times j ping_line)), arrives_app, <- (assoc_L (++)).
    simpl barrier_loop. unfold frame_ok at 1. rewrite next_keepalives by (done || by repeat constructor).
    simpl. rewrite IH by (simpl in Hn; lia). by rewrite times_add, <- (assoc_L (++)).
Qed.

(** ** Properties *)

(** What the test client frames, the server parses.  Any sequence of commands the
    helpers write (CONNECT, PUB and HPUB with or without a reply, PING), sent in one
    segment, is parsed into exactly the events the test meant. *)
Lemma test_frames_parse lim fs :
  Forall (fun f => cmd_ok lim (test_cmd f)) fs ->
  feed_into Line (concat (map test_bytes fs)) lim [] =
  Some (Ok tt, Line, [], concat (map (fun f => cmd_events (test_cmd f)) fs)).
Proof.
  intros Hfs. replace (map test_bytes fs) with (map encode (map test_cmd fs)).
  - rewrite feed_into_cmds by (by apply Forall_map). by rewrite map_map.
  - rewrite map_map. apply map_ext_Forall. eapply Forall_impl; [exact Hfs |].
    intros f Hf. symmetry. exact (test_bytes_encode lim f Hf).
Qed.

Lemma delivery_line_no_cr d :
  word (d_subject d) -> word (d_sid d) -> Forall word (option_list (d_reply d)) ->
  Forall in_u64 (option_list (d_hdr d)) -> in_u64 (blen (d_payload d)) -> no_cr (delivery_line d).
Proof.
  intros H1 H2 H3 H4 H5. apply Forall_app. split; [destruct (d_hdr d); by repeat constructor |].
  apply encode_args_no_cr. repeat (constructor; [done |]). apply Forall_app. split; [done |].
  apply Forall_app. split; [| by constructor; [apply push_u64_word |]].
  destruct (d_hdr d); simpl in *; [| constructor]. inversion H4; subst. constructor; [by apply push_u64_word | constructor].
Qed.

(** C32: the test client reads what the server delivers.  Behind any number of
    keepalives, a delivery frame as [build_frame] lays it out is read back as its
    control line and its payload; the keepalives are answered, and nothing behind the
    frame is taken. *)
Theorem client_reads_delivery `{BML : BytesMutLaws} a h sub m expired k rx sent :
  let d := delivery_of h sub m in
  arena_sealed a -> (forall i, expired i = false) ->
  word (d_subject d) -> word (d_sid d) -> Forall word (option_list (d_reply d)) ->
  Forall in_u64 (option_list (d_hdr d)) -> in_u64 (blen (d_payload d)) ->
  exists c,
    next expired (mkWire (arrives (times k ping_line ++ (build_frame a h sub m).2) ++ rx) [] sent true) =
      Some (c, Nx_line (delivery_line d ++ CRLF)) /\
    wi_sent c = sent ++ times k pong_line /\
    read_msg_body (length (d_payload d)) c = Some (set_rx c rx [], d_payload d).
Proof.
  intros d Ha He H1 H2 H3 H4 H5.
  assert (Hf : (build_frame a h sub m).2 = (delivery_line d ++ CRLF) ++ d_payload d ++ CRLF).
  { unfold build_frame. rewrite arena_frame_bytes, frame_pieces_bytes by done.
    by rewrite delivery_bytes_line, <- !(assoc_L (++)). }
  rewrite Hf, (assoc_L (++)), arrives_app, <- (assoc_L (++)).
  rewrite next_keepalives; [| done | by apply delivery_line_no_cr | by unfold delivery_line; destruct (d_hdr d)].
  eexists. split; [done |]. split; [done |]. unfold read_msg_body. cbn [wi_rx].
  replace (length (d_payload d) + 2) with (length (d_payload d ++ CRLF)) by (by rewrite length_app).
  rewrite fill_arrives. simpl. rewrite drop_app_length, take_app_length. by rewrite bool_decide_eq_true_2.
Qed.

(** The barrier.  When the server answers the barrier's PING with at most 63 [+OK]
    lines and then PONG, with any keepalives in between, the barrier returns; it has
    sent its PING and one PONG per keepalive, and taken nothing behind the PONG. *)
Lemma barrier_passes expired oks k rx sent :
  (forall n i, expired n i = false) -> length oks < 64 ->
  barrier expired
    (mkWire (arrives (concat (map (fun j => times j ping_line ++ frame_ok) oks) ++ times k ping_line ++ pong_line) ++ rx)
            [] sent true) =
  Some (mkWire rx [] (sent ++ ping_line ++ times (foldr Nat.add k oks) pong_line) true, true).
Proof.
  intros He Hn. unfold barrier, send. cbn [wi_rx wi_buf wi_sent wi_auto_pong].
  rewrite barrier_loop_passes by done. by rewrite <- (assoc_L (++)).
Qed.

(** [absorb_ping_bytes] compares seven bytes with a text of six. *)
Lemma absorb_ping_bytes_never c b : absorb_ping_bytes c b = (c, b, false).
Proof.
  unfold absorb_ping_bytes. destruct (wi_auto_pong c); [| done]. simpl negb.
  destruct (length b <? 7)%nat eqn:E; [done |]. bool_to_prop.
  rewrite bool_decide_eq_false_2; [done |]. intros H. apply (f_equal length) in H. rewrite length_drop in H.
  simpl in H. lia.
Qed.

(** [drain] never answers a keepalive.  Everything that arrives until the socket is
    quiet is returned, keepalives included, and nothing is sent, also by a client that
    is to answer keepalives: [absorb_ping_bytes] compares the last seven bytes with the
    six of [PING\r\n], which are never equal.  So a server's keepalive shows up as
    traffic, and a server waiting for its PONG does not get one. *)
Lemma drain_returns_keepalives expired c arrived rest :
  (forall i, expired i = false) -> wi_rx c = arrives arrived ++ Rx_timeout :: rest ->
  drain expired c = (mkWire rest [] (wi_sent c) (wi_auto_pong c), wi_buf c ++ arrived).
Proof.
  intros He Hrx. unfold drain. rewrite Hrx. set (c0 := set_rx c _ []).
  change (mkWire rest [] (wi_sent c) (wi_auto_pong c)) with (set_rx c0 rest (wi_buf c0)).
  generalize 0 as pass. generalize (wi_buf c) as out. clearbody c0. clear Hrx.
  induction arrived as [| b arrived IH]; intros out pass; simpl; rewrite He; [by rewrite app_nil_r |].
  rewrite absorb_ping_bytes_never, IH. by rewrite <- (assoc_L (++)).
Qed.

(** ** Witnesses *)

Lemma test_frames_parse_witness :
  let fs := [T_connect (bs "{}"); T_hpub (bs "a.b") (Some (bs "r")) (header_block [bs "k: v"]) (bs "hi");
             T_pub (bs "a") None (bs "x"); T_ping] in
  feed_into Line (concat (map test_bytes fs)) default_limits [] =
  Some (Ok tt, Line, [], concat (map (fun f => cmd_events (test_cmd f)) fs)).
Proof.
  intros fs. apply (test_frames_parse default_limits fs).
  repeat apply Forall_cons_2; try apply Forall_nil_2; (split; [apply Z.leb_le; reflexivity |]).
  - split; [by eexists _, _ | by apply (bool_decide_unpack _)].
  - split_and!; [apply word_check; reflexivity | | split; [apply Z.ltb_lt | apply Z.leb_le]; reflexivity].
    repeat constructor; discriminate.
  - split_and!; [apply word_check; reflexivity | constructor | split; [apply Z.ltb_lt | apply Z.leb_le]; reflexivity].
  - exact I.
Defined.

Lemma client_reads_delivery_witness :
  let m := mkMsg (bs "a.b") (Some (bs "r")) 2 (bs "hhpayload") in
  let sub := sub_new 0 (bs "a.*") None (bs "7") 0 in
  exists c,
    next (fun _ => false)
      (mkWire (arrives (times 1 ping_line ++ (build_frame (@arena_new simple_bytesmut) false sub m).2) ++ [Rx_closed])
              [] [] true) =
      Some (c, Nx_line (bs "MSG a.b 7 r 7" ++ CRLF)) /\
    wi_sent c = pong_line /\
    read_msg_body 7 c = Some (set_rx c [Rx_closed] [], bs "payload").
Proof.
  intros m sub.
  apply (@client_reads_delivery simple_bytesmut simple_bytesmut_laws (@arena_new simple_bytesmut) false sub m
           (fun _ => false) 1 [Rx_closed] []);
    [apply arena_new_sealed | reflexivity | apply word_check; reflexivity | apply word_check; reflexivity
    | apply Forall_cons_2; [apply word_check; reflexivity | apply Forall_nil_2] | apply Forall_nil_2
    | split; [apply Z.leb_le | apply Z.ltb_lt]; reflexivity].
Defined.

Lemma barrier_passes_witness :
  barrier (fun _ _ => false) (mkWire (arrives (frame_ok ++ ping_line ++ pong_line) ++ []) [] [] true) =
  Some (mkWire [] [] (ping_line ++ pong_line) true, true).
Proof. apply (barrier_passes (fun _ _ => false) [0] 1 [] []); [reflexivity | simpl; lia]. Defined.

Lemma drain_returns_keepalives_witness :
  drain (fun _ => false) (mkWire (arrives ping_line ++ [Rx_timeout]) [] [] true) =
  (mkWire [] [] [] true, bs "PING" ++ CRLF).
Proof.
  apply (drain_returns_keepalives (fun _ => false) (mkWire (arrives ping_line ++ [Rx_timeout]) [] [] true) ping_line []);
    reflexivity.
Defined.
