(* ===== verification/BenchScan.v ===== *)
(** * The flood benchmark's subscriber (crates/bench/src/bin/floodpubsub.rs)

    A raw socket that counts MSG frames: [next_frame] decodes the frame at the front
    of the buffer, [subscriber] reads, scans and compacts.  The number it reports is
    the number the benchmark is about. *)

From Stdlib Require Import String Strings.Byte.
From S2P Require Import Prelude Proto ProtoLex Decimal ProtoFeed ProtoStream ProtoRoundtrip External Arena Frames Config ConfigFile TestClient.

(** ** Definitions *)

(** [std::str::from_utf8]: the characters, or [None] for bytes that are not UTF-8. *)
Definition cont (b : byte) : bool := (128 <=? u8 b)%Z && (u8 b <=? 191)%Z.

Definition valid3 (b0 b1 b2 : byte) : bool :=
  (224 <=? u8 b0)%Z && (u8 b0 <=? 239)%Z && cont b1 && cont b2 &&
  (negb (u8 b0 =? 224)%Z || (160 <=? u8 b1)%Z) && (negb (u8 b0 =? 237)%Z || (u8 b1 <=? 159)%Z).

Definition valid4 (b0 b1 b2 b3 : byte) : bool :=
  (240 <=? u8 b0)%Z && (u8 b0 <=? 244)%Z && cont b1 && cont b2 && cont b3 &&
  (negb (u8 b0 =? 240)%Z || (144 <=? u8 b1)%Z) && (negb (u8 b0 =? 244)%Z || (u8 b1 <=? 143)%Z).

Fixpoint from_utf8 (l : bytes) : option str :=
  match l with
  | [] => Some []
  | b0 :: r0 =>
      if (u8 b0 <? 128)%Z then cons (u8 b0) <$> from_utf8 r0
      else
        match r0 with
        | b1 :: r1 =>
            if (194 <=? u8 b0)%Z && (u8 b0 <=? 223)%Z && cont b1
            then cons ((u8 b0 - 192) * 64 + (u8 b1 - 128))%Z <$> from_utf8 r1
            else
              match r1 with
              | b2 :: r2 =>
                  if valid3 b0 b1 b2
                  then cons (((u8 b0 - 224) * 64 + (u8 b1 - 128)) * 64 + (u8 b2 - 128))%Z <$> from_utf8 r2
                  else
                    match r2 with
                    | b3 :: r3 =>
                        if valid4 b0 b1 b2 b3
                        then cons ((((u8 b0 - 240) * 64 + (u8 b1 - 128)) * 64 + (u8 b2 - 128)) * 64 + (u8 b3 - 128))%Z
                               <$> from_utf8 r3
                        else None
                    | [] => None
                    end
              | [] => None
              end
        | [] => None
        end
  end.

(** [str::parse::<usize>]. *)
Definition parse_usize (s : str) : option Z := parse_uint usize_max s.

(** [Frame]. *)
Inductive BenchFrame :=
| Fr_message (total : Z)
| Fr_ping
| Fr_skip (n : Z)
| Fr_need_more
| Fr_err (line : bytes).

Definition is_lf (b : byte) : bool := bool_decide (b = x0a).
Definition is_space (b : byte) : bool := bool_decide (b = x20).

(** [next_frame] behind its first [let]: the newline is at [nl], and [len] bytes are
    there. *)
Definition decode_line (line : bytes) (nl : nat) (len : Z) : BenchFrame :=
  let body := take (nl - 1) line in
  let verb_len := default (length body) (position is_space body) in
  let verb := take verb_len body in
  if bool_decide (verb = bs "MSG") || bool_decide (verb = bs "HMSG") then
    let digits := default [] (last (split_on is_space (drop verb_len body))) in
    match from_utf8 digits ≫= fun d => parse_usize (trim d) with
    | None => Fr_err line
    | Some total =>
        let need := wrap64 (Z.of_nat nl + 1 + total + 2) in
        if (len <? need)%Z then Fr_need_more else Fr_message need
    end
  else if bool_decide (verb = bs "PING") then Fr_ping
  else if bool_decide (verb = bs "-ERR") then Fr_err line
  else Fr_skip (Z.of_nat nl + 1).

Definition next_frame (src : bytes) : BenchFrame :=
  match position is_lf src with
  | None => Fr_need_more
  | Some nl => decode_line (take (S nl) src) nl (blen src)
  end.

(** The subscriber's locals ([sc_buf] is [buf[pos..end]]), its two counters, and what
    it wrote. *)
Record Scan := mkScan { sc_buf : bytes; sc_delivered : Z; sc_consumed : Z; sc_sent : bytes }.

Definition scan_new : Scan := mkScan [] 0 0 [].

(** How the inner loop ends: it needs more bytes, it has counted [msgs] messages, or
    the server said something that ends the run. *)
Inductive ScanEnd := Sc_reads | Sc_enough | Sc_err.

Fixpoint scan (fuel : nat) (msgs : Z) (s : Scan) : option (Scan * ScanEnd) :=
  match fuel with
  | O => None
  | S fuel =>
      let skip n := drop (Z.to_nat n) (sc_buf s) in
      match next_frame (sc_buf s) with
      | Fr_message total =>
          let s' := mkScan (skip total) (wrap64 (sc_delivered s + 1)) (wrap64 (sc_consumed s + total)) (sc_sent s) in
          if (msgs <=? sc_delivered s')%Z then Some (s', Sc_enough) else scan fuel msgs s'
      | Fr_ping => scan fuel msgs (mkScan (skip 6%Z) (sc_delivered s) (sc_consumed s) (sc_sent s ++ pong_line))
      | Fr_skip n => scan fuel msgs (mkScan (skip n) (sc_delivered s) (sc_consumed s) (sc_sent s))
      | Fr_err _ => Some (s, Sc_err)
      | Fr_need_more => Some (s, Sc_reads)
      end
  end.

(** What [read] answers: up to [n] of the bytes that are there, end of file, nothing
    within the poll interval ([done]: the driver has ended the run), or an error. *)
Inductive SubRead :=
| Sr_data (n : nat)
| Sr_eof
| Sr_timeout (done : bool)
| Sr_interrupted
| Sr_error.

(** The subscriber goes on reading, has returned [Ok] ([failed]: with the flag set), or
    has returned an error. *)
Inductive SubState :=
| Su_reading (s : Scan)
| Su_returned (s : Scan) (failed : bool)
| Su_error.

(** One pass of the outer loop; [cap] is [buf.len()] and [stream] what the server has
    written and the subscriber not read. *)
Definition sub_read (cap : nat) (msgs : Z) (s : Scan) (stream : bytes) (r : SubRead) : option (SubState * bytes) :=
  if (length (sc_buf s) =? cap)%nat then Some (Su_error, stream)
  else
    match r with
    | Sr_data n =>
        let k := Nat.min n (cap - length (sc_buf s)) in
        let s1 := mkScan (sc_buf s ++ take k stream) (sc_delivered s) (sc_consumed s) (sc_sent s) in
        '(s2, e) ← scan (S (length (sc_buf s1))) msgs s1;
        Some (match e with
              | Sc_reads => Su_reading s2
              | Sc_enough => Su_returned s2 false
              | Sc_err => Su_returned s2 true
              end, drop k stream)
    | Sr_eof => Some (Su_returned s true, stream)
    | Sr_timeout done => Some (if done then Su_returned s false else Su_reading s, stream)
    | Sr_interrupted => Some (Su_reading s, stream)
    | Sr_error => Some (Su_error, stream)
    end.

Fixpoint sub_run (cap : nat) (msgs : Z) (reads : list SubRead) (st : SubState) (stream : bytes) :
    option (SubState * bytes) :=
  match reads, st with
  | r :: reads', Su_reading s =>
      '(st', stream') ← sub_read cap msgs s stream r; sub_run cap msgs reads' st' stream'
  | _, _ => Some (st, stream)
  end.

(** ** What a server says *)

(** A delivery, a keepalive, or another control line. *)
Inductive SFrame :=
| SF_msg (d : Delivery)
| SF_ping
| SF_line (l : bytes).

Definition sframe_bytes (f : SFrame) : bytes :=
  match f with
  | SF_msg d => delivery_bytes d
  | SF_ping => frame_ping
  | SF_line l => l ++ CRLF
  end.

Definition stream_of (fs : list SFrame) : bytes := concat (map sframe_bytes fs).

Fixpoint deliveries (fs : list SFrame) : nat :=
  match fs with
  | [] => 0
  | SF_msg _ :: fs' => S (deliveries fs')
  | _ :: fs' => deliveries fs'
  end.

Fixpoint pings (fs : list SFrame) : nat :=
  match fs with
  | [] => 0
  | SF_ping :: fs' => S (pings fs')
  | _ :: fs' => pings fs'
  end.

Definition no_lf (l : bytes) : Prop := Forall (fun b => b <> x0a) l.

(** A token of a control line, as far as the scanner cares. *)
Definition token (w : bytes) : Prop := no_lf w /\ Forall (fun b => b <> x20) w.

Definition verb_of (l : bytes) : bytes := take (default (length l) (position is_space l)) l.

Definition sframe_ok (f : SFrame) : Prop :=
  match f with
  | SF_msg d =>
      token (d_subject d) /\ token (d_sid d) /\ Forall token (option_list (d_reply d)) /\
      Forall in_u64 (option_list (d_hdr d)) /\ (blen (delivery_bytes d) < u64_modulus)%Z
  | SF_ping => True
  | SF_line l =>
      no_lf l /\ verb_of l <> bs "MSG" /\ verb_of l <> bs "HMSG" /\ verb_of l <> bs "PING" /\ verb_of l <> bs "-ERR"
  end.

(** What [next_frame] makes of it. *)
Definition sframe_result (f : SFrame) : BenchFrame :=
  match f with
  | SF_msg d => Fr_message (blen (delivery_bytes d))
  | SF_ping => Fr_ping
  | SF_line l => Fr_skip (blen l + 2)
  end.

(** ** Lemmas *)

Lemma position_lf_line l t : no_lf l -> position is_lf (l ++ CRLF ++ t) = Some (S (length l)).
Proof.
  induction 1 as [| b l Hb _ IH]; [done |]. change ((b :: l) ++ CRLF ++ t) with (b :: l ++ CRLF ++ t). cbn [position].
  unfold is_lf at 1. rewrite bool_decide_eq_false_2 by done. by rewrite IH.
Qed.

Lemma position_lf_none l : no_lf l -> position is_lf l = None.
Proof. induction 1 as [| b l Hb _ IH]; simpl; [done |]. unfold is_lf at 1. rewrite bool_decide_eq_false_2 by done. by rewrite IH. Qed.

Lemma next_frame_line l t :
  no_lf l -> next_frame (l ++ CRLF ++ t) = decode_line (l ++ CRLF) (S (length l)) (blen (l ++ CRLF ++ t)).
Proof.
  intros Hl. unfold next_frame. rewrite position_lf_line by done. f_equal.
  rewrite (assoc_L (++)). replace (S (S (length l))) with (length (l ++ CRLF)) by (rewrite length_app; simpl; lia).
  apply take_app_length.
Qed.

Lemma body_of_line l : take (S (length l) - 1) (l ++ CRLF) = l.
Proof. simpl. rewrite Nat.sub_0_r. apply take_app_length. Qed.

(** A strict prefix of a line has no newline. *)
Lemma strict_prefix_no_lf l p q : no_lf l -> l ++ CRLF = p ++ q -> q <> [] -> no_lf p.
Proof.
  intros Hl H Hq. destruct (app_eq_inv _ _ _ _ H) as [(k & -> & Hk) | (k & -> & Hk)].
  - apply Forall_app in Hl as [? _]. done.
  - apply Forall_app. split; [done |]. unfold CRLF in Hk.
    destruct k as [| x [| y [| z k]]]; simplify_eq/=; by repeat first [apply Forall_nil_2 | apply Forall_cons_2].
Qed.

Lemma from_utf8_ascii l : Forall (fun b => (u8 b < 128)%Z) l -> from_utf8 l = Some (map u8 l).
Proof. induction 1 as [| b l Hb _ IH]; simpl; [done |]. rewrite (proj2 (Z.ltb_lt _ _)) by done. by rewrite IH. Qed.

(** The decimal text of a size is read back. *)
Lemma parse_digits n :
  in_u64 n -> (from_utf8 (push_u64 n) ≫= fun d => parse_usize (trim d)) = Some n.
Proof.
  intros Hn. destruct (push_u64_spec n Hn) as (Hd & Hv & Hne & _).
  assert (Hr : Forall (fun b => (48 <= u8 b <= 57)%Z) (push_u64 n)).
  { apply Forall_forall. intros b Hb. apply is_ascii_digit_range. eapply forallb_forall; [exact Hd |].
    by apply list_elem_of_In. }
  rewrite from_utf8_ascii by (eapply Forall_impl; [exact Hr |]; intros; simpl in *; lia). simpl.
  assert (Hws : forall c, c ∈ map u8 (push_u64 n) -> is_whitespace c = false).
  { intros c Hc. apply list_elem_of_In, in_map_iff in Hc as (b & <- & Hb). rewrite Forall_forall in Hr.
    specialize (Hr b ltac:(by apply list_elem_of_In)). simpl in Hr. unfold is_whitespace.
    repeat (apply orb_false_iff; split); try apply andb_false_iff; rewrite ?Z.leb_gt, ?Z.eqb_neq; lia. }
  unfold trim. rewrite trim_matches_id.
  2: { split; intros c Hc; apply Hws; [by destruct (map u8 (push_u64 n)); simplify_eq/=; left | by apply last_Some_elem_of]. }
  rewrite <- display_uint_push_u64 by done. apply parse_uint_show; [done |]. unfold in_u64, usize_max in *. lia.
Qed.

(** *** Frames at the front of the buffer *)

Lemma token_push_u64 n : in_u64 n -> token (push_u64 n).
Proof.
  intros Hn. destruct (push_u64_spec n Hn) as (Hd & _ & _ & _).
  assert (H : Forall (fun b => b <> x0a /\ b <> x20) (push_u64 n)).
  { apply Forall_forall. intros b Hb. assert (Hdig : is_ascii_digit b = true).
    { eapply forallb_forall; [exact Hd |]. by apply list_elem_of_In. }
    apply is_ascii_digit_range in Hdig. split; intros ->; unfold u8 in Hdig; simpl in Hdig; lia. }
  split; (eapply Forall_impl; [exact H |]); by intros b [? ?].
Qed.

(** The words of a delivery's control line. *)
Definition delivery_words (d : Delivery) : list bytes :=
  d_subject d :: d_sid d :: option_list (d_reply d) ++
  option_list (push_u64 <$> d_hdr d) ++ [push_u64 (blen (d_payload d))].

Lemma delivery_words_tokens d : sframe_ok (SF_msg d) -> Forall token (delivery_words d).
Proof.
  intros (H1 & H2 & H3 & H4 & H5). unfold delivery_words.
  assert (Hp : in_u64 (blen (d_payload d))).
  { rewrite delivery_bytes_line, !blen_app in H5. pose proof (blen_nonneg (d_payload d)).
    pose proof (blen_nonneg (delivery_line d)). pose proof (blen_nonneg CRLF). unfold in_u64. lia. }
  repeat (apply Forall_cons_2; [done |]). apply Forall_app. split; [done |]. apply Forall_app. split.
  - destruct (d_hdr d); simpl in *; [| constructor]. inversion H4; subst.
    apply Forall_cons_2; [by apply token_push_u64 | constructor].
  - apply Forall_cons_2; [by apply token_push_u64 | constructor].
Qed.

Lemma args_join ws : concat (map (fun w => x20 :: w) ws) = join_with x20 ([] :: ws).
Proof.
  destruct ws as [| w ws]; [done |]. simpl. f_equal. revert w.
  induction ws as [| v ws IH]; intros w; [by rewrite app_nil_r |]. simpl. f_equal. f_equal. apply IH.
Qed.

Lemma position_space_verb verb args :
  Forall (fun b => b <> x20) verb -> position is_space (verb ++ x20 :: args) = Some (length verb).
Proof.
  induction 1 as [| b l Hb _ IH]; [done |]. simpl. unfold is_space at 1.
  rewrite bool_decide_eq_false_2 by done. by rewrite IH.
Qed.

Lemma delivery_line_no_lf d : sframe_ok (SF_msg d) -> no_lf (delivery_line d).
Proof.
  intros Hok. apply Forall_app. split; [destruct (d_hdr d); by repeat constructor |].
  pose proof (delivery_words_tokens d Hok) as Hw. fold (delivery_words d).
  induction Hw as [| w ws [Hw _] _ IH]; [constructor |]. simpl. constructor; [done |]. by apply Forall_app.
Qed.

Lemma decode_delivery d len :
  sframe_ok (SF_msg d) ->
  decode_line (delivery_line d ++ CRLF) (S (length (delivery_line d))) len =
  if (len <? blen (delivery_bytes d))%Z then Fr_need_more else Fr_message (blen (delivery_bytes d)).
Proof.
  intros Hok. unfold decode_line. rewrite body_of_line. set (verb := if d_hdr d is Some _ then bs "HMSG" else bs "MSG").
  assert (Hargs : exists args, concat (map (fun w => x20 :: w) (delivery_words d)) = x20 :: args) by (by eexists).
  destruct Hargs as [args Hargs].
  assert (Hline : delivery_line d = verb ++ x20 :: args) by (by rewrite <- Hargs).
  assert (Hverb : Forall (fun b => b <> x20) verb) by (unfold verb; destruct (d_hdr d); by repeat constructor).
  rewrite Hline, position_space_verb by done. cbn [default from_option id]. rewrite take_app_length, drop_app_length.
  replace (bool_decide (verb = bs "MSG") || bool_decide (verb = bs "HMSG")) with true
    by (unfold verb; by destruct (d_hdr d)).
  assert (Hdig : last (split_on is_space (x20 :: args)) = Some (push_u64 (blen (d_payload d)))).
  { rewrite <- Hargs, args_join. unfold is_space. rewrite split_join; [| done |].
    - unfold delivery_words. rewrite !app_comm_cons, !(assoc_L (++)). apply last_snoc.
    - apply Forall_cons_2; [constructor |]. eapply Forall_impl; [by apply delivery_words_tokens |]. by intros w [_ ?]. }
  rewrite Hdig. cbn [default from_option id]. destruct Hok as (_ & _ & _ & _ & Hlt).
  rewrite <- Hline. rewrite delivery_bytes_line, !blen_app in *. pose proof (blen_nonneg (d_payload d)).
  pose proof (blen_nonneg (delivery_line d)).
  rewrite parse_digits by (unfold in_u64; change (blen CRLF) with 2%Z in *; lia).
  rewrite wrap64_small; [| unfold in_u64; change (blen CRLF) with 2%Z in *; unfold blen in *; lia].
  change (blen CRLF) with 2%Z. replace (Z.of_nat (S (length (delivery_line d))) + 1 + blen (d_payload d) + 2)%Z
    with (blen (delivery_line d) + (2 + (blen (d_payload d) + 2)))%Z by (unfold blen; lia). done.
Qed.

Lemma next_frame_whole f t : sframe_ok f -> next_frame (sframe_bytes f ++ t) = sframe_result f.
Proof.
  destruct f as [d | | l]; simpl sframe_bytes; intros Hok.
  - rewrite delivery_bytes_line, <- !(assoc_L (++)), next_frame_line by (by apply delivery_line_no_lf).
    rewrite decode_delivery by done. rewrite (proj2 (Z.ltb_ge _ _)); [done |].
    rewrite delivery_bytes_line, !blen_app. pose proof (blen_nonneg t). lia.
  - unfold frame_ping. rewrite <- (assoc_L (++)), next_frame_line by (by repeat constructor). done.
  - destruct Hok as (Hl & H1 & H2 & H3 & H4). rewrite <- (assoc_L (++)), next_frame_line by done.
    unfold decode_line. rewrite body_of_line. fold (verb_of l). rewrite !bool_decide_eq_false_2 by done.
    simpl. f_equal. unfold blen. lia.
Qed.

Lemma next_frame_in_line l p q : no_lf l -> l ++ CRLF = p ++ q -> q <> [] -> next_frame p = Fr_need_more.
Proof. intros Hl H Hq. unfold next_frame. by rewrite (position_lf_none p (strict_prefix_no_lf l p q Hl H Hq)). Qed.

Lemma next_frame_partial f p q : sframe_ok f -> sframe_bytes f = p ++ q -> q <> [] -> next_frame p = Fr_need_more.
Proof.
  intros Hok Hpq Hq. destruct f as [d | | l]; simpl in Hpq.
  2: by apply (next_frame_in_line (bs "PING") p q); [repeat constructor | |].
  2: by apply (next_frame_in_line l p q); [apply Hok | |].
  rewrite delivery_bytes_line, (assoc_L (++)) in Hpq.
  assert (Hin : forall k, p = (delivery_line d ++ CRLF) ++ k -> d_payload d ++ CRLF = k ++ q ->
                next_frame p = Fr_need_more).
  { intros k -> Hk. rewrite <- (assoc_L (++)), next_frame_line by (by apply delivery_line_no_lf).
    rewrite decode_delivery by done. rewrite (proj2 (Z.ltb_lt _ _)); [done |].
    rewrite delivery_bytes_line, !blen_app, <- (blen_app (d_payload d)), Hk, !blen_app. pose proof (blen_pos q Hq). lia. }
  destruct (app_eq_inv _ _ _ _ Hpq) as [(k & Hk & Hk2) | (k & Hk & Hk2)]; [| by eapply Hin].
  destruct k as [| x k]; [apply (Hin []); [by rewrite Hk, !app_nil_r | done] |].
  eapply next_frame_in_line; [by apply delivery_line_no_lf | exact Hk | done].
Qed.

(** *** Scanning *)

Lemma deliveries_app a b : deliveries (a ++ b) = deliveries a + deliveries b.
Proof. induction a as [| [] a IH]; simpl; auto. Qed.

Lemma pings_app a b : pings (a ++ b) = pings a + pings b.
Proof. induction a as [| [] a IH]; simpl; auto. Qed.

Lemma sframe_bytes_length f : 0 < length (sframe_bytes f).
Proof. destruct f as [d | | l]; simpl; [rewrite delivery_bytes_line | lia |]; rewrite !length_app; simpl; lia. Qed.

(** What is done, what is left, and where the scanner stands between them. *)
Definition scanned (msgs : Z) (fs : list SFrame) (s : Scan) (rest : bytes) (don todo : list SFrame) : Prop :=
  fs = don ++ todo /\ sc_delivered s = Z.of_nat (deliveries don) /\
  sc_sent s = times (pings don) pong_line /\ sc_buf s ++ rest = stream_of todo.

(** The buffer holds less than one whole frame. *)
Definition partial (s : Scan) (todo : list SFrame) : Prop :=
  match todo with [] => sc_buf s = [] | f :: _ => length (sc_buf s) < length (sframe_bytes f) end.

Lemma scan_one fuel msgs s f p fs rest don todo :
  sframe_ok f -> sc_buf s = sframe_bytes f ++ p -> scanned msgs fs s rest don (f :: todo) ->
  (sc_delivered s < msgs)%Z -> (Z.of_nat (deliveries fs) < u64_modulus)%Z ->
  exists s', scanned msgs fs s' rest (don ++ [f]) todo /\ sc_buf s' = p /\
    ((scan (S fuel) msgs s = scan fuel msgs s' /\ (sc_delivered s' < msgs)%Z) \/
     (scan (S fuel) msgs s = Some (s', Sc_enough) /\ sc_delivered s' = msgs)).
Proof.
  intros Hok Hbuf (Hfs & Hd & Hs & Hst) Hlt Hmax. cbn [scan]. rewrite Hbuf, next_frame_whole by done.
  assert (Hrest : p ++ rest = stream_of todo).
  { rewrite Hbuf in Hst. unfold stream_of in *. simpl in Hst. rewrite <- (assoc_L (++)) in Hst. by apply app_inv_head in Hst. }
  assert (Hsplit : fs = (don ++ [f]) ++ todo) by (by rewrite <- (assoc_L (++))).
  assert (Hcount : deliveries fs = deliveries don + (deliveries [f] + deliveries todo))
    by (rewrite Hfs, deliveries_app; by destruct f).
  assert (Hskip : forall n, Z.to_nat n = length (sframe_bytes f) -> drop (Z.to_nat n) (sframe_bytes f ++ p) = p)
    by (intros n ->; apply drop_app_length).
  destruct f as [d | | l]; cbn [sframe_result].
  - rewrite Hskip by (unfold blen; apply Nat2Z.id). simpl in Hcount.
    rewrite (wrap64_small (sc_delivered s + 1)) by (unfold in_u64; lia).
    exists (mkScan p (sc_delivered s + 1) (wrap64 (sc_consumed s + blen (delivery_bytes d))) (sc_sent s)).
    split; [split_and!; [exact Hsplit | | | exact Hrest] |]; cbn [sc_delivered sc_sent sc_buf].
    + rewrite deliveries_app. simpl. lia.
    + by rewrite pings_app, Nat.add_0_r.
    + split; [done |]. destruct (msgs <=? sc_delivered s + 1)%Z eqn:E; bool_to_prop; [right | left]; split; done || lia.
  - rewrite Hskip by done.
    exists (mkScan p (sc_delivered s) (sc_consumed s) (sc_sent s ++ pong_line)).
    split; [split_and!; [exact Hsplit | | | exact Hrest] |]; cbn [sc_delivered sc_sent sc_buf];
      [by rewrite deliveries_app, Nat.add_0_r | by rewrite pings_app, times_add, Hs | split; [done | by left]].
  - rewrite Hskip by (unfold blen; simpl; rewrite length_app; simpl; lia).
    exists (mkScan p (sc_delivered s) (sc_consumed s) (sc_sent s)).
    split; [split_and!; [exact Hsplit | | | exact Hrest] |]; cbn [sc_delivered sc_sent sc_buf];
      [by rewrite deliveries_app, Nat.add_0_r | by rewrite pings_app, Nat.add_0_r | split; [done | by left]].
Qed.

Lemma scan_frames fuel msgs s fs rest don todo :
  Forall sframe_ok todo -> scanned msgs fs s rest don todo -> length (sc_buf s) < fuel ->
  (sc_delivered s < msgs)%Z -> (Z.of_nat (deliveries fs) < u64_modulus)%Z ->
  exists s' don' todo', scanned msgs fs s' rest don' todo' /\ Forall sframe_ok todo' /\
    ((scan fuel msgs s = Some (s', Sc_reads) /\ (sc_delivered s' < msgs)%Z /\ partial s' todo') \/
     (scan fuel msgs s = Some (s', Sc_enough) /\ sc_delivered s' = msgs)).
Proof.
  intros Hok. revert s don fuel. induction Hok as [| f todo Hf Hok IH]; intros s don fuel Hs Hfuel Hlt Hmax;
    (destruct fuel as [| fuel]; [lia |]).
  - assert (Hnil : sc_buf s = []) by (destruct Hs as (_ & _ & _ & H); by apply app_nil in H as [? _]).
    exists s, don, []. split_and!; [done | constructor |]. left. cbn [scan]. by rewrite Hnil.
  - destruct (decide (length (sc_buf s) < length (sframe_bytes f))) as [Hp | Hw].
    + exists s, don, (f :: todo). split_and!; [done | by constructor |]. left. split_and!; [| done | done].
      destruct Hs as (_ & _ & _ & H). unfold stream_of in H. simpl in H. cbn [scan].
      destruct (app_eq_inv _ _ _ _ H) as [(k & Hk & _) | (k & Hk & Hk2)].
      * apply (f_equal length) in Hk. rewrite length_app in Hk. lia.
      * rewrite (next_frame_partial f (sc_buf s) k); [done | done | done |]. intros ->.
        apply (f_equal length) in Hk. rewrite length_app in Hk. simpl in Hk. lia.
    + assert (Hbuf : exists p, sc_buf s = sframe_bytes f ++ p).
      { destruct Hs as (_ & _ & _ & H). unfold stream_of in H. simpl in H.
        destruct (app_eq_inv _ _ _ _ H) as [(k & Hk & _) | (k & Hk & _)]; [by eauto |].
        exists []. apply (f_equal length) in Hk as Hl. rewrite length_app in Hl.
        destruct k; [| simpl in Hl; lia]. by rewrite app_nil_r in *. }
      destruct Hbuf as [p Hbuf]. pose proof (sframe_bytes_length f).
      assert (Hpl : length p < fuel) by (rewrite Hbuf, length_app in Hfuel; lia).
      destruct (scan_one fuel msgs s f p fs rest don todo) as (s' & Hs' & Hp' & [[-> Hlt'] | [-> Heq]]); [done.. | |].
      * apply (IH s' (don ++ [f]) fuel); [done | by rewrite Hp' | done | done].
      * exists s', (don ++ [f]), todo. split_and!; [done | done |]. by right.
Qed.

Lemma sub_read_frames cap msgs s fs stream don todo r :
  0 < cap -> Forall sframe_ok todo -> Forall (fun f => length (sframe_bytes f) <= cap) todo ->
  scanned msgs fs s stream don todo -> partial s todo -> (sc_delivered s < msgs)%Z ->
  (Z.of_nat (deliveries fs) < u64_modulus)%Z ->
  match r with Sr_data _ | Sr_timeout false | Sr_interrupted => True | _ => False end ->
  exists s' stream' don' todo',
    scanned msgs fs s' stream' don' todo' /\ Forall sframe_ok todo' /\
    ((sub_read cap msgs s stream r = Some (Su_reading s', stream') /\ (sc_delivered s' < msgs)%Z /\ partial s' todo') \/
     (sub_read cap msgs s stream r = Some (Su_returned s' false, stream') /\ sc_delivered s' = msgs)).
Proof.
  intros Hcap Hok Hlen Hs Hp Hlt Hmax Hr. unfold sub_read.
  assert (Hroom : (length (sc_buf s) =? cap)%nat = false).
  { apply Nat.eqb_neq. destruct todo as [| f todo]; simpl in Hp; [rewrite Hp; simpl; lia |].
    inversion Hlen; subst. lia. }
  rewrite Hroom. destruct r as [n | | [] | |]; try done.
  - set (k := Nat.min n (cap - length (sc_buf s))).
    set (s1 := mkScan (sc_buf s ++ take k stream) (sc_delivered s) (sc_consumed s) (sc_sent s)).
    destruct (scan_frames (S (length (sc_buf s1))) msgs s1 fs (drop k stream) don todo)
      as (s2 & don2 & todo2 & Hs2 & Hok2 & Hres); [done | | lia | done | done |].
    { destruct Hs as (H1 & H2 & H3 & H4). split_and!; [done | done | done |]. simpl.
      by rewrite <- (assoc_L (++)), take_drop. }
    exists s2, (drop k stream), don2, todo2. split_and!; [done | done |].
    destruct Hres as [(He & Hd & Hp2) | [He Hd]]; rewrite He; simpl; auto.
  - exists s, stream, don, todo. split_and!; [done | done | by left].
  - exists s, stream, don, todo. split_and!; [done | done | by left].
Qed.

Lemma scanned_suffix msgs fs s rest don todo P : scanned msgs fs s rest don todo -> Forall P fs -> Forall P todo.
Proof. intros [-> _] H. by apply Forall_app in H as [_ ?]. Qed.

Lemma partial_end msgs fs s don todo : scanned msgs fs s [] don todo -> partial s todo -> todo = [].
Proof.
  intros (_ & _ & _ & H) Hp. destruct todo as [| f todo]; [done |]. simpl in Hp. rewrite app_nil_r in H.
  unfold stream_of in H. simpl in H. apply (f_equal length) in H. rewrite length_app in H. lia.
Qed.

Lemma sub_run_frames cap msgs reads s fs stream don todo :
  0 < cap -> Forall sframe_ok fs -> Forall (fun f => length (sframe_bytes f) <= cap) fs ->
  scanned msgs fs s stream don todo -> partial s todo -> (sc_delivered s < msgs)%Z ->
  (Z.of_nat (deliveries fs) < u64_modulus)%Z ->
  Forall (fun r => match r with Sr_data _ | Sr_timeout false | Sr_interrupted => True | _ => False end) reads ->
  exists s' stream' don' todo',
    scanned msgs fs s' stream' don' todo' /\
    ((sub_run cap msgs reads (Su_reading s) stream = Some (Su_reading s', stream') /\
      (sc_delivered s' < msgs)%Z /\ (stream' = [] -> todo' = [])) \/
     (sub_run cap msgs reads (Su_reading s) stream = Some (Su_returned s' false, stream') /\ sc_delivered s' = msgs)).
Proof.
  intros Hcap Hok Hlen. revert s stream don todo.
  induction reads as [| r reads IH]; intros s stream don todo Hs Hp Hlt Hmax Hr.
  { exists s, stream, don, todo. split; [done |]. left. split_and!; [done | done |]. intros ->. by eapply partial_end. }
  inversion Hr as [| ? ? Hr1 Hr2]; subst. cbn [sub_run].
  destruct (sub_read_frames cap msgs s fs stream don todo r) as (s1 & st1 & d1 & t1 & Hs1 & _ & Hres);
    [done | by eapply scanned_suffix | by eapply scanned_suffix | done.. |].
  destruct Hres as [(He & Hlt1 & Hp1) | [He Heq]]; rewrite He; simpl.
  - by apply (IH s1 st1 d1 t1).
  - exists s1, st1, d1, t1. split; [done |]. right. by destruct reads.
Qed.

(** ** Property *)

(** C33: the benchmark counts what was delivered.  Whatever a server says (deliveries,
    keepalives, other lines) and however its bytes are cut into reads: the subscriber
    has counted exactly the deliveries of the frames it has read whole, has answered
    exactly their keepalives, returns when it has counted [msgs], and otherwise, once
    everything the server wrote has been read, has counted every delivery.  (The
    buffer holds the longest frame.) *)
Theorem subscriber_counts_deliveries cap msgs reads fs :
  0 < cap -> (0 < msgs)%Z -> (Z.of_nat (deliveries fs) < u64_modulus)%Z ->
  Forall sframe_ok fs -> Forall (fun f => length (sframe_bytes f) <= cap) fs ->
  Forall (fun r => match r with Sr_data _ | Sr_timeout false | Sr_interrupted => True | _ => False end) reads ->
  exists s rest don todo,
    fs = don ++ todo /\ sc_delivered s = Z.of_nat (deliveries don) /\
    sc_sent s = times (pings don) pong_line /\ sc_buf s ++ rest = stream_of todo /\
    ((sub_run cap msgs reads (Su_reading scan_new) (stream_of fs) = Some (Su_reading s, rest) /\
      (sc_delivered s < msgs)%Z /\ (rest = [] -> todo = [])) \/
     (sub_run cap msgs reads (Su_reading scan_new) (stream_of fs) = Some (Su_returned s false, rest) /\
      sc_delivered s = msgs)).
Proof.
  intros Hcap Hm Hmax Hok Hlen Hr.
  destruct (sub_run_frames cap msgs reads scan_new fs (stream_of fs) [] fs) as (s & rest & don & todo & (H1 & H2 & H3 & H4) & Hres);
    [done | done | done | by split_and! | | done | done | done |].
  - destruct fs as [| f fs]; [done |]. simpl. apply sframe_bytes_length.
  - by exists s, rest, don, todo.
Qed.

(** ** Witness *)

Definition flood_stream : list SFrame :=
  [SF_line (bs "+OK"); SF_msg (mkDelivery (bs "bench") (bs "1") None None (bs "xxxx")); SF_ping;
   SF_msg (mkDelivery (bs "bench") (bs "1") None None ([x0a] ++ bs "MSG"))].

Example flood_read_in_pieces :
  sub_run 64 9 (replicate 20 (Sr_data 5)) (Su_reading scan_new) (stream_of flood_stream) =
  Some (Su_reading (mkScan [] 2 42 pong_line), []).
Proof. vm_compute. reflexivity. Qed.

Lemma subscriber_counts_deliveries_witness :
  exists s rest don todo,
    flood_stream = don ++ todo /\ sc_delivered s = Z.of_nat (deliveries don) /\
    sc_sent s = times (pings don) pong_line /\ sc_buf s ++ rest = stream_of todo /\
    ((sub_run 64 9 [Sr_data 5; Sr_timeout false; Sr_data 100] (Su_reading scan_new) (stream_of flood_stream) =
        Some (Su_reading s, rest) /\ (sc_delivered s < 9)%Z /\ (rest = [] -> todo = [])) \/
     (sub_run 64 9 [Sr_data 5; Sr_timeout false; Sr_data 100] (Su_reading scan_new) (stream_of flood_stream) =
        Some (Su_returned s false, rest) /\ sc_delivered s = 9%Z)).
Proof.
  assert (Htok : forall w, forallb (fun b => negb (bool_decide (b = x0a)) && negb (bool_decide (b = x20))) w = true -> token w).
  { intros w. induction w as [| b w IH]; simpl; [repeat constructor |]. intros [[H1 H2]%andb_true_iff H3]%andb_true_iff.
    destruct (IH H3). apply negb_true_iff, bool_decide_eq_false in H1, H2. split; by constructor. }
  apply (subscriber_counts_deliveries 64 9 [Sr_data 5; Sr_timeout false; Sr_data 100] flood_stream);
    [lia | lia | reflexivity | | | by repeat constructor].
  - repeat apply Forall_cons_2; try apply Forall_nil_2.
    + split_and!; [by repeat constructor | discriminate..].
    + split_and!; [by apply Htok | by apply Htok | constructor | constructor | reflexivity].
    + exact I.
    + split_and!; [by apply Htok | by apply Htok | constructor | constructor | reflexivity].
  - repeat apply Forall_cons_2; try apply Forall_nil_2; vm_compute; lia.
Defined.
