(* ===== verification/Bench.v ===== *)
(** * The flood benchmarks' publishers (crates/bench, crates/server/examples/parsebench.rs)

    The publisher of [floodpub] and [floodpubsub]: frames encoded once, written in
    chunks of whole frames.  The handshake and the gate that are to prove that the
    server has read everything.  And the parser benchmark, which needs no socket.
    The kernel's answers and the environment are parameters. *)

From Stdlib Require Import String Strings.Byte.
From S2P Require Import Prelude Proto ProtoLex Decimal ProtoFeed ProtoStream ProtoRoundtrip External Arena Frames Outbox Writer Config ConfigFile TestClient BenchScan.

(** ** Definitions *)

(** [nats_bench::param], given the variable's value: [None] is the panic. *)
Definition param (value : option str) (default_value : Z) : option Z :=
  match value with
  | Some v => parse_usize v
  | None => Some default_value
  end.

(** [str::trim_start_matches] with a text: as often as it is there. *)
Fixpoint trim_start_text (fuel : nat) (p s : str) : str :=
  match fuel with
  | O => s
  | S fuel => if bool_decide (take (length p) s = p) && negb (is_empty p) then trim_start_text fuel p (drop (length p) s) else s
  end.

(** [connect_addr], given [NATS_BENCH_URL] and [ADDR]. *)
Definition connect_addr (url addr : option str) : str :=
  match url with
  | Some (c :: u) => trim_start_text (length (c :: u)) (cs "nats://") (c :: u)
  | _ => default (cs "127.0.0.1:4222") addr
  end.

(** [dial], on what the first read brought. *)
Definition dial_ok (info : bytes) : bool := (5 <? length info)%nat && bool_decide (take 5 info = bs "INFO ").

(** One encoded publish of [size] bytes. *)
Definition flood_frame (subject : bytes) (size : nat) : bytes :=
  bs "PUB " ++ subject ++ bs " " ++ display_uint (Z.of_nat size) ++ CRLF ++ replicate size "x"%byte ++ CRLF.

Definition per_chunk (target flen : Z) : nat := Z.to_nat (Z.max (target / flen) 1).

(** The publisher in its loops: [whole] frames of the [todo] ones are being written and
    [rest] is what is left of them; or it has ended. *)
Inductive Publisher :=
| Pb_run (todo whole : nat) (rest sent : bytes)
| Pb_done (sent : bytes)
| Pb_bail (sent : bytes).

Section Publisher.

Variables (frame : bytes) (pc : nat).

(** [chunk]: [pc] copies of the frame. *)
Definition flood_chunk : bytes := times pc frame.

(** [while left > 0]. *)
Definition pub_head (todo : nat) (sent : bytes) : Publisher :=
  match todo with
  | O => Pb_done sent
  | S _ => let whole := Nat.min todo pc in Pb_run todo whole (take (whole * length frame) flood_chunk) sent
  end.

(** [while off < buf.len()], and [left -= whole] behind it. *)
Definition pub_next (todo whole : nat) (rest sent : bytes) : Publisher :=
  if is_empty rest then pub_head (todo - whole) sent else Pb_run todo whole rest sent.

(** One [write]: the kernel takes at most what it is offered. *)
Definition pub_write (p : Publisher) (answer : IoResult) : Publisher :=
  match p with
  | Pb_run todo whole rest sent =>
      match answer with
      | Ok 0%Z => Pb_bail sent
      | Ok n => pub_next todo whole (drop (Z.to_nat n) rest) (sent ++ take (Z.to_nat n) rest)
      | Err Interrupted => p
      | Err _ => Pb_bail sent
      end
  | _ => p
  end.

Definition pub_run (msgs : nat) (answers : list IoResult) : Publisher := foldl pub_write (pub_head msgs []) answers.

End Publisher.

(** What a read on a socket with a timeout answers. *)
Inductive ReadAnswer :=
| Ra_data (b : bytes)
| Ra_eof
| Ra_again
| Ra_interrupted
| Ra_error.

(** [windows(k).any(|w| w == text)]. *)
Fixpoint contains (text l : bytes) : bool :=
  bool_decide (take (length text) l = text) ||
  match l with [] => false | _ :: l' => contains text l' end.

(** The gate at the end of [floodpub]: [Some true] is [consumed], [Some false] the
    deadline or the end of the stream, [None] an error. *)
Fixpoint gate (reads : list ReadAnswer) (seen : bytes) : option bool :=
  match reads with
  | [] => Some false
  | Ra_data b :: reads' =>
      let seen := seen ++ b in
      if contains (bs "PONG" ++ [x0d]) seen || contains (bs "+OK" ++ [x0d]) seen then Some true
      else gate reads' (if (blen seen >? 2 ^ 20)%Z then [] else seen)
  | Ra_eof :: _ => Some false
  | (Ra_again | Ra_interrupted) :: reads' => gate reads' seen
  | Ra_error :: _ => None
  end.

(** [expect_pong]: whether it succeeds, and what it writes. *)
Fixpoint expect_pong (reads : list ReadAnswer) (seen sent : bytes) : bool * bytes :=
  match reads with
  | [] => (false, sent)
  | Ra_data b :: reads' =>
      let seen := seen ++ b in
      if contains (bs "PONG") seen then (true, sent)
      else
        let sent' := if contains (bs "PING" ++ [x0d]) seen then sent ++ pong_line else sent in
        expect_pong reads' (if (blen seen >? 2 ^ 16)%Z then [] else seen) sent'
  | Ra_interrupted :: reads' => expect_pong reads' seen sent
  | (Ra_eof | Ra_again | Ra_error) :: _ => (false, sent)
  end.

(** *** parsebench *)

(** [chunk]: every pass adds a frame, so [bytes] bounds the passes. *)
Fixpoint pb_chunk_loop (fuel : nat) (size : nat) (subject : bytes) (limit : Z) (out : bytes) (n : nat) : bytes * nat :=
  match fuel with
  | O => (out, n)
  | S fuel =>
      let flen := (blen subject + Z.of_nat size + 8)%Z in
      if (blen out + flen + 8 <? limit)%Z
      then pb_chunk_loop fuel size subject limit (out ++ flood_frame subject size) (S n)
      else (out, n)
  end.

Definition pb_chunk (size : nat) (subject : bytes) (limit : nat) : bytes * nat :=
  pb_chunk_loop limit size subject (Z.of_nat limit) [] 0.

(** One round of [run]: feed until the buffer is empty; [None] is a parse error, an
    event that is not a publish, or a feed that leaves the buffer as it is. *)
Definition is_publish (ev : Event) : bool := match ev with EvPublish _ _ _ _ _ _ => true | _ => false end.

Fixpoint pb_round (fuel : nat) (st : State) (buf : bytes) (lim : Limits) (msgs : Z) : option Z :=
  match fuel with
  | O => None
  | S fuel =>
      if is_empty buf then Some msgs
      else
        match feed_into st buf lim [] with
        | Some (Ok _, st', src, evs) =>
            if forallb is_publish evs then pb_round fuel st' src lim (wrap64 (msgs + blen evs)) else None
        | _ => None
        end
  end.

Fixpoint pb_run (rounds : nat) (wire : bytes) (lim : Limits) (msgs : Z) : option Z :=
  match rounds with
  | O => Some msgs
  | S rounds => n ← pb_round (S (length wire)) Line wire lim msgs; pb_run rounds wire lim n
  end.

(** ** Lemmas *)

Definition flood_cmd (subject : bytes) (size : nat) : Cmd := CmdPub subject None (replicate size "x"%byte).

Lemma flood_frame_encode lim subject size :
  cmd_ok lim (flood_cmd subject size) -> flood_frame subject size = encode (flood_cmd subject size).
Proof.
  intros H. pose proof (test_bytes_encode lim (T_pub subject None (replicate size "x"%byte)) H) as E.
  etrans; [| exact E]. simpl. unfold flood_frame, pub_frame, blen. rewrite length_replicate. by rewrite <- !(assoc_L (++)).
Qed.

Lemma times_encode lim subject size n :
  cmd_ok lim (flood_cmd subject size) ->
  times n (flood_frame subject size) = concat (map encode (replicate n (flood_cmd subject size))).
Proof. intros H. unfold times. by rewrite (flood_frame_encode lim _ _ H), <- fmap_replicate. Qed.

Lemma flood_frame_length subject size : 0 < length (flood_frame subject size).
Proof. unfold flood_frame. rewrite length_app. simpl. lia. Qed.

Section PublisherLemmas.

Context (frame : bytes) (pc : nat) (Hframe : 0 < length frame) (Hpc : 0 < pc).

Lemma take_times k n : k <= n -> take (k * length frame) (times n frame) = times k frame.
Proof.
  intros H. replace n with (k + (n - k)) by lia. rewrite times_add.
  rewrite take_app_le, take_ge by (rewrite times_length; lia). done.
Qed.

(** What was sent and what is being sent are whole copies of the frame. *)
Definition pub_inv (msgs : nat) (p : Publisher) : Prop :=
  match p with
  | Pb_run todo whole rest sent =>
      rest <> [] /\ 0 < whole <= todo /\ todo <= msgs /\ sent ++ rest = times (msgs - todo + whole) frame
  | Pb_done sent => sent = times msgs frame
  | Pb_bail _ => False
  end.

(** The bytes it has still to send. *)
Definition pub_left (msgs : nat) (p : Publisher) : nat :=
  match p with Pb_run _ _ _ sent => msgs * length frame - length sent | _ => 0 end.

Lemma pub_head_inv msgs todo sent :
  todo <= msgs -> sent = times (msgs - todo) frame ->
  pub_inv msgs (pub_head frame pc todo sent) /\ pub_left msgs (pub_head frame pc todo sent) <= msgs * length frame - length sent.
Proof.
  intros Ht Hs. unfold pub_head. destruct todo as [| t]; [by rewrite Nat.sub_0_r in Hs; simpl; split; [| lia] |].
  set (whole := Nat.min (S t) pc). unfold flood_chunk. rewrite take_times by lia.
  simpl. split; [| lia]. split_and!; [| lia | lia | lia |].
  - intros H. apply (f_equal length) in H. rewrite times_length in H. simpl in H. assert (0 < whole) by lia. nia.
  - rewrite Hs, <- times_add. done.
Qed.

Lemma pub_write_inv msgs p n :
  pub_inv msgs p -> (0 < n)%Z ->
  pub_inv msgs (pub_write frame pc p (Ok n)) /\
  pub_left msgs (pub_write frame pc p (Ok n)) <= pub_left msgs p - 1.
Proof.
  intros Hp Hn. destruct p as [todo whole rest sent | sent | sent]; [| simpl; split; [done | lia] | done].
  destruct Hp as (Hr & Hw & Ht & Hall). cbn [pub_write]. destruct n as [| n | n]; [lia | | lia].
  set (k := Z.to_nat (Z.pos n)). assert (Hk : 0 < k) by lia. clearbody k. clear n Hn.
  assert (Hsent : length (sent ++ take k rest) = length sent + Nat.min k (length rest)) by (rewrite length_app, length_take; lia).
  assert (Hlr : 0 < length rest) by (destruct rest; [done | simpl; lia]).
  unfold pub_next. destruct (is_empty (drop k rest)) eqn:E.
  - assert (Hd : drop k rest = []) by (by destruct (drop k rest)).
    assert (Htk : take k rest = rest) by (by rewrite <- (take_drop k rest) at 2; rewrite Hd, app_nil_r).
    rewrite Htk in *. destruct (pub_head_inv msgs (todo - whole) (sent ++ rest)) as [H1 H2]; [lia | |].
    + rewrite Hall. f_equal. lia.
    + split; [done |]. cbn [pub_left]. lia.
  - split; [| cbn [pub_left]; lia]. split_and!; [by intros H; rewrite H in E | lia | lia | lia |].
    by rewrite <- (assoc_L (++)), take_drop.
Qed.

(** The answers of a socket that goes on taking bytes, and how many take some. *)
Definition takes (r : IoResult) : Prop := match r with Ok n => (0 < n)%Z | Err e => e = Interrupted end.

Definition writes (rs : list IoResult) : nat := foldr (fun r n => match r with Ok _ => S n | Err _ => n end) 0 rs.

Lemma pub_run_inv msgs rs p :
  Forall takes rs -> pub_inv msgs p ->
  pub_inv msgs (foldl (pub_write frame pc) p rs) /\ pub_left msgs (foldl (pub_write frame pc) p rs) <= pub_left msgs p - writes rs.
Proof.
  intros Hrs. revert p. induction Hrs as [| r rs Hr _ IH]; intros p Hp; simpl; [split; [done | lia] |].
  destruct r as [n | e]; simpl in Hr.
  - destruct (pub_write_inv msgs p n Hp Hr) as [H1 H2]. destruct (IH _ H1) as [H3 H4]. split; [done | lia].
  - subst e. replace (pub_write frame pc p (Err Interrupted)) with p by (by destruct p). by apply IH.
Qed.

Lemma pub_left_zero msgs p : pub_inv msgs p -> pub_left msgs p = 0 -> p = Pb_done (times msgs frame).
Proof.
  intros Hp Hl. destruct p as [todo whole rest sent | sent | sent]; [| simpl in Hp; by subst | done]. exfalso.
  destruct Hp as (Hr & Hw & Ht & Hall). simpl in Hl. apply (f_equal length) in Hall.
  rewrite length_app, times_length in Hall. assert (0 < length rest) by (destruct rest; [done | simpl; lia]).
  assert ((msgs - todo + whole) * length frame <= msgs * length frame) by (apply Nat.mul_le_mono_r; lia). lia.
Qed.

End PublisherLemmas.

(** ** Properties *)

(** The flood is what it claims to be.  On a socket that goes on taking bytes (any
    number per write, interruptions allowed), the publisher ends after at most as many
    writes as there are bytes, has written exactly [msgs] copies of its frame, and the
    server's parser makes exactly [msgs] publishes of [size] bytes of them. *)
Lemma flood_publishes_msgs lim subject size target msgs rs :
  let frame := flood_frame subject size in
  let pc := per_chunk target (blen frame) in
  cmd_ok lim (flood_cmd subject size) -> Forall takes rs -> msgs * length frame <= writes rs ->
  pub_run frame pc msgs rs = Pb_done (times msgs frame) /\
  feed_into Line (times msgs frame) lim [] =
    Some (Ok tt, Line, [], replicate msgs (EvPublish subject None 0 (Z.of_nat size) (replicate size "x"%byte) false)).
Proof.
  intros frame pc Hok Hrs Hw.
  assert (Hf : 0 < length frame) by apply flood_frame_length.
  assert (Hpc : 0 < pc) by (unfold pc, per_chunk; lia). split.
  - unfold pub_run. destruct (pub_head_inv frame pc Hf Hpc msgs msgs []) as [H1 H2]; [done | by rewrite Nat.sub_diag |].
    destruct (pub_run_inv frame pc Hf Hpc msgs rs _ Hrs H1) as [H3 H4].
    apply (pub_left_zero frame pc Hf Hpc); [done |]. rewrite Nat.sub_0_r in H2. lia.
  - unfold frame. rewrite (times_encode lim) by done. rewrite feed_into_cmds by (by apply Forall_replicate).
    simpl. do 2 f_equal. clear Hw. induction msgs as [| n IH]; [done |]. simpl. rewrite IH.
    unfold blen. by rewrite length_replicate.
Qed.

(** The gate of [floodpub] proves nothing.  The handshake's PING is answered before
    the flood begins and its PONG is never read, so the gate, which is to show that the
    server has read the whole flood, is satisfied by it: whatever has become of the
    flood, the first read that brings the server's answer to the handshake makes the
    run report [consumed=true]. *)
Lemma floodpub_gate_accepts_handshake lim connect rest more :
  cmd_ok lim (CmdConnect connect) ->
  feed_into Line (encode (CmdConnect connect) ++ encode CmdPing) lim [] = Some (Ok tt, Line, [], [EvConnect connect; EvPing]) /\
  gate (Ra_data (frame_pong ++ rest) :: more) [] = Some true.
Proof.
  intros Hok. split.
  - rewrite <- (app_nil_r (encode CmdPing)).
    change (encode (CmdConnect connect) ++ encode CmdPing ++ []) with (concat (map encode [CmdConnect connect; CmdPing])).
    rewrite feed_into_cmds; [done |]. apply Forall_cons_2; [done |]. apply Forall_cons_2; [| constructor].
    split; [| done]. destruct Hok as [Hl _]. cbn [cmd_line] in *. unfold encode_line in Hl. rewrite blen_app in Hl.
    pose proof (blen_nonneg (encode_args [connect])). change (blen (bs "CONNECT")) with 7%Z in Hl.
    change (blen (bs "PING")) with 4%Z. lia.
  - done.
Qed.

(** ** The parser benchmark *)

Lemma pb_chunk_loop_spec fuel size subject limit n :
  pb_chunk_loop fuel size subject limit (times n (flood_frame subject size)) n =
  let m := (pb_chunk_loop fuel size subject limit (times n (flood_frame subject size)) n).2 in
  (times m (flood_frame subject size), m).
Proof.
  revert n. induction fuel as [| fuel IH]; intros n; [done |]. cbn [pb_chunk_loop].
  destruct (_ <? limit)%Z; [| done].
  replace (times n (flood_frame subject size) ++ flood_frame subject size) with (times (S n) (flood_frame subject size)).
  - apply IH.
  - replace (S n) with (n + 1) by lia. rewrite times_add. f_equal. unfold times. simpl. by rewrite app_nil_r.
Qed.

(** The block is the frames it says it holds, and within its limit. *)
Lemma pb_chunk_frames size subject limit :
  (pb_chunk size subject limit).1 = times (pb_chunk size subject limit).2 (flood_frame subject size).
Proof. unfold pb_chunk. rewrite (pb_chunk_loop_spec limit size subject (Z.of_nat limit) 0) at 1. done. Qed.

Lemma pb_round_counts lim subject size n msgs fuel :
  cmd_ok lim (flood_cmd subject size) -> 1 < fuel ->
  pb_round fuel Line (times n (flood_frame subject size)) lim msgs =
  Some (if (n =? 0)%nat then msgs else wrap64 (msgs + Z.of_nat n)).
Proof.
  intros Hok Hf. destruct fuel as [| [| fuel]]; [lia | lia |]. cbn [pb_round]. destruct n as [| n]; [done |].
  pose proof (flood_frame_length subject size) as Hl.
  assert (E : is_empty (times (S n) (flood_frame subject size)) = false).
  { destruct (times (S n) (flood_frame subject size)) eqn:H; [| done].
    apply (f_equal length) in H. rewrite times_length in H. simpl in H. lia. }
  rewrite E.
  rewrite (times_encode lim) by done. rewrite feed_into_cmds, app_nil_l by (by apply Forall_replicate).
  assert (Hevs : concat (map cmd_events (replicate (S n) (flood_cmd subject size))) =
    replicate (S n) (EvPublish subject None 0 (blen (replicate size "x"%byte)) (replicate size "x"%byte) false)).
  { clear. induction (S n) as [| k IH]; [done |]. simpl. by rewrite IH. }
  rewrite Hevs. replace (forallb is_publish _) with true by (clear; induction (S n) as [| k IH]; [done |]; simpl; done).
  simpl. unfold blen. simpl. by rewrite length_replicate.
Qed.

(** The parser benchmark divides by the right number.  A run of [rounds] rounds over
    a block counts exactly [rounds] times the frames of the block, each of them a
    publish. *)
Lemma parsebench_counts_frames lim subject size limit rounds :
  cmd_ok lim (flood_cmd subject size) ->
  let (wire, frames) := pb_chunk size subject limit in
  wire = times frames (flood_frame subject size) /\
  pb_run rounds wire lim 0 = Some (wrap64 (Z.of_nat (rounds * frames))).
Proof.
  intros Hok. pose proof (pb_chunk_frames size subject limit) as Hw.
  destruct (pb_chunk size subject limit) as [wire frames]. simpl in Hw. split; [done |]. subst wire.
  assert (Hrun : forall k n, pb_run k (times frames (flood_frame subject size)) lim (wrap64 n) =
                             Some (wrap64 (n + Z.of_nat (k * frames)))).
  { induction k as [| k IH]; intros n; cbn [pb_run]; [by rewrite Z.add_0_r |].
    destruct frames as [| f].
    - change (pb_round _ Line (times 0 _) lim (wrap64 n)) with (Some (wrap64 n)). cbn [mbind option_bind].
      rewrite IH. by rewrite !Nat.mul_0_r.
    - rewrite pb_round_counts; [| done | rewrite times_length; pose proof (flood_frame_length subject size); lia].
      cbn [Nat.eqb mbind option_bind]. rewrite wrap64_add_l, IH. do 2 f_equal. lia. }
  exact (Hrun rounds 0%Z).
Qed.

(** ** Witnesses *)

Lemma flood_cmd_ok : cmd_ok default_limits (flood_cmd (bs "test") 3).
Proof.
  split; [apply Z.leb_le; reflexivity |].
  split_and!; [apply word_check; reflexivity | constructor | split; [apply Z.ltb_lt | apply Z.leb_le]; reflexivity].
Qed.

Lemma flood_publishes_msgs_witness :
  let frame := flood_frame (bs "test") 3 in
  pub_run frame (per_chunk 40 (blen frame)) 2 (Err Interrupted :: replicate 40 (Ok 7%Z)) = Pb_done (times 2 frame) /\
  feed_into Line (times 2 frame) default_limits [] =
    Some (Ok tt, Line, [], replicate 2 (EvPublish (bs "test") None 0 3 (bs "xxx") false)).
Proof.
  intros frame.
  apply (flood_publishes_msgs default_limits (bs "test") 3 40 2 (Err Interrupted :: replicate 40 (Ok 7%Z)));
    [exact flood_cmd_ok | | vm_compute; lia].
  apply Forall_cons_2; [reflexivity |]. apply Forall_replicate. reflexivity.
Defined.

Lemma floodpub_gate_accepts_handshake_witness :
  feed_into Line (encode (CmdConnect (bs "{}")) ++ encode CmdPing) default_limits [] =
    Some (Ok tt, Line, [], [EvConnect (bs "{}"); EvPing]) /\
  gate [Ra_data frame_pong; Ra_eof] [] = Some true.
Proof.
  apply (floodpub_gate_accepts_handshake default_limits (bs "{}") [] [Ra_eof]).
  split; [apply Z.leb_le; reflexivity |]. split; [by eexists _, _ | by apply (bool_decide_unpack _)].
Defined.

Lemma parsebench_counts_frames_witness :
  let (wire, frames) := pb_chunk 3 (bs "test") 100 in
  wire = times frames (flood_frame (bs "test") 3) /\ pb_run 4 wire default_limits 0 = Some (wrap64 (Z.of_nat (4 * frames))).
Proof. exact (parsebench_counts_frames default_limits (bs "test") 3 100 4 flood_cmd_ok). Defined.
