(* ===== verification/BenchMain.v ===== *)
(** * The benchmark programs around their loops (crates/bench, crates/server/examples/parsebench.rs)

    What the programs read from their environment, what they say before and after
    the flood, and the line they report.  The socket's answers are a parameter, and so
    is the one floating-point product a percentile takes. *)

From Stdlib Require Import String Strings.Byte.
From stdpp Require Import sorting.
From S2P Require Import Prelude Proto ProtoLex Decimal ProtoFeed ProtoStream ProtoRoundtrip External Arena Frames Outbox Writer Config ConfigFile TestClient BenchScan Bench.

(** ** The environment *)

(** [std::env::var(..).ok()], by name: numbers as texts, the rest as bytes. *)
Record Env := mkEnv {
  en_url : option str; en_addr : option str; en_msgs : option str; en_size : option str;
  en_subject : option bytes; en_sid : option bytes; en_target : option str; en_read : option str;
  en_progress : option str; en_stall : option str; en_quiesce : option str; en_rounds : option str;
  en_subscribers : option str; en_iters : option str; en_warmup : option str }.

(** [.ok().and_then(|v| v.parse().ok()).unwrap_or(d)]. *)
Definition parse_or (v : option str) (d : Z) : Z := default d (v ≫= parse_usize).

(** [target], given what starting a server answers: whether one was started, and its
    address. *)
Definition target (e : Env) (start : option str) : option (bool * str) :=
  match en_url e with
  | Some (c :: u) => Some (false, c :: u)
  | _ => addr ← start; Some (true, addr)
  end.

(** ** Percentiles *)

(** [((n as f64) * p).round() as usize], [p] in thousandths: the product with a factor
    of at most one is exact at zero and one and grows with the factor. *)
Class Scaling (scaled : Z -> Z -> Z) : Prop := {
  scaled_0 n : (0 <= n)%Z -> scaled n 0%Z = 0%Z;
  scaled_1 n : (0 <= n)%Z -> scaled n 1000%Z = n;
  scaled_mono n p q : (0 <= n)%Z -> (0 <= p <= q)%Z -> (q <= 1000)%Z -> (scaled n p <= scaled n q)%Z }.

Record Latency := mkLatency { l_samples : Z; l_p50 : Z; l_p99 : Z; l_p999 : Z; l_max : Z }.

Section Percentiles.

Context (scaled : Z -> Z -> Z).

(** The closure [pct]; [None] is the panic of an index out of range. *)
Definition pct (sorted : list Z) (p : Z) : option Z := sorted !! Z.to_nat (scaled (blen sorted - 1) p).

(** [report_latency]: what it prints; [None] is a panic. *)
Definition report_latency (samples : list Z) : option Latency :=
  let sorted := merge_sort Z.le samples in
  if is_empty sorted then None
  else
    p50 ← pct sorted 500;
    p99 ← pct sorted 990;
    p999 ← pct sorted 999;
    mx ← last sorted;
    Some (mkLatency (blen sorted) p50 p99 p999 mx).

End Percentiles.

(** ** What the clients say first *)

Definition jstr (s : string) : bytes := x22 :: bs s ++ [x22].

(** The CONNECT of the flood programs, which differ in their name. *)
Definition connect_json (name : string) : bytes :=
  bs "{" ++ jstr "verbose" ++ bs ":false," ++ jstr "pedantic" ++ bs ":false," ++ jstr "tls_required" ++ bs ":false," ++
  jstr "name" ++ bs ":" ++ jstr name ++ bs "," ++ jstr "lang" ++ bs ":" ++ jstr "rust" ++ bs "," ++
  jstr "version" ++ bs ":" ++ jstr "0.1.0" ++ bs "," ++ jstr "protocol" ++ bs ":1," ++ jstr "echo" ++ bs ":true," ++
  jstr "headers" ++ bs ":true," ++ jstr "no_responders" ++ bs ":true}".

Definition connect_line (name : string) : bytes := bs "CONNECT " ++ connect_json name.

Definition ping_text : bytes := bs "PING" ++ CRLF.

(** [publisher] and the handshake of [floodpub]. *)
Definition publisher_hello (name : string) : bytes := connect_line name ++ CRLF ++ ping_text.

(** [subscriber]. *)
Definition subscriber_hello (subject sid : bytes) : bytes :=
  connect_line "floodpubsub" ++ CRLF ++ bs "SUB " ++ subject ++ bs " " ++ sid ++ CRLF ++ ping_text.

(** ** floodpub *)

Record FloodArgs := mkFloodArgs { fa_addr : str; fa_msgs : nat; fa_size : nat; fa_subject : bytes; fa_target : Z }.

(** The arguments of [floodpub]: [None] is the panic of [param]. *)
Definition floodpub_args (e : Env) : option FloodArgs :=
  msgs ← param (en_msgs e) 20000000;
  size ← param (en_size e) 128;
  Some (mkFloodArgs (default (cs "127.0.0.1:4222") (en_addr e)) (Z.to_nat msgs) (Z.to_nat size)
          (default (bs "test") (en_subject e)) (parse_or (en_target e) (256 * 1024))).

(** What the socket answers: the first read, whether each [write_all] is taken, the
    answers to the writes of the flood, and the reads of the gate. *)
Record Socket := mkSocket {
  so_info : bytes; so_connect : bool; so_hello : bool; so_writes : list IoResult; so_ping : bool;
  so_reads : list ReadAnswer }.

Inductive FloodEnd :=
| Fe_panic
| Fe_no_info
| Fe_io
| Fe_writing
| Fe_report (msgs size : nat) (bytes flen : Z) (pc : nat) (consumed : bool).

(** [main] of [floodpub]: how it ends, and what it has written by then.  [Fe_writing]:
    the answers end before the flood does. *)
Definition floodpub (e : Env) (so : Socket) : FloodEnd * bytes :=
  match floodpub_args e with
  | None => (Fe_panic, [])
  | Some a =>
      if negb (dial_ok (so_info so)) then (Fe_no_info, [])
      else if negb (so_connect so) then (Fe_io, [])
      else if negb (so_hello so) then (Fe_io, connect_line "floodpub")
      else
        let frame := flood_frame (fa_subject a) (fa_size a) in
        let pc := per_chunk (fa_target a) (blen frame) in
        let hello := publisher_hello "floodpub" in
        match pub_run frame pc (fa_msgs a) (so_writes so) with
        | Pb_run _ _ _ sent => (Fe_writing, hello ++ sent)
        | Pb_bail sent => (Fe_io, hello ++ sent)
        | Pb_done sent =>
            if negb (so_ping so) then (Fe_io, hello ++ sent)
            else
              let wire := hello ++ sent ++ ping_text in
              match gate (so_reads so) [] with
              | None => (Fe_io, wire)
              | Some ok => (Fe_report (fa_msgs a) (fa_size a) (wrap64 (blen sent)) (blen frame) pc ok, wire)
              end
        end
  end.

(** ** floodpubsub *)

Record PubSubArgs := mkPubSubArgs {
  pa_addr : str; pa_msgs : Z; pa_size : Z; pa_subject : bytes; pa_sid : bytes; pa_target : Z; pa_read : Z;
  pa_probe : Z; pa_stall : Z; pa_quiesce : Z }.

Definition probe_every_ms (e : Env) : Z := parse_or (en_progress e) 1000.

Definition floodpubsub_args (e : Env) : option PubSubArgs :=
  msgs ← param (en_msgs e) 10000000;
  size ← param (en_size e) 256;
  target ← param (en_target e) (256 * 1024);
  read ← param (en_read e) (4 * 1024 * 1024);
  stall ← param (en_stall e) 60;
  quiesce ← param (en_quiesce e) 2;
  Some (mkPubSubArgs (connect_addr (en_url e) (en_addr e)) msgs size (default (bs "bench") (en_subject e))
          (default (bs "1") (en_sid e)) target read (probe_every_ms e) stall quiesce).

(** ** parsebench *)

(** [main]: how many messages the timed run counts. *)
Definition parsebench (e : Env) : option Z :=
  let size := Z.to_nat (parse_or (en_size e) 128) in
  let rounds := Z.to_nat (parse_or (en_rounds e) 2000) in
  let (wire, _) := pb_chunk size (bs "test") (Z.to_nat (2 ^ 16)) in
  _ ← pb_run 32 wire default_limits 0;
  pb_run rounds wire default_limits 0.

(** ** Lemmas: percentiles *)

Section PercentileLemmas.

Context (scaled : Z -> Z -> Z) `{SC : !Scaling scaled}.

Lemma scaled_range n p : (0 <= n)%Z -> (0 <= p <= 1000)%Z -> (0 <= scaled n p <= n)%Z.
Proof.
  intros Hn Hp. pose proof (scaled_0 n Hn). pose proof (scaled_1 n Hn).
  pose proof (scaled_mono n 0 p Hn ltac:(lia) ltac:(lia)). pose proof (scaled_mono n p 1000 Hn ltac:(lia) ltac:(lia)). lia.
Qed.

Lemma sorted_lookup (l : list Z) i j x y :
  Sorted Z.le l -> i <= j -> l !! i = Some x -> l !! j = Some y -> (x <= y)%Z.
Proof.
  intros Hs. apply Sorted_StronglySorted in Hs; [| intros a b c; lia]. revert i j.
  induction Hs as [| z l Hs IH Hz]; intros i j Hij Hi Hj; [done |].
  destruct i as [| i], j as [| j]; simplify_eq/=; [lia | | lia | by eapply (IH i j); [lia | |]].
  rewrite Forall_forall in Hz. apply Hz. by eapply list_elem_of_lookup_2.
Qed.

Lemma pct_some sorted p :
  sorted <> [] -> (0 <= p <= 1000)%Z ->
  exists x, pct scaled sorted p = Some x /\ x ∈ sorted.
Proof.
  intros Hne Hp. unfold pct. assert (Hn : (0 < blen sorted)%Z) by (destruct sorted; [done |]; rewrite blen_cons; pose proof (blen_nonneg sorted); lia).
  pose proof (scaled_range (blen sorted - 1) p ltac:(lia) Hp) as Hr.
  destruct (lookup_lt_is_Some_2 sorted (Z.to_nat (scaled (blen sorted - 1) p))) as [x Hx]; [unfold blen in *; lia |].
  exists x. split; [done |]. by eapply list_elem_of_lookup_2.
Qed.

Lemma pct_mono sorted p q x y :
  Sorted Z.le sorted -> sorted <> [] -> (0 <= p <= q)%Z -> (q <= 1000)%Z ->
  pct scaled sorted p = Some x -> pct scaled sorted q = Some y -> (x <= y)%Z.
Proof.
  intros Hs Hne Hpq Hq Hx Hy. eapply (sorted_lookup sorted); [done | | exact Hx | exact Hy].
  assert (Hn : (0 <= blen sorted - 1)%Z) by (destruct sorted; [done |]; rewrite blen_cons; pose proof (blen_nonneg sorted); lia).
  pose proof (scaled_mono (blen sorted - 1) p q Hn Hpq Hq). lia.
Qed.

(** The latency report never panics on samples, and its numbers are what they
    say.  Whatever the rounding of the products, each percentile is one of the
    samples, they are in order, and the last is the largest sample. *)
Lemma report_latency_total samples :
  samples <> [] ->
  exists l, report_latency scaled samples = Some l /\ l_samples l = blen samples /\
    (l_p50 l <= l_p99 l <= l_p999 l)%Z /\ (l_p999 l <= l_max l)%Z /\
    Forall (fun x => x ∈ samples) [l_p50 l; l_p99 l; l_p999 l; l_max l] /\
    Forall (fun x => (x <= l_max l)%Z) samples.
Proof.
  intros Hne. set (sorted := merge_sort Z.le samples).
  assert (Hp : sorted ≡ₚ samples) by apply merge_sort_Permutation.
  assert (Hs : Sorted Z.le sorted) by (apply Sorted_merge_sort; apply _).
  assert (Hne' : sorted <> []) by (intros E; rewrite E in Hp; by apply Permutation_nil_l in Hp).
  destruct (pct_some sorted 500 Hne' ltac:(lia)) as (p50 & E1 & H1).
  destruct (pct_some sorted 990 Hne' ltac:(lia)) as (p99 & E2 & H2).
  destruct (pct_some sorted 999 Hne' ltac:(lia)) as (p999 & E3 & H3).
  destruct (last sorted) as [mx |] eqn:E4; [| by apply last_None in E4].
  assert (Hmax : forall x, x ∈ sorted -> (x <= mx)%Z).
  { intros x [i Hi]%list_elem_of_lookup_1. rewrite last_lookup in E4.
    eapply (sorted_lookup sorted); [done | | done | done]. apply lookup_lt_Some in Hi. lia. }
  exists (mkLatency (blen sorted) p50 p99 p999 mx). unfold report_latency. fold sorted. rewrite E1, E2, E3, E4. simpl.
  split; [by destruct sorted |]. split; [unfold blen; by rewrite Hp |].
  pose proof (pct_mono sorted 500 990 _ _ Hs Hne' ltac:(lia) ltac:(lia) E1 E2).
  pose proof (pct_mono sorted 990 999 _ _ Hs Hne' ltac:(lia) ltac:(lia) E2 E3).
  assert (Hin : forall x, x ∈ sorted -> x ∈ samples) by (intros x; by rewrite Hp).
  split; [lia |]. split; [by apply Hmax |]. split.
  - repeat (apply Forall_cons; split; [apply Hin |]); try done. rewrite last_lookup in E4. by eapply list_elem_of_lookup_2.
  - apply Forall_forall. intros x Hx. apply Hmax. by rewrite Hp.
Qed.

End PercentileLemmas.

(** The exact product, rounded half up. *)
Definition exact_scaled (n p : Z) : Z := ((2 * n * p + 1000) / 2000)%Z.

#[global] Instance exact_scaling : Scaling exact_scaled.
Proof.
  unfold exact_scaled. split.
  - intros n Hn. by rewrite Z.mul_0_r.
  - intros n Hn. replace (2 * n * 1000 + 1000)%Z with (1000 + n * 2000)%Z by lia. rewrite Z.div_add by lia. done.
  - intros n p q Hn Hp Hq. apply Z.div_le_mono; [lia |]. nia.
Qed.

Lemma report_latency_total_witness :
  exists l, report_latency exact_scaled [3000; 1000; 4000; 2000]%Z = Some l /\ l_samples l = 4%Z /\
    (l_p50 l <= l_p99 l <= l_p999 l)%Z /\ (l_p999 l <= l_max l)%Z /\
    Forall (fun x => x ∈ [3000; 1000; 4000; 2000]%Z) [l_p50 l; l_p99 l; l_p999 l; l_max l] /\
    Forall (fun x => (x <= l_max l)%Z) [3000; 1000; 4000; 2000]%Z.
Proof. apply (report_latency_total exact_scaled [3000; 1000; 4000; 2000]%Z). discriminate. Defined.

(** ** Lemmas: sessions *)

Lemma hello_encode name : publisher_hello name = encode (CmdConnect (connect_json name)) ++ encode CmdPing.
Proof.
  unfold publisher_hello, connect_line, ping_text, encode, cmd_line, encode_line, encode_args.
  simpl. by rewrite ?app_nil_r, <- ?(assoc_L (++)).
Qed.

Lemma subscriber_hello_encode subject sid :
  subscriber_hello subject sid =
  concat (map encode [CmdConnect (connect_json "floodpubsub"); CmdSub subject None sid; CmdPing]).
Proof.
  unfold subscriber_hello, connect_line, ping_text, encode, cmd_line, encode_line, encode_args.
  simpl. by rewrite ?app_nil_r, <- ?(assoc_L (++)).
Qed.

Lemma ping_ok lim json : cmd_ok lim (CmdConnect json) -> cmd_ok lim CmdPing.
Proof.
  intros [Hl _]. split; [| done]. cbn [cmd_line] in *. unfold encode_line in Hl. rewrite blen_app in Hl.
  pose proof (blen_nonneg (encode_args [json])). change (blen (bs "CONNECT")) with 7%Z in Hl.
  change (blen (bs "PING")) with 4%Z. lia.
Qed.

Lemma flood_events subject size n :
  concat (map cmd_events (replicate n (flood_cmd subject size))) =
  replicate n (EvPublish subject None 0 (Z.of_nat size) (replicate size "x"%byte) false).
Proof. induction n as [| n IH]; [done |]. simpl. rewrite IH. unfold blen. by rewrite length_replicate. Qed.

Lemma blen_times n l : blen (times n l) = (Z.of_nat n * blen l)%Z.
Proof. unfold blen. rewrite times_length. lia. Qed.

(** What the subscriber of [floodpubsub] says before the run is a CONNECT, one
    subscription and a PING, in this order: its PONG comes after the subscription
    is registered. *)
Lemma subscriber_hello_parses lim subject sid :
  cmd_ok lim (CmdConnect (connect_json "floodpubsub")) -> cmd_ok lim (CmdSub subject None sid) ->
  feed_into Line (subscriber_hello subject sid) lim [] =
    Some (Ok tt, Line, [], [EvConnect (connect_json "floodpubsub"); EvSubscribe subject None sid; EvPing]).
Proof.
  intros Hc Hs. rewrite subscriber_hello_encode, feed_into_cmds; [done |].
  repeat (apply Forall_cons; split); try done. by eapply ping_ok.
Qed.

(** What parsebench divides by is what it has parsed. *)
Lemma parsebench_counts e :
  let size := Z.to_nat (parse_or (en_size e) 128) in
  let rounds := Z.to_nat (parse_or (en_rounds e) 2000) in
  cmd_ok default_limits (flood_cmd (bs "test") size) ->
  parsebench e = Some (wrap64 (Z.of_nat (rounds * (pb_chunk size (bs "test") (Z.to_nat (2 ^ 16))).2))).
Proof.
  intros size rounds Hok. unfold parsebench. fold size rounds.
  pose proof (fun r => parsebench_counts_frames default_limits (bs "test") size (Z.to_nat (2 ^ 16)) r Hok) as H.
  destruct (pb_chunk size (bs "test") (Z.to_nat (2 ^ 16))) as [wire frames].
  destruct (H 32) as [_ ->]. by destruct (H rounds) as [_ ->].
Qed.

(** A whole run of [floodpub].  On a socket that goes on taking bytes, with legal
    arguments, the program comes to its report: it has written a CONNECT, a PING, the
    number of publishes it was told and a PING, which the server's parser takes for
    exactly that, and the bytes and the frame length it prints are those of the
    flood. *)
Lemma floodpub_session lim e so a ok :
  floodpub_args e = Some a ->
  dial_ok (so_info so) && so_connect so && so_hello so && so_ping so = true ->
  Forall takes (so_writes so) -> gate (so_reads so) [] = Some ok ->
  cmd_ok lim (CmdConnect (connect_json "floodpub")) -> cmd_ok lim (flood_cmd (fa_subject a) (fa_size a)) ->
  let frame := flood_frame (fa_subject a) (fa_size a) in
  fa_msgs a * length frame <= writes (so_writes so) ->
  exists wire,
    floodpub e so =
      (Fe_report (fa_msgs a) (fa_size a) (wrap64 (Z.of_nat (fa_msgs a) * blen frame)) (blen frame)
         (per_chunk (fa_target a) (blen frame)) ok, wire) /\
    feed_into Line wire lim [] =
      Some (Ok tt, Line, [],
            EvConnect (connect_json "floodpub") :: EvPing ::
            replicate (fa_msgs a) (EvPublish (fa_subject a) None 0 (Z.of_nat (fa_size a)) (replicate (fa_size a) "x"%byte) false) ++
            [EvPing]).
Proof.
  intros Ha Hso Hw Hg Hc Hf frame Hn. bool_to_prop.
  destruct (flood_publishes_msgs lim (fa_subject a) (fa_size a) (fa_target a) (fa_msgs a) (so_writes so) Hf Hw Hn) as [Hrun _].
  unfold floodpub. rewrite Ha. fold frame in Hrun |- *.
  repeat match goal with H : ?b = true |- context [negb ?b] => rewrite H end. cbn [negb].
  rewrite Hrun. cbn iota beta. repeat match goal with H : ?b = true |- context [negb ?b] => rewrite H end. cbn [negb].
  rewrite Hg, blen_times. eexists. split; [done |].
  rewrite hello_encode. unfold frame. rewrite (times_encode lim) by done.
  replace ping_text with (encode CmdPing) by done.
  set (cmds := [CmdConnect (connect_json "floodpub"); CmdPing] ++ replicate (fa_msgs a) (flood_cmd (fa_subject a) (fa_size a)) ++ [CmdPing]).
  replace (_ ++ _) with (concat (map encode cmds)).
  - rewrite feed_into_cmds.
    + unfold cmds. by rewrite !map_app, !concat_app, flood_events.
    + apply Forall_app. split; [| apply Forall_app; split; [by apply Forall_replicate |]].
      all: repeat (apply Forall_cons; split); try done; by eapply ping_ok.
  - unfold cmds. rewrite !map_app, !concat_app. cbn [map concat]. by rewrite !app_nil_r, <- !(assoc_L (++)).
Qed.

(** ** Witnesses *)

Definition small_env : Env :=
  mkEnv None None (Some (cs "2")) (Some (cs "3")) None None (Some (cs "40")) None None None None None None None None.

Definition small_args : FloodArgs := mkFloodArgs (cs "127.0.0.1:4222") 2 3 (bs "test") 40.

Definition small_socket : Socket :=
  mkSocket (bs "INFO {}") true true (Err Interrupted :: replicate 40 (Ok 7%Z)) true [Ra_again; Ra_data frame_pong].

Lemma connect_cmd_ok : cmd_ok default_limits (CmdConnect (connect_json "floodpub")).
Proof.
  split; [apply Z.leb_le; reflexivity |]. split; [by eexists _, _ | by apply (bool_decide_unpack _)].
Qed.

Lemma floodpub_session_witness :
  exists wire,
    floodpub small_env small_socket = (Fe_report 2 3 34 17 2 true, wire) /\
    feed_into Line wire default_limits [] =
      Some (Ok tt, Line, [],
            EvConnect (connect_json "floodpub") :: EvPing ::
            replicate 2 (EvPublish (bs "test") None 0 3 (bs "xxx") false) ++ [EvPing]).
Proof.
  apply (floodpub_session default_limits small_env small_socket small_args true).
  - vm_compute. reflexivity.
  - reflexivity.
  - apply Forall_cons_2; [reflexivity |]. apply Forall_replicate. reflexivity.
  - reflexivity.
  - exact connect_cmd_ok.
  - exact flood_cmd_ok.
  - vm_compute. lia.
Defined.
