(* ===== verification/AsyncBench.v ===== *)
(** * The benchmarks on async-nats (crates/bench/src/bin/fanout.rs, pubsub.rs, latency.rs)

    The client library is an interface: what the server knows of a subscription, what
    has arrived on its stream, publishing, and taking the next message.  The
    programs are their tasks on it, and time is an event. *)

From Stdlib Require Import String Strings.Byte.
From stdpp Require Import relations.
From S2P Require Import Prelude Frames Config ConfigFile BenchScan Bench BenchMain.

(** ** The client library *)

(** [an_live]: the subject of a subscription once the server has taken it in;
    [an_inbox]: what has arrived on its stream and was not taken. *)
Class AsyncNats := {
  an_net : Type;
  an_live : an_net -> nat -> option bytes;
  an_inbox : an_net -> nat -> list bytes;
  an_publish : an_net -> bytes -> bytes -> an_net;
  an_next : an_net -> nat -> option (bytes * an_net);
  an_register : an_net -> nat -> bytes -> an_net }.

(** A publish reaches every live subscription of its subject and no other; a stream is
    taken from in order. *)
Class AsyncNatsLaws (A : AsyncNats) : Prop := {
  publish_live n s p h : an_live (an_publish n s p) h = an_live n h;
  publish_inbox n s p h :
    an_inbox (an_publish n s p) h = if decide (an_live n h = Some s) then an_inbox n h ++ [p] else an_inbox n h;
  next_empty n h : an_inbox n h = [] -> an_next n h = None;
  next_first n h p rest : an_inbox n h = p :: rest ->
    exists n', an_next n h = Some (p, n') /\ an_inbox n' h = rest /\
      (forall h', h' <> h -> an_inbox n' h' = an_inbox n h') /\ (forall h', an_live n' h' = an_live n h');
  register_live n h s h' : an_live (an_register n h s) h' = if decide (h = h') then Some s else an_live n h';
  register_inbox n h s h' : an_inbox (an_register n h s) h' = an_inbox n h' }.

(** ** The programs up to their tasks *)

(** A call of the client, which answers or fails; the answer of a request is ignored. *)
Inductive Call := Ca_connect | Ca_subscribe (subj : bytes) | Ca_request (subj : bytes) | Ca_flush.

Fixpoint calls_ok (calls : list Call) (answers : list bool) : bool :=
  match calls, answers with
  | [], _ => true
  | Ca_request _ :: calls, _ :: answers => calls_ok calls answers
  | _ :: calls, ok :: answers => ok && calls_ok calls answers
  | _, [] => false
  end.

(** [fanout]: each subscription is followed by a request on its own connection. *)
Definition fanout_setup (nsubs : nat) : list Call :=
  Ca_connect :: concat (replicate nsubs [Ca_connect; Ca_subscribe (bs "fan"); Ca_request (bs "fan.bARRIER")]) ++ [Ca_flush].

Definition pubsub_setup : list Call := [Ca_connect; Ca_connect; Ca_subscribe (bs "bench"); Ca_flush].

(** How often, how large and how many: [None] is a panic of [param]. *)
Definition fanout_args (e : Env) : option (Z * Z * Z) :=
  msgs ← param (en_msgs e) 100000;
  size ← param (en_size e) 256;
  nsubs ← param (en_subscribers e) 10;
  Some (msgs, size, nsubs).

Definition pubsub_args (e : Env) : option (Z * Z) :=
  msgs ← param (en_msgs e) 1000000;
  size ← param (en_size e) 256;
  Some (msgs, size).

(** [latency]: the echo task, and the requests one after the other; an answer is the
    time it took. *)
Definition echo (reply : option bytes) (payload : bytes) : option (bytes * bytes) := (fun r => (r, payload)) <$> reply.

Fixpoint requests (n : nat) (answers : list (option Z)) : option (list Z * list (option Z)) :=
  match n, answers with
  | O, _ => Some ([], answers)
  | S n, Some t :: answers => '(ts, rest) ← requests n answers; Some (t :: ts, rest)
  | _, _ => None
  end.

Definition latency (scaled : Z -> Z -> Z) (e : Env) (answers : list (option Z)) : option Latency :=
  iters ← param (en_iters e) 20000;
  warmup ← param (en_warmup e) 1000;
  '(_, rest) ← requests (Z.to_nat warmup) answers;
  '(samples, _) ← requests (Z.to_nat iters) rest;
  report_latency scaled samples.

(** ** Publishing and counting *)

Section Counting.

Context `{ANL : AsyncNatsLaws}.

(** The subject, what is sent, and how often. *)
Context (subj payload : bytes) (msgs : nat).

(** The publisher's [for] and [flush], and one count per subscription; a counter whose
    stream ends or stalls panics. *)
Record Fan := mkFan { fn_net : an_net; fn_left : nat; fn_flushed : bool; fn_got : gmap nat nat; fn_panic : bool }.

(** One step; [None] where the task waits or has ended. *)
Definition fan_publish (f : Fan) : option Fan :=
  match fn_left f with
  | S k => Some (mkFan (an_publish (fn_net f) subj payload) k (fn_flushed f) (fn_got f) (fn_panic f))
  | O => if fn_flushed f then None else Some (mkFan (fn_net f) 0 true (fn_got f) (fn_panic f))
  end.

Definition fan_next (f : Fan) (h : nat) : option Fan :=
  i ← fn_got f !! h;
  if msgs <=? i then None
  else
    '(_, n) ← an_next (fn_net f) h;
    Some (mkFan n (fn_left f) (fn_flushed f) (<[h := S i]> (fn_got f)) (fn_panic f)).

(** The [timeout] of a counter runs out, or its stream ends. *)
Definition fan_stall (f : Fan) (h : nat) : option Fan :=
  i ← fn_got f !! h;
  if msgs <=? i then None else Some (mkFan (fn_net f) (fn_left f) (fn_flushed f) (fn_got f) true).

(** All tasks were joined: the report. *)
Definition fan_done (f : Fan) : bool :=
  fn_flushed f && negb (fn_panic f) && bool_decide (map_Forall (fun _ i => i = msgs) (fn_got f)).

Definition fan_delivered (nsubs : nat) : Z := wrap64 (Z.of_nat msgs * Z.of_nat nsubs).

(** Steps: [stalls] says whether the timeouts may run out. *)
Inductive fan_step (stalls : bool) : Fan -> Fan -> Prop :=
| fs_publish f f' : fan_publish f = Some f' -> fan_step stalls f f'
| fs_next f h f' : fan_next f h = Some f' -> fan_step stalls f f'
| fs_stall f h f' : stalls = true -> fan_stall f h = Some f' -> fan_step stalls f f'.

(** The subscriptions are [0 .. nsubs - 1], none has counted anything. *)
Definition fan_start (n : an_net) (nsubs : nat) : Fan :=
  mkFan n msgs false (list_to_map ((fun h => (h, 0)) <$> seq 0 nsubs)) false.

(** The barrier of [fanout]: every subscription answered a request on its own
    connection, so the server knows it. *)
Definition all_live (n : an_net) (nsubs : nat) : Prop :=
  forall h, h < nsubs -> an_live n h = Some subj /\ an_inbox n h = [].

(** ** Lemmas *)

Lemma fan_start_got n nsubs h : fn_got (fan_start n nsubs) !! h = if decide (h < nsubs) then Some 0 else None.
Proof.
  simpl. case_decide as E.
  - apply elem_of_list_to_map_1.
    + rewrite <- list_fmap_compose. change (fst ∘ (fun h : nat => (h, 0))) with (@id nat). rewrite list_fmap_id. apply NoDup_seq.
    + apply list_elem_of_fmap. exists h. split; [done |]. apply elem_of_seq. lia.
  - apply not_elem_of_list_to_map_1. rewrite <- list_fmap_compose. change (fst ∘ (fun h : nat => (h, 0))) with (@id nat).
    rewrite list_fmap_id, elem_of_seq. lia.
Qed.

(** What was published is counted or waits on the stream. *)
Record fan_inv (nsubs : nat) (f : Fan) : Prop := {
  fi_left : fn_left f <= msgs;
  fi_flushed : fn_flushed f = true -> fn_left f = 0;
  fi_dom : forall h, is_Some (fn_got f !! h) <-> h < nsubs;
  fi_live : forall h, h < nsubs -> an_live (fn_net f) h = Some subj;
  fi_count : forall h i, fn_got f !! h = Some i -> i + length (an_inbox (fn_net f) h) = msgs - fn_left f }.

Lemma fan_start_inv n nsubs : all_live n nsubs -> fan_inv nsubs (fan_start n nsubs).
Proof.
  intros Hl. split; simpl; try done.
  - intros h. pose proof (fan_start_got n nsubs h) as E. simpl in E. rewrite E. case_decide as Eh; split; intros Hh; try done; by destruct Hh.
  - intros h Hh. by apply Hl.
  - intros h i. pose proof (fan_start_got n nsubs h) as Hg. simpl in Hg. rewrite Hg. case_decide as E; [| done]. intros [= <-].
    destruct (Hl h E) as [_ ->]. simpl. lia.
Qed.

Lemma fan_step_inv stalls nsubs f f' : fan_inv nsubs f -> fan_step stalls f f' -> fan_inv nsubs f'.
Proof.
  intros [H1 H2 H3 H4 H5] Hs. destruct Hs as [f f' Hp | f h f' Hn | f h f' _ Hst].
  - unfold fan_publish in Hp. destruct (fn_left f) as [| k] eqn:El.
    + destruct (fn_flushed f); simplify_eq. split; simpl; try done.
    + simplify_eq. split; simpl; try done; [lia | intros Hf; specialize (H2 Hf); lia | |].
      * intros h Hh. rewrite publish_live. auto.
      * intros h i Hi. rewrite publish_inbox, decide_True by (apply H4, H3; eauto).
        rewrite length_app. simpl. pose proof (H5 h i Hi). lia.
  - unfold fan_next in Hn. destruct (fn_got f !! h) as [i |] eqn:Ei; simpl in Hn; [| done].
    destruct (msgs <=? i); [done |]. destruct (an_inbox (fn_net f) h) as [| p rest] eqn:Eb.
    { by rewrite (next_empty _ _ Eb) in Hn. }
    destruct (next_first _ _ _ _ Eb) as (n' & En & Hin & Hother & Hlive). rewrite En in Hn. simpl in Hn. simplify_eq.
    split; simpl; try done.
    + intros h'. rewrite lookup_insert_is_Some, H3. destruct (decide (h = h')) as [<- | ?]; [| tauto].
      assert (h < nsubs) by (apply H3; eauto). tauto.
    + intros h' Hh. rewrite Hlive. auto.
    + intros h' j [[<- <-] | [Hne Hj]]%lookup_insert_Some.
      * pose proof (H5 h i Ei) as H. rewrite Eb in H. simpl in H. lia.
      * rewrite Hother by done. by apply H5.
  - unfold fan_stall in Hst. destruct (fn_got f !! h); simpl in Hst; [| done]. destruct (msgs <=? _); by simplify_eq.
Qed.

Lemma fan_reach_inv stalls nsubs f f' : fan_inv nsubs f -> rtc (fan_step stalls) f f' -> fan_inv nsubs f'.
Proof. intros H Hr. induction Hr; eauto using fan_step_inv. Qed.

(** Unless a timeout runs out, the tasks never get stuck and come to an end. *)
Definition fan_rank (f : Fan) : nat :=
  fn_left f + (if fn_flushed f then 0 else 1) + map_fold (fun _ i n => (msgs - i) + n) 0 (fn_got f).

Lemma fold_insert_got (m : gmap nat nat) h i :
  m !! h = Some i -> i < msgs ->
  map_fold (fun _ i n => (msgs - i) + n) 0 (<[h := S i]> m) < map_fold (fun _ i n => (msgs - i) + n) 0 m.
Proof.
  intros Hi Hlt. rewrite <- (insert_delete_id m h i Hi) at 2. rewrite <- insert_delete_eq.
  rewrite !map_fold_insert_L by (intros; lia || apply lookup_delete_eq). lia.
Qed.

Lemma fan_rank_step f f' : fan_step false f f' -> fan_rank f' < fan_rank f.
Proof.
  intros Hs. destruct Hs as [f f' Hp | f h f' Hn | f h f' Hf _]; [| | done].
  - unfold fan_publish in Hp. unfold fan_rank. destruct (fn_left f) eqn:El.
    + destruct (fn_flushed f); simplify_eq; simpl; lia.
    + simplify_eq. simpl. lia.
  - unfold fan_next in Hn. destruct (fn_got f !! h) as [i |] eqn:Ei; simpl in Hn; [| done].
    destruct (msgs <=? i) eqn:El; [done |]. destruct (an_next (fn_net f) h) as [[p n] |]; simpl in Hn; simplify_eq.
    unfold fan_rank. simpl. apply Nat.leb_gt in El. pose proof (fold_insert_got (fn_got f) h i Ei El). lia.
Qed.

Lemma fan_step_panic f f' : fan_step false f f' -> fn_panic f' = fn_panic f.
Proof.
  intros Hs. destruct Hs as [f f' Hp | f h f' Hn | f h f' Hf _]; [| | done].
  - unfold fan_publish in Hp. destruct (fn_left f); [destruct (fn_flushed f) |]; by simplify_eq.
  - unfold fan_next in Hn. destruct (fn_got f !! h) as [i |]; simpl in Hn; [| done].
    destruct (msgs <=? i); [done |]. destruct (an_next (fn_net f) h) as [[p n] |]; simpl in Hn; by simplify_eq.
Qed.

Lemma fan_progress nsubs f :
  fan_inv nsubs f -> fn_panic f = false -> fan_done f = false -> exists f', fan_step false f f'.
Proof.
  intros [H1 H2 H3 H4 H5] Hp Hd. destruct (fan_publish f) as [f' |] eqn:Ef; [exists f'; by apply fs_publish |].
  assert (Hl : fn_left f = 0 /\ fn_flushed f = true).
  { unfold fan_publish in Ef. destruct (fn_left f); [| done]. by destruct (fn_flushed f). }
  destruct Hl as [Hl Hf]. unfold fan_done in Hd. rewrite Hf, Hp in Hd. simpl in Hd.
  apply bool_decide_eq_false in Hd.
  apply map_not_Forall in Hd as (h & i & Hi & Hne); [| intros; apply _].
  assert (Hlt : i < msgs) by (pose proof (H5 h i Hi); lia).
  destruct (an_inbox (fn_net f) h) as [| p rest] eqn:Eb; [pose proof (H5 h i Hi) as H; rewrite Eb in H; simpl in H; lia |].
  destruct (next_first _ _ _ _ Eb) as (n' & En & _). eexists. apply (fs_next false f h).
  unfold fan_next. rewrite Hi. simpl. rewrite (proj2 (Nat.leb_gt msgs i) Hlt), En. done.
Qed.

(** What the fan-out benchmark reports was delivered.  Once its barrier has
    made every subscription known to the server, and whatever the order in which
    publisher and counters run: when the tasks are joined, every subscription has
    taken exactly [msgs] messages and nothing is left on its stream, so the printed
    total is the number of deliveries; and as long as no stream stalls or ends, the
    run goes on and ends there. *)
Lemma fanout_counts_deliveries n nsubs f :
  all_live n nsubs -> rtc (fan_step true) (fan_start n nsubs) f ->
  (fan_done f = true ->
     fn_left f = 0 /\ forall h, h < nsubs -> fn_got f !! h = Some msgs /\ an_inbox (fn_net f) h = []) /\
  (fn_panic f = false ->
     exists f', rtc (fan_step false) f f' /\ fan_done f' = true).
Proof.
  intros Hl Hr. pose proof (fan_reach_inv true nsubs _ f (fan_start_inv n nsubs Hl) Hr) as Hinv. clear Hr. split.
  - intros Hd. pose proof Hinv as [H1 H2 H3 H4 H5]. unfold fan_done in Hd. bool_to_prop.
    assert (E0 : fn_left f = 0) by auto. split; [done |]. intros h Hh.
    destruct (proj2 (H3 h) Hh) as [i Hi]. assert (i = msgs) as -> by (by apply (H0 h)). split; [done |].
    pose proof (H5 h msgs Hi) as Hc. rewrite E0 in Hc. destruct (an_inbox (fn_net f) h); [done |]. simpl in Hc. lia.
  - remember (fan_rank f) as r eqn:Er. revert f Hinv Er.
    induction r as [r IH] using lt_wf_ind. intros f Hinv -> Hp.
    destruct (fan_done f) eqn:Ed; [exists f; split; [apply rtc_refl | done] |].
    destruct (fan_progress nsubs f Hinv Hp Ed) as [f1 Hs].
    destruct (IH (fan_rank f1) (fan_rank_step f f1 Hs) f1) as (f2 & Hr & Hd); [by eapply fan_step_inv | done | |].
    + by rewrite (fan_step_panic f f1 Hs).
    + exists f2. split; [by eapply rtc_l | done].
Qed.


(** ** pubsub: one subscription, no barrier and no timeout *)

(** The server takes the subscription in at some point. *)
Inductive ps_step : Fan -> Fan -> Prop :=
| pst_task f f' : fan_step false f f' -> ps_step f f'
| pst_register f : an_live (fn_net f) 0 = None ->
    ps_step f (mkFan (an_register (fn_net f) 0 subj) (fn_left f) (fn_flushed f) (fn_got f) (fn_panic f)).

(** A message was published before the subscription was known. *)
Definition missed (f : Fan) : Prop :=
  exists i, fn_got f !! 0 = Some i /\ i + length (an_inbox (fn_net f) 0) + fn_left f < msgs.

Lemma missed_step f f' : missed f -> ps_step f f' -> missed f'.
Proof.
  intros (i & Hi & Hlt) Hs. destruct Hs as [f f' Hs | f Hl].
  - destruct Hs as [f f' Hp | f h f' Hn | f h f' Hf _]; [| | done].
    + unfold fan_publish in Hp. destruct (fn_left f) as [| k] eqn:El.
      * destruct (fn_flushed f); simplify_eq. exists i. simpl. split; [done | lia].
      * simplify_eq. exists i. simpl. split; [done |]. rewrite publish_inbox. case_decide; rewrite ?length_app; simpl; lia.
    + unfold fan_next in Hn. destruct (fn_got f !! h) as [j |] eqn:Ej; simpl in Hn; [| done].
      destruct (msgs <=? j); [done |]. destruct (an_inbox (fn_net f) h) as [| p rest] eqn:Eb.
      { by rewrite (next_empty _ _ Eb) in Hn. }
      destruct (next_first _ _ _ _ Eb) as (n' & En & Hin & Hother & _). rewrite En in Hn. simpl in Hn. simplify_eq.
      unfold missed. simpl. destruct (decide (h = 0)) as [-> | Hne].
      * rewrite Ej in Hi. simplify_eq. exists (S i). rewrite lookup_insert_eq. split; [done |]. rewrite Eb in Hlt. simpl in Hlt. lia.
      * exists i. rewrite lookup_insert_ne, Hother by done. done.
  - exists i. simpl. by rewrite register_inbox.
Qed.

(** [pubsub] flushes its SUB and does not wait for the server to take it in.  If a
    message is published before it is known, the run never ends: the counter waits
    for a message that will not come, without a timeout. *)
Lemma pubsub_waits_forever n f f' :
  an_live n 0 = None -> an_inbox n 0 = [] -> 0 < msgs ->
  fan_publish (fan_start n 1) = Some f -> rtc ps_step f f' -> fan_done f' = false.
Proof.
  intros Hl Hb Hm Hp Hr.
  assert (Hmiss : missed f').
  { assert (H0 : missed f).
    { unfold fan_publish in Hp. simpl in Hp. destruct msgs as [| k] eqn:E; [lia |]. simplify_eq. exists 0. simpl.
      split; [apply lookup_insert_eq |]. rewrite publish_inbox, decide_False by congruence. rewrite Hb. simpl. lia. }
    clear Hp. induction Hr; eauto using missed_step. }
  destruct Hmiss as (i & Hi & Hlt). unfold fan_done. apply not_true_iff_false. intros H. bool_to_prop.
  apply H0 in Hi. lia.
Qed.

End Counting.

(** ** Latency *)

Lemma requests_all n ts rest : length ts = n -> requests n ((Some <$> ts) ++ rest) = Some (ts, rest).
Proof.
  intros <-. induction ts as [| t ts IH]; [done |].
  change (requests (length (t :: ts)) ((Some <$> t :: ts) ++ rest))
    with ('(ts', r) ← requests (length ts) ((Some <$> ts) ++ rest); Some (t :: ts', r)). by rewrite IH.
Qed.

(** The warm-up is not among the samples: when every request is answered, the report
    is on exactly the [iters] ones after it. *)
Lemma latency_reports_iters scaled e warmup iters (ws ts : list Z) rest :
  param (en_warmup e) 1000 = Some warmup -> param (en_iters e) 20000 = Some iters ->
  length ws = Z.to_nat warmup -> length ts = Z.to_nat iters ->
  latency scaled e ((Some <$> ws) ++ (Some <$> ts) ++ rest) = report_latency scaled ts.
Proof.
  intros Hw Hi Hlw Hlt. unfold latency. rewrite Hi, Hw. simpl.
  rewrite (requests_all (Z.to_nat warmup) ws) by done. simpl.
  by rewrite (requests_all (Z.to_nat iters) ts).
Qed.

(** ** A concrete client *)

(** Subscriptions with their subjects, once known, and their streams. *)
Definition direct_at (n : gmap nat (option bytes * list bytes)) (h : nat) : option bytes * list bytes :=
  default (None, []) (n !! h).

#[global] Instance direct_nats : AsyncNats := {|
  an_net := gmap nat (option bytes * list bytes);
  an_live n h := (direct_at n h).1;
  an_inbox n h := (direct_at n h).2;
  an_publish n s p := (fun lb => (lb.1, if decide (lb.1 = Some s) then lb.2 ++ [p] else lb.2)) <$> n;
  an_next n h :=
    match (direct_at n h).2 with [] => None | p :: rest => Some (p, <[h := ((direct_at n h).1, rest)]> n) end;
  an_register n h s := <[h := (Some s, (direct_at n h).2)]> n |}.

Lemma direct_at_insert n h x h' : direct_at (<[h := x]> n) h' = if decide (h = h') then x else direct_at n h'.
Proof.
  unfold direct_at. case_decide as E; [subst; by rewrite lookup_insert_eq | by rewrite lookup_insert_ne].
Qed.

#[global] Instance direct_nats_laws : AsyncNatsLaws direct_nats.
Proof.
  split; simpl.
  - intros n s p h. unfold direct_at. rewrite lookup_fmap. by destruct (n !! h).
  - intros n s p h. unfold direct_at. rewrite lookup_fmap. by destruct (n !! h).
  - by intros n h ->.
  - intros n h p rest E. rewrite E. eexists. split; [done |]. rewrite direct_at_insert, decide_True by done.
    split; [done |]. split; intros h'; rewrite direct_at_insert; [intros Hne; by rewrite decide_False |].
    by case_decide; [subst |].
  - intros n h s h'. rewrite direct_at_insert. by case_decide.
  - intros n h s h'. rewrite direct_at_insert. by case_decide; [subst |].
Qed.

(** ** Witnesses *)

Definition two_live : @an_net direct_nats :=
  ({[0 := (Some (bs "fan"), []); 1 := (Some (bs "fan"), [])]} : gmap nat (option bytes * list bytes)).

(** One publish, taken by the first counter. *)
Definition mid_run : Fan :=
  default (fan_start 2 two_live 2)
    (f ← fan_publish (bs "fan") (bs "x") (fan_start 2 two_live 2); fan_next 2 f 0).

Lemma fanout_counts_deliveries_witness :
  (fan_done 2 mid_run = true ->
     fn_left mid_run = 0 /\ forall h, h < 2 -> fn_got mid_run !! h = Some 2 /\ an_inbox (fn_net mid_run) h = []) /\
  (fn_panic mid_run = false ->
     exists f', rtc (fan_step (bs "fan") (bs "x") 2 false) mid_run f' /\ fan_done 2 f' = true).
Proof.
  apply (fanout_counts_deliveries (bs "fan") (bs "x") 2 two_live 2 mid_run).
  - intros h Hh. destruct h as [| [| h]]; [by vm_compute | by vm_compute | lia].
  - eapply rtc_l; [apply fs_publish; reflexivity |]. eapply rtc_l; [apply (fs_next _ _ _ _ _ 0); vm_compute; reflexivity |].
    apply rtc_refl.
Defined.
