(* ===== verification/Driver.v ===== *)
(** * The driver of the publish/subscribe benchmark (crates/bench/src/bin/floodpubsub.rs)

    [main] starts a subscriber and a publisher thread and coordinates them through
    four flags and a counter.  The three threads are steps on those atomics: one pass
    of a loop is one step, and a clock is a choice of the environment.  What the
    subscriber does with the bytes it reads is in BenchScan.v, what the publisher
    writes in Bench.v; here a read counts one delivery, fails, or finds nothing. *)

From stdpp Require Import relations.
From S2P Require Import Prelude.

Section Driver.

(** [MSGS]. *)
Variable msgs : Z.

(** ** Definitions *)

(** [subscriber]: its handshake, the wait for [go], the read loop, and how it returned
    ([false] is an error). *)
Inductive SubThread := St_dialing | St_waiting | St_reading | St_returned (ok : bool).

(** [publisher]: its handshake, the two waits, the writing, and what it returned. *)
Inductive PubThread := Pt_dialing | Pt_wait_sub | Pt_wait_go | Pt_writing | Pt_returned (written : option Z).

(** How [main] ends: with the count it reports, or with an error. *)
Inductive DriverEnd := De_reported (got : Z) | De_never_subscribed | De_died_subscribing | De_publisher | De_went_away (got : Z).

Inductive Driver := Dv_wait | Dv_publishing | Dv_quiesce (last : Z) | Dv_join (got : Z) | Dv_ended (r : DriverEnd).

Record Flood := mkFlood {
  fl_subscribed : bool; fl_go : bool; fl_failed : bool; fl_done : bool; fl_delivered : Z;
  fl_sub : SubThread; fl_pub : PubThread; fl_drv : Driver }.

Definition flood_init : Flood := mkFlood false false false false 0 St_dialing Pt_dialing Dv_wait.

Definition with_sub (s : Flood) (t : SubThread) : Flood :=
  mkFlood (fl_subscribed s) (fl_go s) (fl_failed s) (fl_done s) (fl_delivered s) t (fl_pub s) (fl_drv s).
Definition with_pub (s : Flood) (t : PubThread) : Flood :=
  mkFlood (fl_subscribed s) (fl_go s) (fl_failed s) (fl_done s) (fl_delivered s) (fl_sub s) t (fl_drv s).
Definition with_drv (s : Flood) (d : Driver) : Flood :=
  mkFlood (fl_subscribed s) (fl_go s) (fl_failed s) (fl_done s) (fl_delivered s) (fl_sub s) (fl_pub s) d.

(** What happens to the subscriber: its handshake, a read that brings a delivery, the
    end of the stream or an [-ERR], a read that times out, or an error it returns. *)
Inductive SubEvent := Se_shook | Se_message | Se_eof | Se_timeout | Se_error.

Definition sub_step (s : Flood) (e : SubEvent) : option Flood :=
  match fl_sub s, e with
  | St_dialing, Se_shook =>
      Some (mkFlood true (fl_go s) (fl_failed s) (fl_done s) (fl_delivered s) St_waiting (fl_pub s) (fl_drv s))
  | St_dialing, Se_error => Some (with_sub s (St_returned false))
  | St_waiting, _ => if fl_go s then Some (with_sub s St_reading) else None
  | St_reading, Se_message =>
      let n := wrap64 (fl_delivered s + 1) in
      Some (mkFlood (fl_subscribed s) (fl_go s) (fl_failed s) (fl_done s) n
              (if (msgs <=? n)%Z then St_returned true else St_reading) (fl_pub s) (fl_drv s))
  | St_reading, Se_eof =>
      Some (mkFlood (fl_subscribed s) (fl_go s) true (fl_done s) (fl_delivered s) (St_returned true) (fl_pub s) (fl_drv s))
  | St_reading, Se_timeout => Some (if fl_done s then with_sub s (St_returned true) else s)
  | St_reading, Se_error => Some (with_sub s (St_returned false))
  | _, _ => None
  end.

(** The publisher goes on, or returns an error. *)
Definition pub_step (s : Flood) (ok : bool) : option Flood :=
  match fl_pub s with
  | Pt_dialing => Some (with_pub s (if ok then Pt_wait_sub else Pt_returned None))
  | Pt_wait_sub => if fl_subscribed s then Some (with_pub s Pt_wait_go) else None
  | Pt_wait_go => if fl_go s then Some (with_pub s Pt_writing) else None
  | Pt_writing => Some (with_pub s (Pt_returned (if ok then Some msgs else None)))
  | Pt_returned _ => None
  end.

Definition set_go (s : Flood) (d : Driver) : Flood :=
  mkFlood (fl_subscribed s) true (fl_failed s) (fl_done s) (fl_delivered s) (fl_sub s) (fl_pub s) d.

(** Behind the last loop: [got] is read and [done] set. *)
Definition set_done (s : Flood) : Flood :=
  mkFlood (fl_subscribed s) (fl_go s) (fl_failed s) true (fl_delivered s) (fl_sub s) (fl_pub s) (Dv_join (fl_delivered s)).

Definition sub_finished (s : Flood) : bool := match fl_sub s with St_returned _ => true | _ => false end.

(** A pass of the driver; [late] is the twenty seconds of the first loop, [quiet] and
    [stalled] are the two clocks of the last. *)
Definition driver_step (s : Flood) (late quiet stalled : bool) : option Flood :=
  match fl_drv s with
  | Dv_wait =>
      Some (if fl_subscribed s then set_go s Dv_publishing
            else if late then with_drv s (Dv_ended De_never_subscribed)
            else if fl_failed s then with_drv s (Dv_ended De_died_subscribing)
            else if sub_finished s then set_go s Dv_publishing
            else s)
  | Dv_publishing =>
      match fl_pub s with
      | Pt_returned (Some written) =>
          Some (with_drv s (if (written =? msgs)%Z then Dv_quiesce (fl_delivered s) else Dv_ended De_publisher))
      | Pt_returned None => Some (with_drv s (Dv_ended De_publisher))
      | _ => Some s
      end
  | Dv_quiesce last =>
      Some (if (fl_delivered s <? msgs)%Z then
              if fl_failed s then set_done s
              else if (fl_delivered s =? last)%Z && quiet then set_done s
              else if stalled then set_done s
              else with_drv s (Dv_quiesce (fl_delivered s))
            else set_done s)
  | Dv_join got =>
      if sub_finished s
      then Some (with_drv s (Dv_ended (if fl_failed s then De_went_away got else De_reported got)))
      else None
  | Dv_ended _ => None
  end.

(** The threads, in any order; [main] that has ended takes the others with it. *)
Inductive flood_step : Flood -> Flood -> Prop :=
| fl_sub_step s e s' : (forall r, fl_drv s <> Dv_ended r) -> sub_step s e = Some s' -> flood_step s s'
| fl_pub_step s ok s' : (forall r, fl_drv s <> Dv_ended r) -> pub_step s ok = Some s' -> flood_step s s'
| fl_drv_step s late quiet stalled s' : driver_step s late quiet stalled = Some s' -> flood_step s s'.

(** ** The invariant *)

(** Past the publisher's join every message was written; the count the driver took is
    not ahead of the subscriber's; a subscriber that returned without an error and
    without failing had its number or was told to stop. *)
Definition drv_ok (s : Flood) : Prop :=
  match fl_drv s with
  | Dv_wait | Dv_publishing => True
  | Dv_quiesce _ => fl_pub s = Pt_returned (Some msgs)
  | Dv_join got => fl_pub s = Pt_returned (Some msgs) /\ (0 <= got <= fl_delivered s)%Z /\ fl_done s = true
  | Dv_ended (De_reported got) =>
      fl_pub s = Pt_returned (Some msgs) /\ (0 <= got <= fl_delivered s)%Z /\ fl_failed s = false /\ sub_finished s = true
  | Dv_ended _ => True
  end.

Definition sub_ok (s : Flood) : Prop :=
  match fl_sub s with
  | St_dialing | St_waiting | St_reading => (0 <= fl_delivered s < msgs)%Z /\ fl_failed s = false
  | St_returned ok =>
      (0 <= fl_delivered s <= msgs)%Z /\
      (ok = true -> fl_failed s = false -> fl_delivered s = msgs \/ fl_done s = true)
  end.

Definition flood_ok (s : Flood) : Prop := sub_ok s /\ drv_ok s.

Hypothesis msgs_u64 : (0 < msgs < u64_modulus)%Z.

Lemma sub_step_ok s e s' :
  (forall r, fl_drv s <> Dv_ended r) -> sub_step s e = Some s' -> flood_ok s -> flood_ok s'.
Proof.
  intros Hrun H [Hs Hd]. unfold sub_step, flood_ok, sub_ok, drv_ok, sub_finished in *.
  destruct (fl_drv s) eqn:Ed; [.. | by destruct (Hrun r)];
    (destruct (fl_sub s) eqn:Es, e; try done;
     try (destruct (fl_go s); [| done]); try (destruct (fl_done s) eqn:Ef); simplify_eq; simpl;
     rewrite ?Ed, ?Es, ?Ef; try (split_and!; by (tauto || naive_solver lia))).
  all: rewrite (wrap64_small (fl_delivered s + 1)) by (unfold in_u64; lia);
    destruct (msgs <=? fl_delivered s + 1)%Z eqn:El; bool_to_prop; split_and!; naive_solver lia.
Qed.

Lemma pub_step_ok s ok s' :
  (forall r, fl_drv s <> Dv_ended r) -> pub_step s ok = Some s' -> flood_ok s -> flood_ok s'.
Proof.
  intros Hrun H [Hs Hd]. unfold pub_step in H. split; [by repeat case_match; simplify_eq |].
  unfold drv_ok, sub_finished in *. destruct (fl_drv s) eqn:Ed; [.. | by destruct (Hrun r)];
    repeat case_match; simplify_eq; simpl in *; intuition congruence.
Qed.

Lemma driver_step_ok s late quiet stalled s' :
  driver_step s late quiet stalled = Some s' -> flood_ok s -> flood_ok s'.
Proof.
  intros H [Hs Hd]. assert (H0 : (0 <= fl_delivered s)%Z) by (unfold sub_ok in Hs; destruct (fl_sub s); lia).
  unfold driver_step in H. split.
  - assert (Hsame : fl_sub s' = fl_sub s /\ fl_delivered s' = fl_delivered s /\ fl_failed s' = fl_failed s /\
      (fl_done s = true -> fl_done s' = true)) by (repeat case_match; by simplify_eq).
    destruct Hsame as (E1 & E2 & E3 & E4). unfold sub_ok in *. rewrite E1, E2, E3.
    destruct (fl_sub s); [done.. |]. destruct Hs as [? Hret]. split; [done |]. intros Ho Hf. destruct (Hret Ho Hf); auto.
  - unfold drv_ok in *. destruct (fl_drv s) as [| | last | got | r] eqn:Ed; [| | | | done].
    + destruct (fl_subscribed s), late, (fl_failed s), (sub_finished s); simplify_eq; simpl; by rewrite ?Ed.
    + destruct (fl_pub s) as [| | | | [written |]] eqn:Ep; simplify_eq; simpl; rewrite ?Ed, ?Ep; try done.
      destruct (written =? msgs)%Z eqn:Ew; [| done]. bool_to_prop. by subst.
    + destruct (fl_delivered s <? msgs)%Z, (fl_failed s), (fl_delivered s =? last)%Z, quiet, stalled; simplify_eq; simpl; repeat split; (done || lia).
    + destruct (sub_finished s) eqn:Es; [| done]. destruct (fl_failed s) eqn:Ef; simplify_eq; simpl; [done |].
      destruct Hd as (? & ? & _). split_and!; [done | lia | lia | done | exact Es].
Qed.

Lemma flood_reachable_ok s : rtc (flood_step) flood_init s -> flood_ok s.
Proof.
  apply (rtc_ind_r flood_ok); [split; [unfold sub_ok; simpl; split; [lia | done] | done] |].
  intros s1 s2 _ [x e y Hr H | x ok y Hr H | x a b c y H]; [by eapply sub_step_ok | by eapply pub_step_ok |].
  by eapply driver_step_ok.
Qed.

(** ** Results *)

(** What the benchmark reports was delivered: its count is not above the deliveries the
    subscriber counted, nor they above what was published, the publisher wrote all of
    it, no failure was flagged, and a subscriber that returned well had all or was told
    to stop. *)
Lemma reported_was_delivered s got :
  rtc (flood_step) flood_init s -> fl_drv s = Dv_ended (De_reported got) ->
  (0 <= got <= fl_delivered s)%Z /\ (fl_delivered s <= msgs)%Z /\ fl_pub s = Pt_returned (Some msgs) /\
  fl_failed s = false /\ (fl_sub s = St_returned true -> fl_delivered s = msgs \/ fl_done s = true).
Proof.
  intros [Hs Hd]%flood_reachable_ok E. unfold drv_ok in Hd. rewrite E in Hd. destruct Hd as (H1 & H2 & H3 & _).
  unfold sub_ok in Hs. split_and!; [lia | lia | | done | done |].
  - destruct (fl_sub s); lia.
  - intros Hr. rewrite Hr in Hs. by apply Hs.
Qed.

(** A subscriber that returns before it has subscribed hangs the benchmark.  The driver
    notices that the thread has ended and goes on, but the publisher waits for
    [subscribed], which nobody will set, and the driver waits for the publisher: the
    state never changes again. *)
Lemma lost_subscriber_hangs s s' ok :
  fl_sub s = St_returned ok -> fl_subscribed s = false -> fl_pub s = Pt_wait_sub -> fl_drv s = Dv_publishing ->
  rtc (flood_step) s s' -> s' = s.
Proof.
  intros H1 H2 H3 H4. apply (rtc_ind_r (fun s' => s' = s)); [done |].
  intros s1 s2 _ Hstep ->. inversion Hstep as [x e y _ H | x b y _ H | x l q st y H]; subst.
  - unfold sub_step in H. by rewrite H1 in H.
  - unfold pub_step in H. by rewrite H3, H2 in H.
  - unfold driver_step in H. rewrite H4, H3 in H. by simplify_eq.
Qed.

(** Such a state is reached: the subscriber's handshake fails, the publisher's does not. *)
Lemma lost_subscriber_reached : exists s,
  rtc (flood_step) flood_init s /\ fl_sub s = St_returned false /\ fl_subscribed s = false /\
  fl_pub s = Pt_wait_sub /\ fl_drv s = Dv_publishing.
Proof.
  eexists. split.
  - eapply rtc_l; [by eapply (fl_sub_step flood_init Se_error) |].
    eapply rtc_l; [by eapply (fl_pub_step _ true) |].
    eapply rtc_l; [by eapply (fl_drv_step _ false false false) |]. apply rtc_refl.
  - by split_and!.
Qed.

(** A subscriber that returns an error during the run (a reset connection) does not set
    [failed], and the benchmark reports the short count as a good run. *)
Lemma subscriber_error_reported s :
  fl_sub s = St_reading -> fl_failed s = false -> fl_drv s = Dv_quiesce (fl_delivered s) ->
  (fl_delivered s < msgs)%Z ->
  exists s', rtc (flood_step) s s' /\ fl_sub s' = St_returned false /\
    fl_drv s' = Dv_ended (De_reported (fl_delivered s)).
Proof.
  intros H1 H2 H3 H4. destruct s as [sb go fa dn n st pb dv]. simpl in *. subst.
  assert (Hlt : (n <? msgs)%Z = true) by lia.
  eexists. split.
  - eapply rtc_l; [by eapply (fl_sub_step _ Se_error) |].
    eapply rtc_l; [eapply (fl_drv_step _ false true false); unfold driver_step; simpl; by rewrite Hlt, Z.eqb_refl |].
    eapply rtc_l; [by eapply (fl_drv_step _ false false false) |]. apply rtc_refl.
  - by split.
Qed.

End Driver.
