(* ===== verification/Process.v ===== *)
(** * The process shell (crates/server/src/main.rs)

    From the command line to the exit code: what the process says, the listener, the
    ports file, and the signal that ends it.  What the system answers (files, the
    listener, signal handlers) is a parameter; what the process does is the list of
    its actions, in order. *)

From Stdlib Require Import String Strings.Byte.
From S2P Require Import Prelude Decimal Config ConfigFile Net.

(** ** Definitions *)

Definition PROGRAM : str := cs "nats-server-rs".

(** A bound address: the text of its IP address, and its port. *)
Record SockAddr := mkSockAddr { sa_ip : str; sa_port : Z }.

Record ProcEnv := mkProcEnv {
  pe_argv : list str;
  pe_version : str;
  (** [read_to_string] *)
  pe_read : str -> option str;
  (** parsing, binding and listening on an address text *)
  pe_listen : str -> option SockAddr;
  (** [current_exe]'s file stem, [process::id] *)
  pe_exe : option str;
  pe_pid : Z;
  (** whether [fs::write] succeeds; how much of the file a failed one leaves behind,
      if it could make the file at all; whether the signal handlers succeed *)
  pe_write_ok : str -> bool;
  pe_write_left : str -> option nat;
  pe_signals_ok : bool }.

(** Why the process gives up. *)
Inductive ProcError :=
| PE_args (text : str)
| PE_read (path : str)
| PE_config (e : ConfigError)
| PE_validate (text : str)
| PE_listen (host : str) (port : Z)
| PE_write (path : str)
| PE_signal.

Inductive PAct :=
| P_error (e : ProcError)
| P_warning (w : str)
| P_usage
| P_print (text : str)
| P_listen (text : str) (addr : SockAddr)
| P_write (path body : str)
| P_write_failed (path : str) (left : option str)
| P_note (addr : SockAddr)
| P_wait_signal
| P_remove (path : str).

(** [Path::join] with a relative file name. *)
Definition path_join (dir name : str) : str :=
  match last dir with
  | None => name
  | Some 47%Z => dir ++ name
  | Some _ => dir ++ [47%Z] ++ name
  end.

Definition ports_body (addr : SockAddr) : str :=
  [123; 34]%Z ++ cs "nats" ++ [34; 58; 91; 34]%Z ++ (cs "nats://" ++ sa_ip addr ++ [58%Z] ++ show (sa_port addr)) ++
  [34; 93; 125]%Z.

Definition ports_name (env : ProcEnv) : str :=
  default PROGRAM (pe_exe env) ++ cs "_" ++ show (pe_pid env) ++ cs ".ports".

(** [write_ports_file]: what it does, and the path it returns or the error. *)
Definition write_ports_file (env : ProcEnv) (cfg : Config) (addr : SockAddr) : list PAct * result (option str) ProcError :=
  match cfg_ports_file_dir cfg with
  | None => ([], Ok None)
  | Some dir =>
      let path := path_join dir (ports_name env) in
      if pe_write_ok env path then ([P_write path (ports_body addr)], Ok (Some path))
      else ([P_write_failed path ((fun n => take n (ports_body addr)) <$> pe_write_left env path)], Err (PE_write path))
  end.

Definition remove_ports_file (path : option str) : list PAct := from_option (fun p => [P_remove p]) [] path.

(** The configuration a run works with, and the warnings on the way to it. *)
Definition load_config (env : ProcEnv) (args : CmdArgs) : list PAct * result Config ProcError :=
  let check ws cfg :=
    let cfg := apply_flags cfg args in
    match validate cfg with Ok _ => (ws, Ok cfg) | Err e => (ws, Err (PE_validate e)) end in
  match a_config_file args with
  | None => check [] config_default
  | Some path =>
      match pe_read env path with
      | None => ([], Err (PE_read path))
      | Some text =>
          match parse_config text with
          | Err e => ([], Err (PE_config e))
          | Ok (cfg, ws) => check (map P_warning ws) cfg
          end
      end
  end.

(** [run] past the configuration: bind, write the ports file, wait, remove it.  The
    result is what was done, and the exit code or the error. *)
Definition serve_until_signal (env : ProcEnv) (cfg : Config) : list PAct * result Z ProcError :=
  match pe_listen env (bind_text cfg) with
  | None => ([], Err (PE_listen (cfg_host cfg) (bind_port cfg)))
  | Some addr =>
      let '(wrote, r) := write_ports_file env cfg addr in
      let acts := P_listen (bind_text cfg) addr :: wrote in
      match r with
      | Err e => (acts, Err e)
      | Ok path =>
          let acts := acts ++ (if cfg_debug cfg then [P_note addr] else []) in
          if pe_signals_ok env then (acts ++ [P_wait_signal] ++ remove_ports_file path, Ok 0%Z)
          else (acts, Err PE_signal)
      end
  end.

Definition run_process (env : ProcEnv) : list PAct * result Z ProcError :=
  match parse_args (pe_argv env) PROGRAM with
  | Err e => ([P_error (PE_args e); P_usage], Ok 1%Z)
  | Ok args =>
      if a_version args then ([P_print (PROGRAM ++ cs ": v" ++ pe_version env)], Ok 0%Z)
      else if a_help args then ([P_usage], Ok 0%Z)
      else
        let '(ws, r) := load_config env args in
        match r with
        | Err e => (ws, Err e)
        | Ok cfg =>
            if a_test_config args then (ws ++ [P_print (cs "configuration OK")], Ok 0%Z)
            else let '(acts, r) := serve_until_signal env cfg in (ws ++ acts, r)
        end
  end.

(** [main]: the actions and the exit code. *)
Definition main (env : ProcEnv) : list PAct * Z :=
  match run_process env with
  | (acts, Ok code) => (acts, code)
  | (acts, Err e) => (acts ++ [P_error e], 1%Z)
  end.

(** ** Lemmas *)

Definition is_warning (a : PAct) : Prop := exists w, a = P_warning w.

Lemma load_config_warnings env args ws r : load_config env args = (ws, r) -> Forall is_warning ws.
Proof.
  assert (Hw : forall l, Forall is_warning (map P_warning l)) by (induction l; simpl; constructor; [by eexists | done]).
  unfold load_config. intros H. repeat case_match; simplify_eq; try done; constructor.
Qed.

(** A run that listens, in one of the shapes such a run can have. *)
Inductive served (env : ProcEnv) (cfg : Config) (ws : list PAct) : list PAct -> Z -> Prop :=
| sv_write_failed addr dir left :
    cfg_ports_file_dir cfg = Some dir -> from_option (fun l => l `prefix_of` ports_body addr) True left ->
    let path := path_join dir (ports_name env) in
    served env cfg ws (ws ++ [P_listen (bind_text cfg) addr; P_write_failed path left; P_error (PE_write path)]) 1
| sv_no_signals addr path notes :
    served env cfg ws
      (ws ++ [P_listen (bind_text cfg) addr] ++ from_option (fun p => [P_write p (ports_body addr)]) [] path ++
       notes ++ [P_error PE_signal]) 1
| sv_served addr path notes :
    Forall (eq (P_note addr)) notes ->
    path = (fun d => path_join d (ports_name env)) <$> cfg_ports_file_dir cfg ->
    served env cfg ws
      (ws ++ [P_listen (bind_text cfg) addr] ++ from_option (fun p => [P_write p (ports_body addr)]) [] path ++
       notes ++ [P_wait_signal] ++ remove_ports_file path) 0.

(** ** Property *)

(** C30: the order of startup and shutdown, as the code has it.  Every run of the
    process is one of these: it prints what it was asked for and exits with 0; it says
    why it cannot start and exits with 1, without having listened (a command line it
    does not understand included, after which it prints its usage); or it listens
    first, then (if it was told where) writes the ports file with the address it got,
    then waits for a signal, and then removes the file it wrote and exits with 0, with
    no other action in between; or one of these steps fails, after which nothing more is
    done but to say so and exit with 1: a write that fails may leave a front part of
    the file behind, and a file that was written stays when the signal handlers fail. *)
Theorem process_startup_order env :
  let '(acts, code) := main env in
  (exists ws a, Forall is_warning ws /\ acts = ws ++ [a] /\
     ((code = 0%Z /\ (a = P_usage \/ exists t, a = P_print t)) \/ (code = 1%Z /\ exists e, a = P_error e))) \/
  (exists e, acts = [P_error (PE_args e); P_usage] /\ code = 1%Z) \/
  (exists cfg ws, Forall is_warning ws /\ served env cfg ws acts code).
Proof.
  unfold main, run_process. destruct (parse_args _ _) as [args | e]; [| right; left; eauto].
  destruct (a_version args); [left; exists [], (P_print (PROGRAM ++ cs ": v" ++ pe_version env)); split_and!; eauto 6 |].
  destruct (a_help args); [left; exists [], P_usage; split_and!; eauto |].
  destruct (load_config env args) as [ws [cfg | e]] eqn:Hl; apply load_config_warnings in Hl;
    [| left; exists ws, (P_error e); split_and!; eauto].
  destruct (a_test_config args); [left; exists ws, (P_print (cs "configuration OK")); split_and!; eauto 6 |].
  unfold serve_until_signal. destruct (pe_listen env (bind_text cfg)) as [addr |] eqn:Ha;
    [| left; exists ws, (P_error (PE_listen (cfg_host cfg) (bind_port cfg))); rewrite app_nil_r; split_and!; eauto].
  unfold write_ports_file. set (notes := if cfg_debug cfg then _ else _).
  assert (Hn : Forall (eq (P_note addr)) notes) by (unfold notes; destruct (cfg_debug cfg); repeat constructor).
  destruct (cfg_ports_file_dir cfg) as [dir |] eqn:Hd; [destruct (pe_write_ok env _) |];
    [destruct (pe_signals_ok env) | | destruct (pe_signals_ok env)];
    (right; right; exists cfg, ws; split; [done |]); rewrite <- ?(assoc_L (++)).
  - eapply eq_rect; [apply (sv_served env cfg ws addr (Some (path_join dir (ports_name env))) notes Hn); by rewrite Hd |].
    by rewrite <- ?(assoc_L (++)).
  - eapply eq_rect; [apply (sv_no_signals env cfg ws addr (Some (path_join dir (ports_name env))) notes) |].
    by rewrite <- ?(assoc_L (++)).
  - apply sv_write_failed; [done |]. destruct (pe_write_left env _); [apply prefix_take | done].
  - eapply eq_rect; [apply (sv_served env cfg ws addr None notes Hn); by rewrite Hd |].
    by rewrite <- ?(assoc_L (++)).
  - eapply eq_rect; [apply (sv_no_signals env cfg ws addr None notes) |]. by rewrite <- ?(assoc_L (++)).
Qed.

(** A run from the command line to the signal. *)
Definition served_env : ProcEnv :=
  mkProcEnv [cs "-a"; cs "127.0.0.1"; cs "-p"; cs "-1"; cs "--ports_file_dir"; cs "/tmp"] (cs "0.1.0") (fun _ => None)
    (fun _ => Some (mkSockAddr (cs "127.0.0.1") 4333)) (Some (cs "nats")) 7 (fun _ => true) (fun _ => None) true.

Lemma process_startup_order_witness :
  main served_env =
    ([P_listen (cs "127.0.0.1:0") (mkSockAddr (cs "127.0.0.1") 4333);
      P_write (cs "/tmp/nats_7.ports") (ports_body (mkSockAddr (cs "127.0.0.1") 4333)); P_wait_signal;
      P_remove (cs "/tmp/nats_7.ports")], 0%Z) /\
  let '(acts, code) := main served_env in
  (exists ws a, Forall is_warning ws /\ acts = ws ++ [a] /\
     ((code = 0%Z /\ (a = P_usage \/ exists t, a = P_print t)) \/ (code = 1%Z /\ exists e, a = P_error e))) \/
  (exists e, acts = [P_error (PE_args e); P_usage] /\ code = 1%Z) \/
  (exists cfg ws, Forall is_warning ws /\ served served_env cfg ws acts code).
Proof. split; [vm_compute; reflexivity | exact (process_startup_order served_env)]. Defined.

(** An unknown flag: the reason, the usage, and exit status 1. *)
Example unknown_flag_exits_1 :
  exists e, main (mkProcEnv [cs "--no_such_flag"] (cs "0.1.0") (fun _ => None) (fun _ => None) None 7
                   (fun _ => true) (fun _ => None) true) = ([P_error (PE_args e); P_usage], 1%Z).
Proof. eexists. vm_compute. reflexivity. Qed.
