(* ===== verification/Harness.v ===== *)
(** * The test harness (crates/harness/src/lib.rs)

    How the harness starts a server and learns where it listens: the command line it
    builds, the ports file it looks for, and the loop that waits until the server can
    be reached.  With Process.v, both sides of the ports file: what the server writes
    is what the harness reads. *)

From Stdlib Require Import String Strings.Byte.
From S2P Require Import Prelude Decimal Config ConfigFile Net Process.

(** ** [serde_json]

    The questions the harness asks of a JSON text.  The laws are those of the JSON
    grammar, for an object with one member that is an array of one string, neither
    text needing an escape. *)

Definition plain_char (c : Z) : bool := (32 <=? c)%Z && negb (c =? 34)%Z && negb (c =? 92)%Z.
Definition plain (s : str) : Prop := Forall (fun c => plain_char c = true) s.

Definition json_single (key s : str) : str := [123; 34]%Z ++ key ++ [34; 58; 91; 34]%Z ++ s ++ [34; 93; 125]%Z.

Class JsonText := {
  jt_value : Type;
  (** [serde_json::from_str]: [None] is its error. *)
  jt_from_str : str -> option jt_value;
  (** [Value::get] with a key and with an index, [Value::as_str]. *)
  jt_get : jt_value -> str -> option jt_value;
  jt_index : jt_value -> nat -> option jt_value;
  jt_as_str : jt_value -> option str }.

Class JsonTextLaws (J : JsonText) := {
  jt_single key s :
    plain key -> plain s ->
    exists v, jt_from_str (json_single key s) = Some v /\
      (jt_get v key ≫= fun a => jt_index a 0 ≫= jt_as_str) = Some s;
  jt_unfinished key s p q :
    plain key -> plain s -> json_single key s = p ++ q -> q <> [] -> jt_from_str p = None }.

(** ** Definitions *)

Definition resolve_bin (env_val : option str) : option str :=
  match env_val with
  | Some (c :: b) => Some (c :: b)
  | _ => None
  end.

(** The arguments of [launch]. *)
Definition launch_args (dir : str) (extra : list str) : list str :=
  [cs "-a"; cs "127.0.0.1"; cs "-p"; cs "-1"; cs "--ports_file_dir"; dir] ++ extra.

Definition config_args (dir : str) : list str := [cs "-c"; path_join dir (cs "nats.conf")].

(** [s.rsplit_once(c)]. *)
Definition rsplit_once (c : Z) (s : str) : option (str * str) :=
  match split_once c (reverse s) with
  | Some (a, b) => Some (reverse b, reverse a)
  | None => None
  end.

(** [Path::extension] of a file name. *)
Definition extension (name : str) : option str :=
  match rsplit_once 46 name with
  | Some (_ :: _, ext) => Some ext
  | _ => None
  end.

(** [s.split("//")]. *)
Fixpoint split_slashes (cur s : str) : list str :=
  match s with
  | 47%Z :: 47%Z :: s' => cur :: split_slashes [] s'
  | c :: s' => split_slashes (cur ++ [c]) s'
  | [] => [cur]
  end.

(** What reading a directory entry answers. *)
Inductive FileRead := Fd_text (s : str) | Fd_not_found | Fd_error.

(** What reading the directory answers. *)
Inductive DirRead := Dr_entries (l : list (str * FileRead)) | Dr_not_found | Dr_error.

(** What a ports file says: nothing yet, an address, or a URL without a port. *)
Inductive PortsText := Pt_not_yet | Pt_addr (host : str) (port : Z) | Pt_bad.

Section Harness.

Context {J : JsonText}.

Definition ports_text (content : str) : PortsText :=
  match jt_from_str content with
  | None => Pt_not_yet
  | Some v =>
      match (jt_get v (cs "nats") ≫= fun a => jt_index a 0 ≫= jt_as_str) with
      | None => Pt_not_yet
      | Some url =>
          let authority := default url (split_slashes [] url !! 1) in
          match rsplit_once 58 authority with
          | None => Pt_bad
          | Some (host, port) =>
              match parse_uint 65535 port with
              | Some p => Pt_addr host p
              | None => Pt_not_yet
              end
          end
      end
  end.

(** The loop over the entries: [Err] is an error of the harness. *)
Fixpoint read_entries (l : list (str * FileRead)) : result (option (str * Z)) unit :=
  match l with
  | [] => Ok None
  | (name, content) :: l' =>
      if negb (bool_decide (extension name = Some (cs "ports"))) then read_entries l'
      else
        match content with
        | Fd_not_found => read_entries l'
        | Fd_error => Err tt
        | Fd_text s =>
            match ports_text s with
            | Pt_not_yet => read_entries l'
            | Pt_addr host port => Ok (Some (host, port))
            | Pt_bad => Err tt
            end
        end
  end.

Definition read_ports_file (d : DirRead) : result (option (str * Z)) unit :=
  match d with
  | Dr_not_found => Ok None
  | Dr_error => Err tt
  | Dr_entries l => read_entries l
  end.

(** [host.parse::<Ipv4Addr>()] succeeds: four numbers below 256, without leading zeros. *)
Definition octet (s : str) : bool :=
  negb (is_empty s) && forallb is_digit s && (length s <=? 3)%nat &&
  match s with 48%Z :: _ :: _ => false | _ => true end &&
  match digits_of 10 0 s with Some n => (n <? 256)%Z | None => false end.

Fixpoint split_dots (cur s : str) : list str :=
  match s with
  | [] => [cur]
  | c :: s' => if (c =? 46)%Z then cur :: split_dots [] s' else split_dots (cur ++ [c]) s'
  end.

Definition is_ipv4 (s : str) : bool := (length (split_dots [] s) =? 4)%nat && forallb octet (split_dots [] s).

(** What one pass of the readiness loop finds: the deadline, the child's status, the
    directory, and whether a connection attempt succeeds. *)
Record Poll := mkPoll {
  po_expired : bool;
  po_status : result (option Z) unit;
  po_dir : DirRead;
  po_connects : str -> Z -> bool }.

Definition tcp_reachable (p : Poll) (host : str) (port : Z) : bool := is_ipv4 host && po_connects p host port.

Inductive Readiness :=
| Rd_ready (host : str) (port : Z) (url : str)
| Rd_timeout
| Rd_exited (status : Z)
| Rd_error
| Rd_waiting.

(** [wait_until_ready], as far as it has polled. *)
Fixpoint wait_until_ready (polls : list Poll) : Readiness :=
  match polls with
  | [] => Rd_waiting
  | p :: polls' =>
      if po_expired p then Rd_timeout
      else
        match po_status p with
        | Err _ => Rd_error
        | Ok (Some status) => Rd_exited status
        | Ok None =>
            match read_ports_file (po_dir p) with
            | Err _ => Rd_error
            | Ok (Some (host, port)) =>
                if tcp_reachable p host port
                then Rd_ready host port (cs "nats://" ++ host ++ [58%Z] ++ show port)
                else wait_until_ready polls'
            | Ok None => wait_until_ready polls'
            end
        end
  end.

(** What the harness does to the process. *)
Inductive HAct := H_spawn (bin : str) (args : list str) | H_kill | H_wait.

(** What [launch] comes to, as far as it has polled. *)
Inductive Launched := La_server (host : str) (port : Z) (url : str) | La_failed | La_waiting.

(** [launch]: the binary, the child, and waiting for it; a child that does not get
    ready is killed and waited for. *)
Definition launch (env_val : option str) (dir : str) (extra : list str) (spawns : bool) (polls : list Poll) :
    list HAct * Launched :=
  match resolve_bin env_val with
  | None => ([], La_failed)
  | Some bin =>
      if spawns then
        let started := [H_spawn bin (launch_args dir extra)] in
        match wait_until_ready polls with
        | Rd_ready host port url => (started, La_server host port url)
        | Rd_waiting => (started, La_waiting)
        | Rd_timeout | Rd_exited _ | Rd_error => (started ++ [H_kill; H_wait], La_failed)
        end
      else ([], La_failed)
  end.

(** [start_with_args] and [start], given what [tempdir] answers. *)
Definition start_with_args (env_val tmp : option str) (extra : list str) (spawns : bool) (polls : list Poll) :
    list HAct * Launched :=
  match tmp with
  | Some dir => launch env_val dir extra spawns polls
  | None => ([], La_failed)
  end.

Definition start_server (env_val tmp : option str) (spawns : bool) (polls : list Poll) : list HAct * Launched :=
  start_with_args env_val tmp [] spawns polls.

(** [start_with_config], given whether the file could be written. *)
Definition start_with_config (env_val tmp : option str) (wrote spawns : bool) (polls : list Poll) :
    list HAct * Launched :=
  match tmp with
  | Some dir => if wrote then launch env_val dir (config_args dir) spawns polls else ([], La_failed)
  | None => ([], La_failed)
  end.

(** [Drop for Server]. *)
Definition drop_server (r : Launched) : list HAct := match r with La_server _ _ _ => [H_kill; H_wait] | _ => [] end.

(** [client_addr]. *)
Definition client_addr (host : str) (port : Z) : str := host ++ [58%Z] ++ show port.

(** A server started with a configuration file is told to read the file that was
    written into the directory it is to put its ports file in. *)
Lemma config_start_args dir :
  parse_args (launch_args dir (config_args dir)) PROGRAM =
  Ok (mkCmdArgs (Some (path_join dir (cs "nats.conf"))) false false false (Some (cs "127.0.0.1")) (Some (-1)%Z)
        (Some dir) None false false).
Proof. done. Qed.

(** A child never outlives the harness: once [launch] has come to an end and its server,
    if there is one, is dropped, either none was started or the one that was has been
    killed and waited for, once. *)
Lemma launched_child_reaped env_val dir extra spawns polls :
  let '(acts, r) := launch env_val dir extra spawns polls in
  r <> La_waiting -> acts ++ drop_server r = [] \/
    exists bin, acts ++ drop_server r = [H_spawn bin (launch_args dir extra); H_kill; H_wait].
Proof. unfold launch. repeat case_match; simplify_eq; simpl; eauto; done. Qed.

End Harness.

(** ** Lemmas *)

Lemma split_once_none c s : c ∉ s -> split_once c s = None.
Proof.
  intros H. induction s as [| x s IH]; [done |]. apply not_elem_of_cons in H as [H1 H2]. simpl.
  rewrite (proj2 (Z.eqb_neq x c)) by done. by rewrite IH.
Qed.

Lemma split_once_first c a b : c ∉ a -> split_once c (a ++ c :: b) = Some (a, b).
Proof.
  induction a as [| x a IH]; intros H; simpl; [by rewrite Z.eqb_refl |].
  apply not_elem_of_cons in H as [H1 H2]. rewrite (proj2 (Z.eqb_neq x c)) by done. by rewrite IH.
Qed.

Lemma rsplit_once_last c a b : c ∉ b -> rsplit_once c (a ++ c :: b) = Some (a, b).
Proof.
  intros H. unfold rsplit_once. rewrite reverse_app, reverse_cons, <- (assoc_L (++)). simpl.
  rewrite split_once_first by (by rewrite elem_of_reverse). by rewrite !reverse_involutive.
Qed.

Lemma split_slashes_none cur s : 47%Z ∉ s -> split_slashes cur s = [cur ++ s].
Proof.
  revert cur. induction s as [| c s IH]; intros cur H; [by rewrite app_nil_r |].
  apply not_elem_of_cons in H as [H1 H2].
  assert (E : split_slashes cur (c :: s) = split_slashes (cur ++ [c]) s).
  { simpl. destruct c as [| c | c]; try done. repeat (destruct c as [c | c |]; try done). }
  rewrite E, IH by done. by rewrite <- (assoc_L (++)).
Qed.

Lemma not_in_show c n : in_u64 n -> ~ (48 <= c <= 57)%Z -> c ∉ show n.
Proof. intros Hn Hc H. pose proof (show_chars n Hn) as Hs. rewrite Forall_forall in Hs. by apply Hc, Hs. Qed.

Definition port_text_ok (port : Z) : Prop := (0 <= port <= 65535)%Z.

Lemma port_in_u64 port : port_text_ok port -> in_u64 port.
Proof. unfold port_text_ok, in_u64, u64_modulus. lia. Qed.

(** An IP address as it is printed. *)
Definition ip_text (ip : str) : Prop := plain ip /\ 47%Z ∉ ip.

Section HarnessLemmas.

Context `{JL : JsonTextLaws}.

Definition ports_url (addr : SockAddr) : str := cs "nats://" ++ sa_ip addr ++ [58%Z] ++ show (sa_port addr).

Lemma ports_body_single addr : ports_body addr = json_single (cs "nats") (ports_url addr).
Proof. done. Qed.

Lemma ports_url_plain addr : ip_text (sa_ip addr) -> port_text_ok (sa_port addr) -> plain (ports_url addr).
Proof.
  intros [Hip _] Hp. unfold ports_url. apply Forall_app. split; [by repeat constructor |].
  apply Forall_app. split; [done |]. apply Forall_cons_2; [done |].
  eapply Forall_impl; [apply show_chars; by apply port_in_u64 |]. intros c Hc. cbn beta in Hc. unfold plain_char.
  rewrite (proj2 (Z.leb_le 32 c)), (proj2 (Z.eqb_neq c 34)), (proj2 (Z.eqb_neq c 92)) by lia. done.
Qed.

Lemma nats_plain : plain (cs "nats").
Proof. by repeat constructor. Qed.

Lemma ports_text_body addr :
  ip_text (sa_ip addr) -> port_text_ok (sa_port addr) ->
  ports_text (ports_body addr) = Pt_addr (sa_ip addr) (sa_port addr).
Proof.
  intros Hip Hp. pose proof (port_in_u64 _ Hp) as Hu. unfold ports_text. rewrite ports_body_single.
  destruct (jt_single (cs "nats") (ports_url addr) nats_plain (ports_url_plain addr Hip Hp)) as (v & -> & ->).
  assert (Hs : split_slashes [] (ports_url addr) = [cs "nats:"; sa_ip addr ++ [58%Z] ++ show (sa_port addr)]).
  { change (ports_url addr) with (cs "nats:" ++ 47%Z :: 47%Z :: (sa_ip addr ++ [58%Z] ++ show (sa_port addr))).
    cut (split_slashes [] (cs "nats:" ++ 47%Z :: 47%Z :: (sa_ip addr ++ [58%Z] ++ show (sa_port addr))) =
         cs "nats:" :: split_slashes [] (sa_ip addr ++ [58%Z] ++ show (sa_port addr))); [| done].
    intros ->. rewrite split_slashes_none; [done |]. destruct Hip as [_ Hsl].
    rewrite !elem_of_app, list_elem_of_singleton. intros [H | [H | H]]; [done | done |].
    by apply (not_in_show 47 (sa_port addr)) in H; [| done | lia]. }
  rewrite Hs. change (default _ (_ !! 1)) with (sa_ip addr ++ 58%Z :: show (sa_port addr)).
  rewrite (rsplit_once_last 58 (sa_ip addr)) by (apply not_in_show; [done | lia]).
  rewrite parse_uint_show; [done | done |]. unfold port_text_ok in Hp. lia.
Qed.

Lemma ports_text_partial addr p q :
  ip_text (sa_ip addr) -> port_text_ok (sa_port addr) ->
  ports_body addr = p ++ q -> q <> [] -> ports_text p = Pt_not_yet.
Proof.
  intros Hip Hp Hpq Hq. unfold ports_text. rewrite ports_body_single in Hpq.
  by rewrite (jt_unfinished _ _ p q nats_plain (ports_url_plain addr Hip Hp) Hpq Hq).
Qed.

Lemma ports_name_extension env : in_u64 (pe_pid env) -> extension (ports_name env) = Some (cs "ports").
Proof.
  intros Hp. unfold extension, ports_name.
  change (cs ".ports") with (46%Z :: cs "ports"). rewrite !(assoc_L (++)), rsplit_once_last by (by apply (bool_decide_unpack _)).
  destruct (show_digits (pe_pid env) Hp) as (c & s & E & _). rewrite E.
  destruct ((default PROGRAM (pe_exe env) ++ cs "_") ++ c :: s) eqn:H; [| done].
  by apply app_nil in H as [_ ?].
Qed.

End HarnessLemmas.

(** ** One JSON reader *)

(** It reads exactly the objects of the laws. *)
Inductive ToyJson := Toy_object (key s : str) | Toy_array (s : str) | Toy_string (s : str).

Fixpoint read_plain (l : str) : option (str * str) :=
  match l with
  | [] => None
  | c :: l' =>
      if (c =? 34)%Z then Some ([], l')
      else if plain_char c then '(a, b) ← read_plain l'; Some (c :: a, b) else None
  end.

Definition toy_from_str (l : str) : option ToyJson :=
  match l with
  | 123%Z :: 34%Z :: l1 =>
      '(key, l2) ← read_plain l1;
      match l2 with
      | 58%Z :: 91%Z :: 34%Z :: l3 =>
          '(s, l4) ← read_plain l3;
          if bool_decide (l4 = [93; 125]%Z) then Some (Toy_object key s) else None
      | _ => None
      end
  | _ => None
  end.

Definition toy_json : JsonText := {|
  jt_value := ToyJson;
  jt_from_str := toy_from_str;
  jt_get v key := match v with Toy_object k s => if bool_decide (k = key) then Some (Toy_array s) else None | _ => None end;
  jt_index v i := match v, i with Toy_array s, 0 => Some (Toy_string s) | _, _ => None end;
  jt_as_str v := match v with Toy_string s => Some s | _ => None end |}.

Lemma read_plain_app s rest : plain s -> read_plain (s ++ 34%Z :: rest) = Some (s, rest).
Proof.
  induction 1 as [| c s Hc _ IH]; [done |]. simpl. unfold plain_char in Hc. bool_to_prop.
  rewrite (proj2 (Z.eqb_neq c 34)) by done. unfold plain_char.
  rewrite (proj2 (Z.leb_le 32 c)), (proj2 (Z.eqb_neq c 34)), (proj2 (Z.eqb_neq c 92)) by done. simpl. by rewrite IH.
Qed.

(** A reader that succeeds on a text has consumed a prefix of it. *)
Lemma read_plain_Some l a b : read_plain l = Some (a, b) -> l = a ++ 34%Z :: b /\ plain a.
Proof.
  revert a. induction l as [| c l IH]; intros a H; [done |]. simpl in H. destruct (c =? 34)%Z eqn:E; bool_to_prop.
  - simplify_eq. split; [done | constructor].
  - destruct (plain_char c) eqn:Hc; [| done]. destruct (read_plain l) as [[a1 b1] |]; [| done]. simpl in H. simplify_eq.
    destruct (IH a1 eq_refl) as [-> ?]. split; [done | by constructor].
Qed.

Lemma toy_from_str_Some l v : toy_from_str l = Some v -> exists key s, l = json_single key s /\ plain key /\ plain s.
Proof.
  unfold toy_from_str. intros H.
  destruct l as [| c0 [| c1 l1]]; [done | by repeat case_match |].
  assert (Hh : c0 = 123%Z /\ c1 = 34%Z) by (repeat case_match; by simplify_eq). destruct Hh as [-> ->].
  destruct (read_plain l1) as [[key l2] |] eqn:E1; [| done]. simpl in H.
  apply read_plain_Some in E1 as [-> Hk].
  destruct l2 as [| d0 [| d1 [| d2 l3]]]; try (by repeat case_match).
  assert (Hh : d0 = 58%Z /\ d1 = 91%Z /\ d2 = 34%Z) by (repeat case_match; by simplify_eq). destruct Hh as (-> & -> & ->).
  destruct (read_plain l3) as [[s l4] |] eqn:E2; [| done]. simpl in H. case_bool_decide; [| done]. subst l4.
  apply read_plain_Some in E2 as [-> Hs]. exists key, s. split; [| done]. unfold json_single. simpl.
  by rewrite <- ?(assoc_L (++)).
Qed.

#[export] Instance toy_json_laws : JsonTextLaws toy_json.
Proof.
  split.
  - intros key s Hk Hs. exists (Toy_object key s). simpl. unfold json_single. simpl.
    rewrite read_plain_app by done. cbn [mbind option_bind]. rewrite read_plain_app by done. simpl.
    by rewrite bool_decide_eq_true_2.
  - intros key s p q Hk Hs Hpq Hq. simpl. destruct (toy_from_str p) as [v |] eqn:E; [| done]. exfalso. apply Hq.
    apply toy_from_str_Some in E as (k' & s' & -> & Hk' & Hs'). unfold json_single in Hpq. simpl in Hpq. simplify_eq.
    rewrite <- (assoc_L (++)) in Hpq. simpl in Hpq. apply (f_equal read_plain) in Hpq. rewrite !read_plain_app in Hpq by done.
    simplify_eq. rewrite <- (assoc_L (++)) in H0. simpl in H0. apply (f_equal read_plain) in H0. rewrite !read_plain_app in H0 by done.
    by simplify_eq.
Qed.

(** ** Properties *)

Section HarnessProperties.

Context `{JL : JsonTextLaws}.

(** An entry that is not a ports file, or one of ours that is still being written. *)
Definition early_entry (addr : SockAddr) (e : str * FileRead) : Prop :=
  extension e.1 <> Some (cs "ports") \/
  exists p q, e.2 = Fd_text p /\ ports_body addr = p ++ q /\ q <> [].

Lemma read_entries_early addr l rest :
  ip_text (sa_ip addr) -> port_text_ok (sa_port addr) -> Forall (early_entry addr) l ->
  read_entries (l ++ rest) = read_entries rest.
Proof.
  intros Hip Hp. induction 1 as [| [name content] l He _ IH]; [done |]. simpl.
  destruct (bool_decide (extension name = Some (cs "ports"))) eqn:E; bool_to_prop; [| done]. simpl.
  destruct He as [? | (p & q & Hc & Hpq & Hq)]; [done |]. simpl in Hc. subst content.
  by rewrite (ports_text_partial addr p q).
Qed.

(** A pass of the readiness loop before the server has finished its ports file. *)
Definition early_poll (addr : SockAddr) (p : Poll) : Prop :=
  po_expired p = false /\ po_status p = Ok None /\
  (po_dir p = Dr_not_found \/ exists l, po_dir p = Dr_entries l /\ Forall (early_entry addr) l).

(** The pass that finds it. *)
Definition last_poll (env : ProcEnv) (addr : SockAddr) (p : Poll) : Prop :=
  po_expired p = false /\ po_status p = Ok None /\ po_connects p (sa_ip addr) (sa_port addr) = true /\
  exists l rest, po_dir p = Dr_entries (l ++ (ports_name env, Fd_text (ports_body addr)) :: rest) /\
    Forall (early_entry addr) l.

Lemma wait_early addr p polls :
  ip_text (sa_ip addr) -> port_text_ok (sa_port addr) -> early_poll addr p ->
  wait_until_ready (p :: polls) = wait_until_ready polls.
Proof.
  intros Hip Hp (H1 & H2 & Hd). simpl. rewrite H1, H2.
  replace (read_ports_file (po_dir p)) with (@Ok (option (str * Z)) unit None); [done |].
  destruct Hd as [-> | (l & -> & Hl)]; [done |]. simpl. rewrite <- (app_nil_r l). by rewrite (read_entries_early addr).
Qed.

(** C31: the harness and the server meet.  A server started with the harness's command
    line binds 127.0.0.1 with a port of the kernel's choice, writes the ports file
    behind that, and removes it at the end; and however often the harness looks before
    the file is there or while it is half written, it waits, and then finds exactly the
    address the server listens on. *)
Theorem harness_finds_server env dir addr :
  pe_argv env = launch_args dir [] -> pe_listen env (cs "127.0.0.1:0") = Some addr ->
  pe_write_ok env (path_join dir (ports_name env)) = true -> pe_signals_ok env = true ->
  in_u64 (pe_pid env) -> ip_text (sa_ip addr) -> is_ipv4 (sa_ip addr) = true -> port_text_ok (sa_port addr) ->
  main env =
    ([P_listen (cs "127.0.0.1:0") addr; P_write (path_join dir (ports_name env)) (ports_body addr);
      P_wait_signal; P_remove (path_join dir (ports_name env))], 0%Z) /\
  forall polls p, Forall (early_poll addr) polls -> last_poll env addr p ->
    wait_until_ready (polls ++ [p]) = Rd_ready (sa_ip addr) (sa_port addr) (ports_url addr).
Proof.
  intros Hargv Hlis Hwr Hsig Hpid Hip H4 Hport. split.
  - unfold main, run_process. rewrite Hargv.
    assert (Hargs : parse_args (launch_args dir []) PROGRAM =
      Ok (mkCmdArgs None false false false (Some (cs "127.0.0.1")) (Some (-1)%Z) (Some dir) None false false)) by done.
    rewrite Hargs. cbn [a_version a_help a_test_config].
    set (cfg := mkConfig (cs "127.0.0.1") (-1) (Some dir) None MAX_PAYLOAD MAX_PENDING MAX_CONTROL_LINE MAX_CONNECTIONS
                  PING_INTERVAL WRITE_DEADLINE false false).
    assert (Hcfg : load_config env (mkCmdArgs None false false false (Some (cs "127.0.0.1")) (Some (-1)%Z) (Some dir) None false false)
                   = ([], Ok cfg)) by done.
    rewrite Hcfg. unfold serve_until_signal. change (bind_text cfg) with (cs "127.0.0.1:0"). rewrite Hlis.
    unfold write_ports_file. change (cfg_ports_file_dir cfg) with (Some dir). cbn iota beta zeta.
    rewrite Hwr, Hsig. done.
  - intros polls p Hpolls (H1 & H2 & H3 & l & rest & Hd & Hl).
    induction Hpolls as [| p' polls Hp' _ IH]; [| simpl app; by rewrite (wait_early addr)].
    simpl. rewrite H1, H2, Hd. simpl. rewrite (read_entries_early addr) by done. simpl.
    rewrite bool_decide_eq_true_2 by (by apply ports_name_extension). simpl. rewrite ports_text_body by done.
    unfold tcp_reachable. by rewrite H4, H3.
Qed.

End HarnessProperties.

(** ** Witness *)

Definition demo_addr : SockAddr := mkSockAddr (cs "127.0.0.1") 40123.

Definition demo_env : ProcEnv :=
  mkProcEnv (launch_args (cs "/tmp/x") []) (cs "0.1.0") (fun _ => None) (fun _ => Some demo_addr)
            (Some (cs "nats-server-rs")) 77 (fun _ => true) (fun _ => None) true.

Definition demo_poll (content : str) : Poll :=
  mkPoll false (Ok None) (Dr_entries [(cs "nats.conf", Fd_error); (cs "nats-server-rs_77.ports", Fd_text content)])
         (fun _ _ => true).

Lemma harness_finds_server_witness :
  (main demo_env).2 = 0%Z /\
  @wait_until_ready toy_json [demo_poll (take 9 (ports_body demo_addr)); demo_poll (ports_body demo_addr)] =
    Rd_ready (cs "127.0.0.1") 40123 (cs "nats://127.0.0.1:40123").
Proof.
  destruct (@harness_finds_server toy_json toy_json_laws demo_env (cs "/tmp/x") demo_addr) as [H1 H2].
  - reflexivity.
  - reflexivity.
  - reflexivity.
  - reflexivity.
  - split; [apply Z.leb_le | apply Z.ltb_lt]; reflexivity.
  - split; [by apply (bool_decide_unpack _) | by apply (bool_decide_unpack _)].
  - reflexivity.
  - split; [apply Z.leb_le | apply Z.leb_le]; reflexivity.
  - split; [rewrite H1; reflexivity |].
    apply (H2 [demo_poll (take 9 (ports_body demo_addr))] (demo_poll (ports_body demo_addr))).
    + apply Forall_cons_2; [| apply Forall_nil_2]. split; [reflexivity |]. split; [reflexivity |]. right.
      eexists. split; [reflexivity |]. apply Forall_cons_2; [| apply Forall_cons_2; [| apply Forall_nil_2]].
      * left. vm_compute. discriminate.
      * right. exists (take 9 (ports_body demo_addr)), (drop 9 (ports_body demo_addr)).
        split; [reflexivity |]. split; [symmetry; apply take_drop | vm_compute; discriminate].
    + split; [reflexivity |]. split; [reflexivity |]. split; [reflexivity |].
      exists [(cs "nats.conf", Fd_error)], []. split; [reflexivity |].
      apply Forall_cons_2; [| apply Forall_nil_2]. left. vm_compute. discriminate.
Defined.
