(* ===== verification/Scenarios.v ===== *)
(** * Concrete sessions

    Runs of the server on concrete input: they show that the states the theorems
    speak of are reached, and what the code does in them. *)

From Stdlib Require Import String Strings.Byte.
From stdpp Require Import relations.
From S2P Require Import Prelude Subjects Proto ProtoFeed ProtoRoundtrip Nuid Frames External Arena Outbox Writer Options Registry Interest QueueGroups Conn Route Client Server Order ReadLoop WriteLoop ReadTask Delivery.

#[local] Existing Instance simple_bytesmut.
#[local] Existing Instance list_channel.
#[local] Existing Instance flat_json.

(** ** Running a session *)

Inductive Act :=
| A_spawn (c : cref) (max_pending : Z)
| A_event (c : cref) (ev : Event)
| A_close (c : cref).

Definition headroomb (w : World) (n : Z) : bool :=
  (0 <=? generation (w_reg w))%Z &&
  (Z.of_nat (w_next w) + generation (w_reg w) + n <? usize_max)%Z.

Definition fitsb (ev : Event) : bool :=
  match ev with EvUnsubscribe _ max => (max <? 2 ^ 63)%Z | _ => true end.

Definition do_act (s : Srv) (a : Act) : option Srv :=
  let w := sv_world s in
  match a with
  | A_spawn c mp =>
      if bool_decide (w_conns w !! c = None)
      then Some (mkSrv (spawn_conn w c (Z.of_nat c) mp (bs "INFO")).1 (<[c := interest_new]> (sv_caches s)))
      else None
  | A_event c ev =>
      if bool_decide (is_Some (w_conns w !! c)) && fitsb ev && headroomb w (Z.of_nat (w_next w) + 2)
      then let '(w', i', _, _) := handle w c ev (cache_of (sv_caches s) c) in
           Some (mkSrv w' (<[c := i']> (sv_caches s)))
      else None
  | A_close c =>
      if headroomb w 2 then Some (mkSrv (close w c "closed") (sv_caches s)) else None
  end.

Definition run (acts : list Act) (s : Srv) : option Srv :=
  foldl (fun s a => s ≫= fun s => do_act s a) (Some s) acts.

Lemma headroomb_spec w n : headroomb w n = true -> headroom w n.
Proof. intros H. unfold headroomb in H. bool_to_prop. by split. Qed.

Lemma do_act_step s a s' : do_act s a = Some s' -> srv_step s s'.
Proof.
  destruct s as [w caches]. destruct a as [c mp | c ev | c]; simpl.
  - case_bool_decide; [| done]. intros [= <-]. by apply sv_spawn.
  - destruct (_ && _) eqn:E; [| done]. bool_to_prop.
    destruct (handle w c ev (cache_of caches c)) as [[[w' i'] waits] b] eqn:Hh. intros [= <-].
    eapply sv_event; [done | | by apply headroomb_spec | exact Hh].
    destruct ev; try done. simpl in *. by bool_to_prop.
  - destruct (headroomb w 2) eqn:E; [| done]. intros [= <-]. by apply sv_close, headroomb_spec.
Qed.

Lemma run_reachable acts s s' : run acts s = Some s' -> rtc srv_step s s'.
Proof.
  revert s. induction acts as [| a acts IH]; intros s H.
  - injection H as <-. apply rtc_refl.
  - unfold run in H. simpl in H. destruct (do_act s a) as [s1 |] eqn:Ha.
    + eapply rtc_l; [by eapply do_act_step | by apply IH].
    + exfalso. clear -H. induction acts as [| a acts IH]; simpl in H; [done | by apply IH].
Qed.

(** The state after a session from a fresh server. *)
Definition after (acts : list Act) : Srv := default (srv_init 7) (run acts (srv_init 7)).

Lemma after_ok acts : is_Some (run acts (srv_init 7)) -> rtc srv_step (srv_init 7) (after acts).
Proof. intros [s Hs]. unfold after. rewrite Hs. by apply (run_reachable acts). Qed.

(** What is queued for a connection. *)
Definition queued_for (s : Srv) (c : cref) : list bytes :=
  from_option (fun cn => ch_queue (ob_chan (c_out cn))) [] (w_conns (sv_world s) !! c).

(** Two connections; the first is quiet ([verbose] off) and subscribes to a literal
    subject, the second is in a queue group twice. *)
Definition two_subscribers : list Act :=
  [A_spawn 0 1000; A_spawn 1 1000;
   A_event 0 (EvConnect (flat_text "verbose" false)); A_event 1 (EvConnect (flat_text "verbose" false));
   A_event 0 (EvSubscribe (bs "a.b") None (bs "1"));
   A_event 1 (EvSubscribe (bs "a.*") (Some (bs "q")) (bs "2"));
   A_event 1 (EvSubscribe (bs "a.>") (Some (bs "q")) (bs "3"))].

Definition pub (subj body : string) : Event :=
  EvPublish (bs subj) None 0 (blen (bs body)) (bs body) false.

Definition msg_ab : Msg := mkMsg (bs "a.b") None 0 (bs "hi").

Definition two : Srv := after two_subscribers.

Example two_subscribers_publish :
  let s := after (two_subscribers ++ [A_event 0 (pub "a.b" "hi")]) in
  queued_for s 0 = [bs "INFO"; bs "MSG a.b 1 2" ++ CRLF ++ bs "hi" ++ CRLF] /\
  (queued_for s 1 = [bs "INFO"; bs "MSG a.b 2 2" ++ CRLF ++ bs "hi" ++ CRLF] \/
   queued_for s 1 = [bs "INFO"; bs "MSG a.b 3 2" ++ CRLF ++ bs "hi" ++ CRLF]).
Proof. vm_compute. split; [done |]. first [by left | by right]. Qed.

(** Facts about concrete states are checked by evaluating boolean tests. *)

Lemma after_reachable acts :
  bool_decide (is_Some (run acts (srv_init 7))) = true -> rtc srv_step (srv_init 7) (after acts).
Proof. intros H%bool_decide_eq_true. by apply after_ok. Qed.

Lemma conn_exists w c : bool_decide (is_Some (w_conns w !! c)) = true -> exists cn, w_conns w !! c = Some cn.
Proof. by intros H%bool_decide_eq_true. Qed.

Lemma conn_check w c cn (p : Conn -> bool) :
  w_conns w !! c = Some cn -> from_option p false (w_conns w !! c) = true -> p cn = true.
Proof. by intros ->. Qed.

Definition acceptsb (n : Z) (cn : Conn) : bool :=
  negb (c_closed cn) && negb (ch_rx_gone (ob_chan (c_out cn))) && (0 <=? pending (c_out cn))%Z &&
  (pending (c_out cn) + n <=? hard (c_out cn))%Z && (hard (c_out cn) <? u64_modulus)%Z.

Lemma acceptsb_spec n cn : acceptsb n cn = true -> accepts cn n.
Proof. intros H. unfold acceptsb in H. bool_to_prop. by split_and!. Qed.

Definition all_acceptb (w : World) (from : cref) (m : Msg) (l : list Sub) : bool :=
  forallb (fun ccn => c_closed ccn.2 || acceptsb (blen (concat (frames_for w from ccn.1 ccn.2 m l))) ccn.2)
          (map_to_list (w_conns w)).

Lemma all_acceptb_spec w from m l : world_wf w -> all_acceptb w from m l = true -> all_accept w from m l.
Proof.
  intros Hw H c cn Hc. split; [by apply Hw in Hc as [? _] |]. intros Hcl.
  unfold all_acceptb in H. rewrite forallb_forall in H.
  apply elem_of_map_to_list in Hc. rewrite list_elem_of_In in Hc. specialize (H _ Hc). simpl in H.
  rewrite Hcl in H. by apply acceptsb_spec.
Qed.

Lemma two_reachable : rtc srv_step (srv_init 7) two.
Proof. apply (after_reachable two_subscribers). vm_compute. reflexivity. Qed.

Lemma two_ok : srv_ok two.
Proof. apply (srv_reachable_ok 7), two_reachable. Qed.

Lemma two_wf : world_wf (sv_world two).
Proof. apply two_ok. Qed.

Lemma two_headroom : headroom (sv_world two) 2.
Proof. apply headroomb_spec. vm_compute. reflexivity. Qed.

(** ** Witnesses *)

Lemma route_list_correct_witness :
  let w := sv_world two in
  let i := cache_of (sv_caches two) 0 in
  let l := (route_list w msg_ab 0 i).2 in
  let matching := retain (fun s => matches (subject s) (msg_subject msg_ab)) (registered w) in
  blen matching = 3%Z /\ retain plain l ≡ₚ retain plain matching.
Proof.
  intros w i l matching. split; [vm_compute; reflexivity |].
  apply (route_list_correct w msg_ab 0 i); [apply two_wf | apply two_ok | |].
  - apply Z.eqb_neq. vm_compute. reflexivity.
  - apply Z.leb_le. vm_compute. reflexivity.
Defined.

Definition frame_ab : bytes := bs "MSG a.b 1 2" ++ CRLF ++ bs "hi" ++ CRLF.

Lemma route_delivers_witness :
  exists cn cn', w_conns (sv_world two) !! 0 = Some cn /\
    w_conns (route (sv_world two) msg_ab 1 interest_new).1.1 !! 0 = Some cn' /\ c_closed cn' = false /\
    ch_queue (ob_chan (c_out cn')) = ch_queue (ob_chan (c_out cn)) ++ [frame_ab].
Proof.
  destruct (conn_exists (sv_world two) 0) as [cn Hc]; [vm_compute; reflexivity |].
  assert (Hf : frames_for (sv_world two) 1 0 cn msg_ab (route_list (sv_world two) msg_ab 1 interest_new).2 =
               [frame_ab]).
  { apply (bool_decide_eq_true_1 _), (conn_check (sv_world two) 0 cn (fun cn => bool_decide
      (frames_for (sv_world two) 1 0 cn msg_ab (route_list (sv_world two) msg_ab 1 interest_new).2 = [frame_ab])));
      [done |]. vm_compute. reflexivity. }
  destruct (route_delivers (sv_world two) msg_ab 1 interest_new 0 cn) as (cn' & H1 & H2 & H3 & _);
    [apply two_wf | done | |].
  - rewrite Hf. apply acceptsb_spec, (conn_check (sv_world two) 0 cn (acceptsb (blen (concat [frame_ab]))));
      [done |]. vm_compute. reflexivity.
  - exists cn, cn'. rewrite Hf in H3. by split_and!.
Defined.

Lemma route_counts_deliveries_witness :
  count (route (sv_world two) msg_ab 0 interest_new).2 = 2%Z /\
  count (route (sv_world two) msg_ab 0 interest_new).2 =
    blen (retain (eligible (sv_world two) 0) (route_list (sv_world two) msg_ab 0 interest_new).2).
Proof.
  split; [vm_compute; reflexivity |].
  apply (route_counts_deliveries (sv_world two) msg_ab 0 interest_new); [apply two_wf |].
  apply all_acceptb_spec; [apply two_wf |]. vm_compute. reflexivity.
Defined.

Lemma subscribe_correct_witness :
  let w := sv_world two in
  let w' := (handle w 0 (EvSubscribe (bs "x") None (bs "9")) interest_new).1.1.1 in
  registered w' ≡ₚ sub_new (w_next w) (bs "x") None (bs "9") 0 :: registered w.
Proof.
  intros w w'. destruct (conn_exists w 0) as [cn Hc]; [vm_compute; reflexivity |].
  pose proof (subscribe_correct w 0 cn (bs "x") None (bs "9") interest_new) as H.
  assert (Hs : c_subs cn !! bs "9" = None).
  { apply (bool_decide_eq_true_1 _), (conn_check w 0 cn (fun cn => bool_decide (c_subs cn !! bs "9" = None)));
      [done |]. vm_compute. reflexivity. }
  cbn zeta in H. rewrite Hs in H. apply H; [apply two_ok | apply two_headroom | done].
Defined.

Lemma unsubscribe_correct_witness :
  let w := sv_world two in
  let w' := handle_unsubscribe w 0 (bs "1") (-1) in
  blen (registered w') = 2%Z /\ Forall (fun t => ~ (conn t = 0 /\ sid t = bs "1")) (registered w').
Proof.
  intros w w'. split; [vm_compute; reflexivity |]. apply Forall_forall. intros t Ht. destruct (conn_exists w 0) as [cn Hc]; [vm_compute; reflexivity |].
  pose proof (unsubscribe_correct w 0 cn (bs "1") (-1)) as H.
  assert (Hs : is_Some (c_subs cn !! bs "1")).
  { apply (bool_decide_eq_true_1 _), (conn_check w 0 cn (fun cn => bool_decide (is_Some (c_subs cn !! bs "1"))));
      [done |]. vm_compute. reflexivity. }
  destruct Hs as [sub Hs]. cbn zeta in H. rewrite Hs in H.
  rewrite (proj2 (Z.ltb_ge (Z.max 0 (delivered (cell_of w sub))) (-1))) in H by lia.
  apply H in Ht as [_ Ht]; [done | apply two_ok | apply two_headroom | done | lia].
Defined.

Lemma close_is_final_witness :
  let w' := finish (sv_world two) 1 "gone" true in
  (forall t, t ∈ registered w' <-> t ∈ registered (sv_world two) /\ conn t <> 1) /\
  stall_over w' 1 = true.
Proof.
  intros w'. destruct (conn_exists (sv_world two) 1) as [cn Hc]; [vm_compute; reflexivity |].
  destruct (close_is_final (sv_world two) 1 cn "gone" true) as (H1 & _ & H3 & _);
    [apply two_wf | apply Z.ltb_lt; vm_compute; reflexivity | done | | by split].
  apply negb_true_iff, (conn_check (sv_world two) 1 cn (fun cn => negb (c_closed cn)));
    [done |]. vm_compute. reflexivity.
Defined.

(** The second connection closed. *)
Definition one_closed : Srv := after (two_subscribers ++ [A_close 1]).

Lemma one_closed_ok : srv_ok one_closed.
Proof. apply (srv_reachable_ok 7), (after_reachable (two_subscribers ++ [A_close 1])). vm_compute. reflexivity. Qed.

(** ** The read loop on bytes *)

(** The first connection publishes. *)
Definition two_published : Srv := default two (do_act two (A_event 0 (pub "a.b" "hi"))).

Lemma two_published_step : srv_step two two_published.
Proof.
  apply (do_act_step two (A_event 0 (pub "a.b" "hi"))). unfold two_published.
  assert (H : is_Some (do_act two (A_event 0 (pub "a.b" "hi")))).
  { apply (bool_decide_eq_true_1 _). vm_compute. reflexivity. }
  by destruct H as [s ->].
Qed.

Lemma queue_order_preserved_witness :
  exists cn cn', w_conns (sv_world two) !! 1 = Some cn /\ w_conns (sv_world two_published) !! 1 = Some cn' /\
    ((exists fs, conn_queue cn' = conn_queue cn ++ fs) \/ (exists popped, conn_queue cn = popped ++ conn_queue cn')).
Proof.
  destruct (conn_exists (sv_world two) 1) as [cn Hc]; [vm_compute; reflexivity |].
  destruct (queue_order_preserved two two_published 1 cn two_published_step Hc) as (cn' & H1 & H2).
  exists cn, cn'. exact (conj Hc (conj H1 H2)).
Defined.

(** The bytes of a PING and of a publish, in one read. *)
Definition ping_pub : list Cmd := [CmdPing; CmdPub (bs "a.b") None (bs "hi")].

Lemma ping_pub_ok : Forall (cmd_ok default_limits) ping_pub.
Proof.
  repeat apply Forall_cons_2; try apply Forall_nil_2; (split; [apply Z.leb_le; reflexivity |]); [done |].
  split_and!; [apply word_check; reflexivity | apply Forall_nil_2 |].
  split; apply Z.leb_le || apply Z.ltb_lt; reflexivity.
Qed.

Lemma read_segment_in_order_witness :
  let '(w1, i1, waits, goes_on) :=
    handle_all (sv_world two) 0 [EvPing; pub "a.b" "hi"] interest_new [] in
  exists rd',
    read_one default_limits (sv_world two) 0 reader_new interest_new
      (bs "PING" ++ CRLF ++ bs "PUB a.b 2" ++ CRLF ++ bs "hi" ++ CRLF) =
      Some (if goes_on then w1 else close w1 0 "connection closed by protocol", rd', i1, waits,
            if goes_on then Next_loop else Next_return) /\
    rd_parser rd' = Line /\ rd_buf rd' = [].
Proof.
  apply (read_segment_in_order default_limits (sv_world two) 0 reader_new interest_new ping_pub);
    [reflexivity | reflexivity | discriminate | apply ping_pub_ok].
Defined.

(** A client that sends what is not a command. *)
Definition junk : bytes := bs "JUNK" ++ CRLF.

Lemma parse_error_closes_witness :
  exists w' rd' cn', read_one default_limits (sv_world two) 1 reader_new interest_new junk =
      Some (w', rd', interest_new, [], Next_break) /\
    w_conns w' !! 1 = Some cn' /\ c_closed cn' = true /\ c_subs cn' = ∅.
Proof.
  destruct (conn_exists (sv_world two) 1) as [cn Hc]; [vm_compute; reflexivity |].
  destruct (parse_error_closes default_limits (sv_world two) 1 cn reader_new interest_new junk
    (Fatal UNKNOWN_OP) Line [] []) as (w' & rd' & cn' & H1 & H2 & H3 & H4 & _);
    [apply two_ok | apply two_headroom | exact Hc | | discriminate | vm_compute; reflexivity |].
  - apply acceptsb_spec, (conn_check (sv_world two) 1 cn (acceptsb (blen (frame_err UNKNOWN_OP)))); [exact Hc |].
    vm_compute. reflexivity.
  - exists w', rd', cn'. exact (conj H1 (conj H2 (conj H3 H4))).
Defined.

(** ** Sessions with writer tasks *)

Inductive FullAct :=
| F_spawn (c : cref) (max_pending : Z)
| F_event (c : cref) (ev : Event)
| F_close (c : cref)
| F_write (c : cref) (e : WrEvent).

(** A kernel answer as [kernel_gentle] allows it. *)
Definition gentleb (t : WriteTask) (e : WrEvent) : bool :=
  match e with
  | On_kernel (Ok n) =>
      (0 <=? n)%Z && (n <=? blen (concat (parts (wt_w t))))%Z &&
      match parts (wt_w t) with [buf] => (n =? blen buf)%Z | _ => true end
  | _ => true
  end.

Lemma gentleb_spec c d t e : gentleb t e = true -> kernel_gentle c d t e.
Proof.
  intros H _. destruct e as [| | [n | err] |]; try done; [| split; [done |]; by destruct (parts (wt_w t)) as [| f []]].
  simpl in H. bool_to_prop. split; [done |]. destruct (parts (wt_w t)) as [| f [| f2 ps]]; [done | | done].
  simpl. by bool_to_prop.
Qed.

Definition do_full (f : Full) (a : FullAct) : option Full :=
  let s := fu_srv f in
  match a with
  | F_spawn c mp => s' ← do_act s (A_spawn c mp); Some (mkFull s' (<[c := task_new]> (fu_tasks f)))
  | F_event c ev => s' ← do_act s (A_event c ev); Some (mkFull s' (fu_tasks f))
  | F_close c => s' ← do_act s (A_close c); Some (mkFull s' (fu_tasks f))
  | F_write c e =>
      t ← fu_tasks f !! c;
      if headroomb (sv_world s) 2 && gentleb t e
      then '(w', t') ← write_step (sv_world s) c t e; Some (mkFull (mkSrv w' (sv_caches s)) (<[c := t']> (fu_tasks f)))
      else None
  end.

Definition run_full (acts : list FullAct) (f : Full) : option Full :=
  foldl (fun f a => f ≫= fun f => do_full f a) (Some f) acts.

Lemma do_full_step d f a f' : do_full f a = Some f' -> gentle_step d f f'.
Proof.
  destruct f as [[w caches] tasks]. destruct a as [c mp | c ev | c | c e]; simpl.
  - case_bool_decide; [| done]. intros [= <-]. by apply fs_spawn.
  - destruct (_ && _) eqn:E; [| done]. bool_to_prop.
    destruct (handle w c ev (cache_of caches c)) as [[[w' i'] waits] b] eqn:Hh. intros [= <-].
    apply fs_read. eapply rd_event; [done | | by apply headroomb_spec | exact Hh].
    destruct ev; try done. simpl in *. by bool_to_prop.
  - destruct (headroomb w 2) eqn:E; [| done]. intros [= <-]. by apply fs_read, rd_close, headroomb_spec.
  - destruct (tasks !! c) as [t |] eqn:Ht; [| done]. simpl.
    destruct (_ && _) eqn:E; [| done]. bool_to_prop. destruct (write_step w c t e) as [[w' t'] |] eqn:Hw; [| done]. intros [= <-].
    eapply fs_write; [exact Ht | by apply gentleb_spec | by apply headroomb_spec | exact Hw].
Qed.

Lemma run_full_reachable d acts f f' : run_full acts f = Some f' -> rtc (gentle_step d) f f'.
Proof.
  revert f. induction acts as [| a acts IH]; intros f H.
  - injection H as <-. apply rtc_refl.
  - unfold run_full in H. simpl in H. destruct (do_full f a) as [f1 |] eqn:Ha.
    + eapply rtc_l; [by eapply do_full_step | by apply IH].
    + exfalso. clear -H. induction acts as [| a acts IH]; simpl in H; [done | by apply IH].
Qed.

Definition full_after (acts : list FullAct) : Full := default (full_init 7) (run_full acts (full_init 7)).

Lemma full_after_gentle d acts :
  bool_decide (is_Some (run_full acts (full_init 7))) = true -> rtc (gentle_step d) (full_init 7) (full_after acts).
Proof. intros [f Hf]%bool_decide_eq_true. unfold full_after. rewrite Hf. by apply (run_full_reachable d acts). Qed.

Lemma full_after_reachable acts :
  bool_decide (is_Some (run_full acts (full_init 7))) = true -> rtc full_step (full_init 7) (full_after acts).
Proof. intros H. by eapply (gentle_run_full 0), full_after_gentle. Qed.

(** A session that goes on from another. *)
Lemma full_after_more d acts more :
  bool_decide (is_Some (run_full (acts ++ more) (full_init 7))) = true ->
  rtc (gentle_step d) (full_after acts) (full_after (acts ++ more)).
Proof.
  intros [f Hf]%bool_decide_eq_true. unfold full_after. rewrite Hf. simpl. unfold run_full in *.
  rewrite foldl_app in Hf. destruct (foldl _ (Some (full_init 7)) acts) as [g |]; [by eapply run_full_reachable |].
  exfalso. clear -Hf. induction more as [| a more IH]; simpl in Hf; [done | by apply IH].
Qed.

Lemma conn_at_check f c (p : Conn -> WriteTask -> bool) :
  match w_conns (sv_world (fu_srv f)) !! c, fu_tasks f !! c with Some cn, Some t => p cn t | _, _ => false end = true ->
  exists cn t, conn_at f c cn t /\ p cn t = true.
Proof.
  unfold conn_at. destruct (w_conns (sv_world (fu_srv f)) !! c) as [cn |]; [| done].
  destruct (fu_tasks f !! c) as [t |]; [| done]. intros H. by exists cn, t.
Qed.

(** A connection is spawned, pings twice, and its writer is in the middle of the
    batch; then it is closed. *)
Definition half_written : list FullAct :=
  [F_spawn 0 1000; F_event 0 EvPing; F_write 0 On_run; F_write 0 On_run; F_write 0 On_run; F_event 0 EvPing;
   F_write 0 On_run; F_write 0 On_run; F_write 0 (On_kernel (Ok 7%Z))].

Definition half_closed : list FullAct := half_written ++ [F_close 0].

Example half_closed_flushes :
  let f := full_after (half_closed ++ [F_write 0 On_run; F_write 0 On_run; F_write 0 (On_kernel (Ok 3%Z));
    F_write 0 On_run; F_write 0 On_run; F_write 0 On_run; F_write 0 On_run; F_write 0 (On_kernel (Ok 6%Z));
    F_write 0 On_run; F_write 0 On_run]) in
  option_map (fun t => (wt_phase t, wt_wire t)) (fu_tasks f !! 0) =
    Some (Wr_ended, bs "INFO" ++ frame_pong ++ frame_pong).
Proof. vm_compute. reflexivity. Qed.

Lemma write_loop_refines_server_witness :
  rtc srv_step (srv_init 7) (fu_srv (full_after half_written)) /\
  exists cn, w_conns (sv_world (fu_srv (full_after half_written))) !! 0 = Some cn /\
    exists t, fu_tasks (full_after half_written) !! 0 = Some t /\
      pending (c_out cn) = wrap64 (queue_bytes (c_out cn) + batch_bytes (wt_w t)).
Proof.
  destruct (write_loop_refines_server 7 (full_after half_written)) as [H1 H2];
    [apply full_after_reachable; vm_compute; reflexivity |].
  split; [exact H1 |].
  destruct (conn_exists (sv_world (fu_srv (full_after half_written))) 0) as [cn Hc]; [vm_compute; reflexivity |].
  exists cn. split; [exact Hc |]. destruct (H2 0 cn Hc) as (t & Ht & _ & Hp). exists t. split; [exact Ht |].
  apply Hp, negb_true_iff, (conn_check _ 0 cn (fun cn => negb (c_closed cn)) Hc). vm_compute. reflexivity.
Defined.

Lemma stream_in_order_witness :
  let f1 := full_after [F_spawn 0 1000; F_event 0 EvPing] in
  let f2 := full_after ([F_spawn 0 1000; F_event 0 EvPing] ++
    [F_write 0 On_run; F_write 0 On_run; F_write 0 On_run; F_event 0 EvPing;
     F_write 0 On_run; F_write 0 On_run; F_write 0 (On_kernel (Ok 7%Z))]) in
  exists cn1 t1 cn2 t2, conn_at f1 0 cn1 t1 /\ conn_at f2 0 cn2 t2 /\
    conn_stream cn1 t1 `prefix_of` conn_stream cn2 t2 /\ wt_wire t2 = take 7 (conn_stream cn1 t1).
Proof.
  intros f1 f2.
  destruct (conn_at_check f1 0 (fun cn t => bool_decide (conn_stream cn t = bs "INFO" ++ frame_pong)))
    as (cn1 & t1 & Hat1 & H1); [vm_compute; reflexivity |]. apply bool_decide_eq_true in H1.
  destruct (conn_at_check f2 0 (fun cn t => negb (c_closed cn) && bool_decide (wt_wire t = take 7 (bs "INFO" ++ frame_pong))))
    as (cn2 & t2 & Hat2 & H2); [vm_compute; reflexivity |].
  apply andb_true_iff in H2 as [H2 H3]. apply negb_true_iff in H2. apply bool_decide_eq_true in H3.
  exists cn1, t1, cn2, t2. split; [exact Hat1 |]. split; [exact Hat2 |]. split; [| rewrite H1; exact H3].
  apply (stream_in_order 7 0 f1 f2 cn1 t1 cn2 t2); [| | exact Hat1 | exact Hat2 | exact H2].
  - apply full_after_gentle. vm_compute. reflexivity.
  - apply full_after_more. vm_compute. reflexivity.
Defined.

(** A quiet publisher and a subscriber whose writer has written the INFO line. *)
Definition pub_sub : list FullAct :=
  [F_spawn 0 1000; F_spawn 1 1000; F_event 0 (EvConnect (flat_text "verbose" false));
   F_event 1 (EvConnect (flat_text "verbose" false)); F_event 1 (EvSubscribe (bs "a.*") None (bs "2"));
   F_write 1 On_run; F_write 1 On_run; F_write 1 On_run; F_write 1 On_run; F_write 1 On_run;
   F_write 1 (On_kernel (Ok 4%Z))].

Definition pub_ab : Cmd := CmdPub (bs "a.b") None (bs "hi").

Lemma publish_reaches_socket_witness :
  let f := full_after pub_sub in
  exists cn t f1 rd' i' waits, conn_at f 1 cn t /\ wt_wire t = bs "INFO" /\
    read_one default_limits (sv_world (fu_srv f)) 0 reader_new interest_new (bs "PUB a.b 2" ++ CRLF ++ bs "hi" ++ CRLF) =
      Some (sv_world (fu_srv f1), rd', i', waits, Next_loop) /\
    forall f2 cn2 t2, rtc (gentle_step 1) f1 f2 -> conn_at f2 1 cn2 t2 -> c_closed cn2 = false ->
      forall w3 t3, rtc (flush_step 1) (sv_world (fu_srv f2), t2) (w3, t3) -> nf (flush_step 1) (w3, t3) ->
        exists later, wt_wire t3 = bs "INFO" ++ (bs "MSG a.b 2 2" ++ CRLF ++ bs "hi" ++ CRLF) ++ later.
Proof.
  intros f.
  set (frames := fun cn => frames_for (sv_world (fu_srv f)) 0 1 cn msg_ab
         (route_list (sv_world (fu_srv f)) msg_ab 0 (cache_of (sv_caches (fu_srv f)) 0)).2).
  destruct (conn_at_check f 1 (fun cn t => bool_decide (wt_wire t = bs "INFO") && bool_decide (conn_stream cn t = bs "INFO") &&
      bool_decide (concat (frames cn) = bs "MSG a.b 2 2" ++ CRLF ++ bs "hi" ++ CRLF) &&
      acceptsb (blen (concat (frames cn))) cn)) as (cn & t & Hat & H); [vm_compute; reflexivity |].
  apply andb_true_iff in H as [H Ha]. apply andb_true_iff in H as [H Hf]. apply andb_true_iff in H as [Hw Hs].
  apply bool_decide_eq_true in Hw, Hs, Hf. apply acceptsb_spec in Ha.
  destruct (publish_reaches_socket 7 default_limits 0 1 f reader_new pub_ab msg_ab cn t) as (f1 & rd' & waits & Hr & _ & H);
    [ | exact Hat | exact Ha | | | reflexivity | reflexivity | | reflexivity | | vm_compute; reflexivity |].
  - apply full_after_gentle. vm_compute. reflexivity.
  - apply (bool_decide_eq_true_1 _). vm_compute. reflexivity.
  - apply headroomb_spec. vm_compute. reflexivity.
  - exact (Forall_inv (Forall_inv_tail ping_pub_ok)).
  - split; vm_compute; reflexivity.
  - exists cn, t, f1, rd', (cache_of (sv_caches (fu_srv f1)) 0), waits.
    split; [exact Hat |]. split; [exact Hw |]. split; [exact Hr |].
    intros f2 cn2 t2 H2 Hat2 Hcl w3 t3 H3 Hnf. destruct (H f2 cn2 t2 H2 Hat2 Hcl) as [_ Hend].
    destruct (Hend w3 t3 H3 Hnf) as [later Hl]. exists later. rewrite Hl. fold (frames cn). rewrite Hs, Hf. reflexivity.
Defined.

(** The state of the writer's task, as a test. *)
Definition writer_okb (t : WriteTask) : bool :=
  bool_decide (batch_bytes (wt_w t) = blen (concat (parts (wt_w t)))) &&
  forallb (fun b => negb (is_empty b)) (parts (wt_w t)) &&
  match wt_phase t with Wr_check => negb (is_empty (parts (wt_w t))) | _ => false end.

Lemma writer_okb_spec cn t : writer_okb t = true -> writer_inv (wt_w t) /\ flush_phase cn t.
Proof.
  unfold writer_okb, flush_phase, writer_inv. intros H. bool_to_prop. split.
  - split; [done |]. rewrite Forall_forall. rewrite forallb_forall in *. intros b Hb.
    apply list_elem_of_In in Hb. match goal with H : _ |- _ => specialize (H b Hb); by destruct b end.
  - destruct (wt_phase t); try done. by destruct (parts (wt_w t)).
Qed.

Lemma soft_close_flushes_witness :
  let f := full_after half_closed in
  exists t, fu_tasks f !! 0 = Some t /\ sn (flush_step 0) (sv_world (fu_srv f), t).
Proof.
  intros f. destruct (conn_exists (sv_world (fu_srv f)) 0) as [cn Hc]; [vm_compute; reflexivity |].
  assert (Ht : exists t, fu_tasks f !! 0 = Some t /\ writer_okb t = true).
  { assert (H : from_option writer_okb false (fu_tasks f !! 0) = true) by (vm_compute; reflexivity).
    destruct (fu_tasks f !! 0) as [t |]; [exists t; exact (conj eq_refl H) | discriminate H]. }
  destruct Ht as (t & Ht & Hb). exists t. split; [exact Ht |]. destruct (writer_okb_spec cn t Hb) as [Hw Hp].
  assert (Hok : full_ok f) by (apply (full_reachable_ok 7), full_after_reachable; vm_compute; reflexivity).
  apply (soft_close_flushes (sv_world (fu_srv f)) 0 cn t); [exact Hc | | | | exact Hw | exact Hp].
  - destruct Hok as [[[(_ & Hcs & _) _] _] _]. exact (proj1 (Hcs 0 cn Hc)).
  - apply (conn_check _ 0 cn c_closed Hc). vm_compute. reflexivity.
  - apply negb_true_iff, (conn_check _ 0 cn (fun cn => negb (c_hard cn)) Hc). vm_compute. reflexivity.
Defined.

(** ** Sessions of all tasks *)

Inductive TaskAct :=
| Ta_spawn (c : cref) (max_pending : Z)
| Ta_read (c : cref) (e : RtEvent)
| Ta_write (c : cref) (e : WrEvent)
| Ta_end (c : cref) (late : bool).

Definition do_task (s : Tasks) (a : TaskAct) : option Tasks :=
  let f := ts_full s in
  let w := sv_world (fu_srv f) in
  let caches := sv_caches (fu_srv f) in
  match a with
  | Ta_spawn c mp => f' ← do_full f (F_spawn c mp); Some (mkTasks f' (<[c := read_task_new]> (ts_readers s)))
  | Ta_read c e =>
      t ← ts_readers s !! c;
      if headroomb w (2 * (Z.of_nat (w_next w) + 4)) then
        '(w', i', t') ← read_task default_limits w c (cache_of caches c) t e;
        Some (mkTasks (mkFull (mkSrv w' (<[c := i']> caches)) (fu_tasks f)) (<[c := t']> (ts_readers s)))
      else None
  | Ta_write c e => f' ← do_full f (F_write c e); Some (mkTasks f' (ts_readers s))
  | Ta_end c late =>
      t ← ts_readers s !! c;
      if rt_phase t is Rt_done
      then Some (mkTasks (mkFull (mkSrv (spawn_end w c late) caches) (fu_tasks f)) (ts_readers s)) else None
  end.

Definition run_tasks (acts : list TaskAct) (s : Tasks) : option Tasks :=
  foldl (fun s a => s ≫= fun s => do_task s a) (Some s) acts.

Lemma do_task_step s a s' : do_task s a = Some s' -> tasks_step default_limits s s'.
Proof.
  destruct s as [[[w caches] writers] readers]. destruct a as [c mp | c e | c e | c late]; simpl.
  - case_bool_decide; [| done]. intros [= <-]. by apply tk_spawn.
  - destruct (readers !! c) as [t |] eqn:Ht; [| done]. simpl. destruct (headroomb w _) eqn:Hh; [| done].
    destruct (read_task _ w c _ t e) as [[[w' i'] t'] |] eqn:Hr; [| done]. intros [= <-].
    eapply tk_read; [exact Ht | | exact Hr]. unfold room_for. apply headroomb_spec in Hh as [? ?].
    split; [done |]. simpl. lia.
  - destruct (writers !! c) as [t |] eqn:Ht; [| done]. simpl. destruct (_ && _) eqn:E; [| done]. bool_to_prop.
    destruct (write_step w c t e) as [[w' t'] |] eqn:Hw; [| done]. intros [= <-].
    eapply tk_write; [exact Ht | by apply headroomb_spec | exact Hw].
  - destruct (readers !! c) as [t |] eqn:Ht; [| done]. simpl. destruct (rt_phase t) eqn:Hp; try done. intros [= <-].
    by eapply tk_end.
Qed.

Lemma run_tasks_reachable acts s s' : run_tasks acts s = Some s' -> rtc (tasks_step default_limits) s s'.
Proof.
  revert s. induction acts as [| a acts IH]; intros s H.
  - injection H as <-. apply rtc_refl.
  - unfold run_tasks in H. simpl in H. destruct (do_task s a) as [s1 |] eqn:Ha.
    + eapply rtc_l; [by eapply do_task_step | by apply IH].
    + exfalso. clear -H. induction acts as [| a acts IH]; simpl in H; [done | by apply IH].
Qed.

Definition tasks_after (acts : list TaskAct) : Tasks := default (tasks_init 7) (run_tasks acts (tasks_init 7)).

(** The text of one read, and the loop back to the next. *)
Definition one_read (c : cref) (chunk : bytes) (n : nat) : list TaskAct :=
  [Ta_read c Rt_go; Ta_read c (Rt_wakes (Wk_read chunk))] ++ repeat (Ta_read c Rt_go) n.

(** Connection 0 takes at most 100 bytes and subscribes; 1 publishes 60 to it and
    waits for room. *)
Definition stalled_publish : list TaskAct :=
  [Ta_spawn 0 100; Ta_spawn 1 1000] ++
  one_read 0 (bs "SUB a 1" ++ CRLF) 3 ++
  one_read 1 (bs "PUB a 60" ++ CRLF ++ replicate 60 x78 ++ CRLF ++ bs "PING" ++ CRLF) 1.

Definition stalled_tasks : Tasks := tasks_after stalled_publish.

(** Then the writer of 0 takes the frames, and 1 goes on with its batch; then 0's
    client goes away and its tasks end. *)
Definition stall_released : list TaskAct :=
  stalled_publish ++ repeat (Ta_write 0 On_run) 5 ++ [Ta_write 0 (On_kernel (Ok 50%Z)); Ta_read 1 Rt_released] ++
  [Ta_read 1 Rt_go; Ta_read 1 Rt_go; Ta_read 1 Rt_go; Ta_read 1 Rt_go] ++ one_read 0 [] 0 ++ [Ta_end 0 true].

Example stalled_then_released :
  option_map rt_phase (ts_readers stalled_tasks !! 1) = Some (Rt_wait [0] [EvPing]) /\
  option_map rt_phase (ts_readers (tasks_after stall_released) !! 1) = Some Rt_top /\
  option_map rt_phase (ts_readers (tasks_after stall_released) !! 0) = Some Rt_done.
Proof. vm_compute. split_and!; reflexivity. Qed.

Lemma reader_tasks_refine_server_witness :
  rtc full_step (full_init 7) (ts_full stalled_tasks) /\
  exists t, ts_readers stalled_tasks !! 1 = Some t /\ rt_phase t = Rt_wait [0] [EvPing] /\
    sn (batch_step default_limits 1) t /\
    forall e r, read_task default_limits (sv_world (fu_srv (ts_full stalled_tasks))) 1
      (cache_of (sv_caches (fu_srv (ts_full stalled_tasks))) 1) t e = Some r ->
      e = Rt_released /\ stall_over (sv_world (fu_srv (ts_full stalled_tasks))) 0 = true.
Proof.
  destruct (reader_tasks_refine_server default_limits 7 stalled_tasks) as [H1 H2].
  { apply (run_tasks_reachable stalled_publish). vm_compute. reflexivity. }
  split; [exact H1 |].
  assert (Ht : exists t, ts_readers stalled_tasks !! 1 = Some t /\ rt_phase t = Rt_wait [0] [EvPing])
    by (vm_compute; eexists; split; reflexivity).
  destruct Ht as (t & Ht & Hp). exists t. destruct (H2 1 t Ht) as (_ & Hsn & Hw). rewrite Hp in Hw.
  split; [exact Ht |]. split; [exact Hp |]. split; [exact Hsn | exact (proj1 Hw)].
Defined.

(** The writer of 0 is still running when its connection's task ends. *)
Lemma backstop_never_acts_witness :
  let s := tasks_after stall_released in
  let w := sv_world (fu_srv (ts_full s)) in
  option_map wt_phase (fu_tasks (ts_full s) !! 0) = Some Wr_check /\ spawn_end w 0 true = w.
Proof.
  intros s w. split; [vm_compute; reflexivity |].
  assert (Ht : exists t, ts_readers s !! 0 = Some t /\ rt_phase t = Rt_done)
    by (vm_compute; eexists; split; reflexivity).
  destruct Ht as (t & Ht & Hp).
  apply (backstop_never_acts default_limits 7 s 0 t true); [| exact Ht | exact Hp].
  apply (run_tasks_reachable stall_released). vm_compute. reflexivity.
Defined.

(** ** What the code does in sessions the contract speaks of *)

(** A connection subscribes, limits the subscription to one message, and gets it. *)
Definition limited : list Act :=
  [A_spawn 0 1000; A_event 0 (EvConnect (flat_text "verbose" false));
   A_event 0 (EvSubscribe (bs "a") None (bs "1")); A_event 0 (EvUnsubscribe (bs "1") 1);
   A_event 0 (pub "a" "hi")].

(** A session with an expired sid: the later SUB is taken for a re-use, answered as
    if it had been accepted, and ignored; the message to it is not delivered. *)
Example expired_sid_ignored :
  let s1 := after limited in
  let s2 := after (limited ++ [A_event 0 (EvSubscribe (bs "a") None (bs "1")); A_event 0 (pub "a" "again")]) in
  queued_for s1 0 = [bs "INFO"; bs "MSG a 1 2" ++ CRLF ++ bs "hi" ++ CRLF] /\
  registered (sv_world s1) = [] /\ is_Some (subs_of (sv_world s1) 0 !! bs "1") /\
  registered (sv_world s2) = [] /\ queued_for s2 0 = queued_for s1 0.
Proof.
  intros s1 s2. split; [vm_compute; reflexivity |]. split; [vm_compute; reflexivity |].
  split; [apply (bool_decide_eq_true_1 _); vm_compute; reflexivity |].
  split; vm_compute; reflexivity.
Qed.

(** A message published to a wildcard subject by a client with [pedantic] off is
    delivered to the subscription whose filter is that very text: the filter is
    compared token by token with the subject as published. *)
Lemma wildcard_publish_is_delivered :
  let s := after [A_spawn 0 1000; A_event 0 (EvConnect (flat_text "verbose" false));
                  A_event 0 (EvConnect (flat_text "pedantic" false));
                  A_event 0 (EvSubscribe (bs "a.*") None (bs "1")); A_event 0 (pub "a.*" "hi")] in
  queued_for s 0 = [bs "INFO"; bs "MSG a.* 1 2" ++ CRLF ++ bs "hi" ++ CRLF].
Proof. vm_compute. reflexivity. Qed.
