(* ===== verification/RaceRuns.v ===== *)
(** * Concrete races

    Schedules of the tasks of Races on a concrete server, one access at a time: they
    show that the bound on delivery limits is reached, and what an expiry does to a
    subscription made anew under the same sid while it was under way. *)

From Stdlib Require Import String Strings.Byte.
From stdpp Require Import relations.
From S2P Require Import Prelude Subjects Proto Nuid Frames External Arena Outbox Options Registry Interest QueueGroups Conn Route Client Server RouteSteps Races LimitRace LiveSteps Lasting Scenarios.

#[local] Existing Instance simple_bytesmut.
#[local] Existing Instance list_channel.
#[local] Existing Instance flat_json.

(** ** Schedules *)

(** A task begins, or does [n] steps. *)
Inductive Turn :=
| T_start (c : cref) (ev : TaskEv)
| T_run (c : cref) (n : nat).

Fixpoint run_task (s : Par) (c : cref) (n : nat) : option (list Label * Par) :=
  match n with
  | 0 => Some ([], s)
  | S n =>
      match task_step s c with
      | Some s1 => '(ls, s2) ← run_task s1 c n; Some (label s c s1 :: ls, s2)
      | None => None
      end
  end.

#[global] Instance can_start_dec w c ev : Decision (can_start w c ev).
Proof. destruct ev; simpl; apply _. Defined.

Definition do_turn (allowed : cref -> TaskEv -> bool) (s : Par) (t : Turn) : option (list Label * Par) :=
  match t with
  | T_start c ev =>
      if is_empty (tk_code (task_of s c)) && allowed c ev && bool_decide (can_start (p_world s) c ev)
      then Some ([L_tau], start s c ev) else None
  | T_run c n => run_task s c n
  end.

Fixpoint schedule (allowed : cref -> TaskEv -> bool) (s : Par) (ts : list Turn) : option (list Label * Par) :=
  match ts with
  | [] => Some ([], s)
  | t :: ts =>
      '(l1, s1) ← do_turn allowed s t;
      '(l2, s2) ← schedule allowed s1 ts;
      Some (l1 ++ l2, s2)
  end.

(** ** Lemmas *)

Lemma live_app may s1 l1 s2 l2 s3 :
  live may s1 l1 s2 -> live may s2 l2 s3 -> live may s1 (l1 ++ l2) s3.
Proof. intros H1 H2. induction H1; simpl; [done |]. econstructor; [done | auto]. Qed.

Lemma run_task_live may s c n ls s' : run_task s c n = Some (ls, s') -> live may s ls s'.
Proof.
  revert s ls. induction n as [| n IH]; intros s ls H; simpl in H; [simplify_eq; constructor |].
  destruct (task_step s c) as [s1 |] eqn:E; [| done].
  destruct (run_task s1 c n) as [[l1 s2] |] eqn:E1; simpl in H; simplify_eq.
  econstructor; [by apply ls_run | by apply IH].
Qed.

Lemma schedule_live may allowed s ts ls s' :
  (forall c ev, allowed c ev = true -> may c ev) ->
  schedule allowed s ts = Some (ls, s') -> live may s ls s'.
Proof.
  intros Hmay. revert s ls. induction ts as [| t ts IH]; intros s ls H; simpl in H; [simplify_eq; constructor |].
  destruct (do_turn allowed s t) as [[l1 s1] |] eqn:E1; simpl in H; [| done].
  destruct (schedule allowed s1 ts) as [[l2 s2] |] eqn:E2; simpl in H; simplify_eq.
  apply (live_app may _ _ s1); [| by apply IH]. destruct t as [c ev | c n]; simpl in E1.
  - destruct (tk_code (task_of s c)) eqn:Ec; simpl in E1; [| done]. destruct (allowed c ev) eqn:E; [| done].
    simpl in E1. case_bool_decide; simplify_eq. econstructor; [| constructor]. apply ls_start; auto.
  - by apply (run_task_live may _ c n).
Qed.

(** The state after a schedule, and what it showed. *)
Definition after_schedule (allowed : cref -> TaskEv -> bool) (s : Par) (ts : list Turn) : list Label * Par :=
  default ([], s) (schedule allowed s ts).

Lemma after_schedule_live may allowed s ts :
  (forall c ev, allowed c ev = true -> may c ev) -> bool_decide (is_Some (schedule allowed s ts)) = true ->
  live may s (after_schedule allowed s ts).1 (after_schedule allowed s ts).2.
Proof.
  intros Hmay [[ls s'] H]%bool_decide_eq_true. unfold after_schedule. rewrite H. by apply (schedule_live may allowed s ts).
Qed.

Lemma after_schedule_trace may allowed s ts :
  (forall c ev, allowed c ev = true -> may c ev) -> bool_decide (is_Some (schedule allowed s ts)) = true ->
  trace may s (after_schedule allowed s ts).1 (after_schedule allowed s ts).2.
Proof. intros H1 H2. by apply live_trace, after_schedule_live. Qed.

Lemma idle_tasks (s : Par) :
  Forall (fun ct => tk_code ct.2 = []) (map_to_list (p_tasks s)) -> forall c, tk_code (task_of s c) = [].
Proof.
  intros H c. unfold task_of. destruct (p_tasks s !! c) as [t |] eqn:E; [| done]. simpl.
  rewrite Forall_forall in H. apply (H (c, t)). by apply elem_of_map_to_list.
Qed.

(** ** A limit of one and two publishers *)

(** Connection 0 asks for one message; 1 and 2 publish. *)
Definition one_wanted : Srv :=
  after [A_spawn 0 1000; A_spawn 1 1000; A_spawn 2 1000;
         A_event 0 (EvSubscribe (bs "a") None (bs "1")); A_event 0 (EvUnsubscribe (bs "1") 1)].

Definition wanted : Sub := sub_new 0 (bs "a") None (bs "1") 0.

Definition msg_a : Msg := mkMsg (bs "a") None 0 (bs "hi").

Definition both_publish : list Turn :=
  [T_start 1 (Te_publish msg_a); T_start 2 (Te_publish msg_a); T_run 1 4; T_run 2 4; T_run 1 6; T_run 2 6].

Definition two_publishers : gset cref := {[1; 2]}.

(** Only 1 and 2 publish, and nobody unsubscribes [wanted]. *)
Definition allowed_two (c : cref) (ev : TaskEv) : bool :=
  match ev with
  | Te_publish _ => bool_decide (c ∈ two_publishers)
  | Te_unsubscribe s _ => negb (bool_decide (c = 0) && bool_decide (s = bs "1"))
  | _ => true
  end.

Lemma allowed_two_may c ev : allowed_two c ev = true -> may_start wanted two_publishers c ev.
Proof. destruct ev; simpl; intros H; bool_to_prop; try done. intros [-> ->]. by vm_compute in H. Qed.

Definition after_both : list Label * Par := after_schedule allowed_two (par_new (sv_world one_wanted)) both_publish.

Lemma both_trace :
  trace (may_start wanted two_publishers) (par_new (sv_world one_wanted)) after_both.1 after_both.2.
Proof. apply after_schedule_trace; [exact allowed_two_may |]. vm_compute. reflexivity. Qed.

Lemma one_wanted_ok : srv_ok one_wanted.
Proof. apply (srv_reachable_ok 7), after_reachable. vm_compute. reflexivity. Qed.

Lemma one_wanted_wf : world_wf (sv_world one_wanted).
Proof. apply one_wanted_ok. Qed.

(** The bound is reached: one message was wanted, and both were delivered. *)
Example limit_exceeded_by_race :
  w_cells (sv_world one_wanted) !! 0 = Some (mkCell 0 1) /\
  w_cells (p_world after_both.2) !! 0 = Some (mkCell 2 1) /\
  drop 3 (queued_for (mkSrv (p_world after_both.2) ∅) 0) =
    [bs "MSG a 1 2" ++ CRLF ++ bs "hi" ++ CRLF; bs "MSG a 1 2" ++ CRLF ++ bs "hi" ++ CRLF].
Proof. vm_compute. split_and!; reflexivity. Qed.


Lemma registry_linearizable_witness :
  spec_run (registered (sv_world one_wanted)) after_both.1 (all_subs (p_inner after_both.2)) /\
  total (p_inner after_both.2) = blen (all_subs (p_inner after_both.2)) /\
  (p_lock after_both.2 = None -> inner (w_reg (p_world after_both.2)) = p_inner after_both.2) /\
  (forall c, tk_code (task_of after_both.2 c) <> [] -> task_step after_both.2 c = None ->
     exists d s', p_lock after_both.2 = Some d /\ task_step after_both.2 d = Some s' /\ p_lock s' = None).
Proof.
  apply (registry_linearizable (sv_world one_wanted) (may_start wanted two_publishers) after_both.1 after_both.2).
  - apply one_wanted_wf.
  - vm_compute. discriminate.
  - vm_compute. reflexivity.
  - apply both_trace.
Defined.

(** ** An expiry that meets a new subscription *)

(** The publish of 1 has delivered the one message and is about to take the spent
    subscription out; connection 0 unsubscribes the sid and subscribes again with
    it; then 1 goes on. *)
Definition resubscribe : list Turn :=
  [T_start 1 (Te_publish msg_a); T_run 1 8;
   T_start 0 (Te_unsubscribe (bs "1") 0); T_run 0 6;
   T_start 0 (Te_subscribe (bs "a") None (bs "1")); T_run 0 4;
   T_run 1 3].

Definition after_resubscribe : list Label * Par :=
  after_schedule (fun _ _ => true) (par_new (sv_world one_wanted)) resubscribe.

Definition renewed : Sub := sub_new 1 (bs "a") None (bs "1") 0.


(** ** Two more races *)

(** Connection 0 has a subscription without a limit. *)
Definition unlimited : Srv :=
  after [A_spawn 0 1000; A_spawn 1 1000; A_event 0 (EvSubscribe (bs "a") None (bs "1"))].

Definition after_unlimited (ts : list Turn) : list Label * Par :=
  after_schedule (fun _ _ => true) (par_new (sv_world unlimited)) ts.

Definition publish_during_unsub : list Turn :=
  [T_start 0 (Te_unsubscribe (bs "1") 1); T_run 0 2; T_start 1 (Te_publish msg_a); T_run 1 9;
   T_run 0 1; T_start 1 (Te_publish msg_a); T_run 1 7].

(** [set_limit] compares with the deliveries and stores the limit afterwards: a
    delivery in between is compared with the old limit, and with one publisher a
    subscription that asked for one message in all gets two. *)
Example unsub_checks_before_it_stores :
  let s := (after_unlimited publish_during_unsub).2 in
  trace (fun _ _ => True) (par_new (sv_world unlimited)) (after_unlimited publish_during_unsub).1 s /\
  w_cells (p_world s) !! 0 = Some (mkCell 2 1) /\
  drop 2 (queued_for (mkSrv (p_world s) ∅) 0) =
    [bs "MSG a 1 2" ++ CRLF ++ bs "hi" ++ CRLF; bs "MSG a 1 2" ++ CRLF ++ bs "hi" ++ CRLF].
Proof.
  intros s. split; [apply after_schedule_trace; [done |]; vm_compute; reflexivity |].
  split; vm_compute; reflexivity.
Qed.

Definition close_during_sub : list Turn :=
  [T_start 0 (Te_subscribe (bs "b") None (bs "2")); T_run 0 1;
   T_start 9 (Te_close 0 "write failed" false); T_run 9 4; T_run 0 3].

(** A close that falls between the look at the table and the registration of a SUB
    removes nothing of it: the registry keeps the subscription of a closed connection. *)
Example close_races_subscribe :
  let s := (after_unlimited close_during_sub).2 in
  trace (fun _ _ => True) (par_new (sv_world unlimited)) (after_unlimited close_during_sub).1 s /\
  (forall c, tk_code (task_of s c) = []) /\ is_closed (p_world s) 0 = true /\
  registered (p_world s) = [sub_new 1 (bs "b") None (bs "2") 0].
Proof.
  intros s. split; [apply after_schedule_trace; [done |]; vm_compute; reflexivity |].
  split; [apply idle_tasks; vm_compute; by repeat constructor |]. split; vm_compute; reflexivity.
Qed.

(** ** The invariant in the middle of a SUB *)

(** Connection 0 has registered a second subscription and not filed it yet, and is
    still inside of the critical section, while 1 begins to publish. *)
Definition during_sub : list Label * Par :=
  after_unlimited [T_start 0 (Te_subscribe (bs "b") None (bs "2")); T_run 0 2;
                   T_start 1 (Te_publish msg_a); T_run 1 1].

Lemma unlimited_ok : srv_ok unlimited.
Proof. apply (srv_reachable_ok 7), after_reachable. vm_compute. reflexivity. Qed.

Lemma race_invariant_witness :
  let x := sub_new 1 (bs "b") None (bs "2") 0 in
  let s := during_sub.2 in
  x ∈ registered (p_world s) /\ p_lock s = Some 0 /\ I_table x ∈ tk_code (task_of s 0) /\
  subscription_count (w_reg (p_world s)) = blen (registered (p_world s)) /\
  (known (p_world s) x \/ I_table x ∈ tk_code (task_of s (conn x)) \/
   I_lock (Lk_remove x) ∈ tk_code (task_of s (conn x)) \/ I_bump (Lk_remove x) ∈ tk_code (task_of s (conn x)) \/
   shut (p_world s) (conn x)).
Proof.
  intros x s.
  assert (Hx : x ∈ registered (p_world s)) by (apply list_elem_of_In; vm_compute; tauto).
  destruct (race_invariant (sv_world unlimited) (fun _ _ => True) during_sub.1 s) as (_ & Hn & _ & Hk & _).
  - apply unlimited_ok.
  - vm_compute. discriminate.
  - vm_compute. reflexivity.
  - apply after_schedule_live; [done |]. vm_compute. reflexivity.
  - split; [exact Hx |]. split; [vm_compute; reflexivity |].
    split; [apply list_elem_of_In; vm_compute; right; left; reflexivity |]. split; [exact Hn | exact (Hk x Hx)].
Defined.

(** ** What lasts *)

(** Who publishes, subscribes and closes, but does not unsubscribe. *)
Definition no_unsub (c : cref) (ev : TaskEv) : bool := if ev is Te_unsubscribe _ _ then false else true.

Lemma no_unsub_keeps c k d ev : no_unsub d ev = true -> keeps_sid c k d ev.
Proof. by destruct ev. Qed.

(** A SUB on a closed connection, then its connection is closed again and a message
    is published to it. *)
Definition leaked_world : World :=
  (handle (sv_world one_closed) 1 (EvSubscribe (bs "x") None (bs "9")) interest_new).1.1.1.

Definition after_leak : list Label * Par :=
  after_schedule no_unsub (par_new leaked_world)
    [T_start 1 (Te_close 1 "ended" false); T_run 1 1;
     T_start 0 (Te_publish (mkMsg (bs "x") None 0 (bs "hi"))); T_run 0 4].


(** Connection 1 publishes the one message 0 asked for; then 0 subscribes again with
    the sid and 2 publishes. *)
Definition spent_world : World := (route (sv_world one_wanted) msg_a 1 interest_new).1.1.

Definition after_spent : list Label * Par :=
  after_schedule no_unsub (par_new spent_world)
    [T_start 0 (Te_subscribe (bs "a") None (bs "1")); T_start 2 (Te_publish msg_a); T_run 2 1; T_run 0 1; T_run 2 3].

Lemma spent_sid_stays_taken_witness :
  (wanted ∉ registered spent_world) /\
  (shut (p_world after_spent.2) 0 \/
   (subs_of (p_world after_spent.2) 0 !! bs "1" = Some wanted /\
    (forall y, y ∈ all_subs (p_inner after_spent.2) -> conn y = 0 -> sid y <> bs "1") /\
    (forall subj q, handle_subscribe (p_world after_spent.2) 0 subj q (bs "1") = p_world after_spent.2))).
Proof.
  destruct (spent_sid_stays_taken (sv_world one_wanted) msg_a 1 interest_new wanted) as [H1 H2].
  - apply one_wanted_ok.
  - by left.
  - apply headroomb_spec. vm_compute. reflexivity.
  - apply list_elem_of_In. vm_compute. left. reflexivity.
  - vm_compute. reflexivity.
  - split; vm_compute; [reflexivity | discriminate].
  - split; [exact H1 |].
    apply (H2 (keeps_sid 0 (bs "1")) after_spent.1 after_spent.2); [done | vm_compute; reflexivity |].
    apply after_schedule_live; [apply no_unsub_keeps |]. vm_compute. reflexivity.
Defined.
